(* ===== verification/_CoqProject ===== *)
-Q . S2P
Prelude.v
JsString.v
CacheControl.v
FrameCursor.v
TagManifest.v
Regex.v
Json.v
JsonParse.v
K8sNames.v
PlanTypes.v
PlanParse.v
PlanFacts.v
PlanFingerprint.v
EtagCache.v
EtagCacheFacts.v
EtagHashFacts.v
Effects.v
DeployState.v
DeployStateFacts.v
ServiceSelector.v
Traffic.v
TrafficFacts.v
StablePools.v
ReleaseNames.v
Gc.v
GcFacts.v
Resp.v
RespFacts.v
RespClient.v
RespClientFacts.v
Gates.v
Retention.v
PrepareRetention.v
RetentionFacts.v
Cutover.v
Commands.v
CutoverCommands.v
Site.v
CutoverOrder.v
CutoverAborts.v
CutoverFacts.v
DispatchProof.v
DispatchProofFacts.v
TrustBoundary.v
TrustBoundaryFacts.v
Drain.v
DrainFacts.v
Matchers.v
MatchersFacts.v
PatternFacts.v
RscBusting.v
RscBustingFacts.v
RouteOutputs.v
RouteOutputsFacts.v
SharedCache.v
UseCache.v
IncrementalCache.v
UseCacheFacts.v
IncrementalFacts.v
CacheMachine.v
UseCacheLogic.v
UseCacheRuns.v
CacheRuns.v
