(* ===== verification/Prelude.v ===== *)
(** * Verification of the Kubernetes adapter for Next.js

    The adapter (src/src) builds a Next.js application into pool images and a Helm chart, deploys
    it, and moves traffic from one build to the next; at run time its pool servers and its routing
    service answer requests and keep shared caches consistent.  This development models the parts
    that decide whether a deploy is safe and whether a response is fresh.  The models are executable
    and keep the names of the source.

    ** Parts and files

    The library under the models:
    - [Prelude]: results of code that can throw, tactics, the hint database [adapter].
    - [JsString], [Regex], [Json], [JsonParse]: the parts of JavaScript the code runs on: string
      methods, RegExp.test (a derivative matcher proved equal to the declarative semantics), JSON
      values, JSON.stringify and JSON.parse with their round trips.
    - [Effects]: state and exceptions ([io]), Hoare triples for them, and the class [Exec] of the
      commands the program runs (cli/exec.ts).

    The components, each one module of the file of the same name:
    - [CacheControl], [CachePolicy] (file CacheControl): cache-control.ts, the verdicts of
      pool-server/cache-policy.ts, the writeHead patch forceCacheControl of pool-server/index.ts,
      the two header guards of routing-service/handler.ts, cdnCacheTag of cdn-tags.ts.
    - [FrameCursor]: pool-server/websocket-frame-cursor.ts and the tunnel of pool-server/server.ts
      that injects a close frame at shutdown, as a step relation.
    - [TagManifest]: pool-server/valkey-cache/tag-manifest.ts, with the Lua merge script.
    - [K8sNames]: emit/templates/utils.ts: names, collision guards, validators, Helm escaping.
    - [PlanTypes], [PlanParse], [PlanFingerprint]: composition-plan/types.ts, parse.ts with
      routing-invariants.ts, fingerprint.ts.  [PlanFacts] proves what the parser guarantees.
    - [DeployState]: cli/state.ts: the local file, the ConfigMap, the optimistic commit.
      [DeployStateFacts] states the API server as the class [StateApi] and proves the protocol
      against it; [server] is an instance.
    - [ServiceSelector]: cutover/service-selector.ts.  [Traffic]: cutover/traffic.ts, which calls
      it once per Service.  [TrafficFacts] states the cluster's Services as the class [ServiceApi],
      with [cluster] an instance, and proves both against it.
    - [Resp], [RespClient]: pool-server/valkey-cache/resp-client.ts: the codec of the protocol, and the
      client as a machine of platform events.  [RespFacts] and [RespClientFacts] prove them.
    - [StablePools], [ReleaseNames], [Gc]: cli/stable-pool-resources.ts, the object names of
      emit/templates, cutover/gc.ts.  [GcFacts] states the objects of a namespace as the class
      [ObjectApi].
    - [Gates]: cutover/gates.ts.  [Retention], [PrepareRetention]: retention.ts, retention-expiry.ts,
      cutover/retention-expiry.ts, cutover/retention.ts; [RetentionFacts] proves them.
    - [Cutover]: cutover/run.ts, which composes all of the above.  [Commands] classifies the commands a
      program may issue, [CutoverCommands] does it for every step of the cutover, and on top of them
      [CutoverOrder] proves what precedes what (class [Traced]), [CutoverAborts] what an abort puts
      back (class [Placement]), [CutoverFacts] what a completed cutover has done (classes [ServiceApi]
      and [StateApi]).  [Site] is a concrete machine, an instance of all these classes.

    - [DispatchProof]: the dispatch credential of routing-common.ts.  [TrustBoundary]: the request and
      response boundary of pool-server/server.ts, the hop to a sibling pool of pool-server/dispatch.ts,
      pool-server/middle-cache.ts.  [DispatchProofFacts] and [TrustBoundaryFacts] prove them.
    - [Drain]: connection tracking and shutdown of pool-server/server.ts as a state machine, over the
      tunnels of [FrameCursor]; [DrainFacts] proves it.
    - [EtagCache]: pool-server/http-cache.ts: If-None-Match, the bounded cache of tags, and the
      admission of the files to hash as a machine of events.  [EtagCacheFacts], [EtagHashFacts].
    - The shared cache of pool-server/valkey-cache.  [SharedCache]: what its two handlers share: the tag
      budget, the clock sample of valkey-clock.ts, the stamping scripts, and asynchronous methods as
      programs.  [UseCache]: use-cache-handler.ts and the drain of stream-codec.ts.
      [IncrementalCache]: incremental-cache-handler.ts and next-runtime/pathname.ts.
      [CacheMachine]: a process that runs the methods of both, which interleave at their awaits, over
      one store that other processes write.  [UseCacheFacts] and [IncrementalFacts] prove operations,
      [UseCacheLogic] is a program logic for such programs with its adequacy, [UseCacheRuns] the
      invariant and the specifications of the use-cache methods in it, and [CacheRuns] those of the
      incremental methods and what holds in every run.
    - [Matchers]: the middleware matchers of routing-common.ts: conditions, the guard on patterns,
      the caches of compiled patterns, what a pool may cover.  [MatchersFacts], [PatternFacts].
    - [RscBusting]: the _rsc parameter of routing-common.ts; [RscBustingFacts].
    - [RouteOutputs]: paths, templates of dynamic routes, the choice of a pool and an output, flight
      outputs and queries of routing-common.ts; [RouteOutputsFacts].

    A deploy parses and verifies its plan ([PlanFingerprint] over [PlanParse], whose member parsers
    call the validators of [K8sNames]), commits its state ([DeployState]) and moves traffic
    ([Traffic] over [ServiceSelector]); [Cutover] puts the gates before that switch, and the retention and
    the collection after that commit.  A pool server forces its cache verdict on every response
    ([CachePolicy] over [CacheControl]), keeps pages in a shared store ([IncrementalCache]) and a local
    front of it ([UseCache]; the freshness rule and the merge script of both are those of [TagManifest]), believes the routing headers of a request only on a credential
    ([TrustBoundary] over [DispatchProof]), runs the middleware a credential has not settled
    ([Matchers], whose verdict enters the transcript of [DispatchProof]), judges cache entries by the shared manifest ([TagManifest])
    and relays WebSocket tunnels ([FrameCursor]).

    ** What is proved

    - Traffic: a switch that returns has moved every Service and no other; one that aborts for a
      Service another deploy has moved has changed nothing; an aborted switch over generic Services
      has put every selector back; whatever commands answer, a Service ends with its old selector,
      its new one or their overlap.  One replacement is a compare-and-swap; its warm-up loop ends.
    - Deploy state: a commit replaces atomically a state of no higher generation than the one it
      started from, an overtaken one writes nothing, a failed one is remembered by later reads, and
      a read reports no state only if both stores are absent.
    - Cutover: the first command that changes a Service comes after the answers that open every gate;
      a cutover that returns has moved the Services, then committed, then cleaned up; one that fails
      before traffic moves puts the edge back, and however it ends the autoscalers have the bounds they
      had.  What is recorded is a valid state.  A rollback waits for its target to serve.
    - Collection: whatever the commands answer, nothing a build in play needs is deleted.
    - Retention: a retained build answers only what a record signed for the reader allows, before its
      deadline; the index a cutover publishes is accepted by that reader; the wait for the pods ends;
      the cleanup parks expired standbys only.
    - Valkey client: replies settle the commands in order, however the bytes are cut, if the close of a
      socket is reported in time, and a run shows that the condition is needed; every promise is kept
      track of, and a command whose timer fires is rejected.
    - Plans: the parser keeps the whole document (equal up to the order of keys), a parsed plan is
      confined to its namespace and release, its names are inert text; two documents verified against
      one digest are equal up to the order of keys, or their canonical texts collide under SHA-256.
    - Names: sanitized names are valid labels of at most 63 characters, the collision guard is exact
      and isolates builds, an escaped value renders back to itself.
    - Caches: the directive parser inverts rendering, the freshness verdict has its declarative
      meaning, no forced response leaves with shared freshness; the merge script leaves the manifest
      of the sequential in-memory update, and a revalidated entry is never fresh again.
    - Tunnels: chunk boundaries have no effect, the cursor reports a boundary exactly between two
      frames, and an injected frame lands on one, at most once.

    - Dispatch: the transcript of a credential determines every routing input it covers, so an accepted
      credential was minted for its request, inside its window, unless the MAC collides; a request's own
      credential is accepted; a dispatch header survives the boundary only under such a credential and
      with the declared body; what a pool authors on a hop is what its sibling believes.  Internal
      response headers never leave.
    - Shutdown: in any interleaving the drain's counters account for every response exactly once, at
      the end nothing tracked is open and each client was told at most once, between two frames; the
      polling loop ends within the grace.

    - Static tags: at most so many files are hashed at a time and so many wait, every file that was
      admitted is answered to all its callers, and a tag that is served is the digest of the bytes the
      file had under the stat it is cached for; the cache refines a list of the last touched keys; the
      comparison of If-None-Match is the weak one of the RFC.
    - Local front: a staged read that hits serves what the shared manifest of its preflight, or a later
      one, calls fresh at that time, in every interleaving and whatever is lost, if the preflights were
      answered ([unanswered_preflight] shows the need); one deadline stands for all tags; the front
      stays bounded; a stored meta is read back with its start on the server's clock.
    - Pages: in every interleaving a read returns only what its tags did not expire on the clock sampled
      with them, and reports its staleness exactly; a record is read back as it was written; a stale
      reader is told to revalidate behind the request where its window can say so; a decoded key keeps
      the segments of its path apart.
    - Matchers: the caches of patterns change no answer, a pool's coverage test answers no only where
      no condition could let a matcher match, the verdict of the dispatcher is bound to the headers the
      conditions read, and the shape the guard accepts is exactly a grammar.
    - Flight requests: requests of one URL carry the same router headers, unless the hash collides or
      an unescaped comma shifts a field; the legacy hash is djb2 in base 36.
    - Outputs: a resolved rewrite is not undone, a template never shadows an output that exists, the
      flight parent of a segment is found, a query keeps the parameters it had.

    ** Bounds and fuel

    - [warm_loop] runs at most [warm_fuel] = 62 passes: its deadline is WARMUP_MS = 300 s away and a
      pass that is not the last sleeps 5 s; [warm_up_terminates] proves the fuel is never exhausted.
    - [propagation_loop] runs at most [propagation_fuel] = 62 passes: PROPAGATION_MS is 120 s and a pass
      that is not the last sleeps 2 s ([propagation_terminates]).  The gates' attempts (24, 30, 3) are
      the source's own.  [parse_reply] takes a fuel that its nesting never exceeds
      ([framing_pass_sound]).
    - [evict_front] takes the number of entries, each pass removing one ([evict_spec]).
    - [pump], which starts the waiting hashes, takes one unit of fuel more than files wait
      ([pump_queue_ok]); [drop_group_names] takes the pattern's length, each step consuming a
      character; the seven digits of [base36_digits] hold 32 bits ([base36_digits_value]).
    - [poll], the drain's polling loop, takes one unit of fuel per millisecond of grace: a pass sleeps
      at least one ([stop_settles]).
    - [observe_loop] takes the chunk's length as fuel, each iteration consuming a byte
      ([observe_loop_fold]); [json_parse] and the pattern parser take the length of their text, each
      nested value or item consuming a character; the round trips and the patterns in use show it
      suffices.
    - JavaScript numbers of the models are integers that a double represents exactly; lengths of
      64 bits above 2^53 - 1 make the cursor untrackable, as in the source.

    ** What the models leave out

    - Characters are UTF-16 code units of the Latin-1 range.  An escape of another code point makes
      [json_parse] refuse the text.
    - A number of a JSON text that is not the canonical text of a safe integer is kept as its text;
      a fractional generation of a deploy state is read as absent.  Objects are lists of properties in
      the order of the text: the reordering of integer-like keys and the special [__proto__] key are
      left out.  Times of the tag manifest are integers.
    - [DeployState] and [Traffic] keep the class of an error and not its message, and leave out
      console output.  Pods are the JSON documents that kubectl prints.
    - What other clients do: the state protocol allows other writers between any two commands; the
      traffic theorems assume that nobody else changes the selectors meanwhile.
    - SHA-256, HMAC, base64, the URL parser, net.isIP, the Compute API, the clock and the random labels
      are parameters; the routing edge, the readiness of a composition plan and the CDN's invalidation
      are collaborators (classes).  The order of microtasks is left out; a refresh of the retention
      reader that several calls await is one step.
    - Header records are finite maps; names that Object.prototype defines are left out.  The bytes of a
      request body are the ones the process buffered.  What Node's HTTP client and parser do to a
      header is the hypothesis [delivers]: the covered names arrive with the values that were written.
    - In the documents kubectl prints, a field whose type is not the declared one is read as absent.
    - The RegExp of an application's pattern, the judgement of redos-detector on it,
      decodeURIComponent and the stream that digests a file are parameters.  A matcher is not mutated
      after it is loaded.  The seams http-cache.ts has for its tests are left out.
    - In the cache handlers log lines are left out, the concatenation of a number in a Lua script and
      the lookup of a build artifact are parameters, lifetimes are whole numbers or not finite, a timer
      may fire at any time, and the hash of the manifest does not expire (its time to live is thirty
      days after the last update).

    Not modelled, and why.  The request handlers of a pool and of the routing service run inside
    Next.js and gRPC: what they decide is the part modelled above ([CachePolicy], [TrustBoundary],
    [TagManifest], [RouteOutputs]), the rest hands streams to packages that are not in the repository.
    Redirects and locale detection of routing-common.ts rest on the URL class and on @next/routing.  The target compiler and the chart templates produce
    documents; the validators that guard them are modelled ([PlanParse], [K8sNames]).  The command
    line, the Compute API client and the build adapter are drivers of other programs; the commands of a
    cutover are modelled with their order.  The protocol buffers are generated, and the middle cache
    is written in Go. *)
From stdpp Require Export base list strings gmap.
From Stdlib Require Export ZArith Lia.

(** ** Outcomes of code that can throw *)

(** A TypeScript function that returns or throws. *)
Inductive outcome (E A : Type) : Type :=
| Returns (a : A)
| Throws (e : E).
Arguments Returns {E A} a.
Arguments Throws {E A} e.

Definition obind {E A B} (m : outcome E A) (f : A → outcome E B) : outcome E B :=
  match m with Returns a => f a | Throws e => Throws e end.

Declare Scope js_scope.
Delimit Scope js_scope with js.
Notation "'let!' x ':=' m 'in' k" := (obind m (fun x => k))
  (at level 10, x pattern, m at level 100, k at level 200) : js_scope.

Lemma obind_Returns {E A B} (m : outcome E A) (f : A → outcome E B) b :
  obind m f = Returns b ↔ ∃ a, m = Returns a ∧ f a = Returns b.
Proof. destruct m; simpl; naive_solver. Qed.

Lemma obind_Throws {E A B} (m : outcome E A) (f : A → outcome E B) e :
  obind m f = Throws e ↔ m = Throws e ∨ ∃ a, m = Returns a ∧ f a = Throws e.
Proof. destruct m; simpl; naive_solver. Qed.

(** ** Automation *)

Create HintDb adapter discriminated.
#[export] Hint Constants Transparent : adapter.

(** Split every conditional of the goal on a boolean or a decision. *)
Ltac split_ifs :=
  repeat match goal with
  | |- context [if ?b then _ else _] => destruct b eqn:?
  end.

(** Turn boolean tests in the context into propositions. *)
Ltac b2p :=
  repeat match goal with
  | H : andb _ _ = true |- _ => apply andb_true_iff in H as [? ?]
  | H : orb _ _ = false |- _ => apply orb_false_iff in H as [? ?]
  | H : negb _ = true |- _ => apply negb_true_iff in H
  | H : negb _ = false |- _ => apply negb_false_iff in H
  | H : bool_decide _ = true |- _ => apply bool_decide_eq_true in H
  | H : bool_decide _ = false |- _ => apply bool_decide_eq_false in H
  | H : Z.eqb _ _ = true |- _ => apply Z.eqb_eq in H
  | H : Z.eqb _ _ = false |- _ => apply Z.eqb_neq in H
  | H : Z.ltb _ _ = true |- _ => apply Z.ltb_lt in H
  | H : Z.ltb _ _ = false |- _ => apply Z.ltb_ge in H
  | H : Z.leb _ _ = true |- _ => apply Z.leb_le in H
  | H : Z.leb _ _ = false |- _ => apply Z.leb_gt in H
  | H : Nat.eqb _ _ = true |- _ => apply Nat.eqb_eq in H
  | H : Nat.eqb _ _ = false |- _ => apply Nat.eqb_neq in H
  | H : Nat.ltb _ _ = true |- _ => apply Nat.ltb_lt in H
  | H : Nat.ltb _ _ = false |- _ => apply Nat.ltb_ge in H
  | H : Nat.leb _ _ = true |- _ => apply Nat.leb_le in H
  | H : Nat.leb _ _ = false |- _ => apply Nat.leb_gt in H
  | H : Ascii.eqb _ _ = true |- _ => apply Ascii.eqb_eq in H
  | H : Ascii.eqb _ _ = false |- _ => apply Ascii.eqb_neq in H
  end.

(** ** Lists *)

Lemma existsb_In {A} (p : A → bool) l : existsb p l = true ↔ ∃ x, x ∈ l ∧ p x = true.
Proof. rewrite existsb_exists. by setoid_rewrite <- list_elem_of_In. Qed.

Lemma forallb_In {A} (p : A → bool) l : forallb p l = true ↔ ∀ x, x ∈ l → p x = true.
Proof. rewrite forallb_forall. by setoid_rewrite <- list_elem_of_In. Qed.

Lemma existsb_false_In {A} (p : A → bool) l : existsb p l = false ↔ ∀ x, x ∈ l → p x = false.
Proof.
  split.
  - intros He x Hx. destruct (p x) eqn:Hp; [|done].
    assert (existsb p l = true) by (apply existsb_In; eauto). congruence.
  - intros Hf. destruct (existsb p l) eqn:He; [|done].
    apply existsb_In in He as (x & Hx & Hp). rewrite Hf in Hp; done.
Qed.
