(* ===== verification/JsString.v ===== *)
(** * JavaScript strings

    A JavaScript string is modelled as its sequence of UTF-16 code units, restricted to the
    Latin-1 range (code units 0 to 255): header values as Node delivers them, Kubernetes names,
    cache tags.  The functions below are the String.prototype methods the modelled code calls. *)
From Stdlib Require Import Ascii String.
From S2P Require Import Prelude.
Local Open Scope char_scope.
Local Open Scope stdpp_scope.

#[global] Arguments String.append : simpl nomatch.

Definition dquote : ascii := ascii_of_nat 34.
Definition backslash : ascii := ascii_of_nat 92.
Definition code (c : ascii) : nat := nat_of_ascii c.

(** WhiteSpace and LineTerminator of ECMAScript within Latin-1. *)
Definition is_js_space (c : ascii) : bool :=
  let n := code c in
  (9 <=? n)%nat && (n <=? 13)%nat || (n =? 32)%nat || (n =? 160)%nat.

Fixpoint trim_start (s : string) : string :=
  match s with
  | EmptyString => EmptyString
  | String c s' => if is_js_space c then trim_start s' else s
  end.

Fixpoint trim_end (s : string) : string :=
  match s with
  | EmptyString => EmptyString
  | String c s' =>
      match trim_end s' with
      | EmptyString => if is_js_space c then EmptyString else String c EmptyString
      | t => String c t
      end
  end.

Definition trim (s : string) : string := trim_end (trim_start s).

(** toLowerCase of one code unit: A-Z, and the Latin-1 capitals except the multiplication sign. *)
Definition lower_char (c : ascii) : ascii :=
  let n := code c in
  if (65 <=? n)%nat && (n <=? 90)%nat
     || (192 <=? n)%nat && (n <=? 222)%nat && negb (n =? 215)%nat
  then ascii_of_nat (n + 32) else c.

Fixpoint map_string (f : ascii → ascii) (s : string) : string :=
  match s with
  | EmptyString => EmptyString
  | String c s' => String (f c) (map_string f s')
  end.

Definition to_lower : string → string := map_string lower_char.

Fixpoint all_chars (p : ascii → bool) (s : string) : bool :=
  match s with EmptyString => true | String c s' => p c && all_chars p s' end.

Definition is_empty (s : string) : bool :=
  match s with EmptyString => true | _ => false end.

(** The split of a string at its first occurrence of [c]: the text before it, and the text after
    it when [c] occurs.  It is what indexOf followed by two slices computes. *)
Fixpoint cut_first (c : ascii) (s : string) : string * option string :=
  match s with
  | EmptyString => (EmptyString, None)
  | String d s' =>
      if Ascii.eqb d c then (EmptyString, Some s')
      else let '(a, b) := cut_first c s' in (String d a, b)
  end.

Fixpoint starts_with (p s : string) : bool :=
  match p, s with
  | EmptyString, _ => true
  | String a p', String b s' => Ascii.eqb a b && starts_with p' s'
  | _, _ => false
  end.

Definition is_digit (c : ascii) : bool := (48 <=? code c)%nat && (code c <=? 57)%nat.

(** The number a string of decimal digits denotes, with the digits read so far in [acc]. *)
Fixpoint digits_value (acc : Z) (s : string) : Z :=
  match s with
  | EmptyString => acc
  | String c s' => digits_value (10 * acc + (Z.of_nat (code c) - 48)) s'
  end.

(** split(c): the pieces between the occurrences of [c]; never empty. *)
Fixpoint split_on (c : ascii) (s : string) : list string :=
  match s with
  | EmptyString => [EmptyString]
  | String d s' =>
      if Ascii.eqb d c then EmptyString :: split_on c s'
      else match split_on c s' with
           | h :: t => String d h :: t
           | [] => [String d EmptyString]
           end
  end.

(** The text before and after the last occurrence of [c]. *)
Fixpoint cut_last (c : ascii) (s : string) : option (string * string) :=
  match s with
  | EmptyString => None
  | String d s' =>
      match cut_last c s' with
      | Some (a, b) => Some (String d a, b)
      | None => if Ascii.eqb d c then Some (EmptyString, s') else None
      end
  end.

Fixpoint take_string (n : nat) (s : string) : string :=
  match n, s with
  | S n', String c s' => String c (take_string n' s')
  | _, _ => EmptyString
  end.

Fixpoint drop_string (n : nat) (s : string) : string :=
  match n, s with
  | S n', String _ s' => drop_string n' s'
  | _, _ => s
  end.

(** slice(0, n): a negative end counts from the end of the string. *)
Definition slice0 (s : string) (n : Z) : string :=
  if (n <? 0)%Z then take_string (Z.to_nat (Z.of_nat (String.length s) + n)) s
  else take_string (Z.to_nat n) s.

Definition includes_char (c : ascii) (s : string) : bool :=
  negb (all_chars (λ d, negb (Ascii.eqb d c)) s).

(** The elements of a Set built from a list, in insertion order. *)
Definition js_set (l : list string) : list string :=
  foldl (λ acc x, if bool_decide (x ∈ acc) then acc else acc ++ [x]) [] l.

(** A text without a character. *)
Definition no_char (c : ascii) (s : string) : bool := all_chars (λ x, negb (Ascii.eqb x c)) s.

Definition newline : string := String (ascii_of_nat 10) EmptyString.

(** ** Lemmas *)

Lemma append_nil_r s : s +:+ "" = s.
Proof. induction s; simpl; congruence. Qed.

Lemma append_assoc a b c : (a +:+ b) +:+ c = a +:+ b +:+ c.
Proof. induction a; simpl; congruence. Qed.

Lemma drop_string_append a b : drop_string (String.length a) (a +:+ b) = b.
Proof. induction a; cbn; auto. Qed.

Lemma take_string_append a b : take_string (String.length a) (a +:+ b) = a.
Proof. induction a; cbn; congruence. Qed.

Lemma append_cons a c s : (a +:+ String c "") +:+ s = a +:+ String c s.
Proof. by rewrite append_assoc. Qed.

Lemma all_chars_append p a b : all_chars p (a +:+ b) = all_chars p a && all_chars p b.
Proof. induction a; simpl; [done|]. rewrite IHa. by rewrite andb_assoc. Qed.

Lemma trim_end_snoc s c : is_js_space c = false → trim_end (s +:+ String c "") = s +:+ String c "".
Proof.
  intros Hc. induction s as [|d s IH]; simpl; [by rewrite Hc|].
  rewrite IH. destruct s; reflexivity.
Qed.

Lemma trim_start_nonspace c s : is_js_space c = false → trim_start (String c s) = String c s.
Proof. simpl. by intros ->. Qed.

(** A string whose characters are not white space is its own trim. *)
Lemma trim_end_id s : all_chars (λ c, negb (is_js_space c)) s = true → trim_end s = s.
Proof.
  induction s as [|c s IH]; simpl; [done|].
  intros [Hc Hs]%andb_true_iff. rewrite (IH Hs). apply negb_true_iff in Hc.
  destruct s; simpl; [by rewrite Hc|done].
Qed.

Lemma trim_start_id s : all_chars (λ c, negb (is_js_space c)) s = true → trim_start s = s.
Proof. destruct s; simpl; [done|]. intros [Hc _]%andb_true_iff. by apply negb_true_iff in Hc as ->. Qed.

Lemma trim_id s : all_chars (λ c, negb (is_js_space c)) s = true → trim s = s.
Proof. intros H. unfold trim. by rewrite trim_start_id, trim_end_id. Qed.

Lemma cut_first_absent c s :
  all_chars (λ d, negb (Ascii.eqb d c)) s = true → cut_first c s = (s, None).
Proof.
  induction s as [|d s IH]; simpl; [done|].
  intros [->%negb_true_iff Hs]%andb_true_iff. by rewrite IH.
Qed.

Lemma cut_first_app c a b :
  all_chars (λ d, negb (Ascii.eqb d c)) a = true →
  cut_first c (a +:+ String c b) = (a, Some b).
Proof.
  induction a as [|d a IH]; simpl.
  - intros _. by rewrite Ascii.eqb_refl.
  - intros [->%negb_true_iff Ha]%andb_true_iff. by rewrite IH.
Qed.

Lemma all_chars_impl (p q : ascii → bool) s :
  (∀ c, p c = true → q c = true) → all_chars p s = true → all_chars q s = true.
Proof.
  intros Hpq. induction s; simpl; [done|].
  intros [H1 H2]%andb_true_iff. rewrite Hpq, IHs; done.
Qed.

Lemma digits_value_mono acc s :
  all_chars is_digit s = true → (0 ≤ acc)%Z → (acc ≤ digits_value acc s)%Z.
Proof.
  revert acc. induction s as [|c s IH]; simpl; [lia|].
  intros acc [Hc Hs]%andb_true_iff Hacc. unfold is_digit, code in *.
  apply andb_true_iff in Hc as [H1%Nat.leb_le H2%Nat.leb_le].
  etrans; [|apply IH; [done|]]; unfold code; lia.
Qed.

Lemma js_set_elem l x : x ∈ js_set l ↔ x ∈ l.
Proof.
  unfold js_set. assert (∀ acc, x ∈ foldl (λ acc x, if bool_decide (x ∈ acc) then acc else acc ++ [x]) acc l
                         ↔ x ∈ acc ∨ x ∈ l) as H.
  { induction l as [|y l IH]; intros acc; simpl.
    - rewrite elem_of_nil. naive_solver.
    - rewrite IH, elem_of_cons. case_bool_decide; [naive_solver|].
      rewrite elem_of_app, list_elem_of_singleton. naive_solver. }
  rewrite H, elem_of_nil. naive_solver.
Qed.

Lemma split_on_nonempty c s : split_on c s ≠ [].
Proof. destruct s as [|x s]; cbn; [done|]. destruct (Ascii.eqb x c); [done|]. by destruct (split_on c s). Qed.

Lemma split_on_app c a b : split_on c (a +:+ String c b) = split_on c a ++ split_on c b.
Proof.
  induction a as [|x a IH]; cbn; [by rewrite Ascii.eqb_refl|].
  rewrite IH. destruct (Ascii.eqb x c); [done|].
  destruct (split_on c a) as [|h t] eqn:Ha; [|done]. by destruct (split_on_nonempty c a).
Qed.

Lemma split_on_absent c s : no_char c s = true → split_on c s = [s].
Proof.
  unfold no_char. induction s as [|x s IH]; cbn; [done|]. destruct (Ascii.eqb x c); [done|].
  intros H. by rewrite IH.
Qed.
