(* ===== verification/CacheControl.v ===== *)
(** * Cache-Control parsing and the shared-freshness verdict

    [Module CacheControl] models src/src/cache-control.ts: the quote-aware member split, the
    directive parser and the predicate that decides whether a Cache-Control value lets a shared
    cache serve hits without revalidating.

    [Module CachePolicy] models the verdicts built on it: forcedCdnCacheControl and
    explicitCacheControlWins of src/src/pool-server/cache-policy.ts, the two header guards of
    src/src/routing-service/handler.ts, and cdnCacheTag of src/src/cdn-tags.ts. *)
From Stdlib Require Import Ascii String.
From S2P Require Import Prelude JsString.
Local Open Scope stdpp_scope.
Local Open Scope js_scope.

Module CacheControl.

(** CacheControlDirective *)
Record directive := Directive { name : string; value : option string }.

#[global] Instance directive_eq_dec : EqDecision directive.
Proof. solve_decision. Defined.

(** CACHE_CONTROL_TOKEN_RE: one or more token characters of RFC 9110. *)
Definition is_token_char (c : ascii) : bool :=
  let n := code c in
  is_digit c
  || ((65 <=? n) && (n <=? 90)) || ((97 <=? n) && (n <=? 122))
  || existsb (Nat.eqb n) [33; 35; 36; 37; 38; 39; 42; 43; 45; 46; 94; 95; 96; 124; 126].

Definition CACHE_CONTROL_TOKEN_RE (s : string) : bool :=
  negb (is_empty s) && all_chars is_token_char s.

(** The member loop.  [cur] is the slice from memberStart to the current index. *)
Fixpoint split_members (quoted escaped : bool) (cur s : string) : list string :=
  match s with
  | EmptyString => [cur]
  | String ch s' =>
      if quoted then
        if escaped then split_members true false (cur +:+ String ch "") s'
        else if Ascii.eqb ch backslash then split_members true true (cur +:+ String ch "") s'
        else if Ascii.eqb ch dquote then split_members false false (cur +:+ String ch "") s'
        else split_members true false (cur +:+ String ch "") s'
      else if Ascii.eqb ch dquote then split_members true escaped (cur +:+ String ch "") s'
      else if Ascii.eqb ch "," then cur :: split_members false escaped "" s'
      else split_members false escaped (cur +:+ String ch "") s'
  end.

(** The scan for the closing quote of a quoted value: the text before it and the text after. *)
Fixpoint close_quote (quotedEscape : bool) (s : string) : option (string * string) :=
  match s with
  | EmptyString => None
  | String ch s' =>
      if quotedEscape then
        match close_quote false s' with Some (i, r) => Some (String ch i, r) | None => None end
      else if Ascii.eqb ch backslash then
        match close_quote true s' with Some (i, r) => Some (String ch i, r) | None => None end
      else if Ascii.eqb ch dquote then Some ("", s')
      else match close_quote false s' with Some (i, r) => Some (String ch i, r) | None => None end
  end.

(** The character class of the replace that removes the escapes of a quoted string. *)
Definition is_quoted_pair_char (c : ascii) : bool :=
  let n := code c in
  (n =? 9) || (n =? 32) || ((33 <=? n) && (n <=? 126)) || (128 <=? n).

Fixpoint unescape (s : string) : string :=
  match s with
  | EmptyString => EmptyString
  | String c s' =>
      if Ascii.eqb c backslash then
        match s' with
        | String d s'' =>
            if is_quoted_pair_char d then String d (unescape s'') else String c (unescape s')
        | EmptyString => String c EmptyString
        end
      else String c (unescape s')
  end.

(** One iteration of the directive loop: [None] where the code continues without pushing. *)
Definition parse_member (rawMember : string) : option directive :=
  let member := trim rawMember in
  if is_empty member then None else
  let '(beforeEquals, afterEquals) := cut_first "=" member in
  let rawName := trim beforeEquals in
  if negb (CACHE_CONTROL_TOKEN_RE rawName) then None else
  match afterEquals with
  | None => Some (Directive (to_lower rawName) None)
  | Some text =>
      let rawValue := trim text in
      match rawValue with
      | String q body =>
          if Ascii.eqb q dquote then
            match close_quote false body with
            | None => None
            | Some (inner, rest) =>
                if is_empty (trim rest)
                then Some (Directive (to_lower rawName) (Some (unescape inner)))
                else None
            end
          else if CACHE_CONTROL_TOKEN_RE rawValue
          then Some (Directive (to_lower rawName) (Some rawValue)) else None
      | EmptyString => None
      end
  end.

Definition parseCacheControlDirectives (cacheControl : string) : list directive :=
  omap parse_member (split_members false false "" cacheControl).

Definition is_unqualified (n : string) (d : directive) : bool :=
  bool_decide (name d = n) && bool_decide (value d = None).

Definition hasUnqualifiedCacheControlDirective (cacheControl n : string) : bool :=
  existsb (is_unqualified (to_lower n)) (parseCacheControlDirectives cacheControl).

(** The valued directives called [n], as the inner function values computes them. *)
Definition values (ds : list directive) (n : string) : list string :=
  omap value (filter (λ d, name d = n) ds).

(** The test of a delta-seconds value: all digits, and a positive number. *)
Definition positive_seconds (v : string) : bool :=
  negb (is_empty v) && all_chars is_digit v && (0 <? digits_value 0 v)%Z.

Definition grantsSharedCacheFreshness (cacheControl : string) : bool :=
  let ds := parseCacheControlDirectives cacheControl in
  let hasUnqualified n := existsb (is_unqualified n) ds in
  if hasUnqualified "no-store" || hasUnqualified "no-cache" || hasUnqualified "private"
  then false
  else
    let grantsPositiveSeconds n := existsb positive_seconds (values ds n) in
    let sMaxAge := values ds "s-maxage" in
    let tail := grantsPositiveSeconds "stale-while-revalidate"
                || grantsPositiveSeconds "stale-if-error" in
    if 0 <? length sMaxAge
    then if existsb positive_seconds sMaxAge then true else tail
    else if grantsPositiveSeconds "max-age" then true else tail.

(** ** The member split *)

(** Join of a list of members with commas: the inverse of the split. *)
Fixpoint join_commas (ms : list string) : string :=
  match ms with
  | [] => ""
  | [m] => m
  | m :: ms' => m +:+ String "," (join_commas ms')
  end.

Lemma split_members_nonempty q e cur s : split_members q e cur s ≠ [].
Proof. revert q e cur. induction s; intros [] [] cur; simpl; split_ifs; done. Qed.

Lemma join_commas_cons m ms : ms ≠ [] → join_commas (m :: ms) = m +:+ String "," (join_commas ms).
Proof. by destruct ms. Qed.

Lemma split_members_join q e cur s : join_commas (split_members q e cur s) = cur +:+ s.
Proof.
  revert q e cur. induction s as [|c s IH]; intros q e cur; simpl.
  - by rewrite append_nil_r.
  - destruct q; [destruct e|]; split_ifs; rewrite ?IH, ?append_cons; try done.
    rewrite join_commas_cons by apply split_members_nonempty.
    rewrite IH. b2p. by subst.
Qed.

(** ** Rendering, for the round trip *)

Fixpoint escape (s : string) : string :=
  match s with
  | EmptyString => EmptyString
  | String c s' =>
      if Ascii.eqb c backslash || Ascii.eqb c dquote
      then String backslash (String c (escape s')) else String c (escape s')
  end.

(** The text of a directive, its value always quoted. *)
Definition render_directive (d : directive) : string :=
  match value d with
  | None => name d
  | Some v => name d +:+ String "=" (String dquote (escape v +:+ String dquote ""))
  end.

(** A directive the parser can produce: its name is a token in lower case. *)
Definition wf_directive (d : directive) : Prop :=
  CACHE_CONTROL_TOKEN_RE (name d) = true ∧ to_lower (name d) = name d.

Lemma token_char_facts c :
  is_token_char c = true →
  is_js_space c = false ∧ Ascii.eqb c dquote = false ∧ Ascii.eqb c "," = false ∧ Ascii.eqb c "=" = false.
Proof. destruct c as [[] [] [] [] [] [] [] []]; vm_compute; done. Qed.

Lemma token_name_facts n :
  all_chars is_token_char n = true →
  all_chars (λ c, negb (is_js_space c)) n = true
  ∧ all_chars (λ c, negb (Ascii.eqb c "=")) n = true
  ∧ all_chars (λ c, negb (Ascii.eqb c dquote) && negb (Ascii.eqb c ",")) n = true.
Proof.
  intros Hn. split_and!; (eapply all_chars_impl; [|exact Hn]);
    intros c (H1&H2&H3&H4)%token_char_facts; by rewrite ?H1, ?H2, ?H3, ?H4.
Qed.

Lemma split_plain cur a s :
  all_chars (λ c, negb (Ascii.eqb c dquote) && negb (Ascii.eqb c ",")) a = true →
  split_members false false cur (a +:+ s) = split_members false false (cur +:+ a) s.
Proof.
  revert cur. induction a as [|c a IH]; intros cur; simpl; [by rewrite append_nil_r|].
  intros [[->%negb_true_iff ->%negb_true_iff]%andb_true_iff Ha]%andb_true_iff.
  by rewrite IH, append_cons.
Qed.

Lemma split_quoted cur v s :
  split_members true false cur (escape v +:+ String dquote s)
  = split_members false false (cur +:+ escape v +:+ String dquote "") s.
Proof.
  revert cur. induction v as [|c v IH]; intros cur; simpl; [done|].
  destruct (Ascii.eqb c backslash) eqn:Hb; simpl; [by rewrite IH, !append_assoc|].
  destruct (Ascii.eqb c dquote) eqn:Hd; simpl; [by rewrite IH, !append_assoc|].
  rewrite Hb, Hd. by rewrite IH, append_assoc.
Qed.

Lemma split_equals_quote cur s :
  split_members false false cur (String "=" (String dquote s))
  = split_members true false (cur +:+ String "=" (String dquote "")) s.
Proof. cbn -[String.append]. by rewrite append_cons. Qed.

Lemma split_directive cur d s :
  wf_directive d →
  split_members false false cur (render_directive d +:+ s)
  = split_members false false (cur +:+ render_directive d) s.
Proof.
  intros [[_ Hn]%andb_true_iff _]. apply token_name_facts in Hn as (_&_&Hn).
  unfold render_directive. destruct (value d) as [v|]; [|by apply split_plain].
  rewrite append_assoc, split_plain by done.
  cbn [String.append]. rewrite append_assoc. cbn [String.append].
  rewrite split_equals_quote, split_quoted. f_equal.
  by rewrite !append_assoc.
Qed.

Lemma close_quote_escape v : close_quote false (escape v +:+ String dquote "") = Some (escape v, "").
Proof.
  induction v as [|c v IH]; simpl; [done|].
  destruct (Ascii.eqb c backslash) eqn:Hb; simpl; [by rewrite IH|].
  destruct (Ascii.eqb c dquote) eqn:Hd; simpl; [by rewrite IH|].
  by rewrite Hb, Hd, IH.
Qed.

Lemma unescape_escape v : unescape (escape v) = v.
Proof.
  induction v as [|c v IH]; simpl; [done|].
  destruct (Ascii.eqb c backslash) eqn:Hb; simpl.
  - apply Ascii.eqb_eq in Hb as ->. simpl. by rewrite IH.
  - destruct (Ascii.eqb c dquote) eqn:Hd; simpl.
    + apply Ascii.eqb_eq in Hd as ->. simpl. by rewrite IH.
    + by rewrite Hb, IH.
Qed.

Lemma trim_quoted v :
  trim (String dquote (v +:+ String dquote "")) = String dquote (v +:+ String dquote "").
Proof.
  unfold trim. rewrite trim_start_nonspace by done.
  exact (trim_end_snoc (String dquote v) dquote eq_refl).
Qed.

Lemma trim_render d : wf_directive d → trim (render_directive d) = render_directive d.
Proof.
  intros [[Hne Hn]%andb_true_iff _]. pose proof Hn as Hn'.
  apply token_name_facts in Hn as (Hs&_&_).
  unfold render_directive. destruct (value d) as [v|]; [|by apply trim_id].
  destruct (name d) as [|c n]; [done|]. simpl in *.
  apply andb_true_iff in Hs as [Hc _]. apply negb_true_iff in Hc.
  unfold trim. rewrite trim_start_nonspace by done.
  pose proof (trim_end_snoc (String c n +:+ String "=" (String dquote (escape v))) dquote eq_refl) as H.
  rewrite append_assoc in H. exact H.
Qed.

Lemma parse_member_render pad d :
  all_chars is_js_space pad = true → wf_directive d →
  parse_member (pad +:+ render_directive d) = Some d.
Proof.
  intros Hpad Hwf. unfold parse_member.
  assert (trim (pad +:+ render_directive d) = render_directive d) as ->.
  { rewrite <- (trim_render d Hwf) at 2. unfold trim. f_equal.
    induction pad as [|c pad IH]; simpl in *; [done|].
    apply andb_true_iff in Hpad as [-> Hpad]. auto. }
  destruct Hwf as [Htok Hlow]. pose proof Htok as [Hne Hn]%andb_true_iff.
  apply token_name_facts in Hn as (Hs&Heq&_).
  unfold render_directive. destruct d as [n [v|]]; simpl in *.
  - rewrite cut_first_app, (trim_id n) by done.
    destruct n as [|c n]; [done|]. cbn [is_empty String.append]. rewrite Htok. cbn [negb].
    rewrite trim_quoted, Ascii.eqb_refl, close_quote_escape. cbn -[to_lower unescape].
    by rewrite unescape_escape, Hlow.
  - rewrite cut_first_absent, (trim_id n), Htok by done.
    destruct n; [done|]. simpl. by rewrite Hlow.
Qed.

Lemma split_members_directives pad ds :
  all_chars is_js_space pad = true → Forall wf_directive ds → ds ≠ [] →
  split_members false false "" (join_commas (map (λ d, pad +:+ render_directive d) ds))
  = map (λ d, pad +:+ render_directive d) ds.
Proof.
  intros Hpad. assert (all_chars (λ c, negb (Ascii.eqb c dquote) && negb (Ascii.eqb c ",")) pad = true).
  { eapply all_chars_impl; [|exact Hpad].
    intros [[] [] [] [] [] [] [] []]; vm_compute; done. }
  induction ds as [|d ds IH]; intros Hwf Hne; [done|]. inversion_clear Hwf.
  destruct ds as [|d' ds].
  - simpl. rewrite split_plain by done. rewrite <- (append_nil_r (render_directive d)).
    rewrite split_directive by done. simpl. by rewrite append_nil_r.
  - change (join_commas (map _ (d :: d' :: ds))) with
      ((pad +:+ render_directive d) +:+ String "," (join_commas (map (λ d, pad +:+ render_directive d) (d' :: ds)))).
    rewrite append_assoc, split_plain, split_directive by done.
    transitivity ((pad +:+ render_directive d) :: map (λ d, pad +:+ render_directive d) (d' :: ds)); [|done].
    cbn [split_members Ascii.eqb]. f_equal. by apply IH.
Qed.

(** A list of well-formed directives, each rendered after any white space with its value
    quoted, parses back to itself: commas, quotes and backslashes inside quoted values survive. *)
Theorem parse_render pad ds :
  all_chars is_js_space pad = true → Forall wf_directive ds →
  parseCacheControlDirectives (join_commas (map (λ d, pad +:+ render_directive d) ds)) = ds.
Proof.
  intros Hpad Hwf. destruct ds as [|d ds]; [done|].
  unfold parseCacheControlDirectives. rewrite split_members_directives by done.
  induction Hwf as [|d' ds' Hd Hds IH]; [done|]. simpl. rewrite parse_member_render by done.
  simpl. f_equal. exact IH.
Qed.

(** The witness of the round trip: an extension whose quoted value hides a directive name. *)
Lemma parse_render_witness :
  let ds := [Directive "x-note" (Some ("a, no-store " +:+ String dquote ""));
             Directive "s-maxage" (Some "60")] in
  parseCacheControlDirectives (join_commas (map (λ d, " " +:+ render_directive d) ds)) = ds.
Proof. apply (parse_render " "); [done|]. repeat constructor. Defined.

(** The member split loses nothing: the members joined with commas are the header. *)
Theorem split_lossless s : join_commas (split_members false false "" s) = s.
Proof. apply split_members_join. Qed.

(** ** The freshness verdict *)

Lemma has_unqualified ds n : existsb (is_unqualified n) ds = true ↔ Directive n None ∈ ds.
Proof.
  rewrite existsb_In. unfold is_unqualified. split.
  - intros ([n' v] & Hin & Hp). simpl in Hp. b2p. by subst.
  - intros Hin. eexists; split; [exact Hin|]. simpl. by rewrite !bool_decide_eq_true_2.
Qed.

Lemma elem_of_values ds n v : v ∈ values ds n ↔ Directive n (Some v) ∈ ds.
Proof.
  unfold values. rewrite list_elem_of_omap. setoid_rewrite list_elem_of_filter. split.
  - intros ([n' v'] & [Hn Hin] & Hv). simpl in *. by subst.
  - intros Hin. by exists (Directive n (Some v)).
Qed.

(** A directive list holds [n] with a positive number of seconds. *)
Definition positive_in (ds : list directive) (n : string) : Prop :=
  ∃ v, Directive n (Some v) ∈ ds ∧ positive_seconds v = true.

Lemma existsb_positive ds n : existsb positive_seconds (values ds n) = true ↔ positive_in ds n.
Proof. rewrite existsb_In. unfold positive_in. by setoid_rewrite elem_of_values. Qed.

Lemma values_empty ds n : (0 <? length (values ds n)) = false ↔ (∀ v, Directive n (Some v) ∉ ds).
Proof.
  setoid_rewrite <- elem_of_values. destruct (values ds n) as [|v vs]; simpl; split; try done.
  - intros _ v. apply not_elem_of_nil.
  - intros H. exfalso. apply (H v). apply list_elem_of_here.
Qed.

(** Functional specification of the verdict.  A header grants freshness exactly when it has
    no unqualified no-store, no-cache or private directive and one of: a positive s-maxage; no
    s-maxage value at all and a positive max-age; a positive stale-while-revalidate; a positive
    stale-if-error.  In particular an s-maxage of zero disables a positive max-age. *)
Theorem grants_spec cc :
  let ds := parseCacheControlDirectives cc in
  grantsSharedCacheFreshness cc = true ↔
  (Directive "no-store" None ∉ ds ∧ Directive "no-cache" None ∉ ds ∧ Directive "private" None ∉ ds)
  ∧ (positive_in ds "s-maxage"
     ∨ ((∀ v, Directive "s-maxage" (Some v) ∉ ds) ∧ positive_in ds "max-age")
     ∨ positive_in ds "stale-while-revalidate" ∨ positive_in ds "stale-if-error").
Proof.
  intros ds. unfold grantsSharedCacheFreshness. fold ds. rewrite <- !has_unqualified, <- !existsb_positive.
  rewrite <- values_empty.
  destruct (existsb (is_unqualified "no-store") ds), (existsb (is_unqualified "no-cache") ds),
    (existsb (is_unqualified "private") ds); simpl; try (split; [done|intros [(?&?&?) _]; congruence]).
  destruct (0 <? length (values ds "s-maxage")) eqn:Hlen.
  - destruct (existsb positive_seconds (values ds "s-maxage")); simpl; rewrite ?orb_true_iff; intuition done.
  - assert (existsb positive_seconds (values ds "s-maxage") = false) as ->.
    { by destruct (values ds "s-maxage"). }
    destruct (existsb positive_seconds (values ds "max-age")); simpl; rewrite ?orb_true_iff; intuition done.
Qed.

Lemma unqualified_veto cc n :
  n ∈ ["no-store"; "no-cache"; "private"] →
  existsb (is_unqualified n) (parseCacheControlDirectives cc) = true →
  grantsSharedCacheFreshness cc = false.
Proof.
  intros Hn He. unfold grantsSharedCacheFreshness.
  assert (n = "no-store" ∨ n = "no-cache" ∨ n = "private") as [->|[->| ->]] by set_solver;
    rewrite He; by rewrite ?orb_true_r.
Qed.

End CacheControl.

(** * The verdicts built on it *)

Module CachePolicy.
Import CacheControl.

(** The forced verdicts of forcedCdnCacheControl. *)
Inductive forced := NoStore | NoCache.

#[global] Instance forced_eq_dec : EqDecision forced.
Proof. solve_decision. Defined.

Definition forced_text (f : forced) : string :=
  match f with NoStore => "no-store" | NoCache => "no-cache" end.

Definition forcedCdnCacheControl
    (isPprRoute middlewareCovers emulateNextServer rscHeadersUnvalidated : bool) : option forced :=
  if isPprRoute then Some NoStore
  else if rscHeadersUnvalidated then Some NoStore
  else if middlewareCovers && negb emulateNextServer then Some NoCache
  else None.

(** A null or empty resolvedCacheControl is falsy. *)
Definition explicitCacheControlWins
    (f : forced) (resolvedCacheControl : option string) (responseCacheControls : list string) : bool :=
  if negb (bool_decide (f = NoCache)) then false else
  match resolvedCacheControl with
  | None => false
  | Some resolved =>
      if is_empty resolved then false
      else if hasUnqualifiedCacheControlDirective resolved "no-store" then true
      else if existsb (λ cc, hasUnqualifiedCacheControlDirective cc "no-store") responseCacheControls
      then false
      else negb (grantsSharedCacheFreshness resolved)
  end.

(** *** Header arguments of writeHead *)

(** A header value: a string or an array of strings. *)
Inductive hvalue := HStr (s : string) | HArr (l : list string).

Fixpoint join_with (sep : string) (l : list string) : string :=
  match l with
  | [] => ""
  | [x] => x
  | x :: l' => x +:+ sep +:+ join_with sep l'
  end.

(** String(value): an array is joined with commas. *)
Definition js_String (v : hvalue) : string :=
  match v with HStr s => s | HArr l => join_with "," l end.

(** The rendering observedCacheControls uses for objects and for the header map. *)
Definition joined (v : hvalue) : string :=
  match v with HStr s => s | HArr l => join_with ", " l end.

(** The three shapes of a writeHead headers argument: an object, an array of name and value
    pairs, and a flat array that alternates names and values. *)
Inductive headers_arg :=
| HObject (entries : list (string * hvalue))
| HTuples (entries : list (string * hvalue))
| HFlat (items : list hvalue).

(** The pairwise loop over the flat form, which ignores a trailing name without a value. *)
Fixpoint filter_flat (isBanned : string → bool) (items : list hvalue) : list hvalue :=
  match items with
  | n :: v :: rest =>
      if isBanned (js_String n) then filter_flat isBanned rest
      else n :: v :: filter_flat isBanned rest
  | _ => []
  end.

Definition filterWriteHeadHeadersArg (arg : headers_arg) (isBanned : string → bool) : headers_arg :=
  match arg with
  | HObject es => HObject (filter (λ e, isBanned e.1 = false) es)
  | HTuples es => HTuples (filter (λ e, isBanned e.1 = false) es)
  | HFlat items => HFlat (filter_flat isBanned items)
  end.

(** The name and value pairs Node sends for an argument. *)
Fixpoint flat_entries (items : list hvalue) : list (string * hvalue) :=
  match items with
  | n :: v :: rest => (js_String n, v) :: flat_entries rest
  | _ => []
  end.

Definition arg_entries (arg : headers_arg) : list (string * hvalue) :=
  match arg with HObject es | HTuples es => es | HFlat items => flat_entries items end.

(** The response under construction: the setHeader map, keyed by lower-case names. *)
Abbreviation header_map := (gmap string hvalue).

Definition observed_in (arg : headers_arg) : list string :=
  match arg with
  | HObject es => omap (λ e, if to_lower e.1 =? "cache-control" then Some (joined e.2) else None)%string es
  | _ => omap (λ e, if to_lower e.1 =? "cache-control" then Some (js_String e.2) else None)%string
              (arg_entries arg)
  end.

Definition observedCacheControls (args : list headers_arg) (res : header_map) : list string :=
  concat (map observed_in args)
  ++ match res !! "cache-control" with Some v => [joined v] | None => [] end.

(** *** The forced-cache wrapper of writeHead *)

(** What Node sends for header [n]: the entries of the arguments when one is named [n], and
    the header map otherwise. *)
Definition wire_values (n : string) (out : list headers_arg * header_map) : list string :=
  let from_args := map (λ e, js_String e.2)
    (filter (λ e : string * hvalue, to_lower e.1 = n) (concat (map arg_entries out.1))) in
  match from_args with
  | [] => match out.2 !! n with Some v => [js_String v] | None => [] end
  | vs => vs
  end.

Section Tagging.
(** The hexadecimal SHA-256 digest of node:crypto. *)
Variable sha256_hex : string → string.

Definition cdnTagForBuildId (buildId : string) : string := "build-" +:+ sha256_hex buildId.

Definition cdnCacheTag (cacheControl : string) (buildId : option string) : option string :=
  match buildId with
  | None => None
  | Some b =>
      if is_empty b then None
      else if hasUnqualifiedCacheControlDirective cacheControl "immutable" then None
      else if grantsSharedCacheFreshness cacheControl then Some (cdnTagForBuildId b) else None
  end.

Definition is_name (n : string) (name : string) : bool := bool_decide (to_lower name = n).

(** forceCacheControl of the pool server, on the headers arguments and the header map. *)
Definition forceCacheControl (f : option forced) (appCacheControl buildId : option string)
    (preMerge : list string) (args : list headers_arg) (res : header_map)
    : list headers_arg * header_map :=
  match f with
  | None => (args, res)
  | Some f =>
      if explicitCacheControlWins f appCacheControl (preMerge ++ observedCacheControls args res)
      then
        let app := default "" appCacheControl in
        let args := map (λ a, filterWriteHeadHeadersArg a (is_name "cache-tag")) args in
        let res := <["cache-control" := HStr app]> (delete "cache-tag" res) in
        match cdnCacheTag app buildId with
        | Some tag => (args, <["cache-tag" := HStr tag]> res)
        | None => (args, res)
        end
      else
        (map (λ a, filterWriteHeadHeadersArg a
                     (λ n, is_name "cache-control" n || is_name "cache-tag" n)) args,
         <["cache-control" := HStr (forced_text f)]> (delete "cache-tag" res))
  end.

End Tagging.

(** *** The routing tier's own responses *)

(** withRscCacheBustingGuard *)
Definition withRscCacheBustingGuard (headers : list (string * string)) (unvalidatedRscRequest : bool)
    : list (string * string) :=
  if negb unvalidatedRscRequest then headers
  else map (λ '(k, v), if bool_decide (to_lower k = "cache-control") && grantsSharedCacheFreshness v
                       then (k, "no-store") else (k, v)) headers.

(** withMiddlewareCachePolicy *)
Definition withMiddlewareCachePolicy (headers : list (string * string)) : list (string * string) :=
  map (λ '(k, v), if bool_decide (to_lower k = "cache-control") && grantsSharedCacheFreshness v
                  then (k, "no-cache") else (k, v)) headers.

(** ** Theorems *)

Lemma flat_entries_filter p items :
  flat_entries (filter_flat p items) = filter (λ e, p e.1 = false) (flat_entries items).
Proof.
  (* Two items at a time. *)
  revert items. fix IH 1. intros [|n [|v items]]; [done..|]. cbn [filter_flat flat_entries].
  rewrite filter_cons. cbn [fst]. destruct (p (js_String n)); case_decide; try done; try apply IH.
  cbn [flat_entries]. f_equal. apply IH.
Qed.

Lemma arg_entries_filter a p :
  arg_entries (filterWriteHeadHeadersArg a p) = filter (λ e, p e.1 = false) (arg_entries a).
Proof. destruct a; simpl; auto using flat_entries_filter. Qed.

(** Whatever shape the headers argument has, the filter leaves exactly the entries whose name
    is not banned, in order: no banned header of a flat array reaches the client. *)
Theorem filter_removes_banned a isBanned :
  arg_entries (filterWriteHeadHeadersArg a isBanned)
  = filter (λ e, isBanned e.1 = false) (arg_entries a).
Proof. apply arg_entries_filter. Qed.

Lemma explicit_wins_not_fresh f app obs :
  explicitCacheControlWins f app obs = true →
  ∃ cc, app = Some cc ∧ grantsSharedCacheFreshness cc = false.
Proof.
  unfold explicitCacheControlWins. destruct f; simpl; [done|]. destruct app as [cc|]; [|done].
  destruct (is_empty cc); [done|].
  destruct (hasUnqualifiedCacheControlDirective cc "no-store") eqn:Hns.
  - intros _. exists cc; split; [done|]. eapply unqualified_veto; [|exact Hns]. set_solver.
  - destruct (existsb _ obs); [done|]. intros Hg%negb_true_iff. eauto.
Qed.

Lemma wire_filtered n args p res :
  (∀ k, to_lower k = n → p k = true) →
  wire_values n (map (λ a, filterWriteHeadHeadersArg a p) args, res)
  = match res !! n with Some v => [js_String v] | None => [] end.
Proof.
  intros Hp. unfold wire_values; simpl.
  assert (filter (λ e, to_lower e.1 = n)
    (concat (map arg_entries (map (λ a, filterWriteHeadHeadersArg a p) args))) = []) as ->; [|done].
  induction args as [|a args IH]; simpl; [done|].
  rewrite filter_app, IH, app_nil_r, arg_entries_filter.
  induction (arg_entries a) as [|e es IHe]; [done|].
  rewrite filter_cons. destruct (decide (p e.1 = false)) as [Hb|]; [|done].
  rewrite filter_cons, decide_False; [done|]. intros Hn. rewrite Hp in Hb; done.
Qed.

Lemma forced_text_not_fresh f : grantsSharedCacheFreshness (forced_text f) = false.
Proof. by destruct f; vm_compute. Qed.

Lemma wire_values_args n p args res v :
  v ∈ wire_values n (map (λ a, filterWriteHeadHeadersArg a p) args, res) →
  (∃ a e, a ∈ args ∧ e ∈ arg_entries a ∧ to_lower e.1 = n ∧ v = js_String e.2)
  ∨ ∃ h, res !! n = Some h ∧ v = js_String h.
Proof.
  unfold wire_values; simpl. intros Hv.
  destruct (map _ _) as [|x xs] eqn:Hm in Hv.
  - right. destruct (res !! n); set_solver.
  - left. rewrite <- Hm in Hv. apply list_elem_of_fmap in Hv as (e & -> & He).
    apply list_elem_of_filter in He as [Hn (l & Hl & He)%list_elem_of_In%in_concat].
    apply list_elem_of_In in He. apply in_map_iff in Hl as (a' & <- & Ha').
    apply in_map_iff in Ha' as (a & <- & Ha). rewrite arg_entries_filter in He.
    apply list_elem_of_filter in He as [_ He]. apply list_elem_of_In in Ha. eauto 10.
Qed.



Lemma map_policy_not_fresh (f : string) hs k v :
  grantsSharedCacheFreshness f = false → to_lower k = "cache-control" →
  (k, v) ∈ map (λ '(k, v), if bool_decide (to_lower k = "cache-control") && grantsSharedCacheFreshness v
                           then (k, f) else (k, v)) hs →
  grantsSharedCacheFreshness v = false.
Proof.
  intros Hf Hk ([k' v'] & Heq & _)%list_elem_of_fmap.
  destruct (bool_decide (to_lower k' = "cache-control")) eqn:Hb; simpl in *.
  - destruct (grantsSharedCacheFreshness v') eqn:Hg; by simplify_eq.
  - simplify_eq. by apply bool_decide_eq_false in Hb.
Qed.

(** Cache safety of the routing tier: neither guard lets a response it authors carry a
    Cache-Control that grants shared freshness, and applying both in the handler's order keeps
    the no-store the first one stamped. *)
Theorem routing_tier_never_fresh hs k v :
  to_lower k = "cache-control" →
  (k, v) ∈ withMiddlewareCachePolicy (withRscCacheBustingGuard hs true) →
  grantsSharedCacheFreshness v = false
  ∧ (∀ v', (k, v') ∈ hs → grantsSharedCacheFreshness v' = true →
       (k, "no-store") ∈ withMiddlewareCachePolicy (withRscCacheBustingGuard hs true)).
Proof.
  intros Hk Hin. split.
  - exact (map_policy_not_fresh "no-cache" _ _ _ eq_refl Hk Hin).
  - intros v' Hv' Hg. apply list_elem_of_fmap. exists (k, "no-store"). split.
    + rewrite bool_decide_eq_true_2 by done. by vm_compute.
    + apply list_elem_of_fmap. exists (k, v'). by rewrite bool_decide_eq_true_2, Hg.
Qed.

Lemma routing_tier_never_fresh_witness :
  grantsSharedCacheFreshness "no-store" = false
  ∧ (∀ v', ("Cache-Control", v') ∈ [("Cache-Control", "public, s-maxage=600")] →
       grantsSharedCacheFreshness v' = true →
       ("Cache-Control", "no-store") ∈ withMiddlewareCachePolicy
          (withRscCacheBustingGuard [("Cache-Control", "public, s-maxage=600")] true)).
Proof. apply routing_tier_never_fresh; [done|]. vm_compute. apply list_elem_of_here. Defined.

End CachePolicy.
