(* ===== verification/FrameCursor.v ===== *)
(** * The client-bound frame cursor of a WebSocket tunnel

    Models src/src/pool-server/websocket-frame-cursor.ts: the RFC 6455 header reader, the cursor
    that follows the bytes relayed to the client, and the injection of a close frame at
    shutdown.  Bytes are integers from 0 to 255.  A tunnel is a step system: the sibling pool's
    chunks arrive (and are relayed while the pipe is attached), and shutdown may try to inject. *)
From S2P Require Import Prelude.
Local Open Scope Z_scope.

Module FrameCursor.

Definition MAX_SAFE_INTEGER : Z := 2 ^ 53 - 1.

Definition isSafeInteger (n : Z) : bool := (- MAX_SAFE_INTEGER <=? n) && (n <=? MAX_SAFE_INTEGER).

(** ParsedFrameHeader, and the two reasons there is none. *)
Inductive header_result :=
| Incomplete
| Untrackable
| Parsed (payloadLength : Z) (close : bool).

(** The loop over the eight length bytes, which stops at the first unsafe value. *)
Fixpoint length64 (payloadLength : Z) (bytes : list Z) : option Z :=
  match bytes with
  | [] => Some payloadLength
  | b :: bytes' =>
      let n := payloadLength * 256 + b in
      if isSafeInteger n then length64 n bytes' else None
  end.

Definition parseFrameHeader (header : list Z) : header_result :=
  match header with
  | h0 :: h1 :: ext =>
      let close := Z.land h0 15 =? 8 in
      if negb (Z.land h1 128 =? 0) then Untrackable
      else
        let length7 := Z.land h1 127 in
        if length7 <? 126 then Parsed length7 close
        else if length7 =? 126 then
          match ext with
          | h2 :: h3 :: _ => Parsed (Z.lor (Z.shiftl h2 8) h3) close
          | _ => Incomplete
          end
        else if (length ext <? 8)%nat then Incomplete
        else match length64 0 (take 8 ext) with
             | None => Untrackable
             | Some n => Parsed n close
             end
  | _ => Incomplete
  end.

(** ClientBoundFrameCursor *)
Record cursor := Cursor {
  trackable : bool;
  payloadRemaining : Z;
  header : list Z;
  closeRelayed : bool;
  relayStopped : bool
}.

Definition new_cursor : cursor := Cursor true 0 [] false false.

(** The body of the observe loop for one header byte. *)
Definition push_header (c : cursor) (b : Z) : cursor :=
  let h := header c ++ [b] in
  match parseFrameHeader h with
  | Incomplete => Cursor (trackable c) (payloadRemaining c) h (closeRelayed c) (relayStopped c)
  | Untrackable => Cursor false (payloadRemaining c) h (closeRelayed c) (relayStopped c)
  | Parsed n close => Cursor (trackable c) n [] (closeRelayed c || close) (relayStopped c)
  end.

Definition set_remaining (c : cursor) (n : Z) : cursor :=
  Cursor (trackable c) n (header c) (closeRelayed c) (relayStopped c).

(** The observe loop.  Every iteration consumes at least one byte of the chunk, so the length of
    the chunk is enough fuel. *)
Fixpoint observe_loop (fuel : nat) (c : cursor) (chunk : list Z) : cursor :=
  match fuel, chunk with
  | S fuel', b :: rest =>
      if 0 <? payloadRemaining c then
        let consumed := Z.min (payloadRemaining c) (Z.of_nat (length chunk)) in
        observe_loop fuel' (set_remaining c (payloadRemaining c - consumed))
                     (drop (Z.to_nat consumed) chunk)
      else
        let c' := push_header c b in
        if trackable c' then observe_loop fuel' c' rest else c'
  | _, _ => c
  end.

Definition observe (c : cursor) (chunk : list Z) : cursor :=
  if negb (trackable c) then c else observe_loop (length chunk) c chunk.

Definition atFrameBoundary (c : cursor) : bool :=
  trackable c && negb (relayStopped c) && negb (closeRelayed c)
  && (payloadRemaining c =? 0) && (length (header c) =? 0)%nat.

Definition stop_cursor (c : cursor) : cursor :=
  Cursor (trackable c) (payloadRemaining c) (header c) (closeRelayed c) true.

(** ** Tunnels *)

(** The client end of a tunnel: the cursor the WeakMap holds for its socket (none when the socket
    is not tracked), the bytes written to the client so far, and whether the pipe is attached. *)
Record tunnel := Tunnel {
  tracked : option cursor;
  client_stream : list Z;
  piped : bool
}.

(** trackTunnelFraming: [relayedHead] was written to the client before the pipe existed. *)
Definition trackTunnelFraming (relayedHead : list Z) : tunnel :=
  Tunnel (Some (if (0 <? length relayedHead)%nat then observe new_cursor relayedHead else new_cursor))
         relayedHead true.

(** A chunk of the pool socket: the pipe writes it while attached, the listener observes it. *)
Definition pool_data (t : tunnel) (chunk : list Z) : tunnel :=
  Tunnel ((λ c, observe c chunk) <$> tracked t)
         (if piped t then client_stream t ++ chunk else client_stream t) (piped t).

Definition injectTunnelCloseFrame (t : tunnel) (closeFrame : list Z) : tunnel * bool :=
  match tracked t with
  | None => (t, false)
  | Some c =>
      if atFrameBoundary c
      then (Tunnel (Some (stop_cursor c)) (client_stream t ++ closeFrame) false, true)
      else (t, false)
  end.

(** Steps of a tunnel, labelled with whether a close frame was injected. *)
Inductive tunnel_step (closeFrame : list Z) : tunnel → bool → tunnel → Prop :=
| step_data t chunk :
    Forall (λ b, 0 ≤ b < 256) chunk → tunnel_step closeFrame t false (pool_data t chunk)
| step_inject t t' ok :
    injectTunnelCloseFrame t closeFrame = (t', ok) → tunnel_step closeFrame t ok t'.

(** ** The specification of server frames *)

(** The big-endian value of a list of bytes. *)
Definition big_endian (bs : list Z) : Z := foldl (λ n b, n * 256 + b) 0 bs.

(** An unmasked frame on the wire: header, length in one of the three forms, payload.  The index
    says whether it is a close frame. *)
Inductive server_frame : list Z → bool → Prop :=
| frame_short b0 l payload :
    0 ≤ l < 126 → Z.of_nat (length payload) = l →
    server_frame (b0 :: l :: payload) (Z.land b0 15 =? 8)
| frame_medium b0 h l payload :
    0 ≤ h < 256 → 0 ≤ l < 256 → Z.of_nat (length payload) = h * 256 + l →
    server_frame (b0 :: 126 :: h :: l :: payload) (Z.land b0 15 =? 8)
| frame_long b0 ls payload :
    length ls = 8%nat → Forall (λ b, 0 ≤ b < 256) ls →
    Z.of_nat (length payload) = big_endian ls → big_endian ls ≤ MAX_SAFE_INTEGER →
    server_frame (b0 :: 127 :: ls ++ payload) (Z.land b0 15 =? 8).

(** A stream made of complete frames, none of them a close frame. *)
Definition between_frames (stream : list Z) : Prop :=
  ∃ frames, stream = concat frames ∧ Forall (λ f, server_frame f false) frames.

Abbreviation byte b := (0 ≤ b < 256).

(** ** Bits of a header byte *)

Lemma byte_forall (P : Z → bool) :
  forallb (λ n, P (Z.of_nat n)) (seq 0 256) = true → ∀ b, byte b → P b = true.
Proof.
  intros HP b Hb. rewrite forallb_In in HP. specialize (HP (Z.to_nat b)).
  rewrite Z2Nat.id in HP by lia. apply HP, elem_of_seq. lia.
Qed.

Lemma unmasked_spec b : byte b → (Z.land b 128 =? 0) = (b <? 128).
Proof.
  intros Hb. apply eqb_prop. revert b Hb.
  apply (byte_forall (λ b, Bool.eqb (Z.land b 128 =? 0) (b <? 128))). by vm_compute.
Qed.

Lemma length7_spec b : 0 ≤ b < 128 → Z.land b 127 = b.
Proof. intros Hb. change 127 with (Z.ones 7). rewrite Z.land_ones, Z.mod_small by lia. done. Qed.

Lemma length16_spec h l : byte l → Z.lor (Z.shiftl h 8) l = h * 256 + l.
Proof.
  intros Hl. assert (Z.land (Z.shiftl h 8) l = 0) as Hz.
  { rewrite <- (Z.mod_small l (2 ^ 8)), <- Z.land_ones by lia.
    apply Z.bits_inj'. intros n Hn. rewrite !Z.land_spec, Z.bits_0.
    destruct (decide (n < 8)).
    - rewrite Z.shiftl_spec_low by lia. done.
    - rewrite Z.ones_spec_high by lia. by rewrite !andb_false_r. }
  rewrite <- Z.lxor_lor, <- Z.add_nocarry_lxor, Z.shiftl_mul_pow2 by done. lia.
Qed.

Lemma big_endian_le acc bs : Forall (λ b, byte b) bs → 0 ≤ acc → acc ≤ foldl (λ n b, n * 256 + b) acc bs.
Proof.
  intros Hbs. revert acc. induction Hbs as [|b bs Hb _ IH]; simpl; intros acc Hacc; [lia|].
  etrans; [|apply IH]; lia.
Qed.

Lemma length64_spec acc bs :
  Forall (λ b, byte b) bs → 0 ≤ acc ≤ MAX_SAFE_INTEGER →
  let n := foldl (λ n b, n * 256 + b) acc bs in
  length64 acc bs = if n <=? MAX_SAFE_INTEGER then Some n else None.
Proof.
  intros Hbs. revert acc. induction Hbs as [|b bs Hb Hbs IH]; simpl; intros acc Hacc.
  - by rewrite (proj2 (Z.leb_le _ _)) by lia.
  - unfold isSafeInteger. destruct (acc * 256 + b <=? MAX_SAFE_INTEGER) eqn:Hle.
    + rewrite (proj2 (Z.leb_le _ _)) by (unfold MAX_SAFE_INTEGER; lia). simpl. apply IH. b2p. lia.
    + rewrite andb_false_r. pose proof (big_endian_le (acc * 256 + b) bs Hbs).
      rewrite (proj2 (Z.leb_gt _ _)); [done|]. b2p. lia.
Qed.

(** ** Byte-by-byte reference *)

(** What one more byte does to the cursor. *)
Definition observe_byte (c : cursor) (b : Z) : cursor :=
  if negb (trackable c) then c
  else if 0 <? payloadRemaining c then set_remaining c (payloadRemaining c - 1)
  else push_header c b.

Lemma observe_untrackable c bs : trackable c = false → foldl observe_byte c bs = c.
Proof.
  intros Hc. induction bs as [|b bs IH]; [done|]. simpl. unfold observe_byte at 2.
  by rewrite Hc.
Qed.

Lemma observe_skip c bs :
  trackable c = true → Z.of_nat (length bs) ≤ payloadRemaining c →
  foldl observe_byte c bs = set_remaining c (payloadRemaining c - Z.of_nat (length bs)).
Proof.
  revert c. induction bs as [|b bs IH]; intros c Hc Hlen; simpl.
  - destruct c; unfold set_remaining; simpl. f_equal. lia.
  - simpl in Hlen. rewrite IH; unfold observe_byte; rewrite Hc; simpl;
      rewrite (proj2 (Z.ltb_lt _ _)) by lia; try done; simpl; [|lia].
    unfold set_remaining; simpl. f_equal. lia.
Qed.

Lemma observe_loop_fold fuel c chunk :
  (length chunk ≤ fuel)%nat → trackable c = true →
  observe_loop fuel c chunk = foldl observe_byte c chunk.
Proof.
  revert c chunk. induction fuel as [|fuel IH]; intros c [|b rest] Hlen Hc; simpl in *; try done; [lia|].
  destruct (0 <? payloadRemaining c) eqn:Hrem.
  - set (n := Z.min _ _). b2p.
    rewrite IH; [|rewrite length_drop; simpl; lia|done].
    change (foldl observe_byte (observe_byte c b) rest) with (foldl observe_byte c (b :: rest)).
    transitivity (foldl observe_byte c (take (Z.to_nat n) (b :: rest) ++ drop (Z.to_nat n) (b :: rest)));
      [|by rewrite take_drop].
    rewrite foldl_app. f_equal. rewrite observe_skip; rewrite ?length_take; try done; simpl; [|lia].
    f_equal. lia.
  - assert (observe_byte c b = push_header c b) as -> by (unfold observe_byte; by rewrite Hc, Hrem).
    destruct (trackable (push_header c b)) eqn:Ht; [apply IH; [lia|done]|].
    by rewrite observe_untrackable.
Qed.

Lemma observe_fold c chunk : observe c chunk = foldl observe_byte c chunk.
Proof.
  unfold observe. destruct (trackable c) eqn:Hc; simpl.
  - by apply observe_loop_fold.
  - by rewrite observe_untrackable.
Qed.

Lemma observe_app c a b : observe c (a ++ b) = observe (observe c a) b.
Proof. by rewrite !observe_fold, foldl_app. Qed.

(** Chunking does not matter: the bulk skip over payloads computes, for any split of the
    stream into TCP chunks, what reading it byte by byte computes. *)
Theorem observe_chunks c chunks : foldl observe c chunks = foldl observe_byte c (concat chunks).
Proof.
  revert c. induction chunks as [|x xs IH]; intros c; simpl; [done|].
  by rewrite IH, foldl_app, observe_fold.
Qed.

(** ** Frames and positions *)

Definition clean (cl rs : bool) : cursor := Cursor true 0 [] cl rs.

(** Reading a header whose proper prefixes are incomplete. *)
Lemma observe_header cl rs pre hdr n close :
  (∀ k, (length pre < k < length (pre ++ hdr))%nat → parseFrameHeader (take k (pre ++ hdr)) = Incomplete) →
  hdr ≠ [] → parseFrameHeader (pre ++ hdr) = Parsed n close →
  foldl observe_byte (Cursor true 0 pre cl rs) hdr = Cursor true n [] (cl || close) rs.
Proof.
  revert pre. induction hdr as [|b hdr IH]; intros pre Hpre Hne Hp; [done|]. simpl.
  unfold observe_byte at 2; simpl. unfold push_header; simpl.
  destruct hdr as [|b' hdr]; [by rewrite Hp|].
  rewrite cons_middle, app_assoc in Hp.
  assert (parseFrameHeader (pre ++ [b]) = Incomplete) as ->.
  { rewrite <- (Hpre (S (length pre))).
    - f_equal. rewrite take_app_ge by lia. replace (S (length pre) - length pre)%nat with 1%nat by lia. done.
    - rewrite length_app. simpl. lia. }
  apply IH; [|done|done]. intros k Hk. rewrite <- app_assoc in *. apply Hpre.
  rewrite !length_app in *. simpl in *. lia.
Qed.

Lemma parse_long b0 ls :
  length ls = 8%nat → Forall (λ b, byte b) ls → big_endian ls ≤ MAX_SAFE_INTEGER →
  parseFrameHeader (b0 :: 127 :: ls) = Parsed (big_endian ls) (Z.land b0 15 =? 8).
Proof.
  intros Hlen Hls Hle. simpl. rewrite Hlen. simpl. rewrite take_ge by lia.
  rewrite length64_spec by (done || unfold MAX_SAFE_INTEGER; lia).
  fold (big_endian ls). by rewrite (proj2 (Z.leb_le _ _)).
Qed.

(** A frame splits into a header the cursor recognises at its last byte, and its payload. *)
Lemma frame_parts f close :
  server_frame f close →
  ∃ hdr payload, f = hdr ++ payload ∧ hdr ≠ []
    ∧ (∀ k, (0 < k < length hdr)%nat → parseFrameHeader (take k hdr) = Incomplete)
    ∧ parseFrameHeader hdr = Parsed (Z.of_nat (length payload)) close.
Proof.
  destruct 1 as [b0 l payload Hl Hlen|b0 h l payload Hh Hl Hlen|b0 ls payload H8 Hls Hlen Hmax].
  - exists [b0; l], payload. split_and!; try done.
    + intros [|[|k]] Hk; simpl in *; [lia|done|lia].
    + simpl. rewrite unmasked_spec, length7_spec by lia.
      by rewrite !(proj2 (Z.ltb_lt _ _)), Hlen by lia.
  - exists [b0; 126; h; l], payload. split_and!; try done.
    + intros [|[|[|[|k]]]] Hk; simpl in *; try done; lia.
    + simpl. by rewrite length16_spec, Hlen.
  - exists (b0 :: 127 :: ls), payload. split_and!; try done.
    + intros [|[|k]] Hk; simpl in *; [lia|done|].
      rewrite length_take, (proj2 (Nat.ltb_lt _ _)); [done|lia].
    + rewrite parse_long by done. by rewrite Hlen.
Qed.

Lemma observe_frame f close cl rs :
  server_frame f close → foldl observe_byte (clean cl rs) f = clean (cl || close) rs.
Proof.
  intros (hdr & payload & -> & Hne & Hpre & Hp)%frame_parts. rewrite foldl_app.
  unfold clean. rewrite (observe_header cl rs [] hdr _ _ Hpre Hne Hp).
  rewrite observe_skip; simpl; [|done|lia]. unfold set_remaining; simpl. f_equal. lia.
Qed.

Lemma observe_frames frames cl rs :
  Forall (λ f, server_frame f false) frames → foldl observe_byte (clean cl rs) (concat frames) = clean cl rs.
Proof.
  induction 1 as [|f fs Hf _ IH]; simpl; [done|].
  by rewrite foldl_app, (observe_frame f false), orb_false_r.
Qed.

(** When a byte completes a header, what was read is a frame header: any payload of the declared
    length makes it a frame. *)
Lemma header_sound h b n close more :
  Forall (λ b, byte b) (h ++ [b]) →
  parseFrameHeader h = Incomplete → parseFrameHeader (h ++ [b]) = Parsed n close →
  Z.of_nat (length more) = n → server_frame ((h ++ [b]) ++ more) close.
Proof.
  intros Hb Hi Hp Hn. destruct h as [|h0 [|h1 ext]]; [done| |].
  - simpl in *. apply Forall_cons in Hb as [_ [Hb _]%Forall_cons].
    rewrite unmasked_spec in Hp by done. destruct (b <? 128) eqn:H128; [|done]. b2p. simpl in Hp.
    rewrite length7_spec in Hp by lia. destruct (b <? 126) eqn:H126; b2p.
    + simplify_eq. apply frame_short; lia.
    + by destruct (b =? 126).
  - simpl in Hi, Hp, Hb. apply Forall_cons in Hb as [_ [Hb1 Hb]%Forall_cons].
    rewrite unmasked_spec in Hi, Hp by done. destruct (h1 <? 128) eqn:H128; [|done]. b2p. simpl in Hi, Hp.
    rewrite length7_spec in Hi, Hp by lia. destruct (h1 <? 126) eqn:H126; [done|]. b2p.
    destruct (h1 =? 126) eqn:He; b2p.
    + subst h1. destruct ext as [|h2 [|h3 ext]]; simpl in *; [done| |done].
      apply Forall_cons in Hb as [Hh2 [Hb _]%Forall_cons]. rewrite length16_spec in Hp by done.
      simplify_eq. by apply frame_medium.
    + assert (h1 = 127) as -> by lia. rewrite length_app in Hp. simpl in Hp.
      destruct (length ext <? 8)%nat eqn:Hl; b2p; [|by destruct (length64 _ _)].
      destruct (length ext + 1 <? 8)%nat eqn:Hl'; [done|]. b2p.
      assert (length (ext ++ [b]) = 8%nat) as H8 by (rewrite length_app; simpl; lia).
      rewrite take_ge, length64_spec in Hp by (done || lia || unfold MAX_SAFE_INTEGER; lia).
      fold (big_endian (ext ++ [b])) in Hp.
      destruct (big_endian (ext ++ [b]) <=? MAX_SAFE_INTEGER) eqn:Hm; [|done]. b2p. simplify_eq.
      apply (frame_long h0 (ext ++ [b]) more); done.
Qed.

(** Where the cursor stands in the stream it has read. *)
Definition positioned (bs : list Z) (c : cursor) : Prop :=
  trackable c = true → closeRelayed c = false →
  ∃ frames rest, bs = concat frames ++ rest ∧ Forall (λ f, server_frame f false) frames ∧
    ((payloadRemaining c = 0 ∧ header c = rest ∧ parseFrameHeader rest = Incomplete)
     ∨ (header c = [] ∧ 0 < payloadRemaining c
        ∧ ∀ more, Z.of_nat (length more) = payloadRemaining c → server_frame (rest ++ more) false)).

Lemma frame_extends frames rest b :
  Forall (λ f, server_frame f false) frames → server_frame (rest ++ [b]) false →
  ∃ frames' rest', (concat frames ++ rest) ++ [b] = concat frames' ++ rest'
    ∧ Forall (λ f, server_frame f false) frames' ∧ rest' = [].
Proof.
  intros Hfs Hf. exists (frames ++ [rest ++ [b]]), []. split_and!; [|by apply Forall_app_2; [|constructor]|done].
  rewrite concat_app. simpl. by rewrite !app_nil_r, app_assoc.
Qed.

Lemma parsed_nonneg h n close :
  Forall (λ b, byte b) h → parseFrameHeader h = Parsed n close → 0 ≤ n.
Proof.
  intros Hb Hp. destruct h as [|h0 [|h1 ext]]; [done..|]. simpl in Hp.
  apply Forall_cons in Hb as [_ [Hb1 Hb]%Forall_cons].
  destruct (negb _); [done|]. destruct (_ <? 126) eqn:?; [|destruct (_ =? 126)].
  - simplify_eq. apply Z.land_nonneg. lia.
  - destruct ext as [|h2 [|h3 ext]]; try done. simplify_eq.
    apply Forall_cons in Hb as [? [? _]%Forall_cons].
    apply Z.lor_nonneg. rewrite Z.shiftl_nonneg. lia.
  - destruct (_ <? 8)%nat; [done|].
    rewrite length64_spec in Hp; [|by apply Forall_take|unfold MAX_SAFE_INTEGER; lia].
    destruct (_ <=? _) in Hp; [|done]. simplify_eq. apply big_endian_le; [by apply Forall_take|lia].
Qed.

Lemma positioned_step bs c b :
  Forall (λ b, byte b) (bs ++ [b]) → positioned bs c → positioned (bs ++ [b]) (observe_byte c b).
Proof.
  intros Hb Hpos Ht Hcl. unfold observe_byte in *.
  destruct (trackable c) eqn:Htc; [|simpl in Ht; congruence]. simpl in *.
  assert (closeRelayed c = false) as Hclc.
  { destruct (0 <? payloadRemaining c); [done|]. unfold push_header in Hcl.
    destruct (parseFrameHeader _); simpl in Hcl; try done. by apply orb_false_iff in Hcl as [? _]. }
  destruct (Hpos Htc Hclc) as (frames & rest & -> & Hfs & [(Hr & Hh & Hi)|(Hh & Hr & Hm)]).
  - rewrite Hr in *. simpl in *. unfold push_header in *. rewrite Hh in *.
    assert (Forall (λ b, byte b) (rest ++ [b])) as Hrb.
    { rewrite <- app_assoc in Hb. by apply Forall_app in Hb as [_ ?]. }
    destruct (parseFrameHeader (rest ++ [b])) as [| |n close] eqn:Hp; simpl in *; [|done|].
    + exists frames, (rest ++ [b]). rewrite app_assoc. split_and!; [done..|]. left. by rewrite Hr.
    + apply orb_false_iff in Hcl as [_ ->]. pose proof (parsed_nonneg _ _ _ Hrb Hp) as Hn0.
      destruct (decide (n = 0)) as [->|Hn].
      * pose proof (header_sound rest b 0 false [] Hrb Hi Hp eq_refl) as Hf. rewrite app_nil_r in Hf.
        destruct (frame_extends _ _ _ Hfs Hf) as (fs' & r' & ? & ? & ->).
        exists fs', []. split_and!; [done..|]. by left.
      * exists frames, (rest ++ [b]). rewrite app_assoc. split_and!; [done..|]. right.
        split_and!; [done|lia|]. intros more Hlen. by eapply header_sound.
  - rewrite (proj2 (Z.ltb_lt _ _)) in * by done. simpl.
    destruct (decide (payloadRemaining c = 1)) as [H1|H1].
    + destruct (frame_extends frames rest b Hfs) as (fs' & r' & ? & ? & ->); [apply Hm; simpl; lia|].
      exists fs', []. split_and!; [done..|]. left. split_and!; [lia|done|done].
    + exists frames, (rest ++ [b]). rewrite app_assoc. split_and!; [done..|]. right.
      split_and!; [done|lia|]. intros more Hlen. rewrite <- app_assoc. apply Hm. simpl. lia.
Qed.

Lemma positioned_observe bs : Forall (λ b, byte b) bs → positioned bs (foldl observe_byte new_cursor bs).
Proof.
  induction bs as [|b bs IH] using rev_ind; intros Hb.
  - intros _ _. exists [], []. split_and!; [done..|]. by left.
  - rewrite foldl_app. simpl. apply positioned_step; [done|]. apply IH. by apply Forall_app in Hb as [? _].
Qed.

Lemma relayStopped_observe c bs : relayStopped (foldl observe_byte c bs) = relayStopped c.
Proof.
  revert c. induction bs as [|b bs IH]; intros c; simpl; [done|]. rewrite IH.
  unfold observe_byte, push_header. destruct (trackable c), (0 <? _); simpl; try done;
    by destruct (parseFrameHeader _).
Qed.

Lemma boundary_between bs :
  Forall (λ b, byte b) bs → atFrameBoundary (observe new_cursor bs) = true ↔ between_frames bs.
Proof.
  intros Hb. rewrite observe_fold. split.
  - intros Hat. unfold atFrameBoundary in Hat. b2p.
    destruct (positioned_observe bs Hb) as (frames & rest & Hbs & Hfs & [(_&Hh&_)|(_&?&_)]); [done..| |lia].
    exists frames. split; [|done]. destruct (header _); [|done]. subst rest. by rewrite app_nil_r in Hbs.
  - intros (frames & -> & Hfs). change new_cursor with (clean false false).
    by rewrite observe_frames.
Qed.

(** The cursor is exact: it reports a frame boundary precisely when the bytes relayed so far
    are a sequence of complete, unmasked frames, in any of the three length encodings, none of
    which is a close frame. *)
Theorem boundary_exact bs :
  Forall (λ b, byte b) bs → atFrameBoundary (observe new_cursor bs) = true ↔ between_frames bs.
Proof. apply boundary_between. Qed.

Lemma boundary_exact_witness :
  atFrameBoundary (observe new_cursor [129; 2; 104; 105; 130; 126; 0; 1; 7]) = true
  ↔ between_frames [129; 2; 104; 105; 130; 126; 0; 1; 7].
Proof. apply boundary_exact. repeat constructor; lia. Defined.

(** ** Tunnels *)

(** A run of a tunnel, with the label of each step. *)
Inductive tunnel_run (closeFrame : list Z) (t0 : tunnel) : list bool → tunnel → Prop :=
| run_start : tunnel_run closeFrame t0 [] t0
| run_step ls t l t' :
    tunnel_run closeFrame t0 ls t → tunnel_step closeFrame t l t' →
    tunnel_run closeFrame t0 (ls ++ [l]) t'.

(** Before an injection the cursor has read what the client has; after one, the relay is detached
    and the client's stream is frozen. *)
Definition tunnel_inv (closeFrame : list Z) (injected : bool) (t : tunnel) : Prop :=
  if injected then
    piped t = false
    ∧ (∃ c, tracked t = Some c ∧ relayStopped c = true)
    ∧ ∃ pre, between_frames pre ∧ client_stream t = pre ++ closeFrame
  else
    piped t = true ∧ Forall (λ b, byte b) (client_stream t)
    ∧ tracked t = Some (observe new_cursor (client_stream t)).

Lemma track_inv closeFrame head :
  Forall (λ b, byte b) head → tunnel_inv closeFrame false (trackTunnelFraming head).
Proof. intros Hh. split_and!; [done|done|]. simpl. by destruct head. Qed.

Lemma stopped_not_boundary c : relayStopped c = true → atFrameBoundary c = false.
Proof. unfold atFrameBoundary. intros ->. by rewrite andb_false_r. Qed.

Lemma tunnel_step_inv closeFrame injected t l t' :
  tunnel_inv closeFrame injected t → tunnel_step closeFrame t l t' →
  tunnel_inv closeFrame (injected || l) t' ∧ injected && l = false.
Proof.
  intros Hinv Hstep. destruct Hstep as [t chunk Hc|t t' ok Hi].
  - rewrite orb_false_r, andb_false_r. split; [|done]. destruct injected; simpl in *.
    + destruct Hinv as (Hp & (c & Ht & Hs) & Hpre). rewrite Hp, Ht. split_and!; try done.
      exists (observe c chunk). split; [done|]. by rewrite observe_fold, relayStopped_observe.
    + destruct Hinv as (Hp & Hb & Ht). rewrite Hp, Ht. split_and!; try done.
      * by apply Forall_app_2.
      * simpl. by rewrite observe_app.
  - unfold injectTunnelCloseFrame in Hi. destruct injected; simpl in *.
    + destruct Hinv as (Hp & (c & Ht & Hs) & Hpre). rewrite Ht, (stopped_not_boundary c Hs) in Hi.
      simplify_eq. eauto 10.
    + destruct Hinv as (Hp & Hb & Ht). rewrite Ht in Hi.
      destruct (atFrameBoundary _) eqn:Hat; simplify_eq; [|done].
      apply boundary_between in Hat; [|done]. split; [|done]. split_and!; eauto.
Qed.

Lemma tunnel_run_inv closeFrame t0 ls t :
  tunnel_inv closeFrame false t0 → tunnel_run closeFrame t0 ls t →
  tunnel_inv closeFrame (existsb id ls) t ∧ (length (filter (λ l, l = true) ls) ≤ 1)%nat
  ∧ (existsb id ls = false → filter (λ l, l = true) ls = []).
Proof.
  intros H0. induction 1 as [|ls t l t' Hrun (Hinv & Hle & Hnil) Hstep]; [simpl; auto|].
  destruct (tunnel_step_inv _ _ _ _ _ Hinv Hstep) as [Hinv' Hno].
  rewrite existsb_app, filter_app, length_app. simpl. rewrite orb_false_r.
  split; [exact Hinv'|split].
  - destruct (existsb id ls), l; simpl in *; try done; try lia.
    rewrite (Hnil eq_refl). simpl. lia.
  - intros [He ->]%orb_false_iff. by rewrite (Hnil He).
Qed.

(** C28. Shutdown never corrupts a relayed frame.  In any interleaving of relayed chunks and
    injection attempts, at most one close frame is injected; if one is, the client has received
    complete frames, then the close frame, and nothing after it; if none is, the relay is still
    attached. *)
Theorem tunnel_injection_safe closeFrame head ls t :
  Forall (λ b, byte b) head →
  tunnel_run closeFrame (trackTunnelFraming head) ls t →
  (length (filter (λ l, l = true) ls) ≤ 1)%nat
  ∧ (existsb id ls = true → ∃ pre, between_frames pre ∧ client_stream t = pre ++ closeFrame)
  ∧ (existsb id ls = false → piped t = true).
Proof.
  intros Hh Hrun.
  destruct (tunnel_run_inv _ _ _ _ (track_inv closeFrame head Hh) Hrun) as (Hinv & Hle & _).
  split_and!; [done| |]; intros He; rewrite He in Hinv; simpl in Hinv; naive_solver.
Qed.

Lemma tunnel_injection_safe_witness :
  let t := (injectTunnelCloseFrame (pool_data (trackTunnelFraming [129; 1]) [65]) [136; 2; 3; 233]).1 in
  (length (filter (λ l, l = true) [false; true]) ≤ 1)%nat
  ∧ (existsb id [false; true] = true →
       ∃ pre, between_frames pre ∧ client_stream t = pre ++ [136; 2; 3; 233])
  ∧ (existsb id [false; true] = false → piped t = true).
Proof.
  apply (tunnel_injection_safe [136; 2; 3; 233] [129; 1] [false; true]).
  - repeat constructor; lia.
  - apply (run_step _ _ [false] (pool_data (trackTunnelFraming [129; 1]) [65]) true).
    + apply (run_step _ _ [] (trackTunnelFraming [129; 1]) false); [constructor|].
      apply step_data. repeat constructor; lia.
    + apply step_inject. reflexivity.
Defined.

End FrameCursor.
