(* ===== verification/TagManifest.v ===== *)
(** * The shared tag manifest of the Valkey cache

    Models src/src/pool-server/valkey-cache/tag-manifest.ts: the tag filters, the watermarks a
    revalidation sets, the freshness predicates, and UPDATE_TAGS_SCRIPT, the Lua merge the server
    runs atomically on the manifest hash.  Times are integers, in milliseconds. *)
From Stdlib Require Import Ascii String.
From S2P Require Import Prelude JsString.
Local Open Scope stdpp_scope.
Local Open Scope Z_scope.

Module TagManifest.

Definition TAG_MANIFEST_EPOCH_FIELD : string := String (ascii_of_nat 31) "adapter-k8s-epoch".
Definition TAG_MANIFEST_TTL_SECONDS : Z := 30 * 24 * 60 * 60.
Definition MAX_CLOCK_SKEW_MS : Z := 60000.
Definition MAX_EXPLICIT_TAG_LENGTH : nat := 256.
Definition MAX_SOFT_TAG_LENGTH : nat := 1024.
Definition IMPLICIT_TAG_PREFIX : string := "_N_T_".
Definition ROOT_PARAM_TAG_PREFIX : string := "_N_RP_".
Definition MAX_MANIFEST_TAGS_PER_CALL : nat := 256.

(** ** Tag filters *)

Definition isRootParamTag (tag : string) : bool := starts_with ROOT_PARAM_TAG_PREFIX tag.

Definition maxTagLength (tag : string) : nat :=
  if starts_with IMPLICIT_TAG_PREFIX tag || isRootParamTag tag
  then MAX_SOFT_TAG_LENGTH else MAX_EXPLICIT_TAG_LENGTH.

Definition keeps_tag (tag : string) : bool :=
  if (String.length tag =? 0)%nat then false
  else if bool_decide (tag = TAG_MANIFEST_EPOCH_FIELD) then false
  else if (maxTagLength tag <? String.length tag)%nat then false
  else true.

Definition filterManifestTags (tags : list string) : list string :=
  filter (λ t, keeps_tag t = true) tags.

(** The chunking loop; the number of tags is enough fuel, since every chunk is non-empty. *)
Fixpoint chunk_loop (fuel : nat) (tags : list string) : list (list string) :=
  match fuel, tags with
  | S fuel', _ :: _ =>
      take MAX_MANIFEST_TAGS_PER_CALL tags
      :: chunk_loop fuel' (drop MAX_MANIFEST_TAGS_PER_CALL tags)
  | _, _ => []
  end.

Definition chunkManifestTags (tags : list string) : list (list string) :=
  chunk_loop (length tags) tags.

(** ** Tag states *)

(** TagState: optional watermarks. *)
Record TagState := mkTagState { stale : option Z; expired : option Z; at_ : option Z }.

#[global] Instance TagState_eq_dec : EqDecision TagState.
Proof. solve_decision. Defined.

Definition empty_state : TagState := mkTagState None None None.

(** The durations argument of computeTagUpdate: absent, or a record with an optional expire. *)
Record durations := mkDurations { expire : option Z }.

Definition computeTagUpdate (existing : option TagState) (now : Z) (d : option durations) : TagState :=
  let base := default empty_state existing in
  match d with
  | Some d =>
      let next := mkTagState (Some now) (expired base) (Some now) in
      match expire d with
      | Some e => mkTagState (stale next) (Some (now + e * 1000)) (at_ next)
      | None => next
      end
  | None => mkTagState (stale base) (Some now) (Some now)
  end.

(** ** Freshness *)

Abbreviation manifest := (gmap string TagState).

Definition tag_expires (entryTimestamp now : Z) (m : manifest) (tag : string) : bool :=
  match m !! tag with
  | Some (mkTagState _ (Some expiredAt) _) => (expiredAt <=? now) && (entryTimestamp <? expiredAt)
  | _ => false
  end.

Definition areTagsExpired (tags : list string) (entryTimestamp : Z) (m : manifest) (now : Z) : bool :=
  existsb (tag_expires entryTimestamp now m) tags.

Definition areTagsStale (tags : list string) (entryTimestamp : Z) (m : manifest) : bool :=
  existsb (λ tag, entryTimestamp <? default 0 (m !! tag ≫= stale)) tags.

Definition maxExpiration (tags : list string) (m : manifest) : Z :=
  foldl (λ mx tag, let expiredAt := default 0 (m !! tag ≫= expired) in
                   if mx <? expiredAt then expiredAt else mx) 0 tags.

Inductive Freshness := Expired | Stale | Fresh (revalidate : Z).

#[global] Instance Freshness_eq_dec : EqDecision Freshness.
Proof. solve_decision. Defined.

Record entry := mkEntry {
  e_timestamp : Z; e_revalidate : Z; e_expire : Z; e_tags : list string
}.

(** The verdict on times of which [second] make a second. *)
Definition evaluateIn (second : Z) (e : entry) (m : manifest) (now : Z) : Freshness :=
  if e_timestamp e + e_expire e * second <? now then Expired
  else if areTagsExpired (e_tags e) (e_timestamp e) m now then Expired
  else if e_timestamp e + e_revalidate e * second <? now then Expired
  else if areTagsStale (e_tags e) (e_timestamp e) m then Stale
  else Fresh (e_revalidate e).

(** The source counts milliseconds. *)
Definition evaluateEntry : entry → manifest → Z → Freshness := evaluateIn 1000.

(** ** The merge script *)

(** What a hash field holds: the JSON of a state, an integer, or other text. *)
Inductive field :=
| FState (s : TagState)
| FInt (n : Z)
| FText (raw : string).

#[global] Instance field_eq_dec : EqDecision field.
Proof. solve_decision. Defined.

Abbreviation hash := (gmap string field).

(** The skew report and the shift of the watermarks onto the server clock. *)
Definition shift_of (now : Z) (nw : TagState) : Z :=
  match at_ nw with Some clientAt => now - clientAt | None => 0 end.

Definition is_clamped (shift : Z) : bool :=
  (MAX_CLOCK_SKEW_MS <? shift) || (shift <? - MAX_CLOCK_SKEW_MS).

Definition rebase (now : Z) (nw : TagState) : TagState :=
  let shift := shift_of now nw in
  mkTagState ((λ t, t + shift) <$> stale nw) ((λ t, t + shift) <$> expired nw) (Some now).

(** The per-dimension merge of a winning event over the stored state. *)
Definition merge_over (nw cur : TagState) : TagState :=
  mkTagState (match stale nw with None => stale cur | s => s end)
             (match expired nw with None => expired cur | e => e end) (at_ nw).

(** One iteration of the script: the new value of the field ([None] when it is not written) and
    whether the event was clamped.  Text that is not a JSON object is stored as it is. *)
Definition script_field (now : Z) (incoming : field) (existing : option field) : option field * bool :=
  match incoming with
  | FState nw =>
      let clamped := is_clamped (shift_of now nw) in
      let nw := rebase now nw in
      match existing with
      | Some (FState cur) =>
          if now <? default 0 (at_ cur) then (None, clamped)
          else (Some (FState (merge_over nw cur)), clamped)
      | _ => (Some (FState nw), clamped)
      end
  | _ => (Some incoming, false)
  end.

Fixpoint script_loop (now : Z) (pairs : list (string * field)) (h : hash) (clamped : Z) : hash * Z :=
  match pairs with
  | [] => (h, clamped)
  | (f, incoming) :: pairs' =>
      let '(v, c) := script_field now incoming (h !! f) in
      let h' := match v with Some v => <[f := v]> h | None => h end in
      script_loop now pairs' h' (if c then clamped + 1 else clamped)
  end.

(** HINCRBY key field 1; [None] when the field does not hold an integer. *)
Definition hincrby (f : string) (h : hash) : option hash :=
  match h !! f with
  | None => Some (<[f := FInt 1]> h)
  | Some (FInt n) => Some (<[f := FInt (n + 1)]> h)
  | Some _ => None
  end.

(** The stored manifest: the hash and its remaining time to live, if it has one. *)
Record store := mkStore { fields : hash; ttl : option Z }.

(** The whole script, run atomically at server time [now].  It returns the clamp count, or an
    error when the epoch cannot be incremented, the writes made before the error remaining. *)
Definition UPDATE_TAGS_SCRIPT (now : Z) (pairs : list (string * field)) (ttlSeconds : Z) (s : store)
    : store * outcome unit Z :=
  let '(h, clamped) := script_loop now pairs (fields s) 0 in
  match hincrby TAG_MANIFEST_EPOCH_FIELD h with
  | None => (mkStore h (ttl s), Throws tt)
  | Some h' => (mkStore h' (if 0 <? ttlSeconds then Some ttlSeconds else ttl s), Returns clamped)
  end.

(** The arguments a handler's updateTags sends for one chunk of tags at client time [now]. *)
Definition update_args (chunk : list string) (now : Z) (d : option durations) : list (string * field) :=
  map (λ tag, (tag, FState (computeTagUpdate None now d))) chunk.

(** The EVAL calls of one updateTags, each at the server time the list gives. *)
Fixpoint updateTags_evals (chunks : list (list string)) (serverNow : list Z) (clientNow : Z)
    (d : option durations) (s : store) : store :=
  match chunks, serverNow with
  | c :: chunks', t :: ts =>
      updateTags_evals chunks' ts clientNow d
        (UPDATE_TAGS_SCRIPT t (update_args c clientNow d) TAG_MANIFEST_TTL_SECONDS s).1
  | _, _ => s
  end.

(** The states a reader sees: the fields that parse. *)
Definition manifest_of (h : hash) : manifest :=
  omap (λ f, match f with FState s => Some s | _ => None end) h.

(** ** Chunks and filters *)

Lemma chunk_loop_spec fuel tags :
  (length tags ≤ fuel)%nat →
  concat (chunk_loop fuel tags) = tags
  ∧ Forall (λ c, 0 < length c ≤ MAX_MANIFEST_TAGS_PER_CALL)%nat (chunk_loop fuel tags).
Proof.
  revert tags. induction fuel as [|fuel IH]; intros tags Hlen.
  - destruct tags; simpl in *; [done|lia].
  - destruct tags as [|t ts]; [done|].
    destruct (IH (drop MAX_MANIFEST_TAGS_PER_CALL (t :: ts))) as [Hc Hf].
    { rewrite length_drop. unfold MAX_MANIFEST_TAGS_PER_CALL. simpl in *. lia. }
    cbn [chunk_loop concat]. split; [by rewrite Hc, take_drop|]. constructor; [|done].
    rewrite length_take. cbn [length]. unfold MAX_MANIFEST_TAGS_PER_CALL. lia.
Qed.

(** Chunking drops nothing: the chunks concatenate to the tags, in order, and each is a
    non-empty batch of at most 256. *)
Theorem chunks_cover tags :
  concat (chunkManifestTags tags) = tags
  ∧ Forall (λ c, 0 < length c ≤ MAX_MANIFEST_TAGS_PER_CALL)%nat (chunkManifestTags tags).
Proof. by apply chunk_loop_spec. Qed.

Lemma filtered_not_epoch tags t : t ∈ filterManifestTags tags → t ≠ TAG_MANIFEST_EPOCH_FIELD ∧ t ∈ tags.
Proof.
  intros [Hk Hin]%list_elem_of_filter. split; [|done]. intros ->.
  revert Hk. by vm_compute.
Qed.

Lemma chunk_not_epoch tags c t :
  c ∈ chunkManifestTags (filterManifestTags tags) → t ∈ c → t ≠ TAG_MANIFEST_EPOCH_FIELD.
Proof.
  intros Hc Ht. destruct (chunk_loop_spec _ (filterManifestTags tags) (le_n _)) as [Hcat _].
  apply (filtered_not_epoch tags t). rewrite <- Hcat. apply list_elem_of_In, in_concat.
  exists c. by rewrite <- !list_elem_of_In.
Qed.

(** ** The script refines the in-memory update *)

Lemma rebase_update now clientNow d :
  rebase now (computeTagUpdate None clientNow d) = computeTagUpdate None now d.
Proof.
  unfold rebase, shift_of, computeTagUpdate. destruct d as [[[e|]]|]; cbn -[Z.mul Z.add Z.sub];
    f_equal; solve [done | f_equal; lia].
Qed.

Lemma merge_update now d cur :
  merge_over (computeTagUpdate None now d) cur = computeTagUpdate (Some cur) now d.
Proof. destruct cur, d as [[[e|]]|]; done. Qed.

(** The stored event times of the fields are not ahead of [now]. *)
Definition not_ahead (now : Z) (h : hash) : Prop :=
  ∀ f s, h !! f = Some (FState s) → default 0 (at_ s) ≤ now.

(** Next's in-memory update of one tag. *)
Definition spec_update (now : Z) (d : option durations) (m : manifest) (tag : string) : manifest :=
  <[tag := computeTagUpdate (m !! tag) now d]> m.

Lemma lookup_manifest_of h f :
  manifest_of h !! f = match h !! f with Some (FState s) => Some s | _ => None end.
Proof. unfold manifest_of. rewrite lookup_omap. by destruct (h !! f) as [[]|]. Qed.

Lemma script_field_update now clientNow d h f :
  not_ahead now h →
  (script_field now (FState (computeTagUpdate None clientNow d)) (h !! f)).1
  = Some (FState (computeTagUpdate (manifest_of h !! f) now d)).
Proof.
  intros Hna. rewrite lookup_manifest_of. unfold script_field. rewrite rebase_update.
  destruct (h !! f) as [[cur| |]|] eqn:Hf; try done.
  specialize (Hna _ _ Hf). rewrite (proj2 (Z.ltb_ge _ _)) by done. by rewrite <- merge_update.
Qed.

Lemma update_at existing now d : default 0 (at_ (computeTagUpdate existing now d)) = now.
Proof. by destruct d as [[[e|]]|]. Qed.

Lemma not_ahead_insert now h f s :
  not_ahead now h → default 0 (at_ s) ≤ now → not_ahead now (<[f := FState s]> h).
Proof. intros Hna Hs g s' Hg. destruct (decide (f = g)); simplify_map_eq; eauto. Qed.

Lemma manifest_of_insert h f s : manifest_of (<[f := FState s]> h) = <[f := s]> (manifest_of h).
Proof. unfold manifest_of. by rewrite omap_insert. Qed.

Lemma script_loop_spec now clientNow d tags h n :
  not_ahead now h →
  let h' := (script_loop now (update_args tags clientNow d) h n).1 in
  manifest_of h' = foldl (spec_update now d) (manifest_of h) tags
  ∧ not_ahead now h' ∧ (∀ f, f ∉ tags → h' !! f = h !! f).
Proof.
  revert h n. induction tags as [|t ts IH]; intros h n Hna; [done|].
  pose proof (script_field_update now clientNow d h t Hna) as Hsf.
  change (update_args (t :: ts) clientNow d)
    with ((t, FState (computeTagUpdate None clientNow d)) :: update_args ts clientNow d).
  cbn [script_loop].
  destruct (script_field now _ (h !! t)) as [v c]. simpl in Hsf. subst v.
  destruct (IH (<[t := FState (computeTagUpdate (manifest_of h !! t) now d)]> h)
              (if c then n + 1 else n)) as (Hm & Hna' & Hf).
  { apply not_ahead_insert; [done|]. by rewrite update_at. }
  cbv zeta. split_and!; [|exact Hna'|].
  - rewrite Hm, manifest_of_insert. done.
  - intros f [Hne Hnin]%not_elem_of_cons. rewrite Hf by done. by rewrite lookup_insert_ne.
Qed.

(** A hash the adapter maintains: its epoch field is absent or an integer. *)
Definition epoch_of (h : hash) : option Z :=
  match h !! TAG_MANIFEST_EPOCH_FIELD with
  | None => Some 0
  | Some (FInt n) => Some n
  | Some _ => None
  end.

Lemma manifest_of_epoch h n :
  (∀ s, h !! TAG_MANIFEST_EPOCH_FIELD ≠ Some (FState s)) →
  manifest_of (<[TAG_MANIFEST_EPOCH_FIELD := FInt n]> h) = manifest_of h.
Proof.
  intros He. apply map_eq. intros f. rewrite !lookup_manifest_of.
  destruct (decide (TAG_MANIFEST_EPOCH_FIELD = f)) as [<-|]; simplify_map_eq; [|done].
  destruct (h !! TAG_MANIFEST_EPOCH_FIELD) as [[s| |]|] eqn:Hf; try done. by destruct (He s).
Qed.

(** What one run of the script does to a well-formed store. *)
Lemma script_spec now clientNow d tags s n :
  not_ahead now (fields s) → TAG_MANIFEST_EPOCH_FIELD ∉ tags → epoch_of (fields s) = Some n →
  let r := UPDATE_TAGS_SCRIPT now (update_args tags clientNow d) TAG_MANIFEST_TTL_SECONDS s in
  (∃ clamped, r.2 = Returns clamped)
  ∧ manifest_of (fields r.1) = foldl (spec_update now d) (manifest_of (fields s)) tags
  ∧ not_ahead now (fields r.1)
  ∧ epoch_of (fields r.1) = Some (n + 1)
  ∧ ttl r.1 = Some TAG_MANIFEST_TTL_SECONDS.
Proof.
  intros Hna Hep Hn. unfold UPDATE_TAGS_SCRIPT.
  pose proof (script_loop_spec now clientNow d tags (fields s) 0 Hna) as (Hm & Hna' & Hf).
  destruct (script_loop now _ _ 0) as [h clamped]. simpl in *.
  specialize (Hf _ Hep). unfold epoch_of in Hn. rewrite <- Hf in Hn. unfold hincrby, epoch_of.
  assert (∀ st, h !! TAG_MANIFEST_EPOCH_FIELD ≠ Some (FState st)) as Hns.
  { intros st Hst. by rewrite Hst in Hn. }
  assert (∀ k, not_ahead now (<[TAG_MANIFEST_EPOCH_FIELD := FInt k]> h)) as Hins.
  { intros k f st Hst. destruct (decide (TAG_MANIFEST_EPOCH_FIELD = f)); simplify_map_eq.
    by eapply Hna'. }
  assert (∀ k, manifest_of (<[TAG_MANIFEST_EPOCH_FIELD := FInt k]> h) = manifest_of h) as Hman.
  { intros k. by apply manifest_of_epoch. }
  destruct (h !! TAG_MANIFEST_EPOCH_FIELD) as [[|k|]|] eqn:Hk; try discriminate Hn;
    injection Hn as <-; (split; [by eexists|]); cbn [fst fields ttl];
    (split; [by rewrite Hman|]); (split; [by apply Hins|]);
    (split; [|done]); by rewrite lookup_insert_eq.
Qed.

(** C26. Refinement.  On a store whose event times are not ahead of the server clock, a chunk of
    filtered tags makes the script return, leaves exactly the manifest Next's sequential
    in-memory update at server time would leave, increments the epoch by one, refreshes the time
    to live, and keeps event times not ahead of the clock.  The client clock has no effect. *)
Theorem script_refines_update now clientNow d tags c s n :
  not_ahead now (fields s) → epoch_of (fields s) = Some n →
  c ∈ chunkManifestTags (filterManifestTags tags) →
  let r := UPDATE_TAGS_SCRIPT now (update_args c clientNow d) TAG_MANIFEST_TTL_SECONDS s in
  (∃ clamped, r.2 = Returns clamped)
  ∧ manifest_of (fields r.1) = foldl (spec_update now d) (manifest_of (fields s)) c
  ∧ not_ahead now (fields r.1)
  ∧ epoch_of (fields r.1) = Some (n + 1)
  ∧ ttl r.1 = Some TAG_MANIFEST_TTL_SECONDS.
Proof.
  intros Hna Hn Hc. apply script_spec; [done| |done].
  intros Hin. by apply (chunk_not_epoch tags c TAG_MANIFEST_EPOCH_FIELD Hc Hin).
Qed.

Lemma script_refines_update_witness :
  let s := mkStore {["post" := FState (mkTagState (Some 50) None (Some 50))]} None in
  let r := UPDATE_TAGS_SCRIPT 100 (update_args ["post"] 7 None) TAG_MANIFEST_TTL_SECONDS s in
  (∃ clamped, r.2 = Returns clamped)
  ∧ manifest_of (fields r.1) = foldl (spec_update 100 None) (manifest_of (fields s)) ["post"]
  ∧ not_ahead 100 (fields r.1) ∧ epoch_of (fields r.1) = Some (0 + 1)
  ∧ ttl r.1 = Some TAG_MANIFEST_TTL_SECONDS.
Proof.
  apply (script_refines_update 100 7 None ["post"; ""]).
  - intros f s' Hf. simpl in Hf. apply lookup_singleton_Some in Hf as [_ [= <-]]. simpl. lia.
  - reflexivity.
  - vm_compute. apply list_elem_of_here.
Defined.

(** ** Invalidation *)

(** Tag [tag] is past due for an entry stamped [ts], at server time [now]. *)
Definition past_due (ts now : Z) (m : manifest) (tag : string) : Prop :=
  ∃ st, m !! tag = Some st
    ∧ ((∃ x, stale st = Some x ∧ ts < x) ∨ (∃ x, expired st = Some x ∧ ts < x ≤ now)).

Lemma past_due_not_fresh e m tag now r :
  0 ≤ e_timestamp e → tag ∈ e_tags e → past_due (e_timestamp e) now m tag →
  evaluateEntry e m now ≠ Fresh r.
Proof.
  intros Hts Htag (st & Hst & Hdue). unfold evaluateEntry, evaluateIn. split_ifs; try done. exfalso.
  destruct Hdue as [(x & Hx & Hlt)|(x & Hx & Hlt)].
  - assert (areTagsStale (e_tags e) (e_timestamp e) m = true); [|congruence].
    apply existsb_In. exists tag. rewrite Hst. simpl. rewrite Hx. simpl. split; [done|]. by apply Z.ltb_lt.
  - assert (areTagsExpired (e_tags e) (e_timestamp e) m now = true); [|congruence].
    apply existsb_In. exists tag. unfold tag_expires. rewrite Hst. destruct st as [? [y|] ?]; simplify_eq/=.
    split; [done|]. rewrite andb_true_iff, Z.leb_le, Z.ltb_lt. lia.
Qed.

Lemma spec_update_past_due ts now' d m tag t :
  ts < now' → past_due ts now' m tag ∨ t = tag → past_due ts now' (spec_update now' d m t) tag.
Proof.
  intros Hlt Hor. unfold spec_update, past_due. destruct (decide (t = tag)) as [->|Hne].
  - rewrite lookup_insert_eq. eexists; split; [done|].
    destruct d as [[[x|]]|]; simpl; [left; eauto..|right; exists now'; split; [done|lia]].
  - rewrite lookup_insert_ne by done. by destruct Hor.
Qed.

Lemma past_due_mono ts now now' m tag : now ≤ now' → past_due ts now m tag → past_due ts now' m tag.
Proof.
  intros Hle (st & Hst & [?|(x & Hx & ?)]); exists st; (split; [done|]); [by left|right].
  exists x. split; [done|lia].
Qed.

Lemma foldl_past_due ts now d tags m tag :
  ts < now → past_due ts now m tag ∨ tag ∈ tags →
  past_due ts now (foldl (spec_update now d) m tags) tag.
Proof.
  intros Hlt. revert m. induction tags as [|t ts' IH]; intros m Hor; simpl.
  - by destruct Hor as [?|?%not_elem_of_nil].
  - apply IH. destruct Hor as [Hp|[->|Hin]%elem_of_cons].
    + left. apply spec_update_past_due; auto.
    + left. apply spec_update_past_due; auto.
    + by right.
Qed.

(** A later run of the script: its server time, client time, durations and tags. *)
Record event := mkEvent { ev_now : Z; ev_client : Z; ev_durations : option durations; ev_tags : list string }.

Definition run_event (s : store) (e : event) : store :=
  (UPDATE_TAGS_SCRIPT (ev_now e) (update_args (ev_tags e) (ev_client e) (ev_durations e))
     TAG_MANIFEST_TTL_SECONDS s).1.

(** Events in server order, from server time [t] on, whose tags passed the filter. *)
Fixpoint events_from (t : Z) (es : list event) : Prop :=
  match es with
  | [] => True
  | e :: es' => t ≤ ev_now e ∧ TAG_MANIFEST_EPOCH_FIELD ∉ ev_tags e ∧ events_from (ev_now e) es'
  end.

Definition last_time (t : Z) (es : list event) : Z := foldl (λ _ e, ev_now e) t es.

Lemma not_ahead_mono now now' h : now ≤ now' → not_ahead now h → not_ahead now' h.
Proof. intros Hle Hna f s Hf. etrans; [by eapply Hna|done]. Qed.

Lemma events_past_due ts t tag es s n :
  ts < t → events_from t es → not_ahead t (fields s) → epoch_of (fields s) = Some n →
  past_due ts t (manifest_of (fields s)) tag →
  past_due ts (last_time t es) (manifest_of (fields (foldl run_event s es))) tag
  ∧ t ≤ last_time t es.
Proof.
  revert t s n. induction es as [|e es IH]; intros t s n Hlt Hes Hna Hn Hp; [done|].
  destruct Hes as (Hle & Hep & Hes). cbn [foldl last_time].
  destruct (script_spec (ev_now e) (ev_client e) (ev_durations e) (ev_tags e) s n)
    as (_ & Hm & Hna' & Hn' & _); [by eapply not_ahead_mono|done|done|].
  destruct (IH (ev_now e) (run_event s e) (n + 1)) as [Hp' Hle']; [lia|done|done|done| |].
  - unfold run_event. rewrite Hm. apply foldl_past_due; [lia|]. left. by eapply past_due_mono.
  - split; [done|]. unfold last_time in *. simpl. lia.
Qed.

(** C35. Invalidation is never lost.  Once a tag has been revalidated at server time [t], with any
    profile and from any client clock, no entry stamped before [t] that carries the tag is ever
    judged fresh again: not after further revalidations of any tags by any replica, whatever
    their profiles, and not at any later server time. *)
Theorem revalidated_never_fresh t clientNow d tags s n tag es e now r :
  not_ahead t (fields s) → epoch_of (fields s) = Some n →
  TAG_MANIFEST_EPOCH_FIELD ∉ tags → tag ∈ tags →
  events_from t es → last_time t es ≤ now →
  0 ≤ e_timestamp e < t → tag ∈ e_tags e →
  evaluateEntry e
    (manifest_of (fields (foldl run_event (run_event s (mkEvent t clientNow d tags)) es))) now
  ≠ Fresh r.
Proof.
  intros Hna Hn Hep Hin Hes Hnow [Hts0 Hts] Htag.
  destruct (script_spec t clientNow d tags s n Hna Hep Hn) as (_ & Hm & Hna' & Hn' & _).
  apply past_due_not_fresh with tag; [done|done|]. eapply past_due_mono; [exact Hnow|].
  eapply events_past_due; [exact Hts|done|done|exact Hn'|].
  unfold run_event. simpl. rewrite Hm. apply foldl_past_due; auto.
Qed.

(** The witness: a hard revalidation, then a profiled one whose expiry is far in the future. *)
Lemma revalidated_never_fresh_witness :
  evaluateEntry (mkEntry 90 3600 7200 ["post"])
    (manifest_of (fields (foldl run_event
      (run_event (mkStore ∅ None) (mkEvent 100 5 None ["post"]))
      [mkEvent 200 900 (Some (mkDurations (Some 600))) ["post"; "other"]]))) 250
  ≠ Fresh 3600.
Proof.
  apply (revalidated_never_fresh 100 5 None ["post"] (mkStore ∅ None) 0 "post").
  - intros f s Hf. simpl in Hf. by rewrite lookup_empty in Hf.
  - reflexivity.
  - intros H%list_elem_of_singleton. discriminate.
  - apply list_elem_of_here.
  - simpl. split_and!; [lia| |done]. intros Hin.
    apply elem_of_cons in Hin as [?|?%list_elem_of_singleton]; discriminate.
  - vm_compute. discriminate.
  - simpl. lia.
  - apply list_elem_of_here.
Defined.

(** Verdicts only age: against one manifest, an entry that is expired stays expired, and one
    that is stale or expired never becomes fresh, as time passes. *)
Theorem verdict_ages e m now now' :
  now ≤ now' →
  (evaluateEntry e m now = Expired → evaluateEntry e m now' = Expired)
  ∧ (∀ r, evaluateEntry e m now' = Fresh r → evaluateEntry e m now = Fresh r).
Proof.
  intros Hle.
  assert (areTagsExpired (e_tags e) (e_timestamp e) m now = true →
          areTagsExpired (e_tags e) (e_timestamp e) m now' = true) as Hexp.
  { unfold areTagsExpired. rewrite !existsb_In. intros (x & Hx & Ht). exists x. split; [done|].
    unfold tag_expires in *. destruct (m !! x) as [[? [y|] ?]|]; try done. b2p.
    rewrite andb_true_iff, Z.leb_le, Z.ltb_lt. lia. }
  unfold evaluateEntry, evaluateIn. split.
  - split_ifs; try done; b2p; try lia; intros; naive_solver.
  - intros r. split_ifs; try done; b2p; try lia; naive_solver.
Qed.

Lemma verdict_ages_witness :
  (evaluateEntry (mkEntry 0 1 1 []) ∅ 2000 = Expired → evaluateEntry (mkEntry 0 1 1 []) ∅ 9000 = Expired)
  ∧ (∀ r, evaluateEntry (mkEntry 0 1 1 []) ∅ 9000 = Fresh r → evaluateEntry (mkEntry 0 1 1 []) ∅ 2000 = Fresh r).
Proof. apply (verdict_ages (mkEntry 0 1 1 []) ∅ 2000 9000). lia. Defined.

End TagManifest.
