(* ===== verification/Regex.v ===== *)
(** * JavaScript regular expressions

    RegExp.prototype.test for the patterns of the code: patterns without flags, back-references,
    lookaround or lazy quantifiers, with [^] first and [$] last where they occur.  A definition of
    the development carries the source text of its pattern; [re_test] parses it and runs a
    derivative matcher, which [re_test_spec] relates to the declarative semantics.  The last part
    reads facts off a pattern: the characters its matches are made of, their first and last
    character, and their greatest length. *)
From Stdlib Require Import Ascii String NArith.
From S2P Require Import Prelude JsString.
Local Open Scope stdpp_scope.

(** ** Syntax and declarative semantics *)

Abbreviation ranges := (list (ascii * ascii)).

Inductive re :=
| RNone
| REps
| RCls (negated : bool) (rs : ranges)
| RSeq (a b : re)
| RAlt (a b : re)
| RStar (a : re)
| RRep (m n : nat) (a : re).

Definition in_range (c : ascii) (r : ascii * ascii) : bool :=
  (N_of_ascii r.1 <=? N_of_ascii c)%N && (N_of_ascii c <=? N_of_ascii r.2)%N.

Definition in_class (negated : bool) (rs : ranges) (c : ascii) : bool :=
  xorb negated (existsb (in_range c) rs).

Inductive matches : re → string → Prop :=
| MEps : matches REps ""
| MCls neg rs c : in_class neg rs c = true → matches (RCls neg rs) (String c "")
| MSeq a b s t : matches a s → matches b t → matches (RSeq a b) (s +:+ t)
| MAltL a b s : matches a s → matches (RAlt a b) s
| MAltR a b s : matches b s → matches (RAlt a b) s
| MStar0 a : matches (RStar a) ""
| MStarS a s t : matches a s → matches (RStar a) t → matches (RStar a) (s +:+ t)
| MRep0 n a : matches (RRep 0 n a) ""
| MRepS m n a s t : matches a s → matches (RRep (pred m) n a) t → matches (RRep m (S n) a) (s +:+ t).

(** ** The matcher *)

Fixpoint nullable (r : re) : bool :=
  match r with
  | RNone | RCls _ _ => false
  | REps | RStar _ => true
  | RSeq a b => nullable a && nullable b
  | RAlt a b => nullable a || nullable b
  | RRep m n a => (m =? 0)%nat || (m <=? n)%nat && nullable a
  end.

Definition rseq (a b : re) : re :=
  match a, b with
  | RNone, _ | _, RNone => RNone
  | REps, _ => b
  | _, REps => a
  | _, _ => RSeq a b
  end.

Definition ralt (a b : re) : re :=
  match a, b with
  | RNone, _ => b
  | _, RNone => a
  | _, _ => RAlt a b
  end.

Fixpoint deriv (c : ascii) (r : re) : re :=
  match r with
  | RNone | REps => RNone
  | RCls neg rs => if in_class neg rs c then REps else RNone
  | RSeq a b => if nullable a then ralt (rseq (deriv c a) b) (deriv c b) else rseq (deriv c a) b
  | RAlt a b => ralt (deriv c a) (deriv c b)
  | RStar a => rseq (deriv c a) (RStar a)
  | RRep m n a => match n with 0 => RNone | S n' => rseq (deriv c a) (RRep (pred m) n' a) end
  end.

Fixpoint rmatch (r : re) (s : string) : bool :=
  match s with EmptyString => nullable r | String c s' => rmatch (deriv c r) s' end.

(** ** Patterns *)

Definition full_range : ranges := [("000", "255")]%char.
Definition digit_range : ranges := [("0", "9")]%char.
Definition word_ranges : ranges := [("0", "9"); ("A", "Z"); ("_", "_"); ("a", "z")]%char.
Definition space_ranges : ranges := [("009", "013"); (" ", " "); ("160", "160")]%char.
Definition newline_ranges : ranges := [("010", "010"); ("013", "013")]%char.

Definition hex_value (c : ascii) : N :=
  let n := N_of_ascii c in
  if (n <=? 57)%N then (n - 48)%N else if (n <=? 70)%N then (n - 55)%N else (n - 87)%N.

(** An escape after its backslash: the ranges it denotes and the rest of the pattern. *)
Definition p_escape (s : string) : option (ranges * string) :=
  match s with
  | String "d" s' => Some (digit_range, s')
  | String "w" s' => Some (word_ranges, s')
  | String "s" s' => Some (space_ranges, s')
  | String "n" s' => Some ([("010", "010")]%char, s')
  | String "r" s' => Some ([("013", "013")]%char, s')
  | String "t" s' => Some ([("009", "009")]%char, s')
  | String "x" (String h (String l s')) =>
      let c := ascii_of_N (16 * hex_value h + hex_value l) in Some ([(c, c)], s')
  | String c s' => Some ([(c, c)], s')
  | EmptyString => None
  end.

(** One item of a character class. *)
Definition p_item (s : string) : option (ranges * string) :=
  match s with
  | String c s' => if Ascii.eqb c backslash then p_escape s' else Some ([(c, c)], s')
  | EmptyString => None
  end.

Fixpoint p_class (fuel : nat) (s : string) : option (ranges * string) :=
  match fuel, s with
  | S fuel', String "]" s' => Some ([], s')
  | S fuel', _ =>
      match p_item s with
      | Some (lo, String "-" rest) =>
          match rest with
          | String "]" _ =>
              match p_class fuel' rest with
              | Some (rs, s'') => Some (lo ++ ("-", "-")%char :: rs, s'')
              | None => None
              end
          | _ =>
              match lo, p_item rest with
              | [(a, _)], Some ([(b, _)], s') =>
                  match p_class fuel' s' with
                  | Some (rs, s'') => Some ((a, b) :: rs, s'')
                  | None => None
                  end
              | _, _ => None
              end
          end
      | Some (lo, s') =>
          match p_class fuel' s' with Some (rs, s'') => Some (lo ++ rs, s'') | None => None end
      | None => None
      end
  | _, _ => None
  end.

Fixpoint p_nat (acc : nat) (s : string) : nat * string :=
  match s with
  | String c s' => if is_digit c then p_nat (10 * acc + (code c - 48)) s' else (acc, s)
  | EmptyString => (acc, s)
  end.

(** The quantifiers after an atom; {m,} is m copies and a star. *)
Definition p_quantifier (r : re) (s : string) : option (re * string) :=
  match s with
  | String "*" s' => Some (RStar r, s')
  | String "+" s' => Some (RSeq r (RStar r), s')
  | String "?" s' => Some (RRep 0 1 r, s')
  | String "{" s' =>
      match p_nat 0 s' with
      | (m, String "}" s'') => Some (RRep m m r, s'')
      | (m, String "," (String "}" s'')) => Some (RSeq (RRep m m r) (RStar r), s'')
      | (m, String "," s'') =>
          match p_nat 0 s'' with
          | (n, String "}" s''') => Some (RRep m n r, s''')
          | _ => None
          end
      | _ => None
      end
  | _ => Some (r, s)
  end.

(** Alternatives, sequences and atoms; a [$] is left for the end of the pattern. *)
Fixpoint p_alt (fuel : nat) (s : string) : option (re * string) :=
  match fuel with
  | 0 => None
  | S fuel' =>
      match p_seq fuel' s with
      | Some (r, String "|" s') =>
          match p_alt fuel' s' with Some (r', s'') => Some (RAlt r r', s'') | None => None end
      | res => res
      end
  end
with p_seq (fuel : nat) (s : string) : option (re * string) :=
  match fuel, s with
  | 0, _ => None
  | S _, EmptyString | S _, String ")" _ | S _, String "|" _ | S _, String "$" EmptyString =>
      Some (REps, s)
  | S fuel', String c s' =>
      match p_atom fuel' c s' with
      | Some (r, s1) =>
          match p_quantifier r s1 with
          | Some (r, s2) =>
              match p_seq fuel' s2 with Some (r', s3) => Some (rseq r r', s3) | None => None end
          | None => None
          end
      | None => None
      end
  end
with p_atom (fuel : nat) (c : ascii) (s : string) : option (re * string) :=
  match fuel with
  | 0 => None
  | S fuel' =>
      match c with
      | "("%char =>
          match p_alt fuel' (match s with String "?" (String ":" s') => s' | _ => s end) with
          | Some (r, String ")" s') => Some (r, s')
          | _ => None
          end
      | "["%char =>
          match s with
          | String "^" s' =>
              match p_class fuel' s' with Some (rs, s'') => Some (RCls true rs, s'') | None => None end
          | _ => match p_class fuel' s with Some (rs, s'') => Some (RCls false rs, s'') | None => None end
          end
      | "."%char => Some (RCls true newline_ranges, s)
      | _ =>
          if Ascii.eqb c backslash
          then match p_escape s with Some (rs, s') => Some (RCls false rs, s') | None => None end
          else Some (RCls false [(c, c)], s)
      end
  end.

Definition any_text : re := RStar (RCls false full_range).

(** The expression a whole subject must match for test to succeed. *)
Definition compile (pattern : string) : option re :=
  let fuel := (3 * String.length pattern + 3)%nat in
  let '(anchored, body) := match pattern with String "^" p => (true, p) | p => (false, p) end in
  match p_alt fuel body with
  | Some (r, rest) =>
      let before := if anchored then REps else any_text in
      match rest with
      | EmptyString => Some (rseq before (rseq r any_text))
      | String "$" EmptyString => Some (rseq before r)
      | _ => None
      end
  | None => None
  end.

Definition compiled (pattern : string) : re := default RNone (compile pattern).

(** pattern.test(s) *)
Definition re_test (pattern s : string) : bool := rmatch (compiled pattern) s.

(** The text of a pattern, as a template literal interpolates it. *)
Definition re_source (pattern : string) : string := "/" +:+ pattern +:+ "/".

(** ** Facts read off a pattern *)

Definition all_ascii : list ascii := map ascii_of_nat (seq 0 256).

Definition class_within (p : ascii → bool) (neg : bool) (rs : ranges) : bool :=
  forallb (λ c, implb (in_class neg rs c) (p c)) all_ascii.

(** Every character of every match satisfies [p]. *)
Fixpoint within (p : ascii → bool) (r : re) : bool :=
  match r with
  | RNone | REps => true
  | RCls neg rs => class_within p neg rs
  | RSeq a b | RAlt a b => within p a && within p b
  | RStar a | RRep _ _ a => within p a
  end.

(** The first character of every non-empty match satisfies [p]. *)
Fixpoint first_within (p : ascii → bool) (r : re) : bool :=
  match r with
  | RNone | REps => true
  | RCls neg rs => class_within p neg rs
  | RSeq a b => first_within p a && (negb (nullable a) || first_within p b)
  | RAlt a b => first_within p a && first_within p b
  | RStar a | RRep _ _ a => first_within p a
  end.

(** The last character of every non-empty match satisfies [p]. *)
Fixpoint last_within (p : ascii → bool) (r : re) : bool :=
  match r with
  | RNone | REps => true
  | RCls neg rs => class_within p neg rs
  | RSeq a b => last_within p b && (negb (nullable b) || last_within p a)
  | RAlt a b => last_within p a && last_within p b
  | RStar a | RRep _ _ a => last_within p a
  end.

(** A bound on the length of the matches. *)
Fixpoint max_length (r : re) : option nat :=
  match r with
  | RNone | REps => Some 0
  | RCls _ _ => Some 1
  | RSeq a b => a ← max_length a; b ← max_length b; Some (a + b)
  | RAlt a b => a ← max_length a; b ← max_length b; Some (a `max` b)
  | RStar _ => None
  | RRep _ n a => a ← max_length a; Some (n * a)
  end.

(** ** Correctness of the matcher *)

#[local] Hint Constructors matches : adapter.

Lemma nullable_correct r : nullable r = true ↔ matches r "".
Proof.
  split.
  - induction r as [| | |a IHa b IHb|a IHa b IHb|a IHa|m n a IHa]; simpl; try done; auto with adapter.
    + intros [Ha Hb]%andb_true_iff. apply (MSeq a b "" ""); auto.
    + intros [Ha|Hb]%orb_true_iff; auto with adapter.
    + intros [->%Nat.eqb_eq|[Hle%Nat.leb_le Ha]%andb_true_iff]%orb_true_iff; [auto with adapter|].
      revert m Hle. induction n as [|n IH]; intros m Hle.
      * replace m with 0 by lia. constructor.
      * apply (MRepS m n a "" ""); [auto|]. apply IH. lia.
  - assert (∀ s, matches r s → s = "" → nullable r = true) as H; [|by intros; eapply H].
    intros s Hm. induction Hm as [| |a b s t ? IH1 ? IH2| | | |? ? ?|? ?|m n a s t ? IH1 ? IH2];
      simpl; intros Heq; try done.
    + destruct s; [|done]. simpl in Heq. by rewrite IH1, IH2.
    + by rewrite IHHm.
    + rewrite IHHm by done. apply orb_true_r.
    + destruct s; [|done]. simpl in Heq. specialize (IH1 eq_refl). specialize (IH2 Heq).
      simpl in IH2. rewrite IH1 in *. destruct m; [done|]. simpl in *.
      rewrite andb_true_r in *. apply orb_true_iff in IH2 as [Hm0%Nat.eqb_eq|Hle%Nat.leb_le].
      * subst. done.
      * apply Nat.leb_le. lia.
Qed.

Lemma matches_none s : ¬ matches RNone s.
Proof. inversion 1. Qed.

Lemma matches_eps s : matches REps s ↔ s = "".
Proof. split; [by inversion 1|]. intros ->. constructor. Qed.

Lemma matches_rseq a b s : matches (rseq a b) s ↔ matches (RSeq a b) s.
Proof.
  assert (matches (RSeq RNone b) s ↔ matches RNone s) as H1.
  { split; inversion 1; subst. by edestruct matches_none. }
  assert (matches (RSeq REps b) s ↔ matches b s) as H2.
  { split.
    - inversion 1 as [| |? ? x y Hx Hy| | | | | |]; subst. by apply matches_eps in Hx as ->.
    - intros H. by apply (MSeq REps b "" s (MEps)). }
  assert (matches (RSeq a RNone) s ↔ matches RNone s) as H3.
  { split; inversion 1; subst. by edestruct matches_none. }
  assert (matches (RSeq a REps) s ↔ matches a s) as H4.
  { split.
    - inversion 1 as [| |? ? x y Hx Hy| | | | | |]; subst. apply matches_eps in Hy as ->.
      by rewrite append_nil_r.
    - intros H. rewrite <- (append_nil_r s). constructor; [done|constructor]. }
  destruct a, b; simpl; rewrite ?H1, ?H2, ?H3, ?H4; done.
Qed.

Lemma matches_ralt a b s : matches (ralt a b) s ↔ matches a s ∨ matches b s.
Proof.
  pose proof (matches_none s).
  assert (matches (RAlt a b) s ↔ matches a s ∨ matches b s).
  { split; [inversion 1; auto|]. intros []; auto with adapter. }
  destruct a, b; simpl; naive_solver.
Qed.

Lemma matches_seq_cons a b c s :
  matches (RSeq a b) (String c s)
  ↔ (∃ x y, s = x +:+ y ∧ matches a (String c x) ∧ matches b y)
    ∨ matches a "" ∧ matches b (String c s).
Proof.
  split.
  - inversion 1 as [| |? ? x y Hx Hy Heq| | | | | |]; subst. destruct x as [|d x]; simpl in *.
    + right. by subst.
    + simplify_eq. left. eauto.
  - intros [(x & y & -> & Hx & Hy)|[Hx Hy]].
    + by apply (MSeq a b (String c x) y).
    + by apply (MSeq a b "").
Qed.

Lemma matches_star_cons a c s :
  matches (RStar a) (String c s) ↔ ∃ x y, s = x +:+ y ∧ matches a (String c x) ∧ matches (RStar a) y.
Proof.
  split.
  - remember (RStar a) as r. remember (String c s) as w. intros Hm. revert Heqr s Heqw.
    induction Hm as [| | | | | |a' x y Hx _ Hy IH| |]; intros Heqr s' Heqw; simplify_eq.
    destruct x as [|d x]; simpl in *.
    + by apply IH.
    + simplify_eq. eauto.
  - intros (x & y & -> & Hx & Hy). by apply (MStarS a (String c x) y).
Qed.

Lemma matches_rep_cons m n a c s :
  matches (RRep m n a) (String c s)
  ↔ ∃ n' x y, n = S n' ∧ s = x +:+ y ∧ matches a (String c x) ∧ matches (RRep (pred m) n' a) y.
Proof.
  split.
  - revert m. induction n as [|n IH]; intros m Hm; inversion Hm as [| | | | | | | |? ? ? x y Hx Hy Heq]; subst.
    destruct x as [|d x]; simpl in *.
    + subst. destruct (IH _ Hy) as (n' & x' & y' & -> & -> & Hx' & Hy').
      exists (S n'), x', y'. split_and!; [done..|]. apply (MRepS _ _ _ "" y'); done.
    + simplify_eq. eauto 10.
  - intros (n' & x & y & -> & -> & Hx & Hy). by apply (MRepS m n' a (String c x) y).
Qed.

Lemma deriv_correct c r s : matches (deriv c r) s ↔ matches r (String c s).
Proof.
  revert s. induction r as [| |neg rs|a IHa b IHb|a IHa b IHb|a IHa|m n a IHa]; intros s; simpl.
  - split; inversion 1.
  - split; inversion 1.
  - destruct (in_class neg rs c) eqn:Hc.
    + rewrite matches_eps. split; [intros ->; by constructor|]. by inversion 1.
    + split; [inversion 1|]. inversion 1; subst. congruence.
  - rewrite matches_seq_cons.
    assert (matches (rseq (deriv c a) b) s
            ↔ ∃ x y, s = x +:+ y ∧ matches a (String c x) ∧ matches b y) as Hs.
    { rewrite matches_rseq. setoid_rewrite <- IHa. split.
      - inversion 1; subst; eauto.
      - intros (x & y & -> & ? & ?). by constructor. }
    pose proof (nullable_correct a) as Hn. destruct (nullable a).
    + rewrite matches_ralt, Hs, IHb. naive_solver.
    + rewrite Hs. naive_solver.
  - rewrite matches_ralt, IHa, IHb. split; [intros []; auto with adapter|inversion 1; auto].
  - rewrite matches_star_cons, matches_rseq. setoid_rewrite <- IHa. split.
    + inversion 1; subst; eauto.
    + intros (x & y & -> & ? & ?). by constructor.
  - rewrite matches_rep_cons. setoid_rewrite <- IHa. destruct n as [|n].
    + split; [inversion 1|]. by intros (? & ? & ? & ? & _).
    + rewrite matches_rseq. split.
      * inversion 1; subst. eauto 10.
      * intros (n' & x & y & [= <-] & -> & ? & ?). by constructor.
Qed.

Lemma rmatch_correct r s : rmatch r s = true ↔ matches r s.
Proof.
  revert r. induction s as [|c s IH]; intros r; simpl; [apply nullable_correct|].
  by rewrite IH, deriv_correct.
Qed.

Lemma re_test_spec pattern s : re_test pattern s = true ↔ matches (compiled pattern) s.
Proof. apply rmatch_correct. Qed.

(** ** Soundness of the facts *)

(** An implication between classes is checked on all characters. *)
Lemma class_impl (p q : ascii → bool) :
  forallb (λ c, implb (p c) (q c)) all_ascii = true → ∀ c, p c = true → q c = true.
Proof.
  intros H c Hp. rewrite forallb_forall in H. specialize (H c). rewrite Hp in H. apply H.
  apply in_map_iff. exists (nat_of_ascii c). split; [apply ascii_nat_embedding|].
  apply in_seq. pose proof (nat_ascii_bounded c). lia.
Qed.

Lemma class_within_sound p neg rs c : class_within p neg rs = true → in_class neg rs c = true → p c = true.
Proof.
  intros Hw Hc. unfold class_within in Hw. rewrite forallb_forall in Hw.
  specialize (Hw c). rewrite Hc in Hw. apply Hw. apply in_map_iff. exists (nat_of_ascii c).
  split; [apply ascii_nat_embedding|]. apply in_seq. pose proof (nat_ascii_bounded c). lia.
Qed.

Lemma within_sound p r s : within p r = true → matches r s → all_chars p s = true.
Proof.
  intros Hw Hm. induction Hm; simpl in *; b2p; rewrite ?all_chars_append; auto;
    try (rewrite ?IHHm, ?IHHm1, ?IHHm2; by auto).
  by rewrite (class_within_sound _ _ _ _ Hw).
Qed.

Lemma first_within_sound p r c s : first_within p r = true → matches r (String c s) → p c = true.
Proof.
  intros Hw Hm. remember (String c s) as w eqn:Hs. revert s Hs.
  induction Hm as [|neg rs d Hd|a b x y Hx IHx Hy IHy| | | |a x y Hx IHx Hy IHy| |m n a x y Hx IHx Hy IHy];
    intros s' Heq; simpl in *; b2p; simplify_eq; [by eapply class_within_sound| |by eauto..| |].
  - destruct x as [|d x]; simpl in *; simplify_eq; [|eauto].
    apply nullable_correct in Hx. rewrite Hx in *. eauto.
  - destruct x as [|d x]; simpl in *; simplify_eq; eauto.
  - destruct x as [|d x]; simpl in *; simplify_eq; eauto.
Qed.

Lemma append_snoc_inv x y s c :
  x +:+ y = s +:+ String c "" →
  (y = "" ∧ x = s +:+ String c "") ∨ ∃ y', y = y' +:+ String c "".
Proof.
  revert s. induction x as [|d x IH]; intros s Heq; simpl in *; [right; eauto|].
  destruct s as [|e s]; simpl in *; injection Heq as -> Heq.
  - left. destruct x; [|done]. simpl in *. by subst.
  - destruct (IH _ Heq) as [[-> ->]|]; eauto.
Qed.

Lemma last_within_sound p r c s : last_within p r = true → matches r (s +:+ String c "") → p c = true.
Proof.
  intros Hw Hm. remember (s +:+ String c "") as w eqn:Hs. revert s Hs.
  induction Hm as [|neg rs d Hd|a b x y Hx IHx Hy IHy| | | |a x y Hx IHx Hy IHy| |m n a x y Hx IHx Hy IHy];
    intros s' Heq; simpl in *; b2p; [by destruct s'| | |by eauto..|by destruct s'| |by destruct s'|].
  - destruct s' as [|e [|]]; simplify_eq/=. eauto using class_within_sound.
  - apply append_snoc_inv in Heq as [[-> ->]|[y' ->]]; [|eauto].
    apply nullable_correct in Hy. rewrite Hy in *. eauto.
  - apply append_snoc_inv in Heq as [[-> ->]|[y' ->]]; eauto.
  - apply append_snoc_inv in Heq as [[-> ->]|[y' ->]]; eauto.
Qed.

Lemma length_append a b : String.length (a +:+ b) = (String.length a + String.length b)%nat.
Proof. induction a; simpl; congruence. Qed.

Lemma max_length_sound r s n : max_length r = Some n → matches r s → (String.length s ≤ n)%nat.
Proof.
  intros Hl Hm. revert n Hl.
  induction Hm as [| |a b x y _ IHx _ IHy|a b x _ IH|a b x _ IH| | |k a|m k a x y _ IHx _ IHy];
    cbn [max_length]; intros n0 Hl; try (by simplify_eq; simpl; lia);
    repeat (apply bind_Some in Hl as (? & ? & Hl)); simplify_eq; rewrite ?length_append.
  - specialize (IHx _ H). specialize (IHy _ H0). lia.
  - specialize (IH _ H). lia.
  - specialize (IH _ H0). lia.
  - specialize (IHx _ H). simpl in IHy. rewrite H in IHy. simpl in IHy. specialize (IHy _ eq_refl). simpl in IHy. lia.
Qed.
