(* ===== verification/Json.v ===== *)
(** * JSON values

    The values JSON.parse and structured configuration produce, own-property lookup, and
    JSON.stringify.  An object is the list of its own enumerable properties, in the order
    Object.keys gives them.  A number is an integer that a double represents exactly, a finite
    number that is not an integer (kept as its text), an infinity or NaN. *)
From Stdlib Require Import Ascii String Decimal DecimalString.
From S2P Require Import Prelude JsString.
Local Open Scope stdpp_scope.

Inductive num :=
| NInt (n : Z)
| NFrac (text : string)
| NInf (negative : bool)
| NNaN.

#[global] Instance num_eq_dec : EqDecision num.
Proof. solve_decision. Defined.

Inductive json :=
| JNull
| JBool (b : bool)
| JNum (n : num)
| JStr (s : string)
| JArr (l : list json)
| JObj (fields : list (string * json)).

Abbreviation obj := (list (string * json)).

#[global] Instance json_eq_dec : EqDecision json.
Proof.
  refine (
    fix go a b := let _ : EqDecision json := @go in
    match a, b with
    | JNull, JNull => left _
    | JBool x, JBool y => cast_if (decide (x = y))
    | JNum x, JNum y => cast_if (decide (x = y))
    | JStr x, JStr y => cast_if (decide (x = y))
    | JArr l, JArr m => cast_if (decide (l = m))
    | JObj fs, JObj gs => cast_if (decide (fs = gs))
    | _, _ => right _
    end); abstract congruence.
Defined.

(** ** Induction through the nested lists *)

Section JsonInd.
Variable P : json → Prop.
Hypothesis P_null : P JNull.
Hypothesis P_bool : ∀ b, P (JBool b).
Hypothesis P_num : ∀ n, P (JNum n).
Hypothesis P_str : ∀ s, P (JStr s).
Hypothesis P_arr : ∀ l, Forall P l → P (JArr l).
Hypothesis P_obj : ∀ fs, Forall (λ f, P f.2) fs → P (JObj fs).

Fixpoint json_nested_ind (j : json) : P j :=
  match j with
  | JNull => P_null
  | JBool b => P_bool b
  | JNum n => P_num n
  | JStr s => P_str s
  | JArr l =>
      P_arr l ((fix go (l : list json) : Forall P l :=
        match l with
        | [] => List.Forall_nil _
        | x :: l' => List.Forall_cons _ _ _ (json_nested_ind x) (go l')
        end) l)
  | JObj fs =>
      P_obj fs ((fix go (fs : obj) : Forall (λ f, P f.2) fs :=
        match fs with
        | [] => List.Forall_nil _
        | f :: fs' => List.Forall_cons _ _ _ (json_nested_ind f.2) (go fs')
        end) fs)
  end.
End JsonInd.

(** ** Own properties *)

(** value[key] for an own key; [None] is undefined. *)
Fixpoint prop (fs : obj) (key : string) : option json :=
  match fs with
  | [] => None
  | (k, v) :: fs' => if String.eqb k key then Some v else prop fs' key
  end.

(** Object.hasOwn(value, key) *)
Definition has_own (fs : obj) (key : string) : bool :=
  match prop fs key with Some _ => true | None => false end.

(** Own-property assignment: it replaces in place, or appends. *)
Fixpoint set_prop (fs : obj) (key : string) (v : json) : obj :=
  match fs with
  | [] => [(key, v)]
  | (k, w) :: fs' => if String.eqb k key then (k, v) :: fs' else (k, w) :: set_prop fs' key v
  end.

(** Values whose objects list every key once, as JavaScript objects do. *)
Fixpoint wf_json (j : json) : Prop :=
  match j with
  | JArr l => (fix go (l : list json) : Prop :=
      match l with [] => True | x :: l' => wf_json x ∧ go l' end) l
  | JObj fs => NoDup fs.*1 ∧ (fix go (fs : obj) : Prop :=
      match fs with [] => True | f :: fs' => wf_json f.2 ∧ go fs' end) fs
  | _ => True
  end.

(** ** JSON.stringify *)

Definition hex_digit (n : nat) : ascii :=
  if (n <? 10)%nat then ascii_of_nat (48 + n) else ascii_of_nat (87 + n).

Definition escape_char (c : ascii) : string :=
  let n := code c in
  if (n =? 34)%nat then String backslash (String dquote "")
  else if (n =? 92)%nat then String backslash (String backslash "")
  else if (n =? 8)%nat then String backslash "b"
  else if (n =? 9)%nat then String backslash "t"
  else if (n =? 10)%nat then String backslash "n"
  else if (n =? 12)%nat then String backslash "f"
  else if (n =? 13)%nat then String backslash "r"
  else if (n <? 32)%nat
  then String backslash "u00" +:+ String (hex_digit (n / 16)) (String (hex_digit (n mod 16)) "")
  else String c "".

Fixpoint escape_text (s : string) : string :=
  match s with EmptyString => "" | String c s' => escape_char c +:+ escape_text s' end.

Definition json_quote (s : string) : string :=
  String dquote (escape_text s +:+ String dquote "").

(** The decimal text of an integer. *)
Definition z_text (n : Z) : string := NilZero.string_of_int (Z.to_int n).

Definition num_text (n : num) : string :=
  match n with NInt n => z_text n | NFrac t => t | NInf _ | NNaN => "null" end.

Fixpoint join (sep : string) (l : list string) : string :=
  match l with
  | [] => ""
  | [x] => x
  | x :: l' => x +:+ sep +:+ join sep l'
  end.

Fixpoint stringify (j : json) : string :=
  match j with
  | JNull => "null"
  | JBool b => if b then "true" else "false"
  | JNum n => num_text n
  | JStr s => json_quote s
  | JArr l => "[" +:+ join "," (map stringify l) +:+ "]"
  | JObj fs => "{" +:+ join "," (map (λ f, json_quote f.1 +:+ ":" +:+ stringify f.2) fs) +:+ "}"
  end.

(** String interpolation of a double-quoted text. *)
Definition in_quotes (s : string) : string := String dquote (s +:+ String dquote "").

(** ** Lemmas *)

Lemma prop_Some_elem fs k v : prop fs k = Some v → (k, v) ∈ fs.
Proof.
  induction fs as [|[k' v'] fs IH]; simpl; [done|].
  destruct (String.eqb_spec k' k) as [->|]; intros ?; simplify_eq; [left|right; auto].
Qed.

Lemma prop_elem fs k v : NoDup fs.*1 → (k, v) ∈ fs → prop fs k = Some v.
Proof.
  induction fs as [|[k' v'] fs IH]; simpl; [by intros _ ?%not_elem_of_nil|].
  intros [Hni Hnd]%NoDup_cons [Heq|Hin]%elem_of_cons; simplify_eq.
  - by rewrite String.eqb_refl.
  - destruct (String.eqb_spec k' k) as [->|]; [|auto].
    destruct Hni. by apply (list_elem_of_fmap_2 fst fs (k, v)) in Hin.
Qed.

Lemma prop_None fs k : prop fs k = None ↔ k ∉ fs.*1.
Proof.
  induction fs as [|[k' v'] fs IH]; simpl; [split; [intros _; apply not_elem_of_nil|done]|].
  rewrite not_elem_of_cons, <- IH. destruct (String.eqb_spec k' k) as [->|]; naive_solver.
Qed.

Lemma prop_set_prop fs k v k' : prop (set_prop fs k v) k' = if String.eqb k k' then Some v else prop fs k'.
Proof.
  induction fs as [|[k0 v0] fs IH]; simpl; [done|].
  destruct (String.eqb_spec k0 k) as [->|Hne]; simpl.
  - by destruct (String.eqb_spec k k').
  - rewrite IH. destruct (String.eqb_spec k0 k') as [->|]; [|done].
    by rewrite (proj2 (String.eqb_neq k k')).
Qed.

(** ** Equality up to the order of keys *)

Inductive jeq : json → json → Prop :=
| jeq_null : jeq JNull JNull
| jeq_bool b : jeq (JBool b) (JBool b)
| jeq_num n : jeq (JNum n) (JNum n)
| jeq_str s : jeq (JStr s) (JStr s)
| jeq_arr l l' : Forall2 jeq l l' → jeq (JArr l) (JArr l')
| jeq_obj fs fs' :
    NoDup fs.*1 → NoDup fs'.*1 → (∀ k, option_Forall2 jeq (prop fs k) (prop fs' k)) →
    jeq (JObj fs) (JObj fs').
#[export] Hint Constructors jeq : adapter.

Lemma wf_arr l : wf_json (JArr l) ↔ Forall wf_json l.
Proof.
  induction l as [|x l IH]; simpl; [done|]. rewrite Forall_cons, <- IH. done.
Qed.

Lemma wf_obj fs : wf_json (JObj fs) ↔ NoDup fs.*1 ∧ Forall (λ f, wf_json f.2) fs.
Proof.
  simpl. assert ((fix go (fs : obj) : Prop :=
      match fs with [] => True | f :: fs' => wf_json f.2 ∧ go fs' end) fs ↔ Forall (λ f, wf_json f.2) fs) as H.
  { induction fs as [|f fs IH]; simpl; [done|]. by rewrite Forall_cons, <- IH. }
  by rewrite H.
Qed.

Lemma wf_prop fs k v : wf_json (JObj fs) → prop fs k = Some v → wf_json v.
Proof.
  rewrite wf_obj, Forall_forall. intros [_ Hall] Hp%prop_Some_elem. by apply (Hall _ Hp).
Qed.

Lemma wf_nodup fs : wf_json (JObj fs) → NoDup fs.*1.
Proof. by intros [? _]%wf_obj. Qed.

(** Well-formed values are equal to themselves. *)
Lemma jeq_refl j : wf_json j → jeq j j.
Proof.
  induction j as [| | | |l IH|fs IH] using json_nested_ind; intros Hwf; try constructor.
  - apply wf_arr in Hwf. induction IH; inversion Hwf; subst; constructor; auto.
  - by apply wf_nodup.
  - by apply wf_nodup.
  - intros k. destruct (prop fs k) as [v|] eqn:Hp; constructor.
    rewrite Forall_forall in IH. eapply (IH (k, v)); [by apply prop_Some_elem|by eapply wf_prop].
Qed.

(** Objects whose keys come from one list are compared on that list. *)
Lemma jeq_obj_keys allowed fs fs' :
  NoDup fs.*1 → NoDup fs'.*1 →
  (∀ k, k ∈ fs.*1 → k ∈ allowed) → (∀ k, k ∈ fs'.*1 → k ∈ allowed) →
  Forall (λ k, option_Forall2 jeq (prop fs k) (prop fs' k)) allowed →
  jeq (JObj fs) (JObj fs').
Proof.
  intros Hn Hn' Hk Hk' Hall. constructor; [done..|]. intros k. rewrite Forall_forall in Hall.
  destruct (prop fs k) as [v|] eqn:Hp.
  - rewrite <- Hp. apply Hall, Hk. apply prop_Some_elem in Hp. by apply (list_elem_of_fmap_2 fst _ (k, v)).
  - destruct (prop fs' k) as [v'|] eqn:Hp'; [|constructor].
    rewrite <- Hp, <- Hp'. apply Hall, Hk'. apply prop_Some_elem in Hp'.
    by apply (list_elem_of_fmap_2 fst _ (k, v')).
Qed.

(** A check of well-formedness. *)
Fixpoint wf_check (j : json) : bool :=
  match j with
  | JArr l => forallb wf_check l
  | JObj fs => bool_decide (NoDup fs.*1) && forallb (λ f, wf_check f.2) fs
  | _ => true
  end.

Lemma wf_check_sound j : wf_check j = true → wf_json j.
Proof.
  induction j as [| | | |l IH|fs IH] using json_nested_ind; try done.
  - intros H. apply wf_arr. simpl in H. rewrite forallb_In in H. rewrite Forall_forall in *. eauto.
  - simpl. intros [Hnd%bool_decide_eq_true H]%andb_true_iff. apply wf_obj. split; [done|].
    rewrite forallb_In in H. rewrite Forall_forall in *. eauto.
Qed.
