(* ===== verification/JsonParse.v ===== *)
(** * JSON texts

    JSON.parse as the standard gives it, and the texts JSON.stringify writes without and with an
    indent.  Characters are Latin-1: an escape for another code point is outside the model and is
    refused.  A literal that is not the canonical text of a safe integer is kept as its text. *)
From Stdlib Require Import Ascii String Decimal DecimalString DecimalZ.
From S2P Require Import Prelude JsString Regex Json.
Local Open Scope stdpp_scope.

(** ** Numbers *)

(** A number as JSON.parse gives it: an integer, or a finite number whose text has a point or an
    exponent and no other characters than those of a number. *)
Definition numeric (c : ascii) : bool :=
  in_class false [("0", "9"); ("+", "+"); ("-", "-"); (".", "."); ("e", "e"); ("E", "E")]%char c.

Definition digit_or_sign (c : ascii) : bool := in_class false [("0", "9"); ("-", "-")]%char c.

Definition num_ok (n : num) : bool :=
  match n with
  | NInt _ => true
  | NFrac t =>
      all_chars numeric t && negb (all_chars digit_or_sign t)
      && match t with String c _ => digit_or_sign c | _ => false end
  | _ => false
  end.

(** Every number of the value is finite and well-formed. *)
Fixpoint nums_ok (j : json) : bool :=
  match j with
  | JNum n => num_ok n
  | JArr l => forallb nums_ok l
  | JObj fs => forallb (λ f, nums_ok f.2) fs
  | _ => true
  end.

Lemma z_text_chars n : all_chars digit_or_sign (z_text n) = true ∧ z_text n ≠ "".
Proof.
  assert (∀ d, all_chars digit_or_sign (NilEmpty.string_of_uint d) = true) as Hd.
  { induction d; simpl; rewrite ?IHd; done. }
  assert (∀ d, all_chars digit_or_sign (NilZero.string_of_uint d) = true ∧ NilZero.string_of_uint d ≠ "") as Hz.
  { intros [ | | | | | | | | | | ]; split; try done; simpl; by rewrite Hd. }
  unfold z_text. destruct (Z.to_int n) as [d|d]; [apply Hz|].
  simpl. split; [apply (proj1 (Hz d))|done].
Qed.

Lemma to_int_not_nil n : Z.to_int n ≠ Decimal.Pos Decimal.Nil ∧ Z.to_int n ≠ Decimal.Neg Decimal.Nil.
Proof.
  split; intros H; pose proof (f_equal Z.of_int H) as Hn; rewrite DecimalZ.of_to in Hn;
    simpl in Hn; subst; done.
Qed.

Lemma z_text_inj n m : z_text n = z_text m → n = m.
Proof.
  unfold z_text. intros H. apply (f_equal NilZero.int_of_string) in H.
  destruct (to_int_not_nil n), (to_int_not_nil m).
  rewrite !NilZero.isi in H by done. injection H. apply DecimalZ.to_int_inj.
Qed.

(** ** The parser *)

Definition is_json_space (c : ascii) : bool :=
  in_class false [("009", "010"); ("013", "013"); (" ", " ")]%char c.

Fixpoint skip_space (s : string) : string :=
  match s with
  | String c s' => if is_json_space c then skip_space s' else s
  | EmptyString => s
  end.

Definition hex_code (c : ascii) : option nat :=
  if is_digit c then Some (code c - 48)
  else if in_class false [("a", "f")]%char c then Some (code c - 87)
  else if in_class false [("A", "F")]%char c then Some (code c - 55)
  else None.

(** The two last digits of an escape with four: the two first are zero in Latin-1. *)
Definition unicode_escape (a b h l : ascii) : option ascii :=
  match hex_code a, hex_code b, hex_code h, hex_code l with
  | Some 0, Some 0, Some h, Some l => Some (ascii_of_nat (16 * h + l))
  | _, _, _, _ => None
  end.

Definition simple_escape (c : ascii) : option ascii :=
  if Ascii.eqb c dquote || Ascii.eqb c backslash || Ascii.eqb c "/" then Some c
  else if Ascii.eqb c "b" then Some (ascii_of_nat 8)
  else if Ascii.eqb c "t" then Some (ascii_of_nat 9)
  else if Ascii.eqb c "n" then Some (ascii_of_nat 10)
  else if Ascii.eqb c "f" then Some (ascii_of_nat 12)
  else if Ascii.eqb c "r" then Some (ascii_of_nat 13)
  else None.

Definition cons_char (c : ascii) (m : option (string * string)) : option (string * string) :=
  match m with Some (s, r) => Some (String c s, r) | None => None end.

(** The characters up to the closing quote, and what follows it. *)
Fixpoint parse_chars (s : string) : option (string * string) :=
  match s with
  | EmptyString => None
  | String c s' =>
      if Ascii.eqb c dquote then Some ("", s')
      else if Ascii.eqb c backslash then
        match s' with
        | String "u" (String a (String b (String h (String l r)))) =>
            match unicode_escape a b h l with
            | Some c => cons_char c (parse_chars r)
            | None => None
            end
        | String e r =>
            match simple_escape e with Some c => cons_char c (parse_chars r) | None => None end
        | EmptyString => None
        end
      else if (code c <? 32)%nat then None
      else cons_char c (parse_chars s')
  end.

Fixpoint span_chars (p : ascii → bool) (s : string) : string * string :=
  match s with
  | String c s' => if p c then let '(a, r) := span_chars p s' in (String c a, r) else ("", s)
  | EmptyString => ("", "")
  end.

Definition NUMBER_RE : string := "^-?(?:0|[1-9][0-9]*)(?:\.[0-9]+)?(?:[eE][+-]?[0-9]+)?$".

(** The integers a double represents exactly together with their neighbours. *)
Definition safe_integer (n : Z) : bool := (Z.abs n <=? 9007199254740991)%Z.

Definition parse_number (t : string) : option num :=
  let exact :=
    match NilZero.int_of_string t with
    | Some i =>
        let n := Z.of_int i in
        if String.eqb (z_text n) t && safe_integer n then Some (NInt n) else None
    | None => None
    end in
  match exact with
  | Some n => Some n
  | None => if re_test NUMBER_RE t then Some (NFrac t) else None
  end.

Section Containers.
Variable value : string → option (json * string).

(** The elements of an array up to the closing bracket, the first one due. *)
Fixpoint parse_elements (fuel : nat) (s : string) : option (list json * string) :=
  match fuel with
  | O => None
  | S fuel =>
      match value s with
      | None => None
      | Some (x, r) =>
          match skip_space r with
          | String "," r =>
              match parse_elements fuel r with Some (l, r) => Some (x :: l, r) | None => None end
          | String "]" r => Some ([x], r)
          | _ => None
          end
      end
  end.

(** The members of an object up to the closing brace, the first one due. *)
Fixpoint parse_members (fuel : nat) (s : string) : option (obj * string) :=
  match fuel with
  | O => None
  | S fuel =>
      match skip_space s with
      | String q s =>
          if negb (Ascii.eqb q dquote) then None else
          match parse_chars s with
          | None => None
          | Some (k, r) =>
              match skip_space r with
              | String ":" r =>
                  match value r with
                  | None => None
                  | Some (v, r) =>
                      match skip_space r with
                      | String "," r =>
                          match parse_members fuel r with
                          | Some (l, r) => Some ((k, v) :: l, r)
                          | None => None
                          end
                      | String "}" r => Some ([(k, v)], r)
                      | _ => None
                      end
                  end
              | _ => None
              end
          end
      | EmptyString => None
      end
  end.
End Containers.

(** A repeated member replaces the value of the first one. *)
Definition from_members (l : obj) : obj := foldl (λ fs f, set_prop fs f.1 f.2) [] l.

Definition literal_at (word : string) (v : json) (s : string) : option (json * string) :=
  if starts_with word s then Some (v, drop_string (String.length word) s) else None.

Fixpoint parse_value (fuel : nat) (s : string) : option (json * string) :=
  match fuel with
  | O => None
  | S fuel =>
      match skip_space s with
      | EmptyString => None
      | String "n" _ as s => literal_at "null" JNull s
      | String "t" _ as s => literal_at "true" (JBool true) s
      | String "f" _ as s => literal_at "false" (JBool false) s
      | String "[" r =>
          match skip_space r with
          | String "]" r => Some (JArr [], r)
          | _ =>
              match parse_elements (parse_value fuel) fuel r with
              | Some (l, r) => Some (JArr l, r)
              | None => None
              end
          end
      | String "{" r =>
          match skip_space r with
          | String "}" r => Some (JObj [], r)
          | _ =>
              match parse_members (parse_value fuel) fuel r with
              | Some (l, r) => Some (JObj (from_members l), r)
              | None => None
              end
          end
      | String c r as s =>
          if Ascii.eqb c dquote then
            match parse_chars r with Some (t, r) => Some (JStr t, r) | None => None end
          else
            let '(t, r) := span_chars numeric s in
            match parse_number t with Some n => Some (JNum n, r) | None => None end
      end
  end.

(** JSON.parse; [None] is the SyntaxError it throws. *)
Definition json_parse (s : string) : option json :=
  match parse_value (S (String.length s)) s with
  | Some (j, r) => if is_empty (skip_space r) then Some j else None
  | None => None
  end.

(** ** The texts JSON.stringify writes *)

(** JSON.stringify with line breaks [nl], by depth, and a separator [colon] after a name. *)
Fixpoint render (nl : nat → string) (colon : string) (d : nat) (j : json) : string :=
  match j with
  | JArr ((_ :: _) as l) =>
      "[" +:+ nl (S d) +:+ join ("," +:+ nl (S d)) (map (render nl colon (S d)) l) +:+ nl d +:+ "]"
  | JObj ((_ :: _) as fs) =>
      "{" +:+ nl (S d)
      +:+ join ("," +:+ nl (S d)) (map (λ f, json_quote f.1 +:+ colon +:+ render nl colon (S d) f.2) fs)
      +:+ nl d +:+ "}"
  | JArr [] => "[]"
  | JObj [] => "{}"
  | JNull => "null"
  | JBool b => if b then "true" else "false"
  | JNum n => num_text n
  | JStr s => json_quote s
  end.

Fixpoint spaces (n : nat) : string := match n with O => "" | S n => String " " (spaces n) end.

Definition line_break (d : nat) : string := newline +:+ spaces (2 * d).

(** JSON.stringify(value, null, 2) *)
Definition stringify2 (j : json) : string := render line_break ": " 0 j.

Lemma stringify_render j d : stringify j = render (λ _, "") ":" d j.
Proof.
  revert d. induction j as [| | | |l IH|fs IH] using json_nested_ind; intros d; try done.
  - rewrite Forall_forall in IH.
    assert (map stringify l = map (render (λ _, "") ":" (S d)) l) as H.
    { apply map_ext_in. intros x Hx%list_elem_of_In. exact (IH _ Hx _). }
    change (stringify (JArr l)) with ("[" +:+ join "," (map stringify l) +:+ "]"). rewrite H.
    destruct l; reflexivity.
  - rewrite Forall_forall in IH.
    assert (map (λ f : string * json, json_quote f.1 +:+ ":" +:+ stringify f.2) fs
            = map (λ f, json_quote f.1 +:+ ":" +:+ render (λ _, "") ":" (S d) f.2) fs) as H.
    { apply map_ext_in. intros x Hx%list_elem_of_In. do 2 f_equal. exact (IH _ Hx _). }
    change (stringify (JObj fs))
      with ("{" +:+ join "," (map (λ f, json_quote f.1 +:+ ":" +:+ stringify f.2) fs) +:+ "}").
    rewrite H. destruct fs; reflexivity.
Qed.

(** Values whose numbers JSON.parse gives back from their text. *)
Definition num_canonical (n : num) : bool := bool_decide (parse_number (num_text n) = Some n).

Fixpoint canonical (j : json) : bool :=
  match j with
  | JNum n => num_canonical n
  | JArr l => forallb canonical l
  | JObj fs => forallb (λ f, canonical f.2) fs
  | _ => true
  end.

Lemma canonical_int n : safe_integer n = true → canonical (JNum (NInt n)) = true.
Proof.
  intros Hs. apply bool_decide_eq_true. unfold parse_number. cbn [num_text].
  destruct (to_int_not_nil n). unfold z_text at 1. rewrite NilZero.isi by done.
  rewrite DecimalZ.of_to. cbv zeta. by rewrite String.eqb_refl, Hs.
Qed.

(** ** Reading back what was written *)

Definition all_space (w : string) : bool := all_chars is_json_space w.

Lemma skip_space_app w s : all_space w = true → skip_space (w +:+ s) = skip_space s.
Proof. induction w as [|c w IH]; cbn; [done|]. intros [-> H]%andb_true_iff. auto. Qed.

(** What may follow a number. *)
Definition stops (r : string) : bool :=
  match r with EmptyString => true | String c _ => negb (numeric c) end.

Lemma stops_space w r : all_space w = true → stops r = true → stops (w +:+ r) = true.
Proof.
  destruct w as [|c w]; [done|]. cbn. intros [Hc _]%andb_true_iff _. revert c Hc.
  apply class_impl. by vm_compute.
Qed.

Lemma span_chars_app p t r :
  all_chars p t = true → match r with EmptyString => true | String c _ => negb (p c) end = true →
  span_chars p (t +:+ r) = (t, r).
Proof.
  intros Ht Hr. induction t as [|c t IH]; cbn in *.
  - destruct r as [|c r]; [done|]. cbn. apply negb_true_iff in Hr. by rewrite Hr.
  - b2p. rewrite H. by rewrite IH.
Qed.

Lemma parse_chars_escape s r : parse_chars (escape_text s +:+ String dquote r) = Some (s, r).
Proof.
  induction s as [|c s IH]; [done|]. cbn [escape_text]. rewrite append_assoc.
  assert (∀ x, parse_chars (escape_char c +:+ x) = cons_char c (parse_chars x)) as ->.
  { destruct c as [[] [] [] [] [] [] [] []]; intros x; reflexivity. }
  by rewrite IH.
Qed.

Lemma parse_number_text t n :
  parse_number t = Some n → all_chars numeric t = true ∧ ∃ c s, t = String c s ∧ digit_or_sign c = true.
Proof.
  intros H. destruct (re_test NUMBER_RE t) eqn:Hre.
  - apply re_test_spec in Hre. split; [eapply within_sound; [|exact Hre]; by vm_compute|].
    destruct t as [|c t]; [by apply re_test_spec in Hre|]. exists c, t. split; [done|].
    eapply first_within_sound; [|exact Hre]. by vm_compute.
  - unfold parse_number in H. rewrite Hre in H. destruct (NilZero.int_of_string t) as [i|]; [|done].
    cbv zeta in H. destruct (String.eqb_spec (z_text (Z.of_int i)) t) as [<-|]; [|done].
    destruct (z_text_chars (Z.of_int i)) as [Hc Hn]. split.
    + eapply all_chars_impl; [|exact Hc]. apply class_impl. by vm_compute.
    + destruct (z_text (Z.of_int i)) as [|c s]; [done|]. simpl in Hc. b2p. eauto.
Qed.

Lemma parse_value_number n c s :
  digit_or_sign c = true →
  parse_value (S n) (String c s)
  = let '(t, r) := span_chars numeric (String c s) in
    match parse_number t with Some m => Some (JNum m, r) | None => None end.
Proof. intros Hc. destruct c as [[] [] [] [] [] [] [] []]; first [discriminate Hc | reflexivity]. Qed.

Lemma parse_value_string n s :
  parse_value (S n) (String dquote s)
  = match parse_chars s with Some (t, r) => Some (JStr t, r) | None => None end.
Proof. reflexivity. Qed.

Lemma parse_value_array n s c s' :
  skip_space s = String c s' → Ascii.eqb c "]" = false →
  parse_value (S n) (String "[" s)
  = match parse_elements (parse_value n) n s with Some (l, r) => Some (JArr l, r) | None => None end.
Proof.
  intros Hs Hc. cbn [parse_value skip_space]. change (is_json_space "[") with false. cbv iota.
  rewrite Hs. destruct c as [[] [] [] [] [] [] [] []]; first [discriminate Hc | reflexivity].
Qed.

Lemma parse_value_object n s c s' :
  skip_space s = String c s' → Ascii.eqb c "}" = false →
  parse_value (S n) (String "{" s)
  = match parse_members (parse_value n) n s with
    | Some (l, r) => Some (JObj (from_members l), r)
    | None => None
    end.
Proof.
  intros Hs Hc. cbn [parse_value skip_space]. change (is_json_space "{") with false. cbv iota.
  rewrite Hs. destruct c as [[] [] [] [] [] [] [] []]; first [discriminate Hc | reflexivity].
Qed.

Lemma parse_value_space n w s : all_space w = true → parse_value n (w +:+ s) = parse_value n s.
Proof. intros Hw. destruct n; [done|]. cbn [parse_value]. by rewrite skip_space_app. Qed.

Lemma set_prop_absent fs k v : k ∉ fs.*1 → set_prop fs k v = fs ++ [(k, v)].
Proof.
  induction fs as [|[k' v'] fs IH]; cbn; [done|]. intros Hn%not_elem_of_cons.
  destruct (String.eqb_spec k' k) as [->|]; [tauto|]. by rewrite IH by tauto.
Qed.

Lemma from_members_id fs : NoDup fs.*1 → from_members fs = fs.
Proof.
  unfold from_members. change fs with ([] ++ fs) at 1 3. generalize (@nil (string * json)).
  induction fs as [|[k v] fs IH]; intros acc Hnd; cbn; [by rewrite app_nil_r|].
  rewrite set_prop_absent.
  - rewrite IH; [by rewrite <- app_assoc|by rewrite <- app_assoc].
  - rewrite fmap_app, NoDup_app in Hnd. destruct Hnd as (_ & Hd & _). intros Hin.
    apply (Hd k Hin). left.
Qed.

Lemma length_join sep ts :
  (∀ t, t ∈ ts → t ≠ "") →
  (length ts ≤ String.length (join sep ts))%nat
  ∧ ∀ t, t ∈ ts → (String.length t ≤ String.length (join sep ts))%nat.
Proof.
  induction ts as [|t ts IH]; intros Hne; [split; [done|by intros t ?%not_elem_of_nil]|].
  destruct IH as [Hl Ht]; [intros x Hx; apply Hne; by right|].
  assert (1 ≤ String.length t)%nat by (destruct t; [destruct (Hne "" (list_elem_of_here _ _)); done|simpl; lia]).
  destruct ts as [|t' ts].
  - cbn [join length]. split; [lia|]. intros x Hx. apply list_elem_of_singleton in Hx as ->. lia.
  - change (join sep (t :: t' :: ts)) with (t +:+ sep +:+ join sep (t' :: ts)). rewrite !length_append.
    split; [simpl in *; lia|]. intros x [->|Hx]%elem_of_cons; [lia|]. specialize (Ht x Hx). lia.
Qed.

Section RoundTrip.
Context (nl : nat → string) (colon_space : string).
Hypothesis nl_space : ∀ d, all_space (nl d) = true.
Hypothesis colon_is_space : all_space colon_space = true.

Abbreviation text := (render nl (String ":" colon_space)).

Definition reads (value : string → option (json * string)) (t : string) (j : json) : Prop :=
  ∀ w r, all_space w = true → stops r = true → value (w +:+ t +:+ r) = Some (j, r).

Lemma elements_read value d (l : list json) close r fuel w :
  l ≠ [] → (length l ≤ fuel)%nat → (∀ x, x ∈ l → reads value (text (S d) x) x) →
  all_space close = true → all_space w = true →
  parse_elements value fuel
    (w +:+ join (String "," (nl (S d))) (map (text (S d)) l) +:+ close +:+ String "]" r) = Some (l, r).
Proof.
  intros Hne Hf Hread Hclose. revert fuel w Hf. induction l as [|x l IH]; [done|].
  intros [|fuel] w Hf Hw; [simpl in Hf; lia|]. cbn [parse_elements].
  assert (Hx := Hread x (list_elem_of_here _ _)). destruct l as [|y l].
  - cbn [map join]. rewrite Hx; [|done|by apply stops_space].
    by rewrite skip_space_app.
  - change (join (String "," (nl (S d))) (map (text (S d)) (x :: y :: l)))
      with (text (S d) x +:+ (String "," (nl (S d))) +:+ join (String "," (nl (S d))) (map (text (S d)) (y :: l))).
    rewrite !append_assoc. rewrite Hx by done. cbn [String.append skip_space].
    change (is_json_space ",") with false. cbv iota.
    rewrite IH; [done|done| |simpl in *; lia|apply nl_space]. intros z Hz. apply Hread. by right.
Qed.

Lemma members_read value d (fs : obj) close r fuel w :
  fs ≠ [] → (length fs ≤ fuel)%nat → (∀ f, f ∈ fs → reads value (text (S d) f.2) f.2) →
  all_space close = true → all_space w = true →
  parse_members value fuel
    (w +:+ join (String "," (nl (S d))) (map (λ f, json_quote f.1 +:+ (String ":" colon_space) +:+ text (S d) f.2) fs)
       +:+ close +:+ String "}" r) = Some (fs, r).
Proof.
  intros Hne Hf Hread Hclose. revert fuel w Hf. induction fs as [|[k v] fs IH]; [done|].
  intros [|fuel] w Hf Hw; [simpl in Hf; lia|]. cbn [parse_members]. rewrite skip_space_app by done.
  assert (Hx := Hread (k, v) (list_elem_of_here _ _)). cbn [snd] in Hx.
  assert (∀ t, stops t = true → ∀ T, T = json_quote k +:+ (String ":" colon_space) +:+ text (S d) v +:+ t →
    skip_space T = T ∧ T = String dquote (escape_text k +:+ String dquote (String ":" (colon_space +:+ text (S d) v +:+ t)))
    ∧ value (colon_space +:+ text (S d) v +:+ t) = Some (v, t)) as Hm.
  { intros t Ht T ->. unfold json_quote. split_and!; [done| |by apply Hx].
    cbn [String.append]. rewrite !append_assoc. reflexivity. }
  destruct fs as [|f fs].
  - cbn [map join fst snd]. rewrite !append_assoc.
    destruct (Hm (close +:+ String "}" r) ltac:(by apply stops_space) _ eq_refl) as (Hs & Ht & Hv).
    rewrite ?append_assoc in Hs, Ht. rewrite Hs, Ht. change (negb (Ascii.eqb dquote dquote)) with false.
    cbv iota. rewrite parse_chars_escape. cbn [String.append skip_space].
    change (is_json_space ":") with false. cbv iota. rewrite Hv.
    by rewrite skip_space_app.
  - change (join (String "," (nl (S d))) (map (λ f, json_quote f.1 +:+ (String ":" colon_space) +:+ text (S d) f.2) ((k, v) :: f :: fs)))
      with ((json_quote k +:+ (String ":" colon_space) +:+ text (S d) v) +:+ (String "," (nl (S d)))
            +:+ join (String "," (nl (S d))) (map (λ f, json_quote f.1 +:+ (String ":" colon_space) +:+ text (S d) f.2) (f :: fs))).
    rewrite !append_assoc. cbn [String.append]. rewrite ?append_assoc.
    set (rest := nl (S d) +:+ join _ _ +:+ close +:+ String "}" r).
    destruct (Hm (String "," rest) eq_refl _ eq_refl) as (Hs & Ht & Hv).
    rewrite ?append_assoc in Hs, Ht. cbn [String.append] in Hs, Ht |- *. rewrite Hs, Ht.
    change (negb (Ascii.eqb dquote dquote)) with false. cbv iota. rewrite parse_chars_escape.
    cbn [String.append skip_space]. change (is_json_space ":") with false. cbv iota. rewrite Hv.
    cbn [skip_space]. change (is_json_space ",") with false. cbv iota. unfold rest.
    rewrite IH; [done|done| |simpl in *; lia|apply nl_space]. intros z Hz. apply Hread. by right.
Qed.
(** The first character of a value's text. *)
Definition opens (c : ascii) : bool :=
  negb (is_json_space c) && negb (Ascii.eqb c "]") && negb (Ascii.eqb c "}").

Lemma text_first d j : canonical j = true → ∃ c s, text d j = String c s ∧ opens c = true.
Proof.
  intros Hok. destruct j as [|[]|n|s|[|x l]|[|f fs]]; try (by eexists _, _).
  apply bool_decide_eq_true in Hok. apply parse_number_text in Hok as (_ & c & s & Ht & Hc).
  exists c, s. split; [done|]. clear Ht. revert c Hc. apply class_impl. by vm_compute.
Qed.

Lemma text_not_empty d j : canonical j = true → text d j ≠ "".
Proof. intros (c & s & -> & _)%(text_first d). done. Qed.

Lemma skip_space_opens c s : opens c = true → skip_space (String c s) = String c s.
Proof.
  unfold opens. intros [[H%negb_true_iff _]%andb_true_iff _]%andb_true_iff.
  cbn [skip_space]. by rewrite H.
Qed.

Lemma array_reads d n x l :
  (∀ y, y ∈ x :: l → ∀ m, (String.length (text (S d) y) < m)%nat → reads (parse_value m) (text (S d) y) y) →
  (∀ y, y ∈ x :: l → canonical y = true) →
  (String.length (text d (JArr (x :: l))) < n)%nat →
  reads (parse_value n) (text d (JArr (x :: l))) (JArr (x :: l)).
Proof.
  intros Hread Hok Hn w r Hw _. rewrite parse_value_space by done. destruct n as [|n]; [lia|].
  cbn [render] in *. change ("," +:+ nl (S d)) with (String "," (nl (S d))) in *.
  set (body := map (text (S d)) (x :: l)) in *.
  destruct (length_join (String "," (nl (S d))) body) as [Hl Ht].
  { intros t (y & -> & Hy)%list_elem_of_fmap. apply text_not_empty, Hok, Hy. }
  rewrite !length_append in Hn. rewrite !append_assoc. cbn [String.append].
  destruct (text_first (S d) x) as (c & s & Hc & Ho); [apply Hok; left|].
  assert (∃ s', join (String "," (nl (S d))) body +:+ nl d +:+ String "]" r = String c s') as [s' Hs'].
  { unfold body. destruct l; cbn [map join]; rewrite Hc; by eexists. }
  rewrite (parse_value_array n _ c s').
  - unfold body. rewrite elements_read; [done|done| | |apply nl_space|apply nl_space].
    + unfold body in Hl. rewrite length_map in Hl. simpl in *. lia.
    + intros y Hy. apply Hread; [done|].
      specialize (Ht _ (list_elem_of_fmap_2 (text (S d)) _ _ Hy)). unfold body in *. simpl in *. lia.
  - rewrite skip_space_app by apply nl_space. rewrite Hs'. by apply skip_space_opens.
  - unfold opens in Ho. b2p. by apply Ascii.eqb_neq.
Qed.

Lemma object_reads d n f fs :
  NoDup (f :: fs).*1 →
  (∀ g, g ∈ f :: fs → ∀ m,
    (String.length (text (S d) g.2) < m)%nat → reads (parse_value m) (text (S d) g.2) g.2) →
  (String.length (text d (JObj (f :: fs))) < n)%nat →
  reads (parse_value n) (text d (JObj (f :: fs))) (JObj (f :: fs)).
Proof.
  intros Hnd Hread Hn w r Hw _. rewrite parse_value_space by done. destruct n as [|n]; [lia|].
  cbn [render] in *. change ("," +:+ nl (S d)) with (String "," (nl (S d))) in *.
  set (body := map (λ f, json_quote f.1 +:+ String ":" colon_space +:+ text (S d) f.2) (f :: fs)) in *.
  destruct (length_join (String "," (nl (S d))) body) as [Hl Ht].
  { by intros t (g & -> & Hg)%list_elem_of_fmap. }
  rewrite !length_append in Hn. rewrite !append_assoc. cbn [String.append].
  assert (∃ s', join (String "," (nl (S d))) body +:+ nl d +:+ String "}" r = String dquote s') as [s' Hs'].
  { unfold body. destruct fs; cbn [map join]; by eexists. }
  rewrite (parse_value_object n _ dquote s').
  - unfold body. rewrite members_read; [by rewrite from_members_id|done| | |apply nl_space|apply nl_space].
    + unfold body in Hl. rewrite length_map in Hl. simpl in *. lia.
    + intros g Hg. apply Hread; [done|].
      specialize (Ht _ (list_elem_of_fmap_2
        (λ f, json_quote f.1 +:+ String ":" colon_space +:+ text (S d) f.2) _ _ Hg)).
      cbv beta in Ht. rewrite !length_append in Ht. unfold body in *. simpl in *. lia.
  - rewrite skip_space_app by apply nl_space. by rewrite Hs'.
  - done.
Qed.

Lemma render_reads j d n :
  wf_json j → canonical j = true → (String.length (text d j) < n)%nat →
  reads (parse_value n) (text d j) j.
Proof.
  revert d n. induction j as [|[]|m|s|l IH|fs IH] using json_nested_ind; intros d n Hwf Hok Hn.
  1-5: intros w r Hw Hr; rewrite parse_value_space by done; destruct n as [|n]; [simpl in Hn; lia|].
  - done.
  - done.
  - done.
  - apply bool_decide_eq_true in Hok. apply parse_number_text in Hok as Ht.
    destruct Ht as (Hc & c & s & Hs & Hd). cbn [render]. rewrite Hs at 1. cbn [String.append].
    rewrite parse_value_number by done. change (String c (s +:+ r)) with (String c s +:+ r). rewrite <- Hs.
    rewrite span_chars_app; [by rewrite Hok|done|exact Hr].
  - cbn [render]. unfold json_quote. cbn [String.append]. rewrite append_assoc, parse_value_string.
    cbn [String.append]. by rewrite parse_chars_escape.
  - destruct l as [|x l]; [intros w r Hw _; rewrite parse_value_space by done; destruct n; [simpl in Hn; lia|done]|].
    apply wf_arr in Hwf. rewrite Forall_forall in IH, Hwf. simpl in Hok. rewrite <- andb_true_iff in Hok || idtac.
    assert (∀ y, y ∈ x :: l → canonical y = true) as Hc by (apply (proj1 (forallb_In canonical (x :: l))); exact Hok).
    apply array_reads; [|done|done]. intros y Hy m Hm. apply IH; auto.
  - destruct fs as [|f fs]; [intros w r Hw _; rewrite parse_value_space by done; destruct n; [simpl in Hn; lia|done]|].
    apply wf_obj in Hwf as [Hnd Hwf]. rewrite Forall_forall in IH, Hwf.
    assert (∀ g, g ∈ f :: fs → canonical g.2 = true) as Hc
      by (apply (proj1 (forallb_In (λ g, canonical g.2) (f :: fs))); exact Hok).
    apply object_reads; [done| |done]. intros g Hg m Hm. apply IH; auto.
Qed.

Lemma parse_text j : wf_json j → canonical j = true → json_parse (text 0 j) = Some j.
Proof.
  intros Hwf Hok. unfold json_parse.
  pose proof (render_reads j 0 (S (String.length (text 0 j))) Hwf Hok ltac:(lia) "" "" eq_refl eq_refl) as H.
  rewrite append_nil_r in H. cbn [String.append] in H. by rewrite H.
Qed.
End RoundTrip.

Lemma parse_stringify j : wf_json j → canonical j = true → json_parse (stringify j) = Some j.
Proof. intros. rewrite (stringify_render j 0). by apply (parse_text (λ _, "") ""). Qed.

Lemma parse_stringify2 j : wf_json j → canonical j = true → json_parse (stringify2 j) = Some j.
Proof.
  intros. apply (parse_text line_break " "); [|done|done|done].
  intros d. unfold line_break, all_space. rewrite all_chars_append. cbn.
  induction (d + (d + 0)) as [|n IH]; [done|]. by cbn.
Qed.

(** ** Assigning a property *)

Lemma set_prop_elem fs k v f : f ∈ set_prop fs k v → f ∈ fs ∨ f = (k, v).
Proof.
  induction fs as [|[k' v'] fs IH]; cbn; [by intros ->%list_elem_of_singleton; right|].
  destruct (String.eqb_spec k' k) as [->|]; intros [->|H]%elem_of_cons; auto.
  - left. by right.
  - left. by left.
  - destruct (IH H); [|auto]. left. by right.
Qed.

Lemma set_prop_nodup fs k v : NoDup fs.*1 → NoDup (set_prop fs k v).*1.
Proof.
  induction fs as [|[k' v'] fs IH]; cbn; [intros _; repeat constructor; apply not_elem_of_nil|].
  intros [Hn Hd]%NoDup_cons. destruct (String.eqb_spec k' k) as [->|Hne]; cbn; constructor; auto.
  intros ([k0 v0] & Hk & Hin)%list_elem_of_fmap. cbn in Hk. subst k0.
  apply set_prop_elem in Hin as [Hin|[= <- <-]]; [|done].
  by apply Hn, (list_elem_of_fmap_2 fst _ (k', v0)).
Qed.

Lemma wf_set_prop fs k v : wf_json (JObj fs) → wf_json v → wf_json (JObj (set_prop fs k v)).
Proof.
  rewrite !wf_obj. intros [Hd Hall] Hv. split; [by apply set_prop_nodup|].
  rewrite Forall_forall in *. intros f [Hf| ->]%set_prop_elem; auto.
Qed.

Lemma canonical_set_prop fs k v :
  canonical (JObj fs) = true → canonical v = true → canonical (JObj (set_prop fs k v)) = true.
Proof.
  cbn. rewrite !forallb_In. intros Hall Hv f [Hf| ->]%set_prop_elem; auto.
Qed.

(** ** What JSON.parse returns *)

Lemma parse_number_canonical t n : parse_number t = Some n → num_canonical n = true.
Proof.
  intros H. apply bool_decide_eq_true. enough (num_text n = t) as -> by done.
  unfold parse_number in H. destruct (NilZero.int_of_string t) as [i|] eqn:Hi.
  - destruct (String.eqb_spec (z_text (Z.of_int i)) t) as [Ht|]; cbn in H.
    + destruct (safe_integer (Z.of_int i)); cbn in H; [by injection H as <-|].
      destruct (re_test NUMBER_RE t); [by injection H as <-|done].
    + destruct (re_test NUMBER_RE t); [by injection H as <-|done].
  - cbn in H. destruct (re_test NUMBER_RE t); [by injection H as <-|done].
Qed.

(** Keys once and numbers canonical: what stringify writes is then read back. *)
Definition valid_json (j : json) : Prop := wf_json j ∧ canonical j = true.

Lemma valid_arr l : valid_json (JArr l) ↔ Forall valid_json l.
Proof.
  unfold valid_json. rewrite wf_arr, Forall_and. cbn. rewrite forallb_In, !Forall_forall. naive_solver.
Qed.

Lemma valid_set_prop fs k v : valid_json (JObj fs) → valid_json v → valid_json (JObj (set_prop fs k v)).
Proof. intros [] []. split; [by apply wf_set_prop|by apply canonical_set_prop]. Qed.

Lemma valid_members l : Forall (λ f, valid_json f.2) l → valid_json (JObj (from_members l)).
Proof.
  unfold from_members. assert (valid_json (JObj [])) as H by (split; [split; constructor|done]).
  revert H. generalize (@nil (string * json)).
  induction l as [|[k v] l IH]; intros fs Hfs Hl; [done|]. apply Forall_cons in Hl as [Hv Hl].
  cbn. apply IH; [by apply valid_set_prop|done].
Qed.

Section ReadValues.
Variable value : string → option (json * string).
Hypothesis value_valid : ∀ s j r, value s = Some (j, r) → valid_json j.

Lemma parse_elements_valid fuel s l r : parse_elements value fuel s = Some (l, r) → Forall valid_json l.
Proof.
  revert s l r. induction fuel as [|fuel IH]; intros s l r; cbn; [done|].
  destruct (value s) as [[x r1]|] eqn:Hx; [|done]. apply value_valid in Hx.
  destruct (skip_space r1) as [|c r2]; [done|].
  destruct (parse_elements value fuel r2) as [[l' r3]|] eqn:Hl.
  - apply IH in Hl.
    destruct c as [[] [] [] [] [] [] [] []]; try done; intros [= <- _]; auto using Forall_cons_2, Forall_nil_2.
  - destruct c as [[] [] [] [] [] [] [] []]; try done; intros [= <- _]; auto using Forall_cons_2, Forall_nil_2.
Qed.

Lemma parse_members_valid fuel s l r :
  parse_members value fuel s = Some (l, r) → Forall (λ f, valid_json f.2) l.
Proof.
  revert s l r. induction fuel as [|fuel IH]; intros s l r; cbn; [done|].
  destruct (skip_space s) as [|q s1]; [done|]. destruct (negb (Ascii.eqb q dquote)); [done|].
  destruct (parse_chars s1) as [[k r1]|]; [|done]. destruct (skip_space r1) as [|c r2]; [done|].
  destruct (value r2) as [[v r3]|] eqn:Hv; [apply value_valid in Hv|by destruct c as [[] [] [] [] [] [] [] []]].
  destruct (skip_space r3) as [|c' r4]; [by destruct c as [[] [] [] [] [] [] [] []]|].
  destruct (parse_members value fuel r4) as [[l' r5]|] eqn:Hl; [apply IH in Hl|];
    destruct c as [[] [] [] [] [] [] [] []]; try done;
    destruct c' as [[] [] [] [] [] [] [] []]; try done; intros [= <- _];
    auto using Forall_cons_2, Forall_nil_2.
Qed.
End ReadValues.

Lemma parse_value_valid fuel s j r : parse_value fuel s = Some (j, r) → valid_json j.
Proof.
  revert s j r. induction fuel as [|fuel IH]; intros s j r; [done|]. cbn [parse_value].
  assert (∀ w v s', literal_at w v s' = Some (j, r) → j = v) as Hlit.
  { unfold literal_at. intros w v s'. by destruct (starts_with w s'); intros [= -> _]. }
  assert (∀ w v s', literal_at w v s' = Some (j, r) → valid_json v → valid_json j) as Hl.
  { intros w v s' H Hv. by rewrite (Hlit _ _ _ H). }
  pose proof (λ r0 l r1, parse_elements_valid (parse_value fuel) IH fuel r0 l r1) as He.
  pose proof (λ r0 l r1, parse_members_valid (parse_value fuel) IH fuel r0 l r1) as Hm.
  destruct (skip_space s) as [|c s1]; [done|].
  assert ((if Ascii.eqb c dquote
           then match parse_chars s1 with Some (t, r) => Some (JStr t, r) | None => None end
           else let '(t, r) := span_chars numeric (String c s1) in
                match parse_number t with Some n => Some (JNum n, r) | None => None end) = Some (j, r)
          → valid_json j) as Hother.
  { destruct (Ascii.eqb c dquote); [destruct (parse_chars s1) as [[]|]; by intros [= <- _]|].
    destruct (span_chars numeric (String c s1)) as [t r']. destruct (parse_number t) eqn:Hn; intros [= <- _].
    split; [done|]. by apply parse_number_canonical in Hn. }
  destruct c as [[] [] [] [] [] [] [] []]; try exact Hother; try (by intros H; apply (Hl _ _ _ H)).
  - clear Hother. destruct (parse_members (parse_value fuel) fuel s1) as [[l r1]|] eqn:E; [apply Hm in E|];
      destruct (skip_space s1) as [|[[] [] [] [] [] [] [] []] s2]; intros [= <- _];
      first [by apply valid_members | by apply (valid_members [])].
  - clear Hother. destruct (parse_elements (parse_value fuel) fuel s1) as [[l r1]|] eqn:E; [apply He in E|];
      destruct (skip_space s1) as [|[[] [] [] [] [] [] [] []] s2]; intros [= <- _]; by apply valid_arr.
Qed.

Lemma json_parse_valid s j : json_parse s = Some j → valid_json j.
Proof.
  unfold json_parse. destruct (parse_value _ s) as [[j' r]|] eqn:H; [|done].
  destruct (is_empty (skip_space r)); intros [= <-]. by apply parse_value_valid in H.
Qed.

Lemma parse_valid j : valid_json j → json_parse (stringify j) = Some j.
Proof. intros []. by apply parse_stringify. Qed.

(** The text of an object has no white space at its ends. *)
Lemma trim_object fs : trim (stringify (JObj fs)) = stringify (JObj fs).
Proof.
  change (stringify (JObj fs))
    with (String "{" (join "," (map (λ f, json_quote f.1 +:+ ":" +:+ stringify f.2) fs) +:+ String "}" "")).
  unfold trim. rewrite trim_start_nonspace by done. exact (trim_end_snoc (String "{" _) "}" eq_refl).
Qed.
