(* ===== verification/K8sNames.v ===== *)
(** * Kubernetes names and the validators of values spliced into charts and commands

    Models src/src/emit/templates/utils.ts: name sanitizing and truncation, the resource names a
    build stamps and the guards against their collisions, the assertSafe* validators, Helm escaping
    and the YAML fragments.  A thrown Error is its message.  SHA-256 (node:crypto) and isIP
    (node:net) are parameters. *)
From Stdlib Require Import Ascii String NArith.
From S2P Require Import Prelude JsString Regex Json.
Local Open Scope stdpp_scope.
Local Open Scope js_scope.

Module K8sNames.

Definition K8S_NAMESPACE : string := "default".
Definition ADAPTER_RELEASE_LABEL : string := "adapter-k8s.dev/release".

(** ** Patterns *)

Definition RELEASE_NAME_RE : string := "^[a-z0-9]([a-z0-9-]{0,38}[a-z0-9])?$".
Definition PROJECT_ID_RE : string := "^[a-z][a-z0-9-]{4,28}[a-z0-9]$".
Definition GCP_RESOURCE_NAME_RE : string := "^[a-z](?:[-a-z0-9]{0,61}[a-z0-9])?$".
Definition REGION_RE : string := "^[a-z0-9-]+$".
Definition HOSTNAME_RE : string :=
  "^(\*\.)?[a-z0-9]([a-z0-9-]{0,61}[a-z0-9])?(\.[a-z0-9]([a-z0-9-]{0,61}[a-z0-9])?)*$".
Definition IMAGE_REGISTRY_RE : string :=
  "^[a-z0-9]+([._-][a-z0-9]+)*(:[0-9]{1,5})?(\/[a-z0-9]+([._-][a-z0-9]+)*)*$".
Definition BUILD_ID_RE : string := "^[A-Za-z0-9._-]{1,128}$".
Definition NAMESPACE_RE : string := "^[a-z0-9](?:[a-z0-9-]{0,61}[a-z0-9])?$".
Definition DNS_1035_LABEL_RE : string := "^[a-z](?:[-a-z0-9]{0,61}[a-z0-9])?$".
Definition QUALIFIED_NAME_PART_RE : string := "^[A-Za-z0-9](?:[-A-Za-z0-9_.]{0,61}[A-Za-z0-9])?$".
Definition BUCKET_RE : string := "^[a-z0-9][a-z0-9._-]{1,61}[a-z0-9]$".
Definition IMAGE_REFERENCE_RE : string :=
  "^[a-z0-9][a-z0-9._-]*(:[0-9]+)?(\/[a-z0-9]+([._-][a-z0-9]+)*)*(:[A-Za-z0-9._-]{1,128})?(@sha256:[a-f0-9]{64})?$".
Definition QUANTITY_RE : string := "^[0-9]+(\.[0-9]+)?(m|[KMGTPE]i?)?$".
Definition PROBE_PATH_RE : string := "^\/[A-Za-z0-9._~\-/]*(\?[A-Za-z0-9._~\-/=&%]*)?$".
Definition POOL_NAME_RE : string := "^[a-z0-9]([a-z0-9-]*[a-z0-9])?$".
Definition TELEMETRY_PROVIDER_RE : string := "^[a-z][a-z0-9-]{0,62}$".
(** A class of the double quote, the backslash and the control characters. *)
Definition UNSAFE_YAML_RE : string := "[" +:+ String dquote "\\\x00-\x1f\x7f]".
Definition CONTROL_RE : string := "[\x00-\x1f\x7f]".

(** ** Sanitized names *)

Definition is_lower_alnum (c : ascii) : bool := in_class false [("a", "z"); ("0", "9")]%char c.

Fixpoint strip_leading_hyphens (s : string) : string :=
  match s with
  | String "-" s' => strip_leading_hyphens s'
  | _ => s
  end.

Fixpoint strip_trailing_hyphens (s : string) : string :=
  match s with
  | EmptyString => EmptyString
  | String c s' =>
      match strip_trailing_hyphens s' with
      | EmptyString => if Ascii.eqb c "-" then EmptyString else String c EmptyString
      | t => String c t
      end
  end.

Definition sanitizeK8sName (name suffix : string) : string :=
  let sanitized := map_string (λ c, if is_lower_alnum c then c else "-"%char) (to_lower name) in
  let sanitized := if re_test "^[a-z]" sanitized then sanitized else "b-" +:+ sanitized in
  let sanitized := slice0 sanitized (63 - Z.of_nat (String.length suffix)) in
  let sanitized := strip_trailing_hyphens (strip_leading_hyphens sanitized) in
  sanitized +:+ suffix.

(** ** Validators *)

Definition reject {A} (message : string) : outcome string A := Throws message.
Definition accept : outcome string unit := Returns tt.

(** The string value of an argument of type unknown, when it is one. *)
Definition as_string (v : json) : option string :=
  match v with JStr s => Some s | _ => None end.

Definition assertSafeReleaseName (releaseName : string) : outcome string unit :=
  if negb (re_test RELEASE_NAME_RE releaseName)
  then reject ("Invalid releaseName " +:+ in_quotes releaseName +:+ ": must match "
    +:+ re_source RELEASE_NAME_RE +:+ " (lowercase letters, digits, and hyphens only, max 40 chars, "
    +:+ "must start and end with a letter or digit).")
  else accept.

Definition assertSafeHostname (hostname : string) : outcome string unit :=
  if (253 <? String.length hostname)%nat || negb (re_test HOSTNAME_RE hostname)
  then reject ("Invalid hostname " +:+ in_quotes hostname +:+ ": must be a DNS-1123 hostname "
    +:+ "(optionally wildcard-prefixed like " +:+ in_quotes "*.example.com" +:+ ").")
  else accept.

Definition UNCONFIGURED_IMAGE_REGISTRY : string := "REGISTRY".

Definition assertSafeImageRegistry (registry : string) : outcome string unit :=
  if (255 <? String.length registry)%nat || negb (re_test IMAGE_REGISTRY_RE registry)
  then reject ("Invalid image registry " +:+ in_quotes registry
    +:+ ": must be a lowercase registry/repository "
    +:+ "path (e.g. " +:+ in_quotes "us-central1-docker.pkg.dev/my-project/nextjs"
    +:+ "), no tag or scheme.")
  else accept.

Definition assertSafeImageReference (image : string) : outcome string unit :=
  if (512 <? String.length image)%nat || negb (re_test IMAGE_REFERENCE_RE image)
  then reject ("Invalid image reference " +:+ in_quotes image +:+ ": must be a plain OCI reference "
    +:+ "(e.g. " +:+ in_quotes "us-central1-docker.pkg.dev/p/r/nextjs-app-ssr:build1"
    +:+ " or the same with " +:+ in_quotes "@sha256:<64 hex>"
    +:+ "), with no scheme, quotes, or whitespace.")
  else accept.

Definition assertSafeBuildId (buildId : string) : outcome string unit :=
  if negb (re_test BUILD_ID_RE buildId)
  then reject ("Invalid buildId " +:+ in_quotes buildId +:+ ": must match " +:+ re_source BUILD_ID_RE
    +:+ " (letters, digits, " +:+ in_quotes "." +:+ ", " +:+ in_quotes "_" +:+ ", " +:+ in_quotes "-"
    +:+ " only, max 128 chars). "
    +:+ "If you set generateBuildId() in next.config, restrict its output to this charset.")
  else accept.

Definition is_namespace_name (v : json) : bool :=
  match as_string v with Some s => re_test NAMESPACE_RE s | None => false end.

Definition assertSafeNamespace (namespace : json) : outcome string unit :=
  if negb (is_namespace_name namespace)
  then reject ("Invalid namespace " +:+ stringify namespace +:+ ": must be a DNS-1123 label "
    +:+ "(lowercase letters, digits, and hyphens only, max 63 chars, and must start "
    +:+ "and end with a letter or digit).")
  else accept.

(** resolveK8sNamespace: [None] is undefined, and null is nullish too. *)
Definition resolveK8sNamespace (namespace : option json) : outcome string json :=
  let resolved := match namespace with None | Some JNull => JStr K8S_NAMESPACE | Some v => v end in
  let! _ := assertSafeNamespace resolved in Returns resolved.

Definition assertSafeServiceName (name : json) : outcome string unit :=
  if negb (match as_string name with Some s => re_test DNS_1035_LABEL_RE s | None => false end)
  then reject ("Invalid Service name " +:+ stringify name +:+ ": must be a DNS-1035 label "
    +:+ "(lowercase letter first, lowercase letters, digits, and hyphens only, max 63 chars).")
  else accept.

Definition is_dns_subdomain (s : string) : bool :=
  (String.length s <=? 253)%nat && forallb (re_test NAMESPACE_RE) (split_on "." s).

Definition assertSafeKubernetesObjectName (name : json) (field : string) : outcome string unit :=
  if negb (match as_string name with Some s => is_dns_subdomain s | None => false end)
  then reject ("Invalid " +:+ field +:+ " " +:+ stringify name +:+ ": must be a DNS-1123 subdomain "
    +:+ "(lowercase letters, digits, " +:+ in_quotes "-" +:+ " or " +:+ in_quotes "."
    +:+ ", max 253 chars, starting and ending with a letter or digit).")
  else accept.

(** The pieces of a split at the separator: one when there is none, two when it occurs once. *)
Definition assertSafeAnnotationName (name : json) : outcome string unit :=
  match as_string name with
  | None => reject ("Invalid annotation name " +:+ stringify name +:+ ": expected a string.")
  | Some s =>
      let qualified (prefixValid : bool) (part : string) :=
        if negb prefixValid || negb (re_test QUALIFIED_NAME_PART_RE part)
        then reject ("Invalid annotation name " +:+ stringify name
          +:+ ": expected a Kubernetes qualified name.")
        else accept in
      match split_on "/" s with
      | [part] => qualified true part
      | [prefix; part] =>
          qualified ((String.length prefix <=? 253)%nat && (0 <? String.length prefix)%nat
                     && forallb (re_test NAMESPACE_RE) (split_on "." prefix)) part
      | _ => reject ("Invalid annotation name " +:+ stringify name +:+ ": too many "
               +:+ in_quotes "/" +:+ " separators.")
      end
  end.

Definition assertSafePathname (pathname : string) : outcome string unit :=
  if re_test UNSAFE_YAML_RE pathname
  then reject ("Unsafe pathname " +:+ json_quote pathname +:+ ": route pathnames must not contain "
    +:+ "double quotes, backslashes, or control characters (they are interpolated into "
    +:+ "quoted YAML in the generated HTTPRoute). Rename the offending route/file.")
  else accept.

Definition assertSafeCelScalar (v : json) (field : string) : outcome string unit :=
  match as_string v with
  | None => reject ("Invalid " +:+ field +:+ ": expected a string, got " +:+ stringify v +:+ ".")
  | Some value =>
      if re_test CONTROL_RE value
      then reject ("Unsafe " +:+ field +:+ " " +:+ json_quote value
        +:+ ": must not contain control characters — it is "
        +:+ "interpolated into a single-quoted YAML scalar that a privileged `gcloud … import` "
        +:+ "consumes, where a raw newline injects sibling keys into the extension chain.")
      else accept
  end.

Definition assertSafeYamlScalar (v : json) (field : string) : outcome string unit :=
  match as_string v with
  | None => reject ("Invalid " +:+ field +:+ ": expected a string, got " +:+ stringify v +:+ ".")
  | Some value =>
      if re_test UNSAFE_YAML_RE value
      then reject ("Unsafe " +:+ field +:+ " " +:+ json_quote value
        +:+ ": must not contain double quotes, "
        +:+ "backslashes, or control characters — it is interpolated into a double-quoted "
        +:+ "YAML scalar that a privileged `gcloud … import` consumes.")
      else accept
  end.

Definition assertSafeBucketName (bucket : string) : outcome string unit :=
  if negb (re_test BUCKET_RE bucket)
  then reject ("Invalid bucket name " +:+ in_quotes bucket +:+ ": must match " +:+ re_source BUCKET_RE
    +:+ " (lowercase letters, digits, " +:+ in_quotes "." +:+ ", " +:+ in_quotes "_" +:+ ", "
    +:+ in_quotes "-" +:+ " only, 3-63 chars).")
  else accept.

Definition assertSafeProjectId (projectId : string) : outcome string unit :=
  if negb (re_test PROJECT_ID_RE projectId)
  then reject ("Invalid projectId " +:+ in_quotes projectId +:+ ": must be a valid GCP project id ("
    +:+ re_source PROJECT_ID_RE
    +:+ ": 6-30 chars, starts with a letter, lowercase letters/digits/hyphens).")
  else accept.

Definition assertSafeGcpResourceName (name : json) (field : string) : outcome string unit :=
  if negb (match as_string name with Some s => re_test GCP_RESOURCE_NAME_RE s | None => false end)
  then reject ("Invalid " +:+ field +:+ " " +:+ stringify name
    +:+ ": expected 1-63 lowercase letters, digits, or "
    +:+ "hyphens, starting with a letter and ending with a letter or digit.")
  else accept.

Definition assertSafeRegion (region : string) : outcome string unit :=
  if negb (re_test REGION_RE region)
  then reject ("Invalid region " +:+ in_quotes region +:+ ": must match " +:+ re_source REGION_RE
    +:+ " (lowercase letters, digits, and hyphens only).")
  else accept.

Definition assertSafeSecretName (name : string) : outcome string unit :=
  match assertSafeKubernetesObjectName (JStr name) "Secret name" with
  | Returns _ => accept
  | Throws _ =>
      reject ("Invalid Secret name " +:+ json_quote name +:+ ": must be a DNS-1123 subdomain "
        +:+ "(lowercase alphanumerics, " +:+ in_quotes "-" +:+ ", and " +:+ in_quotes "."
        +:+ ", with each label at most 63 characters). "
        +:+ "It is interpolated into the rendered pod spec as a YAML scalar.")
  end.

Definition assertSafeQuantity (v : json) (field : string) : outcome string unit :=
  if negb (match as_string v with Some s => re_test QUANTITY_RE s | None => false end)
  then reject ("Invalid Kubernetes quantity " +:+ stringify v +:+ " for " +:+ field +:+ ": must match "
    +:+ re_source QUANTITY_RE +:+ " (e.g. " +:+ in_quotes "250m" +:+ ", " +:+ in_quotes "1" +:+ ", "
    +:+ in_quotes "1.5" +:+ ", " +:+ in_quotes "512Mi" +:+ ", " +:+ in_quotes "2Gi"
    +:+ "). Resource quantities are "
    +:+ "interpolated into the rendered pod spec, so anything outside this charset is "
    +:+ "rejected rather than escaped.")
  else accept.

Definition assertSafeProbePath (v : json) (field : string) : outcome string unit :=
  if negb (match as_string v with
           | Some s => (String.length s <=? 256)%nat && re_test PROBE_PATH_RE s
           | None => false
           end)
  then reject ("Invalid probe path " +:+ stringify v +:+ " for " +:+ field +:+ ": must match "
    +:+ re_source PROBE_PATH_RE +:+ " (e.g. " +:+ in_quotes "/readyz"
    +:+ "). The path is interpolated into the rendered pod spec as a bare YAML "
    +:+ "scalar, so anything outside this charset is rejected rather than escaped.")
  else accept.

Definition assertSafeInteger (v : json) (field : string) (min max : Z) : outcome string unit :=
  if negb (match v with JNum (NInt n) => (min <=? n)%Z && (n <=? max)%Z | _ => false end)
  then reject ("Invalid " +:+ field +:+ ": expected an integer between " +:+ z_text min +:+ " and "
    +:+ z_text max +:+ ", got " +:+ stringify v
    +:+ ". Scaling values are interpolated into the rendered "
    +:+ "HorizontalPodAutoscaler/Deployment spec as bare YAML scalars.")
  else accept.

Definition assertSafeReplicaCount (v : json) (field : string) : outcome string unit :=
  assertSafeInteger v field 0 5000.

Definition assertSafeTargetCPU (v : json) (field : string) : outcome string unit :=
  assertSafeInteger v field 1 10000.

Definition assertSafePoolName (poolName : string) : outcome string unit :=
  if (63 <? String.length poolName)%nat || negb (re_test POOL_NAME_RE poolName)
  then reject ("Invalid pool name " +:+ in_quotes poolName +:+ ": must match " +:+ re_source POOL_NAME_RE
    +:+ " (lowercase letters, digits and hyphens; must start and end with a letter or digit), max 63 chars.")
  else accept.

Definition assertSafeTelemetryProviderName (providerName : string) : outcome string unit :=
  if negb (re_test TELEMETRY_PROVIDER_RE providerName)
  then reject ("Invalid telemetry provider name " +:+ json_quote providerName +:+ ": expected a target "
    +:+ "component name (lowercase letters, digits and hyphens, max 63 characters).")
  else accept.

Section Cidr.
(** net.isIP: 4, 6, or 0. *)
Variable isIP : string → Z.

(** The two groups of /^(.+)\/([0-9]{1,3})$/: the slash is the last one, since the second group
    has none, and the dot excludes line terminators. *)
Definition cidr_match (cidr : string) : option (string * string) :=
  match cut_last "/" cidr with
  | Some (address, prefix) =>
      if re_test "^.+$" address && re_test "^[0-9]{1,3}$" prefix then Some (address, prefix) else None
  | None => None
  end.

Definition assertSafeCidr (cidr : json) (where_ : string) : outcome string unit :=
  let bad := reject ("Invalid " +:+ where_ +:+ " " +:+ stringify cidr
    +:+ ": expected an IPv4 or IPv6 CIDR.") in
  match as_string cidr with
  | None => bad
  | Some s =>
      if includes_char "%" s then bad
      else
        let m := cidr_match s in
        let family := match m with Some (a, _) => isIP a | None => 0%Z end in
        let prefix := match m with Some (_, p) => digits_value 0 p | None => (-1)%Z end in
        let maxPrefix := if (family =? 4)%Z then 32%Z else if (family =? 6)%Z then 128%Z else (-1)%Z in
        if (family =? 0)%Z || (prefix <? 0)%Z || (maxPrefix <? prefix)%Z then bad else accept
  end.
End Cidr.

(** ** Resource names *)

Record PoolResourceNames := mkPoolNames { deployment : string; hpa : string; hcp : string }.

Record StablePoolResourceNames := mkStableNames {
  service : string; pdb : string; stable_hcp : string; bcp : string
}.

Definition compositionPlanResourceName (releaseName buildId : string) : string :=
  sanitizeK8sName (releaseName +:+ "-composition-" +:+ buildId) "".

Definition poolResourceNames (releaseName poolName buildId : string) : PoolResourceNames :=
  let base := releaseName +:+ "-" +:+ poolName +:+ "-" +:+ buildId in
  mkPoolNames (sanitizeK8sName base "") (sanitizeK8sName base "-hpa") (sanitizeK8sName base "-hcp").

Definition stablePoolResourceNames (releaseName poolName : string)
    : outcome string StablePoolResourceNames :=
  let! _ := assertSafeReleaseName releaseName in
  let! _ := assertSafePoolName poolName in
  let base := releaseName +:+ "-" +:+ poolName in
  Returns {| service := sanitizeK8sName base ""; pdb := sanitizeK8sName base "-pdb";
             bcp := sanitizeK8sName base "-bcp"; stable_hcp := sanitizeK8sName base "-hcp" |}.

(** The first element that occurred before, as the loop over a Set finds it. *)
Fixpoint first_repeat (seen : list string) (names : list string) : option string :=
  match names with
  | [] => None
  | n :: names' => if bool_decide (n ∈ seen) then Some n else first_repeat (n :: seen) names'
  end.

Fixpoint bucket_collision (buckets : list (string * list string)) : option (string * string) :=
  match buckets with
  | [] => None
  | (kind, names) :: buckets' =>
      match first_repeat [] names with
      | Some n => Some (kind, n)
      | None => bucket_collision buckets'
      end
  end.

Section Names.
(** The hexadecimal SHA-256 digest of node:crypto. *)
Variable sha256_hex : string → string.

Definition routingManifestSnapshotName (releaseName buildId : string) : string :=
  let digest := take_string 8 (sha256_hex buildId) in
  sanitizeK8sName (releaseName +:+ "-rm-" +:+ buildId) ("-" +:+ digest).

Definition composedBuildResourceNames (releaseName : string) (poolNames : list string)
    (buildId : string) : list string :=
  flat_map (λ poolName, let n := poolResourceNames releaseName poolName buildId in
                        [deployment n; hpa n; hcp n]) poolNames
  ++ [routingManifestSnapshotName releaseName buildId].

(** The names the chart stamps, by the kind whose name space they share. *)
Definition emitted_buckets (releaseName : string) (poolNames buildIds : list string)
    : list (string * list string) :=
  let versioned := flat_map (λ b, map (λ p, poolResourceNames releaseName p b) poolNames) buildIds in
  [("Deployment/Service",
     map deployment versioned
     ++ map (λ p, sanitizeK8sName (releaseName +:+ "-" +:+ p) "") poolNames
     ++ [releaseName +:+ "-routing-service"]);
   ("HorizontalPodAutoscaler",
     map hpa versioned ++ [releaseName +:+ "-routing-service-hpa"]);
   ("HealthCheckPolicy",
     map hcp versioned ++ map (λ p, sanitizeK8sName (releaseName +:+ "-" +:+ p) "-hcp") poolNames);
   ("ConfigMap",
     flat_map (λ b, [routingManifestSnapshotName releaseName b;
                     compositionPlanResourceName releaseName b]) buildIds)].

Definition findEmittedNameCollision (releaseName : string) (poolNames buildIds : list string)
    : option (string * string) :=
  bucket_collision (emitted_buckets releaseName poolNames buildIds).

Definition findBuildIdNameCollision (releaseName : string) (poolNames : list string)
    (currentBuildId previousBuildId : string) : option (string * string) :=
  findEmittedNameCollision releaseName poolNames [currentBuildId; previousBuildId].

Record build := mkBuild { buildId : string; pools : list string }.

Definition topology_buckets (releaseName : string) (current previous : build)
    : list (string * list string) :=
  let versioned := flat_map (λ b, map (λ p, poolResourceNames releaseName p (buildId b)) (pools b))
                     [current; previous] in
  let stable := js_set (pools current ++ pools previous) in
  [("Deployment/Service",
     map deployment versioned
     ++ map (λ p, sanitizeK8sName (releaseName +:+ "-" +:+ p) "") stable
     ++ [releaseName +:+ "-routing-service"]);
   ("HorizontalPodAutoscaler",
     map hpa versioned ++ [releaseName +:+ "-routing-service-hpa"]);
   ("HealthCheckPolicy",
     map hcp versioned ++ map (λ p, sanitizeK8sName (releaseName +:+ "-" +:+ p) "-hcp") stable);
   ("ConfigMap",
     [routingManifestSnapshotName releaseName (buildId current);
      routingManifestSnapshotName releaseName (buildId previous);
      compositionPlanResourceName releaseName (buildId current);
      compositionPlanResourceName releaseName (buildId previous)])].

Definition findBuildTopologyNameCollision (releaseName : string) (current previous : build)
    : option (string * string) :=
  bucket_collision (topology_buckets releaseName current previous).
End Names.

(** ** Helm escaping and YAML fragments *)

(** split of two open braces *)
Fixpoint split_braces (s : string) : list string :=
  match s with
  | EmptyString => [EmptyString]
  | String "{" (String "{" s') => EmptyString :: split_braces s'
  | String c s' =>
      match split_braces s' with
      | h :: t => String c h :: t
      | [] => [String c EmptyString]
      end
  end.

(** The action that renders two open braces. *)
Definition brace_action : string := "{{ " +:+ in_quotes "{{" +:+ " }}".

Definition escapeHelmActions (value : string) : string :=
  match split_braces value with
  | [_] => value
  | pieces => join brace_action pieces
  end.

Definition keepAtBirthAnnotationEntries (indent : string) : string :=
  indent +:+ "helm.sh/resource-policy: keep" +:+ newline
  +:+ indent +:+ "argocd.argoproj.io/sync-options: Prune=false" +:+ newline
  +:+ indent +:+ "kustomize.toolkit.fluxcd.io/prune: disabled" +:+ newline.

Definition job_mode_gate : string :=
  "{{- if and .Values.cutover (eq .Values.cutover.mode " +:+ in_quotes "job" +:+ ") }}".

Definition renderKeepAtBirthAnnotations (indent : string) : string :=
  indent +:+ job_mode_gate +:+ newline
  +:+ indent +:+ "annotations:" +:+ newline
  +:+ keepAtBirthAnnotationEntries (indent +:+ "  ")
  +:+ indent +:+ "{{- end }}" +:+ newline.

Definition renderJobModeReconcilerKeepEntries (indent : string) : string :=
  indent +:+ job_mode_gate +:+ newline
  +:+ indent +:+ "argocd.argoproj.io/sync-options: Prune=false" +:+ newline
  +:+ indent +:+ "kustomize.toolkit.fluxcd.io/prune: disabled" +:+ newline
  +:+ indent +:+ "{{- end }}" +:+ newline.

Fixpoint collect {A} (l : list (outcome string A)) : outcome string (list A) :=
  match l with
  | [] => Returns []
  | m :: l' => let! x := m in let! xs := collect l' in Returns (x :: xs)
  end.

Definition renderImagePullSecrets (pullSecrets : option (list string)) (indent : string)
    : outcome string string :=
  match pullSecrets with
  | None | Some [] => Returns ""
  | Some secrets =>
      let! entries := collect (map (λ name,
        let! _ := assertSafeSecretName name in
        Returns (indent +:+ "  - name: " +:+ in_quotes name)) secrets) in
      Returns (indent +:+ "imagePullSecrets:" +:+ newline +:+ join newline entries +:+ newline)
  end.

(** ** Reserved probe paths *)

Definition RESERVED_PROBE_PATHS : list string := ["/healthz"; "/readyz"].

(** The forms of a pathname a probe could reach: as it is, and without the base path. *)
Definition probe_candidates (basePath pathname : string) : list string :=
  let bare :=
    if negb (is_empty basePath) && starts_with basePath pathname
    then drop_string (String.length basePath) pathname else pathname in
  js_set [pathname; if is_empty bare then "/" else bare].

Definition record (basePath kind : string) (owned : list (string * string)) (pathname : string)
    : list (string * string) :=
  foldl (λ owned candidate,
    if bool_decide (candidate ∈ RESERVED_PROBE_PATHS) && negb (bool_decide (candidate ∈ owned.*1))
    then owned ++ [(candidate, kind)] else owned) owned (probe_candidates basePath pathname).

Record app_paths := mkApp {
  pathnames : list string; staticPathnames : list string; publicPathnames : list string;
  basePath : option string
}.

Definition assertProbePathsUnowned (app : app_paths) : outcome string unit :=
  let base := default "" (basePath app) in
  let owned := foldl (record base "a route") [] (pathnames app) in
  let owned := foldl (record base "a static output") owned (staticPathnames app) in
  let owned := foldl (record base "a public/ file") owned (publicPathnames app) in
  match owned with
  | [] => accept
  | _ =>
      let details := join ", " (map (λ e, e.1 +:+ " (" +:+ e.2 +:+ ")") owned) in
      reject ("[adapter-k8s] The app owns a reserved platform probe path: " +:+ details +:+ ". "
        +:+ join " and " RESERVED_PROBE_PATHS
        +:+ " are answered by the pool server itself — the "
        +:+ "kubelet's liveness/readiness probes, the Gateway HealthCheckPolicy, and the blue/green "
        +:+ "cutover gate all read them as this pod's verdict. If the app answered them instead, a "
        +:+ "static 200 would promote a pod whose instrumentation failed, and an authenticated or "
        +:+ "failing route would keep a healthy pod unready so no deploy could ever cut over. "
        +:+ "Rename the route/file (e.g. /health, /api/ready).")
  end.

(** ** Sanitized names are labels *)

Definition label_char (c : ascii) : bool := in_class false [("-", "-"); ("a", "z"); ("0", "9")]%char c.
Definition is_lower (c : ascii) : bool := in_class false [("a", "z")]%char c.

(** The suffixes a caller may reserve: empty, or at most 62 label characters that end in a letter
    or a digit. *)
Definition suffix_ok (suffix : string) : bool :=
  is_empty suffix || (String.length suffix <=? 62)%nat && re_test "^[-a-z0-9]*[a-z0-9]$" suffix.

Definition ends_alnum (s : string) : Prop := ∃ t z, s = t +:+ String z "" ∧ is_lower_alnum z = true.

Lemma lower_label c : is_lower c = true → label_char c = true.
Proof. apply class_impl. by vm_compute. Qed.
Lemma lower_alnum c : is_lower c = true → is_lower_alnum c = true.
Proof. apply class_impl. by vm_compute. Qed.
Lemma alnum_label c : is_lower_alnum c = true → label_char c = true.
Proof. apply class_impl. by vm_compute. Qed.
Lemma label_alnum c : label_char c = true → c ≠ "-"%char → is_lower_alnum c = true.
Proof.
  intros Hc Hne. apply (class_impl (λ c, negb (Ascii.eqb c "-") && label_char c)); [by vm_compute|].
  by rewrite Hc, (proj2 (Ascii.eqb_neq c "-")).
Qed.

Lemma any_text_matches s : matches any_text s.
Proof.
  induction s as [|c s IH]; [constructor|]. apply (MStarS _ (String c "") s); [|done].
  constructor. apply (class_impl (λ _, true)); [by vm_compute|done].
Qed.

Lemma starts_lower s : re_test "^[a-z]" s = match s with String c _ => is_lower c | _ => false end.
Proof.
  apply eq_true_iff_eq. rewrite re_test_spec.
  change (compiled "^[a-z]") with (RSeq (RCls false [("a", "z")]%char) any_text).
  split.
  - inversion 1 as [| |? ? x y Hx Hy| | | | | |]; subst. by inversion Hx; subst.
  - destruct s as [|c s]; [done|]. intros Hc.
    apply (MSeq _ _ (String c "") s); [by constructor|apply any_text_matches].
Qed.

Lemma rep_chars neg rs m n s :
  all_chars (in_class neg rs) s = true → (m ≤ String.length s ≤ n)%nat →
  matches (RRep m n (RCls neg rs)) s.
Proof.
  revert m n. induction s as [|c s IH]; simpl; intros m n Hs Hlen.
  - replace m with 0 by lia. constructor.
  - b2p. destruct n as [|n]; [lia|]. apply (MRepS m n _ (String c "") s); [by constructor|].
    apply IH; [done|lia].
Qed.

(** What a DNS-1035 label is made of. *)
Lemma label_intro c s :
  is_lower c = true → all_chars label_char s = true → s = "" ∨ ends_alnum s →
  (String.length s ≤ 62)%nat → re_test DNS_1035_LABEL_RE (String c s) = true.
Proof.
  intros Hc Hs Hend Hlen. apply re_test_spec.
  change (compiled DNS_1035_LABEL_RE) with
    (RSeq (RCls false [("a", "z")]%char) (RRep 0 1
      (RSeq (RRep 0 61 (RCls false [("-", "-"); ("a", "z"); ("0", "9")]%char))
            (RCls false [("a", "z"); ("0", "9")]%char)))).
  apply (MSeq _ _ (String c "") s); [by constructor|].
  destruct Hend as [->|(t & z & -> & Hz)]; [constructor|].
  rewrite all_chars_append, length_append in *. simpl in *. b2p.
  rewrite <- (append_nil_r (t +:+ String z "")). apply MRepS; [|constructor].
  constructor; [apply rep_chars; [done|lia]|by constructor].
Qed.

Lemma label_elim s :
  re_test DNS_1035_LABEL_RE s = true →
  ∃ c t, s = String c t ∧ is_lower c = true ∧ all_chars label_char t = true
         ∧ (t = "" ∨ ends_alnum t) ∧ (String.length t ≤ 62)%nat.
Proof.
  intros Hm%re_test_spec.
  assert (String.length s ≤ 63)%nat as Hlen by (by eapply max_length_sound; [|exact Hm]).
  assert (all_chars label_char s = true) as Hall by (by eapply within_sound; [|exact Hm]; vm_compute).
  destruct s as [|c t]; [by apply nullable_correct in Hm|].
  simpl in *. b2p. exists c, t. split_and!; [done| |done| |lia].
  - by eapply first_within_sound; [|exact Hm]; vm_compute.
  - assert (t = "" ∨ ∃ t' z, t = t' +:+ String z "") as [->|(t' & z & ->)]; [|by left|right].
    { clear. induction t as [|c t [->|(t' & z & ->)]]; [by left|right; by exists "", c|].
      right. by exists (String c t'), z. }
    exists t', z. split; [done|]. eapply (last_within_sound _ _ z (String c t')); [|exact Hm].
    by vm_compute.
Qed.

(** ** Stripping *)

Lemma strip_trailing_chars p s : all_chars p s = true → all_chars p (strip_trailing_hyphens s) = true.
Proof.
  induction s as [|c s IH]; simpl; [done|]. intros [Hc Hs]%andb_true_iff. specialize (IH Hs).
  destruct (strip_trailing_hyphens s); simpl in *; [destruct (Ascii.eqb _ _)|]; simpl; by rewrite ?Hc.
Qed.

Lemma strip_trailing_length s : (String.length (strip_trailing_hyphens s) ≤ String.length s)%nat.
Proof.
  induction s as [|c s IH]; simpl; [lia|].
  destruct (strip_trailing_hyphens s); simpl in *; [destruct (Ascii.eqb _ _)|]; simpl; lia.
Qed.

Lemma strip_trailing_end s :
  strip_trailing_hyphens s = ""
  ∨ ∃ t z, strip_trailing_hyphens s = t +:+ String z "" ∧ z ≠ "-"%char.
Proof.
  induction s as [|c s IH]; simpl; [by left|].
  destruct IH as [->|(t & z & -> & Hz)].
  - destruct (Ascii.eqb_spec c "-"); [by left|]. right. by exists "", c.
  - right. destruct t; simpl; [by exists (String c ""), z|by exists (String c (String a t)), z].
Qed.

Lemma strip_trailing_cons c s :
  c ≠ "-"%char → strip_trailing_hyphens (String c s) = String c (strip_trailing_hyphens s).
Proof.
  intros Hc. simpl. destruct (strip_trailing_hyphens s); [|done].
  by rewrite (proj2 (Ascii.eqb_neq c "-")).
Qed.

Lemma strip_trailing_id s : s = "" ∨ ends_alnum s → strip_trailing_hyphens s = s.
Proof.
  intros [->|(t & z & -> & Hz)]; [done|]. induction t as [|c t IH]; simpl.
  - destruct (Ascii.eqb_spec z "-") as [->|]; done.
  - rewrite IH. by destruct t.
Qed.

Lemma take_string_length n s : (String.length (take_string n s) ≤ n)%nat.
Proof. revert s. induction n; intros [|c s]; simpl; [lia..|]. specialize (IHn s). lia. Qed.

Lemma take_string_chars p n s : all_chars p s = true → all_chars p (take_string n s) = true.
Proof.
  revert s. induction n; intros [|c s]; simpl; try done. intros [Hc Hs]%andb_true_iff.
  rewrite Hc. by apply IHn.
Qed.

Lemma take_string_all n s : (String.length s ≤ n)%nat → take_string n s = s.
Proof. revert s. induction n; intros [|c s]; simpl; intros; [done|lia|done|]. rewrite IHn; [done|lia]. Qed.

(** The name before truncation: a lower-case letter, then label characters. *)
Definition normalized (name : string) : string :=
  let m := map_string (λ c, if is_lower_alnum c then c else "-"%char) (to_lower name) in
  if re_test "^[a-z]" m then m else "b-" +:+ m.

Lemma normalized_shape name :
  ∃ c t, normalized name = String c t ∧ is_lower c = true ∧ all_chars label_char t = true.
Proof.
  unfold normalized. rewrite starts_lower.
  set (m := map_string _ _).
  assert (all_chars label_char m = true) as Hm.
  { subst m. induction (to_lower name) as [|c s IH]; simpl; [done|]. rewrite IH, andb_true_r.
    destruct (is_lower_alnum c) eqn:Hc; [by apply alnum_label|done]. }
  destruct m as [|c t]; simpl.
  - by exists "b"%char, "-".
  - simpl in Hm. b2p. destruct (is_lower c) eqn:Hc; [by exists c, t|].
    exists "b"%char, (String "-" (String c t)). split_and!; [done..|]. simpl. rewrite H. done.
Qed.

Lemma sanitize_shape name suffix :
  (String.length suffix ≤ 62)%nat →
  ∃ c t, sanitizeK8sName name suffix = String c (t +:+ suffix) ∧ is_lower c = true
         ∧ all_chars label_char t = true ∧ (t = "" ∨ ends_alnum t)
         ∧ (String.length t + String.length suffix ≤ 62)%nat.
Proof.
  intros Hlen. destruct (normalized_shape name) as (c & t & Hn & Hc & Ht).
  unfold normalized in Hn. unfold sanitizeK8sName. cbv zeta in *. rewrite Hn. unfold slice0.
  rewrite (proj2 (Z.ltb_ge _ _)) by lia.
  destruct (Z.to_nat (63 - Z.of_nat (String.length suffix))) as [|n] eqn:Hz; [lia|].
  cbn [take_string].
  assert (c ≠ "-"%char) as Hne by (intros ->; done).
  assert (strip_leading_hyphens (String c (take_string n t)) = String c (take_string n t)) as ->.
  { simpl. destruct c as [[] [] [] [] [] [] [] []]; done. }
  rewrite strip_trailing_cons by done.
  exists c, (strip_trailing_hyphens (take_string n t)).
  pose proof (strip_trailing_chars label_char _ (take_string_chars _ n _ Ht)) as Hchars.
  pose proof (strip_trailing_length (take_string n t)). pose proof (take_string_length n t).
  split_and!; [done|done|done| |lia].
  destruct (strip_trailing_end (take_string n t)) as [->|(u & z & Heq & Hz')]; [by left|right].
  exists u, z. split; [done|]. rewrite Heq, all_chars_append in Hchars. simpl in Hchars. b2p.
  by apply label_alnum.
Qed.

Lemma suffix_ok_elim suffix :
  suffix_ok suffix = true →
  (String.length suffix ≤ 62)%nat ∧ all_chars label_char suffix = true ∧ (suffix = "" ∨ ends_alnum suffix).
Proof.
  unfold suffix_ok. intros [He|Hs]%orb_true_iff.
  - destruct suffix; [|done]. simpl. split_and!; [lia|done|by left].
  - b2p. apply re_test_spec in H0 as Hm. split_and!; [done| |].
    + by eapply within_sound; [|exact Hm]; vm_compute.
    + right. destruct (String.eqb_spec suffix "") as [->|Hne].
      { apply nullable_correct in Hm. by vm_compute in Hm. }
      assert (∃ t z, suffix = t +:+ String z "") as (t & z & ->).
      { clear -Hne. induction suffix as [|c s IH]; [done|]. destruct s as [|d s]; [by exists "", c|].
        destruct IH as (t & z & ->); [done|]. by exists (String c t), z. }
      exists t, z. split; [done|]. by eapply last_within_sound; [|exact Hm]; vm_compute.
Qed.

Lemma sanitize_is_label name suffix :
  suffix_ok suffix = true → re_test DNS_1035_LABEL_RE (sanitizeK8sName name suffix) = true.
Proof.
  intros (Hlen & Hchars & Hend)%suffix_ok_elim.
  destruct (sanitize_shape name suffix Hlen) as (c & t & -> & Hc & Ht & Htend & Hl).
  apply label_intro; [done| | |rewrite length_append; lia].
  - by rewrite all_chars_append, Ht, Hchars.
  - destruct Hend as [->|(u & z & -> & Hz)]; [by rewrite append_nil_r|].
    right. exists (t +:+ u), z. by rewrite append_assoc.
Qed.

(** Whatever the input, a sanitized name ends in the suffix its caller reserved and is a valid
    Service name: a DNS-1035 label of at most 63 characters. *)
Theorem sanitize_label name suffix :
  suffix_ok suffix = true →
  assertSafeServiceName (JStr (sanitizeK8sName name suffix)) = Returns tt
  ∧ (String.length (sanitizeK8sName name suffix) ≤ 63)%nat
  ∧ ∃ p, sanitizeK8sName name suffix = p +:+ suffix.
Proof.
  intros Hs. pose proof (sanitize_is_label name suffix Hs) as Hl.
  split_and!.
  - unfold assertSafeServiceName. cbn [as_string]. by rewrite Hl.
  - apply re_test_spec in Hl. by eapply max_length_sound; [|exact Hl].
  - apply suffix_ok_elim in Hs as (Hlen & _).
    destruct (sanitize_shape name suffix Hlen) as (c & t & -> & _). by exists (String c t).
Qed.

Lemma sanitize_label_witness :
  assertSafeServiceName (JStr (sanitizeK8sName "-My_App--2024.01.02--" "-hpa")) = Returns tt
  ∧ (String.length (sanitizeK8sName "-My_App--2024.01.02--" "-hpa") ≤ 63)%nat
  ∧ ∃ p, sanitizeK8sName "-My_App--2024.01.02--" "-hpa" = p +:+ "-hpa".
Proof. apply (sanitize_label "-My_App--2024.01.02--" "-hpa"). vm_compute. reflexivity. Defined.

Lemma lower_char_label c : label_char c = true → lower_char c = c.
Proof.
  intros Hc. destruct (Ascii.eqb_spec (lower_char c) c) as [|Hne]; [done|exfalso].
  assert (Ascii.eqb (lower_char c) c = true) as He; [|apply Ascii.eqb_eq in He; done].
  revert c Hc Hne. intros c Hc _. revert c Hc. apply class_impl. by vm_compute.
Qed.

Lemma is_label_fixed c t :
  is_lower c = true → all_chars label_char t = true → normalized (String c t) = String c t.
Proof.
  intros Hc Ht. unfold normalized. rewrite starts_lower.
  assert (∀ s, all_chars label_char s = true →
    map_string (λ c, if is_lower_alnum c then c else "-"%char) (to_lower s) = s) as Hfix.
  { unfold to_lower. induction s as [|d s IH]; simpl; [done|]. intros [Hd Hs]%andb_true_iff.
    rewrite IH, lower_char_label by done. destruct (is_lower_alnum d) eqn:Hda; [done|].
    destruct (Ascii.eqb_spec d "-") as [->|Hne]; [done|]. by rewrite label_alnum in Hda. }
  rewrite Hfix by (simpl; by rewrite (lower_label c Hc)). by rewrite Hc.
Qed.

(** A name that is already a label is kept as it is; so sanitizing is idempotent. *)
Theorem sanitize_fixes_labels name :
  re_test DNS_1035_LABEL_RE name = true → sanitizeK8sName name "" = name.
Proof.
  intros (c & t & -> & Hc & Ht & Hend & Hlen)%label_elim.
  pose proof (is_label_fixed c t Hc Ht) as Hn. unfold normalized in Hn.
  unfold sanitizeK8sName. cbv zeta in *. rewrite Hn. unfold slice0.
  change (63 - Z.of_nat (String.length ""))%Z with 63%Z. change (63 <? 0)%Z with false.
  cbv iota. rewrite take_string_all by (simpl; lia). rewrite append_nil_r.
  assert (c ≠ "-"%char) as Hne by (intros ->; done).
  assert (strip_leading_hyphens (String c t) = String c t) as ->.
  { simpl. destruct c as [[] [] [] [] [] [] [] []]; done. }
  by rewrite strip_trailing_cons, strip_trailing_id.
Qed.

Lemma sanitize_fixes_labels_witness : sanitizeK8sName "shop-app-pages-v2" "" = "shop-app-pages-v2".
Proof. apply (sanitize_fixes_labels "shop-app-pages-v2"). vm_compute. reflexivity. Defined.

(** ** Names of different builds *)

Lemma append_inj_r a b c d : String.length b = String.length d → a +:+ b = c +:+ d → b = d.
Proof.
  intros Hlen. revert c. induction a as [|x a IH]; intros [|y c]; simpl.
  - done.
  - intros ->. simpl in Hlen. rewrite length_append in Hlen. lia.
  - intros <-. simpl in Hlen. rewrite length_append in Hlen. lia.
  - intros [= _ Heq]. eauto.
Qed.

Lemma take_string_length_eq n s : (n ≤ String.length s)%nat → String.length (take_string n s) = n.
Proof. revert s. induction n; intros [|c s]; simpl; intros; [done..|lia|]. rewrite IHn; [done|lia]. Qed.

(** Truncation never eats the digest: two builds whose digests differ in the first eight
    characters have different snapshot names, whatever their releases and build ids. *)
Theorem snapshot_names_differ (sha256_hex : string → string) r1 b1 r2 b2 :
  (∀ b, String.length (sha256_hex b) = 64) →
  take_string 8 (sha256_hex b1) ≠ take_string 8 (sha256_hex b2) →
  routingManifestSnapshotName sha256_hex r1 b1 ≠ routingManifestSnapshotName sha256_hex r2 b2.
Proof.
  intros Hsha Hne Heq. apply Hne. unfold routingManifestSnapshotName in Heq.
  assert (∀ b, String.length (take_string 8 (sha256_hex b)) = 8) as Hlen.
  { intros b. apply take_string_length_eq. rewrite Hsha. lia. }
  pose proof (Hlen b1) as L1. pose proof (Hlen b2) as L2. clear Hlen Hne.
  revert L1 L2 Heq. generalize (take_string 8 (sha256_hex b1)) (take_string 8 (sha256_hex b2)).
  intros d1 d2 L1 L2 Heq.
  destruct (sanitize_shape (r1 +:+ "-rm-" +:+ b1) ("-" +:+ d1))
    as (c1 & t1 & H1 & _); [simpl; lia|].
  destruct (sanitize_shape (r2 +:+ "-rm-" +:+ b2) ("-" +:+ d2))
    as (c2 & t2 & H2 & _); [simpl; lia|].
  rewrite H1, H2 in Heq. injection Heq as _ Heq. apply append_inj_r in Heq; [|simpl; congruence].
  by injection Heq.
Qed.

(** A stand-in for the digest function: the text padded to 64 characters. *)
Definition padded_digest (b : string) : string :=
  take_string 64 (b +:+ "0000000000000000000000000000000000000000000000000000000000000000").

Lemma snapshot_names_differ_witness :
  routingManifestSnapshotName padded_digest "shop" "2024-06-01"
  ≠ routingManifestSnapshotName padded_digest "shop" "2025-06-01".
Proof.
  apply (snapshot_names_differ padded_digest "shop" "2024-06-01" "shop" "2025-06-01").
  - intros b. unfold padded_digest. apply take_string_length_eq. rewrite length_append. simpl. lia.
  - vm_compute. discriminate.
Defined.

(** ** Collisions *)

Lemma first_repeat_spec seen names :
  first_repeat seen names = None ↔ NoDup names ∧ (∀ n, n ∈ names → n ∉ seen).
Proof.
  revert seen. induction names as [|n names IH]; intros seen; simpl.
  - split; [|done]. intros _. split; [constructor|]. by intros ? ?%not_elem_of_nil.
  - case_bool_decide as Hn.
    + split; [done|]. intros [_ Hf]. exfalso. eapply Hf; [left|done].
    + rewrite IH, NoDup_cons. setoid_rewrite elem_of_cons. split.
      * intros [Hnd Hf]. split_and!; [|done|].
        -- intros Hin. eapply Hf; eauto.
        -- intros m [->|Hm]; [done|]. intros Hs. eapply Hf; eauto.
      * intros [[Hnin Hnd] Hf]. split; [done|]. intros m Hm [->|Hs]; [done|]. eapply Hf; eauto.
Qed.

Lemma first_repeat_Some seen names n :
  first_repeat seen names = Some n →
  ∃ before after, names = before ++ n :: after ∧ (n ∈ before ∨ n ∈ seen).
Proof.
  revert seen. induction names as [|m names IH]; intros seen; simpl; [done|].
  case_bool_decide as Hm; intros Heq; simplify_eq.
  - exists [], names. auto.
  - destruct (IH _ Heq) as (bf & af & -> & Hor). exists (m :: bf), af. split; [done|].
    rewrite !elem_of_cons in *. naive_solver.
Qed.

Lemma bucket_collision_None bs :
  bucket_collision bs = None ↔ ∀ kind names, (kind, names) ∈ bs → NoDup names.
Proof.
  induction bs as [|[k ns] bs IH]; simpl.
  - split; [|done]. by intros _ ? ? ?%not_elem_of_nil.
  - pose proof (first_repeat_spec [] ns) as Hs. destruct (first_repeat [] ns) as [n|].
    + split; [done|]. intros Hall. exfalso. assert (Some n = None) as H; [|done].
      apply Hs. split; [by eapply Hall; left|]. by intros ? _ ?%not_elem_of_nil.
    + rewrite IH. destruct Hs as [[Hnd _] _]; [done|]. split.
      * intros Hall kind names [?|?]%elem_of_cons; simplify_eq; eauto.
      * intros Hall kind names Hin. eapply Hall. by right.
Qed.

Lemma bucket_collision_Some bs kind n :
  bucket_collision bs = Some (kind, n) →
  ∃ before after, (kind, before ++ n :: after) ∈ bs ∧ n ∈ before.
Proof.
  induction bs as [|[k ns] bs IH]; simpl; [done|].
  destruct (first_repeat [] ns) as [m|] eqn:Hf; intros Heq; simplify_eq.
  - apply first_repeat_Some in Hf as (bf & af & -> & [?|?%not_elem_of_nil]); [|done].
    exists bf, af. split; [left|done].
  - destruct (IH Heq) as (bf & af & ? & ?). exists bf, af. split; [by right|done].
Qed.

Lemma NoDup_map_eq {A B} (f : A → B) l x y :
  NoDup (map f l) → x ∈ l → y ∈ l → f x = f y → x = y.
Proof.
  induction l as [|z l IH]; simpl; [by intros _ ?%not_elem_of_nil|].
  intros [Hz Hnd]%NoDup_cons [->|Hx]%elem_of_cons [->|Hy]%elem_of_cons Heq; auto; exfalso; apply Hz.
  - rewrite Heq. by apply list_elem_of_fmap_2.
  - rewrite <- Heq. by apply list_elem_of_fmap_2.
Qed.

(** The pool and build pairs, in emission order. *)
Definition pool_builds (ps bs : list string) : list (string * string) :=
  flat_map (λ b, map (λ p, (p, b)) ps) bs.

Lemma elem_of_pool_builds ps bs p b : (p, b) ∈ pool_builds ps bs ↔ p ∈ ps ∧ b ∈ bs.
Proof.
  unfold pool_builds. rewrite list_elem_of_In, in_flat_map. setoid_rewrite <- list_elem_of_In.
  setoid_rewrite list_elem_of_fmap. naive_solver.
Qed.

Lemma versioned_pairs {A} (f : PoolResourceNames → A) r ps bs :
  map f (flat_map (λ b, map (λ p, poolResourceNames r p b) ps) bs)
  = map (λ x, f (poolResourceNames r x.1 x.2)) (pool_builds ps bs).
Proof.
  unfold pool_builds. induction bs as [|b bs IH]; simpl; [done|].
  rewrite !map_app, IH, !map_map. done.
Qed.

(** The collision guard is exact: it reports a kind and a name only when two objects of that
    kind have the name, and nothing only when, in every kind, all names are distinct. *)
Theorem collision_guard_exact sha256_hex r ps bs :
  (findEmittedNameCollision sha256_hex r ps bs = None
   ↔ ∀ kind names, (kind, names) ∈ emitted_buckets sha256_hex r ps bs → NoDup names)
  ∧ (∀ kind n, findEmittedNameCollision sha256_hex r ps bs = Some (kind, n) →
     ∃ before after, (kind, before ++ n :: after) ∈ emitted_buckets sha256_hex r ps bs ∧ n ∈ before).
Proof. split; [apply bucket_collision_None|intros kind n; apply bucket_collision_Some]. Qed.

(** Blue/green isolation.  When the guard passes, no Deployment or Service of one pool and
    build has the name of another pool and build's, of a pool's stable Service, or of the routing
    tier's; and the autoscalers of different pools and builds have different names. *)
Theorem no_collision_isolation sha256_hex r ps bs p1 b1 p2 b2 :
  findEmittedNameCollision sha256_hex r ps bs = None →
  p1 ∈ ps → b1 ∈ bs → p2 ∈ ps → b2 ∈ bs →
  (deployment (poolResourceNames r p1 b1) = deployment (poolResourceNames r p2 b2) → p1 = p2 ∧ b1 = b2)
  ∧ (hpa (poolResourceNames r p1 b1) = hpa (poolResourceNames r p2 b2) → p1 = p2 ∧ b1 = b2)
  ∧ deployment (poolResourceNames r p1 b1) ≠ sanitizeK8sName (r +:+ "-" +:+ p2) ""
  ∧ deployment (poolResourceNames r p1 b1) ≠ r +:+ "-routing-service".
Proof.
  intros Hnone Hp1 Hb1 Hp2 Hb2. pose proof (proj1 (bucket_collision_None _) Hnone) as Hnd.
  assert (Hd := Hnd _ _ (list_elem_of_here _ _)).
  assert (Hh := Hnd _ _ (list_elem_of_further _ _ _ (list_elem_of_here _ _))).
  rewrite versioned_pairs in Hd, Hh.
  apply NoDup_app in Hd as (Hd & Hsep & _). apply NoDup_app in Hh as (Hh & _ & _).
  assert ((p1, b1) ∈ pool_builds ps bs) as H1 by by apply elem_of_pool_builds.
  assert ((p2, b2) ∈ pool_builds ps bs) as H2 by by apply elem_of_pool_builds.
  assert (∀ n, n ∈ map (λ p, sanitizeK8sName (r +:+ "-" +:+ p) "") ps ++ [r +:+ "-routing-service"] →
          deployment (poolResourceNames r p1 b1) ≠ n) as Hout.
  { intros n Hn Heq. eapply Hsep; [|exact Hn]. rewrite <- Heq.
    by apply (list_elem_of_fmap_2 (λ x, deployment (poolResourceNames r x.1 x.2)) _ (p1, b1)). }
  split_and!.
  - intros Heq. by eapply NoDup_map_eq in Hd; [|exact H1|exact H2|exact Heq]; simplify_eq.
  - intros Heq. by eapply NoDup_map_eq in Hh; [|exact H1|exact H2|exact Heq]; simplify_eq.
  - apply Hout, elem_of_app. left.
    by apply (list_elem_of_fmap_2 (λ p, sanitizeK8sName (r +:+ "-" +:+ p) "")).
  - apply Hout, elem_of_app. right. by left.
Qed.

Lemma no_collision_isolation_witness :
  (deployment (poolResourceNames "shop" "api" "v1") =
   deployment (poolResourceNames "shop" "web" "v2") → "api" = "web" ∧ "v1" = "v2")
  ∧ (hpa (poolResourceNames "shop" "api" "v1") = hpa (poolResourceNames "shop" "web" "v2")
     → "api" = "web" ∧ "v1" = "v2")
  ∧ deployment (poolResourceNames "shop" "api" "v1") ≠ sanitizeK8sName ("shop" +:+ "-" +:+ "web") ""
  ∧ deployment (poolResourceNames "shop" "api" "v1") ≠ "shop" +:+ "-routing-service".
Proof.
  apply (no_collision_isolation padded_digest "shop" ["api"; "web"] ["v1"; "v2"] "api" "v1" "web" "v2").
  - vm_compute. reflexivity.
  - apply list_elem_of_here.
  - apply list_elem_of_here.
  - apply list_elem_of_further, list_elem_of_here.
  - apply list_elem_of_further, list_elem_of_here.
Defined.

(** The guard also sees the cross-pool collision inside one build. *)
Example cross_pool_collision :
  findEmittedNameCollision padded_digest "nextjs" ["api"; "api-v2"] ["v2"]
  = Some ("Deployment/Service", "nextjs-api-v2").
Proof. vm_compute. reflexivity. Qed.

(** ** Accepted values are inert *)

(** Characters that mean nothing to a shell word, a helm --set value, a quoted or bare YAML
    scalar's syntax, or a Go template: letters, digits and these marks. *)
Definition inert (c : ascii) : bool :=
  in_class false [("a", "z"); ("A", "Z"); ("0", "9"); (".", "."); ("_", "_"); ("-", "-");
                  ("/", "/"); (":", ":"); ("@", "@"); ("*", "*")]%char c.

Lemma re_inert pattern s :
  within inert (compiled pattern) = true → re_test pattern s = true → all_chars inert s = true.
Proof. intros Hw Hm%re_test_spec. by eapply within_sound. Qed.

Lemma split_on_all_chars p c s :
  p c = true → forallb (all_chars p) (split_on c s) = true → all_chars p s = true.
Proof.
  intros Hp. induction s as [|d s IH]; simpl; [done|].
  destruct (Ascii.eqb_spec d c) as [->|]; simpl.
  - rewrite Hp. apply IH.
  - destruct (split_on c s) as [|h t]; simpl in *; rewrite ?andb_true_r; intros; b2p.
    + destruct s; [by rewrite H|]. rewrite H. by apply IH.
    + rewrite H. apply IH. by rewrite H0, H1.
Qed.

Lemma qualified_inert s : re_test QUALIFIED_NAME_PART_RE s = true → all_chars inert s = true.
Proof. apply re_inert. by vm_compute. Qed.

Lemma forallb_impl {A} (p q : A → bool) l :
  (∀ x, p x = true → q x = true) → forallb p l = true → forallb q l = true.
Proof. intros Hpq. rewrite !forallb_In. eauto. Qed.

Lemma subdomain_inert s : forallb (re_test NAMESPACE_RE) (split_on "." s) = true → all_chars inert s = true.
Proof.
  intros H. apply (split_on_all_chars _ "."); [done|]. revert H. apply forallb_impl.
  intros x. by apply re_inert.
Qed.

Lemma rejected_if (b : bool) (m : string) : (if b then reject m else accept) = Returns tt → b = false.
Proof. by destruct b. Qed.

(** The validators of values spliced into commands, helm values and names. *)
Definition accepted_name (s : string) : Prop :=
  assertSafeReleaseName s = Returns tt ∨ assertSafeBuildId s = Returns tt
  ∨ assertSafeNamespace (JStr s) = Returns tt ∨ assertSafeServiceName (JStr s) = Returns tt
  ∨ (∃ field, assertSafeKubernetesObjectName (JStr s) field = Returns tt)
  ∨ assertSafeAnnotationName (JStr s) = Returns tt ∨ assertSafePoolName s = Returns tt
  ∨ assertSafeProjectId s = Returns tt ∨ assertSafeRegion s = Returns tt
  ∨ assertSafeBucketName s = Returns tt ∨ assertSafeHostname s = Returns tt
  ∨ assertSafeImageRegistry s = Returns tt ∨ assertSafeImageReference s = Returns tt
  ∨ (∃ field, assertSafeGcpResourceName (JStr s) field = Returns tt)
  ∨ assertSafeTelemetryProviderName s = Returns tt ∨ assertSafeSecretName s = Returns tt
  ∨ (∃ field, assertSafeQuantity (JStr s) field = Returns tt).

Lemma object_name_inert s field :
  assertSafeKubernetesObjectName (JStr s) field = Returns tt → all_chars inert s = true.
Proof.
  unfold assertSafeKubernetesObjectName. cbn [as_string]. intros H%rejected_if.
  unfold is_dns_subdomain in H. b2p. by apply subdomain_inert.
Qed.

Lemma annotation_name_inert s : assertSafeAnnotationName (JStr s) = Returns tt → all_chars inert s = true.
Proof.
  unfold assertSafeAnnotationName. cbn [as_string].
  pose proof (split_on_all_chars inert "/" s eq_refl) as Hall.
  destruct (split_on "/" s) as [|prefix [|part [|]]]; try done; intros H%rejected_if; b2p.
  - apply Hall. simpl. by rewrite qualified_inert.
  - apply Hall. simpl. by rewrite subdomain_inert, qualified_inert.
Qed.

Lemma secret_name_inert s : assertSafeSecretName s = Returns tt → all_chars inert s = true.
Proof.
  unfold assertSafeSecretName.
  destruct (assertSafeKubernetesObjectName (JStr s) "Secret name") as [[]|] eqn:H; [|done].
  intros _. by eapply object_name_inert.
Qed.

(** Injection safety.  A string any of these validators accepts is made of letters, digits and
    . _ - / : @ * only: it holds no quote, backslash, brace, comma, white space, control character
    or other character a shell, helm, YAML or a Go template would interpret. *)
Theorem accepted_names_inert s : accepted_name s → all_chars inert s = true.
Proof.
  unfold accepted_name, assertSafeReleaseName, assertSafeBuildId, assertSafeNamespace,
    is_namespace_name, assertSafeServiceName, assertSafePoolName, assertSafeProjectId,
    assertSafeRegion, assertSafeBucketName, assertSafeHostname, assertSafeImageRegistry,
    assertSafeImageReference, assertSafeGcpResourceName, assertSafeTelemetryProviderName,
    assertSafeQuantity. cbn [as_string].
  intros H. repeat match type of H with _ ∨ _ => destruct H as [H|H] | ∃ _, _ => destruct H as [? H] end;
    first [eapply object_name_inert; exact H | by apply annotation_name_inert | by apply secret_name_inert
          | apply rejected_if in H; b2p; eapply re_inert; [|eassumption]; by vm_compute].
Qed.

Lemma accepted_names_inert_witness : all_chars inert "us-docker.pkg.dev/p/r/app:build_1" = true.
Proof.
  apply (accepted_names_inert "us-docker.pkg.dev/p/r/app:build_1").
  do 12 right. left. vm_compute. reflexivity.
Defined.

(** ** Helm escaping *)

(** What Helm renders of a text: the brace action becomes two braces, other text is kept; any
    other action is evaluated, for which there is no text here. *)
Fixpoint helm_render (s : string) : option string :=
  match s with
  | String "{" (String "{" (String " " (String "034" (String "{" (String "{" (String "034"
      (String " " (String "}" (String "}" s'))))))))) =>
      (λ t, "{{" +:+ t) <$> helm_render s'
  | String "{" (String "{" _) => None
  | String c s' => String c <$> helm_render s'
  | EmptyString => Some ""
  end.

Lemma helm_render_cons c s :
  (c = "{"%char → ∀ t, s ≠ String "{" t) → helm_render (String c s) = String c <$> helm_render s.
Proof.
  intros H. destruct (Ascii.eqb_spec c "{") as [->|Hne].
  - specialize (H eq_refl). destruct s as [|d s]; [done|]. destruct (Ascii.eqb_spec d "{") as [->|Hd].
    + by destruct (H s).
    + destruct d as [[] [] [] [] [] [] [] []]; done.
  - destruct c as [[] [] [] [] [] [] [] []]; done.
Qed.

Lemma split_braces_cons c s :
  (c = "{"%char → ∀ t, s ≠ String "{" t) →
  split_braces (String c s)
  = match split_braces s with h :: t => String c h :: t | [] => [String c ""] end.
Proof.
  intros H. destruct (Ascii.eqb_spec c "{") as [->|Hne].
  - specialize (H eq_refl). destruct s as [|d s]; [done|]. destruct (Ascii.eqb_spec d "{") as [->|Hd].
    + by destruct (H s).
    + destruct d as [[] [] [] [] [] [] [] []]; done.
  - destruct c as [[] [] [] [] [] [] [] []]; done.
Qed.

Lemma split_braces_nil s : split_braces s ≠ [].
Proof.
  destruct s as [|c s]; [done|]. destruct s as [|d s].
  - destruct c as [[] [] [] [] [] [] [] []]; done.
  - destruct (decide (c = "{"%char ∧ d = "{"%char)) as [[-> ->]|Hn]; [done|].
    rewrite split_braces_cons; [by destruct (split_braces _)|]. intros -> t [= ->]. by destruct Hn.
Qed.

Lemma join_braces_head s t :
  join brace_action (split_braces s) = String "{" t → ∃ u, s = String "{" u.
Proof.
  destruct s as [|c s]; [done|]. destruct (Ascii.eqb_spec c "{") as [->|Hne]; [by eexists|].
  rewrite split_braces_cons by done. destruct (split_braces s) as [|h [|h' l]]; simpl; congruence.
Qed.

Lemma brace_case c s :
  (c = "{"%char ∧ ∃ t, s = String "{" t) ∨ (c = "{"%char → ∀ t, s ≠ String "{" t).
Proof.
  destruct (Ascii.eqb_spec c "{") as [->|Hc]; [|by right].
  destruct s as [|d s]; [by right|]. destruct (Ascii.eqb_spec d "{") as [->|Hd]; [by left; eauto|].
  right. by intros _ t [= ->].
Qed.

Lemma join_braces_render s : helm_render (join brace_action (split_braces s)) = Some s.
Proof.
  assert (∀ n s, (String.length s ≤ n)%nat →
          helm_render (join brace_action (split_braces s)) = Some s) as H; [|by eapply H].
  clear s. induction n as [|n IH]; intros s Hlen; [by destruct s; [|simpl in *; lia]|].
  destruct s as [|c s]; [done|]. simpl in Hlen.
  destruct (brace_case c s) as [[-> [s' ->]]|Hc].
  - cbn [split_braces]. specialize (IH s'). pose proof (split_braces_nil s') as Hnil.
    destruct (split_braces s') as [|h l]; [done|]. cbn [join].
    change (helm_render (brace_action +:+ join brace_action (h :: l)) = Some ("{{" +:+ s')).
    assert (Hj : helm_render (join brace_action (h :: l)) = Some s') by (apply IH; simpl in *; lia).
    revert Hj. generalize (join brace_action (h :: l)). intros j Hj.
    unfold brace_action, in_quotes. rewrite !append_assoc. simpl. by rewrite Hj.
  - rewrite split_braces_cons by done. pose proof (split_braces_nil s) as Hnil.
    assert (match split_braces s with h :: t => String c h :: t | [] => [String c ""] end ≠ []) by
      by destruct (split_braces s).
    assert (join brace_action
              match split_braces s with h :: t => String c h :: t | [] => [String c ""] end
            = String c (join brace_action (split_braces s))) as ->.
    { destruct (split_braces s) as [|h [|h' l]]; done. }
    rewrite helm_render_cons, IH; [done|lia|].
    intros -> t Ht%join_braces_head. destruct Ht as [u ->]. by eapply Hc.
Qed.

Lemma split_braces_single value h : split_braces value = [h] → h = value.
Proof.
  revert h. induction value as [|c s IH]; intros h; [by intros [= <-]|].
  destruct (brace_case c s) as [[-> [s' ->]]|Hc].
  - cbn [split_braces]. pose proof (split_braces_nil s'). by destruct (split_braces s').
  - rewrite split_braces_cons by done. destruct (split_braces s) as [|h' l] eqn:Hs; [by apply split_braces_nil in Hs|].
    intros [= <- ->]. f_equal. by apply IH.
Qed.

(** Opaque data survives Helm: rendering an escaped value evaluates no action but the literal
    braces and gives the value back byte for byte. *)
Theorem escaped_value_renders value : helm_render (escapeHelmActions value) = Some value.
Proof.
  pose proof (join_braces_render value) as Hr. unfold escapeHelmActions.
  pose proof (split_braces_nil value) as Hn. pose proof (split_braces_single value) as Hone.
  destruct (split_braces value) as [|h [|h' l]]; [done| |done].
  by rewrite (Hone h eq_refl) in Hr.
Qed.

(** ** Reserved probe paths *)

Lemma record_nil base kind owned p :
  record base kind owned p = []
  ↔ owned = [] ∧ ∀ c, c ∈ probe_candidates base p → c ∉ RESERVED_PROBE_PATHS.
Proof.
  unfold record. generalize (probe_candidates base p). intros l.
  revert owned. induction l as [|c l IH]; intros owned; simpl.
  - split; [|by intros []]. intros ->. split; [done|]. by intros ? ?%not_elem_of_nil.
  - rewrite IH. destruct (decide (c ∈ RESERVED_PROBE_PATHS)) as [Hc|Hc].
    + rewrite bool_decide_true by done. simpl.
      split; [|intros [_ Hf]; by destruct (Hf c (list_elem_of_here _ _))].
      case_bool_decide as Ho; simpl; intros [Ho' _]; [by rewrite Ho' in Ho; apply not_elem_of_nil in Ho|].
      by apply app_nil in Ho' as [_ ?].
    + rewrite bool_decide_false by done. simpl. split; intros [-> Hf]; (split; [done|]).
      * intros d [->|Hd]%elem_of_cons; auto.
      * intros d Hd. apply Hf. by right.
Qed.

Lemma foldl_record_nil base kind owned ps :
  foldl (record base kind) owned ps = []
  ↔ owned = [] ∧ ∀ p c, p ∈ ps → c ∈ probe_candidates base p → c ∉ RESERVED_PROBE_PATHS.
Proof.
  revert owned. induction ps as [|p ps IH]; intros owned; simpl.
  - split; [|by intros []]. intros ->. split; [done|]. by intros ? ? ?%not_elem_of_nil.
  - rewrite IH, record_nil. split.
    + intros [[-> Hp] Hps]. split; [done|]. intros q c [->|Hq]%elem_of_cons; eauto.
    + intros [-> Hall]. split_and!; [done| |].
      * intros c. apply Hall. by left.
      * intros q c Hq. apply Hall. by right.
Qed.

Lemma starts_with_drop p s : starts_with p s = true → s = p +:+ drop_string (String.length p) s.
Proof.
  revert s. induction p as [|c p IH]; intros [|d s]; simpl; try done.
  intros [->%Ascii.eqb_eq Hp]%andb_true_iff. by rewrite <- IH.
Qed.

Lemma starts_with_app p s : starts_with p (p +:+ s) = true.
Proof. induction p; simpl; [by destruct s|]. by rewrite Ascii.eqb_refl. Qed.

Lemma drop_app p s : drop_string (String.length p) (p +:+ s) = s.
Proof. by induction p; simpl. Qed.

Lemma candidates_reserved base p :
  (∀ c, c ∈ probe_candidates base p → c ∉ RESERVED_PROBE_PATHS)
  ↔ ∀ r, r ∈ RESERVED_PROBE_PATHS → p ≠ r ∧ p ≠ base +:+ r.
Proof.
  unfold probe_candidates. split.
  - intros H r Hr. split; [intros ->; eapply H; [apply js_set_elem; left|done]|]. intros ->.
    eapply (H r); [|done]. apply js_set_elem. right. rewrite starts_with_app, drop_app, andb_true_r.
    assert (is_empty r = false) as Hre.
    { apply elem_of_cons in Hr as [->|Hr%list_elem_of_singleton]; [done|by subst]. }
    destruct base as [|c base]; cbn [is_empty negb String.append]; rewrite Hre; left.
  - intros H c [->|Hc%list_elem_of_singleton]%js_set_elem%elem_of_cons Hr; [by destruct (H p Hr)|].
    revert Hc. destruct (negb (is_empty base) && starts_with base p) eqn:Hb.
    + b2p. apply starts_with_drop in H1 as Hp. destruct (is_empty (drop_string _ p)).
      * intros ->. apply elem_of_cons in Hr as [?|?%list_elem_of_singleton]; done.
      * intros Hc. rewrite <- Hc in Hp. by destruct (H c Hr).
    + destruct p; simpl; [|intros ->; by destruct (H _ Hr)].
      intros ->. apply elem_of_cons in Hr as [?|?%list_elem_of_singleton]; done.
Qed.

(** The build passes exactly when no route, static output or public file sits at a reserved
    probe path, with or without the base path. *)
Theorem probe_paths_unowned_iff app :
  assertProbePathsUnowned app = Returns tt
  ↔ ∀ p r, p ∈ pathnames app ++ staticPathnames app ++ publicPathnames app →
           r ∈ RESERVED_PROBE_PATHS → p ≠ r ∧ p ≠ default "" (basePath app) +:+ r.
Proof.
  unfold assertProbePathsUnowned. cbv zeta.
  set (base := default "" (basePath app)). set (owned := foldl _ _ (publicPathnames app)).
  assert (owned = [] ↔ ∀ p, p ∈ pathnames app ++ staticPathnames app ++ publicPathnames app →
            ∀ r, r ∈ RESERVED_PROBE_PATHS → p ≠ r ∧ p ≠ base +:+ r) as Ho.
  { subst owned. rewrite !foldl_record_nil. split.
    - intros [[[_ H1] H2] H3] p [?|[?|?]%elem_of_app]%elem_of_app; apply candidates_reserved; eauto.
    - intros Hall. split_and!; [done|..]; intros p c Hp; apply candidates_reserved, Hall;
        rewrite !elem_of_app; auto. }
  destruct owned as [|o owned].
  - split; [|done]. intros _ p r Hp Hr. by apply (proj1 Ho).
  - split; [done|]. intros H. assert (o :: owned = []) as Hn; [|done]. apply Ho. eauto.
Qed.

End K8sNames.
