(* ===== verification/PlanTypes.v ===== *)
(** * The composition plan

    Models src/src/composition-plan/types.ts: the authenticated plan a build emits and a deploy
    executes.  A tagged union is an inductive type with one constructor per kind, an interface is a
    record, a string-literal union that is only compared is a string; members that can hold one
    literal only are left to the rendering.  [*_json] is the JavaScript object of a value, with its
    keys in the order the parser's object literals write them. *)
From Stdlib Require Import Ascii String.
From S2P Require Import Prelude JsString Json.
Local Open Scope stdpp_scope.

Module PlanTypes.

Definition COMPOSITION_PLAN_API_VERSION : string := "adapter-k8s.nextjs.org/v1alpha1".
Definition COMPOSITION_PLAN_KIND : string := "CompositionPlan".
Definition MINIMUM_KUBERNETES_VERSION : string := "1.33.0".

(** ** Target *)

Record GcpLocation := mkLocation { location_kind : string; location_name : string }.

Inductive ClusterIdentity :=
| GkeResource (projectId clusterName : string) (location : GcpLocation)
    (expectedKubeSystemUid : option string)
| KubernetesNamespaceUid (uid : string)
| Unverified.

Inductive ClusterAccess :=
| KubeconfigContext (context : string)
| KubeconfigCurrentContext
| GkeGetCredentials (projectId clusterName : string) (location : GcpLocation).

Inductive RegistryAuthentication :=
| AmbientCredentials
| GcloudDockerHelper (registryHost : string).

Inductive RegistryDigestLookup :=
| OciDistribution
| ArtifactRegistryLookup (projectId : string).

Record RegistryPlan := mkRegistry {
  repository : string;
  authentication : RegistryAuthentication;
  digestLookup : RegistryDigestLookup
}.

(** ** Operations *)

Inductive NetworkCidrSource :=
| NotRequired
| StaticCidrs (cidrs : list string)
| NodePodCidrs
| NodeAddresses
| GkePodRange (projectId clusterName : string) (location : GcpLocation)
| GkeNodeSubnet (projectId clusterName : string) (location : GcpLocation).

Record NetworkPlan := mkNetwork { podCidrs : NetworkCidrSource; nodeCidrs : NetworkCidrSource }.

Inductive CacheProvisioning :=
| CacheNone
| CacheExternal
| GcpMemorystore (projectId region name network : string) (sizeGb : Z) (tier security : string).

Inductive CdnInvalidation :=
| CdnNone
| CdnExternal
| GcpCloudCdn (projectId addressName : string).

Record KubernetesObjectRef := mkObjectRef {
  ref_apiVersion : string;
  ref_resource : string;
  ref_name : string;
  ref_namespace : option string
}.

Record KubernetesServiceRef := mkServiceRef {
  service_name : string;
  service_namespace : string;
  service_port : Z
}.

Inductive ConditionLocation :=
| AtObject
| AtParents (controllerName : option string) (minimumCount : option Z)
| AtAncestors (controllerName : string).

(** The readiness entry of kind kubernetes-condition. *)
Record KubernetesCondition := mkCondition {
  condition_object : KubernetesObjectRef;
  conditionsAt : ConditionLocation;
  condition_type : string;
  condition_timeoutSeconds : Z
}.

Inductive RoutingReadiness :=
| ConditionReady (check : KubernetesCondition)
| JobComplete (object : KubernetesObjectRef) (timeoutSeconds : Z)
| DeploymentAvailable (object : KubernetesObjectRef) (timeoutSeconds : Z)
| ServiceEndpoints (service : KubernetesServiceRef) (minimumReady : Z)
| TrafficExtensionReady (projectId extensionName addressName : string).

Inductive RoutingRegistration :=
| RegistrationNone
| GcpTrafficExtensionV1 (projectId extensionName addressName : string).

Inductive Dataplane :=
| PortableHttpOrigin (service : KubernetesServiceRef) (targetPool : string)
    (readiness : list RoutingReadiness)
| ExternalExtProc (transport : string) (readiness : list RoutingReadiness)
| AdapterOwnedEnvoyProxy (service : KubernetesServiceRef) (readiness : list RoutingReadiness).

Definition dataplane_readiness (d : Dataplane) : list RoutingReadiness :=
  match d with
  | PortableHttpOrigin _ _ r | ExternalExtProc _ r | AdapterOwnedEnvoyProxy _ r => r
  end.

Record RoutingPlan := mkRouting {
  protocol : string;
  failurePolicy : string;
  registration : option RoutingRegistration;
  dataplane : Dataplane
}.

Record KubernetesOwnedObject := mkOwned {
  owned_ref : KubernetesObjectRef;
  owned_lifecycle : string;
  owned_releaseLabel : string;
  owned_helmRelease : option (string * string)
}.

Inductive ExternalCleanupOperation :=
| CleanBucket (projectId bucket : string)
| CleanServiceAccount (projectId email : string)
| CleanMemorystore (projectId region name : string)
| CleanTrafficExtension (projectId name : string)
| CleanBackendService (projectId name : string)
| CleanHealthCheck (projectId name : string)
| CleanGlobalAddress (projectId name : string)
| CleanIamRole (projectId roleId : string).

Inductive RetainedExternalResource :=
| RetainedCluster (projectId clusterName : string) (location : GcpLocation)
| RetainedRegistry (projectId region repository : string)
| RetainedCertificates (projectId releasePrefix : string).

Record CleanupPlan := mkCleanup {
  contributedObjects : list KubernetesOwnedObject;
  external : list ExternalCleanupOperation;
  retained : list RetainedExternalResource
}.

Inductive DiagnosticSource :=
| DiagCondition (check : KubernetesCondition) (label : string)
| DiagGatewayAddress (gateway : KubernetesObjectRef)
| DiagAuth (projectId : string)
| DiagGlobalAddress (projectId name : string)
| DiagBucket (projectId bucket : string)
| DiagArtifactRegistry (projectId region repository : string)
| DiagBackendHealth (projectId releasePrefix : string)
| DiagTrafficExtension (projectId extensionName addressName : string)
| DiagBackendServiceShape (projectId name : string)
| DiagHealthCheckShape (projectId name expectedType : string)
| DiagCertificate (projectId name : string).

Record LogSource := mkLog { log_namespace : string; log_releaseName : string }.

(** ** Telemetry *)

Inductive TelemetryActivation :=
| AppInstrumentationHook
| OtelOperator (instrumentation : KubernetesObjectRef)
| ExternalPrecondition (description : string)
| Managed.

Inductive TelemetrySignal :=
| Metric (name instrument : string) (unit_ : option string)
| SpanOrLog (kind name : string).

Inductive TelemetryWorkload :=
| AdapterPool (pool : string)
| AdapterRoutingService
| KubernetesObject (object : KubernetesObjectRef)
| ManagedService (name : string).

Record TelemetrySource := mkTelemetry {
  source_id : string;
  producer_kind : string;
  producer_name : string;
  owner : string;
  activation : TelemetryActivation;
  protocols : list string;
  propagation : list string;
  signals : list TelemetrySignal;
  workloads : list TelemetryWorkload;
  attributes : list (string * string)
}.

(** ** Requirements, manifests and the plan *)

Record KubernetesApiRequirement := mkRequirement {
  req_apiVersion : string;
  req_resource : string;
  req_optional : bool
}.

Record KubernetesManifest := mkManifest {
  m_apiVersion : string;
  m_kind : string;
  m_resource : string;
  m_name : string;
  m_namespace : option string;
  m_labels : option (list (string * string));
  m_annotations : option (list (string * string));
  m_body : option json
}.

Record CompositionPlan := mkPlan {
  releaseName : string;
  namespace : string;
  plan_buildId : string;
  fingerprint : string;
  identity : ClusterIdentity;
  access : ClusterAccess;
  registry : RegistryPlan;
  minimumVersion : string;
  required_resources : list KubernetesApiRequirement;
  objects : list KubernetesManifest;
  readiness : list RoutingReadiness;
  network : NetworkPlan;
  cache : CacheProvisioning;
  cdn : CdnInvalidation;
  routing : RoutingPlan;
  cleanup : CleanupPlan;
  diagnostics : list DiagnosticSource;
  logs : list LogSource;
  telemetry : option (list TelemetrySource)
}.

(** ** The JavaScript objects *)

Definition kind_is (k : string) : string * json := ("kind", JStr k).
Definition text (k v : string) : string * json := (k, JStr v).
Definition int (k : string) (n : Z) : string * json := (k, JNum (NInt n)).
Definition optional (k : string) (v : option json) : obj :=
  match v with Some v => [(k, v)] | None => [] end.
Definition string_map (m : list (string * string)) : json := JObj (map (λ '(k, v), (k, JStr v)) m).
Definition strings (l : list string) : json := JArr (map JStr l).

Definition location_json (l : GcpLocation) : json :=
  JObj [kind_is (location_kind l); text "name" (location_name l)].

(** The members projectId, clusterName and location that several operations share. *)
Definition cluster_fields (p c : string) (l : GcpLocation) : obj :=
  [text "projectId" p; text "clusterName" c; ("location", location_json l)].

Definition identity_json (i : ClusterIdentity) : json :=
  match i with
  | GkeResource p c l uid =>
      JObj (kind_is "gke-resource" :: cluster_fields p c l
            ++ optional "expectedKubeSystemUid" (JStr <$> uid))
  | KubernetesNamespaceUid uid =>
      JObj [kind_is "kubernetes-namespace-uid"; text "namespace" "kube-system"; text "uid" uid]
  | Unverified => JObj [kind_is "unverified"; ("requireExplicitConfirmation", JBool true)]
  end.

Definition access_json (a : ClusterAccess) : json :=
  match a with
  | KubeconfigContext c => JObj [kind_is "kubeconfig-context"; text "context" c]
  | KubeconfigCurrentContext =>
      JObj [kind_is "kubeconfig-current-context"; ("requireExplicitConfirmation", JBool true)]
  | GkeGetCredentials p c l => JObj (kind_is "gke-get-credentials" :: cluster_fields p c l)
  end.

Definition authentication_json (a : RegistryAuthentication) : json :=
  match a with
  | AmbientCredentials => JObj [kind_is "ambient-credentials"]
  | GcloudDockerHelper h => JObj [kind_is "gcloud-docker-helper"; text "registryHost" h]
  end.

Definition digestLookup_json (d : RegistryDigestLookup) : json :=
  match d with
  | OciDistribution => JObj [kind_is "oci-distribution"]
  | ArtifactRegistryLookup p => JObj [kind_is "gcp-artifact-registry"; text "projectId" p]
  end.

Definition registry_json (r : RegistryPlan) : json :=
  JObj [text "repository" (repository r); ("authentication", authentication_json (authentication r));
        ("digestLookup", digestLookup_json (digestLookup r))].

Definition source_json (s : NetworkCidrSource) : json :=
  match s with
  | NotRequired => JObj [kind_is "not-required"]
  | NodePodCidrs => JObj [kind_is "kubernetes-node-pod-cidrs"]
  | StaticCidrs cidrs => JObj [kind_is "static"; ("cidrs", strings cidrs)]
  | NodeAddresses =>
      JObj [kind_is "kubernetes-node-addresses"; ("addressTypes", strings ["InternalIP"])]
  | GkePodRange p c l => JObj (kind_is "gke-pod-range" :: cluster_fields p c l)
  | GkeNodeSubnet p c l => JObj (kind_is "gke-node-subnet" :: cluster_fields p c l)
  end.

Definition network_json (n : NetworkPlan) : json :=
  JObj [("podCidrs", source_json (podCidrs n)); ("nodeCidrs", source_json (nodeCidrs n));
        text "missingSourcePolicy" "fail"].

Definition cache_json (c : CacheProvisioning) : json :=
  match c with
  | CacheNone => JObj [kind_is "none"]
  | CacheExternal => JObj [kind_is "external"; text "lifecycle" "operator-managed"]
  | GcpMemorystore p r n net size tier security =>
      JObj [kind_is "gcp-memorystore"; text "projectId" p; text "region" r; text "name" n;
            text "network" net; int "sizeGb" size; text "tier" tier;
            ("security", JObj [kind_is security])]
  end.

Definition cdn_json (c : CdnInvalidation) : json :=
  match c with
  | CdnNone => JObj [kind_is "none"]
  | CdnExternal => JObj [kind_is "external"; text "lifecycle" "operator-managed"]
  | GcpCloudCdn p a =>
      JObj [kind_is "gcp-cloud-cdn"; text "projectId" p; text "addressName" a;
            text "invalidation" "recorded-cache-tag-or-full-path"; text "failurePolicy" "warn"]
  end.

Definition ref_json (r : KubernetesObjectRef) : json :=
  JObj ([text "apiVersion" (ref_apiVersion r); text "resource" (ref_resource r);
         text "name" (ref_name r)] ++ optional "namespace" (JStr <$> ref_namespace r)).

Definition service_json (s : KubernetesServiceRef) : json :=
  JObj [text "name" (service_name s); text "namespace" (service_namespace s);
        int "port" (service_port s)].

Definition condition_location_json (l : ConditionLocation) : json :=
  match l with
  | AtObject => JObj [kind_is "object"]
  | AtParents c m =>
      JObj (kind_is "parents" :: optional "controllerName" (JStr <$> c)
            ++ optional "minimumCount" ((λ n, JNum (NInt n)) <$> m))
  | AtAncestors c => JObj [kind_is "ancestors"; text "controllerName" c]
  end.

Definition condition_json (c : KubernetesCondition) : json :=
  JObj [kind_is "kubernetes-condition"; ("object", ref_json (condition_object c));
        ("conditionsAt", condition_location_json (conditionsAt c));
        ("condition", JObj [text "type" (condition_type c); text "status" "True";
                            text "observedGeneration" "must-equal-metadata-generation"]);
        int "timeoutSeconds" (condition_timeoutSeconds c)].

(** The members projectId, extensionName and addressName of a traffic extension. *)
Definition extension_fields (p e a : string) : obj :=
  [text "projectId" p; text "extensionName" e; text "addressName" a].

Definition readiness_json (r : RoutingReadiness) : json :=
  match r with
  | ConditionReady c => condition_json c
  | JobComplete o t =>
      JObj [kind_is "kubernetes-job-complete"; ("object", ref_json o); int "timeoutSeconds" t]
  | DeploymentAvailable o t =>
      JObj [kind_is "kubernetes-deployment-available"; ("object", ref_json o); int "timeoutSeconds" t]
  | ServiceEndpoints s m =>
      JObj [kind_is "kubernetes-service-endpoints"; ("service", service_json s); int "minimumReady" m]
  | TrafficExtensionReady p e a =>
      JObj (kind_is "gcp-traffic-extension" :: extension_fields p e a
            ++ [("requireEveryForwardingRule", JBool true)])
  end.

Definition registration_json (r : RoutingRegistration) : json :=
  match r with
  | RegistrationNone => JObj [kind_is "none"]
  | GcpTrafficExtensionV1 p e a => JObj (kind_is "gcp-traffic-extension-v1" :: extension_fields p e a)
  end.

Definition readiness_list_json (l : list RoutingReadiness) : json := JArr (map readiness_json l).

Definition dataplane_json (d : Dataplane) : json :=
  match d with
  | PortableHttpOrigin s pool r =>
      JObj [kind_is "portable-http-origin"; ("service", service_json s); text "targetPool" pool;
            ("readiness", readiness_list_json r)]
  | ExternalExtProc t r =>
      JObj [kind_is "external-ext-proc"; text "transport" t; ("readiness", readiness_list_json r)]
  | AdapterOwnedEnvoyProxy s r =>
      JObj [kind_is "adapter-owned-envoy-proxy"; ("service", service_json s);
            ("readiness", readiness_list_json r)]
  end.

Definition routing_json (r : RoutingPlan) : json :=
  JObj ([text "protocol" (protocol r); text "failurePolicy" (failurePolicy r)]
        ++ optional "registration" (registration_json <$> registration r)
        ++ [("dataplane", dataplane_json (dataplane r))]).

Definition owned_json (o : KubernetesOwnedObject) : json :=
  JObj [("ref", ref_json (owned_ref o)); text "lifecycle" (owned_lifecycle o);
        ("ownership", JObj
          (("releaseLabel", JObj [text "key" "adapter-k8s.dev/release";
                                  text "value" (owned_releaseLabel o)])
           :: optional "helmRelease"
                ((λ '(n, ns), JObj [text "name" n; text "namespace" ns]) <$> owned_helmRelease o)))].

Definition external_json (e : ExternalCleanupOperation) : json :=
  match e with
  | CleanBucket p b => JObj [kind_is "gcp-storage-bucket"; text "projectId" p; text "bucket" b]
  | CleanServiceAccount p e => JObj [kind_is "gcp-service-account"; text "projectId" p; text "email" e]
  | CleanMemorystore p r n =>
      JObj [kind_is "gcp-memorystore"; text "projectId" p; text "region" r; text "name" n]
  | CleanTrafficExtension p n =>
      JObj [kind_is "gcp-traffic-extension"; text "projectId" p; text "name" n; text "location" "global"]
  | CleanBackendService p n =>
      JObj [kind_is "gcp-backend-service"; text "projectId" p; text "name" n; text "scope" "global"]
  | CleanHealthCheck p n =>
      JObj [kind_is "gcp-health-check"; text "projectId" p; text "name" n; text "scope" "global"]
  | CleanGlobalAddress p n => JObj [kind_is "gcp-global-address"; text "projectId" p; text "name" n]
  | CleanIamRole p r => JObj [kind_is "gcp-custom-iam-role"; text "projectId" p; text "roleId" r]
  end.

Definition retained_json (r : RetainedExternalResource) : json :=
  match r with
  | RetainedCluster p c l => JObj (kind_is "gke-cluster" :: cluster_fields p c l)
  | RetainedRegistry p r repo =>
      JObj [kind_is "gcp-artifact-registry"; text "projectId" p; text "region" r; text "repository" repo]
  | RetainedCertificates p r =>
      JObj [kind_is "gcp-certificate-manager"; text "projectId" p; text "releasePrefix" r]
  end.

Definition cleanup_json (c : CleanupPlan) : json :=
  JObj [("kubernetes", JObj [text "strategy" "adapter-release-v1";
                             ("contributedObjects", JArr (map owned_json (contributedObjects c)))]);
        ("external", JArr (map external_json (external c)));
        ("retained", JArr (map retained_json (retained c)))].

Definition diagnostic_json (d : DiagnosticSource) : json :=
  match d with
  | DiagCondition c l =>
      JObj [kind_is "kubernetes-condition"; ("check", condition_json c); text "label" l]
  | DiagGatewayAddress g => JObj [kind_is "kubernetes-gateway-address"; ("gateway", ref_json g)]
  | DiagAuth p => JObj [kind_is "gcp-auth"; text "projectId" p]
  | DiagGlobalAddress p n => JObj [kind_is "gcp-global-address"; text "projectId" p; text "name" n]
  | DiagBucket p b => JObj [kind_is "gcp-storage-bucket"; text "projectId" p; text "bucket" b]
  | DiagArtifactRegistry p r repo =>
      JObj [kind_is "gcp-artifact-registry"; text "projectId" p; text "region" r; text "repository" repo]
  | DiagBackendHealth p r =>
      JObj [kind_is "gcp-backend-health"; text "projectId" p; text "releasePrefix" r]
  | DiagTrafficExtension p e a => JObj (kind_is "gcp-traffic-extension" :: extension_fields p e a)
  | DiagBackendServiceShape p n =>
      JObj [kind_is "gcp-backend-service-shape"; text "projectId" p; text "name" n;
            text "loadBalancingScheme" "EXTERNAL_MANAGED"; ("requireBackend", JBool true)]
  | DiagHealthCheckShape p n t =>
      JObj [kind_is "gcp-health-check-shape"; text "projectId" p; text "name" n; text "expectedType" t]
  | DiagCertificate p n => JObj [kind_is "gcp-certificate"; text "projectId" p; text "name" n]
  end.

Definition log_json (l : LogSource) : json :=
  JObj [kind_is "kubernetes-pods"; text "namespace" (log_namespace l);
        ("selector", JObj [text "releaseName" (log_releaseName l)]); text "containers" "all"].

Definition activation_json (a : TelemetryActivation) : json :=
  match a with
  | AppInstrumentationHook => JObj [kind_is "app-instrumentation-hook"]
  | OtelOperator i => JObj [kind_is "otel-operator"; ("instrumentation", ref_json i)]
  | ExternalPrecondition d => JObj [kind_is "external-precondition"; text "description" d]
  | Managed => JObj [kind_is "managed"]
  end.

Definition signal_json (s : TelemetrySignal) : json :=
  match s with
  | Metric n i u =>
      JObj ([kind_is "metric"; text "name" n; text "instrument" i] ++ optional "unit" (JStr <$> u))
  | SpanOrLog k n => JObj [kind_is k; text "name" n]
  end.

Definition signal_id (s : TelemetrySignal) : string :=
  match s with Metric n _ _ => "metric:" +:+ n | SpanOrLog k n => k +:+ ":" +:+ n end.

Definition workload_json (w : TelemetryWorkload) : json :=
  match w with
  | AdapterPool p => JObj [kind_is "adapter-pool"; text "pool" p]
  | AdapterRoutingService => JObj [kind_is "adapter-routing-service"]
  | KubernetesObject o => JObj [kind_is "kubernetes-object"; ("object", ref_json o)]
  | ManagedService n => JObj [kind_is "managed-service"; text "name" n]
  end.

Definition telemetry_json (t : TelemetrySource) : json :=
  JObj [text "id" (source_id t);
        ("producer", JObj [kind_is (producer_kind t); text "name" (producer_name t)]);
        text "owner" (owner t); ("activation", activation_json (activation t));
        ("protocols", strings (protocols t)); ("propagation", strings (propagation t));
        ("signals", JArr (map signal_json (signals t)));
        ("workloads", JArr (map workload_json (workloads t)));
        ("attributes", string_map (attributes t))].

Definition requirement_json (r : KubernetesApiRequirement) : json :=
  JObj [text "apiVersion" (req_apiVersion r); text "resource" (req_resource r);
        ("optional", JBool (req_optional r))].

Definition manifest_json (m : KubernetesManifest) : json :=
  JObj ([text "apiVersion" (m_apiVersion m); text "kind" (m_kind m); text "resource" (m_resource m);
         ("metadata", JObj (text "name" (m_name m)
            :: optional "namespace" (JStr <$> m_namespace m)
            ++ optional "labels" (string_map <$> m_labels m)
            ++ optional "annotations" (string_map <$> m_annotations m)))]
        ++ optional "body" (m_body m)).

Definition plan_json (p : CompositionPlan) : json :=
  JObj [text "apiVersion" COMPOSITION_PLAN_API_VERSION; kind_is COMPOSITION_PLAN_KIND;
        ("metadata", JObj [text "releaseName" (releaseName p); text "namespace" (namespace p);
                           text "buildId" (plan_buildId p)]);
        ("target", JObj [text "fingerprint" (fingerprint p); ("identity", identity_json (identity p));
                         ("access", access_json (access p)); ("registry", registry_json (registry p))]);
        ("requirements", JObj [("kubernetes", JObj [text "minimumVersion" (minimumVersion p);
            ("resources", JArr (map requirement_json (required_resources p)))])]);
        ("operations", JObj
          ([("resources", JObj [("objects", JArr (map manifest_json (objects p)));
                                ("readiness", readiness_list_json (readiness p))]);
            ("network", network_json (network p)); ("cache", cache_json (cache p));
            ("cdn", cdn_json (cdn p)); ("routing", routing_json (routing p));
            ("cleanup", cleanup_json (cleanup p));
            ("diagnostics", JArr (map diagnostic_json (diagnostics p)));
            ("logs", JArr (map log_json (logs p)))]
           ++ optional "telemetry" ((λ l, JArr (map telemetry_json l)) <$> telemetry p)))].

End PlanTypes.
