(* ===== verification/PlanParse.v ===== *)
(** * The strict parser of composition plans

    Models src/src/composition-plan/parse.ts and routing-invariants.ts.  A parser takes a property
    value ([None] is undefined) and its path, and returns a value or throws an Error, which is its
    message; the members of an object are parsed in the order the source writes them, so the first
    error is the source's. *)
From Stdlib Require Import Ascii String.
From S2P Require Import Prelude JsString Regex Json K8sNames PlanTypes.
Import K8sNames PlanTypes.
Local Open Scope stdpp_scope.
Local Open Scope js_scope.

Module PlanParse.

Abbreviation result := (outcome string).

Definition DIGEST_RE : string := "^sha256:[a-f0-9]{64}$".
Definition KUBERNETES_VERSION_RE : string := "^v[0-9][a-z0-9]*$".
Definition RESOURCE_RE : string := "^[a-z][a-z0-9-]{0,62}$".
Definition SERVICE_ACCOUNT_EMAIL_RE : string :=
  "^[a-z][a-z0-9-]{0,62}@[a-z][a-z0-9-]{4,28}[a-z0-9]\.iam\.gserviceaccount\.com$".
Definition TELEMETRY_ID_RE : string := "^[a-z][a-z0-9]*(?:[.-][a-z0-9]+)*$".
Definition OTEL_METRIC_NAME_RE : string := "^[A-Za-z][A-Za-z0-9_.-]{0,254}$".
Definition OTEL_ATTRIBUTE_KEY_RE : string := "^[a-z][a-z0-9_.-]{0,254}$".
Definition LABEL_VALUE_RE : string := "^[A-Za-z0-9](?:[-A-Za-z0-9_.]*[A-Za-z0-9])?$".
Definition KIND_RE : string := "^[A-Z][A-Za-z0-9]*$".

(** ** Primitives *)

Definition fail {A} (path message : string) : result A :=
  Throws ("Invalid composition plan at " +:+ path +:+ ": " +:+ message).

Definition object (value : option json) (path : string) : result obj :=
  match value with
  | Some (JObj fs) => Returns fs
  | _ => fail path "expected an object"
  end.

Definition unknown_keys (value : obj) (allowed : list string) : list string :=
  filter (λ key, key ∉ allowed) value.*1.

Definition exactKeys (value : obj) (allowed : list string) (path : string) : result unit :=
  match unknown_keys value allowed with
  | [] => Returns tt
  | unknown => fail path ("unknown field" +:+ (if (length unknown =? 1)%nat then "" else "s") +:+ ": "
                 +:+ join ", " unknown)
  end.

Definition string_ (value : option json) (path : string) : result string :=
  match value with
  | Some (JStr s) => if is_empty s then fail path "expected a non-empty string" else Returns s
  | _ => fail path "expected a non-empty string"
  end.

Definition nat_text (n : nat) : string := z_text (Z.of_nat n).

Definition is_control (c : ascii) : bool := (code c <=? 31)%nat || (code c =? 127)%nat.

Definition safeText (value : option json) (path : string) (maxLength : nat) : result string :=
  let! parsed := string_ value path in
  let hasControlCharacter := negb (all_chars (λ c, negb (is_control c)) parsed) in
  if (maxLength <? String.length parsed)%nat || hasControlCharacter || starts_with "-" parsed
  then fail path ("expected at most " +:+ nat_text maxLength +:+ " printable characters and no leading "
         +:+ in_quotes "-")
  else Returns parsed.

(** literal, for the two types of expected value. *)
Definition literal (value : option json) (expected : json) (path : string) : result unit :=
  match value, expected with
  | Some (JStr s), JStr e => if String.eqb s e then Returns tt else fail path ("expected " +:+ stringify expected)
  | Some (JBool b), JBool e => if Bool.eqb b e then Returns tt else fail path ("expected " +:+ stringify expected)
  | _, _ => fail path ("expected " +:+ stringify expected)
  end.

Definition oneOf (value : option json) (expected : list string) (path : string) : result string :=
  let bad := fail path ("expected one of " +:+ join ", " (map json_quote expected)) in
  match value with
  | Some (JStr s) => if bool_decide (s ∈ expected) then Returns s else bad
  | _ => bad
  end.

Definition integer (value : option json) (path : string) (minimum maximum : Z) : result Z :=
  let bad := fail path ("expected an integer from " +:+ z_text minimum +:+ " to " +:+ z_text maximum) in
  match value with
  | Some (JNum (NInt n)) => if (n <? minimum)%Z || (maximum <? n)%Z then bad else Returns n
  | _ => bad
  end.

(** map with the index in the path; the first error wins. *)
Fixpoint parse_entries {A} (parse : option json → string → result A) (path : string) (index : nat)
    (l : list json) : result (list A) :=
  match l with
  | [] => Returns []
  | entry :: l' =>
      let! x := parse (Some entry) (path +:+ "[" +:+ nat_text index +:+ "]") in
      let! xs := parse_entries parse path (S index) l' in
      Returns (x :: xs)
  end.

Definition array {A} (value : option json) (path : string) (parse : option json → string → result A)
    (maximum : nat) : result (list A) :=
  match value with
  | Some (JArr l) =>
      if (maximum <? length l)%nat then fail path ("expected at most " +:+ nat_text maximum +:+ " entries")
      else parse_entries parse path 0 l
  | _ => fail path "expected an array"
  end.

Definition validated (value : option json) (path : string) (check : string → result unit) : result string :=
  let! parsed := string_ value path in
  match check parsed with
  | Returns _ => Returns parsed
  | Throws message => fail path message
  end.

Definition assertSafeApiVersion (apiVersion : string) : result unit :=
  let parts := split_on "/" apiVersion in
  let! _ := match parts with
            | [group; _] => assertSafeKubernetesObjectName (JStr group) "Kubernetes API group"
            | [_] => Returns tt
            | _ => Throws "invalid Kubernetes apiVersion"
            end in
  if re_test KUBERNETES_VERSION_RE (List.last parts "") then Returns tt
  else Throws "invalid Kubernetes apiVersion".

(** optionalString, with a check and without. *)
Definition optionalString (value : obj) (key path : string) (check : option (string → result unit))
    : result (option string) :=
  match prop value key with
  | None => Returns None
  | v =>
      let! s := match check with
                | Some check => validated v (path +:+ "." +:+ key) check
                | None => safeText v (path +:+ "." +:+ key) 253
                end in
      Returns (Some s)
  end.

(** A member parsed when the object has the key. *)
Definition when_own {A} (fs : obj) (key : string) (parse : option json → string → result A) (path : string)
    : result (option A) :=
  match prop fs key with
  | None => Returns None
  | v => let! x := parse v path in Returns (Some x)
  end.

(** The checks whose argument has type unknown, and those with a fixed field name. *)
Definition namespaceCheck (s : string) : result unit := assertSafeNamespace (JStr s).
Definition serviceNameCheck (s : string) : result unit := assertSafeServiceName (JStr s).
Definition objectNameCheck (s : string) : result unit :=
  assertSafeKubernetesObjectName (JStr s) "Kubernetes object name".
Definition addressNameCheck (s : string) : result unit :=
  assertSafeGcpResourceName (JStr s) "global address name".
Definition extensionNameCheck (s : string) : result unit :=
  assertSafeGcpResourceName (JStr s) "traffic extension name".

Definition unknown_operation {A} (path what kind : string) : result A :=
  fail (path +:+ ".kind") ("unknown " +:+ what +:+ " " +:+ json_quote kind).

(** ** Target *)

Definition parseGcpLocation (value : option json) (path : string) : result GcpLocation :=
  let! parsed := object value path in
  let! _ := exactKeys parsed ["kind"; "name"] path in
  let! kind := oneOf (prop parsed "kind") ["region"; "zone"] (path +:+ ".kind") in
  let! name := validated (prop parsed "name") (path +:+ ".name") assertSafeRegion in
  Returns (mkLocation kind name).

Definition projectId_of (parsed : obj) (path : string) : result string :=
  validated (prop parsed "projectId") (path +:+ ".projectId") assertSafeProjectId.

(** The members projectId, clusterName and location, in this order. *)
Definition cluster_of (parsed : obj) (path : string) : result (string * string * GcpLocation) :=
  let! p := projectId_of parsed path in
  let! c := safeText (prop parsed "clusterName") (path +:+ ".clusterName") 63 in
  let! l := parseGcpLocation (prop parsed "location") (path +:+ ".location") in
  Returns (p, c, l).

Definition parseClusterIdentity (value : option json) (path : string) : result ClusterIdentity :=
  let! parsed := object value path in
  let! kind := string_ (prop parsed "kind") (path +:+ ".kind") in
  if String.eqb kind "gke-resource" then
    let! _ := exactKeys parsed ["kind"; "projectId"; "clusterName"; "location"; "expectedKubeSystemUid"] path in
    let! uid := optionalString parsed "expectedKubeSystemUid" path None in
    let! pcl := cluster_of parsed path in
    let '(p, c, l) := pcl in
    Returns (GkeResource p c l uid)
  else if String.eqb kind "kubernetes-namespace-uid" then
    let! _ := exactKeys parsed ["kind"; "namespace"; "uid"] path in
    let! _ := literal (prop parsed "namespace") (JStr "kube-system") (path +:+ ".namespace") in
    let! uid := safeText (prop parsed "uid") (path +:+ ".uid") 128 in
    Returns (KubernetesNamespaceUid uid)
  else if String.eqb kind "unverified" then
    let! _ := exactKeys parsed ["kind"; "requireExplicitConfirmation"] path in
    let! _ := literal (prop parsed "requireExplicitConfirmation") (JBool true)
                (path +:+ ".requireExplicitConfirmation") in
    Returns Unverified
  else unknown_operation path "cluster identity operation" kind.

Definition parseClusterAccess (value : option json) (path : string) : result ClusterAccess :=
  let! parsed := object value path in
  let! kind := string_ (prop parsed "kind") (path +:+ ".kind") in
  if String.eqb kind "kubeconfig-context" then
    let! _ := exactKeys parsed ["kind"; "context"] path in
    let! context := safeText (prop parsed "context") (path +:+ ".context") 253 in
    Returns (KubeconfigContext context)
  else if String.eqb kind "kubeconfig-current-context" then
    let! _ := exactKeys parsed ["kind"; "requireExplicitConfirmation"] path in
    let! _ := literal (prop parsed "requireExplicitConfirmation") (JBool true)
                (path +:+ ".requireExplicitConfirmation") in
    Returns KubeconfigCurrentContext
  else if String.eqb kind "gke-get-credentials" then
    let! _ := exactKeys parsed ["kind"; "projectId"; "clusterName"; "location"] path in
    let! pcl := cluster_of parsed path in
    let '(p, c, l) := pcl in
    Returns (GkeGetCredentials p c l)
  else unknown_operation path "cluster access operation" kind.

Definition parseRegistryAuthentication (value : option json) (path : string) : result RegistryAuthentication :=
  let! parsed := object value path in
  let! kind := string_ (prop parsed "kind") (path +:+ ".kind") in
  if String.eqb kind "ambient-credentials" then
    let! _ := exactKeys parsed ["kind"] path in
    Returns AmbientCredentials
  else if String.eqb kind "gcloud-docker-helper" then
    let! _ := exactKeys parsed ["kind"; "registryHost"] path in
    let! host := safeText (prop parsed "registryHost") (path +:+ ".registryHost") 253 in
    Returns (GcloudDockerHelper host)
  else unknown_operation path "registry authentication operation" kind.

Definition parseRegistryDigestLookup (value : option json) (path : string) : result RegistryDigestLookup :=
  let! parsed := object value path in
  let! kind := string_ (prop parsed "kind") (path +:+ ".kind") in
  if String.eqb kind "oci-distribution" then
    let! _ := exactKeys parsed ["kind"] path in
    Returns OciDistribution
  else if String.eqb kind "gcp-artifact-registry" then
    let! _ := exactKeys parsed ["kind"; "projectId"] path in
    let! p := projectId_of parsed path in
    Returns (ArtifactRegistryLookup p)
  else unknown_operation path "registry digest operation" kind.

Definition parseRegistry (value : option json) (path : string) : result RegistryPlan :=
  let! parsed := object value path in
  let! _ := exactKeys parsed ["repository"; "authentication"; "digestLookup"] path in
  let! repository := validated (prop parsed "repository") (path +:+ ".repository") assertSafeImageRegistry in
  let! authentication :=
    parseRegistryAuthentication (prop parsed "authentication") (path +:+ ".authentication") in
  let! digestLookup := parseRegistryDigestLookup (prop parsed "digestLookup") (path +:+ ".digestLookup") in
  Returns (mkRegistry repository authentication digestLookup).

(** ** Network, cache and CDN *)

Section Network.
(** net.isIP of node:net *)
Variable isIP : string → Z.

Definition parse_cidr (entry : option json) (entryPath : string) : result string :=
  let! cidr := string_ entry entryPath in
  match assertSafeCidr isIP (JStr cidr) entryPath with
  | Returns _ => Returns cidr
  | Throws _ => fail entryPath "expected an IPv4 or IPv6 CIDR"
  end.

Definition parseNetworkSource (value : option json) (path : string) : result NetworkCidrSource :=
  let! parsed := object value path in
  let! kind := string_ (prop parsed "kind") (path +:+ ".kind") in
  if String.eqb kind "not-required" then
    let! _ := exactKeys parsed ["kind"] path in Returns NotRequired
  else if String.eqb kind "kubernetes-node-pod-cidrs" then
    let! _ := exactKeys parsed ["kind"] path in Returns NodePodCidrs
  else if String.eqb kind "static" then
    let! _ := exactKeys parsed ["kind"; "cidrs"] path in
    let! cidrs := array (prop parsed "cidrs") (path +:+ ".cidrs") parse_cidr 256 in
    if (length cidrs =? 0)%nat then fail (path +:+ ".cidrs") "expected at least one CIDR"
    else if negb (length (js_set cidrs) =? length cidrs)%nat then fail (path +:+ ".cidrs") "duplicate CIDR"
    else Returns (StaticCidrs cidrs)
  else if String.eqb kind "kubernetes-node-addresses" then
    let! _ := exactKeys parsed ["kind"; "addressTypes"] path in
    match prop parsed "addressTypes" with
    | Some (JArr [addressType]) =>
        let! _ := literal (Some addressType) (JStr "InternalIP") (path +:+ ".addressTypes[0]") in
        Returns NodeAddresses
    | _ => fail (path +:+ ".addressTypes") ("expected [" +:+ in_quotes "InternalIP" +:+ "]")
    end
  else if String.eqb kind "gke-pod-range" then
    let! _ := exactKeys parsed ["kind"; "projectId"; "clusterName"; "location"] path in
    let! pcl := cluster_of parsed path in
    let '(p, c, l) := pcl in Returns (GkePodRange p c l)
  else if String.eqb kind "gke-node-subnet" then
    let! _ := exactKeys parsed ["kind"; "projectId"; "clusterName"; "location"] path in
    let! pcl := cluster_of parsed path in
    let '(p, c, l) := pcl in Returns (GkeNodeSubnet p c l)
  else unknown_operation path "network source operation" kind.

Definition parseNetwork (value : option json) (path : string) : result NetworkPlan :=
  let! parsed := object value path in
  let! _ := exactKeys parsed ["podCidrs"; "nodeCidrs"; "missingSourcePolicy"] path in
  let! pods := parseNetworkSource (prop parsed "podCidrs") (path +:+ ".podCidrs") in
  let! nodes := parseNetworkSource (prop parsed "nodeCidrs") (path +:+ ".nodeCidrs") in
  let! _ := literal (prop parsed "missingSourcePolicy") (JStr "fail") (path +:+ ".missingSourcePolicy") in
  Returns (mkNetwork pods nodes).
End Network.

Definition parseCache (value : option json) (path : string) : result CacheProvisioning :=
  let! parsed := object value path in
  let! kind := string_ (prop parsed "kind") (path +:+ ".kind") in
  if String.eqb kind "none" then
    let! _ := exactKeys parsed ["kind"] path in Returns CacheNone
  else if String.eqb kind "external" then
    let! _ := exactKeys parsed ["kind"; "lifecycle"] path in
    let! _ := literal (prop parsed "lifecycle") (JStr "operator-managed") (path +:+ ".lifecycle") in
    Returns CacheExternal
  else if String.eqb kind "gcp-memorystore" then
    let! _ := exactKeys parsed
      ["kind"; "projectId"; "region"; "name"; "network"; "sizeGb"; "tier"; "security"] path in
    let! security := object (prop parsed "security") (path +:+ ".security") in
    let! _ := exactKeys security ["kind"] (path +:+ ".security") in
    let! p := projectId_of parsed path in
    let! region := validated (prop parsed "region") (path +:+ ".region") assertSafeRegion in
    let! name := safeText (prop parsed "name") (path +:+ ".name") 63 in
    let! network := safeText (prop parsed "network") (path +:+ ".network") 253 in
    let! sizeGb := integer (prop parsed "sizeGb") (path +:+ ".sizeGb") 1 300 in
    let! tier := oneOf (prop parsed "tier") ["BASIC"; "STANDARD_HA"] (path +:+ ".tier") in
    let! security := oneOf (prop security "kind") ["auth-tls-required"; "legacy-plaintext-explicit-opt-out"]
                       (path +:+ ".security.kind") in
    Returns (GcpMemorystore p region name network sizeGb tier security)
  else unknown_operation path "cache operation" kind.

Definition parseCdn (value : option json) (path : string) : result CdnInvalidation :=
  let! parsed := object value path in
  let! kind := string_ (prop parsed "kind") (path +:+ ".kind") in
  if String.eqb kind "none" then
    let! _ := exactKeys parsed ["kind"] path in Returns CdnNone
  else if String.eqb kind "external" then
    let! _ := exactKeys parsed ["kind"; "lifecycle"] path in
    let! _ := literal (prop parsed "lifecycle") (JStr "operator-managed") (path +:+ ".lifecycle") in
    Returns CdnExternal
  else if String.eqb kind "gcp-cloud-cdn" then
    let! _ := exactKeys parsed ["kind"; "projectId"; "addressName"; "invalidation"; "failurePolicy"] path in
    let! p := projectId_of parsed path in
    let! a := validated (prop parsed "addressName") (path +:+ ".addressName") addressNameCheck in
    let! _ := literal (prop parsed "invalidation") (JStr "recorded-cache-tag-or-full-path")
                (path +:+ ".invalidation") in
    let! _ := literal (prop parsed "failurePolicy") (JStr "warn") (path +:+ ".failurePolicy") in
    Returns (GcpCloudCdn p a)
  else unknown_operation path "CDN operation" kind.

(** ** Kubernetes references and readiness *)

Definition ref_name_check (apiVersion resource : string) (candidate : string) : result unit :=
  if String.eqb apiVersion "v1" && String.eqb resource "services" then serviceNameCheck candidate
  else if String.eqb apiVersion "v1" && String.eqb resource "namespaces" then namespaceCheck candidate
  else objectNameCheck candidate.

Definition resource_of (parsed : obj) (path : string) : result string :=
  let! resource := string_ (prop parsed "resource") (path +:+ ".resource") in
  if re_test RESOURCE_RE resource then Returns resource
  else fail (path +:+ ".resource") "invalid Kubernetes resource name".

Definition parseKubernetesObjectRef (value : option json) (path : string) : result KubernetesObjectRef :=
  let! parsed := object value path in
  let! _ := exactKeys parsed ["apiVersion"; "resource"; "name"; "namespace"] path in
  let! apiVersion := validated (prop parsed "apiVersion") (path +:+ ".apiVersion") assertSafeApiVersion in
  let! resource := resource_of parsed path in
  let! name := validated (prop parsed "name") (path +:+ ".name") (ref_name_check apiVersion resource) in
  let! namespace := optionalString parsed "namespace" path (Some namespaceCheck) in
  Returns (mkObjectRef apiVersion resource name namespace).

Definition parseKubernetesServiceRef (value : option json) (path : string) : result KubernetesServiceRef :=
  let! parsed := object value path in
  let! _ := exactKeys parsed ["name"; "namespace"; "port"] path in
  let! name := validated (prop parsed "name") (path +:+ ".name") serviceNameCheck in
  let! namespace := validated (prop parsed "namespace") (path +:+ ".namespace") namespaceCheck in
  let! port := integer (prop parsed "port") (path +:+ ".port") 1 65535 in
  Returns (mkServiceRef name namespace port).

Definition parseConditionLocation (value : option json) (path : string) : result ConditionLocation :=
  let! parsed := object value path in
  let! kind := string_ (prop parsed "kind") (path +:+ ".kind") in
  if String.eqb kind "object" then
    let! _ := exactKeys parsed ["kind"] path in Returns AtObject
  else if String.eqb kind "parents" then
    let! _ := exactKeys parsed ["kind"; "controllerName"; "minimumCount"] path in
    let! controllerName := optionalString parsed "controllerName" path None in
    let! minimumCount := when_own parsed "minimumCount" (λ v p, integer v p 1 64) (path +:+ ".minimumCount") in
    Returns (AtParents controllerName minimumCount)
  else if String.eqb kind "ancestors" then
    let! _ := exactKeys parsed ["kind"; "controllerName"] path in
    let! controllerName := safeText (prop parsed "controllerName") (path +:+ ".controllerName") 253 in
    Returns (AtAncestors controllerName)
  else unknown_operation path "condition location" kind.

Definition timeout_of (parsed : obj) (path : string) : result Z :=
  integer (prop parsed "timeoutSeconds") (path +:+ ".timeoutSeconds") 1 3600.

(** The kubernetes-condition case. *)
Definition parseCondition (parsed : obj) (path : string) : result KubernetesCondition :=
  let! _ := exactKeys parsed ["kind"; "object"; "conditionsAt"; "condition"; "timeoutSeconds"] path in
  let! condition := object (prop parsed "condition") (path +:+ ".condition") in
  let! _ := exactKeys condition ["type"; "status"; "observedGeneration"] (path +:+ ".condition") in
  let! obj := parseKubernetesObjectRef (prop parsed "object") (path +:+ ".object") in
  let! at_ := parseConditionLocation (prop parsed "conditionsAt") (path +:+ ".conditionsAt") in
  let! type := safeText (prop condition "type") (path +:+ ".condition.type") 63 in
  let! _ := literal (prop condition "status") (JStr "True") (path +:+ ".condition.status") in
  let! _ := literal (prop condition "observedGeneration") (JStr "must-equal-metadata-generation")
              (path +:+ ".condition.observedGeneration") in
  let! timeout := timeout_of parsed path in
  Returns (mkCondition obj at_ type timeout).

(** The members projectId, extensionName and addressName, in this order. *)
Definition extension_of (parsed : obj) (path : string) : result (string * string * string) :=
  let! p := projectId_of parsed path in
  let! e := validated (prop parsed "extensionName") (path +:+ ".extensionName") extensionNameCheck in
  let! a := validated (prop parsed "addressName") (path +:+ ".addressName") addressNameCheck in
  Returns (p, e, a).

(** The cases kubernetes-job-complete and kubernetes-deployment-available. *)
Definition object_timeout_of (parsed : obj) (path : string) : result (KubernetesObjectRef * Z) :=
  let! _ := exactKeys parsed ["kind"; "object"; "timeoutSeconds"] path in
  let! o := parseKubernetesObjectRef (prop parsed "object") (path +:+ ".object") in
  let! t := timeout_of parsed path in
  Returns (o, t).

Definition parseRoutingReadiness (value : option json) (path : string) : result RoutingReadiness :=
  let! parsed := object value path in
  let! kind := string_ (prop parsed "kind") (path +:+ ".kind") in
  if String.eqb kind "kubernetes-condition" then
    let! c := parseCondition parsed path in Returns (ConditionReady c)
  else if String.eqb kind "kubernetes-job-complete" then
    let! ot := object_timeout_of parsed path in Returns (JobComplete ot.1 ot.2)
  else if String.eqb kind "kubernetes-deployment-available" then
    let! ot := object_timeout_of parsed path in Returns (DeploymentAvailable ot.1 ot.2)
  else if String.eqb kind "kubernetes-service-endpoints" then
    let! _ := exactKeys parsed ["kind"; "service"; "minimumReady"] path in
    let! s := parseKubernetesServiceRef (prop parsed "service") (path +:+ ".service") in
    let! m := integer (prop parsed "minimumReady") (path +:+ ".minimumReady") 1 10000 in
    Returns (ServiceEndpoints s m)
  else if String.eqb kind "gcp-traffic-extension" then
    let! _ := exactKeys parsed
      ["kind"; "projectId"; "extensionName"; "addressName"; "requireEveryForwardingRule"] path in
    let! pea := extension_of parsed path in
    let '(p, e, a) := pea in
    let! _ := literal (prop parsed "requireEveryForwardingRule") (JBool true)
                (path +:+ ".requireEveryForwardingRule") in
    Returns (TrafficExtensionReady p e a)
  else unknown_operation path "routing readiness operation" kind.

(** ** Routing *)

Definition parseRoutingRegistration (value : option json) (path : string) : result RoutingRegistration :=
  let! parsed := object value path in
  let! kind := string_ (prop parsed "kind") (path +:+ ".kind") in
  if String.eqb kind "none" then
    let! _ := exactKeys parsed ["kind"] path in Returns RegistrationNone
  else if String.eqb kind "gcp-traffic-extension-v1" then
    let! _ := exactKeys parsed ["kind"; "projectId"; "extensionName"; "addressName"] path in
    let! pea := extension_of parsed path in
    let '(p, e, a) := pea in Returns (GcpTrafficExtensionV1 p e a)
  else unknown_operation path "routing registration operation" kind.

Definition is_registered (r : option RoutingRegistration) : bool :=
  match r with Some (GcpTrafficExtensionV1 _ _ _) => true | _ => false end.

Definition readiness_of (dataplane : obj) (path : string) : result (list RoutingReadiness) :=
  array (prop dataplane "readiness") (path +:+ ".dataplane.readiness") parseRoutingReadiness 64.

(** The dataplanes of the envoy-ext-proc-v3 protocol. *)
Definition parseDataplane (dataplane : obj) (kind path : string) : result Dataplane :=
  if String.eqb kind "external-ext-proc" then
    let! _ := exactKeys dataplane ["kind"; "transport"; "readiness"] (path +:+ ".dataplane") in
    let! transport := oneOf (prop dataplane "transport") ["tls"; "h2c"] (path +:+ ".dataplane.transport") in
    let! r := readiness_of dataplane path in
    Returns (ExternalExtProc transport r)
  else if String.eqb kind "adapter-owned-envoy-proxy" then
    let! _ := exactKeys dataplane ["kind"; "service"; "readiness"] (path +:+ ".dataplane") in
    let! s := parseKubernetesServiceRef (prop dataplane "service") (path +:+ ".dataplane.service") in
    let! r := readiness_of dataplane path in
    Returns (AdapterOwnedEnvoyProxy s r)
  else fail (path +:+ ".dataplane.kind") ("unknown routing dataplane operation " +:+ json_quote kind).

Definition is_tls_ext_proc (d : Dataplane) : bool :=
  match d with ExternalExtProc t _ => String.eqb t "tls" | _ => false end.

Definition parseRouting (value : option json) (path : string) : result RoutingPlan :=
  let! parsed := object value path in
  let! _ := exactKeys parsed ["protocol"; "failurePolicy"; "registration"; "dataplane"] path in
  let! protocol := oneOf (prop parsed "protocol") ["pool-local-v1"; "envoy-ext-proc-v3"]
                     (path +:+ ".protocol") in
  let! dataplane := object (prop parsed "dataplane") (path +:+ ".dataplane") in
  let! kind := string_ (prop dataplane "kind") (path +:+ ".dataplane.kind") in
  let! registration := when_own parsed "registration" parseRoutingRegistration (path +:+ ".registration") in
  if String.eqb protocol "pool-local-v1" then
    if is_registered registration
    then fail (path +:+ ".registration") "pool-local-v1 cannot register an external routing tier"
    else if negb (String.eqb kind "portable-http-origin")
    then fail (path +:+ ".dataplane.kind")
           ("pool-local-v1 requires " +:+ in_quotes "portable-http-origin")
    else
      let! _ := exactKeys dataplane ["kind"; "service"; "targetPool"; "readiness"] (path +:+ ".dataplane") in
      let! _ := literal (prop parsed "failurePolicy") (JStr "closed") (path +:+ ".failurePolicy") in
      let! s := parseKubernetesServiceRef (prop dataplane "service") (path +:+ ".dataplane.service") in
      let! pool := validated (prop dataplane "targetPool") (path +:+ ".dataplane.targetPool")
                     assertSafePoolName in
      let! r := readiness_of dataplane path in
      Returns (mkRouting protocol "closed" registration (PortableHttpOrigin s pool r))
  else
    let! parsedDataplane := parseDataplane dataplane kind path in
    if is_registered registration && negb (is_tls_ext_proc parsedDataplane)
    then fail (path +:+ ".registration")
           "gcp-traffic-extension-v1 requires an external-ext-proc dataplane with tls transport"
    else
      let! failurePolicy := oneOf (prop parsed "failurePolicy") ["open"; "closed"]
                              (path +:+ ".failurePolicy") in
      Returns (mkRouting protocol failurePolicy registration parsedDataplane).

(** ** Ownership and cleanup *)

Definition parseKubernetesOwnedObject (value : option json) (path : string) : result KubernetesOwnedObject :=
  let! parsed := object value path in
  let! _ := exactKeys parsed ["ref"; "lifecycle"; "ownership"] path in
  let! ownership := object (prop parsed "ownership") (path +:+ ".ownership") in
  let! _ := exactKeys ownership ["releaseLabel"; "helmRelease"] (path +:+ ".ownership") in
  let! releaseLabel := object (prop ownership "releaseLabel") (path +:+ ".ownership.releaseLabel") in
  let! _ := exactKeys releaseLabel ["key"; "value"] (path +:+ ".ownership.releaseLabel") in
  let! helmRelease :=
    match prop ownership "helmRelease" with
    | None => Returns None
    | v =>
        let! h := object v (path +:+ ".ownership.helmRelease") in
        let! _ := exactKeys h ["name"; "namespace"] (path +:+ ".ownership.helmRelease") in
        Returns (Some h)
    end in
  let! ref := parseKubernetesObjectRef (prop parsed "ref") (path +:+ ".ref") in
  let! lifecycle := oneOf (prop parsed "lifecycle") ["helm"; "retain-with-build"; "retain-with-pool"]
                      (path +:+ ".lifecycle") in
  let! _ := literal (prop releaseLabel "key") (JStr "adapter-k8s.dev/release")
              (path +:+ ".ownership.releaseLabel.key") in
  let! label := validated (prop releaseLabel "value") (path +:+ ".ownership.releaseLabel.value")
                  assertSafeReleaseName in
  let! helm :=
    match helmRelease with
    | None => Returns None
    | Some h =>
        let! n := validated (prop h "name") (path +:+ ".ownership.helmRelease.name") assertSafeReleaseName in
        let! ns := validated (prop h "namespace") (path +:+ ".ownership.helmRelease.namespace")
                     namespaceCheck in
        Returns (Some (n, ns))
    end in
  Returns (mkOwned ref lifecycle label helm).

Definition parseExternalCleanup (value : option json) (path : string) : result ExternalCleanupOperation :=
  let! parsed := object value path in
  let! kind := string_ (prop parsed "kind") (path +:+ ".kind") in
  let named (C : string → string → ExternalCleanupOperation) :=
    let! p := projectId_of parsed path in
    let! n := safeText (prop parsed "name") (path +:+ ".name") 63 in Returns (C p n) in
  let global_scope (C : string → string → ExternalCleanupOperation) :=
    let! _ := exactKeys parsed ["kind"; "projectId"; "name"; "scope"] path in
    let! c := named C in
    let! _ := literal (prop parsed "scope") (JStr "global") (path +:+ ".scope") in Returns c in
  if String.eqb kind "gcp-storage-bucket" then
    let! _ := exactKeys parsed ["kind"; "projectId"; "bucket"] path in
    let! p := projectId_of parsed path in
    let! b := validated (prop parsed "bucket") (path +:+ ".bucket") assertSafeBucketName in
    Returns (CleanBucket p b)
  else if String.eqb kind "gcp-service-account" then
    let! _ := exactKeys parsed ["kind"; "projectId"; "email"] path in
    let! email := string_ (prop parsed "email") (path +:+ ".email") in
    if negb (re_test SERVICE_ACCOUNT_EMAIL_RE email)
    then fail (path +:+ ".email") "invalid Google service-account email"
    else let! p := projectId_of parsed path in Returns (CleanServiceAccount p email)
  else if String.eqb kind "gcp-memorystore" then
    let! _ := exactKeys parsed ["kind"; "projectId"; "region"; "name"] path in
    let! p := projectId_of parsed path in
    let! r := validated (prop parsed "region") (path +:+ ".region") assertSafeRegion in
    let! n := safeText (prop parsed "name") (path +:+ ".name") 63 in
    Returns (CleanMemorystore p r n)
  else if String.eqb kind "gcp-traffic-extension" then
    let! _ := exactKeys parsed ["kind"; "projectId"; "name"; "location"] path in
    let! c := named CleanTrafficExtension in
    let! _ := literal (prop parsed "location") (JStr "global") (path +:+ ".location") in Returns c
  else if String.eqb kind "gcp-backend-service" then global_scope CleanBackendService
  else if String.eqb kind "gcp-health-check" then global_scope CleanHealthCheck
  else if String.eqb kind "gcp-global-address" then
    let! _ := exactKeys parsed ["kind"; "projectId"; "name"] path in
    let! p := projectId_of parsed path in
    let! n := validated (prop parsed "name") (path +:+ ".name") addressNameCheck in
    Returns (CleanGlobalAddress p n)
  else if String.eqb kind "gcp-custom-iam-role" then
    let! _ := exactKeys parsed ["kind"; "projectId"; "roleId"] path in
    let! p := projectId_of parsed path in
    let! r := safeText (prop parsed "roleId") (path +:+ ".roleId") 64 in
    Returns (CleanIamRole p r)
  else unknown_operation path "cleanup operation" kind.

(** The members projectId, region and repository of an Artifact Registry repository. *)
Definition registry_repository_of (parsed : obj) (path : string) : result (string * string * string) :=
  let! _ := exactKeys parsed ["kind"; "projectId"; "region"; "repository"] path in
  let! p := projectId_of parsed path in
  let! r := validated (prop parsed "region") (path +:+ ".region") assertSafeRegion in
  let! repo := safeText (prop parsed "repository") (path +:+ ".repository") 63 in
  Returns (p, r, repo).

(** The members projectId and releasePrefix. *)
Definition release_prefix_of (parsed : obj) (path : string) : result (string * string) :=
  let! _ := exactKeys parsed ["kind"; "projectId"; "releasePrefix"] path in
  let! p := projectId_of parsed path in
  let! r := validated (prop parsed "releasePrefix") (path +:+ ".releasePrefix") assertSafeReleaseName in
  Returns (p, r).

Definition parseRetainedExternal (value : option json) (path : string) : result RetainedExternalResource :=
  let! parsed := object value path in
  let! kind := string_ (prop parsed "kind") (path +:+ ".kind") in
  if String.eqb kind "gke-cluster" then
    let! _ := exactKeys parsed ["kind"; "projectId"; "clusterName"; "location"] path in
    let! pcl := cluster_of parsed path in
    let '(p, c, l) := pcl in Returns (RetainedCluster p c l)
  else if String.eqb kind "gcp-artifact-registry" then
    let! prr := registry_repository_of parsed path in
    let '(p, r, repo) := prr in Returns (RetainedRegistry p r repo)
  else if String.eqb kind "gcp-certificate-manager" then
    let! pr := release_prefix_of parsed path in Returns (RetainedCertificates pr.1 pr.2)
  else unknown_operation path "retained-resource operation" kind.

Definition parseCleanup (value : option json) (path : string) : result CleanupPlan :=
  let! parsed := object value path in
  let! _ := exactKeys parsed ["kubernetes"; "external"; "retained"] path in
  let! kubernetes := object (prop parsed "kubernetes") (path +:+ ".kubernetes") in
  let! _ := exactKeys kubernetes ["strategy"; "contributedObjects"] (path +:+ ".kubernetes") in
  let! _ := literal (prop kubernetes "strategy") (JStr "adapter-release-v1")
              (path +:+ ".kubernetes.strategy") in
  let! owned := array (prop kubernetes "contributedObjects") (path +:+ ".kubernetes.contributedObjects")
                  parseKubernetesOwnedObject 256 in
  let! external := array (prop parsed "external") (path +:+ ".external") parseExternalCleanup 256 in
  let! retained := array (prop parsed "retained") (path +:+ ".retained") parseRetainedExternal 256 in
  Returns (mkCleanup owned external retained).

(** ** Diagnostics, logs and requirements *)

Definition parseDiagnostic (value : option json) (path : string) : result DiagnosticSource :=
  let! parsed := object value path in
  let! kind := string_ (prop parsed "kind") (path +:+ ".kind") in
  if String.eqb kind "kubernetes-condition" then
    let! _ := exactKeys parsed ["kind"; "check"; "label"] path in
    let! check := parseRoutingReadiness (prop parsed "check") (path +:+ ".check") in
    match check with
    | ConditionReady c =>
        let! label := safeText (prop parsed "label") (path +:+ ".label") 120 in
        Returns (DiagCondition c label)
    | _ => fail (path +:+ ".check.kind") ("expected " +:+ in_quotes "kubernetes-condition")
    end
  else if String.eqb kind "kubernetes-gateway-address" then
    let! _ := exactKeys parsed ["kind"; "gateway"] path in
    let! g := parseKubernetesObjectRef (prop parsed "gateway") (path +:+ ".gateway") in
    Returns (DiagGatewayAddress g)
  else if String.eqb kind "gcp-auth" then
    let! _ := exactKeys parsed ["kind"; "projectId"] path in
    let! p := projectId_of parsed path in Returns (DiagAuth p)
  else if String.eqb kind "gcp-global-address" then
    let! _ := exactKeys parsed ["kind"; "projectId"; "name"] path in
    let! p := projectId_of parsed path in
    let! n := validated (prop parsed "name") (path +:+ ".name") addressNameCheck in
    Returns (DiagGlobalAddress p n)
  else if String.eqb kind "gcp-storage-bucket" then
    let! _ := exactKeys parsed ["kind"; "projectId"; "bucket"] path in
    let! p := projectId_of parsed path in
    let! b := validated (prop parsed "bucket") (path +:+ ".bucket") assertSafeBucketName in
    Returns (DiagBucket p b)
  else if String.eqb kind "gcp-artifact-registry" then
    let! prr := registry_repository_of parsed path in
    let '(p, r, repo) := prr in Returns (DiagArtifactRegistry p r repo)
  else if String.eqb kind "gcp-backend-health" then
    let! pr := release_prefix_of parsed path in Returns (DiagBackendHealth pr.1 pr.2)
  else if String.eqb kind "gcp-traffic-extension" then
    let! _ := exactKeys parsed ["kind"; "projectId"; "extensionName"; "addressName"] path in
    let! pea := extension_of parsed path in
    let '(p, e, a) := pea in Returns (DiagTrafficExtension p e a)
  else if String.eqb kind "gcp-backend-service-shape" then
    let! _ := exactKeys parsed ["kind"; "projectId"; "name"; "loadBalancingScheme"; "requireBackend"] path in
    let! p := projectId_of parsed path in
    let! n := safeText (prop parsed "name") (path +:+ ".name") 63 in
    let! _ := literal (prop parsed "loadBalancingScheme") (JStr "EXTERNAL_MANAGED")
                (path +:+ ".loadBalancingScheme") in
    let! _ := literal (prop parsed "requireBackend") (JBool true) (path +:+ ".requireBackend") in
    Returns (DiagBackendServiceShape p n)
  else if String.eqb kind "gcp-health-check-shape" then
    let! _ := exactKeys parsed ["kind"; "projectId"; "name"; "expectedType"] path in
    let! p := projectId_of parsed path in
    let! n := safeText (prop parsed "name") (path +:+ ".name") 63 in
    let! t := oneOf (prop parsed "expectedType") ["TCP"; "HTTP"] (path +:+ ".expectedType") in
    Returns (DiagHealthCheckShape p n t)
  else if String.eqb kind "gcp-certificate" then
    let! _ := exactKeys parsed ["kind"; "projectId"; "name"] path in
    let! p := projectId_of parsed path in
    let! n := safeText (prop parsed "name") (path +:+ ".name") 63 in
    Returns (DiagCertificate p n)
  else unknown_operation path "diagnostic operation" kind.

Definition parseLog (value : option json) (path : string) : result LogSource :=
  let! parsed := object value path in
  let! kind := string_ (prop parsed "kind") (path +:+ ".kind") in
  if negb (String.eqb kind "kubernetes-pods") then unknown_operation path "log operation" kind
  else
    let! _ := exactKeys parsed ["kind"; "namespace"; "selector"; "containers"] path in
    let! selector := object (prop parsed "selector") (path +:+ ".selector") in
    let! _ := exactKeys selector ["releaseName"] (path +:+ ".selector") in
    let! namespace := validated (prop parsed "namespace") (path +:+ ".namespace") namespaceCheck in
    let! release := validated (prop selector "releaseName") (path +:+ ".selector.releaseName")
                      assertSafeReleaseName in
    let! _ := literal (prop parsed "containers") (JStr "all") (path +:+ ".containers") in
    Returns (mkLog namespace release).

Definition parseKubernetesRequirement (value : option json) (path : string) : result KubernetesApiRequirement :=
  let! parsed := object value path in
  let! _ := exactKeys parsed ["apiVersion"; "resource"; "optional"] path in
  let! apiVersion := validated (prop parsed "apiVersion") (path +:+ ".apiVersion") assertSafeApiVersion in
  let! resource := resource_of parsed path in
  match prop parsed "optional" with
  | Some (JBool b) => Returns (mkRequirement apiVersion resource b)
  | _ => fail (path +:+ ".optional") "expected a boolean"
  end.

(** ** Kubernetes objects *)

Definition nest (path : string) (index : nat) : string := path +:+ "[" +:+ nat_text index +:+ "]".

(** The recursion is on the value, so the depth bound is a check only. *)
Fixpoint parseKubernetesJson (value : json) (path : string) (depth : nat) : result json :=
  if (64 <? depth)%nat then fail path "exceeded maximum Kubernetes object depth of 64" else
  match value with
  | JNull | JStr _ | JBool _ => Returns value
  | JNum n =>
      match n with
      | NInf _ | NNaN => fail path "expected a finite JSON number"
      | _ => Returns value
      end
  | JArr l =>
      if (1024 <? length l)%nat then fail path "expected at most 1024 array entries"
      else
        let! l' := (fix go (index : nat) (l : list json) : result (list json) :=
          match l with
          | [] => Returns []
          | entry :: l' =>
              let! x := parseKubernetesJson entry (nest path index) (S depth) in
              let! xs := go (S index) l' in Returns (x :: xs)
          end) 0 l in
        Returns (JArr l')
  | JObj fs =>
      let! fs' := (fix go (fs : obj) : result obj :=
        match fs with
        | [] => Returns []
        | (entryKey, entry) :: fs' =>
            let! x := parseKubernetesJson entry (path +:+ "." +:+ entryKey) (S depth) in
            let! xs := go fs' in Returns ((entryKey, x) :: xs)
        end) fs in
      Returns (JObj fs')
  end.

Definition label_value_ok (entry : string) : bool :=
  (String.length entry <=? 63)%nat && (is_empty entry || re_test LABEL_VALUE_RE entry).

Definition annotation_value_ok (entry : string) : bool :=
  (String.length entry <=? 4096)%nat && all_chars (λ c, negb (is_control c)) entry.

(** The entries of a labels or annotations map, in order. *)
Fixpoint metadata_entries (entries : obj) (path : string) (labels : bool)
    : result (list (string * string)) :=
  match entries with
  | [] => Returns []
  | (key, entry) :: entries' =>
      let at_ := path +:+ "." +:+ key in
      let! _ := match assertSafeAnnotationName (JStr key) with
                | Returns _ => Returns tt
                | Throws message => fail at_ message
                end in
      match entry with
      | JStr s =>
          if labels && negb (label_value_ok s) then fail at_ "expected a Kubernetes label value"
          else if negb labels && negb (annotation_value_ok s)
          then fail at_ "expected at most 4096 printable characters"
          else let! rest := metadata_entries entries' path labels in Returns ((key, s) :: rest)
      | _ => fail at_ "expected a string value"
      end
  end.

Definition parseKubernetesMetadataMap (value : option json) (path : string) (labels : bool)
    : result (list (string * string)) :=
  let! parsed := object value path in metadata_entries parsed path labels.

(** Whether a value is truthy. *)
Definition truthy (v : json) : bool :=
  match v with
  | JNull | JBool false | JNum (NInt 0) | JNum NNaN | JStr "" => false
  | _ => true
  end.

(** key in value: an own key of an object, false on an array, a TypeError on a primitive. *)
Definition in_operator (key : string) (value : json) : result bool :=
  match value with
  | JObj fs => Returns (has_own fs key)
  | JArr _ => Returns false
  | JStr s => Throws ("Cannot use 'in' operator to search for '" +:+ key +:+ "' in " +:+ s)
  | v => Throws ("Cannot use 'in' operator to search for '" +:+ key +:+ "' in " +:+ stringify v)
  end.

(** some over the keys, which stops at the first one found. *)
Fixpoint some_in (keys : list string) (value : json) : result bool :=
  match keys with
  | [] => Returns false
  | k :: keys' => let! b := in_operator k value in if b then Returns true else some_in keys' value
  end.

Definition identity_fields : list string := ["apiVersion"; "kind"; "metadata"; "status"].

Definition manifest_name_check (apiVersion kind : string) (candidate : string) : result unit :=
  if String.eqb apiVersion "v1" && String.eqb kind "Service" then serviceNameCheck candidate
  else if String.eqb apiVersion "v1" && String.eqb kind "Namespace" then namespaceCheck candidate
  else objectNameCheck candidate.

Definition parseBody (value : option json) (path : string) : result json :=
  match value with Some v => parseKubernetesJson v path 0 | None => fail path "expected an object" end.

(** The body member: a falsy body is dropped, any other may not name an identity field. *)
Definition manifest_body (parsed : obj) (path : string) : result (option json) :=
  let! body := when_own parsed "body" parseBody (path +:+ ".body") in
  match body with
  | Some b =>
      if truthy b then
        let! replaces := some_in identity_fields b in
        if replaces then fail (path +:+ ".body") "cannot replace identity fields or declare status"
        else Returns (Some b)
      else Returns None
  | None => Returns None
  end.

Definition parseKubernetesManifest (value : option json) (path : string) : result KubernetesManifest :=
  let! parsed := object value path in
  let! _ := exactKeys parsed ["apiVersion"; "kind"; "resource"; "metadata"; "body"] path in
  let! apiVersion := validated (prop parsed "apiVersion") (path +:+ ".apiVersion") assertSafeApiVersion in
  let! kind := safeText (prop parsed "kind") (path +:+ ".kind") 63 in
  if negb (re_test KIND_RE kind) then fail (path +:+ ".kind") "invalid Kubernetes kind"
  else if String.eqb kind "Secret"
  then fail (path +:+ ".kind") "build-time resource hooks cannot emit Secrets into composition plans"
  else
    let! resource := resource_of parsed path in
    let! metadata := object (prop parsed "metadata") (path +:+ ".metadata") in
    let! _ := exactKeys metadata ["name"; "namespace"; "labels"; "annotations"] (path +:+ ".metadata") in
    let! name := validated (prop metadata "name") (path +:+ ".metadata.name")
                   (manifest_name_check apiVersion kind) in
    let! namespace := optionalString metadata "namespace" (path +:+ ".metadata") (Some namespaceCheck) in
    let! labels := when_own metadata "labels"
                     (λ v p, parseKubernetesMetadataMap v p true) (path +:+ ".metadata.labels") in
    let! annotations := when_own metadata "annotations"
                     (λ v p, parseKubernetesMetadataMap v p false) (path +:+ ".metadata.annotations") in
    let! body := manifest_body parsed path in
    Returns (mkManifest apiVersion kind resource name namespace labels annotations body).

(** ** Telemetry *)

Definition telemetryId (value : option json) (path : string) : result string :=
  let! parsed := safeText value path 127 in
  if re_test TELEMETRY_ID_RE parsed then Returns parsed
  else fail path ("expected a lowercase dotted identifier matching " +:+ re_source TELEMETRY_ID_RE).

Definition parseTelemetryActivation (value : option json) (path : string) : result TelemetryActivation :=
  let! parsed := object value path in
  let! kind := string_ (prop parsed "kind") (path +:+ ".kind") in
  if String.eqb kind "app-instrumentation-hook" then
    let! _ := exactKeys parsed ["kind"] path in Returns AppInstrumentationHook
  else if String.eqb kind "managed" then
    let! _ := exactKeys parsed ["kind"] path in Returns Managed
  else if String.eqb kind "otel-operator" then
    let! _ := exactKeys parsed ["kind"; "instrumentation"] path in
    let! i := parseKubernetesObjectRef (prop parsed "instrumentation") (path +:+ ".instrumentation") in
    Returns (OtelOperator i)
  else if String.eqb kind "external-precondition" then
    let! _ := exactKeys parsed ["kind"; "description"] path in
    let! d := safeText (prop parsed "description") (path +:+ ".description") 512 in
    Returns (ExternalPrecondition d)
  else unknown_operation path "telemetry activation" kind.

Definition parseTelemetrySignal (value : option json) (path : string) : result TelemetrySignal :=
  let! parsed := object value path in
  let! kind := oneOf (prop parsed "kind") ["span"; "metric"; "log"] (path +:+ ".kind") in
  if String.eqb kind "metric" then
    let! _ := exactKeys parsed ["kind"; "name"; "instrument"; "unit"] path in
    let! name := safeText (prop parsed "name") (path +:+ ".name") 255 in
    if negb (re_test OTEL_METRIC_NAME_RE name)
    then fail (path +:+ ".name") "invalid OpenTelemetry metric name"
    else
      let! unit_ := when_own parsed "unit" (λ v p, safeText v p 63) (path +:+ ".unit") in
      let! instrument := oneOf (prop parsed "instrument")
        ["counter"; "histogram"; "gauge"; "up-down-counter"] (path +:+ ".instrument") in
      Returns (Metric name instrument unit_)
  else
    let! _ := exactKeys parsed ["kind"; "name"] path in
    let! name := safeText (prop parsed "name") (path +:+ ".name") 255 in
    Returns (SpanOrLog kind name).

Definition parseTelemetryWorkload (value : option json) (path : string) : result TelemetryWorkload :=
  let! parsed := object value path in
  let! kind := string_ (prop parsed "kind") (path +:+ ".kind") in
  if String.eqb kind "adapter-pool" then
    let! _ := exactKeys parsed ["kind"; "pool"] path in
    let! pool := validated (prop parsed "pool") (path +:+ ".pool") assertSafePoolName in
    Returns (AdapterPool pool)
  else if String.eqb kind "adapter-routing-service" then
    let! _ := exactKeys parsed ["kind"] path in Returns AdapterRoutingService
  else if String.eqb kind "kubernetes-object" then
    let! _ := exactKeys parsed ["kind"; "object"] path in
    let! o := parseKubernetesObjectRef (prop parsed "object") (path +:+ ".object") in
    Returns (KubernetesObject o)
  else if String.eqb kind "managed-service" then
    let! _ := exactKeys parsed ["kind"; "name"] path in
    let! n := telemetryId (prop parsed "name") (path +:+ ".name") in
    Returns (ManagedService n)
  else unknown_operation path "telemetry workload" kind.

Fixpoint attribute_entries (entries : obj) (path : string) : result (list (string * string)) :=
  match entries with
  | [] => Returns []
  | (key, value) :: entries' =>
      let at_ := path +:+ "." +:+ key in
      if negb (re_test OTEL_ATTRIBUTE_KEY_RE key) then fail at_ "invalid OpenTelemetry attribute key"
      else
        let! v := safeText (Some value) at_ 256 in
        let! rest := attribute_entries entries' path in
        Returns ((key, v) :: rest)
  end.

Definition parseTelemetryAttributes (value : option json) (path : string) : result (list (string * string)) :=
  let! parsed := object value path in
  if (32 <? length parsed)%nat then fail path "expected at most 32 static attributes"
  else attribute_entries parsed path.

Definition assertUniqueTelemetryEntries (entries : list string) (path description : string) : result unit :=
  match first_repeat [] entries with
  | Some entry => fail path ("duplicate " +:+ description +:+ " " +:+ json_quote entry)
  | None => Returns tt
  end.

Definition parseTelemetrySource (value : option json) (path : string) : result TelemetrySource :=
  let! parsed := object value path in
  let! _ := exactKeys parsed ["id"; "producer"; "owner"; "activation"; "protocols"; "propagation";
                              "signals"; "workloads"; "attributes"] path in
  let! producer := object (prop parsed "producer") (path +:+ ".producer") in
  let! _ := exactKeys producer ["kind"; "name"] (path +:+ ".producer") in
  let! protocols := array (prop parsed "protocols") (path +:+ ".protocols")
    (λ e p, oneOf e ["otel-api"; "otlp"; "prometheus"; "cloud-managed"] p) 8 in
  let! propagation := array (prop parsed "propagation") (path +:+ ".propagation")
    (λ e p, oneOf e ["tracecontext"; "tracestate"; "baggage-pass-through"] p) 8 in
  let! signals := array (prop parsed "signals") (path +:+ ".signals") parseTelemetrySignal 128 in
  let! workloads := array (prop parsed "workloads") (path +:+ ".workloads") parseTelemetryWorkload 128 in
  if (length signals =? 0)%nat && (length propagation =? 0)%nat
  then fail path "a telemetry source must declare at least one signal or propagation format"
  else if (0 <? length signals)%nat && (length protocols =? 0)%nat
  then fail (path +:+ ".protocols") "a telemetry source with signals must declare a protocol"
  else if (length workloads =? 0)%nat then fail (path +:+ ".workloads") "expected at least one workload"
  else
    let! _ := assertUniqueTelemetryEntries protocols (path +:+ ".protocols") "protocol" in
    let! _ := assertUniqueTelemetryEntries propagation (path +:+ ".propagation") "propagation format" in
    let! _ := assertUniqueTelemetryEntries (map signal_id signals) (path +:+ ".signals") "signal" in
    let! _ := assertUniqueTelemetryEntries (map (λ w, stringify (workload_json w)) workloads)
                (path +:+ ".workloads") "workload" in
    let! id := telemetryId (prop parsed "id") (path +:+ ".id") in
    let! producerKind := oneOf (prop producer "kind")
      ["adapter-runtime"; "data-plane"; "ingress-controller"; "managed-provider"]
      (path +:+ ".producer.kind") in
    let! producerName := telemetryId (prop producer "name") (path +:+ ".producer.name") in
    let! owner := oneOf (prop parsed "owner") ["adapter"; "application"; "operator"; "cloud-provider"]
                    (path +:+ ".owner") in
    let! activation := parseTelemetryActivation (prop parsed "activation") (path +:+ ".activation") in
    let! attributes := parseTelemetryAttributes (prop parsed "attributes") (path +:+ ".attributes") in
    Returns (mkTelemetry id producerKind producerName owner activation protocols propagation signals
               workloads attributes).

(** ** Kubernetes versions *)

(** The longest prefix of digits, and the rest. *)
Fixpoint span_digits (s : string) : string * string :=
  match s with
  | String c s' => if is_digit c then let '(d, r) := span_digits s' in (String c d, r) else ("", s)
  | EmptyString => ("", "")
  end.

(** The three groups of the semantic-version pattern, as numbers. *)
Definition version_match (version : string) : option (Z * Z * Z) :=
  if negb (re_test "^(?:v)?(\d+)\.(\d+)\.(\d+)(?:[-+].*)?$" version) then None else
  let s := match version with String "v" s => s | s => s end in
  let '(major, s) := span_digits s in
  let '(minor, s) := span_digits (drop_string 1 s) in
  let '(patch, _) := span_digits (drop_string 1 s) in
  Some (digits_value 0 major, digits_value 0 minor, digits_value 0 patch).

Definition parseVersion (version path : string) : result (Z * Z * Z) :=
  match version_match version with
  | Some v => Returns v
  | None => fail path "expected a semantic version such as 1.33.0"
  end.

Definition compareVersion (a b : Z * Z * Z) : Z :=
  let '(a0, a1, a2) := a in
  let '(b0, b1, b2) := b in
  if negb (a0 - b0 =? 0)%Z then (a0 - b0)%Z
  else if negb (a1 - b1 =? 0)%Z then (a1 - b1)%Z
  else if negb (a2 - b2 =? 0)%Z then (a2 - b2)%Z
  else 0%Z.

Definition minimumVersion_path : string := "$.requirements.kubernetes.minimumVersion".

Definition assertKubernetesMinimumVersion (version : string) : result unit :=
  let! v := parseVersion version minimumVersion_path in
  let! m := parseVersion MINIMUM_KUBERNETES_VERSION "minimum supported Kubernetes version" in
  if (compareVersion v m <? 0)%Z
  then fail minimumVersion_path
         ("adapter-k8s requires Kubernetes " +:+ MINIMUM_KUBERNETES_VERSION +:+ " or newer")
  else Returns tt.

Definition assertKubernetesServerVersion (actualVersion requiredVersion : string) : result unit :=
  let! _ := assertKubernetesMinimumVersion requiredVersion in
  let! a := parseVersion actualVersion "Kubernetes server version" in
  let! r := parseVersion requiredVersion "required Kubernetes version" in
  if (compareVersion a r <? 0)%Z
  then Throws ("Kubernetes server " +:+ actualVersion
    +:+ " is older than the composition plan requirement " +:+ requiredVersion)
  else Returns tt.

(** ** Routing invariants (routing-invariants.ts) *)

Definition readiness_matches (p e a : string) (r : RoutingReadiness) : bool :=
  match r with
  | TrafficExtensionReady p' e' a' => String.eqb p' p && String.eqb e' e && String.eqb a' a
  | _ => false
  end.

Definition is_text (v : option json) (s : string) : bool :=
  match v with Some (JStr t) => String.eqb t s | _ => false end.

Definition is_named_address (addressName : string) (address : json) : bool :=
  match address with
  | JObj fs => is_text (prop fs "type") "NamedAddress" && is_text (prop fs "value") addressName
  | _ => false
  end.

(** spec.addresses of a manifest body, when the members have the expected types. *)
Definition body_addresses (body : option json) : list json :=
  match body with
  | Some (JObj fs) =>
      match prop fs "spec" with
      | Some (JObj spec) => match prop spec "addresses" with Some (JArr l) => l | _ => [] end
      | _ => []
      end
  | _ => []
  end.

Definition address_matches (addressName : string) (objects : list KubernetesManifest) : nat :=
  length (filter (λ a, is_named_address addressName a = true)
    (flat_map (λ o, body_addresses (m_body o)) (filter (λ o, m_kind o = "Gateway") objects))).

Definition assertGcpTrafficExtensionTopology (identity : ClusterIdentity) (routing : RoutingPlan)
    (objects : list KubernetesManifest) (subject : string) : result unit :=
  match registration routing with
  | Some (GcpTrafficExtensionV1 p e a) =>
      if negb (existsb (readiness_matches p e a) (dataplane_readiness (dataplane routing)))
      then Throws (subject +:+ " must declare readiness matching its gcp-traffic-extension-v1 registration")
      else
        let! _ :=
          match identity with
          | GkeResource p' _ _ _ =>
              if negb (String.eqb p' p)
              then Throws (subject +:+ " uses GCP project " +:+ json_quote p +:+ ", but the GKE "
                     +:+ "cluster and its controller-owned Gateway resources are in " +:+ json_quote p'
                     +:+ ". Cross-project GKE traffic-extension registration is not supported.")
              else Returns tt
          | _ => Returns tt
          end in
        let addressMatches := address_matches a objects in
        if negb (addressMatches =? 1)%nat
        then Throws (subject +:+ " requires exactly one Gateway NamedAddress " +:+ json_quote a
               +:+ ", but the resource plan declared " +:+ nat_text addressMatches
               +:+ ". Pass addresses: [{ type: " +:+ in_quotes "NamedAddress" +:+ ", value: "
               +:+ json_quote a +:+ " }] to gatewayApiExposure().")
        else Returns tt
  | _ => Returns tt
  end.

(** ** The plan *)

Section Plan.
(** net.isIP of node:net *)
Variable isIP : string → Z.

(** The operations of a plan. *)
Record Operations := mkOperations {
  op_objects : list KubernetesManifest;
  op_readiness : list RoutingReadiness;
  op_network : NetworkPlan;
  op_cache : CacheProvisioning;
  op_cdn : CdnInvalidation;
  op_routing : RoutingPlan;
  op_cleanup : CleanupPlan;
  op_diagnostics : list DiagnosticSource;
  op_logs : list LogSource;
  op_telemetry : option (list TelemetrySource)
}.

Definition parseOperations (operations resourceOperations : obj) : result Operations :=
  let! objects := array (prop resourceOperations "objects") "$.operations.resources.objects"
                    parseKubernetesManifest 256 in
  let! readiness := array (prop resourceOperations "readiness") "$.operations.resources.readiness"
                      parseRoutingReadiness 256 in
  let! network := parseNetwork isIP (prop operations "network") "$.operations.network" in
  let! cache := parseCache (prop operations "cache") "$.operations.cache" in
  let! cdn := parseCdn (prop operations "cdn") "$.operations.cdn" in
  let! routing := parseRouting (prop operations "routing") "$.operations.routing" in
  let! cleanup := parseCleanup (prop operations "cleanup") "$.operations.cleanup" in
  let! diagnostics := array (prop operations "diagnostics") "$.operations.diagnostics" parseDiagnostic 256 in
  let! logs := array (prop operations "logs") "$.operations.logs" parseLog 256 in
  let! telemetry := when_own operations "telemetry"
                      (λ v p, array v p parseTelemetrySource 256) "$.operations.telemetry" in
  Returns (mkOperations objects readiness network cache cdn routing cleanup diagnostics logs telemetry).

(** The parsing part of parseCompositionPlan. *)
Definition parsePlan (value : option json) : result CompositionPlan :=
  let! parsed := object value "$" in
  let! _ := exactKeys parsed ["apiVersion"; "kind"; "metadata"; "target"; "requirements"; "operations"] "$" in
  let! metadata := object (prop parsed "metadata") "$.metadata" in
  let! _ := exactKeys metadata ["releaseName"; "namespace"; "buildId"] "$.metadata" in
  let! target := object (prop parsed "target") "$.target" in
  let! _ := exactKeys target ["fingerprint"; "identity"; "access"; "registry"] "$.target" in
  let! fingerprint := string_ (prop target "fingerprint") "$.target.fingerprint" in
  if negb (re_test DIGEST_RE fingerprint)
  then fail "$.target.fingerprint" "expected sha256:<64 lowercase hex characters>"
  else
    let! requirements := object (prop parsed "requirements") "$.requirements" in
    let! _ := exactKeys requirements ["kubernetes"] "$.requirements" in
    let! kubernetes := object (prop requirements "kubernetes") "$.requirements.kubernetes" in
    let! _ := exactKeys kubernetes ["minimumVersion"; "resources"] "$.requirements.kubernetes" in
    let! minimumVersion := string_ (prop kubernetes "minimumVersion") minimumVersion_path in
    let! _ := assertKubernetesMinimumVersion minimumVersion in
    let! ops := object (prop parsed "operations") "$.operations" in
    let! _ := exactKeys ops ["resources"; "network"; "cache"; "cdn"; "routing"; "cleanup";
                             "diagnostics"; "logs"; "telemetry"] "$.operations" in
    let! resourceOps := object (prop ops "resources") "$.operations.resources" in
    let! _ := exactKeys resourceOps ["objects"; "readiness"] "$.operations.resources" in
    let! releaseName := validated (prop metadata "releaseName") "$.metadata.releaseName"
                          assertSafeReleaseName in
    let! namespace := validated (prop metadata "namespace") "$.metadata.namespace" namespaceCheck in
    let! buildId := validated (prop metadata "buildId") "$.metadata.buildId" assertSafeBuildId in
    let! _ := literal (prop parsed "apiVersion") (JStr COMPOSITION_PLAN_API_VERSION) "$.apiVersion" in
    let! _ := literal (prop parsed "kind") (JStr COMPOSITION_PLAN_KIND) "$.kind" in
    let! identity := parseClusterIdentity (prop target "identity") "$.target.identity" in
    let! access := parseClusterAccess (prop target "access") "$.target.access" in
    let! registry := parseRegistry (prop target "registry") "$.target.registry" in
    let! resources := array (prop kubernetes "resources") "$.requirements.kubernetes.resources"
                        parseKubernetesRequirement 256 in
    let! o := parseOperations ops resourceOps in
    Returns (mkPlan releaseName namespace buildId fingerprint identity access registry minimumVersion
      resources (op_objects o) (op_readiness o) (op_network o) (op_cache o) (op_cdn o) (op_routing o)
      (op_cleanup o) (op_diagnostics o) (op_logs o) (op_telemetry o)).

(** The namespaces a readiness entry names. *)
Definition readiness_namespaces (entry : RoutingReadiness) : list string :=
  match entry with
  | ServiceEndpoints s _ => [service_namespace s]
  | TrafficExtensionReady _ _ _ => []
  | ConditionReady c => option_list (ref_namespace (condition_object c))
  | JobComplete o _ | DeploymentAvailable o _ => option_list (ref_namespace o)
  end.

Definition diagnostic_namespaces (d : DiagnosticSource) : list string :=
  match d with
  | DiagCondition c _ => option_list (ref_namespace (condition_object c))
  | _ => []
  end.

(** The release-scoped namespaces of a plan, by the path an error names. *)
Definition scoped_namespaces (plan : CompositionPlan) : list (string * list string) :=
  [("$.operations.logs", map log_namespace (logs plan));
   ("$.operations.cleanup.kubernetes.contributedObjects",
     flat_map (λ o, option_list (ref_namespace (owned_ref o))) (contributedObjects (cleanup plan)));
   ("$.operations.resources.objects", flat_map (λ m, option_list (m_namespace m)) (objects plan));
   ("$.operations.resources.readiness", flat_map readiness_namespaces (readiness plan));
   ("$.operations.routing.dataplane.readiness",
     flat_map readiness_namespaces (dataplane_readiness (dataplane (routing plan))));
   ("$.operations.diagnostics", flat_map diagnostic_namespaces (diagnostics plan))].

Definition namespace_message (plan : CompositionPlan) : string :=
  "all release-scoped objects must use namespace " +:+ namespace plan.

Fixpoint check_namespaces (plan : CompositionPlan) (groups : list (string * list string)) : result unit :=
  match groups with
  | [] => Returns tt
  | (path, candidate) :: groups' =>
      match filter (λ entry, entry ≠ namespace plan) candidate with
      | [] => check_namespaces plan groups'
      | _ => fail path (namespace_message plan)
      end
  end.

Definition routing_service (d : Dataplane) : option KubernetesServiceRef :=
  match d with
  | PortableHttpOrigin s _ _ | AdapterOwnedEnvoyProxy s _ => Some s
  | ExternalExtProc _ _ => None
  end.

Definition check_routing_service (plan : CompositionPlan) : result unit :=
  match routing_service (dataplane (routing plan)) with
  | Some s =>
      if String.eqb (service_namespace s) (namespace plan) then Returns tt
      else fail "$.operations.routing.dataplane.service.namespace" (namespace_message plan)
  | None => Returns tt
  end.

Definition check_releases (plan : CompositionPlan) (releases : list string) (path message : string)
    : result unit :=
  if forallb (λ r, String.eqb r (releaseName plan)) releases then Returns tt
  else fail path (message +:+ releaseName plan).

Definition parseCompositionPlan (value : json) : result CompositionPlan :=
  let! plan := parsePlan (Some value) in
  let! _ := assertUniqueTelemetryEntries (map source_id (default [] (telemetry plan)))
              "$.operations.telemetry" "source id" in
  let! _ := check_namespaces plan (scoped_namespaces plan) in
  let! _ := check_routing_service plan in
  let! _ := check_releases plan (map log_releaseName (logs plan)) "$.operations.logs"
              "all log selectors must use release " in
  let! _ := check_releases plan (map owned_releaseLabel (contributedObjects (cleanup plan)))
              "$.operations.cleanup.kubernetes.contributedObjects"
              "all ownership labels must use release " in
  let! _ := assertGcpTrafficExtensionTopology (identity plan) (routing plan) (objects plan)
              "$.operations.routing" in
  Returns plan.
End Plan.

End PlanParse.
