(* ===== verification/PlanFacts.v ===== *)
(** * What the composition-plan parser guarantees

    The parser loses nothing: the object of a parsed plan equals the document up to the order of
    keys.  A parsed plan is confined to its namespace and release, and its GCP topology, telemetry
    inventory and Kubernetes version are consistent. *)
From Stdlib Require Import Ascii String.
From S2P Require Import Prelude JsString Regex Json K8sNames PlanTypes PlanParse.
Import K8sNames PlanTypes PlanParse.
Local Open Scope stdpp_scope.

Module PlanFacts.

(** ** Faithful parsing *)

(** The parsed [x] stands for the property value [v]: [v] is present, and equals the object of
    [x] up to the order of keys. *)
Definition faithful {A} (toJson : A → json) (v : option json) (x : A) : Prop :=
  ∃ w, v = Some w ∧ (wf_json w → jeq (toJson x) w).

Definition faithful_opt {A} (toJson : A → json) (v : option json) (o : option A) : Prop :=
  match o with Some x => faithful toJson v x | None => v = None end.

(** A parser that keeps everything it accepts. *)
Class Lossless {A} (parse : option json → string → result A) (toJson : A → json) : Prop :=
  lossless v p x : parse v p = Returns x → faithful toJson v x.

(** ** Inversion of the primitives *)

Lemma object_inv v p fs : object v p = Returns fs → v = Some (JObj fs).
Proof. unfold object. destruct v as [[]|]; naive_solver. Qed.

Lemma exactKeys_inv fs allowed p u : exactKeys fs allowed p = Returns u → ∀ k, k ∈ fs.*1 → k ∈ allowed.
Proof.
  unfold exactKeys. destruct (unknown_keys fs allowed) eqn:Hu; [|done]. intros _ k Hk.
  destruct (decide (k ∈ allowed)) as [|Hn]; [done|].
  assert (k ∈ unknown_keys fs allowed) as Hin by by apply list_elem_of_filter.
  rewrite Hu in Hin. by apply not_elem_of_nil in Hin.
Qed.

Lemma string_inv v p s : string_ v p = Returns s → v = Some (JStr s) ∧ is_empty s = false.
Proof. unfold string_. destruct v as [[| | |s'| |]|]; try done. destruct (is_empty s') eqn:?; naive_solver. Qed.

Lemma faithful_str v s : v = Some (JStr s) → faithful JStr v s.
Proof. intros ->. eexists; split; [done|]. intros _. constructor. Qed.

#[global] Instance string_lossless : Lossless string_ JStr.
Proof. intros v p s [Hv _]%string_inv. by apply faithful_str. Qed.

Lemma safeText_inv v p n s : safeText v p n = Returns s → v = Some (JStr s).
Proof.
  unfold safeText. rewrite obind_Returns. intros (t & [-> _]%string_inv & Ht). destruct (_ || _); naive_solver.
Qed.

Lemma validated_inv v p check s :
  validated v p check = Returns s → v = Some (JStr s) ∧ is_empty s = false ∧ ∃ u, check s = Returns u.
Proof.
  unfold validated. rewrite obind_Returns. intros (t & [-> He]%string_inv & Ht).
  destruct (check t) as [u|] eqn:Hc; naive_solver.
Qed.

Lemma literal_inv v e p u :
  literal v e p = Returns u → (∃ s, e = JStr s) ∨ (∃ b, e = JBool b) → v = Some e.
Proof.
  unfold literal. intros H [[s ->]|[b ->]]; destruct v as [[]|]; try done.
  - destruct (String.eqb_spec s0 s); naive_solver.
  - destruct (Bool.eqb b0 b) eqn:Hb; [|done]. by apply eqb_prop in Hb as ->.
Qed.

Lemma oneOf_inv v l p s : oneOf v l p = Returns s → v = Some (JStr s) ∧ s ∈ l.
Proof. unfold oneOf. destruct v as [[| | |t| |]|]; try done. case_bool_decide; naive_solver. Qed.

Lemma integer_inv v p lo hi n : integer v p lo hi = Returns n → v = Some (JNum (NInt n)) ∧ (lo ≤ n ≤ hi)%Z.
Proof.
  unfold integer. destruct v as [[| |[m| | |]| | |]|]; try done.
  destruct (m <? lo)%Z eqn:?, (hi <? m)%Z eqn:?; try done. intros [= ->]. b2p. split; [done|lia].
Qed.

Lemma optionalString_inv fs k p check o :
  optionalString fs k p check = Returns o → faithful_opt JStr (prop fs k) o.
Proof.
  unfold optionalString. destruct (prop fs k) as [v|] eqn:Hp; [|by intros [= <-]].
  rewrite obind_Returns. intros (s & Hs & [= <-]). simpl. apply faithful_str.
  destruct check; [by apply validated_inv in Hs as (-> & _)|by apply safeText_inv in Hs].
Qed.

Lemma parse_entries_inv {A} (parse : option json → string → result A) p i l xs :
  parse_entries parse p i l = Returns xs → Forall2 (λ w x, ∃ q, parse (Some w) q = Returns x) l xs.
Proof.
  revert i xs. induction l as [|w l IH]; intros i xs; simpl; [intros [= <-]; constructor|].
  rewrite obind_Returns. intros (x & Hx & (ys & Hys & [= <-])%obind_Returns). constructor; eauto.
Qed.

Lemma array_inv {A} (parse : option json → string → result A) v p n xs :
  array v p parse n = Returns xs →
  ∃ l, v = Some (JArr l) ∧ (length l ≤ n)%nat ∧ Forall2 (λ w x, ∃ q, parse (Some w) q = Returns x) l xs.
Proof.
  unfold array. destruct v as [[| | | |l|]|]; try done.
  destruct (n <? length l)%nat eqn:Hn; [done|]. intros H%parse_entries_inv. b2p. eauto.
Qed.

#[global] Instance safeText_lossless n : Lossless (λ v p, safeText v p n) JStr.
Proof. intros v p s H%safeText_inv. by apply faithful_str. Qed.

#[global] Instance integer_lossless lo hi : Lossless (λ v p, integer v p lo hi) (λ n, JNum (NInt n)).
Proof. intros v p n [-> _]%integer_inv. eexists; split; [done|]. intros _. constructor. Qed.

Lemma array_faithful {A} (parse : option json → string → result A) toJson `{!Lossless parse toJson} v p n xs :
  array v p parse n = Returns xs → faithful (λ l, JArr (map toJson l)) v xs.
Proof.
  intros (l & -> & _ & Hall)%array_inv. eexists; split; [done|]. intros Hwf%wf_arr. constructor.
  induction Hall as [|w x l xs [q Hq] _ IH]; simpl; [constructor|].
  inversion Hwf; subst. constructor; [|by apply IH].
  destruct (lossless _ _ _ Hq) as (w' & [= <-] & Hj). by apply Hj.
Qed.

Lemma when_own_faithful {A} (parse : option json → string → result A) toJson `{!Lossless parse toJson} fs k p o :
  when_own fs k parse p = Returns o → faithful_opt toJson (prop fs k) o.
Proof.
  unfold when_own. destruct (prop fs k) as [v|] eqn:Hp; [|by intros [= <-]].
  rewrite obind_Returns. intros (x & Hx & [= <-]). by eapply lossless.
Qed.

(** ** Fields of an object *)

Lemma field_faithful {A} (toJson : A → json) fs k x :
  faithful toJson (prop fs k) x → wf_json (JObj fs) →
  option_Forall2 jeq (Some (toJson x)) (prop fs k).
Proof. intros (w & Hw & Hj) Hwf. rewrite Hw. constructor. apply Hj. by eapply wf_prop. Qed.

Lemma field_exact fs k j : prop fs k = Some j → wf_json (JObj fs) → option_Forall2 jeq (Some j) (prop fs k).
Proof. intros Hp Hwf. rewrite Hp. constructor. apply jeq_refl. by eapply wf_prop. Qed.

Lemma field_object fs k fs' g :
  prop fs k = Some (JObj fs') → wf_json (JObj fs) → (wf_json (JObj fs') → jeq (JObj g) (JObj fs')) →
  option_Forall2 jeq (Some (JObj g)) (prop fs k).
Proof. intros Hp Hwf Hj. rewrite Hp. constructor. apply Hj. by eapply wf_prop. Qed.

(** ** Automation *)

(** Take a successful parse apart into the successes of its parts. *)
Ltac parse_step :=
  match goal with
  | H : obind _ _ = Returns _ |- _ => apply obind_Returns in H as (? & ? & ?)
  | H : Returns _ = Returns _ |- _ => injection H as H; subst
  | H : fail _ _ = Returns _ |- _ => discriminate H
  | H : Throws _ = Returns _ |- _ => discriminate H
  | H : unknown_operation _ _ _ = Returns _ |- _ => discriminate H
  | H : (if ?b then _ else _) = Returns _ |- _ => destruct b eqn:?
  | H : (let '_ := ?x in _) = Returns _ |- _ => destruct x eqn:?
  | H : negb _ = false |- _ => apply negb_false_iff in H
  | H : negb _ = true |- _ => apply negb_true_iff in H
  | H : String.eqb _ _ = true |- _ => apply String.eqb_eq in H; subst
  end.

(** What a successful primitive says of the value it read. *)
Ltac read_step :=
  match goal with
  | H : object _ _ = Returns _ |- _ => apply object_inv in H
  | H : exactKeys _ _ _ = Returns _ |- _ => pose proof (exactKeys_inv _ _ _ _ H); clear H
  | H : literal _ _ _ = Returns _ |- _ => apply literal_inv in H; [|by eauto]
  | H : string_ _ _ = Returns _ |- _ => apply string_inv in H as [H ?]
  | H : safeText _ _ _ = Returns _ |- _ => apply safeText_inv in H
  | H : validated _ _ _ = Returns _ |- _ => apply validated_inv in H as (H & ? & ?)
  | H : oneOf _ _ _ = Returns _ |- _ => apply oneOf_inv in H as [H ?]
  | H : integer _ _ _ _ = Returns _ |- _ => apply integer_inv in H as [H ?]
  | H : optionalString _ _ _ _ = Returns ?o |- _ => apply optionalString_inv in H; destruct o
  | H : when_own _ _ ?parse _ = Returns ?o |- _ =>
      apply (when_own_faithful parse _) in H; destruct o
  | H : array _ _ ?parse _ = Returns _ |- _ => pose proof (array_faithful parse _ _ _ _ _ H); clear H
  | H : ?parse ?v ?p = Returns _ |- _ =>
      lazymatch type of H with
      | _ = _ => eapply (lossless (parse := parse)) in H
      end
  | H : faithful _ (Some ?j) _, E : prop _ _ = Some ?j |- _ => rewrite <- E in H
  end.

Ltac parse_inv := repeat parse_step; repeat read_step; simplify_eq.

(** Objects with literal keys have no repeated key. *)
Ltac nodup_keys :=
  match goal with |- NoDup ?l => let l' := eval cbn in l in change (NoDup l') end;
  repeat (apply NoDup_cons; split; [apply (bool_decide_unpack _); vm_compute; exact I|]); apply NoDup_nil_2.

Ltac keys_allowed :=
  let k := fresh "k" in
  let Hk := fresh "Hk" in
  intros k Hk; cbn in Hk; repeat (apply elem_of_cons in Hk as [->|Hk]; [repeat constructor|]);
  try (by apply not_elem_of_nil in Hk).

(** An object against the document object its members were read from. *)
Ltac same_object :=
  match goal with
  | Hwf : wf_json (JObj ?fs), Hk : (∀ k, k ∈ ?fs.*1 → k ∈ ?allowed) |- jeq (JObj _) (JObj ?fs) =>
      apply (jeq_obj_keys allowed);
      [nodup_keys | by apply wf_nodup | keys_allowed | exact Hk | repeat (apply Forall_cons; split);
        try apply Forall_nil_2; cbn [prop];
        lazy [String.eqb Ascii.eqb Bool.eqb optional text int kind_is app fmap option_fmap option_map];
        same_field]
  end
with same_field :=
  match goal with
  | H : faithful ?t (prop ?fs ?k) ?x |- option_Forall2 jeq _ (prop ?fs ?k) =>
      apply (field_faithful t fs k x H); assumption
  | H : faithful_opt _ (prop ?fs ?k) _ |- option_Forall2 jeq _ (prop ?fs ?k) =>
      cbn in H; first [rewrite H; constructor | by apply (field_faithful _ fs k _ H)]
  | H : prop ?fs ?k = None |- option_Forall2 jeq _ (prop ?fs ?k) => rewrite H; constructor
  | H : prop ?fs ?k = Some (JObj ?g) |- option_Forall2 jeq _ (prop ?fs ?k) =>
      eapply (field_object fs k g); [exact H | assumption | intros ?; same_object]
  | H : prop ?fs ?k = Some _ |- option_Forall2 jeq _ (prop ?fs ?k) => by apply (field_exact fs k _ H)
  end.

Ltac lossless_object :=
  eexists; split; [reflexivity|]; intros ?;
  match goal with |- jeq ?a ?b => let a' := eval hnf in a in change (jeq a' b) end;
  same_object.

#[global] Instance location_lossless : Lossless parseGcpLocation location_json.
Proof. intros v p x H. unfold parseGcpLocation in H. parse_inv. lossless_object. Qed.

#[global] Instance identity_lossless : Lossless parseClusterIdentity identity_json.
Proof.
  intros v p x H. unfold parseClusterIdentity, cluster_of, projectId_of in H.
  parse_inv; lossless_object.
Qed.

#[global] Instance access_lossless : Lossless parseClusterAccess access_json.
Proof.
  intros v p x H. unfold parseClusterAccess, cluster_of, projectId_of in H. parse_inv; lossless_object.
Qed.

#[global] Instance authentication_lossless : Lossless parseRegistryAuthentication authentication_json.
Proof. intros v p x H. unfold parseRegistryAuthentication in H. parse_inv; lossless_object. Qed.

#[global] Instance digestLookup_lossless : Lossless parseRegistryDigestLookup digestLookup_json.
Proof.
  intros v p x H. unfold parseRegistryDigestLookup, projectId_of in H. parse_inv; lossless_object.
Qed.

#[global] Instance registry_lossless : Lossless parseRegistry registry_json.
Proof. intros v p x H. unfold parseRegistry in H. parse_inv; lossless_object. Qed.

#[global] Instance cidr_lossless isIP : Lossless (parse_cidr isIP) JStr.
Proof.
  intros v p x H. unfold parse_cidr in H. parse_inv. destruct (assertSafeCidr _ _ _); parse_inv.
  by apply faithful_str.
Qed.

#[global] Instance source_lossless isIP : Lossless (parseNetworkSource isIP) source_json.
Proof.
  intros v p x H. unfold parseNetworkSource, cluster_of, projectId_of in H.
  parse_inv; lossless_object.
Qed.

#[global] Instance network_lossless isIP : Lossless (parseNetwork isIP) network_json.
Proof. intros v p x H. unfold parseNetwork in H. parse_inv; lossless_object. Qed.

#[global] Instance cache_lossless : Lossless parseCache cache_json.
Proof. intros v p x H. unfold parseCache, projectId_of in H. parse_inv; lossless_object. Qed.

#[global] Instance cdn_lossless : Lossless parseCdn cdn_json.
Proof. intros v p x H. unfold parseCdn, projectId_of in H. parse_inv; lossless_object. Qed.

#[global] Instance ref_lossless : Lossless parseKubernetesObjectRef ref_json.
Proof. intros v p x H. unfold parseKubernetesObjectRef, resource_of in H. parse_inv; lossless_object. Qed.

#[global] Instance service_lossless : Lossless parseKubernetesServiceRef service_json.
Proof. intros v p x H. unfold parseKubernetesServiceRef in H. parse_inv; lossless_object. Qed.

#[global] Instance condition_location_lossless : Lossless parseConditionLocation condition_location_json.
Proof.
  intros v p x H. unfold parseConditionLocation in H. parse_inv; lossless_object.
Qed.

#[global] Instance readiness_lossless : Lossless parseRoutingReadiness readiness_json.
Proof.
  intros v p x H. unfold parseRoutingReadiness, parseCondition, object_timeout_of, timeout_of,
    extension_of, projectId_of in H. parse_inv; lossless_object.
Qed.

#[global] Instance registration_lossless : Lossless parseRoutingRegistration registration_json.
Proof.
  intros v p x H. unfold parseRoutingRegistration, extension_of, projectId_of in H.
  parse_inv; lossless_object.
Qed.

#[global] Instance routing_lossless : Lossless parseRouting routing_json.
Proof.
  intros v p x H. unfold parseRouting, parseDataplane, readiness_of in H. parse_inv; lossless_object.
Qed.

#[global] Instance owned_lossless : Lossless parseKubernetesOwnedObject owned_json.
Proof.
  intros v p x H. unfold parseKubernetesOwnedObject in H. parse_inv; lossless_object.
Qed.

#[global] Instance external_lossless : Lossless parseExternalCleanup external_json.
Proof.
  intros v p x H. unfold parseExternalCleanup, projectId_of in H. parse_inv; lossless_object.
Qed.

#[global] Instance retained_lossless : Lossless parseRetainedExternal retained_json.
Proof.
  intros v p x H. unfold parseRetainedExternal, cluster_of, registry_repository_of, release_prefix_of,
    projectId_of in H. parse_inv; lossless_object.
Qed.

#[global] Instance cleanup_lossless : Lossless parseCleanup cleanup_json.
Proof. intros v p x H. unfold parseCleanup in H. parse_inv; lossless_object. Qed.

#[global] Instance diagnostic_lossless : Lossless parseDiagnostic diagnostic_json.
Proof.
  intros v p x H. unfold parseDiagnostic, extension_of, registry_repository_of, release_prefix_of,
    projectId_of in H. parse_inv; lossless_object.
Qed.

#[global] Instance log_lossless : Lossless parseLog log_json.
Proof.
  intros v p x H. unfold parseLog in H. parse_inv; lossless_object.
Qed.

#[global] Instance requirement_lossless : Lossless parseKubernetesRequirement requirement_json.
Proof.
  intros v p x H. unfold parseKubernetesRequirement, resource_of in H. parse_inv; lossless_object.
Qed.

(** ** Maps and free-form objects *)

Lemma metadata_entries_inv fs p labels m : metadata_entries fs p labels = Returns m → map (λ '(k, v), (k, JStr v)) m = fs.
Proof.
  revert m. induction fs as [|[k v] fs IH]; intros m; simpl; [by intros [= <-]|].
  destruct (assertSafeAnnotationName _); [|done]. simpl. destruct v; try done.
  intros H. repeat parse_step. simpl. f_equal. by eapply IH.
Qed.

#[global] Instance metadata_lossless labels :
  Lossless (λ v p, parseKubernetesMetadataMap v p labels) string_map.
Proof.
  intros v p m H. unfold parseKubernetesMetadataMap in H.
  apply obind_Returns in H as (fs & ->%object_inv & Hm%metadata_entries_inv).
  eexists; split; [done|]. intros Hwf. unfold string_map. rewrite Hm. by apply jeq_refl.
Qed.

Lemma attribute_entries_inv fs p m : attribute_entries fs p = Returns m → map (λ '(k, v), (k, JStr v)) m = fs.
Proof.
  revert m. induction fs as [|[k v] fs IH]; intros m; cbn [attribute_entries]; [by intros [= <-]|].
  destruct (negb _); [done|]. intros H. repeat parse_step. cbn [map]. rewrite (IH _ H0).
  apply safeText_inv in H. by injection H as ->.
Qed.

#[global] Instance attributes_lossless : Lossless parseTelemetryAttributes string_map.
Proof.
  intros v p m H. unfold parseTelemetryAttributes in H.
  apply obind_Returns in H as (fs & ->%object_inv & H).
  destruct (32 <? length fs)%nat; [done|]. apply attribute_entries_inv in H.
  eexists; split; [done|]. intros Hwf. unfold string_map. rewrite H. by apply jeq_refl.
Qed.

(** The sanitizer of free-form objects returns its argument. *)
Lemma parseKubernetesJson_inv v p d w : parseKubernetesJson v p d = Returns w → w = v.
Proof.
  revert p d w. induction v as [| |n| |l IH|fs IH] using json_nested_ind; intros p d w;
    cbn [parseKubernetesJson]; (destruct (64 <? d)%nat; [done|]).
  - by intros [= <-].
  - by intros [= <-].
  - destruct n; by intros [= <-].
  - by intros [= <-].
  - destruct (1024 <? length l)%nat; [done|]. intros (l' & Hl & [= <-])%obind_Returns. f_equal.
    revert l' Hl. generalize 0. induction IH as [|x l Hx _ IHl]; intros i l'; [by intros [= <-]|].
    intros (y & Hy & (ys & Hys & [= <-])%obind_Returns)%obind_Returns. f_equal; eauto.
  - intros (fs' & Hfs & [= <-])%obind_Returns. f_equal.
    revert fs' Hfs. induction IH as [|[k x] fs Hx _ IHl]; intros fs'; [by intros [= <-]|].
    intros (y & Hy & (ys & Hys & [= <-])%obind_Returns)%obind_Returns. simpl in *.
    f_equal; [f_equal|]; eauto.
Qed.

#[global] Instance body_lossless : Lossless parseBody id.
Proof.
  intros v p x H. unfold parseBody in H. destruct v as [v|]; [|done].
  apply parseKubernetesJson_inv in H as ->. eexists; split; [done|]. apply jeq_refl.
Qed.

(** *** Manifests *)

(** A manifest whose body, when it has one, is not a falsy value. *)
Definition body_kept (w : json) : Prop :=
  ∀ fs b, w = JObj fs → prop fs "body" = Some b → truthy b = true.

Lemma jeq_truthy j w : jeq j w → truthy j = truthy w.
Proof. by destruct 1. Qed.

Lemma manifest_body_inv fs p o :
  manifest_body fs p = Returns o → wf_json (JObj fs) → body_kept (JObj fs) →
  faithful_opt id (prop fs "body") o.
Proof.
  unfold manifest_body. intros (b & Hb%(when_own_faithful parseBody _) & H)%obind_Returns Hwf Hk.
  destruct b as [b|]; [|by injection H as <-]. simpl in Hb. destruct (truthy b) eqn:Ht.
  - by repeat parse_step.
  - destruct Hb as (w & Hw & Hj). specialize (Hk _ _ eq_refl Hw).
    rewrite <- (jeq_truthy _ _ (Hj (wf_prop _ _ _ Hwf Hw))) in Hk. unfold id in Hk. congruence.
Qed.

Lemma manifest_faithful v p x :
  parseKubernetesManifest v p = Returns x →
  ∃ w, v = Some w ∧ (wf_json w → body_kept w → jeq (manifest_json x) w).
Proof.
  intros H. unfold parseKubernetesManifest, resource_of in H. parse_inv;
    (eexists; split; [reflexivity|]; intros ? Hk);
    match goal with
    | H : manifest_body _ _ = Returns ?o |- _ =>
        eapply manifest_body_inv in H; [|assumption|exact Hk]; destruct o
    end;
    match goal with |- jeq ?a ?b => let a' := eval hnf in a in change (jeq a' b) end; same_object.
Qed.

(** *** Telemetry *)

Lemma oneOf_lossless l : Lossless (λ v p, oneOf v l p) JStr.
Proof. intros v p s [-> _]%oneOf_inv. by apply faithful_str. Qed.
#[export] Hint Resolve oneOf_lossless : typeclass_instances.

Lemma telemetryId_inv v p s : telemetryId v p = Returns s → v = Some (JStr s).
Proof.
  unfold telemetryId. intros (t & ->%safeText_inv & H)%obind_Returns. destruct (re_test _ _); naive_solver.
Qed.

Ltac telemetry_inv :=
  repeat match goal with H : telemetryId _ _ = Returns _ |- _ => apply telemetryId_inv in H end; parse_inv.

#[global] Instance activation_lossless : Lossless parseTelemetryActivation activation_json.
Proof. intros v p x H. unfold parseTelemetryActivation in H. parse_inv; lossless_object. Qed.

#[global] Instance signal_lossless : Lossless parseTelemetrySignal signal_json.
Proof. intros v p x H. unfold parseTelemetrySignal in H. parse_inv; lossless_object. Qed.

#[global] Instance workload_lossless : Lossless parseTelemetryWorkload workload_json.
Proof.
  intros v p x H. unfold parseTelemetryWorkload in H. repeat parse_step; telemetry_inv; lossless_object.
Qed.

#[global] Instance telemetry_lossless : Lossless parseTelemetrySource telemetry_json.
Proof.
  intros v p x H. unfold parseTelemetrySource in H. repeat parse_step; telemetry_inv; lossless_object.
Qed.

#[global] Instance telemetry_list_lossless n :
  Lossless (λ v p, array v p parseTelemetrySource n) (λ l, JArr (map telemetry_json l)).
Proof. intros v p l H. by eapply array_faithful in H; [|apply _]. Qed.

(** *** The plan *)

(** The manifests of a document. *)
Definition document_objects (v : json) : option json :=
  match v with
  | JObj fs =>
      match prop fs "operations" with
      | Some (JObj ops) =>
          match prop ops "resources" with Some (JObj res) => prop res "objects" | _ => None end
      | _ => None
      end
  | _ => None
  end.

(** No manifest of the document has a falsy body. *)
Definition bodies_kept (v : json) : Prop :=
  ∀ l, document_objects v = Some (JArr l) → Forall body_kept l.

Lemma objects_faithful v p n xs :
  array v p parseKubernetesManifest n = Returns xs →
  (∀ l, v = Some (JArr l) → Forall body_kept l) →
  faithful (λ l, JArr (map manifest_json l)) v xs.
Proof.
  intros (l & -> & _ & Hall)%array_inv Hk. specialize (Hk l eq_refl).
  eexists; split; [done|]. intros Hwf%wf_arr. constructor.
  induction Hall as [|w x l xs [q Hq] _ IH]; simpl; [constructor|].
  inversion Hwf; inversion Hk; subst. constructor; [|by apply IH].
  destruct (manifest_faithful _ _ _ Hq) as (w' & [= <-] & Hj). by apply Hj.
Qed.

Lemma document_objects_path fs ops res o :
  prop fs "operations" = Some (JObj ops) → prop ops "resources" = Some (JObj res) →
  prop res "objects" = o → document_objects (JObj fs) = o.
Proof. intros H1 H2 <-. unfold document_objects. by rewrite H1, H2. Qed.

Lemma parsePlan_lossless isIP v plan :
  parsePlan isIP (Some v) = Returns plan → wf_json v → bodies_kept v → jeq (plan_json plan) v.
Proof.
  intros H Hwf Hk. unfold parsePlan, parseOperations in H.
  parse_inv.
  all: match goal with
    | H : array _ _ parseKubernetesManifest _ = Returns _ |- _ => apply objects_faithful in H
    end.
  all: try (by intros l' Hl'; apply (Hk l'); eapply document_objects_path; eassumption).
  all: match goal with |- jeq ?a ?b => let a' := eval hnf in a in change (jeq a' b) end; same_object.
Qed.

(** ** A sample document *)

Definition sample_ref (apiVersion resource name : string) : json :=
  ref_json (mkObjectRef apiVersion resource name (Some "shop")).

Definition sample_gateway : json :=
  JObj [text "apiVersion" "gateway.networking.k8s.io/v1"; text "kind" "Gateway";
        text "resource" "gateways";
        ("metadata", JObj [text "name" "shop-gateway"; text "namespace" "shop"]);
        ("body", JObj [("spec", JObj [("addresses", JArr
          [JObj [text "type" "NamedAddress"; text "value" "shop-ip"]])])])].

(** The keys are not in the order of the parser's literals. *)
Definition sample_document : json :=
  JObj [kind_is COMPOSITION_PLAN_KIND; text "apiVersion" COMPOSITION_PLAN_API_VERSION;
    ("operations", JObj
      [("logs", JArr [log_json (mkLog "shop" "shop")]); ("diagnostics", JArr []);
       ("cleanup", cleanup_json (mkCleanup
          [mkOwned (mkObjectRef "v1" "services" "shop-app" (Some "shop")) "helm" "shop" None]
          [CleanGlobalAddress "my-project" "shop-ip"] []));
       ("routing", routing_json (mkRouting "envoy-ext-proc-v3" "closed"
          (Some (GcpTrafficExtensionV1 "my-project" "shop-ext" "shop-ip"))
          (ExternalExtProc "tls" [TrafficExtensionReady "my-project" "shop-ext" "shop-ip"])));
       ("cdn", JObj [kind_is "none"]); ("cache", JObj [kind_is "none"]);
       ("network", network_json (mkNetwork NotRequired (StaticCidrs ["10.0.0.0/8"])));
       ("resources", JObj [("readiness", JArr []); ("objects", JArr [sample_gateway])])]);
    ("requirements", JObj [("kubernetes", JObj [("resources", JArr []); text "minimumVersion" "1.34.1"])]);
    ("target", JObj [text "fingerprint"
        "sha256:0123456789abcdef0123456789abcdef0123456789abcdef0123456789abcdef";
      ("identity", identity_json (GkeResource "my-project" "prod" (mkLocation "region" "europe-west1") None));
      ("access", access_json (KubeconfigContext "prod"));
      ("registry", registry_json (mkRegistry "europe-docker.pkg.dev/my-project/shop"
                                   AmbientCredentials OciDistribution))]);
    ("metadata", JObj [text "releaseName" "shop"; text "namespace" "shop"; text "buildId" "v42"])].

(** A stand-in for net.isIP that knows one address. *)
Definition sample_isIP (s : string) : Z := if String.eqb s "10.0.0.0" then 4%Z else 0%Z.

Definition sample_plan : CompositionPlan :=
  match parseCompositionPlan sample_isIP sample_document with
  | Returns p => p
  | Throws _ => mkPlan "" "" "" "" Unverified KubeconfigCurrentContext
      (mkRegistry "" AmbientCredentials OciDistribution) "" [] [] [] (mkNetwork NotRequired NotRequired)
      CacheNone CdnNone (mkRouting "" "" None (ExternalExtProc "" [])) (mkCleanup [] [] []) [] [] None
  end.

Example sample_parses : parseCompositionPlan sample_isIP sample_document = Returns sample_plan.
Proof. vm_compute. reflexivity. Qed.

Lemma parse_plan_parts isIP v plan :
  parseCompositionPlan isIP v = Returns plan →
  parsePlan isIP (Some v) = Returns plan
  ∧ assertUniqueTelemetryEntries (map source_id (default [] (telemetry plan)))
      "$.operations.telemetry" "source id" = Returns tt
  ∧ check_namespaces plan (scoped_namespaces plan) = Returns tt
  ∧ check_routing_service plan = Returns tt
  ∧ check_releases plan (map log_releaseName (logs plan)) "$.operations.logs"
      "all log selectors must use release " = Returns tt
  ∧ check_releases plan (map owned_releaseLabel (contributedObjects (cleanup plan)))
      "$.operations.cleanup.kubernetes.contributedObjects" "all ownership labels must use release " = Returns tt
  ∧ assertGcpTrafficExtensionTopology (identity plan) (routing plan) (objects plan)
      "$.operations.routing" = Returns tt.
Proof.
  intros H. unfold parseCompositionPlan in H. apply obind_Returns in H as (p & Hp & H).
  repeat (apply obind_Returns in H as ([] & ? & H)). injection H as ->. done.
Qed.



(** ** Confinement to the release *)

Lemma check_namespaces_inv plan groups :
  check_namespaces plan groups = Returns tt →
  ∀ path ns n, (path, ns) ∈ groups → n ∈ ns → n = namespace plan.
Proof.
  induction groups as [|[path' ns'] groups IH]; simpl; [by intros _ ? ? ? ?%not_elem_of_nil|].
  destruct (filter _ ns') as [|m l] eqn:Hf; [|done]. intros Hg path ns n [Heq|Hin]%elem_of_cons Hn; [|eauto].
  simplify_eq. destruct (decide (n = namespace plan)) as [|Hne]; [done|].
  assert (n ∈ filter (λ entry, entry ≠ namespace plan) ns') as Hin by by apply list_elem_of_filter.
  rewrite Hf in Hin. by apply not_elem_of_nil in Hin.
Qed.

Lemma check_releases_inv plan rs path message :
  check_releases plan rs path message = Returns tt → ∀ r, r ∈ rs → r = releaseName plan.
Proof.
  unfold check_releases. destruct (forallb _ rs) eqn:Hf; [|done]. intros _ r Hr.
  rewrite forallb_In in Hf. by apply String.eqb_eq, Hf.
Qed.

Lemma elem_of_flat_map {A B} (f : A → list B) l x y : x ∈ l → y ∈ f x → y ∈ flat_map f l.
Proof. rewrite !list_elem_of_In, in_flat_map. eauto. Qed.

Lemma elem_of_option_list {A} (o : option A) x : o = Some x → x ∈ option_list o.
Proof. intros ->. by left. Qed.



(** ** Safety of the objects *)

Lemma some_in_false keys b :
  some_in keys b = Returns false → ∀ fs k, b = JObj fs → k ∈ keys → prop fs k = None.
Proof.
  induction keys as [|k keys IH]; cbn [some_in]; [by intros _ ? ? _ ?%not_elem_of_nil|].
  intros (r & Hr & H)%obind_Returns fs k' -> [->|Hin]%elem_of_cons.
  - destruct r; [done|]. simpl in Hr. injection Hr. unfold has_own. by destruct (prop fs k).
  - destruct r; [done|]. by eapply IH.
Qed.

Lemma manifest_body_identity fs p o :
  manifest_body fs p = Returns o →
  ∀ bfs k, o = Some (JObj bfs) → k ∈ identity_fields → prop bfs k = None.
Proof.
  unfold manifest_body. intros (b & _ & H)%obind_Returns bfs k ->. destruct b as [b|]; [|done].
  destruct (truthy b); [|done]. apply obind_Returns in H as (r & Hr & H). destruct r; [done|].
  injection H as ->. intros Hk. by eapply some_in_false.
Qed.

Lemma name_check_inert a k s u : manifest_name_check a k s = Returns u → all_chars inert s = true.
Proof.
  destruct u. unfold manifest_name_check. destruct (_ && _); [|destruct (_ && _)].
  - unfold serviceNameCheck, assertSafeServiceName. cbn [as_string]. intros H%rejected_if. b2p.
    by apply (re_inert DNS_1035_LABEL_RE); [vm_compute|].
  - unfold namespaceCheck, assertSafeNamespace, is_namespace_name. cbn [as_string].
    intros H%rejected_if. b2p. by apply (re_inert NAMESPACE_RE); [vm_compute|].
  - apply object_name_inert.
Qed.

Lemma namespace_check_inert s u : namespaceCheck s = Returns u → all_chars inert s = true.
Proof.
  destruct u. unfold namespaceCheck, assertSafeNamespace, is_namespace_name. cbn [as_string].
  intros H%rejected_if. b2p. by apply (re_inert NAMESPACE_RE); [vm_compute|].
Qed.

Lemma optional_namespace_inv fs p o :
  optionalString fs "namespace" p (Some namespaceCheck) = Returns o →
  ∀ n, o = Some n → all_chars inert n = true.
Proof.
  unfold optionalString. destruct (prop fs "namespace"); [|by intros [= <-]].
  intros (s & (_ & _ & u & Hu)%validated_inv & [= <-])%obind_Returns n [= ->].
  by eapply namespace_check_inert.
Qed.

(** What is spliced into charts and commands from a manifest. *)
Definition safe_manifest (m : KubernetesManifest) : Prop :=
  m_kind m ≠ "Secret" ∧ all_chars inert (m_name m) = true
  ∧ (∀ n, m_namespace m = Some n → all_chars inert n = true)
  ∧ (∀ fs k, m_body m = Some (JObj fs) → k ∈ identity_fields → prop fs k = None).

Lemma manifest_safe v p m : parseKubernetesManifest v p = Returns m → safe_manifest m.
Proof.
  intros H. unfold parseKubernetesManifest in H. repeat parse_step.
  unfold safe_manifest. cbn. split_and!.
  - intros ->. done.
  - match goal with H : validated _ _ (manifest_name_check _ _) = _ |- _ =>
      apply validated_inv in H as (_ & _ & u & Hu) end. by eapply name_check_inert.
  - by eapply optional_namespace_inv.
  - by eapply manifest_body_identity.
Qed.

Lemma array_forall {A} (parse : option json → string → result A) (P : A → Prop) v p n xs :
  (∀ v p x, parse v p = Returns x → P x) → array v p parse n = Returns xs → ∀ x, x ∈ xs → P x.
Proof.
  intros HP (l & _ & _ & Hall)%array_inv. apply Forall_forall.
  induction Hall as [|w x l xs [q Hq] _ IH]; constructor; eauto.
Qed.

(** Nothing unsafe reaches the cluster from an accepted plan: its release name, namespace and
    build id are inert text, and so are the name and namespace of each manifest; no manifest is a
    Secret, and none overrides its identity or status through its body. *)
Theorem plan_objects_safe isIP v plan :
  parseCompositionPlan isIP v = Returns plan →
  all_chars inert (releaseName plan) = true ∧ all_chars inert (namespace plan) = true
  ∧ all_chars inert (plan_buildId plan) = true ∧ ∀ m, m ∈ objects plan → safe_manifest m.
Proof.
  intros (H & _)%parse_plan_parts. unfold parsePlan, parseOperations in H. repeat parse_step. cbn.
  repeat match goal with
    | H : validated _ _ _ = Returns _ |- _ => apply validated_inv in H as (_ & _ & [] & H)
    end.
  split_and!.
  - apply rejected_if in H16. b2p. by apply (re_inert RELEASE_NAME_RE); [vm_compute|].
  - by eapply namespace_check_inert.
  - apply rejected_if in H18. b2p. by apply (re_inert BUILD_ID_RE); [vm_compute|].
  - match goal with H : array _ _ parseKubernetesManifest _ = _ |- _ =>
      exact (array_forall _ safe_manifest _ _ _ _ manifest_safe H) end.
Qed.

Lemma plan_objects_safe_witness :
  parseCompositionPlan sample_isIP sample_document = Returns sample_plan
  ∧ ∀ m, m ∈ objects sample_plan → safe_manifest m.
Proof.
  split; [vm_compute; reflexivity|].
  apply (plan_objects_safe sample_isIP sample_document sample_plan). vm_compute. reflexivity.
Defined.

(** ** GCP topology *)

Lemma routing_registration_tls v p r :
  parseRouting v p = Returns r → is_registered (registration r) = true →
  protocol r = "envoy-ext-proc-v3" ∧ ∃ rs, dataplane r = ExternalExtProc "tls" rs.
Proof.
  intros H Hr. unfold parseRouting, parseDataplane in H. repeat parse_step; cbn in *; simplify_eq;
    rewrite ?Hr in *; try done.
  match goal with H : oneOf _ _ _ = Returns ?x, N : String.eqb ?x _ = false |- _ =>
    apply oneOf_inv in H as [_ Hin]; rename N into Hne end.
  apply elem_of_cons in Hin as [->|Hin%list_elem_of_singleton]; [done|]. subst.
  split; [done|].
  match goal with H : _ && negb _ = false |- _ =>
    simpl in H; apply negb_false_iff, String.eqb_eq in H as -> end. eauto.
Qed.

Lemma parsed_routing isIP v plan :
  parsePlan isIP (Some v) = Returns plan → ∃ w p, parseRouting w p = Returns (routing plan).
Proof. intros H. unfold parsePlan, parseOperations in H. repeat parse_step; cbn; eauto. Qed.

(** A plan that registers a GCP traffic extension has exactly the topology the registration
    needs: an ext-proc dataplane over TLS, a readiness probe of the same extension, one Gateway
    address with the registered name, and a GKE cluster in the registered project. *)
Theorem registered_topology isIP v plan p e a :
  parseCompositionPlan isIP v = Returns plan →
  registration (routing plan) = Some (GcpTrafficExtensionV1 p e a) →
  protocol (routing plan) = "envoy-ext-proc-v3"
  ∧ (∃ rs, dataplane (routing plan) = ExternalExtProc "tls" rs ∧ TrafficExtensionReady p e a ∈ rs)
  ∧ (∀ p' c l u, identity plan = GkeResource p' c l u → p' = p)
  ∧ address_matches a (objects plan) = 1.
Proof.
  intros (Hp & _ & _ & _ & _ & _ & Ht)%parse_plan_parts Hreg.
  apply parsed_routing in Hp as (w & q & Hr).
  apply routing_registration_tls in Hr as [Hproto (rs & Hd)]; [|by rewrite Hreg].
  unfold assertGcpTrafficExtensionTopology in Ht. rewrite Hreg, Hd in Ht. cbn [dataplane_readiness] in Ht.
  destruct (negb (existsb _ rs)) eqn:He; [done|]. apply obind_Returns in Ht as (u & Hid & Ht).
  destruct (negb (_ =? 1)) eqn:Hone; [done|]. b2p.
  split_and!; [done| | |done].
  - exists rs. split; [done|]. apply existsb_In in He as (r & Hin & Hm).
    destruct r; try done. simpl in Hm. b2p.
    repeat match goal with H : String.eqb _ _ = true |- _ => apply String.eqb_eq in H as -> end. done.
  - intros p' c l u' Hi. rewrite Hi in Hid. by destruct (String.eqb_spec p' p).
Qed.

Lemma registered_topology_witness :
  protocol (routing sample_plan) = "envoy-ext-proc-v3"
  ∧ (∃ rs, dataplane (routing sample_plan) = ExternalExtProc "tls" rs
           ∧ TrafficExtensionReady "my-project" "shop-ext" "shop-ip" ∈ rs)
  ∧ (∀ p' c l u, identity sample_plan = GkeResource p' c l u → p' = "my-project")
  ∧ address_matches "shop-ip" (objects sample_plan) = 1.
Proof.
  apply (registered_topology sample_isIP sample_document sample_plan "my-project" "shop-ext" "shop-ip");
    vm_compute; reflexivity.
Defined.

(** ** Versions *)

(** Lexicographic order of version triples. *)
Definition version_le (a b : Z * Z * Z) : Prop :=
  let '(a0, a1, a2) := a in
  let '(b0, b1, b2) := b in
  (a0 < b0 ∨ a0 = b0 ∧ (a1 < b1 ∨ a1 = b1 ∧ a2 ≤ b2))%Z.

Lemma compareVersion_spec a b : (compareVersion a b <? 0)%Z = false ↔ version_le b a.
Proof.
  destruct a as [[a0 a1] a2], b as [[b0 b1] b2]. unfold compareVersion, version_le.
  rewrite Z.ltb_ge. split_ifs; b2p; lia.
Qed.

Lemma minimum_version_spec r :
  assertKubernetesMinimumVersion r = Returns tt
  ↔ ∃ vr, version_match r = Some vr ∧ version_le (1, 33, 0)%Z vr.
Proof.
  unfold assertKubernetesMinimumVersion, parseVersion.
  destruct (version_match r) as [vr|]; [|naive_solver].
  change (version_match MINIMUM_KUBERNETES_VERSION) with (Some (1, 33, 0)%Z). cbn [obind].
  destruct (compareVersion _ _ <? 0)%Z eqn:Hc.
  - split; [done|]. intros (v & [= <-] & Hv). rewrite <- compareVersion_spec in Hv. congruence.
  - split; [|done]. intros _. exists vr. split; [done|]. by apply compareVersion_spec.
Qed.

(** The server gate is the lexicographic order on versions: a server is accepted exactly when
    both versions are semantic versions, the requirement is at least 1.33.0, and the server is at
    least the requirement. *)
Theorem server_version_gate actual required :
  assertKubernetesServerVersion actual required = Returns tt
  ↔ ∃ va vr, version_match actual = Some va ∧ version_match required = Some vr
             ∧ version_le (1, 33, 0)%Z vr ∧ version_le vr va.
Proof.
  unfold assertKubernetesServerVersion. rewrite obind_Returns. split.
  - intros ([] & (vr & Hr & Hle)%minimum_version_spec & H). unfold parseVersion in H. rewrite Hr in H.
    destruct (version_match actual) as [va|]; [|done]. cbn [obind] in H.
    destruct (compareVersion va vr <? 0)%Z eqn:Hc; [done|]. apply compareVersion_spec in Hc. eauto 10.
  - intros (va & vr & Ha & Hr & Hle & Hva). exists tt. split; [apply minimum_version_spec; eauto|].
    unfold parseVersion. rewrite Ha, Hr. cbn [obind]. apply compareVersion_spec in Hva. by rewrite Hva.
Qed.

(** ** Bodies outside the declared type *)

Definition odd_body (body : json) : json :=
  JObj [text "apiVersion" "v1"; text "kind" "Service"; text "resource" "services";
        ("metadata", JObj [text "name" "shop-app"]); ("body", body)].

(** A falsy body is dropped, so a document with one and a document without have the same plan. *)
Example falsy_body_dropped :
  m_body <$> match parseKubernetesManifest (Some (odd_body JNull)) "$" with Returns m => Some m | _ => None end
  = Some None.
Proof. vm_compute. reflexivity. Qed.

(** An array is accepted as a body. *)
Example array_body_accepted :
  m_body <$> match parseKubernetesManifest (Some (odd_body (JArr []))) "$" with
             | Returns m => Some m | _ => None end
  = Some (Some (JArr [])).
Proof. vm_compute. reflexivity. Qed.

End PlanFacts.
