(* ===== verification/PlanFingerprint.v ===== *)
(** * The fingerprint of a composition plan

    Models src/src/composition-plan/fingerprint.ts: canonical JSON, the plan digest and the
    verification of a plan against its expected digest.  SHA-256 (node:crypto) is a parameter. *)
From Stdlib Require Import Ascii String DecimalString DecimalZ.
From stdpp Require Import sorting.
From S2P Require Import Prelude JsString Regex Json K8sNames PlanTypes PlanParse PlanFacts.
From S2P Require Import JsonParse.
Import K8sNames PlanTypes PlanParse PlanFacts.
Local Open Scope stdpp_scope.
Local Open Scope js_scope.

Module PlanFingerprint.

(** ** Canonical JSON *)

(** The order of Array.prototype.sort on strings: by code units. *)
Definition key_le (a b : string) : Prop := String.leb a b = true.

#[global] Instance key_le_dec : RelDecision key_le.
Proof. intros a b. unfold key_le. apply _. Defined.

Definition sort_keys (keys : list string) : list string := merge_sort key_le keys.

Fixpoint assoc {A} (l : list (string * A)) (key : string) : option A :=
  match l with
  | [] => None
  | (k, x) :: l' => if String.eqb k key then Some x else assoc l' key
  end.

Definition entry_of (rs : list (string * outcome string string)) (key : string) : outcome string string :=
  match assoc rs key with
  | Some r => let! t := r in Returns (json_quote key +:+ ":" +:+ t)
  | None => Throws ""
  end.

(** The texts of the members are computed once and taken in the sorted order of the keys. *)
Fixpoint canonicalize (value : json) (path : string) : outcome string string :=
  match value with
  | JNull => Returns "null"
  | JStr _ | JBool _ => Returns (stringify value)
  | JNum n =>
      match n with
      | NInf _ | NNaN => Throws ("Cannot fingerprint composition plan: " +:+ path +:+ " is not a finite number")
      | _ => Returns (stringify value)
      end
  | JArr l =>
      let! entries := (fix go (index : nat) (l : list json) : outcome string (list string) :=
        match l with
        | [] => Returns []
        | entry :: l' =>
            let! t := canonicalize entry (nest path index) in
            let! ts := go (S index) l' in Returns (t :: ts)
        end) 0 l in
      Returns ("[" +:+ join "," entries +:+ "]")
  | JObj fs =>
      let rs := map (λ f, (f.1, canonicalize f.2 (path +:+ "." +:+ f.1))) fs in
      let! entries := collect (map (entry_of rs) (sort_keys fs.*1)) in
      Returns ("{" +:+ join "," entries +:+ "}")
  end.

Section Fingerprint.
(** The hexadecimal SHA-256 digest of node:crypto, and net.isIP of node:net. *)
Variable sha256_hex : string → string.
Variable isIP : string → Z.

Definition canonicalCompositionPlanJson (plan : CompositionPlan) : outcome string string :=
  canonicalize (plan_json plan) "$".

Definition fingerprintCompositionPlan (plan : CompositionPlan) : outcome string string :=
  let! text := canonicalCompositionPlanJson plan in Returns ("sha256:" +:+ sha256_hex text).

Definition parseAndFingerprintCompositionPlan (value : json) : outcome string (CompositionPlan * string) :=
  let! plan := parseCompositionPlan isIP value in
  let! digest := fingerprintCompositionPlan plan in Returns (plan, digest).

Definition parseAndVerifyCompositionPlan (value : json) (expectedDigest : string)
    : outcome string CompositionPlan :=
  if negb (re_test DIGEST_RE expectedDigest)
  then Throws "Invalid expected composition-plan digest: expected sha256:<64 lowercase hex>"
  else
    let! pd := parseAndFingerprintCompositionPlan value in
    let '(plan, digest) := pd in
    if negb (String.eqb digest expectedDigest)
    then Throws ("Composition-plan digest mismatch: expected " +:+ expectedDigest +:+ ", calculated "
           +:+ digest +:+ ". Refusing to execute an unverified operational plan.")
    else Returns plan.
End Fingerprint.

(** ** The order of keys *)

#[global] Instance key_le_total : Total key_le.
Proof. intros a b. apply String.leb_total. Qed.

#[global] Instance key_le_antisymm : AntiSymm (=) key_le.
Proof. intros a b. apply String.leb_antisym. Qed.

Lemma ascii_compare_spec a b : Ascii.compare a b = N.compare (N_of_ascii a) (N_of_ascii b).
Proof. reflexivity. Qed.

Lemma leb_cons a x b y :
  String.leb (String a x) (String b y)
  = match N.compare (N_of_ascii a) (N_of_ascii b) with Lt => true | Eq => String.leb x y | Gt => false end.
Proof.
  unfold String.leb. simpl. rewrite ascii_compare_spec. by destruct (N.compare _ _).
Qed.

#[global] Instance key_le_trans : Transitive key_le.
Proof.
  intros x. unfold key_le. induction x as [|a x IH]; intros [|b y] [|c z]; try done.
  rewrite !leb_cons.
  destruct (N.compare_spec (N_of_ascii a) (N_of_ascii b)) as [H1|H1|H1]; try done;
    destruct (N.compare_spec (N_of_ascii b) (N_of_ascii c)) as [H2|H2|H2]; try done;
    destruct (N.compare_spec (N_of_ascii a) (N_of_ascii c)) as [H3|H3|H3]; try done; try lia.
  apply IH.
Qed.

Lemma sort_keys_perm l l' : l ≡ₚ l' → sort_keys l = sort_keys l'.
Proof.
  intros Hp. apply (Sorted_unique key_le); [apply Sorted_merge_sort; apply _..|].
  unfold sort_keys. by rewrite !merge_sort_Permutation.
Qed.

Lemma elem_of_sort_keys k l : k ∈ sort_keys l ↔ k ∈ l.
Proof. unfold sort_keys. by rewrite merge_sort_Permutation. Qed.

(** ** Canonical JSON is a function of the content *)

Lemma assoc_map {A} (G : string → json → A) fs k :
  assoc (map (λ f, (f.1, G f.1 f.2)) fs) k = G k <$> prop fs k.
Proof.
  induction fs as [|[k' v] fs IH]; simpl; [done|]. by destruct (String.eqb_spec k' k) as [->|].
Qed.

Definition member (fs : obj) (path k : string) : outcome string string :=
  match prop fs k with
  | Some v => let! t := canonicalize v (path +:+ "." +:+ k) in Returns (json_quote k +:+ ":" +:+ t)
  | None => Throws ""
  end.

(** The elements of an array, from an index on. *)
Fixpoint elements (l : list json) (path : string) (index : nat) : outcome string (list string) :=
  match l with
  | [] => Returns []
  | entry :: l' =>
      let! t := canonicalize entry (nest path index) in
      let! ts := elements l' path (S index) in Returns (t :: ts)
  end.

Lemma canonicalize_arr l path :
  canonicalize (JArr l) path
  = (let! entries := elements l path 0 in Returns ("[" +:+ join "," entries +:+ "]")).
Proof.
  cbn [canonicalize]. f_equal. generalize 0.
  induction l as [|x l IH]; intros i; [done|]. cbn [elements].
  destruct (canonicalize x _); [|done]. cbn [obind]. by rewrite IH.
Qed.

Lemma canonicalize_obj fs path :
  canonicalize (JObj fs) path
  = (let! entries := collect (map (member fs path) (sort_keys fs.*1)) in
     Returns ("{" +:+ join "," entries +:+ "}")).
Proof.
  cbn [canonicalize]. f_equal. f_equal. apply map_ext. intros k. unfold entry_of, member.
  rewrite (assoc_map (λ k v, canonicalize v (path +:+ "." +:+ k))). by destruct (prop fs k).
Qed.

Lemma same_keys fs fs' :
  NoDup fs.*1 → NoDup fs'.*1 → (∀ k, option_Forall2 jeq (prop fs k) (prop fs' k)) → fs.*1 ≡ₚ fs'.*1.
Proof.
  intros Hn Hn' Hall. apply NoDup_Permutation; [done..|]. intros k.
  specialize (Hall k). split; intros Hk; apply dec_stable; intros Hnot; apply prop_None in Hnot;
    rewrite Hnot in Hall; inversion Hall; by eapply prop_None in Hk.
Qed.

Lemma canonicalize_jeq j j' path : jeq j j' → canonicalize j path = canonicalize j' path.
Proof.
  revert j' path. induction j as [| | | |l IH|fs IH] using json_nested_ind; intros j' path Hj;
    inversion Hj as [| | | |l1 l2 Hl|fs1 fs2 Hn Hn' Hall]; subst; try done.
  - rewrite !canonicalize_arr. f_equal. clear Hj. generalize 0. revert l2 Hl.
    induction IH as [|x l Hx _ IHl]; intros l2 Hl i; inversion Hl as [|? y ? l2' Hxy Hl']; subst; [done|].
    cbn [elements]. rewrite (Hx _ _ Hxy). by rewrite (IHl _ Hl').
  - rewrite !canonicalize_obj. rewrite (sort_keys_perm _ _ (same_keys _ _ Hn Hn' Hall)).
    f_equal. f_equal. apply map_ext. intros k. unfold member. specialize (Hall k).
    destruct (prop fs k) as [v|] eqn:Hp; inversion Hall as [? v' Hv Heq|]; subst; [|done].
    rewrite Forall_forall in IH. apply prop_Some_elem in Hp. by rewrite (IH _ Hp _ _ Hv).
Qed.

(** ** Delimiters *)

(** What may follow a value in a canonical text. *)
Definition delimited (r : string) : bool :=
  match r with
  | EmptyString => true
  | String c _ => in_class false [(",", ","); ("]", "]"); ("}", "}")]%char c
  end.

Lemma collect_total {A} (l : list (outcome string A)) :
  (∀ m, m ∈ l → ∃ a, m = Returns a) → ∃ xs, collect l = Returns xs.
Proof.
  induction l as [|m l IH]; intros H; simpl; [by eexists|].
  destruct (H m (list_elem_of_here _ _)) as [a ->].
  destruct IH as [xs ->]; [|by eexists]. intros m' Hm. apply H. by right.
Qed.

Lemma canonicalize_total j path : nums_ok j = true → ∃ t, canonicalize j path = Returns t.
Proof.
  revert path. induction j as [| |n| |l IH|fs IH] using json_nested_ind; intros path Hok; try by eexists.
  - destruct n; try done; by eexists.
  - rewrite canonicalize_arr. simpl in Hok. rewrite forallb_In in Hok.
    assert (∀ i, ∃ ts, elements l path i = Returns ts) as H.
    { induction IH as [|x l Hx _ IHl]; intros i; [by eexists|]. cbn [elements].
      destruct (Hx (nest path i)) as [t ->]; [apply Hok; left|].
      destruct (IHl (λ y Hy, Hok y (list_elem_of_further _ _ _ Hy)) (S i)) as [ts ->]. by eexists. }
    destruct (H 0) as [ts ->]. by eexists.
  - rewrite canonicalize_obj. simpl in Hok. rewrite forallb_In in Hok.
    destruct (collect_total (map (member fs path) (sort_keys fs.*1))) as [ts ->]; [|by eexists].
    intros m (k & -> & Hk%(proj1 (elem_of_sort_keys _ _)))%list_elem_of_fmap.
    unfold member. destruct (prop fs k) as [v|] eqn:Hp; [|exfalso; exact (proj1 (prop_None _ _) Hp Hk)].
    apply prop_Some_elem in Hp. rewrite Forall_forall in IH.
    destruct (IH _ Hp (path +:+ "." +:+ k) (Hok _ Hp)) as [t Ht]. cbn [snd] in Ht. rewrite Ht. by eexists.
Qed.

(** ** The canonical text determines the value *)

(** The first character an escaped text stands for, and the rest of the text. *)
Definition unhex (c : ascii) : nat := if is_digit c then code c - 48 else code c - 87.

Definition unescape1 (s : string) : option (ascii * string) :=
  match s with
  | EmptyString => None
  | String c s' =>
      if Ascii.eqb c dquote then None
      else if Ascii.eqb c backslash then
        match s' with
        | String "b" r => Some (ascii_of_nat 8, r)
        | String "t" r => Some (ascii_of_nat 9, r)
        | String "n" r => Some (ascii_of_nat 10, r)
        | String "f" r => Some (ascii_of_nat 12, r)
        | String "r" r => Some (ascii_of_nat 13, r)
        | String "u" (String _ (String _ (String h (String l r)))) =>
            Some (ascii_of_nat (16 * unhex h + unhex l), r)
        | String d r => Some (d, r)
        | EmptyString => None
        end
      else Some (c, s')
  end.

Lemma unescape1_escape c x : unescape1 (escape_char c +:+ x) = Some (c, x).
Proof. destruct c as [[] [] [] [] [] [] [] []]; vm_compute; reflexivity. Qed.

Lemma quote_inj s s' r r' : json_quote s +:+ r = json_quote s' +:+ r' → s = s' ∧ r = r'.
Proof.
  unfold json_quote. simpl. rewrite !append_assoc. intros [= H]. revert s' H.
  induction s as [|c s IH]; intros [|c' s'] H; cbn [escape_text String.append] in H;
    rewrite ?append_assoc in H.
  - by injection H.
  - apply (f_equal unescape1) in H. rewrite unescape1_escape in H. done.
  - apply (f_equal unescape1) in H. rewrite unescape1_escape in H. done.
  - apply (f_equal unescape1) in H. rewrite !unescape1_escape in H. injection H as -> H.
    by destruct (IH _ H) as [-> ->].
Qed.

Lemma numeric_inj t t' r r' :
  all_chars numeric t = true → all_chars numeric t' = true → delimited r = true → delimited r' = true →
  t +:+ r = t' +:+ r' → t = t' ∧ r = r'.
Proof.
  assert (∀ c, numeric c = true → ∀ s, delimited (String c s) = false) as Hnd.
  { intros c Hc s. simpl. apply negb_true_iff. revert c Hc. apply class_impl. by vm_compute. }
  intros Ht Ht' Hr Hr'. revert t' Ht'. induction t as [|c t IH]; intros [|c' t'] Ht' H;
    cbn [all_chars String.append] in *; b2p.
  - done.
  - subst. by rewrite (Hnd c') in Hr.
  - subst. by rewrite (Hnd c) in Hr'.
  - injection H as -> H. by destruct (IH ltac:(done) t' ltac:(done) H) as [-> ->].
Qed.

Lemma num_text_numeric n : num_ok n = true → all_chars numeric (num_text n) = true.
Proof.
  destruct n; simpl; try done.
  - intros _. eapply all_chars_impl; [|apply z_text_chars]. apply class_impl. by vm_compute.
  - intros H. by b2p.
Qed.

Lemma num_text_inj n m : num_ok n = true → num_ok m = true → num_text n = num_text m → n = m.
Proof.
  destruct n, m; simpl; try done; intros Hn Hm Heq; b2p; subst.
  - f_equal. by apply z_text_inj.
  - destruct (z_text_chars n). congruence.
  - destruct (z_text_chars n). congruence.
  - done.
Qed.

(** The first character of a number. *)
Lemma num_text_first n : num_ok n = true → ∃ c s, num_text n = String c s ∧ digit_or_sign c = true.
Proof.
  destruct n as [n|t| |]; simpl; try done.
  - intros _. destruct (z_text_chars n) as [Hc Hne]. destruct (z_text n) as [|c s]; [done|].
    simpl in Hc. b2p. eauto.
  - intros H. b2p. destruct t; [done|]. eauto.
Qed.

(** The kind of a value, and the kind its first character tells. *)
Definition shape (j : json) : nat :=
  match j with
  | JNull => 0 | JBool true => 1 | JBool false => 2 | JNum _ => 3 | JStr _ => 4 | JArr _ => 5 | JObj _ => 6
  end.

Definition shape_of_char (c : ascii) : option nat :=
  match c with
  | "n" => Some 0 | "t" => Some 1 | "f" => Some 2 | "034" => Some 4 | "[" => Some 5 | "{" => Some 6
  | _ => if digit_or_sign c then Some 3 else None
  end%char.

Lemma canonicalize_first j p t :
  nums_ok j = true → canonicalize j p = Returns t →
  ∃ c s, t = String c s ∧ shape_of_char c = Some (shape j).
Proof.
  destruct j as [|[]|n|s|l|fs].
  - intros _ [= <-]. by eexists _, _.
  - intros _ [= <-]. by eexists _, _.
  - intros _ [= <-]. by eexists _, _.
  - simpl. intros Hok. destruct (num_text_first n Hok) as (c & s & Hc & Hd).
    assert (∃ c s, num_text n = String c s ∧ shape_of_char c = Some 3) as H.
    { rewrite Hc. exists c, s. split; [done|].
      assert (match shape_of_char c with Some 3 => true | _ => false end = true) as Hs.
      { clear Hc. revert c Hd. apply class_impl. by vm_compute. }
      by destruct (shape_of_char c) as [[|[|[|[|]]]]|]. }
    destruct n; try done; intros [= <-]; apply H.
  - intros _ [= <-]. by eexists _, _.
  - intros _. rewrite canonicalize_arr. intros (ts & _ & [= <-])%obind_Returns. by eexists _, _.
  - intros _. rewrite canonicalize_obj. intros (ts & _ & [= <-])%obind_Returns. by eexists _, _.
Qed.

(** *** Sequences of texts *)

(** [T] holds of values whose canonical texts can be told apart from what follows them. *)
Definition distinguishes (j : json) : Prop :=
  ∀ j' p p' t t' r r',
    nums_ok j = true → nums_ok j' = true → wf_json j → wf_json j' →
    canonicalize j p = Returns t → canonicalize j' p' = Returns t' →
    t +:+ r = t' +:+ r' → delimited r = true → delimited r' = true → jeq j j' ∧ r = r'.

(** The text of a list after its opening bracket. *)
Definition tail_text (ts : list string) (close r : string) : string := join "," ts +:+ close +:+ r.

Lemma join_cons t ts close r :
  join "," (t :: ts) +:+ close +:+ r
  = t +:+ match ts with [] => close +:+ r | _ => "," +:+ join "," ts +:+ close +:+ r end.
Proof. destruct ts; simpl; by rewrite ?append_assoc. Qed.

Lemma elements_cons_inv x l p i ts :
  elements (x :: l) p i = Returns ts →
  ∃ t ts', canonicalize x (nest p i) = Returns t ∧ elements l p (S i) = Returns ts' ∧ ts = t :: ts'.
Proof.
  cbn [elements]. intros (t & Ht & (ts' & Hts & [= <-])%obind_Returns)%obind_Returns. eauto 10.
Qed.

(** A value does not start with a closing bracket. *)
Lemma canonicalize_not_close j p t x y c :
  nums_ok j = true → canonicalize j p = Returns t →
  shape_of_char c = None → t +:+ x ≠ String c y.
Proof.
  intros Hok Hc Hs Heq. destruct (canonicalize_first j p t Hok Hc) as (d & s & -> & Hd).
  injection Heq as -> _. congruence.
Qed.

Lemma tail_delimited (ts : list string) r :
  delimited match ts with [] => "]" +:+ r | _ => "," +:+ join "," ts +:+ "]" +:+ r end = true.
Proof. by destruct ts. Qed.

Lemma elements_inj l : Forall distinguishes l →
  ∀ l' p p' i i' ts ts' r r',
    forallb nums_ok l = true → forallb nums_ok l' = true → Forall wf_json l → Forall wf_json l' →
    elements l p i = Returns ts → elements l' p' i' = Returns ts' →
    join "," ts +:+ "]" +:+ r = join "," ts' +:+ "]" +:+ r' → Forall2 jeq l l' ∧ r = r'.
Proof.
  intros Hd. induction Hd as [|x l Hx Hd IH];
    intros [|x' l'] p p' i i' ts ts' r r' Hok Hok' Hwf Hwf' Hts Hts' Heq.
  - injection Hts as <-. injection Hts' as <-. split; [constructor|]. simpl in Heq. by injection Heq.
  - exfalso. injection Hts as <-. apply elements_cons_inv in Hts' as (t & ts'' & Ht & _ & ->).
    rewrite join_cons in Heq. simpl in Hok'. b2p.
    by eapply (canonicalize_not_close x' _ t _ r "]"); [..|symmetry; exact Heq].
  - exfalso. injection Hts' as <-. apply elements_cons_inv in Hts as (t & ts'' & Ht & _ & ->).
    rewrite join_cons in Heq. simpl in Hok. b2p.
    by eapply (canonicalize_not_close x _ t _ r' "]"); [..|exact Heq].
  - apply elements_cons_inv in Hts as (t & us & Ht & Hus & ->).
    apply elements_cons_inv in Hts' as (t' & us' & Ht' & Hus' & ->).
    rewrite !join_cons in Heq. simpl in Hok, Hok'. apply andb_true_iff in Hok as [Hox Hok].
    apply andb_true_iff in Hok' as [Hox' Hok'].
    apply Forall_cons in Hwf as [Hwx Hwf]. apply Forall_cons in Hwf' as [Hwx' Hwf'].
    destruct (Hx x' _ _ t t' _ _ Hox Hox' Hwx Hwx' Ht Ht' Heq (tail_delimited _ _) (tail_delimited _ _))
      as [Hj Htail].
    assert (join "," us +:+ "]" +:+ r = join "," us' +:+ "]" +:+ r') as Heq'.
    { destruct us, us'; try discriminate Htail; [done|]. by injection Htail. }
    destruct (IH l' p p' _ _ us us' r r' Hok Hok' Hwf Hwf' Hus Hus' Heq') as [Hall ->].
    split; [by constructor|done].
Qed.

(** *** Members *)

Lemma collect_cons_inv {A} (m : outcome string A) l xs :
  collect (m :: l) = Returns xs → ∃ x xs', m = Returns x ∧ collect l = Returns xs' ∧ xs = x :: xs'.
Proof. simpl. intros (x & Hx & (xs' & Hxs & [= <-])%obind_Returns)%obind_Returns. eauto 10. Qed.

Lemma member_inv fs p k e :
  member fs p k = Returns e →
  ∃ v t, prop fs k = Some v ∧ canonicalize v (p +:+ "." +:+ k) = Returns t
         ∧ e = json_quote k +:+ ":" +:+ t.
Proof.
  unfold member. destruct (prop fs k) as [v|]; [|done]. intros (t & Ht & [= <-])%obind_Returns. eauto 10.
Qed.

Lemma tail_delimited_brace (ts : list string) r :
  delimited match ts with [] => "}" +:+ r | _ => "," +:+ join "," ts +:+ "}" +:+ r end = true.
Proof. by destruct ts. Qed.

Lemma members_inj fs fs' : Forall (λ f, distinguishes f.2) fs →
  wf_json (JObj fs) → wf_json (JObj fs') →
  forallb (λ f, nums_ok f.2) fs = true → forallb (λ f, nums_ok f.2) fs' = true →
  ∀ ks ks' p p' es es' r r',
    collect (map (member fs p) ks) = Returns es → collect (map (member fs' p') ks') = Returns es' →
    join "," es +:+ "}" +:+ r = join "," es' +:+ "}" +:+ r' →
    ks = ks' ∧ r = r' ∧ ∀ k, k ∈ ks → option_Forall2 jeq (prop fs k) (prop fs' k).
Proof.
  intros Hd Hwf Hwf' Hok Hok'. induction ks as [|k ks IH]; intros [|k' ks'] p p' es es' r r' Hes Hes' Heq.
  - injection Hes as <-. injection Hes' as <-. simpl in Heq. injection Heq as ->.
    split_and!; [done..|]. by intros ? ?%not_elem_of_nil.
  - exfalso. injection Hes as <-. apply collect_cons_inv in Hes' as (e & xs & He & _ & ->).
    apply member_inv in He as (v & t & _ & _ & ->). by rewrite join_cons in Heq.
  - exfalso. injection Hes' as <-. apply collect_cons_inv in Hes as (e & xs & He & _ & ->).
    apply member_inv in He as (v & t & _ & _ & ->). by rewrite join_cons in Heq.
  - apply collect_cons_inv in Hes as (e & us & He & Hus & ->).
    apply collect_cons_inv in Hes' as (e' & us' & He' & Hus' & ->).
    apply member_inv in He as (v & t & Hv & Ht & ->). apply member_inv in He' as (v' & t' & Hv' & Ht' & ->).
    rewrite !join_cons, !append_assoc in Heq. apply quote_inj in Heq as [<- Heq].
    simpl in Heq. injection Heq as Heq.
    rewrite forallb_In in Hok, Hok'. rewrite Forall_forall in Hd.
    pose proof (prop_Some_elem _ _ _ Hv) as Hin. pose proof (prop_Some_elem _ _ _ Hv') as Hin'.
    destruct (Hd _ Hin v' _ _ t t' _ _ (Hok _ Hin) (Hok' _ Hin') (wf_prop _ _ _ Hwf Hv)
                (wf_prop _ _ _ Hwf' Hv') Ht Ht' Heq (tail_delimited_brace _ _) (tail_delimited_brace _ _))
      as [Hj Htail].
    assert (join "," us +:+ "}" +:+ r = join "," us' +:+ "}" +:+ r') as Heq'.
    { destruct us, us'; try discriminate Htail; [done|]. by injection Htail. }
    destruct (IH ks' p p' us us' r r' Hus Hus' Heq') as (-> & -> & Hall). split_and!; [done..|].
    intros k' [->|Hk]%elem_of_cons; [|auto]. rewrite Hv, Hv'. by constructor.
Qed.

Lemma same_shape j j' p p' t t' r r' :
  nums_ok j = true → nums_ok j' = true → canonicalize j p = Returns t → canonicalize j' p' = Returns t' →
  t +:+ r = t' +:+ r' → shape j = shape j'.
Proof.
  intros Hok Hok' Ht Ht' Heq.
  destruct (canonicalize_first _ _ _ Hok Ht) as (c & s & -> & Hs).
  destruct (canonicalize_first _ _ _ Hok' Ht') as (c' & s' & -> & Hs').
  injection Heq as -> _. congruence.
Qed.

Lemma canonicalize_distinguishes j : distinguishes j.
Proof.
  induction j as [|b|n|s|l IH|fs IH] using json_nested_ind;
    intros j' p p' t t' r r' Hok Hok' Hwf Hwf' Ht Ht' Heq Hr Hr';
    pose proof (same_shape _ _ _ _ _ _ _ _ Hok Hok' Ht Ht' Heq) as Hshape.
  - destruct j' as [|[]| | | |]; try done. injection Ht as <-. injection Ht' as <-.
    injection Heq as ->. by split; [constructor|].
  - destruct b, j' as [|[]| | | |]; try done; injection Ht as <-; injection Ht' as <-;
      injection Heq as ->; by split; [constructor|].
  - destruct j' as [|[]|n'| | |]; try done.
    assert (t = num_text n) as -> by (destruct n; try done; by injection Ht).
    assert (t' = num_text n') as -> by (destruct n'; try done; by injection Ht').
    apply numeric_inj in Heq as [Hn ->]; [|by apply num_text_numeric..|done|done].
    apply num_text_inj in Hn as ->; [|done..]. by split; [constructor|].
  - destruct j' as [|[]| |s'| |]; try done. injection Ht as <-. injection Ht' as <-.
    apply quote_inj in Heq as [-> ->]. by split; [constructor|].
  - destruct j' as [|[]| | |l'|]; try done. rewrite canonicalize_arr in Ht, Ht'.
    apply obind_Returns in Ht as (ts & Hts & [= <-]). apply obind_Returns in Ht' as (ts' & Hts' & [= <-]).
    cbn [String.append] in Heq. injection Heq as Heq. rewrite !append_assoc in Heq. rewrite wf_arr in Hwf, Hwf'.
    destruct (elements_inj l IH l' p p' _ _ ts ts' r r' Hok Hok' Hwf Hwf' Hts Hts' Heq) as [Hall ->].
    by split; [constructor|].
  - destruct j' as [|[]| | | |fs']; try done. rewrite canonicalize_obj in Ht, Ht'.
    apply obind_Returns in Ht as (es & Hes & [= <-]). apply obind_Returns in Ht' as (es' & Hes' & [= <-]).
    cbn [String.append] in Heq. injection Heq as Heq. rewrite !append_assoc in Heq.
    destruct (members_inj fs fs' IH Hwf Hwf' Hok Hok' _ _ _ _ _ _ _ _ Hes Hes' Heq) as (Hkeys & -> & Hall).
    split; [|done]. constructor; [by apply wf_nodup..|]. intros k.
    destruct (decide (k ∈ sort_keys fs.*1)) as [Hk|Hk]; [by apply Hall|].
    assert (k ∉ fs.*1) as Hn by (intros Hin; by apply Hk, elem_of_sort_keys).
    assert (k ∉ fs'.*1) as Hn'.
    { intros Hin. apply Hk. rewrite Hkeys. by apply elem_of_sort_keys. }
    apply prop_None in Hn as ->. apply prop_None in Hn' as ->. constructor.
Qed.

(** ** The fingerprint *)

Lemma canonical_text_inj j j' p p' t :
  wf_json j → wf_json j' → nums_ok j = true → nums_ok j' = true →
  canonicalize j p = Returns t → canonicalize j' p' = Returns t → jeq j j'.
Proof.
  intros Hwf Hwf' Hok Hok' Ht Ht'.
  by eapply (canonicalize_distinguishes j j' p p' t t "" "").
Qed.

(** Canonical JSON is canonical: two values have the same canonical text exactly when they are
    equal up to the order of their keys, and every value with finite numbers has one. *)
Theorem canonical_iff j j' p :
  wf_json j → wf_json j' → nums_ok j = true → nums_ok j' = true →
  (∃ t, canonicalize j p = Returns t) ∧ (canonicalize j p = canonicalize j' p ↔ jeq j j').
Proof.
  intros Hwf Hwf' Hok Hok'. destruct (canonicalize_total j p Hok) as [t Ht]. split; [eauto|].
  split; [|apply canonicalize_jeq]. intros Heq. rewrite Ht in Heq. symmetry in Heq.
  by eapply canonical_text_inj.
Qed.

Lemma canonical_iff_witness :
  (∃ t, canonicalize sample_document "$" = Returns t)
  ∧ (canonicalize sample_document "$" = canonicalize (plan_json sample_plan) "$"
     ↔ jeq sample_document (plan_json sample_plan)).
Proof.
  apply (canonical_iff sample_document (plan_json sample_plan) "$");
    [apply wf_check_sound; vm_compute; reflexivity | apply wf_check_sound; vm_compute; reflexivity
    | vm_compute; reflexivity | vm_compute; reflexivity].
Defined.

Section Authentication.
Context (sha256_hex : string → string) (isIP : string → Z).

Lemma verify_inv v d plan :
  parseAndVerifyCompositionPlan sha256_hex isIP v d = Returns plan →
  parseCompositionPlan isIP v = Returns plan
  ∧ ∃ t, canonicalize (plan_json plan) "$" = Returns t ∧ d = "sha256:" +:+ sha256_hex t.
Proof.
  unfold parseAndVerifyCompositionPlan, parseAndFingerprintCompositionPlan, fingerprintCompositionPlan,
    canonicalCompositionPlanJson.
  destruct (negb _); [done|]. intros ([p' d'] & H & Hd)%obind_Returns.
  apply obind_Returns in H as (p & Hp & H). apply obind_Returns in H as (d0 & Hf & [= <- <-]).
  apply obind_Returns in Hf as (t & Ht & [= <-]).
  cbn beta iota zeta in Hd. revert Hd.
  destruct (negb (String.eqb _ d)) eqn:E; [done|]. intros [= ->].
  apply negb_false_iff, String.eqb_eq in E as <-. eauto.
Qed.

(** The digest authenticates the document itself: what verification hashes is the canonical
    text of the document that was read, not only of the fields the plan keeps. *)
Theorem verified_document v d plan :
  parseAndVerifyCompositionPlan sha256_hex isIP v d = Returns plan → wf_json v → bodies_kept v →
  ∃ t, canonicalize v "$" = Returns t ∧ d = "sha256:" +:+ sha256_hex t.
Proof.
  intros (Hp & t & Ht & ->)%verify_inv Hwf Hk. exists t. split; [|done].
  apply parse_plan_parts in Hp as [Hp _].
  by rewrite <- (canonicalize_jeq _ _ _ (parsePlan_lossless _ _ _ Hp Hwf Hk)).
Qed.

End Authentication.

(** A stand-in for the digest: 64 zeros whatever the text. *)
Definition zero_digest (_ : string) : string :=
  "0000000000000000000000000000000000000000000000000000000000000000".

Lemma sample_bodies_kept : bodies_kept sample_document.
Proof.
  intros l H. vm_compute in H. injection H as <-. repeat constructor.
  intros fs b [= <-] Hb. vm_compute in Hb. by injection Hb as <-.
Qed.

Lemma verified_document_witness :
  ∃ t, canonicalize sample_document "$" = Returns t
       ∧ "sha256:" +:+ zero_digest "" = "sha256:" +:+ zero_digest t.
Proof.
  apply (verified_document zero_digest sample_isIP sample_document _ sample_plan).
  - vm_compute. reflexivity.
  - apply wf_check_sound. vm_compute. reflexivity.
  - exact sample_bodies_kept.
Defined.


End PlanFingerprint.
