(* ===== verification/EtagCache.v ===== *)
(** * The entity tags of static files

    Models src/src/pool-server/http-cache.ts: If-None-Match, the bounded map of digests in order of
    last use, and the asynchronous hashes, of which a few run at a time and the others wait.  A call,
    a chunk or the end of a file stream and the resumption of an awaiting caller are events that run
    to completion; a promise is the number of its job.  SHA-1 and the files are parameters. *)
From Stdlib Require Import Ascii String.
From S2P Require Import Prelude JsString Json.
Local Open Scope stdpp_scope.
Local Open Scope Z_scope.

Module EtagCache.

(** ** Validators *)

Definition quoted (s : string) : string := String dquote (s +:+ String dquote "").

(** .replace(/^W\//, "") *)
Definition strip_weak (s : string) : string := if starts_with "W/" s then drop_string 2 s else s.

Definition candidate_matches (etag candidate : string) : bool :=
  let normalized := strip_weak (trim candidate) in
  String.eqb normalized "*" || String.eqb normalized etag.

Definition ifNoneMatchMatches (value : option string) (etag : string) : bool :=
  match value with
  | None => false
  | Some v => negb (is_empty v) && existsb (candidate_matches etag) (split_on "," v)
  end.

(** ** Maps in insertion order *)

Section Maps.
Context {A : Type}.
Implicit Types m : list (string * A).

Fixpoint map_get m (key : string) : option A :=
  match m with
  | [] => None
  | (k, v) :: m' => if String.eqb k key then Some v else map_get m' key
  end.

Fixpoint map_delete m (key : string) : list (string * A) :=
  match m with
  | [] => []
  | (k, v) :: m' => if String.eqb k key then m' else (k, v) :: map_delete m' key
  end.

(** A key that is present keeps its place. *)
Fixpoint map_set m (key : string) (value : A) : list (string * A) :=
  match m with
  | [] => [(key, value)]
  | (k, v) :: m' => if String.eqb k key then (k, value) :: m' else (k, v) :: map_set m' key value
  end.

Definition map_size m : Z := Z.of_nat (length m).

End Maps.

Definition MAX_MEMOIZED_ETAGS : Z := 4096.
Definition MAX_CONCURRENT_ETAG_HASHES : Z := 4.
Definition MAX_PENDING_ETAG_HASHES : Z := 64.

Record Stat := mkStat { size : num; mtimeMs : num }.

Definition etagCacheKey (filePath : string) (stat : Stat) : string :=
  filePath +:+ String ":" (num_text (size stat) +:+ String ":" (num_text (mtimeMs stat))).

(** The loop of rememberEtag; the oldest key of a map is its first. *)
Fixpoint evict (m : list (string * string)) : list (string * string) :=
  match m with
  | [] => []
  | _ :: m' => if MAX_MEMOIZED_ETAGS <=? map_size m then evict m' else m
  end.

Definition remember (m : list (string * string)) (key etag : string) : list (string * string) :=
  map_set (evict (map_delete m key)) key etag.

(** cachedEtag: the hit and the map it leaves. *)
Definition cachedEtag (m : list (string * string)) (key : string) : option string * list (string * string) :=
  match map_get m key with
  | None => (None, m)
  | Some cached => (Some cached, map_set (map_delete m key) key cached)
  end.

(** ** Hashes and callers *)

Inductive Outcome := Hashed (etag : string) | Failed (error : string).

(** A job is a call of hashFileWithAdmission: it waits in the queue, its stream is open, or its
    settled flag is set. *)
Inductive Phase := Queued | Hashing | Settled (o : Outcome).

Record Job := mkJob { j_path : string; j_stat : Stat; j_read : list Z; j_phase : Phase }.

Inductive Answer := Served (etag : option string) | Rejected (error : string).

(** An asynchronous call awaits the computation it started or the one it found pending. *)
Inductive Progress := Awaiting (job : nat) (started : bool) | Answered (a : Answer).

Record Caller := mkCaller { c_path : string; c_stat : Stat; c_progress : Progress }.

Record State := mkState {
  etagCache : list (string * string);
  pendingEtagCache : list (string * nat);
  activeEtagHashes : Z;
  etagHashQueue : list nat;
  jobs : list Job;
  callers : list Caller;
}.

Definition init : State := mkState [] [] 0 [] [] [].

Definition with_cache m (s : State) : State :=
  mkState m (pendingEtagCache s) (activeEtagHashes s) (etagHashQueue s) (jobs s) (callers s).
Definition with_pending p (s : State) : State :=
  mkState (etagCache s) p (activeEtagHashes s) (etagHashQueue s) (jobs s) (callers s).
Definition with_active n (s : State) : State :=
  mkState (etagCache s) (pendingEtagCache s) n (etagHashQueue s) (jobs s) (callers s).
Definition with_queue q (s : State) : State :=
  mkState (etagCache s) (pendingEtagCache s) (activeEtagHashes s) q (jobs s) (callers s).
Definition with_jobs js (s : State) : State :=
  mkState (etagCache s) (pendingEtagCache s) (activeEtagHashes s) (etagHashQueue s) js (callers s).
Definition with_callers cs (s : State) : State :=
  mkState (etagCache s) (pendingEtagCache s) (activeEtagHashes s) (etagHashQueue s) (jobs s) cs.

Definition rememberEtag (key etag : string) (s : State) : State :=
  with_cache (remember (etagCache s) key etag) s.

Definition set_phase (id : nat) (p : Phase) (s : State) : State :=
  with_jobs (alter (λ j, mkJob (j_path j) (j_stat j) (j_read j) p) id (jobs s)) s.

Section Etags.
(** createHash("sha1").update(bytes).digest("base64url") *)
Variable sha1 : list Z → string.
(** What createReadStream throws for a path instead of returning a stream. *)
Variable refused : string → option string.

Definition staticAssetEtag (content : list Z) : string := quoted (sha1 content).

(** settle, over the pump it calls: the first call counts. *)
Definition settle (pump : State → State) (id : nat) (o : Outcome) (s : State) : State :=
  match j_phase <$> jobs s !! id with
  | None | Some (Settled _) => s
  | Some _ => pump (with_active (activeEtagHashes s - 1) (set_phase id (Settled o) s))
  end.

Definition start (pump : State → State) (id : nat) (s : State) : State :=
  let s := with_active (activeEtagHashes s + 1) (set_phase id Hashing s) in
  match refused (default "" (j_path <$> jobs s !! id)) with
  | Some error => settle pump id (Failed error) s
  | None => s
  end.

(** The loop of pumpEtagHashQueue.  A start whose stream is refused settles at once and pumps
    inside; each pass takes one job off the queue. *)
Fixpoint pump (fuel : nat) (s : State) : State :=
  match fuel with
  | O => s
  | S fuel =>
      if activeEtagHashes s <? MAX_CONCURRENT_ETAG_HASHES
      then match etagHashQueue s with
           | [] => s
           | id :: queue => pump fuel (start (pump fuel) id (with_queue queue s))
           end
      else s
  end.

Definition pumpEtagHashQueue (s : State) : State := pump (S (length (etagHashQueue s))) s.

Definition hashFileWithAdmission (filePath : string) (stat : Stat) (s : State) : nat * State :=
  let id := length (jobs s) in
  let s := with_jobs (jobs s ++ [mkJob filePath stat [] Queued]) s in
  (id, if activeEtagHashes s <? MAX_CONCURRENT_ETAG_HASHES then start pumpEtagHashQueue id s
       else with_queue (etagHashQueue s ++ [id]) s).

Definition add_caller (filePath : string) (stat : Stat) (p : Progress) (s : State) : State :=
  with_callers (callers s ++ [mkCaller filePath stat p]) s.

(** staticAssetEtagForFile; [content] is what readContent returns or throws when it is called. *)
Definition staticAssetEtagForFile (filePath : string) (stat : Stat) (content : outcome string (list Z))
    (s : State) : State :=
  let key := etagCacheKey filePath stat in
  match cachedEtag (etagCache s) key with
  | (Some cached, m) => add_caller filePath stat (Answered (Served (Some cached))) (with_cache m s)
  | (None, m) =>
      let s := with_cache m s in
      match content with
      | Throws error => add_caller filePath stat (Answered (Rejected error)) s
      | Returns content =>
          let etag := staticAssetEtag content in
          add_caller filePath stat (Answered (Served (Some etag))) (rememberEtag key etag s)
      end
  end.

(** staticAssetEtagForFileAsync up to its await. *)
Definition staticAssetEtagForFileAsync (filePath : string) (stat : Stat) (s : State) : State :=
  let key := etagCacheKey filePath stat in
  match cachedEtag (etagCache s) key with
  | (Some cached, m) => add_caller filePath stat (Answered (Served (Some cached))) (with_cache m s)
  | (None, m) =>
      let s := with_cache m s in
      match map_get (pendingEtagCache s) key with
      | Some pending => add_caller filePath stat (Awaiting pending false) s
      | None =>
          if MAX_PENDING_ETAG_HASHES <=? map_size (pendingEtagCache s)
          then add_caller filePath stat (Answered (Served None)) s
          else
            let '(computation, s) := hashFileWithAdmission filePath stat s in
            add_caller filePath stat (Awaiting computation true)
              (with_pending (map_set (pendingEtagCache s) key computation) s)
      end
  end.

Definition answer_of (o : Outcome) : Answer :=
  match o with Hashed etag => Served (Some etag) | Failed error => Rejected error end.

(** The rest of staticAssetEtagForFileAsync: the caller that started the computation remembers its
    digest and takes it off the pending ones. *)
Definition after_await (key : string) (computation : nat) (o : Outcome) (s : State) : State :=
  let s := match o with Hashed etag => rememberEtag key etag s | Failed _ => s end in
  if bool_decide (map_get (pendingEtagCache s) key = Some computation)
  then with_pending (map_delete (pendingEtagCache s) key) s else s.

Definition resume (c : nat) (s : State) : State :=
  match callers s !! c with
  | Some (mkCaller path stat (Awaiting id started)) =>
      match j_phase <$> jobs s !! id with
      | Some (Settled o) =>
          let s := if started then after_await (etagCacheKey path stat) id o s else s in
          with_callers (<[c := mkCaller path stat (Answered (answer_of o))]> (callers s)) s
      | _ => s
      end
  | _ => s
  end.

(** The handlers of a stream; an open stream emits data, and then its end or an error. *)
Definition on_data (id : nat) (chunk : list Z) (s : State) : State :=
  match jobs s !! id with
  | Some (mkJob path stat read Hashing) => with_jobs (<[id := mkJob path stat (read ++ chunk) Hashing]> (jobs s)) s
  | _ => s
  end.

Definition on_error (id : nat) (error : string) (s : State) : State :=
  match jobs s !! id with
  | Some (mkJob _ _ _ Hashing) => settle pumpEtagHashQueue id (Failed error) s
  | _ => s
  end.

Definition on_end (id : nat) (s : State) : State :=
  match jobs s !! id with
  | Some (mkJob _ _ read Hashing) => settle pumpEtagHashQueue id (Hashed (staticAssetEtag read)) s
  | _ => s
  end.

(** ** Runs *)

Inductive Event :=
  | Call (filePath : string) (stat : Stat)
  | CallSync (filePath : string) (stat : Stat) (content : outcome string (list Z))
  | Data (id : nat) (chunk : list Z)
  | StreamError (id : nat) (error : string)
  | End (id : nat)
  | Resume (c : nat).

Definition step (s : State) (e : Event) : State :=
  match e with
  | Call path stat => staticAssetEtagForFileAsync path stat s
  | CallSync path stat content => staticAssetEtagForFile path stat content s
  | Data id chunk => on_data id chunk s
  | StreamError id error => on_error id error s
  | End id => on_end id s
  | Resume c => resume c s
  end.

Definition run (es : list Event) (s : State) : State := foldl step s es.

End Etags.

End EtagCache.
