(* ===== verification/EtagCacheFacts.v ===== *)
(** * The entity tags of static files: facts

    If-None-Match agrees with the weak comparison of entity tags; the map keeps the digests used
    last; hashes stay within their bounds, every tag served is the digest of bytes read for the
    same path, size and time, and every caller is answered. *)
From Stdlib Require Import Ascii String.
From S2P Require Import Prelude JsString Json PlanFingerprint EtagCache.
Import EtagCache.
Local Open Scope stdpp_scope.
Local Open Scope Z_scope.

Module EtagCacheFacts.

(** ** Validators *)

(** An entity tag of RFC 9110, and a field of several. *)
Record EntityTag := mkTag { weak : bool; opaque : string }.

Definition etagc (c : ascii) : bool :=
  (33 <=? code c)%nat && (code c <=? 126)%nat && negb (Ascii.eqb c dquote).

Definition render (t : EntityTag) : string := (if weak t then "W/" else "") +:+ quoted (opaque t).

Definition weakly_equal (d : string) (t : EntityTag) : bool := String.eqb (opaque t) d.

(** A tag that holds a comma is split; none of its parts may be the wildcard. *)
Definition tag_ok (t : EntityTag) : bool :=
  all_chars etagc (opaque t) && (no_char "," (opaque t) || no_char "*" (opaque t)).

Fixpoint count_char (c : ascii) (s : string) : nat :=
  match s with
  | EmptyString => 0
  | String x s' => if Ascii.eqb x c then S (count_char c s') else count_char c s'
  end.

Lemma count_char_append c a b : count_char c (a +:+ b) = (count_char c a + count_char c b)%nat.
Proof. induction a as [|x a IH]; cbn; [done|]. destruct (Ascii.eqb x c); lia. Qed.

Lemma count_char_absent c s : no_char c s = true → count_char c s = 0%nat.
Proof.
  unfold no_char. induction s as [|x s IH]; cbn; [done|]. destruct (Ascii.eqb x c); [done|]. auto.
Qed.

Lemma split_on_count c d s p : p ∈ split_on c s → (count_char d p ≤ count_char d s)%nat.
Proof.
  revert p. induction s as [|x s IH]; intros p; cbn; [intros ->%list_elem_of_singleton; cbn; lia|].
  destruct (Ascii.eqb x c).
  - rewrite elem_of_cons. intros [->|Hp]; cbn; [lia|]. specialize (IH p Hp). destruct (Ascii.eqb x d); lia.
  - destruct (split_on c s) as [|h t]; [intros ->%list_elem_of_singleton; cbn; destruct (Ascii.eqb x d); lia|].
    rewrite elem_of_cons. intros [->|Hp]; cbn.
    + specialize (IH h ltac:(left)). destruct (Ascii.eqb x d); lia.
    + specialize (IH p ltac:(by right)). destruct (Ascii.eqb x d); lia.
Qed.

Lemma split_on_all (q : ascii → bool) c s p : all_chars q s = true → p ∈ split_on c s → all_chars q p = true.
Proof.
  revert p. induction s as [|x s IH]; intros p; cbn; [by intros _ ->%list_elem_of_singleton|].
  intros [Hx Hs]%andb_true_iff. destruct (Ascii.eqb x c).
  - rewrite elem_of_cons. intros [->|Hp]; [done|]. by apply IH.
  - destruct (split_on c s) as [|h t]; [intros ->%list_elem_of_singleton; cbn; by rewrite Hx|].
    rewrite elem_of_cons. intros [->|Hp]; cbn.
    + rewrite IH by (done || left). by rewrite Hx.
    + apply IH; [done|by right].
Qed.

Lemma etagc_space c : etagc c = true → is_js_space c = false.
Proof. unfold etagc, is_js_space, code. intros H. b2p. destruct (_ || _) eqn:Hs; [|done]. repeat rewrite orb_true_iff in Hs. rewrite ?Nat.eqb_eq, ?andb_true_iff, ?Nat.leb_le in Hs. lia. Qed.

Lemma strip_weak_all p s : all_chars p s = true → all_chars p (strip_weak s) = true.
Proof.
  unfold strip_weak. destruct (starts_with "W/" s); [|done].
  destruct s as [|a [|b s]]; cbn; try done. intros H. by b2p.
Qed.

Lemma quoted_count d : no_char dquote d = true → count_char dquote (quoted d) = 2%nat.
Proof. intros H. unfold quoted. cbn. by rewrite count_char_append, count_char_absent. Qed.

Lemma strip_weak_count c s : (count_char c (strip_weak s) ≤ count_char c s)%nat.
Proof.
  unfold strip_weak. destruct (starts_with "W/" s); [|done].
  destruct s as [|a [|b s]]; cbn; try lia. destruct (Ascii.eqb a c), (Ascii.eqb b c); lia.
Qed.

Lemma strip_weak_render t : strip_weak (render t) = quoted (opaque t).
Proof. by destruct t as [[] o]. Qed.

Lemma quoted_inj a b : quoted a = quoted b → a = b.
Proof.
  unfold quoted. intros [= H]. revert b H.
  induction a as [|x a IH]; intros [|y b] H; cbn in H; try done.
  - injection H as Hy H. by destruct b.
  - injection H as Hx H. by destruct a.
  - injection H as -> H. f_equal. auto.
Qed.

Lemma render_visible t : all_chars etagc (opaque t) = true →
  all_chars (λ c, negb (is_js_space c)) (render t) = true.
Proof.
  intros H. unfold render, quoted. rewrite all_chars_append. apply andb_true_iff. split; [by destruct (weak t)|].
  cbn. rewrite all_chars_append. apply andb_true_iff. split; [done|]. apply andb_true_iff. split; [|done].
  eapply all_chars_impl; [|exact H]. intros c Hc. by rewrite etagc_space.
Qed.

(** A part of a tag that holds a comma has one quote at most. *)
Lemma part_count o p : no_char dquote o = true → no_char "," o = false → ∀ w, no_char dquote w = true →
  p ∈ split_on "," (w +:+ quoted o) → (count_char dquote p ≤ 1)%nat.
Proof.
  unfold quoted. intros Hd Hc w Hw.
  replace (w +:+ String dquote (o +:+ String dquote "")) with ((w +:+ String dquote "") +:+ (o +:+ String dquote ""))
    by by rewrite append_cons.
  assert (count_char dquote (w +:+ String dquote "") ≤ 1)%nat as Hk.
  { rewrite count_char_append, (count_char_absent _ w) by done. done. }
  revert Hk. generalize (w +:+ String dquote ""). revert Hd Hc. clear Hw w.
  induction o as [|x o IH]; intros Hd Hc w Hk; cbn in Hc; [done|]. cbn [String.append].
  unfold no_char in Hd. cbn [all_chars] in Hd. apply andb_true_iff in Hd as [Hx Hd].
  destruct (Ascii.eqb x ",") eqn:Hcx.
  - apply Ascii.eqb_eq in Hcx as ->. rewrite split_on_app, elem_of_app.
    intros [Hp|Hp]; apply (split_on_count _ dquote) in Hp; [lia|].
    rewrite count_char_append, (count_char_absent _ o) in Hp by done.
    change (count_char dquote (String dquote "")) with 1%nat in Hp. lia.
  - rewrite <- append_cons. apply IH; [done|done|].
    rewrite count_char_append. cbn. apply negb_true_iff in Hx. rewrite Hx. lia.
Qed.

(** The parts of one tag of a field. *)
Lemma tag_matches d t : tag_ok t = true → no_char dquote d = true → no_char "," d = true →
  existsb (candidate_matches (quoted d)) (split_on "," (render t)) = weakly_equal d t.
Proof.
  intros Hok Hd Hc. unfold tag_ok in Hok. apply andb_true_iff in Hok as [Hv Hok].
  pose proof (render_visible t Hv) as Hsp.
  assert (no_char dquote (opaque t) = true) as Hq.
  { eapply all_chars_impl; [|exact Hv]. intros c H. unfold etagc in H. by apply andb_true_iff in H as [_ ?]. }
  destruct (no_char "," (opaque t)) eqn:Hcomma.
  - rewrite split_on_absent.
    2:{ unfold no_char, render, quoted in *. rewrite all_chars_append. cbn. rewrite all_chars_append, Hcomma.
        by destruct (weak t). }
    cbn [existsb]. rewrite orb_false_r. unfold candidate_matches. rewrite trim_id by exact Hsp.
    rewrite strip_weak_render. unfold weakly_equal.
    destruct (String.eqb_spec (opaque t) d) as [->|Hne]; [by rewrite String.eqb_refl, orb_true_r|].
    apply orb_false_iff. split; [done|]. apply String.eqb_neq. intros H. by apply Hne, quoted_inj.
  - unfold weakly_equal. replace (String.eqb (opaque t) d) with false.
    2:{ symmetry. apply String.eqb_neq. intros E. rewrite E in Hcomma. congruence. }
    apply existsb_false_In. intros p Hp. cbn in Hok. unfold candidate_matches.
    rewrite trim_id by (eapply split_on_all; [exact Hsp|exact Hp]).
    apply orb_false_iff. split; apply String.eqb_neq; intros E.
    + assert (no_char "*" (render t) = true) as Hstar.
      { unfold no_char, render, quoted in *. rewrite all_chars_append. cbn. rewrite all_chars_append, Hok.
        by destruct (weak t). }
      apply (split_on_all _ "," _ p) in Hstar; [|done]. apply strip_weak_all in Hstar. by rewrite E in Hstar.
    + assert (count_char dquote p ≤ 1)%nat as Hle.
      { eapply (part_count (opaque t)); [done|done| |exact Hp]. by destruct (weak t). }
      pose proof (strip_weak_count dquote p) as Hsw. rewrite E, quoted_count in Hsw by done. lia.
Qed.

Lemma leading_space etag s : existsb (candidate_matches etag) (split_on "," (String " " s))
  = existsb (candidate_matches etag) (split_on "," s).
Proof.
  cbn [split_on]. change (Ascii.eqb " " ",") with false. cbv iota.
  destruct (split_on "," s) as [|h t] eqn:Hs; [by destruct (split_on_nonempty "," s)|]. done.
Qed.

Lemma field_matches d l : Forall (λ t, tag_ok t = true) l → no_char dquote d = true → no_char "," d = true →
  l ≠ [] → existsb (candidate_matches (quoted d)) (split_on "," (join ", " (render <$> l))) = existsb (weakly_equal d) l.
Proof.
  intros Hl Hd Hc. induction Hl as [|t l Ht Hl IH]; [done|]. intros _.
  destruct l as [|t' l]; [cbn; rewrite orb_false_r; by apply tag_matches|].
  change (join ", " (render <$> t :: t' :: l)) with (render t +:+ String "," (String " " (join ", " (render <$> t' :: l)))).
  rewrite split_on_app, existsb_app, tag_matches by done. rewrite leading_space, IH by done. done.
Qed.

(** If-None-Match: for a field that lists entity tags of RFC 9110, weak or strong, whatever
    commas they hold, the validator [d] of a file (which holds no quote and no comma) matches
    exactly when a tag of the field is weakly equal to it: the same text, the weakness mark aside. *)
Theorem weak_comparison d l :
  Forall (λ t, tag_ok t = true) l → no_char dquote d = true → no_char "," d = true →
  ifNoneMatchMatches (Some (join ", " (render <$> l))) (quoted d) = existsb (weakly_equal d) l.
Proof.
  intros Hl Hd Hc. cbn [ifNoneMatchMatches]. destruct l as [|t l]; [done|].
  rewrite field_matches by done.
  replace (is_empty (join ", " (render <$> t :: l))) with false; [done|].
  symmetry. destruct l; cbn; unfold render; by destruct (weak t).
Qed.

Lemma weak_comparison_witness :
  ifNoneMatchMatches (Some (join ", " (render <$> [mkTag false "a,b"; mkTag true "x1"]))) (quoted "x1") = true.
Proof. rewrite (weak_comparison "x1"); [done|by repeat constructor|done|done]. Defined.

(** The wildcard inside a tag is taken for the wildcard of the field. *)
Example comma_star_matches : ifNoneMatchMatches (Some (render (mkTag false "a,*,b"))) (quoted "x1") = true.
Proof. done. Qed.

(** ** The map *)

Section MapFacts.
Context {A : Type}.
Implicit Types m : list (string * A).

Lemma map_get_None m k : map_get m k = None ↔ k ∉ m.*1.
Proof.
  induction m as [|[k' v] m IH]; cbn; [split; [intros _; apply not_elem_of_nil|done]|].
  rewrite not_elem_of_cons. destruct (String.eqb_spec k' k) as [->|Hne]; [naive_solver|]. rewrite IH. naive_solver.
Qed.

Lemma map_get_elem m k v : map_get m k = Some v → (k, v) ∈ m.
Proof.
  induction m as [|[k' v'] m IH]; cbn; [done|].
  destruct (String.eqb_spec k' k) as [->|Hne]; [intros [= ->]; left|]. intros H. right. auto.
Qed.

Lemma map_get_app m m' k : map_get (m ++ m') k = match map_get m k with Some v => Some v | None => map_get m' k end.
Proof. induction m as [|[k' v'] m IH]; cbn; [done|]. by destruct (String.eqb k' k). Qed.

Lemma map_set_new m k v : k ∉ m.*1 → map_set m k v = m ++ [(k, v)].
Proof.
  induction m as [|[k' v'] m IH]; cbn; [done|]. rewrite not_elem_of_cons. intros [Hne Hk].
  destruct (String.eqb_spec k' k); [done|]. by rewrite IH.
Qed.

Lemma map_delete_absent m k : k ∉ m.*1 → map_delete m k = m.
Proof.
  induction m as [|[k' v'] m IH]; cbn; [done|]. rewrite not_elem_of_cons. intros [Hne Hk].
  destruct (String.eqb_spec k' k); [done|]. by rewrite IH.
Qed.

Lemma map_delete_elem m k e : e ∈ map_delete m k → e ∈ m.
Proof.
  induction m as [|[k' v'] m IH]; cbn; [done|]. destruct (String.eqb k' k); [by right|].
  rewrite !elem_of_cons. naive_solver.
Qed.

Lemma map_delete_NoDup m k : NoDup m.*1 → NoDup (map_delete m k).*1 ∧ k ∉ (map_delete m k).*1.
Proof.
  induction m as [|[k' v'] m IH]; cbn; [intros _; split; [constructor|apply not_elem_of_nil]|].
  intros [Hk' Hm]%NoDup_cons. destruct (String.eqb_spec k' k) as [->|Hne]; [done|].
  destruct (IH Hm) as [Hn Hk]. cbn. split.
  - apply NoDup_cons. split; [|done]. intros ([k2 v2] & -> & He)%list_elem_of_fmap.
    apply Hk'. apply list_elem_of_fmap. exists (k2, v2). split; [done|]. by eapply map_delete_elem.
  - rewrite not_elem_of_cons. naive_solver.
Qed.

Lemma map_delete_app_l m m' k : k ∈ m.*1 → map_delete (m ++ m') k = map_delete m k ++ m'.
Proof.
  induction m as [|[k' v'] m IH]; cbn; [by intros ?%not_elem_of_nil|]. rewrite elem_of_cons. intros Hk.
  destruct (String.eqb_spec k' k); [done|]. cbn. rewrite IH; [done|]. naive_solver.
Qed.

Lemma map_delete_app_r m m' k : k ∉ m.*1 → map_delete (m ++ m') k = m ++ map_delete m' k.
Proof.
  induction m as [|[k' v'] m IH]; cbn; [done|]. rewrite not_elem_of_cons. intros [Hne Hk].
  destruct (String.eqb_spec k' k); [done|]. by rewrite IH.
Qed.

Lemma map_delete_length m k : k ∈ m.*1 → S (length (map_delete m k)) = length m.
Proof.
  induction m as [|[k' v'] m IH]; cbn; [by intros ?%not_elem_of_nil|]. rewrite elem_of_cons. intros Hk.
  destruct (String.eqb_spec k' k); [done|]. cbn. rewrite IH; [done|]. naive_solver.
Qed.

Lemma map_delete_length_le m k : (length (map_delete m k) ≤ length m)%nat.
Proof. induction m as [|[k' v'] m IH]; cbn; [done|]. destruct (String.eqb k' k); cbn; lia. Qed.

Lemma map_get_delete_ne m k k' : k ≠ k' → map_get (map_delete m k) k' = map_get m k'.
Proof.
  intros Hne. induction m as [|[k2 v2] m IH]; cbn; [done|].
  destruct (String.eqb_spec k2 k) as [->|Hk]; cbn; [by destruct (String.eqb_spec k k')|]. by rewrite IH.
Qed.

Lemma map_get_delete_eq m k : NoDup m.*1 → map_get (map_delete m k) k = None.
Proof. intros H. by apply map_get_None, map_delete_NoDup. Qed.

(** The last [n] entries. *)
Definition last_n (n : nat) m : list (string * A) := drop (length m - n) m.

Lemma last_n_all n m : (length m ≤ n)%nat → last_n n m = m.
Proof. intros H. unfold last_n. by replace (length m - n)%nat with 0%nat by lia. Qed.

Lemma last_n_app n m m' : (n ≤ length m')%nat → last_n n (m ++ m') = last_n n m'.
Proof.
  intros H. unfold last_n. rewrite length_app. rewrite drop_app_ge by lia. f_equal. lia.
Qed.

Lemma last_n_snoc n m e : last_n (S n) (m ++ [e]) = last_n n m ++ [e].
Proof. unfold last_n. rewrite length_app. cbn. rewrite drop_app_le by lia. f_equal. f_equal. lia. Qed.

Lemma last_n_split n m : ∃ m', m = m' ++ last_n n m ∧ (m' = [] ∨ length (last_n n m) = n).
Proof.
  exists (take (length m - n) m). unfold last_n. rewrite take_drop. split; [done|]. rewrite length_drop.
  destruct (decide (length m ≤ n)%nat); [|right; lia]. left. by replace (length m - n)%nat with 0%nat by lia.
Qed.

(** Deleting a key and keeping the last entries commute. *)
Lemma last_n_delete n m k : NoDup m.*1 →
  last_n n (map_delete (last_n (S n) m) k) = last_n n (map_delete m k).
Proof.
  intros Hm. destruct (last_n_split (S n) m) as (m' & Heq & Hm'). revert Heq Hm'.
  generalize (last_n (S n) m). intros c -> Hm'. destruct Hm' as [->|Hlen]; [done|].
  rewrite fmap_app in Hm. apply NoDup_app in Hm as (_ & Hd & _).
  destruct (decide (k ∈ m'.*1)) as [Hk|Hk].
  - rewrite (map_delete_absent c k) by by apply Hd. rewrite map_delete_app_l by done.
    symmetry. apply last_n_app. lia.
  - rewrite map_delete_app_r by done. symmetry. apply last_n_app.
    destruct (decide (k ∈ c.*1)) as [Hc|Hc].
    + pose proof (map_delete_length c k Hc). lia.
    + rewrite map_delete_absent by done. lia.
Qed.

End MapFacts.

Definition capacity : nat := Z.to_nat MAX_MEMOIZED_ETAGS.

Lemma capacity_Z : Z.of_nat capacity = MAX_MEMOIZED_ETAGS.
Proof. unfold capacity. by rewrite Z2Nat.id. Qed.

#[local] Opaque capacity.

Lemma capacity_S : ∃ n, capacity = S n.
Proof. exists (pred capacity). pose proof capacity_Z. unfold MAX_MEMOIZED_ETAGS in *. lia. Qed.

Lemma evict_last m : evict m = last_n (pred capacity) m.
Proof.
  pose proof capacity_Z as Hc. destruct capacity_S as [n Hn].
  induction m as [|e m IH]; [done|]. cbn [evict]. unfold map_size. fold (@map_size string m).
  destruct (Z.leb_spec MAX_MEMOIZED_ETAGS (Z.of_nat (length (e :: m)))) as [H|H].
  - rewrite IH. symmetry. apply (last_n_app _ [e]). cbn [length] in H. lia.
  - symmetry. apply last_n_all. lia.
Qed.

(** The specification: everything ever touched, each key once, in the order of its last touch. *)
Inductive Access := Lookup (key : string) | Remember (key etag : string).

Definition touch (log : list (string * string)) (key etag : string) : list (string * string) :=
  map_delete log key ++ [(key, etag)].

Definition spec_access (log : list (string * string)) (a : Access) : option string * list (string * string) :=
  match a with
  | Lookup key =>
      match map_get (last_n capacity log) key with
      | Some etag => (Some etag, touch log key etag)
      | None => (None, log)
      end
  | Remember key etag => (None, touch log key etag)
  end.

Definition code_access (m : list (string * string)) (a : Access) : option string * list (string * string) :=
  match a with Lookup key => cachedEtag m key | Remember key etag => (None, remember m key etag) end.

(** The answers of a sequence of accesses, and what it leaves. *)
Fixpoint accesses {S} (f : S → Access → option string * S) (s : S) (l : list Access) : list (option string) * S :=
  match l with
  | [] => ([], s)
  | a :: l => let '(o, s) := f s a in let '(os, s) := accesses f s l in (o :: os, s)
  end.

Lemma touch_NoDup log k e : NoDup log.*1 → NoDup (touch log k e).*1.
Proof.
  intros H. apply (map_delete_NoDup _ k) in H as [Hn Hk]. unfold touch. rewrite fmap_app.
  apply NoDup_app. split_and!; [done| |apply NoDup_singleton]. intros x Hx ->%list_elem_of_singleton. done.
Qed.

Lemma last_n_NoDup n (log : list (string * string)) : NoDup log.*1 → NoDup (last_n n log).*1.
Proof. intros H. unfold last_n. rewrite fmap_drop. eapply sublist_NoDup; [exact H|apply sublist_drop]. Qed.

Lemma remember_spec log k e : NoDup log.*1 → remember (last_n capacity log) k e = last_n capacity (touch log k e).
Proof.
  intros Hlog. destruct capacity_S as [n Hn]. unfold remember, touch. rewrite evict_last, Hn. cbn [pred].
  rewrite last_n_delete by done. rewrite last_n_snoc. apply map_set_new.
  apply (map_delete_NoDup _ k) in Hlog as [_ Hk]. unfold last_n. rewrite fmap_drop.
  intros H. apply Hk. by eapply elem_of_sublist, sublist_drop.
Qed.

Lemma hit_spec log k e : NoDup log.*1 → map_get (last_n capacity log) k = Some e →
  map_set (map_delete (last_n capacity log) k) k e = last_n capacity (touch log k e).
Proof.
  intros Hlog Hget. rewrite <- remember_spec by done. unfold remember. f_equal. rewrite evict_last.
  destruct capacity_S as [n Hn]. rewrite Hn in *. cbn [pred]. symmetry. apply last_n_all.
  assert (k ∈ (last_n (S n) log).*1) as Hk.
  { destruct (decide (k ∈ (last_n (S n) log).*1)) as [|H]; [done|]. apply map_get_None in H. congruence. }
  apply map_delete_length in Hk. unfold last_n in Hk at 2. rewrite length_drop in Hk. lia.
Qed.

(** The map after an access to the map of a log is the map of the log after the access. *)
Lemma access_spec log a : NoDup log.*1 →
  (code_access (last_n capacity log) a).1 = (spec_access log a).1
  ∧ (code_access (last_n capacity log) a).2 = last_n capacity (spec_access log a).2
  ∧ NoDup (spec_access log a).2.*1.
Proof.
  intros Hlog. destruct a as [k|k e]; cbn.
  - unfold cachedEtag. destruct (map_get _ k) as [e|] eqn:Hget; cbn; [|done].
    split_and!; [done|by apply hit_spec|by apply touch_NoDup].
  - split_and!; [done|by apply remember_spec|by apply touch_NoDup].
Qed.

(** The bounded map of digests refines an unbounded log of touches: after any sequence of
    lookups and insertions it holds exactly the 4,096 keys touched last, in the order of their last
    touch and with the digest remembered last, and every lookup answers what the log says. *)
Theorem keeps_last_touched l :
  accesses code_access [] l
  = (let '(answers, log) := accesses spec_access [] l in (answers, last_n capacity log)).
Proof.
  change (accesses code_access (@nil (string * string)) l) with (accesses code_access (last_n capacity (@nil (string * string))) l).
  assert (NoDup (@nil (string * string)).*1) as Hlog by constructor.
  revert Hlog. generalize (@nil (string * string)). induction l as [|a l IH]; intros log Hlog; cbn; [done|].
  destruct (access_spec log a Hlog) as (Ho & Hs & Hn).
  destruct (code_access _ a) as [o m], (spec_access log a) as [o' log']. cbn [fst snd] in *. subst.
  rewrite (IH _ Hn). by destruct (accesses spec_access log' l).
Qed.

(** What both operations leave in a map within its bound. *)
Definition bounded (m : list (string * string)) : Prop := NoDup m.*1 ∧ (length m ≤ capacity)%nat.

Lemma last_touched_ok m k e : bounded m → bounded (last_n capacity (touch m k e))
  ∧ ∀ x, x ∈ last_n capacity (touch m k e) → x = (k, e) ∨ x ∈ m.
Proof.
  intros [Hn Hl]. split; [split|].
  - by apply last_n_NoDup, touch_NoDup.
  - unfold last_n. rewrite length_drop. lia.
  - intros x Hx. assert (x ∈ touch m k e) as Hx' by by eapply elem_of_sublist, sublist_drop.
    unfold touch in Hx'. rewrite elem_of_app, list_elem_of_singleton in Hx'.
    destruct Hx' as [Hx'|Hx']; [right; by eapply map_delete_elem|by left].
Qed.

Lemma remember_ok m k e : bounded m → bounded (remember m k e) ∧ ∀ x, x ∈ remember m k e → x = (k, e) ∨ x ∈ m.
Proof.
  intros Hm. pose proof Hm as [Hn Hl]. pose proof (remember_spec m k e Hn) as H.
  rewrite (last_n_all capacity m) in H by done. rewrite H. by apply last_touched_ok.
Qed.

Lemma cachedEtag_ok m k : bounded m →
  bounded (cachedEtag m k).2 ∧ (∀ x, x ∈ (cachedEtag m k).2 → x ∈ m)
  ∧ (∀ e, (cachedEtag m k).1 = Some e → (k, e) ∈ m).
Proof.
  intros Hm. pose proof Hm as [Hn Hl]. unfold cachedEtag. destruct (map_get m k) as [e|] eqn:Hget; cbn [fst snd]; [|done].
  pose proof (map_get_elem _ _ _ Hget) as Hke.
  pose proof (hit_spec m k e Hn) as Hhit. rewrite (last_n_all capacity m) in Hhit by done. rewrite Hhit by done.
  destruct (last_touched_ok m k e Hm) as [Hb He]. split_and!; [done| |by intros ? [= <-]].
  intros x Hx. by destruct (He x Hx) as [->|].
Qed.

End EtagCacheFacts.
