(* ===== verification/EtagHashFacts.v ===== *)
(** * The hashes of static files: facts

    The bounds of src/src/pool-server/http-cache.ts: at most four hashes run and 64 are pending; no
    job waits while a place is free; a tag served is the digest of bytes read for its path, size and
    time; and every caller is answered once the open streams have ended. *)
From Stdlib Require Import Ascii String.
From S2P Require Import Prelude JsString Json JsonParse PlanFingerprint EtagCache EtagCacheFacts.
Import PlanFingerprint EtagCache EtagCacheFacts.
Local Open Scope stdpp_scope.
Local Open Scope Z_scope.

Module EtagHashFacts.

(** ** Jobs *)

Definition running (j : Job) : nat := match j_phase j with Hashing => 1 | _ => 0 end.
Definition unsettled (j : Job) : nat := match j_phase j with Settled _ => 0 | _ => 1 end.
Definition waiting (c : Caller) : nat := match c_progress c with Awaiting _ _ => 1 | Answered _ => 0 end.

Section Weights.
Context {A : Type}.
Implicit Types (f : A → nat) (l : list A).

Lemma weight_alter f g l i x : l !! i = Some x →
  (sum_list_with f (alter g i l) + f x = sum_list_with f l + f (g x))%nat.
Proof.
  revert i. induction l as [|y l IH]; intros [|i]; cbn; try done; [intros [= ->]; lia|].
  intros H. specialize (IH i H). lia.
Qed.

Lemma weight_member f l i x : l !! i = Some x → (f x ≤ sum_list_with f l)%nat.
Proof. revert i. induction l as [|y l IH]; intros [|i]; cbn; try done; [intros [= ->]; lia|]. intros H. specialize (IH i H). lia. Qed.

Lemma weight_zero f l : sum_list_with f l = 0%nat → ∀ i x, l !! i = Some x → f x = 0%nat.
Proof. intros H i x Hx. pose proof (weight_member f l i x Hx). lia. Qed.

Lemma weight_Forall2 f l l' : Forall2 (λ x y, f y ≤ f x)%nat l l' → (sum_list_with f l' ≤ sum_list_with f l)%nat.
Proof. induction 1; cbn; lia. Qed.

End Weights.

Section Facts.
Variable sha1 : list Z → string.
Variable refused : string → option string.
Notation key := etagCacheKey.
Notation pump := (pump refused).
Notation pumpEtagHashQueue := (pumpEtagHashQueue refused).
Notation tag := (staticAssetEtag sha1).

(** What the synchronous part of a handler does to the jobs it does not settle itself. *)
Definition advances (j j' : Job) : Prop :=
  j_path j' = j_path j ∧ j_stat j' = j_stat j ∧ j_read j' = j_read j
  ∧ (j_phase j' = j_phase j ∨ j_phase j = Queued ∧ ∀ e, j_phase j' ≠ Settled (Hashed e)).

Lemma advances_refl j : advances j j.
Proof. by split_and!; [..|left]. Qed.

Lemma advances_trans j1 j2 j3 : advances j1 j2 → advances j2 j3 → advances j1 j3.
Proof.
  intros (Hp & Hs & Hr & Hph) (Hp' & Hs' & Hr' & Hph'). split_and!; try congruence.
  destruct Hph as [H|[H Hn]], Hph' as [H'|[H' Hn']]; try (left; congruence); right; (split; [congruence|]).
  - done.
  - intros e. rewrite H'. apply Hn.
  - done.
Qed.

Record frame (s s' : State) : Prop := {
  frame_cache : etagCache s' = etagCache s;
  frame_pending : pendingEtagCache s' = pendingEtagCache s;
  frame_callers : callers s' = callers s;
  frame_jobs : Forall2 advances (jobs s) (jobs s');
}.

Lemma frame_refl s : frame s s.
Proof. split; try done. induction (jobs s); constructor; auto using advances_refl. Qed.

Lemma frame_trans s1 s2 s3 : frame s1 s2 → frame s2 s3 → frame s1 s3.
Proof.
  intros [] []. split; try congruence. eapply Forall2_trans; [apply advances_trans|done..].
Qed.

Lemma frame_alter s g id s' : etagCache s' = etagCache s → pendingEtagCache s' = pendingEtagCache s →
  callers s' = callers s → jobs s' = alter g id (jobs s) →
  (∀ j, jobs s !! id = Some j → advances j (g j)) → frame s s'.
Proof.
  intros ??? Hj Hg. split; try done. rewrite Hj. clear Hj. revert id Hg.
  induction (jobs s) as [|j l IH]; intros [|id] Hg; cbn; constructor; auto using advances_refl.
  clear. induction l; constructor; auto using advances_refl.
Qed.

(** The counter, the queue and the jobs agree; [X] are jobs taken off the queue and not started. *)
Record core (X : list nat) (s : State) : Prop := {
  core_active : activeEtagHashes s = Z.of_nat (sum_list_with running (jobs s));
  core_limit : activeEtagHashes s ≤ MAX_CONCURRENT_ETAG_HASHES;
  core_nodup : NoDup (X ++ etagHashQueue s);
  core_queued : ∀ id, id ∈ X ++ etagHashQueue s ↔ j_phase <$> jobs s !! id = Some Queued;
  core_done : ∀ id j e, jobs s !! id = Some j → j_phase j = Settled (Hashed e) → e = tag (j_read j);
}.

Definition balanced (s : State) : Prop := etagHashQueue s = [] ∨ activeEtagHashes s = MAX_CONCURRENT_ETAG_HASHES.

(** Moving a job from a phase to another. *)
Lemma core_set_phase X Y s id j p n q :
  core X s → jobs s !! id = Some j →
  n = activeEtagHashes s - Z.of_nat (running j) + (if p is Hashing then 1 else 0) →
  n ≤ MAX_CONCURRENT_ETAG_HASHES → p ≠ Queued →
  NoDup (Y ++ q) → (∀ i, i ∈ Y ++ q ↔ i ∈ X ++ etagHashQueue s ∧ i ≠ id) →
  (∀ e, p = Settled (Hashed e) → e = tag (j_read j)) →
  core Y (with_queue q (with_active n (set_phase id p s))).
Proof.
  intros [Ha Hl Hn Hq Hd] Hj -> Hlim Hp Hnd Hiff Hdone. split; cbn.
  - rewrite Ha. pose proof (weight_alter running (λ j, mkJob (j_path j) (j_stat j) (j_read j) p) _ _ _ Hj) as Hw.
    unfold running at 4 in Hw. cbn in Hw. destruct p; lia.
  - done.
  - done.
  - intros i. rewrite Hiff, Hq. destruct (decide (i = id)) as [->|Hne].
    + rewrite list_lookup_alter_eq, Hj. cbn. naive_solver.
    + rewrite list_lookup_alter_ne by done. naive_solver.
  - intros i j' e. destruct (decide (i = id)) as [->|Hne].
    + rewrite list_lookup_alter_eq, Hj. cbn. intros [= <-]. cbn. apply Hdone.
    + rewrite list_lookup_alter_ne by done. apply Hd.
Qed.

Lemma set_phase_twice id p p' s : set_phase id p (set_phase id p' s) = set_phase id p s.
Proof. unfold set_phase, with_jobs. cbn. f_equal. rewrite list_alter_alter_eq. by apply list_alter_ext. Qed.

Lemma start_eq p id s j : jobs s !! id = Some j →
  start refused p id s
  = match refused (j_path j) with
    | Some e => p (with_active (activeEtagHashes s) (set_phase id (Settled (Failed e)) s))
    | None => with_active (activeEtagHashes s + 1) (set_phase id Hashing s)
    end.
Proof.
  intros Hj. unfold start. cbn. rewrite list_lookup_alter_eq, Hj. cbn.
  destruct (refused (j_path j)) as [e|]; [|done]. unfold settle. cbn. rewrite list_lookup_alter_eq, Hj. cbn.
  f_equal. rewrite <- (set_phase_twice id (Settled (Failed e)) Hashing s). unfold with_active, set_phase, with_jobs. cbn. f_equal. lia.
Qed.

(** A pump that is given a queue shorter than [n]. *)
Definition pump_spec (p : State → State) (n : nat) : Prop := ∀ s, core [] s →
  core [] (p s) ∧ frame s (p s) ∧ (length (etagHashQueue (p s)) ≤ length (etagHashQueue s))%nat
  ∧ ((length (etagHashQueue s) < n)%nat → balanced (p s)).

Lemma start_ok p n id s : pump_spec p n → core [id] s → activeEtagHashes s < MAX_CONCURRENT_ETAG_HASHES →
  let s' := start refused p id s in
  core [] s' ∧ frame s s' ∧ (length (etagHashQueue s') ≤ length (etagHashQueue s))%nat.
Proof.
  intros Hp Hc Hlt. pose proof (core_limit _ _ Hc) as Hlim.
  assert (j_phase <$> jobs s !! id = Some Queued) as Hid by (apply (core_queued _ _ Hc); left).
  destruct (jobs s !! id) as [j|] eqn:Hj; [|done]. cbn in Hid. injection Hid as Hid.
  pose proof (core_nodup _ _ Hc) as [Hni Hnd]%NoDup_cons.
  assert (∀ i, i ∈ [] ++ etagHashQueue s ↔ i ∈ [id] ++ etagHashQueue s ∧ i ≠ id) as Hiff by set_solver.
  assert (∀ ph n, advances j (mkJob (j_path j) (j_stat j) (j_read j) ph) →
    frame s (with_active n (set_phase id ph s))) as Hf.
  { intros ph k Ha. eapply (frame_alter _ _ id); [done..|]. cbn. rewrite Hj. by intros ? [= <-]. }
  rewrite (start_eq _ _ _ j) by done. destruct (refused (j_path j)) as [e|].
  - set (s1 := with_active _ _).
    assert (core [] s1) as Hc1.
    { eapply (core_set_phase [id] [] s id j _ (activeEtagHashes s) (etagHashQueue s)); try done.
      unfold running. rewrite Hid. lia. }
    destruct (Hp s1 Hc1) as (Hcp & Hfp & Hlen & _). split_and!; [done| |done].
    eapply frame_trans; [|exact Hfp]. apply Hf. split_and!; try done. by right.
  - split_and!; [| |done].
    + eapply (core_set_phase [id] [] s id j _ (activeEtagHashes s + 1) (etagHashQueue s)); try done; [|lia].
      unfold running. rewrite Hid. lia.
    + apply Hf. split_and!; try done. by right.
Qed.

Lemma pump_ok n : pump_spec (pump n) n.
Proof.
  induction n as [|n IH]; intros s Hc; cbn [EtagCache.pump]; [split_and!; [done|apply frame_refl|done|lia]|].
  pose proof (core_limit _ _ Hc) as Hlim.
  destruct (Z.ltb_spec (activeEtagHashes s) MAX_CONCURRENT_ETAG_HASHES) as [Hlt|Hge].
  2:{ split_and!; [done|apply frame_refl|done|]. intros _. right. lia. }
  destruct (etagHashQueue s) as [|id q] eqn:Hq.
  { rewrite Hq. split_and!; [done|apply frame_refl|done|]. intros _. by left. }
  assert (core [id] (with_queue q s)) as Hc1 by (destruct Hc as [? ? Hn Hqu ?]; rewrite Hq in Hn, Hqu; by split).
  destruct (start_ok _ _ _ _ IH Hc1 Hlt) as (Hc2 & Hf2 & Hl2). cbn [with_queue etagHashQueue] in Hl2.
  destruct (IH _ Hc2) as (Hc3 & Hf3 & Hl3 & Hb3). split_and!; [done| |cbn [length]; lia|].
  - eapply frame_trans; [|exact Hf3]. eapply frame_trans; [|exact Hf2]. destruct (frame_refl s). by split.
  - cbn [length]. intros Hlen. apply Hb3. lia.
Qed.

(** The fuel of a pump is never exhausted: it ends with an empty queue or with no place free. *)
Lemma pump_queue_ok s : core [] s →
  core [] (pumpEtagHashQueue s) ∧ frame s (pumpEtagHashQueue s) ∧ balanced (pumpEtagHashQueue s).
Proof.
  intros Hc. destruct (pump_ok (S (length (etagHashQueue s))) s Hc) as (? & ? & _ & Hb).
  split_and!; [done|done|]. apply Hb. lia.
Qed.

Lemma pump_queue_spec n : pump_spec pumpEtagHashQueue n.
Proof.
  intros s Hc. destruct (pump_ok (S (length (etagHashQueue s))) s Hc) as (? & ? & ? & Hb).
  split_and!; [done..|]. intros _. apply Hb. lia.
Qed.

(** The first settlement of a job that runs. *)
Lemma settle_ok id o s j : core [] s → jobs s !! id = Some j → j_phase j = Hashing →
  (∀ e, o = Hashed e → e = tag (j_read j)) →
  let s1 := with_active (activeEtagHashes s - 1) (set_phase id (Settled o) s) in
  let s' := settle pumpEtagHashQueue id o s in
  core [] s' ∧ balanced s' ∧ frame s1 s'.
Proof.
  intros Hc Hj Hph Ho s1. unfold settle. rewrite Hj. cbn [fmap option_fmap option_map]. rewrite Hph.
  pose proof (core_limit _ _ Hc) as Hlim.
  assert (∀ i, i ∈ [] ++ etagHashQueue s ↔ i ∈ [] ++ etagHashQueue s ∧ i ≠ id) as Hiff.
  { intros i. split; [|tauto]. intros Hi. split; [done|]. intros ->. apply (core_queued _ _ Hc) in Hi.
    rewrite Hj in Hi. cbn in Hi. congruence. }
  assert (core [] s1) as Hc1.
  { eapply (core_set_phase [] [] s id j _ (activeEtagHashes s - 1) (etagHashQueue s)); try done.
    - unfold running. rewrite Hph. lia.
    - lia.
    - apply Hc.
    - intros e [= ->]. by apply Ho. }
  destruct (pump_queue_ok s1 Hc1) as (? & ? & ?). done.
Qed.

(** ** Callers *)

(** Jobs stay what they are once they are settled. *)
Definition evolves (s s' : State) : Prop := ∀ id j, jobs s !! id = Some j →
  ∃ j', jobs s' !! id = Some j' ∧ j_path j' = j_path j ∧ j_stat j' = j_stat j
    ∧ (∀ o, j_phase j = Settled o → j' = j).

Lemma frame_evolves s s' : frame s s' → evolves s s'.
Proof.
  intros [_ _ _ Hf] id j Hj. eapply Forall2_lookup_l in Hf as (j' & Hj' & Hp & Hs & Hr & Hph); [|exact Hj].
  exists j'. split_and!; try done. intros o Ho. destruct Hph as [H|[H _]]; [|congruence].
  destruct j, j'; cbn in *. congruence.
Qed.

Definition job_key (j : Job) : string := key (j_path j) (j_stat j).

(** A digest that was computed for a key, by a synchronous read or by a job. *)
Definition computed (es : list Event) (s : State) (k e : string) : Prop :=
  (∃ path stat bytes, CallSync path stat (Returns bytes) ∈ es ∧ k = key path stat ∧ e = tag bytes)
  ∨ (∃ id j, jobs s !! id = Some j ∧ k = job_key j ∧ j_phase j = Settled (Hashed e)).

Record clients (es : list Event) (s : State) : Prop := {
  cl_cache : bounded (etagCache s);
  cl_source : ∀ k e, (k, e) ∈ etagCache s → computed es s k e;
  cl_keys : NoDup (pendingEtagCache s).*1;
  cl_limit : map_size (pendingEtagCache s) ≤ MAX_PENDING_ETAG_HASHES;
  cl_owner : ∀ k id, map_get (pendingEtagCache s) k = Some id →
    ∃ c path stat, callers s !! c = Some (mkCaller path stat (Awaiting id true)) ∧ k = key path stat;
  cl_awaits : ∀ c path stat id started, callers s !! c = Some (mkCaller path stat (Awaiting id started)) →
    ∃ j, jobs s !! id = Some j ∧ key path stat = job_key j;
  cl_answers : ∀ c path stat e, callers s !! c = Some (mkCaller path stat (Answered (Served (Some e)))) →
    computed es s (key path stat) e;
  cl_jobs : ∀ id j, jobs s !! id = Some j → Call (j_path j) (j_stat j) ∈ es;
  cl_calls : ∀ c path stat p, callers s !! c = Some (mkCaller path stat p) →
    Call path stat ∈ es ∨ ∃ content, CallSync path stat content ∈ es;
}.

Lemma computed_mono es es' s s' k e : evolves s s' → es ⊆ es' → computed es s k e → computed es' s' k e.
Proof.
  intros Hev Hes [(path & stat & bytes & Hin & Hk & He)|(id & j & Hj & Hk & Hph)].
  - left. exists path, stat, bytes. split_and!; [by apply Hes|done|done].
  - right. destruct (Hev id j Hj) as (j' & Hj' & _ & _ & Hset). exists id, j'.
    rewrite (Hset _ Hph) in *. by split_and!.
Qed.

(** The client state is kept by whatever only moves jobs on. *)
Lemma clients_mono es es' s s' : clients es s → evolves s s' → es ⊆ es' →
  (∀ id j', jobs s' !! id = Some j' → Call (j_path j') (j_stat j') ∈ es') →
  etagCache s' = etagCache s → pendingEtagCache s' = pendingEtagCache s → callers s' = callers s →
  clients es' s'.
Proof.
  intros [] Hev Hes Hjobs Hca Hpe Hcl. split; rewrite ?Hca, ?Hpe, ?Hcl; try done.
  - eauto using computed_mono.
  - intros c path stat id st Hc. destruct (cl_awaits0 _ _ _ _ _ Hc) as (j & Hj & Hk).
    destruct (Hev id j Hj) as (j' & Hj' & Hp & Hs & _). exists j'. split; [done|].
    rewrite Hk. unfold job_key. by rewrite Hp, Hs.
  - eauto using computed_mono.
  - intros c path stat p Hc. destruct (cl_calls0 _ _ _ _ Hc) as [H|[content H]]; [left|right; exists content]; auto.
Qed.

Lemma clients_frame es es' s s' : clients es s → frame s s' → es ⊆ es' → clients es' s'.
Proof.
  intros Hcl Hf Hes. eapply clients_mono; [exact Hcl|by apply frame_evolves|done| |apply Hf..].
  intros id j' Hj'. destruct Hf as [_ _ _ Hf]. eapply Forall2_lookup_r in Hf as (j & Hj & Hp & Hs & _); [|done].
  rewrite Hp, Hs. apply Hes. by eapply cl_jobs.
Qed.

Lemma clients_cache es s m : clients es s → bounded m → (∀ k e, (k, e) ∈ m → computed es s k e) →
  clients es (with_cache m s).
Proof. intros [] Hb Hm. by split. Qed.

Lemma clients_add es s path stat p : clients es s →
  (Call path stat ∈ es ∨ ∃ content, CallSync path stat content ∈ es) →
  (∀ id started, p = Awaiting id started → ∃ j, jobs s !! id = Some j ∧ key path stat = job_key j) →
  (∀ e, p = Answered (Served (Some e)) → computed es s (key path stat) e) →
  clients es (add_caller path stat p s).
Proof.
  intros [] Hcall Haw Hans. split; cbn; try done.
  - intros k id Hk. destruct (cl_owner0 k id Hk) as (c & path' & stat' & Hc & ->).
    exists c, path', stat'. split; [|done]. by apply lookup_app_l_Some.
  - intros c path' stat' id st [[_ Hc]|[_ Hc]]%lookup_snoc_Some; [eauto|]. injection Hc as -> -> ->. eauto.
  - intros c path' stat' e [[_ Hc]|[_ Hc]]%lookup_snoc_Some; [eauto|]. injection Hc as -> -> ->. eauto.
  - intros c path' stat' p' [[_ Hc]|[_ Hc]]%lookup_snoc_Some; [eauto|]. by injection Hc as -> -> _.
Qed.

Lemma clients_pending es s k id : clients es s → map_get (pendingEtagCache s) k = None →
  map_size (pendingEtagCache s) < MAX_PENDING_ETAG_HASHES →
  (∃ c path stat, callers s !! c = Some (mkCaller path stat (Awaiting id true)) ∧ k = key path stat) →
  clients es (with_pending (map_set (pendingEtagCache s) k id) s).
Proof.
  intros [] Hget Hlt Hown. pose proof Hget as Hk%map_get_None. split; cbn; try done; rewrite map_set_new by done.
  - rewrite fmap_app. apply NoDup_app. split_and!; [done| |apply NoDup_singleton].
    by intros x Hx ->%list_elem_of_singleton.
  - unfold map_size in *. rewrite length_app. cbn. lia.
  - intros k' id'. rewrite map_get_app. destruct (map_get (pendingEtagCache s) k') as [i|] eqn:Hi.
    + intros [= <-]. by apply cl_owner0.
    + cbn. destruct (String.eqb_spec k k') as [->|]; [|done]. by intros [= <-].
Qed.

Lemma after_await_clients es s path stat id o : clients es s →
  (∀ e, o = Hashed e → computed es s (key path stat) e) →
  let s' := after_await (key path stat) id o s in
  clients es s' ∧ map_get (pendingEtagCache s') (key path stat) ≠ Some id
  ∧ jobs s' = jobs s ∧ callers s' = callers s ∧ etagHashQueue s' = etagHashQueue s
  ∧ activeEtagHashes s' = activeEtagHashes s.
Proof.
  intros Hcl Ho. cbv zeta. unfold after_await.
  set (s1 := match o with Hashed etag => _ | Failed _ => _ end).
  assert (clients es s1 ∧ pendingEtagCache s1 = pendingEtagCache s ∧ jobs s1 = jobs s ∧ callers s1 = callers s
    ∧ etagHashQueue s1 = etagHashQueue s ∧ activeEtagHashes s1 = activeEtagHashes s) as (Hcl1 & Hpe & Hjo & Hca & Hqu & Hac).
  { subst s1. destruct o as [e|e]; [|done]. split_and!; try done. unfold rememberEtag.
    destruct (remember_ok (etagCache s) (key path stat) e (cl_cache _ _ Hcl)) as [Hb He].
    apply clients_cache; [done|done|]. intros k e' Hin. destruct (He _ Hin) as [[= -> ->]|Hold]; [auto|].
    by eapply cl_source. }
  rewrite Hpe. case_bool_decide as Hget; [|by rewrite Hpe; split_and!].
  destruct Hcl1. destruct (map_delete_NoDup (pendingEtagCache s1) (key path stat) cl_keys0) as [Hn Hni].
  rewrite Hpe in *. split_and!; try done.
  - split; cbn; try done.
    + unfold map_size in *. pose proof (map_delete_length_le (pendingEtagCache s) (key path stat)). lia.
    + intros k i. destruct (decide (k = key path stat)) as [->|Hne]; [by rewrite map_get_delete_eq|].
      rewrite map_get_delete_ne by done. apply cl_owner0.
  - cbn. by rewrite map_get_delete_eq.
Qed.

Lemma resume_clients es s c path stat id started o j : clients es s →
  callers s !! c = Some (mkCaller path stat (Awaiting id started)) → jobs s !! id = Some j → j_phase j = Settled o →
  (started = true → map_get (pendingEtagCache s) (key path stat) ≠ Some id) →
  clients es (with_callers (<[c := mkCaller path stat (Answered (answer_of o))]> (callers s)) s).
Proof.
  intros Hcl Hc Hj Ho Hst. pose proof (lookup_lt_Some _ _ _ Hc) as Hlt. pose proof Hcl as [].
  split; cbn; try done.
  - intros k i Hk. destruct (cl_owner0 k i Hk) as (c' & path' & stat' & Hc' & ->).
    exists c', path', stat'. split; [|done]. rewrite list_lookup_insert_ne; [done|]. intros <-.
    rewrite Hc in Hc'. injection Hc' as -> -> -> ->. by apply Hst.
  - intros c' path' stat' i st [(<- & Heq & _)|[_ H]]%list_lookup_insert_Some; [done|]. by eapply cl_awaits0.
  - intros c' path' stat' e [(<- & Heq & _)|[_ H]]%list_lookup_insert_Some; [|by eapply cl_answers0].
    injection Heq as -> -> Ha. destruct o as [e'|]; [|done]. injection Ha as ->.
    destruct (cl_awaits0 _ _ _ _ _ Hc) as (j' & Hj' & Hk). right. exists id, j'. simplify_eq. done.
  - intros c' path' stat' p [(<- & Heq & _)|[_ H]]%list_lookup_insert_Some; [|by eapply cl_calls0].
    injection Heq as -> -> _. by eapply cl_calls0.
Qed.

(** ** The invariant *)

Record inv (es : list Event) (s : State) : Prop := {
  inv_core : core [] s;
  inv_balanced : balanced s;
  inv_clients : clients es s;
}.

Lemma core_same X s s' : core X s → jobs s' = jobs s → etagHashQueue s' = etagHashQueue s →
  activeEtagHashes s' = activeEtagHashes s → core X s'.
Proof. intros [] Hj Hq Ha. by split; rewrite ?Hj, ?Hq, ?Ha. Qed.

Lemma balanced_same s s' : balanced s → etagHashQueue s' = etagHashQueue s →
  activeEtagHashes s' = activeEtagHashes s → balanced s'.
Proof. unfold balanced. by intros ? -> ->. Qed.

Lemma inv_same es s s' : inv es s → clients es s' → jobs s' = jobs s → etagHashQueue s' = etagHashQueue s →
  activeEtagHashes s' = activeEtagHashes s → inv es s'.
Proof. intros [] ????. split; [by eapply core_same|by eapply balanced_same|done]. Qed.

Lemma inv_more es e s : inv es s → inv (es ++ [e]) s.
Proof.
  intros [Hc Hb Hcl]. split; [done|done|]. eapply clients_frame; [done|apply frame_refl|]. set_solver.
Qed.

Lemma enqueue_core s path stat : core [] s →
  core [length (jobs s)] (with_jobs (jobs s ++ [mkJob path stat [] Queued]) s).
Proof.
  intros [Ha Hl Hn Hq Hd]. split; cbn.
  - rewrite sum_list_with_app. cbn. lia.
  - done.
  - apply NoDup_cons. split; [|done]. intros Hin. apply (Hq (length (jobs s))) in Hin.
    by rewrite lookup_ge_None_2 in Hin.
  - intros id. rewrite elem_of_cons. setoid_rewrite (Hq id). destruct (decide (id < length (jobs s))%nat).
    + rewrite lookup_app_l by done. split; [intros [->|]; [lia|done]|by right].
    + rewrite (lookup_ge_None_2 (jobs s) id) by lia. destruct (decide (id = length (jobs s))) as [->|Hne].
      * rewrite lookup_app_r, Nat.sub_diag by done. split; [done|by left].
      * rewrite lookup_ge_None_2; [split; [intros [|]; done|done]|]. rewrite length_app. cbn. lia.
  - intros id j e [[_ Hj]|[_ <-]]%lookup_snoc_Some; [by eapply Hd|done].
Qed.

Lemma admit_ok es s path stat id s' : inv es s → Call path stat ∈ es →
  hashFileWithAdmission refused path stat s = (id, s') →
  inv es s' ∧ etagCache s' = etagCache s ∧ pendingEtagCache s' = pendingEtagCache s ∧ callers s' = callers s
  ∧ ∃ j, jobs s' !! id = Some j ∧ key path stat = job_key j.
Proof.
  intros [Hc Hb Hcl] Hcall. unfold hashFileWithAdmission. set (s1 := with_jobs _ s). intros [= <- <-].
  pose proof (enqueue_core s path stat Hc) as Hc1. fold s1 in Hc1.
  assert (clients es s1) as Hcl1.
  { eapply clients_mono; [exact Hcl| |done| |done..].
    - intros i j Hj. exists j. split; [|done]. by apply lookup_app_l_Some.
    - intros i j [[_ Hj]|[_ <-]]%lookup_snoc_Some; [by eapply cl_jobs|done]. }
  assert (∀ s', frame s1 s' → ∃ j, jobs s' !! length (jobs s) = Some j ∧ key path stat = job_key j) as Hjob.
  { intros s2 [_ _ _ Hf]. assert (jobs s1 !! length (jobs s) = Some (mkJob path stat [] Queued)) as Hn
      by (cbn; by rewrite lookup_app_r, Nat.sub_diag).
    eapply Forall2_lookup_l in Hf as (j & Hj & Hp & Hs & _); [|exact Hn]. exists j. split; [done|].
    unfold job_key. by rewrite Hp, Hs. }
  change (activeEtagHashes s1) with (activeEtagHashes s).
  destruct (Z.ltb_spec (activeEtagHashes s) MAX_CONCURRENT_ETAG_HASHES) as [Hlt|Hge].
  - destruct (start_ok _ 0 _ _ (pump_queue_spec 0) Hc1 Hlt) as (Hc2 & Hf2 & Hl2).
    split_and!; try apply Hf2; [|by apply Hjob]. split; [done| |by eapply clients_frame].
    destruct Hb as [Hb|Hb]; [|lia]. left. cbn in Hl2. rewrite Hb in Hl2. apply nil_length_inv. cbn in Hl2. lia.
  - split_and!; try done; [|apply (Hjob s1), frame_refl].
    pose proof (core_limit _ _ Hc1) as Hlim. split; [|right; cbn in *; lia|].
    + destruct Hc1 as [Ha Hl Hn Hq Hd]. split; try done; cbn in *.
      * rewrite <- Permutation_cons_append. done.
      * intros i. rewrite <- Hq, elem_of_cons, elem_of_app, list_elem_of_singleton. tauto.
    + destruct Hcl1. by split.
Qed.

Lemma call_ok es s path stat : inv es s → Call path stat ∈ es →
  inv es (staticAssetEtagForFileAsync refused path stat s).
Proof.
  intros Hi Hcall. pose proof (inv_clients _ _ Hi) as Hcl. unfold staticAssetEtagForFileAsync.
  destruct (cachedEtag_ok (etagCache s) (key path stat) (cl_cache _ _ Hcl)) as (Hb & Hm & Hhit).
  destruct (cachedEtag (etagCache s) (key path stat)) as [hit m]. cbn [fst snd] in *.
  assert (clients es (with_cache m s)) as Hcl1 by (apply clients_cache; [done..|]; intros; eapply cl_source; eauto).
  destruct hit as [e|].
  { eapply inv_same; [exact Hi| |done..]. apply clients_add; [done|by left|done|].
    intros ? [= <-]. eapply (cl_source _ _ Hcl), Hhit. done. }
  destruct (map_get (pendingEtagCache (with_cache m s)) (key path stat)) as [id|] eqn:Hget.
  { eapply inv_same; [exact Hi| |done..]. apply clients_add; [done|by left| |done].
    intros ? ? [= <- _]. destruct (cl_owner _ _ Hcl1 _ _ Hget) as (c & p & st & Hc & ->). by eapply cl_awaits. }
  destruct (Z.leb_spec MAX_PENDING_ETAG_HASHES (map_size (pendingEtagCache (with_cache m s)))) as [Hfull|Hroom].
  { eapply inv_same; [exact Hi| |done..]. apply clients_add; [done|by left|done|done]. }
  assert (inv es (with_cache m s)) as Hi1 by (by eapply inv_same).
  destruct (hashFileWithAdmission refused path stat (with_cache m s)) as [id s2] eqn:Hadm.
  destruct (admit_ok _ _ _ _ _ _ Hi1 Hcall Hadm) as (Hi2 & _ & Hpe & Hca & Hjob).
  change (inv es (with_pending (map_set (pendingEtagCache s2) (key path stat) id)
    (add_caller path stat (Awaiting id true) s2))).
  eapply inv_same; [exact Hi2| |done..].
  apply (clients_pending es (add_caller path stat (Awaiting id true) s2)).
  - apply clients_add; [by apply Hi2|by left| |done]. by intros ? ? [= <- _].
  - cbn. by rewrite Hpe.
  - cbn. by rewrite Hpe.
  - exists (length (callers s2)), path, stat. split; [|done]. cbn. by rewrite lookup_app_r, Nat.sub_diag.
Qed.

Lemma call_sync_ok es s path stat content : inv es s → CallSync path stat content ∈ es →
  inv es (staticAssetEtagForFile sha1 path stat content s).
Proof.
  intros Hi Hcall. pose proof (inv_clients _ _ Hi) as Hcl. unfold staticAssetEtagForFile.
  destruct (cachedEtag_ok (etagCache s) (key path stat) (cl_cache _ _ Hcl)) as (Hb & Hm & Hhit).
  destruct (cachedEtag (etagCache s) (key path stat)) as [hit m]. cbn [fst snd] in *.
  assert (clients es (with_cache m s)) as Hcl1 by (apply clients_cache; [done..|]; intros; eapply cl_source; eauto).
  destruct hit as [e|].
  { eapply inv_same; [exact Hi| |done..]. apply clients_add; [done|right; eauto|done|].
    intros ? [= <-]. eapply (cl_source _ _ Hcl), Hhit. done. }
  destruct content as [bytes|e].
  2:{ eapply inv_same; [exact Hi| |done..]. apply clients_add; [done|right; eauto|done|done]. }
  assert (computed es s (key path stat) (tag bytes)) as Hcomp by (left; by exists path, stat, bytes).
  eapply inv_same; [exact Hi| |done..]. apply clients_add; [|right; eauto|done|by intros ? [= <-]].
  destruct (remember_ok m (key path stat) (tag bytes) Hb) as [Hb2 He2].
  apply (clients_cache _ (with_cache m s)); [done..|]. intros k e Hin.
  destruct (He2 _ Hin) as [[= -> ->]|Hold]; [done|]. eapply cl_source; eauto.
Qed.

Lemma set_phase_evolves id o n s j : jobs s !! id = Some j → j_phase j = Hashing →
  evolves s (with_active n (set_phase id (Settled o) s)).
Proof.
  intros Hj Hph i k Hk. cbn. destruct (decide (i = id)) as [->|Hne].
  - rewrite list_lookup_alter_eq, Hj. simplify_eq. eexists. split; [done|]. split_and!; [done..|]. congruence.
  - rewrite list_lookup_alter_ne by done. by exists k.
Qed.

Lemma settled_ok es s id o j : inv es s → jobs s !! id = Some j → j_phase j = Hashing →
  (∀ e, o = Hashed e → e = tag (j_read j)) → inv es (settle pumpEtagHashQueue id o s).
Proof.
  intros [Hc Hb Hcl] Hj Hph Ho. destruct (settle_ok id o s j Hc Hj Hph Ho) as (Hc' & Hb' & Hf').
  split; [done|done|]. eapply clients_frame; [|exact Hf'|done].
  eapply clients_mono; [exact Hcl|by eapply set_phase_evolves|done| |done..].
  intros i k. cbn. destruct (decide (i = id)) as [->|Hne].
  - rewrite list_lookup_alter_eq, Hj. intros [= <-]. cbn. by eapply cl_jobs.
  - rewrite list_lookup_alter_ne by done. by eapply cl_jobs.
Qed.

Lemma data_ok es s id chunk : inv es s → inv es (on_data id chunk s).
Proof.
  intros Hi. unfold on_data. destruct (jobs s !! id) as [[path stat read ph]|] eqn:Hj; [|done].
  destruct ph; try done. destruct Hi as [[Ha Hl Hn Hq Hd] Hb Hcl].
  assert (∀ i, (<[id := mkJob path stat (read ++ chunk) Hashing]> (jobs s)) !! i
    = if decide (i = id) then Some (mkJob path stat (read ++ chunk) Hashing) else jobs s !! i) as Hlk.
  { intros i. case_decide as Hi; [subst; apply list_lookup_insert_eq; by eapply lookup_lt_Some|].
    by apply list_lookup_insert_ne. }
  split; [split; cbn|exact Hb|].
  - rewrite list_insert_alter.
    pose proof (weight_alter running (λ _, mkJob path stat (read ++ chunk) Hashing) _ _ _ Hj) as Hw. cbn in Hw. lia.
  - done.
  - done.
  - intros i. rewrite Hlk, Hq. case_decide; [subst; by rewrite Hj|done].
  - intros i j e. rewrite Hlk. case_decide; [by intros [= <-]|by apply Hd].
  - eapply clients_mono; [exact Hcl| |done| |done..].
    + intros i j Hj'. cbn. rewrite Hlk. case_decide; [|by exists j]. simplify_eq. eexists. split; [done|]. by split_and!.
    + intros i j. cbn. rewrite Hlk. case_decide; [|by eapply cl_jobs]. intros [= <-]. cbn.
      by apply (cl_jobs _ _ Hcl _ _ Hj).
Qed.

Lemma resume_ok es s c : inv es s → inv es (resume c s).
Proof.
  intros Hi. unfold resume. destruct (callers s !! c) as [[path stat [id started|a]]|] eqn:Hc; [|done..].
  destruct (jobs s !! id) as [j|] eqn:Hj; [|done]. cbn. destruct (j_phase j) as [| |o] eqn:Hph; [done..|].
  pose proof (inv_clients _ _ Hi) as Hcl. destruct started.
  - destruct (after_await_clients es s path stat id o Hcl) as (Hcl1 & Hne & Hjo & Hca & Hqu & Hac).
    { intros e ->. destruct (cl_awaits _ _ Hcl _ _ _ _ _ Hc) as (j' & Hj' & Hk). right. exists id, j'.
      simplify_eq. done. }
    eapply (inv_same _ s); [done| |done..].
    eapply resume_clients; [exact Hcl1|rewrite Hca; exact Hc|rewrite Hjo; exact Hj|exact Hph|done].
  - eapply (inv_same _ s); [done| |done..]. eapply resume_clients; [exact Hcl|done|exact Hj|done|done].
Qed.

Lemma step_ok es s e : inv es s → e ∈ es → inv es (step sha1 refused s e).
Proof.
  intros Hi He. destruct e as [path stat|path stat content|id chunk|id err|id|c]; cbn.
  - by apply call_ok.
  - by apply call_sync_ok.
  - by apply data_ok.
  - unfold on_error. destruct (jobs s !! id) as [[p st r []]|] eqn:Hj; try done. by eapply settled_ok.
  - unfold on_end. destruct (jobs s !! id) as [[p st r []]|] eqn:Hj; try done.
    eapply settled_ok; [done..|]. by intros ? [= <-].
  - by apply resume_ok.
Qed.

Lemma init_ok : inv [] init.
Proof.
  split; [split|by left|split]; cbn; try done; try (intros; set_solver); try apply NoDup_nil_2.
  - split; [apply NoDup_nil_2|cbn; lia].
Qed.

Lemma run_snoc s es e : run sha1 refused (es ++ [e]) s = step sha1 refused (run sha1 refused es s) e.
Proof. unfold run. by rewrite foldl_app. Qed.

Lemma run_ok es : inv es (run sha1 refused es init).
Proof.
  induction es as [|e es IH] using rev_ind; [apply init_ok|]. rewrite run_snoc.
  apply step_ok; [by apply inv_more|]. set_solver.
Qed.

(** ** Unsettled jobs are pending *)

Definition claimed (X : list nat) (s : State) : Prop := ∀ id j, jobs s !! id = Some j → unsettled j ≠ 0%nat →
  id ∈ X ∨ map_get (pendingEtagCache s) (job_key j) = Some id.

Definition keeps (s s' : State) : Prop := ∀ id j', jobs s' !! id = Some j' → unsettled j' ≠ 0%nat →
  ∃ j, jobs s !! id = Some j ∧ unsettled j ≠ 0%nat ∧ job_key j' = job_key j.

Lemma claimed_keeps X s s' : claimed X s → keeps s s' → pendingEtagCache s' = pendingEtagCache s → claimed X s'.
Proof. intros Hc Hk Hp id j' Hj' Hu. destruct (Hk id j' Hj' Hu) as (j & Hj & Hu' & ->). rewrite Hp. by apply Hc. Qed.

Lemma frame_keeps s s' : frame s s' → keeps s s'.
Proof.
  intros [_ _ _ Hf] id j' Hj' Hu. eapply Forall2_lookup_r in Hf as (j & Hj & Hp & Hs & _ & Hph); [|done].
  exists j. split_and!; [done| |unfold job_key; by rewrite Hp, Hs].
  unfold unsettled in *. destruct Hph as [<-|[-> _]]; done.
Qed.

Lemma settle_keeps s id o j : core [] s → jobs s !! id = Some j → j_phase j = Hashing →
  (∀ e, o = Hashed e → e = tag (j_read j)) →
  keeps s (settle pumpEtagHashQueue id o s) ∧ pendingEtagCache (settle pumpEtagHashQueue id o s) = pendingEtagCache s
  ∧ callers (settle pumpEtagHashQueue id o s) = callers s
  ∧ (sum_list_with unsettled (jobs (settle pumpEtagHashQueue id o s)) < sum_list_with unsettled (jobs s))%nat.
Proof.
  intros Hc Hj Hph Ho. destruct (settle_ok id o s j Hc Hj Hph Ho) as (_ & _ & Hf).
  split_and!; [|apply Hf|apply Hf|].
  - intros i j' Hj' Hu. destruct (frame_keeps _ _ Hf i j' Hj' Hu) as (k & Hk & Hku & ->). revert Hk. cbn.
    destruct (decide (i = id)) as [->|Hne].
    + rewrite list_lookup_alter_eq, Hj. intros [= <-]. done.
    + rewrite list_lookup_alter_ne by done. intros Hk. by exists k.
  - eapply Nat.le_lt_trans.
    + apply (weight_Forall2 unsettled (jobs (with_active (activeEtagHashes s - 1) (set_phase id (Settled o) s)))).
      eapply Forall2_impl; [apply Hf|]. intros x y (_ & _ & _ & Hxy). unfold unsettled.
      destruct Hxy as [->|[-> _]]; [done|]. destruct (j_phase y); lia.
    + cbn. pose proof (weight_alter unsettled (λ j, mkJob (j_path j) (j_stat j) (j_read j) (Settled o)) _ _ _ Hj) as Hw.
      unfold unsettled at 2 4 in Hw. rewrite Hph in Hw. cbn in Hw. lia.
Qed.

Lemma claimed_same X s s' : claimed X s → jobs s' = jobs s → pendingEtagCache s' = pendingEtagCache s → claimed X s'.
Proof. unfold claimed. by intros ? -> ->. Qed.

Lemma start_keeps id s : core [id] s → activeEtagHashes s < MAX_CONCURRENT_ETAG_HASHES →
  keeps s (start refused pumpEtagHashQueue id s)
  ∧ pendingEtagCache (start refused pumpEtagHashQueue id s) = pendingEtagCache s.
Proof.
  intros Hc Hlt. destruct (start_ok _ 0 _ _ (pump_queue_spec 0) Hc Hlt) as (_ & Hf & _).
  split; [by apply frame_keeps|apply Hf].
Qed.

Lemma call_claimed es s path stat : inv es s → claimed [] s →
  claimed [] (staticAssetEtagForFileAsync refused path stat s).
Proof.
  intros [Hc _ Hcl] Hcm. unfold staticAssetEtagForFileAsync.
  destruct (cachedEtag (etagCache s) (key path stat)) as [[e|] m]; [by eapply claimed_same|].
  destruct (map_get _ _) as [id|] eqn:Hget; [by eapply claimed_same|].
  destruct (MAX_PENDING_ETAG_HASHES <=? _); [by eapply claimed_same|].
  unfold hashFileWithAdmission. set (s1 := with_jobs _ _). set (s2 := if _ <? _ then _ else _).
  assert (claimed [length (jobs s)] s1) as Hc1.
  { intros id j [[_ Hj]|[-> _]]%lookup_snoc_Some Hu; [|by left; left].
    destruct (Hcm id j Hj Hu) as [H|H]; [by apply not_elem_of_nil in H|by right]. }
  assert (claimed [length (jobs s)] s2 ∧ pendingEtagCache s2 = pendingEtagCache s
    ∧ ∃ j, jobs s2 !! length (jobs s) = Some j ∧ job_key j = key path stat) as (Hc2 & Hp2 & j & Hj & Hk).
  { pose proof (enqueue_core (with_cache m s) path stat) as Hc3. fold s1 in Hc3.
    assert (jobs s1 !! length (jobs s) = Some (mkJob path stat [] Queued)) as Hn
      by (cbn; by rewrite lookup_app_r, Nat.sub_diag).
    subst s2. destruct (Z.ltb_spec (activeEtagHashes s1) MAX_CONCURRENT_ETAG_HASHES) as [Hlt|Hge].
    - assert (core [] (with_cache m s)) as Hcm' by by eapply core_same. specialize (Hc3 Hcm').
      destruct (start_keeps _ s1 Hc3 Hlt) as [Hk Hp]. split_and!; [by eapply claimed_keeps|done|].
      destruct (start_ok _ 0 _ _ (pump_queue_spec 0) Hc3 Hlt) as (_ & [_ _ _ Hf] & _).
      eapply Forall2_lookup_l in Hf as (j & Hj & Hpa & Hs & _); [|exact Hn]. exists j. split; [done|].
      unfold job_key. by rewrite Hpa, Hs.
    - split_and!; [by eapply claimed_same|done|]. eexists. split; [exact Hn|done]. }
  intros id j' Hj' Hu. right. change (jobs s2 !! id = Some j') in Hj'.
  change (map_get (map_set (pendingEtagCache s2) (key path stat) (length (jobs s))) (job_key j') = Some id).
  rewrite Hp2. cbn in Hget. rewrite map_set_new by (by apply map_get_None). rewrite map_get_app.
  destruct (Hc2 id j' Hj' Hu) as [->%list_elem_of_singleton|H].
  - simplify_eq. rewrite Hk, Hget. cbn. by rewrite String.eqb_refl.
  - rewrite Hp2 in H. by rewrite H.
Qed.

Lemma resume_claimed es s c : inv es s → claimed [] s → claimed [] (resume c s).
Proof.
  intros [_ _ Hcl] Hcm. unfold resume. destruct (callers s !! c) as [[path stat [id started|a]]|] eqn:Hc; [|done..].
  destruct (jobs s !! id) as [j|] eqn:Hj; [|done]. cbn. destruct (j_phase j) as [| |o] eqn:Hph; [done..|].
  destruct started; [|done].
  assert (claimed [] (after_await (key path stat) id o s)) as H; [|done].
  unfold after_await. set (s1 := match o with Hashed etag => _ | Failed _ => _ end).
  assert (jobs s1 = jobs s ∧ pendingEtagCache s1 = pendingEtagCache s) as [Hjo Hpe] by by destruct o.
  rewrite Hpe. case_bool_decide as Hget; [|by eapply claimed_same].
  intros i k Hk Hu. cbn in Hk |- *. rewrite Hjo in Hk. destruct (Hcm i k Hk Hu) as [H|H]; [by apply not_elem_of_nil in H|].
  right. rewrite map_get_delete_ne; [done|]. intros Heq. rewrite <- Heq, Hget in H. injection H as ->.
  simplify_eq. unfold unsettled in Hu. by rewrite Hph in Hu.
Qed.

Lemma run_claimed es : claimed [] (run sha1 refused es init).
Proof.
  induction es as [|e es IH] using rev_ind; [done|]. rewrite run_snoc. pose proof (run_ok es) as Hi.
  set (s := run sha1 refused es init) in *. destruct e as [path stat|path stat content|id chunk|id err|id|c]; cbn.
  - by eapply call_claimed.
  - unfold staticAssetEtagForFile. destruct (cachedEtag (etagCache s) (key path stat)) as [[e|] m]; [by eapply claimed_same|].
    destruct content; by eapply claimed_same.
  - unfold on_data. destruct (jobs s !! id) as [[path stat read []]|] eqn:Hj; try done.
    eapply claimed_keeps; [done| |done]. intros i j. cbn. intros [(<- & <- & _)|[_ H]]%list_lookup_insert_Some Hu; eauto.
  - unfold on_error. destruct (jobs s !! id) as [[p st r []]|] eqn:Hj; try done.
    destruct (settle_keeps s id (Failed err) _ (inv_core _ _ Hi) Hj) as (Hk & Hp & _); [done..|]. by eapply claimed_keeps.
  - unfold on_end. destruct (jobs s !! id) as [[p st r []]|] eqn:Hj; try done.
    destruct (settle_keeps s id (Hashed (tag r)) _ (inv_core _ _ Hi) Hj) as (Hk & Hp & _);
      [done|by intros ? [= <-]|]. by eapply claimed_keeps.
  - by eapply resume_claimed.
Qed.

Definition open_keys (js : list Job) : list string := job_key <$> filter (λ j, unsettled j ≠ 0%nat) js.

Lemma open_keys_length js : length (open_keys js) = sum_list_with unsettled js.
Proof.
  unfold open_keys. rewrite length_fmap. induction js as [|j js IH]; [done|]. rewrite filter_cons. cbn [sum_list_with].
  assert (unsettled j ≤ 1)%nat as Hle by (unfold unsettled; destruct (j_phase j); lia).
  case_decide; cbn [length]; lia.
Qed.

Lemma open_keys_elem js k : k ∈ open_keys js → ∃ id j, js !! id = Some j ∧ unsettled j ≠ 0%nat ∧ k = job_key j.
Proof.
  unfold open_keys. intros (j & -> & [Hu Hin]%list_elem_of_filter)%list_elem_of_fmap.
  apply list_elem_of_lookup in Hin as [id Hid]. eauto.
Qed.

Lemma open_keys_NoDup js :
  (∀ i i' j j', js !! i = Some j → js !! i' = Some j' → unsettled j ≠ 0%nat → unsettled j' ≠ 0%nat →
     job_key j = job_key j' → i = i') → NoDup (open_keys js).
Proof.
  induction js as [|j js IH]; intros Hinj; [by apply NoDup_nil_2|]. unfold open_keys. rewrite filter_cons.
  assert (NoDup (open_keys js)) as Hnd.
  { apply IH. intros i i' x x' Hx Hx' Hu Hu' Hk. by specialize (Hinj (S i) (S i') x x' Hx Hx' Hu Hu' Hk) as [= ->]. }
  case_decide as Hu; [|done]. cbn. apply NoDup_cons. split; [|done].
  intros (i & x & Hx & Hux & Hk)%open_keys_elem. by specialize (Hinj 0%nat (S i) j x eq_refl Hx Hu Hux Hk).
Qed.

Lemma unsettled_bound es s : claimed [] s → clients es s →
  Z.of_nat (sum_list_with unsettled (jobs s)) ≤ MAX_PENDING_ETAG_HASHES.
Proof.
  intros Hcm Hcl. rewrite <- open_keys_length.
  assert (∀ id j, jobs s !! id = Some j → unsettled j ≠ 0%nat → map_get (pendingEtagCache s) (job_key j) = Some id) as Hget.
  { intros id j Hj Hu. by destruct (Hcm id j Hj Hu) as [H%not_elem_of_nil|H]. }
  assert (NoDup (open_keys (jobs s))) as Hnd.
  { apply open_keys_NoDup. intros i i' j j' Hj Hj' Hu Hu' Hk. pose proof (Hget i j Hj Hu) as H.
    rewrite Hk, (Hget i' j' Hj' Hu') in H. by injection H. }
  assert (open_keys (jobs s) ⊆ (pendingEtagCache s).*1) as Hsub.
  { intros k (id & j & Hj & Hu & ->)%open_keys_elem.
    destruct (decide (job_key j ∈ (pendingEtagCache s).*1)) as [|Hni]; [done|].
    apply map_get_None in Hni. by rewrite (Hget id j Hj Hu) in Hni. }
  pose proof (submseteq_length _ _ (NoDup_submseteq _ _ Hnd Hsub)) as Hlen. rewrite length_fmap in Hlen.
  pose proof (cl_limit _ _ Hcl) as Hlim. unfold map_size in Hlim. lia.
Qed.

(** ** Progress *)

(** The events that end a stream or resume a caller whose computation is settled. *)
Definition enabled (s : State) (e : Event) : bool :=
  match e with
  | StreamError id _ | End id => match j_phase <$> jobs s !! id with Some Hashing => true | _ => false end
  | Resume c =>
      match callers s !! c with
      | Some (mkCaller _ _ (Awaiting id _)) =>
          match j_phase <$> jobs s !! id with Some (Settled _) => true | _ => false end
      | _ => false
      end
  | _ => false
  end.

Fixpoint progresses (s : State) (es : list Event) : Prop :=
  match es with [] => True | e :: es => enabled s e = true ∧ progresses (step sha1 refused s e) es end.

Definition outstanding (s : State) : nat := sum_list_with unsettled (jobs s) + sum_list_with waiting (callers s).

Lemma progress_decreases es s e : inv es s → enabled s e = true →
  (outstanding (step sha1 refused s e) < outstanding s)%nat.
Proof.
  intros [Hc _ Hcl] He. unfold outstanding. destruct e as [| | |id err|id|c]; try done; cbn [enabled step] in *.
  - unfold on_error. destruct (jobs s !! id) as [[p st r []]|] eqn:Hj; try done.
    destruct (settle_keeps s id (Failed err) _ Hc Hj) as (_ & _ & -> & Hlt); [done..|]. lia.
  - unfold on_end. destruct (jobs s !! id) as [[p st r []]|] eqn:Hj; try done.
    destruct (settle_keeps s id (Hashed (tag r)) _ Hc Hj) as (_ & _ & -> & Hlt); [done|by intros ? [= <-]|]. lia.
  - unfold resume. destruct (callers s !! c) as [[path stat [id started|a]]|] eqn:Hcc; try done.
    destruct (j_phase <$> jobs s !! id) as [[| |o]|]; try done.
    set (s1 := if started then _ else _). assert (jobs s1 = jobs s ∧ callers s1 = callers s) as [Hjo Hca].
    { subst s1. destruct started; [|done]. unfold after_await. by destruct o; cbn; case_bool_decide. }
    cbn. rewrite Hjo, Hca. rewrite list_insert_alter.
    pose proof (weight_alter waiting (λ _, mkCaller path stat (Answered (answer_of o))) _ _ _ Hcc) as Hw. cbn in Hw. lia.
Qed.

Lemma progresses_length es s es' : inv es s → progresses s es' →
  (length es' + outstanding (run sha1 refused es' s) ≤ outstanding s)%nat.
Proof.
  revert es s. induction es' as [|e es' IH]; intros es s Hi Hp; [done|]. destruct Hp as [He Hp].
  change (run sha1 refused (e :: es') s) with (run sha1 refused es' (step sha1 refused s e)). cbn [length].
  pose proof (progress_decreases _ _ _ Hi He) as Hlt.
  assert (inv (es ++ [e]) (step sha1 refused s e)) as Hi' by (apply step_ok; [by apply inv_more|set_solver]).
  specialize (IH _ _ Hi' Hp). lia.
Qed.

(** What is left when no stream is open and no caller can go on. *)
Lemma idle es s : inv es s → (∀ e, enabled s e = false) →
  activeEtagHashes s = 0 ∧ etagHashQueue s = [] ∧ pendingEtagCache s = []
  ∧ ∀ c x, callers s !! c = Some x → ∃ a, c_progress x = Answered a.
Proof.
  intros [Hc Hb Hcl] Hidle.
  assert (∀ id j, jobs s !! id = Some j → j_phase j ≠ Hashing) as Hnone.
  { intros id j Hj Hph. specialize (Hidle (End id)). cbn in Hidle. rewrite Hj in Hidle. cbn in Hidle. by rewrite Hph in Hidle. }
  assert (activeEtagHashes s = 0) as Ha.
  { rewrite (core_active _ _ Hc). clear -Hnone. induction (jobs s) as [|j l IH]; [done|]. cbn [sum_list_with].
    pose proof (Hnone 0%nat j eq_refl) as Hj. unfold running at 1.
    specialize (IH (λ id x Hx, Hnone (S id) x Hx)). destruct (j_phase j); [lia|done|lia]. }
  assert (etagHashQueue s = []) as Hq by (destruct Hb as [|Hb]; [done|rewrite Ha in Hb; done]).
  assert (∀ id j, jobs s !! id = Some j → ∃ o, j_phase j = Settled o) as Hset.
  { intros id j Hj. destruct (j_phase j) as [| |o] eqn:Hph; [|by destruct (Hnone id j Hj)|by exists o].
    assert (id ∈ [] ++ etagHashQueue s) as Hin by (apply (core_queued _ _ Hc); rewrite Hj; cbn; by rewrite Hph).
    rewrite Hq in Hin. by apply not_elem_of_nil in Hin. }
  assert (∀ c path stat id st, callers s !! c ≠ Some (mkCaller path stat (Awaiting id st))) as Hall.
  { intros c path stat id st Hcc. destruct (cl_awaits _ _ Hcl _ _ _ _ _ Hcc) as (j & Hj & _).
    destruct (Hset id j Hj) as [o Ho]. specialize (Hidle (Resume c)). cbn in Hidle. rewrite Hcc, Hj in Hidle.
    cbn in Hidle. by rewrite Ho in Hidle. }
  split_and!; [done|done| |].
  - destruct (pendingEtagCache s) as [|[k id] m] eqn:Hp; [done|].
    destruct (cl_owner _ _ Hcl k id) as (c & path & stat & Hcc & _); [rewrite Hp; cbn; by rewrite String.eqb_refl|].
    by destruct (Hall _ _ _ _ _ Hcc).
  - intros c [path stat [id st|a]] Hx; [by destruct (Hall _ _ _ _ _ Hx)|by exists a].
Qed.

(** ** Keys *)

Definition stat_ok (st : Stat) : Prop := num_ok (size st) = true ∧ num_ok (mtimeMs st) = true.

Definition event_ok (e : Event) : Prop :=
  match e with Call _ st | CallSync _ st _ => stat_ok st | _ => True end.

Lemma colon_cut a a' b b' : no_char ":" b = true → no_char ":" b' = true →
  a +:+ String ":" b = a' +:+ String ":" b' → a = a' ∧ b = b'.
Proof.
  intros Hb Hb'. revert a'. induction a as [|x a IH]; intros [|x' a'] H; cbn in H.
  - by injection H as ->.
  - injection H as _ H. apply (f_equal (count_char ":")) in H. rewrite count_char_append in H.
    rewrite (count_char_absent _ b) in H by done. cbn in H. lia.
  - injection H as _ H. apply (f_equal (count_char ":")) in H. rewrite count_char_append in H.
    rewrite (count_char_absent _ b') in H by done. cbn in H. lia.
  - injection H as -> H. by destruct (IH a' H) as [-> ->].
Qed.

Lemma num_text_colon n : num_ok n = true → no_char ":" (num_text n) = true.
Proof.
  intros H. apply num_text_numeric in H. unfold no_char. eapply all_chars_impl; [|exact H].
  intros c Hc. apply negb_true_iff, Ascii.eqb_neq. intros ->. by vm_compute in Hc.
Qed.

Lemma key_inj path path' st st' : stat_ok st → stat_ok st' → key path st = key path' st' → path = path' ∧ st = st'.
Proof.
  destruct st as [n m], st' as [n' m']. intros [Hn Hm] [Hn' Hm'] H. unfold etagCacheKey in H. cbn in *.
  rewrite <- !(append_cons _ ":" (_ +:+ _)), <- !(append_assoc _ _ (String ":" _)) in H.
  apply colon_cut in H as [H Hnum]; [|by apply num_text_colon..].
  rewrite !append_cons in H. apply colon_cut in H as [-> H]; [|by apply num_text_colon..].
  split; [done|]. f_equal; by apply num_text_inj.
Qed.

(** ** The theorems *)

(** The bounds of the hash admission, after any events in any order: the counter is the number
    of open streams and never above four; at most 64 computations are pending, and at most 64 jobs
    run or wait; the map has at most 4,096 digests; the queue holds exactly the jobs that wait, each
    once, and is empty unless all four places are taken. *)
Theorem hashes_admitted es :
  let s := run sha1 refused es init in
  activeEtagHashes s = Z.of_nat (sum_list_with running (jobs s)) ∧ 0 ≤ activeEtagHashes s ≤ 4
  ∧ map_size (pendingEtagCache s) ≤ 64 ∧ Z.of_nat (sum_list_with unsettled (jobs s)) ≤ 64
  ∧ map_size (etagCache s) ≤ 4096
  ∧ NoDup (etagHashQueue s) ∧ (∀ id, id ∈ etagHashQueue s ↔ j_phase <$> jobs s !! id = Some Queued)
  ∧ (etagHashQueue s ≠ [] → activeEtagHashes s = 4).
Proof.
  intros s. destruct (run_ok es) as [Hc Hb Hcl]. fold s in Hc, Hb, Hcl.
  pose proof (core_limit _ _ Hc) as Hlim. pose proof (core_active _ _ Hc) as Ha.
  split_and!; [done|rewrite Ha; lia|exact Hlim|apply Hcl| | |apply (core_nodup _ _ Hc)|apply (core_queued _ _ Hc)|].
  - exact (unsettled_bound es s (run_claimed es) Hcl).
  - destruct (cl_cache _ _ Hcl) as [_ Hlen]. pose proof capacity_Z as Hcap. unfold map_size, MAX_MEMOIZED_ETAGS in *. lia.
  - intros Hne. by destruct Hb.
Qed.

(** C36. The tag a caller is given for a path, a size and a modification time is the digest of bytes
    that were read for that very path, size and time: by a synchronous call, or by a stream that
    ended, opened for a call with the same arguments.  Colons in paths confuse no two files. *)
Theorem served_tag_describes_file es c path stat etag :
  Forall event_ok es →
  callers (run sha1 refused es init) !! c = Some (mkCaller path stat (Answered (Served (Some etag)))) →
  (∃ bytes, CallSync path stat (Returns bytes) ∈ es ∧ etag = tag bytes)
  ∨ (∃ id read, jobs (run sha1 refused es init) !! id = Some (mkJob path stat read (Settled (Hashed etag)))
       ∧ Call path stat ∈ es ∧ etag = tag read).
Proof.
  intros Hes Hc. destruct (run_ok es) as [Hco _ Hcl]. pose proof (proj1 (Forall_forall _ _) Hes) as Hok.
  assert (stat_ok stat) as Hst by (destruct (cl_calls _ _ Hcl _ _ _ _ Hc) as [H|[? H]]; exact (Hok _ H)).
  destruct (cl_answers _ _ Hcl _ _ _ _ Hc) as [(p & st & bytes & Hin & Hk & He)|(id & j & Hj & Hk & Hph)].
  - apply key_inj in Hk as [-> ->]; [|done|exact (Hok _ Hin)]. left. by exists bytes.
  - pose proof (cl_jobs _ _ Hcl _ _ Hj) as Hin. pose proof (core_done _ _ Hco _ _ _ Hj Hph) as He.
    unfold job_key in Hk. apply key_inj in Hk as [-> ->]; [|done|exact (Hok _ Hin)].
    right. exists id, (j_read j). split_and!; [by destruct j; cbn in *; subst|done|done].
Qed.

(** C37. Every caller is answered.  However the streams that are open end, with an error or not, and
    in whatever order callers resume, at most 64 jobs and the waiting callers' number of such events
    are possible; and when none is, every caller has its answer, no computation is pending, nothing
    is queued and no place is taken. *)
Theorem every_caller_answered es es' :
  let s := run sha1 refused es init in
  progresses s es' →
  Z.of_nat (length es') ≤ 64 + Z.of_nat (sum_list_with waiting (callers s))
  ∧ ((∀ e, enabled (run sha1 refused es' s) e = false) →
     let s' := run sha1 refused es' s in
     activeEtagHashes s' = 0 ∧ etagHashQueue s' = [] ∧ pendingEtagCache s' = []
     ∧ ∀ c x, callers s' !! c = Some x → ∃ a, c_progress x = Answered a).
Proof.
  intros s Hp. pose proof (run_ok es) as Hi. fold s in Hi. split.
  - pose proof (progresses_length es s es' Hi Hp) as Hlen. unfold outstanding in Hlen.
    pose proof (unsettled_bound es s (run_claimed es) (inv_clients _ _ Hi)) as Hu.
    unfold MAX_PENDING_ETAG_HASHES in Hu. lia.
  - intros Hidle. apply (idle (es ++ es')); [|done]. unfold s, run. rewrite <- foldl_app. apply run_ok.
Qed.

End Facts.

(** A hash that spells its bytes, and a path no stream can be opened for. *)
Definition spell (bytes : list Z) : string := foldr (λ b s, String (ascii_of_nat (Z.to_nat b)) s) "" bytes.
Definition nul_refused (path : string) : option string := if String.eqb path "bad" then Some "EINVAL" else None.

Definition logo : Event := Call "/logo.svg" (mkStat (NInt 2) (NInt 7)).
Definition icon : Event := Call "/icon.svg" (mkStat (NInt 2) (NInt 7)).
Definition asked : list Event := [logo; logo; Call "bad" (mkStat (NInt 1) (NInt 1)); icon; Data 0 [65; 66]].

Lemma served_tag_describes_file_witness :
  let es := asked ++ [End 0; Resume 1] in
  callers (run spell nul_refused es init) !! 1%nat
    = Some (mkCaller "/logo.svg" (mkStat (NInt 2) (NInt 7)) (Answered (Served (Some (quoted "AB")))))
  ∧ ((∃ bytes, CallSync "/logo.svg" (mkStat (NInt 2) (NInt 7)) (Returns bytes) ∈ es
       ∧ quoted "AB" = staticAssetEtag spell bytes)
     ∨ (∃ id read, jobs (run spell nul_refused es init) !! id
            = Some (mkJob "/logo.svg" (mkStat (NInt 2) (NInt 7)) read (Settled (Hashed (quoted "AB"))))
          ∧ Call "/logo.svg" (mkStat (NInt 2) (NInt 7)) ∈ es ∧ quoted "AB" = staticAssetEtag spell read)).
Proof.
  split; [by vm_compute|]. apply (served_tag_describes_file spell nul_refused _ 1 "/logo.svg"); [|by vm_compute].
  by repeat constructor.
Defined.

Lemma every_caller_answered_witness :
  let s := run spell nul_refused asked init in
  let es' := [StreamError 2 "EIO"; Resume 3; End 0; Resume 0; Resume 1; Resume 2] in
  progresses spell nul_refused s es' ∧ (Z.of_nat (length es') ≤ 64 + Z.of_nat (sum_list_with waiting (callers s)))
  ∧ ∀ e, enabled (run spell nul_refused es' s) e = false.
Proof.
  assert (progresses spell nul_refused (run spell nul_refused asked init)
    [StreamError 2 "EIO"; Resume 3; End 0; Resume 0; Resume 1; Resume 2]) as Hp by (vm_compute; by split_and!).
  split_and!; [done|exact (proj1 (every_caller_answered spell nul_refused _ _ Hp))|].
  intros [| | |[|[|[|id]]] ?|[|[|[|id]]]|[|[|[|[|c]]]]]; by vm_compute.
Defined.

End EtagHashFacts.
