(* ===== verification/Effects.v ===== *)
(** * Code with effects

    A computation takes the state of its surroundings and returns or throws, with the state it
    leaves.  The surroundings run commands (src/src/cli/exec.ts): a command's answer and its effect
    are those of an instance of [Exec], because kubectl, gcloud and the cluster are not part of the
    program. *)
From Stdlib Require Import String.
From S2P Require Import Prelude JsString Json.
Local Open Scope stdpp_scope.

Definition io (W E A : Type) : Type := W → outcome E A * W.

Section Io.
Context {W E : Type}.

Definition ret {A} (a : A) : io W E A := λ w, (Returns a, w).
Definition throw {A} (e : E) : io W E A := λ w, (Throws e, w).

Definition ibind {A B} (m : io W E A) (f : A → io W E B) : io W E B := λ w,
  match m w with
  | (Returns a, w') => f a w'
  | (Throws e, w') => (Throws e, w')
  end.

(** try { m } catch (e) { h(e) } *)
Definition catch {E' A} (m : io W E' A) (h : E' → io W E A) : io W E A := λ w,
  match m w with
  | (Returns a, w') => (Returns a, w')
  | (Throws e, w') => h e w'
  end.

(** A pure function that can throw. *)
Definition lift {A} (m : outcome E A) : io W E A := λ w, (m, w).

Lemma ibind_Returns {A B} (m : io W E A) (f : A → io W E B) w b w' :
  ibind m f w = (Returns b, w') ↔ ∃ a w1, m w = (Returns a, w1) ∧ f a w1 = (Returns b, w').
Proof. unfold ibind. destruct (m w) as [[] w1]; naive_solver. Qed.

Lemma ibind_Throws {A B} (m : io W E A) (f : A → io W E B) w e w' :
  ibind m f w = (Throws e, w')
  ↔ m w = (Throws e, w') ∨ ∃ a w1, m w = (Returns a, w1) ∧ f a w1 = (Throws e, w').
Proof. unfold ibind. destruct (m w) as [[] w1]; naive_solver. Qed.

Lemma ibind_ext {A B} (m : io W E A) (f g : A → io W E B) w :
  (∀ a w1, m w = (Returns a, w1) → f a w1 = g a w1) → ibind m f w = ibind m g w.
Proof. intros H. unfold ibind. destruct (m w) as [[] w1]; auto. Qed.
End Io.

Notation "'do!' x ':=' m 'in' k" := (ibind m (fun x => k))
  (at level 10, x pattern, m at level 100, k at level 200) : js_scope.

(** One step back through a computation that returned. *)
Ltac run_step :=
  match goal with
  | H : throw _ _ = (Returns _, _) |- _ => discriminate H
  | H : ret _ _ = (Returns _, _) |- _ => first [discriminate H | injection H as ? ?; subst]
  | H : lift _ _ = (Returns _, _) |- _ => injection H as H ?; subst
  | H : ibind _ _ _ = (Returns _, _) |- _ => apply ibind_Returns in H as (? & ? & ? & H)
  | H : (match ?x with _ => _ end) _ = (Returns _, _) |- _ => destruct x eqn:?
  end.
Ltac run_back := repeat run_step.

(** ** Hoare triples *)

(** From a state where P holds, a return leaves Q and a throw leaves X. *)
Definition triple {W E A} (P : W → Prop) (m : io W E A) (Q : A → W → Prop) (X : E → W → Prop) : Prop :=
  ∀ w, P w → match m w with (Returns a, w') => Q a w' | (Throws e, w') => X e w' end.

Section Triples.
Context {W E : Type}.
Implicit Types (P : W → Prop) (X : E → W → Prop).

Lemma triple_ret {A} P (a : A) (Q : A → W → Prop) X : (∀ w, P w → Q a w) → triple P (ret a) Q X.
Proof. intros H w Hw. by apply H. Qed.

Lemma triple_throw {A} P e (Q : A → W → Prop) X : (∀ w, P w → X e w) → triple P (throw e) Q X.
Proof. intros H w Hw. by apply H. Qed.

Lemma triple_bind {A B} P (m : io W E A) (f : A → io W E B) R Q X :
  triple P m R X → (∀ a, triple (R a) (f a) Q X) → triple P (ibind m f) Q X.
Proof.
  intros Hm Hf w Hw. unfold ibind. specialize (Hm w Hw). destruct (m w) as [[a|e] w1]; [|done].
  by apply Hf.
Qed.

Lemma triple_catch {E' A} P (m : io W E' A) (h : E' → io W E A) Q R X :
  triple P m Q R → (∀ e, triple (R e) (h e) Q X) → triple P (catch m h) Q X.
Proof.
  intros Hm Hh w Hw. unfold catch. specialize (Hm w Hw). destruct (m w) as [[a|e] w1]; [done|].
  by apply Hh.
Qed.

Lemma triple_lift {A} P (m : outcome E A) (Q : A → W → Prop) X :
  (∀ a, m = Returns a → ∀ w, P w → Q a w) → (∀ e, m = Throws e → ∀ w, P w → X e w) →
  triple P (lift m) Q X.
Proof. intros HQ HX w Hw. unfold lift. destruct m; eauto. Qed.

Lemma triple_weaken {A} P P' (m : io W E A) (Q Q' : A → W → Prop) X X' :
  triple P' m Q' X' → (∀ w, P w → P' w) → (∀ a w, Q' a w → Q a w) → (∀ e w, X' e w → X e w) →
  triple P m Q X.
Proof.
  intros Hm HP HQ HX w Hw. specialize (Hm w (HP w Hw)). destruct (m w) as [[a|e] w1]; auto.
Qed.

Lemma triple_pure {A} P (φ : Prop) (m : io W E A) Q X :
  (φ → triple P m Q X) → triple (λ w, φ ∧ P w) m Q X.
Proof. intros H w [Hφ Hw]. by apply H. Qed.

Lemma triple_run {A} P (m : io W E A) Q X w r w' :
  triple P m Q X → P w → m w = (r, w') →
  match r with Returns a => Q a w' | Throws e => X e w' end.
Proof. intros Hm Hw Hr. specialize (Hm w Hw). rewrite Hr in Hm. by destruct r. Qed.
End Triples.

(** ** Invariants *)

(** I holds after the computation, however it ends, when it holds before. *)
Definition invariant {W E A} (I : W → Prop) (m : io W E A) : Prop := triple I m (λ _, I) (λ _, I).

Section Invariants.
Context {W : Type} (I : W → Prop).

Lemma invariant_ret {E A} (a : A) : invariant (E := E) I (ret a).
Proof. by apply triple_ret. Qed.

Lemma invariant_throw {E A} (e : E) : invariant (A := A) I (throw e).
Proof. by apply triple_throw. Qed.

Lemma invariant_lift {E A} (m : outcome E A) : invariant I (lift m).
Proof. by apply triple_lift. Qed.

Lemma invariant_bind {E A B} (m : io W E A) (f : A → io W E B) :
  invariant I m → (∀ a, invariant I (f a)) → invariant I (ibind m f).
Proof. intros Hm Hf. by eapply triple_bind; [exact Hm|]. Qed.

Lemma invariant_lift_bind {E A B} (m : outcome E A) (f : A → io W E B) :
  (∀ a, m = Returns a → invariant I (f a)) → invariant I (ibind (lift m) f).
Proof. intros Hf w Hw. unfold ibind, lift. destruct m; [by apply Hf|done]. Qed.

Lemma invariant_catch {E E' A} (m : io W E' A) (h : E' → io W E A) :
  invariant I m → (∀ e, invariant I (h e)) → invariant I (catch m h).
Proof. intros Hm Hh. by eapply triple_catch; [exact Hm|]. Qed.

Lemma invariant_if {E A} (b : bool) (m n : io W E A) :
  (b = true → invariant I m) → (b = false → invariant I n) → invariant I (if b then m else n).
Proof. destruct b; auto. Qed.

(** What a command guarantees besides the invariant is known to its continuation. *)
Lemma invariant_after {E A B} (m : io W E A) (f : A → io W E B) (φ : A → Prop) :
  (∀ w r w', I w → m w = (r, w') → I w' ∧ (∀ a, r = Returns a → φ a)) →
  (∀ a, φ a → invariant I (f a)) → invariant I (ibind m f).
Proof.
  intros Hm Hf w Hw. unfold ibind. destruct (m w) as [[a|e] w1] eqn:Hr;
    destruct (Hm w _ _ Hw Hr) as [Hw1 Hφ]; [|done]. by apply Hf; [apply Hφ|].
Qed.

Lemma invariant_run {E A} (m : io W E A) w r w' : invariant I m → I w → m w = (r, w') → I w'.
Proof. intros Hm Hw Hr. specialize (Hm w Hw). rewrite Hr in Hm. by destruct r. Qed.
End Invariants.

#[export] Hint Resolve invariant_ret invariant_throw invariant_lift invariant_bind invariant_catch : adapter.

(** ** Commands *)

Record ExecCaptureResult := mkResult {
  exitCode : Z; stdout : string; stderr : string; timedOut : bool
}.

(** A command that cannot be spawned rejects with a message. *)
Class Exec (W : Type) := {
  execCapture : string → list string → io W string ExecCaptureResult;
  execCaptureStdin : string → list string → string → io W string ExecCaptureResult
}.

(** A command whose failure throws. *)
Definition execOrThrow {W} `{!Exec W} (command : string) (args : list string) : io W string unit :=
  ibind (execCapture command args) (λ result,
    if negb (exitCode result =? 0)%Z then throw "Command failed" else ret tt).

(** value?.key: undefined for a missing key and for anything but an object. *)
Definition jget (v : option json) (key : string) : option json :=
  match v with Some (JObj fs) => prop fs key | _ => None end.
