(* ===== verification/DeployState.v ===== *)
(** * The committed deploy state (src/src/cli/state.ts)

    The two stores of the deploy state, the reconciliation of their copies, and the commit with its
    generation and resourceVersion checks.  A state is the JSON object the program passes around.
    Errors keep their class and the flags the code branches on; their messages are left out.  A
    generation is a safe integer or not a finite number: fractional generations, which no write
    produces, are read as absent. *)
From Stdlib Require Import String.
From S2P Require Import Prelude JsString Regex Json JsonParse K8sNames Effects.
Import K8sNames.
Local Open Scope stdpp_scope.
Local Open Scope js_scope.

Module DeployState.

Definition CONFIGMAP_NAME_SUFFIX : string := "-adapter-state".
Definition DIGEST_RE : string := "^sha256:[a-f0-9]{64}$".

Abbreviation AdapterState := obj.

(** The error classes; [ClusterStateWriteError] carries its concurrent flag. *)
Inductive state_error :=
| LocalStateReadError
| ClusterStateReadError
| StateDisagreementError
| ClusterStateWriteError (concurrent : bool)
| UsageError
| DiskError.

(** error instanceof StateUnavailableError *)
Definition is_unavailable (e : state_error) : bool :=
  match e with
  | LocalStateReadError | ClusterStateReadError | StateDisagreementError => true
  | _ => false
  end.

(** ** The shape of a state *)

Definition digest_entry (f : string * json) : bool :=
  re_test BUILD_ID_RE f.1
  && match f.2 with JStr digest => re_test DIGEST_RE digest | _ => false end.

Definition isAdapterState (value : json) : bool :=
  match value with
  | JObj v =>
      match prop v "buildId" with
      | Some (JStr b) => negb (String.eqb b "")
      | _ => false
      end
      && match prop v "previousBuildId" with
         | Some JNull | Some (JStr _) => true
         | _ => false
         end
      && match prop v "routingImageDigests" with
         | None => true
         | Some (JObj ds) => forallb digest_entry ds
         | Some _ => false
         end
  | _ => false
  end.

Definition text_of (v : option json) : option string :=
  match v with Some (JStr s) => Some s | _ => None end.

Definition buildId_of (state : AdapterState) : option string := text_of (prop state "buildId").
Definition previous_of (state : AdapterState) : option string := text_of (prop state "previousBuildId").

(** typeof v === "number" && Number.isFinite(v) *)
Definition finite_number (v : option json) : option Z :=
  match v with Some (JNum (NInt n)) => Some n | _ => None end.

Definition generationOf (state : AdapterState) : Z :=
  default 0%Z (finite_number (prop state "generation")).

(** ** The local file *)

Inductive file := Absent | Unreadable | Holds (text : string).

(** The state file, its temporary file, and whether the directory can be written. *)
Record disk := mkDisk { target : file; temporary : file; writable : bool }.

Definition readLocalState (d : disk) : outcome state_error (option AdapterState) :=
  match target d with
  | Absent => Returns None
  | Unreadable => Throws LocalStateReadError
  | Holds raw =>
      match json_parse raw with
      | None => Throws LocalStateReadError
      | Some parsed =>
          if negb (isAdapterState parsed) then Throws LocalStateReadError
          else match parsed with JObj state => Returns (Some state) | _ => Throws LocalStateReadError end
      end
  end.

Definition readLocalStateQuiet (d : disk) : option AdapterState :=
  match readLocalState d with Returns s => s | Throws _ => None end.

(** Writing the temporary file and renaming it over the target. *)
Definition write_local (text : string) (d : disk) : outcome state_error unit * disk :=
  if negb (writable d) then (Throws DiskError, d)
  else
    let d := mkDisk (target d) (Holds text) (writable d) in
    (Returns tt, mkDisk (temporary d) Absent (writable d)).

(** ** Reconciliation *)

(** local.previousBuildId && local.previousBuildId === cluster.buildId *)
Definition follows (later earlier : AdapterState) : bool :=
  match previous_of later with
  | Some p => negb (String.eqb p "") && bool_decide (Some p = buildId_of earlier)
  | None => false
  end.

Definition chooseNewerState (local cluster : AdapterState) : outcome state_error AdapterState :=
  let localGen := generationOf local in
  let clusterGen := generationOf cluster in
  if (localGen <? clusterGen)%Z then Returns cluster
  else if (clusterGen <? localGen)%Z then Returns local
  else if bool_decide (buildId_of local = buildId_of cluster)
          && bool_decide (previous_of local = previous_of cluster)
  then Returns cluster
  else if follows local cluster then Returns local
  else if follows cluster local then Returns cluster
  else Throws StateDisagreementError.

(** ** The ConfigMap *)

Definition configMapName (releaseName : string) : string := releaseName +:+ CONFIGMAP_NAME_SUFFIX.

Definition STATE_GET_ARGS (cmName namespace : string) : list string :=
  ["get"; "configmap"; cmName; "-n"; namespace; "--ignore-not-found"; "-o"; "json"].

(** What a ConfigMap document holds: a state or none, its resourceVersion, and whether it is broken. *)
Record parsed_map := mkParsed {
  p_state : option AdapterState; p_version : option string; p_error : bool
}.

Definition parseStateConfigMap (out : string) : parsed_map :=
  let raw := trim out in
  if is_empty raw then mkParsed None None false
  else
    match json_parse raw with
    | None => mkParsed None None true
    | Some v =>
        let resourceVersion := text_of (jget (jget (Some v) "metadata") "resourceVersion") in
        match jget (jget (Some v) "data") "state.json" with
        | Some (JStr body) =>
            if is_empty (trim body) then mkParsed None resourceVersion true
            else
              match json_parse body with
              | Some (JObj state) =>
                  if isAdapterState (JObj state) then mkParsed (Some state) resourceVersion false
                  else mkParsed None resourceVersion true
              | _ => mkParsed None resourceVersion true
              end
        | _ => mkParsed None resourceVersion true
        end
    end.

(** The machine: the local disk and the cluster commands reach. *)
Record host (C : Type) := mkHost { local : disk; cluster : C }.
Arguments mkHost {C} local cluster.
Arguments local {C} h.
Arguments cluster {C} h.

Section Store.
Context {C : Type} `{!Exec C}.

Abbreviation state_io := (io (host C) state_error).

(** A command run against the cluster. *)
Definition remote {A} (m : io C string A) : io (host C) string A := λ w,
  let '(r, c) := m (cluster w) in (r, mkHost (local w) c).

Definition on_disk {A} (f : disk → outcome state_error A * disk) : state_io A := λ w,
  let '(r, d) := f (local w) in (r, mkHost d (cluster w)).

(** resolveK8sNamespace throws a plain Error. *)
Definition namespace_of (namespace : option string) : outcome state_error string :=
  match resolveK8sNamespace (option_map JStr namespace) with
  | Returns (JStr ns) => Returns ns
  | _ => Throws UsageError
  end.

Definition get_state_map (releaseName namespace : string) : io (host C) string ExecCaptureResult :=
  remote (execCapture "kubectl" (STATE_GET_ARGS (configMapName releaseName) namespace)).

Definition readClusterState (releaseName namespace : string) : state_io parsed_map :=
  do! result := catch (get_state_map releaseName namespace) (λ _, throw ClusterStateReadError) in
  if negb (exitCode result =? 0)%Z then throw ClusterStateReadError
  else
    let parsed := parseStateConfigMap (stdout result) in
    if p_error parsed then throw ClusterStateReadError else ret parsed.

(** !releaseName *)
Definition no_release (releaseName : option string) : bool :=
  match releaseName with Some r => String.eqb r "" | None => true end.

Definition readState (releaseName : option string) (localOnly clusterOnly : bool)
    (namespace : option string) : state_io (option AdapterState) :=
  if clusterOnly then
    if localOnly then throw UsageError
    else if no_release releaseName then throw UsageError
    else
      do! ns := lift (namespace_of namespace) in
      do! parsed := readClusterState (default "" releaseName) ns in
      ret (p_state parsed)
  else
    do! mine := on_disk (λ d, (readLocalState d, d)) in
    if no_release releaseName || localOnly then ret mine
    else
      do! ns := lift (namespace_of namespace) in
      do! parsed := readClusterState (default "" releaseName) ns in
      match p_state parsed, mine with
      | None, _ => ret mine
      | Some theirs, None => ret (Some theirs)
      | Some theirs, Some mine => do! s := lift (chooseNewerState mine theirs) in ret (Some s)
      end.

Definition readClusterStateForWrite (releaseName namespace : string)
    : state_io (Z * option string) :=
  do! result := catch (get_state_map releaseName namespace) (λ _, throw (ClusterStateWriteError false)) in
  if negb (exitCode result =? 0)%Z then throw (ClusterStateWriteError false)
  else
    let parsed := parseStateConfigMap (stdout result) in
    ret (match p_state parsed with Some s => generationOf s | None => 0%Z end, p_version parsed).

Definition currentResourceVersion (releaseName namespace : string) : io (host C) string (option string) :=
  do! result := get_state_map releaseName namespace in
  if negb (exitCode result =? 0)%Z then ret None
  else ret (p_version (parseStateConfigMap (stdout result))).

(** resourceVersion ? a : b *)
Definition truthy_version (resourceVersion : option string) : option string :=
  match resourceVersion with Some v => if String.eqb v "" then None else Some v | None => None end.

Definition state_map (releaseName : string) (state : AdapterState) (resourceVersion : option string) : json :=
  JObj [("apiVersion", JStr "v1"); ("kind", JStr "ConfigMap");
        ("metadata", JObj ([("name", JStr (configMapName releaseName));
           ("labels", JObj [("app.kubernetes.io/name", JStr releaseName);
                            ("app.kubernetes.io/managed-by", JStr "adapter-k8s")])]
           ++ match truthy_version resourceVersion with
              | Some v => [("resourceVersion", JStr v)]
              | None => []
              end));
        ("data", JObj [("state.json", JStr (stringify (JObj state)))])].

Definition write_args (resourceVersion : option string) (namespace : string) : list string :=
  [match truthy_version resourceVersion with Some _ => "replace" | None => "create" end;
   "-n"; namespace; "-f"; "-"].

Definition writeClusterState (releaseName : string) (state : AdapterState)
    (resourceVersion : option string) (namespace : string) : state_io unit :=
  let body := stringify (state_map releaseName state resourceVersion) in
  do! result := catch (remote (execCaptureStdin "kubectl" (write_args resourceVersion namespace) body))
                      (λ _, throw (ClusterStateWriteError false)) in
  if (exitCode result =? 0)%Z then ret tt
  else
    do! observed := catch (currentResourceVersion releaseName namespace) (λ _, ret None) in
    throw (ClusterStateWriteError
      (match observed with
       | Some v => negb (bool_decide (Some v = resourceVersion))
       | None => false
       end)).

(** ** The commit *)

Definition stamp (body : obj) (generation : Z) (updatedAt : string) : AdapterState :=
  set_prop (set_prop body "generation" (JNum (NInt generation))) "updatedAt" (JStr updatedAt).

(** The generation a write stamps: above the local copy, the cluster's and the one it started from. *)
Definition next_generation (localExisting : option AdapterState) (clusterGeneration : Z)
    (basedOnGeneration : option json) : Z :=
  (Z.max (match localExisting with Some s => generationOf s | None => 0 end)
     (Z.max clusterGeneration (default 0 (finite_number basedOnGeneration))) + 1)%Z.

(** The generation and resourceVersion of the object about to be overwritten, or the read error. *)
Definition read_existing (releaseName : option string) (ns : string)
    : state_io (Z * option string * option state_error) :=
  if no_release releaseName then ret (0%Z, None, None)
  else
    catch (do! existing := readClusterStateForWrite (default "" releaseName) ns in
           ret (existing, None))
          (λ e, ret (0%Z, None, Some e)).

(** [basedOnGeneration] is [None] for null; [updatedAt] is the clock's text. *)
Definition writeState (updatedAt : string) (body : obj) (basedOnGeneration : option json)
    (releaseName configuredNamespace : option string) (clusterOnly : bool) : state_io unit :=
  do! ns := lift (namespace_of configuredNamespace) in
  if clusterOnly && no_release releaseName then throw UsageError
  else
    do! localExisting :=
      on_disk (λ d, (Returns (if clusterOnly then None else readLocalStateQuiet d), d)) in
    do! existing := read_existing releaseName ns in
    let '(clusterGeneration, resourceVersion, clusterReadError) := existing in
    let stale :=
      match finite_number basedOnGeneration with
      | Some based => (based <? clusterGeneration)%Z
      | None => false
      end in
    match clusterReadError with
    | Some e => if clusterOnly then throw e else
        let stamped := stamp body (next_generation localExisting clusterGeneration basedOnGeneration) updatedAt in
        do! _ := on_disk (write_local (stringify2 (JObj stamped))) in
        throw e
    | None =>
        if stale then throw (ClusterStateWriteError true)
        else
          let stamped := stamp body (next_generation localExisting clusterGeneration basedOnGeneration) updatedAt in
          do! _ := (if clusterOnly then ret tt else on_disk (write_local (stringify2 (JObj stamped)))) in
          if no_release releaseName then ret tt
          else writeClusterState (default "" releaseName) stamped resourceVersion ns
    end.
End Store.

End DeployState.
