(* ===== verification/DeployStateFacts.v ===== *)
(** * Correctness of the deploy state

    What the commit and the reads guarantee when other deploys and rollbacks run at the same time.
    The API server is an interface, [StateApi]: an object whose resourceVersion changes with every
    write, a get that answers with the object at some moment of the call, a replace that swaps one
    version for the next, a create that needs the object to be absent.  Nothing is assumed of a
    command that fails: it may or may not have had its effect. *)
From Stdlib Require Import String.
From S2P Require Import Prelude JsString Regex Json JsonParse K8sNames Effects DeployState.
Import K8sNames DeployState.
Local Open Scope stdpp_scope.
Local Open Scope js_scope.

Module DeployStateFacts.

(** The stored object: its resourceVersion and its state.json, if it has one. *)
Abbreviation state_object := (option (string * option string)).

(** The kubectl output that describes an object. *)
Definition describes (o : state_object) (out : string) : Prop :=
  match o with
  | None => trim out = ""
  | Some (v, d) =>
      trim out ≠ "" ∧ ∃ doc, json_parse (trim out) = Some doc
      ∧ jget (jget (Some doc) "metadata") "resourceVersion" = Some (JStr v)
      ∧ jget (jget (Some doc) "data") "state.json" = option_map JStr d
  end.

(** A request that names the object, and the version and the state it carries. *)
Definition requests (text cm : string) (version : option string) (body : string) : Prop :=
  ∃ doc, json_parse text = Some doc
  ∧ jget (jget (Some doc) "metadata") "name" = Some (JStr cm)
  ∧ jget (jget (Some doc) "metadata") "resourceVersion" = option_map JStr version
  ∧ jget (jget (Some doc) "data") "state.json" = Some (JStr body).

(** [b] comes directly after [a]: no other object is stored in between. *)
Definition adjacent {C} (stored : C → state_object) (later : relation C) (a b : C) : Prop :=
  later a b ∧ ∀ c, later a c → later c b → stored c = stored a ∨ stored c = stored b.

Class StateApi (C : Type) `{!Exec C} (cm ns : string) := {
  stored : C → state_object;
  later : relation C;
  later_order :: PreOrder later;
  version_names_object : ∀ c c' v d d',
    later c c' → stored c = Some (v, d) → stored c' = Some (v, d') → d = d';
  version_not_empty : ∀ c v d, stored c = Some (v, d) → v ≠ "";
  exec_later : ∀ cmd args c r c', execCapture cmd args c = (r, c') → later c c';
  exec_stdin_later : ∀ cmd args text c r c', execCaptureStdin cmd args text c = (r, c') → later c c';
  get_describes : ∀ c r c',
    execCapture "kubectl" (STATE_GET_ARGS cm ns) c = (Returns r, c') → exitCode r = 0%Z →
    ∃ c1, later c c1 ∧ later c1 c' ∧ describes (stored c1) (stdout r);
  replace_swaps : ∀ text v body c r c',
    execCaptureStdin "kubectl" ["replace"; "-n"; ns; "-f"; "-"] text c = (Returns r, c') →
    exitCode r = 0%Z → requests text cm (Some v) body →
    ∃ c1 c2 d v', later c c1 ∧ adjacent stored later c1 c2 ∧ later c2 c'
                  ∧ stored c1 = Some (v, d) ∧ stored c2 = Some (v', Some body);
  create_needs_absence : ∀ text body c r c',
    execCaptureStdin "kubectl" ["create"; "-n"; ns; "-f"; "-"] text c = (Returns r, c') →
    exitCode r = 0%Z → requests text cm None body →
    ∃ c1 c2 v', later c c1 ∧ adjacent stored later c1 c2 ∧ later c2 c'
                ∧ stored c1 = None ∧ stored c2 = Some (v', Some body)
}.

(** The state an object records, and its generation as the program reads it. *)
Definition state_in (o : state_object) : option AdapterState :=
  match o with
  | Some (_, Some body) =>
      if is_empty (trim body) then None
      else match json_parse body with
           | Some (JObj s) => if isAdapterState (JObj s) then Some s else None
           | _ => None
           end
  | _ => None
  end.

Definition generation_in (o : state_object) : Z :=
  match state_in o with Some s => generationOf s | None => 0%Z end.

Lemma is_empty_true s : is_empty s = true ↔ s = "".
Proof. destruct s; done. Qed.

Lemma parse_describes o out :
  describes o out →
  p_state (parseStateConfigMap out) = state_in o
  ∧ p_version (parseStateConfigMap out) = option_map fst o
  ∧ (p_error (parseStateConfigMap out) = false → o = None ∨ is_Some (state_in o)).
Proof.
  unfold parseStateConfigMap. destruct o as [[v d]|]; cbn [describes].
  - intros (Hne & doc & Hdoc & Hv & Hd). cbv zeta.
    destruct (is_empty (trim out)) eqn:He; [by apply is_empty_true in He|].
    rewrite Hdoc, Hv, Hd. destruct d as [body|]; [|done]. cbn [option_map state_in].
    destruct (is_empty (trim body)); [done|].
    destruct (json_parse body) as [[| | | | |s]|]; try done.
    destruct (isAdapterState (JObj s)); [|done]. split_and!; [done..|]. right. by eexists.
  - intros ->. split_and!; [done..|]. by left.
Qed.

(** ** What a write carries *)

Lemma state_map_requests r s v :
  requests (stringify (state_map r s v)) (configMapName r) (truthy_version v) (stringify (JObj s)).
Proof.
  exists (state_map r s v).
  split; [|unfold state_map; by destruct (truthy_version v)].
  apply parse_stringify; unfold state_map; destruct (truthy_version v);
    first [by apply wf_check_sound | reflexivity].
Qed.

Lemma finite_set fs k v k' : finite_number (prop (set_prop fs k v) k')
  = if String.eqb k k' then finite_number (Some v) else finite_number (prop fs k').
Proof. rewrite prop_set_prop. by destruct (String.eqb k k'). Qed.

Lemma generation_stamp body g now : generationOf (stamp body g now) = g.
Proof. unfold generationOf, stamp. by rewrite !finite_set. Qed.

Lemma next_generation_above l c b :
  (c < next_generation l c b)%Z
  ∧ (∀ s, l = Some s → generationOf s < next_generation l c b)%Z
  ∧ (∀ n, finite_number b = Some n → n < next_generation l c b)%Z.
Proof.
  unfold next_generation. split_and!; [lia| |].
  - intros s ->. lia.
  - intros n ->. simpl. lia.
Qed.

(** ** The calls to the cluster *)

Section Api.
Context {C : Type} `{!Exec C} {cm ns : string} `{!StateApi C cm ns}.
Context (r : string) (nsopt : option string).
Hypothesis release_map : configMapName r = cm.
Hypothesis release_named : no_release (Some r) = false.
Hypothesis in_namespace : namespace_of nsopt = Returns ns.

(** Some moment between two states of the cluster. *)
Definition during (c c' c1 : C) : Prop := later c c1 ∧ later c1 c'.

Lemma get_state_map_inv w res w' :
  get_state_map r ns w = (res, w') →
  local w' = local w ∧ later (cluster w) (cluster w')
  ∧ ∀ x, res = Returns x → exitCode x = 0%Z →
    ∃ c1, during (cluster w) (cluster w') c1 ∧ describes (stored c1) (stdout x).
Proof.
  unfold get_state_map, remote. rewrite release_map.
  destruct (execCapture _ _ _) as [res' c'] eqn:He. intros [= -> <-]. cbn.
  split_and!; [done|by eapply exec_later|]. intros x -> H0.
  destruct (get_describes _ _ _ He H0) as (c1 & ? & ? & ?). exists c1. by unfold during.
Qed.

Lemma read_for_write_inv w res w' :
  readClusterStateForWrite r ns w = (res, w') →
  local w' = local w ∧ later (cluster w) (cluster w')
  ∧ match res with
    | Returns (g, v) => ∃ c1, during (cluster w) (cluster w') c1
        ∧ g = generation_in (stored c1) ∧ v = option_map fst (stored c1)
    | Throws e => e = ClusterStateWriteError false
    end.
Proof.
  unfold readClusterStateForWrite, ibind, catch.
  destruct (get_state_map r ns w) as [[x|e] w1] eqn:Hg; apply get_state_map_inv in Hg as (Hl & Hc & Hd).
  - destruct (exitCode x =? 0)%Z eqn:H0; cbn; intros [= <- <-]; split_and!; try done.
    b2p. destruct (Hd x eq_refl H0) as (c1 & Hdur & Hdesc).
    apply parse_describes in Hdesc as (Hs & Hv & _). exists c1. rewrite Hs, Hv. done.
  - cbn. by intros [= <- <-].
Qed.

Lemma read_cluster_inv w res w' :
  readClusterState r ns w = (res, w') →
  local w' = local w
  ∧ match res with
    | Returns p => ∃ c1, during (cluster w) (cluster w') c1 ∧ p_state p = state_in (stored c1)
        ∧ (stored c1 = None ∨ is_Some (state_in (stored c1)))
    | Throws e => e = ClusterStateReadError
    end.
Proof.
  unfold readClusterState, ibind, catch.
  destruct (get_state_map r ns w) as [[x|e] w1] eqn:Hg; apply get_state_map_inv in Hg as (Hl & Hc & Hd).
  - destruct (exitCode x =? 0)%Z eqn:H0; cbn; [|by intros [= <- <-]].
    b2p. destruct (Hd x eq_refl H0) as (c1 & Hdur & Hdesc).
    apply parse_describes in Hdesc as (Hs & _ & He).
    destruct (p_error (parseStateConfigMap (stdout x))); intros [= <- <-]; split; eauto 6.
  - cbn. by intros [= <- <-].
Qed.

Lemma write_cluster_inv s v w res w' :
  writeClusterState r s v ns w = (res, w') →
  local w' = local w ∧ later (cluster w) (cluster w')
  ∧ match res with
    | Returns _ => ∃ c1 c2 v', later (cluster w) c1 ∧ adjacent stored later c1 c2 ∧ later c2 (cluster w')
        ∧ option_map fst (stored c1) = truthy_version v
        ∧ stored c2 = Some (v', Some (stringify (JObj s)))
    | Throws e => ∃ b, e = ClusterStateWriteError b
    end.
Proof.
  unfold writeClusterState, ibind at 1, catch at 1, remote.
  destruct (execCaptureStdin _ _ _ (cluster w)) as [[x|e] c1] eqn:He; cbn.
  - pose proof (exec_stdin_later _ _ _ _ _ _ He) as Hl.
    destruct (exitCode x =? 0)%Z eqn:H0.
    + intros [= <- <-]. split_and!; [done..|]. b2p.
      pose proof (state_map_requests r s v) as Hreq. rewrite release_map in Hreq.
      unfold write_args in He. destruct (truthy_version v) as [v0|].
      * destruct (replace_swaps _ _ _ _ _ _ He H0 Hreq) as (a & b & d & v' & ? & ? & ? & Ha & Hb).
        exists a, b, v'. by rewrite Ha.
      * destruct (create_needs_absence _ _ _ _ _ He H0 Hreq) as (a & b & v' & ? & ? & ? & Ha & Hb).
        exists a, b, v'. by rewrite Ha.
    + unfold ibind, catch, currentResourceVersion, ibind.
      destruct (get_state_map r ns (mkHost (local w) c1)) as [[y|e] w2] eqn:Hg;
        apply get_state_map_inv in Hg as (Hl2 & Hc2 & _); cbn in *.
      * destruct (exitCode y =? 0)%Z; cbn; intros [= <- <-];
          (split_and!; [done|by etrans|by eexists]).
      * intros [= <- <-]. split_and!; [done|by etrans|by eexists].
  - intros [= <- <-]. split_and!; [done|by eapply exec_stdin_later|by eexists].
Qed.

(** ** The commit *)

Lemma truthy_stored c : truthy_version (option_map fst (stored c)) = option_map fst (stored c).
Proof.
  destruct (stored c) as [[v d]|] eqn:Hs; [|done]. cbn.
  apply version_not_empty in Hs. by apply String.eqb_neq in Hs as ->.
Qed.

Lemma same_version_same_object a b :
  later a b → option_map fst (stored a) = option_map fst (stored b) →
  generation_in (stored a) = generation_in (stored b).
Proof.
  intros Hl. destruct (stored a) as [[v d]|] eqn:Ha, (stored b) as [[v' d']|] eqn:Hb; try done.
  cbn. intros [= ->]. by rewrite (version_names_object _ _ _ _ _ Hl Ha Hb).
Qed.

(** What a write leaves on the disk. *)
Definition written (co : bool) (d : disk) (state : AdapterState) : disk :=
  if co then d else mkDisk (Holds (stringify2 (JObj state))) Absent (writable d).

(** The three ends of a write: refused with nothing written, failed with the local copy written, or
    committed. *)
Inductive write_end (body : obj) (based : option json) (co : bool) (w w' : host C)
    : outcome state_error unit → Prop :=
| write_refused e : local w' = local w → write_end body based co w w' (Throws e)
| write_local_only e now g :
    local w' = written co (local w) (stamp body g now) →
    (∀ s, readLocalStateQuiet (local w) = Some s → co = false → generationOf s < g)%Z →
    (∀ b, finite_number based = Some b → b < g)%Z →
    write_end body based co w w' (Throws (ClusterStateWriteError e))
| write_committed now g c1 c2 v :
    local w' = written co (local w) (stamp body g now) →
    later (cluster w) c1 → adjacent stored later c1 c2 → later c2 (cluster w') →
    (generation_in (stored c1) < g)%Z →
    (∀ s, readLocalStateQuiet (local w) = Some s → co = false → generationOf s < g)%Z →
    (∀ b, finite_number based = Some b → generation_in (stored c1) ≤ b < g)%Z →
    stored c2 = Some (v, Some (stringify (JObj (stamp body g now)))) →
    write_end body based co w w' (Returns tt).

Lemma read_existing_inv w res w' :
  read_existing (Some r) ns w = (res, w') →
  local w' = local w ∧ later (cluster w) (cluster w')
  ∧ ((∃ c1, during (cluster w) (cluster w') c1
        ∧ res = Returns (generation_in (stored c1), option_map fst (stored c1), None))
     ∨ res = Returns (0%Z, None, Some (ClusterStateWriteError false))).
Proof.
  unfold read_existing. rewrite release_named. unfold catch, ibind.
  change (default "" (Some r)) with r.
  destruct (readClusterStateForWrite r ns w) as [[[g v]|e] w1] eqn:Hr;
    apply read_for_write_inv in Hr as (Hl & Hc & H); cbn; intros [= <- <-].
  - destruct H as (c1 & ? & -> & ->). eauto 6.
  - subst. eauto.
Qed.

Lemma write_state_ends now body based co w res w' :
  writeState now body based (Some r) nsopt co w = (res, w') → write_end body based co w w' res.
Proof.
  unfold writeState. change (default "" (Some r)) with r. unfold ibind at 1, lift. rewrite in_namespace, release_named, andb_false_r.
  unfold ibind at 1, on_disk at 1. unfold ibind at 1.
  set (w0 := mkHost _ _). assert (w0 = w) as -> by (by destruct w).
  destruct (read_existing (Some r) ns w) as [x w1] eqn:Hr.
  apply read_existing_inv in Hr as (Hl1 & Hc1 & [(k & [Hk Hk'] & ->)| ->]); cbn [fst snd].
  - set (g := next_generation _ _ _).
    destruct (next_generation_above (if co then None else readLocalStateQuiet (local w))
                (generation_in (stored k)) based) as (Hg1 & Hg2 & Hg3). fold g in Hg1, Hg2, Hg3.
    destruct (match finite_number based with Some _ => _ | None => _ end) eqn:Hstale.
    { intros [= <- <-]. by apply write_refused. }
    unfold ibind at 1.
    assert (∀ b, finite_number based = Some b → generation_in (stored k) ≤ b)%Z as Hb.
    { intros b Hb. rewrite Hb in Hstale. by b2p. }
    destruct ((if co then ret tt else on_disk (write_local _)) w1) as [[[]|e] w2] eqn:Hd.
    + intros Hw. apply write_cluster_inv in Hw as (Hl2 & Hc2 & Hres).
      assert (local w2 = written co (local w) (stamp body g now) ∧ cluster w2 = cluster w1) as [Hw2 Hcw2].
      { unfold written. destruct co; [by injection Hd as <-; rewrite Hl1|].
        unfold on_disk, write_local in Hd. rewrite Hl1 in Hd.
        destruct (negb (writable (local w))); [done|]. by injection Hd as <-. }
      rewrite Hcw2 in *. destruct res as [[]|e].
      * destruct Hres as (c1 & c2 & v & H1 & H2 & H3 & Hv & Hs). rewrite truthy_stored in Hv.
        assert (generation_in (stored k) = generation_in (stored c1)) as Hkc.
        { apply same_version_same_object; [by etrans|by symmetry]. }
        assert (later (cluster w) c1) as Hwc by (by transitivity (cluster w1)).
        apply (write_committed _ _ _ _ _ now g c1 c2 v); rewrite <- ?Hkc, ?Hl2; auto.
        intros s Hs' ->. by apply Hg2.
      * destruct Hres as [b ->]. eapply (write_local_only _ _ _ _ _ b now g).
        -- by rewrite Hl2.
        -- intros s Hs' ->. by apply Hg2.
        -- done.
    + intros [= <- <-]. apply write_refused. destruct co; [done|].
      unfold on_disk, write_local in Hd. destruct (negb _); [|done]. by injection Hd as _ <-.
  - destruct co; [intros [= <- <-]; by apply write_refused|].
    destruct (next_generation_above (readLocalStateQuiet (local w)) 0 based) as (_ & Hg2 & Hg3).
    unfold ibind, on_disk, write_local. rewrite Hl1.
    destruct (negb (writable (local w))); intros [= <- <-]; [by apply write_refused|].
    eapply (write_local_only _ _ _ _ _ false now); [done|by eauto|done].
Qed.

(** ** The reads *)

Lemma read_state_inv w o w' :
  readState (Some r) false false nsopt w = (Returns o, w') →
  ∃ mine c1, readLocalState (local w) = Returns mine ∧ during (cluster w) (cluster w') c1
  ∧ (stored c1 = None ∨ is_Some (state_in (stored c1)))
  ∧ match state_in (stored c1), mine with
    | None, _ => o = mine
    | Some theirs, None => o = Some theirs
    | Some theirs, Some m => ∃ s, o = Some s ∧ chooseNewerState m theirs = Returns s
    end.
Proof.
  unfold readState. change (default "" (Some r)) with r. unfold ibind at 1, on_disk. cbv beta iota zeta.
  destruct (readLocalState (local w)) as [mine|e] eqn:Hm; [|done].
  set (w0 := mkHost _ _). assert (w0 = w) as -> by (by destruct w).
  rewrite release_named. cbn [orb]. unfold ibind at 1, lift at 1. rewrite in_namespace.
  unfold ibind at 1. destruct (readClusterState r ns w) as [[p|e] w1] eqn:Hr;
    apply read_cluster_inv in Hr as (Hl & H); [|done].
  destruct H as (c1 & Hd & Hp & Hs). rewrite Hp. intros Hres. exists mine, c1.
  assert (w' = w1 ∧ match state_in (stored c1), mine with
    | None, _ => o = mine
    | Some theirs, None => o = Some theirs
    | Some theirs, Some m => ∃ s, o = Some s ∧ chooseNewerState m theirs = Returns s
    end) as [-> Ho]; [|done].
  destruct (state_in (stored c1)) as [theirs|], mine as [m|]; try (by injection Hres as <- <-).
  unfold ibind, lift in Hres. destruct (chooseNewerState m theirs) as [s|]; [|done].
  injection Hres as <- <-. eauto.
Qed.
End Api.

Lemma choose_newer_inv l c s :
  chooseNewerState l c = Returns s →
  (s = l ∧ (generationOf c ≤ generationOf l)%Z) ∨ (s = c ∧ (generationOf l ≤ generationOf c)%Z).
Proof.
  unfold chooseNewerState. cbv zeta.
  destruct (_ <? _)%Z eqn:H1; b2p; [intros [= <-]; right; split; [done|lia]|].
  destruct (_ <? _)%Z eqn:H2; b2p; [intros [= <-]; left; split; [done|lia]|].
  destruct (_ && _); [intros [= <-]; right; split; [done|lia]|].
  destruct (follows l c); [intros [= <-]; left; split; [done|lia]|].
  destruct (follows c l); [intros [= <-]; right; split; [done|lia]|done].
Qed.

Lemma stamp_is_state body g now : isAdapterState (JObj (stamp body g now)) = isAdapterState (JObj body).
Proof. unfold stamp, isAdapterState. by rewrite !prop_set_prop. Qed.

Lemma stamp_read_back body g now d :
  wf_json (JObj body) → canonical (JObj body) = true → isAdapterState (JObj body) = true →
  safe_integer g = true → target d = Holds (stringify2 (JObj (stamp body g now))) →
  readLocalState d = Returns (Some (stamp body g now)).
Proof.
  intros Hwf Hc Ha Hg Ht. unfold readLocalState. rewrite Ht, parse_stringify2.
  - by rewrite stamp_is_state, Ha.
  - unfold stamp. repeat apply wf_set_prop; done.
  - unfold stamp. repeat apply canonical_set_prop; try done. by apply canonical_int.
Qed.

(** ** An API server *)

(** One object, whose resourceVersion counts its writes; an offline server fails every command. *)
Record server := mkServer { online : bool; object : option (nat * string) }.

Definition sample_map : string := "shop-adapter-state".

Definition map_document (version : nat) (body : string) : json :=
  JObj [("metadata", JObj [("name", JStr sample_map); ("resourceVersion", JStr (z_text (Z.of_nat version)))]);
        ("data", JObj [("state.json", JStr body)])].

Definition exits (code : Z) (out : string) : outcome string ExecCaptureResult :=
  Returns (mkResult code out "" false).

(** The state.json of a request for the object at a version. *)
Definition requested (text : string) (version : option string) : option string :=
  match json_parse text with
  | Some doc =>
      if bool_decide (text_of (jget (jget (Some doc) "metadata") "name") = Some sample_map
                      ∧ text_of (jget (jget (Some doc) "metadata") "resourceVersion") = version)
      then text_of (jget (jget (Some doc) "data") "state.json") else None
  | None => None
  end.

Definition server_write (text : string) (s : server) : server * bool :=
  match object s with
  | Some (n, _) =>
      match requested text (Some (z_text (Z.of_nat n))) with
      | Some body => (mkServer (online s) (Some (S n, body)), true)
      | None => (s, false)
      end
  | None =>
      match requested text None with
      | Some body => (mkServer (online s) (Some (0, body)), true)
      | None => (s, false)
      end
  end.

#[global] Instance server_exec : Exec server := {
  execCapture cmd args s :=
    (if bool_decide (cmd = "kubectl" ∧ args = STATE_GET_ARGS sample_map "default") && online s
     then match object s with
          | Some (n, body) => exits 0 (stringify (map_document n body))
          | None => exits 0 ""
          end
     else exits 1 "", s);
  execCaptureStdin cmd args text s :=
    if bool_decide (cmd = "kubectl"
                    ∧ args = [match object s with Some _ => "replace" | None => "create" end;
                              "-n"; "default"; "-f"; "-"]) && online s
    then let '(s', ok) := server_write text s in (exits (if ok : bool then 0 else 1) "", s')
    else (exits 1 "", s)
}.

Definition writes (s : server) : nat := match object s with Some (n, _) => S n | None => 0 end.

Definition server_stored (s : server) : state_object :=
  match object s with Some (n, body) => Some (z_text (Z.of_nat n), Some body) | None => None end.

Definition server_later : relation server := λ s s',
  (writes s ≤ writes s')%nat ∧ (writes s = writes s' → s = s').

Lemma server_describes s : describes (server_stored s)
  (match object s with Some (n, body) => stringify (map_document n body) | None => "" end).
Proof.
  unfold server_stored. destruct (object s) as [[n body]|]; [|done].
  cbn [describes]. unfold map_document at 1 2. rewrite trim_object. split; [done|].
  exists (map_document n body). split; [|done].
  by apply parse_stringify; [apply wf_check_sound|].
Qed.

#[global] Instance server_order : PreOrder server_later.
Proof.
  split; [done|]. intros a b c [H1 H2] [H3 H4]. split; [lia|].
  intros H. rewrite H2 by lia. apply H4. lia.
Qed.

Lemma requested_inv text v body w b :
  requests text sample_map v body → requested text w = Some b → w = v ∧ b = body.
Proof.
  intros (doc & Hd & Hn & Hv & Hb). unfold requested. rewrite Hd, Hn, Hv, Hb.
  destruct (bool_decide _) eqn:He; [|done]. apply bool_decide_eq_true in He as [_ <-].
  intros [= <-]. split; [by destruct v|done].
Qed.

(** One write moves the object to its next version. *)
Lemma write_adjacent s s' : writes s' = S (writes s) → adjacent server_stored server_later s s'.
Proof.
  intros Hw. split; [split; lia|]. intros c [H1 H2] [H3 H4].
  destruct (decide (writes s = writes c)) as [He|]; [left; by rewrite (H2 He)|].
  right. rewrite H4 by lia. done.
Qed.

Lemma server_write_inv text s s' ok :
  server_write text s = (s', ok) →
  (ok = false ∧ s' = s)
  ∨ (ok = true ∧ writes s' = S (writes s)
     ∧ ∀ v body, requests text sample_map v body →
       option_map fst (server_stored s) = v ∧ ∃ v', server_stored s' = Some (v', Some body)).
Proof.
  unfold server_write, server_stored. destruct s as [on [[n b]|]]; cbn [object].
  all: destruct (requested _ _) as [body'|] eqn:Hr; intros [= <- <-]; [right|by left].
  all: split_and!; [done|done|]; intros v body Hq.
  all: destruct (requested_inv _ _ _ _ _ Hq Hr) as [<- <-]; split; [done|by eexists].
Qed.

Lemma server_stdin_inv cmd args text s r s' :
  execCaptureStdin cmd args text s = (Returns r, s') →
  (exitCode r = 0%Z → ∃ ok, server_write text s = (s', ok) ∧ ok = true
     ∧ args = [match object s with Some _ => "replace" | None => "create" end; "-n"; "default"; "-f"; "-"])
  ∧ server_later s s'.
Proof.
  cbn. destruct (bool_decide _ && _) eqn:Hb; [|by intros [= <- <-]].
  apply andb_true_iff in Hb as [[_ ->]%bool_decide_eq_true _].
  destruct (server_write text s) as [s1 ok] eqn:Hw. intros [= <- <-].
  split; [intros H; exists ok; by destruct ok|].
  apply server_write_inv in Hw as [[-> ->]|(_ & Hw & _)]; [done|]. apply write_adjacent, Hw.
Qed.

#[global] Instance server_api : StateApi server sample_map "default".
Proof.
  refine {| stored := server_stored; later := server_later |}.
  - intros c c' v d d' [Hle Heq] Hc Hc'. unfold server_stored in *.
    destruct c as [on [[n b]|]], c' as [on' [[n' b']|]]; cbn in *; try done. simplify_eq.
    assert (Z.of_nat n = Z.of_nat n') as Hn by (by apply z_text_inj).
    assert (n = n') as -> by lia. by injection (Heq eq_refl) as _ ->.
  - intros c v d. unfold server_stored. destruct (object c) as [[n b]|]; [|done].
    intros [= <- _]. apply z_text_chars.
  - intros cmd args c r c'. cbn. by intros [= _ <-].
  - intros cmd args text c r c' H. destruct r as [r|e]; [by apply server_stdin_inv in H as [_ H]|].
    cbn in H. destruct (bool_decide _ && _); [|done]. by destruct (server_write text c).
  - intros c r c' H H0. exists c. apply pair_equal_spec in H as [Hr <-].
    split_and!; [done..|]. unfold exits in Hr. pose proof (server_describes c) as Hd.
    destruct (bool_decide _ && online c); [|by injection Hr as <-].
    destruct (object c) as [[n b]|]; injection Hr as <-; exact Hd.
  - intros text v body c r c' H H0 Hq. apply server_stdin_inv in H as [H _].
    destruct (H H0) as (ok & Hw & -> & Ha). destruct (object c) as [[n b]|] eqn:Ho; [|done].
    apply server_write_inv in Hw as [[? _]|(_ & Hw & Hs)]; [done|].
    destruct (Hs _ _ Hq) as [Hv [v' Hs']]. unfold server_stored in Hv. rewrite Ho in Hv. injection Hv as <-.
    exists c, c', (Some b), v'. split_and!; [done|by apply write_adjacent|done| |done].
    unfold server_stored. by rewrite Ho.
  - intros text body c r c' H H0 Hq. apply server_stdin_inv in H as [H _].
    destruct (H H0) as (ok & Hw & -> & Ha). destruct (object c) as [[n b]|] eqn:Ho; [done|].
    apply server_write_inv in Hw as [[? _]|(_ & Hw & Hs)]; [done|].
    destruct (Hs _ _ Hq) as [_ [v' Hs']]. exists c, c', v'.
    split_and!; [done|by apply write_adjacent|done| |done]. unfold server_stored. by rewrite Ho.
Defined.

(** ** What the deploy state guarantees *)

Definition clean_disk : disk := mkDisk Absent Absent true.

Definition sample_body (build : string) (previous : json) : obj :=
  [("buildId", JStr build); ("previousBuildId", previous)].

(** A first deploy, and the second one that starts from its generation. *)
Definition first_host : host server := mkHost clean_disk (mkServer true None).
Definition second_host : host server :=
  (writeState "t1" (sample_body "v1" JNull) None (Some "shop") None false first_host).2.
Definition third_host : host server :=
  (writeState "t2" (sample_body "v2" (JStr "v1")) (Some (JNum (NInt 1))) (Some "shop") None false
     second_host).2.

(** C19. A commit is atomic and never loses another one: the object it replaces, with nothing in
    between, records no generation above the one the operation started from, and the new state's
    generation is above both and above the local copy's. *)
Theorem commit_swaps {C} `{!Exec C} {cm ns} `{!StateApi C cm ns} r nsopt now body based co (w w' : host C) :
  configMapName r = cm → no_release (Some r) = false → namespace_of nsopt = Returns ns →
  writeState now body based (Some r) nsopt co w = (Returns tt, w') →
  ∃ c1 c2 v state,
    later (cluster w) c1 ∧ adjacent stored later c1 c2 ∧ later c2 (cluster w')
    ∧ stored c2 = Some (v, Some (stringify (JObj state)))
    ∧ (generation_in (stored c1) < generationOf state)%Z
    ∧ (∀ b, finite_number based = Some b → generation_in (stored c1) ≤ b < generationOf state)%Z
    ∧ (∀ s, readLocalStateQuiet (local w) = Some s → co = false → generationOf s < generationOf state)%Z
    ∧ local w' = written co (local w) state.
Proof.
  intros Hr Hn Hns Hw. apply (write_state_ends r nsopt Hr Hn Hns) in Hw.
  inversion Hw as [| |now' g c1 c2 v Hl H1 H2 H3 Hg Hs Hb Hst]; subst.
  exists c1, c2, v, (stamp body g now'). rewrite generation_stamp. done.
Qed.

Lemma commit_swaps_witness :
  ∃ c1 c2 v state,
    later (cluster second_host) c1 ∧ adjacent stored later c1 c2 ∧ later c2 (cluster third_host)
    ∧ stored c2 = Some (v, Some (stringify (JObj state)))
    ∧ (generation_in (stored c1) < generationOf state)%Z
    ∧ (∀ b, finite_number (Some (JNum (NInt 1))) = Some b → generation_in (stored c1) ≤ b < generationOf state)%Z
    ∧ (∀ s, readLocalStateQuiet (local second_host) = Some s → false = false → generationOf s < generationOf state)%Z
    ∧ local third_host = written false (local second_host) state.
Proof.
  apply (commit_swaps "shop" None "t2" (sample_body "v2" (JStr "v1")) (Some (JNum (NInt 1))) false
           second_host third_host); vm_compute; reflexivity.
Defined.

(** An operation that another commit overtook loses: when the cluster can be read and is ahead of
    the generation the operation started from, the write is refused as concurrent, and neither the
    local copy nor the object is touched. *)
Theorem overtaken_write_loses {C} `{!Exec C} {cm ns} `{!StateApi C cm ns}
    r nsopt now body based co b x (w w1 : host C) :
  configMapName r = cm → no_release (Some r) = false → namespace_of nsopt = Returns ns →
  finite_number based = Some b →
  readClusterStateForWrite r ns w = (Returns x, w1) →
  (∀ c, during (cluster w) (cluster w1) c → b < generation_in (stored c))%Z →
  writeState now body based (Some r) nsopt co w = (Throws (ClusterStateWriteError true), w1)
  ∧ local w1 = local w.
Proof.
  intros Hr Hn Hns Hb Hread Hahead. pose proof Hread as Hinv.
  apply (read_for_write_inv r Hr) in Hinv as (Hl & _ & Hk). destruct x as [g v].
  destruct Hk as (k & Hk & -> & ->). split; [|done]. apply Hahead in Hk.
  unfold writeState, read_existing, on_disk, lift, catch, ibind. change (default "" (Some r)) with r.
  rewrite Hns, Hn, andb_false_r. assert (mkHost (local w) (cluster w) = w) as -> by (by destruct w).
  rewrite Hread. cbn. rewrite Hb. by apply Z.ltb_lt in Hk as ->.
Qed.

(** A host that still holds the first state while the cluster has moved on. *)
Definition stale_host : host server := mkHost (local second_host) (cluster third_host).

Lemma overtaken_write_loses_witness :
  writeState "t3" (sample_body "v3" (JStr "v1")) (Some (JNum (NInt 1))) (Some "shop") None false stale_host
  = (Throws (ClusterStateWriteError true), stale_host) ∧ local stale_host = local stale_host.
Proof.
  apply (overtaken_write_loses "shop" None "t3" (sample_body "v3" (JStr "v1")) (Some (JNum (NInt 1))) false 1
           (2%Z, Some (z_text 1)) stale_host stale_host).
  1-5: vm_compute; reflexivity.
  intros c [[H1 H2] [H3 H4]]. rewrite <- H2 by lia. vm_compute. reflexivity.
Defined.

(** A failed commit is not forgotten.  When a write leaves a local copy, every later read that
    succeeds gives that copy or a state of at least its generation from the cluster: the stale record
    of the cluster never wins, and the copy's generation is above the one the write started from. *)
Theorem failed_commit_remembered {C} `{!Exec C} {cm ns} `{!StateApi C cm ns}
    r nsopt now body based (w w' : host C) res :
  configMapName r = cm → no_release (Some r) = false → namespace_of nsopt = Returns ns →
  wf_json (JObj body) → canonical (JObj body) = true → isAdapterState (JObj body) = true →
  writeState now body based (Some r) nsopt false w = (res, w') → local w' ≠ local w →
  ∃ state, (∀ b, finite_number based = Some b → b < generationOf state)%Z
    ∧ prop state "buildId" = prop body "buildId"
    ∧ (safe_integer (generationOf state) = true →
       ∀ w2 o w3, local w2 = local w' → readState (Some r) false false nsopt w2 = (Returns o, w3) →
       ∃ s, o = Some s
         ∧ (s = state ∨ (∃ c, during (cluster w2) (cluster w3) c ∧ state_in (stored c) = Some s)
                        ∧ (generationOf state ≤ generationOf s)%Z)).
Proof.
  intros Hr Hn Hns Hwf Hc Ha Hw Hne. apply (write_state_ends r nsopt Hr Hn Hns) in Hw.
  assert (∃ g now, local w' = written false (local w) (stamp body g now)
            ∧ ∀ b, finite_number based = Some b → (b < g)%Z) as (g & now' & Hl & Hb).
  { inversion Hw as [|e now' g Hl _ Hb|now' g c1 c2 v Hl _ _ _ _ _ Hb]; subst; [done|eauto|].
    exists g, now'. split; [done|]. intros b Hf. apply Hb in Hf. lia. }
  exists (stamp body g now'). rewrite generation_stamp. split_and!; [done| |].
  { unfold stamp. by rewrite !prop_set_prop. }
  intros Hsafe w2 o w3 Hl2 Hread.
  apply (read_state_inv r nsopt Hr Hn Hns) in Hread as (mine & c & Hmine & Hd & _ & Ho).
  rewrite Hl2, Hl, (stamp_read_back body g now') in Hmine by done. injection Hmine as <-.
  destruct (state_in (stored c)) as [theirs|] eqn:Hs; [|subst; eauto].
  destruct Ho as (s & -> & Hch). exists s. split; [done|].
  apply choose_newer_inv in Hch as [[-> _]|[-> Hg]]; [by left|]. right.
  rewrite generation_stamp in Hg. eauto.
Qed.

(** A second commit whose cluster cannot be reached. *)
Definition offline_host : host server :=
  mkHost (local second_host) (mkServer false (object (cluster second_host))).
Definition failed_host : host server :=
  (writeState "t2" (sample_body "v2" (JStr "v1")) (Some (JNum (NInt 1))) (Some "shop") None false
     offline_host).2.

Lemma failed_commit_remembered_witness :
  ∃ state, (∀ b, finite_number (Some (JNum (NInt 1))) = Some b → b < generationOf state)%Z
    ∧ prop state "buildId" = Some (JStr "v2")
    ∧ (safe_integer (generationOf state) = true →
       ∀ w2 o w3, local w2 = local failed_host →
       readState (Some "shop") false false None w2 = (Returns o, w3) →
       ∃ s, o = Some s
         ∧ (s = state ∨ (∃ c, during (cluster w2) (cluster w3) c ∧ state_in (stored c) = Some s)
                        ∧ (generationOf state ≤ generationOf s)%Z)).
Proof.
  apply (failed_commit_remembered "shop" None "t2" (sample_body "v2" (JStr "v1")) (Some (JNum (NInt 1)))
           offline_host failed_host (Throws (ClusterStateWriteError false))).
  1-3: vm_compute; reflexivity.
  - apply wf_check_sound. vm_compute. reflexivity.
  - vm_compute. reflexivity.
  - vm_compute. reflexivity.
  - vm_compute. reflexivity.
  - vm_compute. discriminate.
Defined.

(** No state is reported only when there is none: a read that gives no state has seen the local
    file and the ConfigMap absent.  An unreadable or malformed copy always throws. *)
Theorem no_state_means_absent {C} `{!Exec C} {cm ns} `{!StateApi C cm ns} r nsopt (w w' : host C) :
  configMapName r = cm → no_release (Some r) = false → namespace_of nsopt = Returns ns →
  readState (Some r) false false nsopt w = (Returns None, w') →
  target (local w) = Absent ∧ ∃ c, during (cluster w) (cluster w') c ∧ stored c = None.
Proof.
  intros Hr Hn Hns Hread.
  apply (read_state_inv r nsopt Hr Hn Hns) in Hread as (mine & c & Hmine & Hd & Hs & Ho).
  destruct (state_in (stored c)) as [theirs|] eqn:Hst.
  { destruct mine; [by destruct Ho as (? & ? & _)|done]. }
  subst mine. split; [|exists c; by destruct Hs as [|[? ?]]].
  unfold readLocalState in Hmine. destruct (target (local w)) as [| |raw]; [done..|].
  destruct (json_parse raw) as [v|]; [|done]. destruct (negb (isAdapterState v)); [done|by destruct v].
Qed.

Lemma no_state_means_absent_witness :
  target (local first_host) = Absent
  ∧ ∃ c, during (cluster first_host) (cluster first_host) c ∧ stored c = None.
Proof. apply (no_state_means_absent "shop" None first_host first_host); vm_compute; reflexivity. Defined.

(** The two copies can be ordered: one has the higher generation, or they name the same builds, or
    one was written by the cutover that replaced the other's build. *)
Definition comparable (l c : AdapterState) : Prop :=
  generationOf l ≠ generationOf c
  ∨ (buildId_of l = buildId_of c ∧ previous_of l = previous_of c)
  ∨ (∃ p, p ≠ "" ∧ previous_of l = Some p ∧ buildId_of c = Some p)
  ∨ (∃ p, p ≠ "" ∧ previous_of c = Some p ∧ buildId_of l = Some p).

Lemma follows_iff l c :
  follows l c = true ↔ ∃ p, p ≠ "" ∧ previous_of l = Some p ∧ buildId_of c = Some p.
Proof.
  unfold follows. destruct (previous_of l) as [p|]; [|naive_solver].
  rewrite andb_true_iff, negb_true_iff, String.eqb_neq, bool_decide_eq_true. naive_solver.
Qed.

(** Reconciliation is total on comparable copies and refuses the others: the copy it picks is one
    of the two and has the highest generation. *)
Theorem choose_newer_exact l c :
  (comparable l c ↔ ∃ s, chooseNewerState l c = Returns s)
  ∧ (∀ s, chooseNewerState l c = Returns s →
     (s = l ∨ s = c) ∧ generationOf s = Z.max (generationOf l) (generationOf c))
  ∧ (∀ e, chooseNewerState l c = Throws e → e = StateDisagreementError).
Proof.
  split_and!.
  - unfold chooseNewerState, comparable. cbv zeta. rewrite <- !follows_iff.
    destruct (_ <? _)%Z eqn:H1; b2p; [split; [by eexists|left; lia]|].
    destruct (_ <? _)%Z eqn:H2; b2p; [split; [by eexists|left; lia]|].
    destruct (_ && _) eqn:H3; b2p; [split; [by eexists|auto]|].
    destruct (follows l c) eqn:H4; [split; [by eexists|auto]|].
    destruct (follows c l) eqn:H5; [split; [by eexists|auto]|].
    split; [|by intros [? ?]]. intros [H|[[Hb Hp]|[H|H]]]; [lia| |done|done].
    rewrite Hb, Hp, !bool_decide_eq_true_2 in H3; done.
  - intros s [[-> H]|[-> H]]%choose_newer_inv; split; auto; lia.
  - unfold chooseNewerState. cbv zeta. split_ifs; congruence.
Qed.

End DeployStateFacts.
