(* ===== verification/ServiceSelector.v ===== *)
(** * Replacing a Service's selector (src/src/cutover/service-selector.ts)

    One compare-and-swap patch for a generic Service; for a Service with a Google network endpoint
    group, an overlap phase that selects the verified pods of both builds until the load balancer
    reports the incoming ones healthy.  The Compute API behind src/src/cutover/gke-backends.ts, the
    clock and the random label are an instance of [Surroundings].  Pods are the JSON documents
    kubectl prints. *)
From Stdlib Require Import Ascii String.
From S2P Require Import Prelude JsString Regex Json JsonParse K8sNames PlanParse Effects.
Import K8sNames.
Local Open Scope stdpp_scope.
Local Open Scope js_scope.

Module ServiceSelector.

(** ** Selectors and maps, as JavaScript keeps them *)

Abbreviation Selector := (list (string * string)).

Fixpoint look {A} (m : list (string * A)) (key : string) : option A :=
  match m with
  | [] => None
  | (k, v) :: m' => if String.eqb k key then Some v else look m' key
  end.

(** { ...m, [key]: v } and map.set(key, v) *)
Fixpoint assign {A} (m : list (string * A)) (key : string) (v : A) : list (string * A) :=
  match m with
  | [] => [(key, v)]
  | (k, w) :: m' => if String.eqb k key then (k, v) :: m' else (k, w) :: assign m' key v
  end.

(** delete m[key] *)
Definition without {A} (m : list (string * A)) (key : string) : list (string * A) :=
  List.filter (λ f, negb (String.eqb f.1 key)) m.

Definition selector_json (s : Selector) : json := JObj (map (λ f, (f.1, JStr f.2)) s).

Definition VERSION : string := "app.kubernetes.io/version".
Definition COMPONENT : string := "app.kubernetes.io/component".
Definition WARMUP_MS : Z := 300000.
Definition STABLE_MS : Z := 30000.
Definition RECOVERY_PATH : string := "/metadata/annotations/adapter-k8s.io~1backend-warmup".

Definition SELECTOR_VALUE_RE : string := "^(?:[A-Za-z0-9](?:[A-Za-z0-9_.-]{0,61}[A-Za-z0-9])?)?$".

Definition label_term (f : string * string) : outcome string string :=
  let! _ := assertSafeAnnotationName (JStr f.1) in
  if negb (re_test SELECTOR_VALUE_RE f.2) then Throws "Invalid pod selector value"
  else Returns (f.1 +:+ "=" +:+ f.2).

Definition labelSelector (selector : Selector) : outcome string string :=
  match selector with
  | [] => Throws "Refusing an empty pod selector"
  | _ => let! terms := collect (map label_term selector) in Returns (join "," terms)
  end.

(** ** Patches *)

(** A JSON-patch operation; [None] for an absent value. *)
Definition patch_op (op path : string) (value : option json) : json :=
  JObj ([("op", JStr op); ("path", JStr path)]
        ++ match value with Some v => [("value", v)] | None => [] end).

Definition swap_ops (from to : Selector) (extra : list json) : list json :=
  patch_op "test" "/spec/selector" (Some (selector_json from))
  :: patch_op "replace" "/spec/selector" (Some (selector_json to)) :: extra.

Definition patch_service_args (namespace service : string) (ops : list json) : list string :=
  ["patch"; "service"; service; "-n"; namespace; "--type=json"; "--field-manager=helm"; "-p";
   stringify (JArr ops)].

Definition patch_pod_args (namespace name : string) (ops : list json) : list string :=
  ["patch"; "pod"; name; "-n"; namespace; "--type=json"; "-p"; stringify (JArr ops)].

Definition get_service_args (namespace service : string) : list string :=
  ["get"; "service"; service; "-n"; namespace; "-o"; "json"].

Record BackendRef := mkBackend { backend_name : string; backend_region : option string }.

(** What the program reads from its surroundings besides commands. *)
Class Surroundings (W : Type) := {
  now : W → Z * W;
  sleep : Z → W → W;
  randomUUID : W → string * W;
  discover : string → string → io W string (list BackendRef);
  healthy : string → BackendRef → string → io W string (list string)
}.

(** ** Pods *)

Abbreviation Pod := json.

Definition pod_name (p : Pod) : option json := jget (jget (Some p) "metadata") "name".
Definition pod_uid (p : Pod) : option string :=
  match jget (jget (Some p) "metadata") "uid" with Some (JStr s) => Some s | _ => None end.
Definition pod_ip (p : Pod) : option string :=
  match jget (jget (Some p) "status") "podIP" with Some (JStr s) => Some s | _ => None end.

Definition is_condition (c : json) : bool :=
  PlanParse.is_text (jget (Some c) "type") "Ready" && PlanParse.is_text (jget (Some c) "status") "True".

Definition ready (p : Pod) : bool :=
  negb (match jget (jget (Some p) "metadata") "deletionTimestamp" with
        | Some v => PlanParse.truthy v
        | None => false
        end)
  && match jget (jget (Some p) "status") "conditions" with
     | Some (JArr cs) => existsb is_condition cs
     | _ => false
     end.

(** new Map(pods.map((p) => [p.metadata.uid, p])).values() *)
Definition by_uid (pods : list Pod) : list Pod :=
  map snd (foldl (λ m p, assign m (default "" (pod_uid p)) p) [] pods).

(** live.some((l) => l.uid === p.uid && l.podIP === p.podIP) *)
Definition still_live (live : list Pod) (p : Pod) : bool :=
  existsb (λ l, bool_decide (pod_uid l = pod_uid p ∧ pod_ip l = pod_ip p)) live.

Definition has_ip (ips : list string) (p : Pod) : bool :=
  match pod_ip p with Some ip => bool_decide (ip ∈ ips) | None => false end.

(** key.replaceAll("/", "~1") *)
Definition escape_pointer (key : string) : string := join "~1" (split_on "/"%char key).

(** The selector of the overlap phase. *)
Definition overlap_of (original : Selector) (key : string) : Selector :=
  without (without (assign original key "1") VERSION) COMPONENT.

(** equal(a, b), with a the live selector as parsed. *)
Definition equal (a : obj) (b : Selector) : bool :=
  (length a =? length b)%nat
  && forallb (λ f, match f.2, look b f.1 with JStr v, Some v' => String.eqb v v' | _, _ => false end) a.

Definition ANNOTATION_NEG : string := "cloud.google.com/neg".
Definition ANNOTATION_NEG_STATUS : string := "cloud.google.com/neg-status".

(** A truthy annotation. *)
Definition annotated (annotations : option Selector) (name : string) : bool :=
  match look (default [] annotations) name with Some v => negb (String.eqb v "") | None => false end.

(** The annotation GKE's webhook adds to internal Services, which creates no endpoint group. *)
Definition only_ingress (annotations : option Selector) : bool :=
  match json_parse (default "null" (look (default [] annotations) ANNOTATION_NEG)) with
  | Some (JObj [(k, JBool true)]) => String.eqb k "ingress"
  | _ => false
  end.

Section Operations.
Context {W : Type} `{!Exec W} `{!Surroundings W} (isIP : string → Z).

Abbreviation action := (io W string).

(** A read of the clock or of the random source. *)
Definition sample {A} (f : W → A * W) {E} : io W E A := λ w, let '(a, w') := f w in (Returns a, w').

Definition replace (namespace service : string) (from to : Selector) (extra : list json)
    : action ExecCaptureResult :=
  execCapture "kubectl" (patch_service_args namespace service (swap_ops from to extra)).

Definition list_pods (namespace service : string) (selector : Selector) : action (list Pod) :=
  do! labels := lift (labelSelector selector) in
  do! result := execCapture "kubectl" ["get"; "pods"; "-n"; namespace; "-l"; labels; "-o"; "json"] in
  if negb (exitCode result =? 0)%Z then throw ("Could not list pods for " +:+ service)
  else
    match jget (json_parse (stdout result)) "items" with
    | Some (JArr pods) =>
        if (1000 <? length pods)%nat then throw "Invalid or excessive cutover pod set" else ret pods
    | _ => throw "Invalid or excessive cutover pod set"
    end.

Definition unlabel_pod (namespace labelPath : string) (p : Pod) : action unit :=
  do! _ := execCapture "kubectl" (patch_pod_args namespace
      (match pod_name p with Some (JStr s) => s | _ => "" end)
      [patch_op "test" "/metadata/uid" (option_map JStr (pod_uid p));
       patch_op "test" labelPath (Some (JStr "1")); patch_op "remove" labelPath None]) in
  ret tt.

Fixpoint cleanup (namespace labelPath : string) (labelled : list Pod) : action unit :=
  match labelled with
  | [] => ret tt
  | p :: ps => do! _ := unlabel_pod namespace labelPath p in cleanup namespace labelPath ps
  end.

(** The locals a failure leaves to the catch block: the pods labelled and whether the overlap was
    attempted. *)
Record progress := mkProgress { labelled : list Pod; overlapAttempted : bool }.

Abbreviation step := (io W (string * progress)).

Definition during_try {A} (p : progress) (m : action A) : step A := catch m (λ e, throw (e, p)).

Definition check_pod (p : Pod) : outcome string (string * string) :=
  let! _ := assertSafeKubernetesObjectName (default JNull (pod_name p)) "cutover pod name" in
  match pod_name p, pod_uid p, pod_ip p with
  | Some (JStr name), Some uid, Some ip =>
      if String.eqb uid "" || (isIP ip =? 0)%Z then Throws "Invalid cutover pod identity"
      else Returns (name, uid)
  | _, _, _ => Throws "Invalid cutover pod identity"
  end.

Fixpoint label_pods (namespace labelPath : string) (done pods : list Pod) : step (list Pod) :=
  match pods with
  | [] => ret done
  | p :: ps =>
      do! id := during_try (mkProgress done false) (lift (check_pod p)) in
      let '(name, uid) := id in
      let done := done ++ [p] in
      do! result := during_try (mkProgress done false)
        (execCapture "kubectl" (patch_pod_args namespace name
          [patch_op "test" "/metadata/uid" (Some (JStr uid)); patch_op "add" labelPath (Some (JStr "1"))])) in
      if negb (exitCode result =? 0)%Z
      then throw ("Could not label cutover pod " +:+ name, mkProgress done false)
      else label_pods namespace labelPath done ps
  end.

(** Whether every incoming pod is healthy in every backend. *)
Fixpoint all_healthy (projectId neg : string) (incoming : list Pod) (refs : list BackendRef)
    : action bool :=
  match refs with
  | [] => ret true
  | ref :: refs =>
      do! ips := healthy projectId ref neg in
      do! rest := all_healthy projectId neg incoming refs in
      ret (forallb (has_ip ips) incoming && rest)
  end.

(** One pass of the warm-up loop: the swap's result when it is done, else the start of the current
    healthy interval. *)
Definition warm_pass (namespace service projectId neg labelPath : string) (overlap next : Selector)
    (clearRecovery : list json) (incoming labelled : list Pod) (refs : list BackendRef)
    (healthySince : option Z) : action (ExecCaptureResult + option Z) :=
  do! pods := list_pods namespace service next in
  if negb (forallb (still_live (List.filter ready pods)) incoming)
  then throw ("Incoming pod set changed while warming " +:+ service +:+ "; retry cutover")
  else
    do! ok := all_healthy projectId neg incoming refs in
    do! since :=
      (if ok then
         match healthySince with
         | Some t => ret (Some t)
         | None => do! t := sample now in ret (Some t)
         end
       else ret None) in
    match since with
    | None => ret (inr None)
    | Some since =>
        do! t := sample now in
        if (STABLE_MS <=? t - since)%Z then
          do! result := replace namespace service overlap next clearRecovery in
          if negb (exitCode result =? 0)%Z
          then throw ("Could not finish GKE selector cutover for " +:+ service)
          else do! _ := cleanup namespace labelPath labelled in ret (inl result)
        else ret (inr (Some since))
    end.

(** The loop; it takes at most 61 passes, one for each five seconds of the five minutes. *)
Fixpoint warm_loop (pass : option Z → action (ExecCaptureResult + option Z)) (service : string)
    (deadline : Z) (fuel : nat) (healthySince : option Z) : action ExecCaptureResult :=
  match fuel with
  | O => throw "out of fuel"
  | S fuel =>
      do! t := sample now in
      if (t <? deadline)%Z then
        do! r := pass healthySince in
        match r with
        | inl result => ret result
        | inr since =>
            do! _ := sample (λ w, (tt, sleep 5000 w)) in
            warm_loop pass service deadline fuel since
        end
      else throw ("GKE backend health for " +:+ service +:+ " did not stabilize within 300s")
  end.

Definition warm_fuel : nat := 62.

Definition parse_status (annotations : option Selector) : outcome string json :=
  match json_parse (default "{}" (look (default [] annotations) ANNOTATION_NEG_STATUS)) with
  | None => Throws "SyntaxError"
  | Some status =>
      Returns (default JNull (jget (jget (Some status) "network_endpoint_groups") "3000"))
  end.

(** The body of the try block. *)
Definition overlap_cutover (namespace service : string) (original next : Selector)
    (annotations : option Selector) (projectId : option string) (key labelPath recovery : string)
    (clearRecovery : list json) : step ExecCaptureResult :=
  let start := mkProgress [] false in
  let overlap := overlap_of original key in
  match projectId with
  | None | Some "" =>
      throw ("GKE Service " +:+ service
        +:+ " requires a project identity for backend health verification", start)
  | Some project =>
      do! _ := during_try start (lift (assertSafeProjectId project)) in
      do! neg := during_try start (lift (parse_status annotations)) in
      do! _ := during_try start (lift (assertSafeGcpResourceName neg "Service NEG name")) in
      let neg := match neg with JStr s => s | _ => "" end in
      do! refs := during_try start (discover project neg) in
      if (length refs =? 0)%nat
      then throw ("No load-balancer backend is attached to " +:+ service +:+ "'s NEG", start)
      else
        do! pods := during_try start (list_pods namespace service next) in
        let incoming := List.filter ready pods in
        if (length incoming =? 0)%nat
        then throw ("No ready incoming pods for " +:+ service, start)
        else
          do! pods := during_try start (list_pods namespace service original) in
          let outgoing := List.filter ready pods in
          do! labelled := label_pods namespace labelPath [] (by_uid (outgoing ++ incoming)) in
          let attempted := mkProgress labelled true in
          do! staged := during_try attempted (replace namespace service original overlap
            [patch_op "add" RECOVERY_PATH (Some (JStr recovery))]) in
          if negb (exitCode staged =? 0)%Z
          then throw ("Could not stage GKE backend overlap for " +:+ service, attempted)
          else
            do! t := sample now in
            during_try attempted
              (warm_loop (warm_pass namespace service project neg labelPath overlap next clearRecovery
                            incoming labelled refs)
                 service (t + WARMUP_MS) warm_fuel None)
  end.

(** Reading back and restoring after a failed overlap: whether the labels may go. *)
Definition restore_overlap (namespace service : string) (original next overlap : Selector)
    (clearRecovery : list json) : action bool :=
  do! read := execCapture "kubectl" (get_service_args namespace service) in
  if negb (exitCode read =? 0)%Z then ret false
  else
    match jget (jget (json_parse (stdout read)) "spec") "selector" with
    | Some (JObj current) =>
        if equal current original then ret true
        else if equal current overlap || equal current next then
          catch
            (do! r := execCapture "kubectl" (patch_service_args namespace service
               (patch_op "test" "/spec/selector" (Some (JObj current))
                :: patch_op "replace" "/spec/selector" (Some (selector_json original))
                :: if equal current overlap then clearRecovery else [])) in
             ret (exitCode r =? 0)%Z)
            (λ _, ret false)
        else ret false
    | _ => ret false
    end.

Definition replaceServiceSelector (namespace service : string) (original next : Selector)
    (annotations : option Selector) (projectId : option string) : action ExecCaptureResult :=
  do! _ := lift (assertSafeNamespace (JStr namespace)) in
  do! _ := lift (assertSafeServiceName (JStr service)) in
  do! _ := lift (labelSelector original) in
  do! _ := lift (labelSelector next) in
  if negb (annotated annotations ANNOTATION_NEG) && negb (annotated annotations ANNOTATION_NEG_STATUS)
  then replace namespace service original next []
  else if negb (annotated annotations ANNOTATION_NEG_STATUS) && only_ingress annotations
  then replace namespace service original next []
  else
    do! uuid := sample randomUUID in
    let key := "adapter-k8s.io/warm-" +:+ join "" (split_on "-"%char uuid) in
    let labelPath := "/metadata/labels/" +:+ escape_pointer key in
    let recovery := stringify (JObj [("original", selector_json original); ("next", selector_json next);
                                     ("label", JStr key)]) in
    let clearRecovery := [patch_op "test" RECOVERY_PATH (Some (JStr recovery));
                          patch_op "remove" RECOVERY_PATH None] in
    catch (overlap_cutover namespace service original next annotations projectId key labelPath recovery
             clearRecovery)
      (λ '(message, p),
        do! mayClean :=
          (if overlapAttempted p
           then restore_overlap namespace service original next (overlap_of original key) clearRecovery
           else ret true) in
        let detail :=
          if overlapAttempted p && negb mayClean
          then message +:+ "; could not restore " +:+ service
            +:+ "'s selector, leaving warm-up labels and both builds in place"
          else message in
        do! _ := (if mayClean : bool then cleanup namespace labelPath (labelled p) else ret tt) in
        ret (mkResult 1 "" detail false)).
End Operations.

End ServiceSelector.
