(* ===== verification/Traffic.v ===== *)
(** * The traffic switch (src/src/cutover/traffic.ts)

    The cutover to a new build and its mirror, the flip back to the previous one: every Service's
    selector is read before any is changed, each is replaced by compare-and-swap, and a failure puts
    back the ones already replaced.  The routing edge, which the source receives as a collaborator, is
    an instance of [Collaborators].  Console output is left out. *)
From Stdlib Require Import String.
From S2P Require Import Prelude JsString Json JsonParse K8sNames Effects DeployState ServiceSelector.
Import K8sNames ServiceSelector.
Local Open Scope stdpp_scope.
Local Open Scope js_scope.

Module Traffic.

Inductive cutover_error :=
| CutoverExitError (code : Z)
| PlainError (message : string).

Class Collaborators (W : Type) := {
  restoreEdgeToPreviousBuild : io W string unit;
  revertRoutingServiceToBuild : string → io W string unit
}.

Record destination := mkDestination { servicePool : string; targetPool : string }.

(** What is known of the Services before any of them is changed. *)
Record snapshot := mkSnapshot {
  originalSelectors : list (string * Selector);
  annotations : list (string * Selector);
  failures : list (string * string)
}.

Definition empty_snapshot : snapshot := mkSnapshot [] [] [].

Definition service_name (releaseName pool : string) : string :=
  sanitizeK8sName (releaseName +:+ "-" +:+ pool) "".

Definition string_entry (f : string * json) : option (string * string) :=
  match f.2 with JStr s => Some (f.1, s) | _ => None end.

(** A selector: an object of strings. *)
Definition parse_selector (v : option json) : option Selector :=
  match v with Some (JObj fs) => mapM string_entry fs | _ => None end.

(** metadata.annotations ?? {} of a Service; the API server gives strings. *)
Definition parse_annotations (v : option json) : Selector :=
  match v with Some (JObj fs) => omap string_entry fs | _ => [] end.

(** The Service a read gives: its selector and its annotations, when the output is JSON. *)
Definition read_service (read : ExecCaptureResult) : option Selector * option Selector :=
  if (exitCode read =? 0)%Z then
    match json_parse (stdout read) with
    | Some object =>
        (parse_selector (jget (jget (Some object) "spec") "selector"),
         Some (parse_annotations (jget (jget (Some object) "metadata") "annotations")))
    | None => (None, None)
    end
  else (None, None).

(** The selector that sends a Service to a pool of a build. *)
Definition retarget (original : Selector) (targetPool version : string) : Selector :=
  assign (assign original COMPONENT targetPool) VERSION version.

Definition expected_mismatch (expectedCurrentBuildId : option string) (selector : Selector) : bool :=
  match expectedCurrentBuildId with
  | Some b => negb (String.eqb b "")
              && negb (bool_decide (look selector VERSION = Some (sanitizeK8sName b "")))
  | None => false
  end.

Section Switch.
Context {W : Type} `{!Exec W} `{!Surroundings W} `{!Collaborators W} (isIP : string → Z).
Context (releaseName namespace : string) (projectId : option string).

Abbreviation cutover := (io W cutover_error).

Definition plainly {A} (m : io W string A) : cutover A := catch m (λ e, throw (PlainError e)).

(** Reading one Service of the switch. *)
Definition observe (expectedCurrentBuildId : option string) (s : snapshot) (d : destination)
    (read : ExecCaptureResult) : snapshot :=
  let name := service_name releaseName (servicePool d) in
  let '(selector, annots) := read_service read in
  let annots := match annots with Some a => assign (annotations s) name a | None => annotations s end in
  match selector with
  | None => mkSnapshot (originalSelectors s) annots (failures s ++ [(servicePool d, name)])
  | Some sel =>
      mkSnapshot (assign (originalSelectors s) name sel) annots
        (if expected_mismatch expectedCurrentBuildId sel then failures s ++ [(servicePool d, name)]
         else failures s)
  end.

Fixpoint snapshot_services (expectedCurrentBuildId : option string) (s : snapshot)
    (ds : list destination) : cutover snapshot :=
  match ds with
  | [] => ret s
  | d :: ds =>
      do! read := plainly (execCapture "kubectl"
        (get_service_args namespace (service_name releaseName (servicePool d)))) in
      snapshot_services expectedCurrentBuildId (observe expectedCurrentBuildId s d read) ds
  end.

(** The Services replaced so far, each with its new selector, and those that failed. *)
Definition patch_log : Type := list (string * Selector) * list (string * string).

Definition swap (s : snapshot) (name : string) (from to : Selector) : cutover ExecCaptureResult :=
  plainly (replaceServiceSelector isIP namespace name from to (look (annotations s) name) projectId).

Fixpoint patch_services (s : snapshot) (version : string) (log : patch_log) (ds : list destination)
    : cutover patch_log :=
  match ds with
  | [] => ret log
  | d :: ds =>
      let name := service_name releaseName (servicePool d) in
      let original := default [] (look (originalSelectors s) name) in
      let next := retarget original (targetPool d) version in
      do! result := swap s name original next in
      let '(patched, failed) := log in
      patch_services s version
        (if (exitCode result =? 0)%Z then (patched ++ [(name, next)], failed)
         else (patched, failed ++ [(servicePool d, name)])) ds
  end.

(** Putting the original selectors back; the names of the Services that could not be restored. *)
Fixpoint restore_services (s : snapshot) (patched : list (string * Selector)) : cutover (list string) :=
  match patched with
  | [] => ret []
  | (name, selector) :: patched =>
      do! result := swap s name selector (default [] (look (originalSelectors s) name)) in
      do! rest := restore_services s patched in
      ret (if (exitCode result =? 0)%Z then rest else name :: rest)
  end.

Definition switch_destinations (pools : list string) (hasPortableOrigin : bool) (defaultPool : string)
    : list destination :=
  map (λ p, mkDestination p p) pools
  ++ if hasPortableOrigin then [mkDestination "origin" defaultPool] else [].

(** The switch keeps one patched selector per Service, the last one. *)
Definition last_selectors (patched : list (string * Selector)) : list (string * Selector) :=
  let last := foldl (λ m f, assign m f.1 f.2) [] patched in
  map (λ f, (f.1, default [] (look last f.1))) patched.

(** [restoreWarmedHpas] is the closure of the warm-up. *)
Definition switchTrafficToNewBuild (restoreWarmedHpas : io W string unit) (safeBuildId : string) (expectedCurrentBuildId : option string)
    (pools : list string) (hasPortableOrigin : bool) (defaultPool : string) : cutover unit :=
  let ds := switch_destinations pools hasPortableOrigin defaultPool in
  do! s := snapshot_services expectedCurrentBuildId empty_snapshot ds in
  do! log :=
    (if (length (failures s) =? 0)%nat then patch_services s safeBuildId ([], []) ds
     else ret ([], failures s)) in
  let '(patched, failed) := log in
  if (0 <? length failed)%nat then
    do! _ := restore_services s (last_selectors patched) in
    do! _ := plainly restoreEdgeToPreviousBuild in
    do! _ := plainly restoreWarmedHpas in
    throw (CutoverExitError 1)
  else ret tt.

(** ** The rollback *)

Record RevertSelectorPlan := mkRevert { destinations : list destination; snapshot_of : snapshot }.

(** The Services that only the current topology has are sent to the first pool of the target. *)
Definition revert_destinations (poolNames currentPoolNames : list string) (origin : option string)
    : list destination :=
  map (λ p, mkDestination p p) poolNames
  ++ map (λ p, mkDestination p (default "" (head poolNames)))
       (List.filter (λ p, negb (bool_decide (p ∈ poolNames))) currentPoolNames)
  ++ match origin with Some p => [mkDestination "origin" p] | None => [] end.

Fixpoint snapshot_revert (s : snapshot) (ds : list destination) : cutover snapshot :=
  match ds with
  | [] => ret s
  | d :: ds =>
      let name := service_name releaseName (servicePool d) in
      match look (originalSelectors s) name with
      | Some _ => snapshot_revert s ds
      | None =>
          do! read := plainly (execCapture "kubectl" (get_service_args namespace name)) in
          let s' := observe None s d read in
          match look (originalSelectors s') name with
          | Some _ => snapshot_revert s' ds
          | None => throw (PlainError ("Could not read the exact selector for rollback Service " +:+ name))
          end
      end
  end.

(** [defaultPools] is the pool the state records for each build's origin. *)
Definition snapshotRevertSelectors (poolNames currentPoolNames : list string) (previousBuildId : string)
    (defaultPools : option Selector) : cutover RevertSelectorPlan :=
  let origin := service_name releaseName "origin" in
  do! lookup := plainly (execCapture "kubectl"
    ["get"; "service"; origin; "-n"; namespace; "--ignore-not-found"; "-o"; "name"]) in
  if negb (exitCode lookup =? 0)%Z
  then throw (PlainError "Could not determine whether the portable origin Service exists")
  else
    let hasPortableOrigin := String.eqb (trim (stdout lookup)) ("service/" +:+ origin) in
    let ds := revert_destinations poolNames currentPoolNames
      (if hasPortableOrigin
       then Some (default (default "" (head poolNames)) (look (default [] defaultPools) previousBuildId))
       else None) in
    do! s := snapshot_revert empty_snapshot ds in
    ret (mkRevert ds s).

Definition flipSelectorsToPreviousBuild (currentBuildId safePreviousBuild : string)
    (plan : RevertSelectorPlan) : cutover unit :=
  let s := snapshot_of plan in
  do! log := patch_services s safePreviousBuild ([], []) (destinations plan) in
  let '(patched, failed) := log in
  if (0 <? length failed)%nat then
    do! _ := restore_services s patched in
    do! _ := catch (do! _ := lift (assertSafeBuildId currentBuildId) in
                    revertRoutingServiceToBuild currentBuildId) (λ _, ret tt) in
    throw (CutoverExitError 1)
  else ret tt.
End Switch.

End Traffic.
