(* ===== verification/TrafficFacts.v ===== *)
(** * Correctness of the traffic switch

    What a selector replacement and a traffic switch leave in the cluster, whatever commands answer.
    The cluster's Services are an interface, [ServiceApi]: their live selectors, a get that shows
    one, a JSON patch that swaps one exactly when its test matches.  A patch that fails may or may not
    have been applied.  No other client changes these selectors meanwhile. *)
From Stdlib Require Import Ascii String.
From S2P Require Import Prelude JsString Regex Json JsonParse K8sNames PlanParse Effects DeployState ServiceSelector Traffic.
Import K8sNames ServiceSelector Traffic.
Local Open Scope stdpp_scope.
Local Open Scope js_scope.

Module TrafficFacts.

Abbreviation labels := (gmap string string).
Abbreviation labels_of := (list_to_map (M := gmap string string)).

(** Arguments of a command that can change a Service. *)
Definition changes_service (args : list string) : bool :=
  match args with "patch" :: "service" :: _ | "delete" :: _ => true | _ => false end.

(** Operations that JSON.stringify and JSON.parse keep. *)
Definition plain_ops (ops : list json) : Prop := wf_json (JArr ops) ∧ canonical (JArr ops) = true.

Class ServiceApi (W : Type) `{!Exec W} `{!Surroundings W} (ns : string) := {
  live : W → string → option labels;
  get_shows : ∀ service w r w' sel,
    execCapture "kubectl" (get_service_args ns service) w = (Returns r, w') → exitCode r = 0%Z →
    parse_selector (jget (jget (json_parse (stdout r)) "spec") "selector") = Some sel →
    NoDup sel.*1 ∧ live w service = Some (labels_of sel);
  patch_swaps : ∀ service from to extra w r w',
    execCapture "kubectl" (patch_service_args ns service (swap_ops from to extra)) w = (r, w') →
    NoDup from.*1 → NoDup to.*1 → plain_ops extra →
    (∀ other, other ≠ service → live w' other = live w other)
    ∧ ((match r with Returns x => exitCode x ≠ 0%Z | Throws _ => True end ∧ live w' service = live w service)
       ∨ ((∃ x, r = Returns x) ∧ live w service = Some (labels_of from) ∧ live w' service = Some (labels_of to)));
  other_commands : ∀ cmd args w r w',
    execCapture cmd args w = (r, w') → changes_service args = false → ∀ s, live w' s = live w s;
  now_keeps : ∀ w s, live (now w).2 s = live w s;
  sleep_keeps : ∀ d w s, live (sleep d w) s = live w s;
  random_keeps : ∀ w s, live (randomUUID w).2 s = live w s;
  discover_keeps : ∀ project neg w s, live (discover project neg w).2 s = live w s;
  healthy_keeps : ∀ project ref neg w s, live (healthy project ref neg w).2 s = live w s
}.

(** ** Selectors as maps *)

Lemma look_labels (s : Selector) k : labels_of s !! k = look s k.
Proof.
  induction s as [|[k' v] s IH]; cbn; [apply lookup_empty|].
  destruct (String.eqb_spec k' k) as [->|]; [by rewrite lookup_insert_eq|].
  by rewrite lookup_insert_ne.
Qed.

Lemma look_assign {A} (m : list (string * A)) k v k' :
  look (assign m k v) k' = if String.eqb k k' then Some v else look m k'.
Proof.
  induction m as [|[k0 v0] m IH]; cbn; [done|].
  destruct (String.eqb_spec k0 k) as [->|Hne]; cbn; [by destruct (String.eqb_spec k k')|].
  rewrite IH. destruct (String.eqb_spec k0 k') as [->|]; [|done].
  by rewrite (proj2 (String.eqb_neq k k')).
Qed.

Lemma assign_labels (s : Selector) k v : labels_of (assign s k v) = <[k := v]> (labels_of s).
Proof.
  apply map_eq. intros k'. rewrite look_labels, look_assign.
  destruct (String.eqb_spec k k') as [->|]; [by rewrite lookup_insert_eq|].
  by rewrite lookup_insert_ne, look_labels.
Qed.

Lemma assign_keys {A} (m : list (string * A)) k v k' : k' ∈ (assign m k v).*1 ↔ k' = k ∨ k' ∈ m.*1.
Proof.
  induction m as [|[k0 v0] m IH]; cbn; [by rewrite list_elem_of_singleton, elem_of_nil; naive_solver|].
  destruct (String.eqb_spec k0 k) as [->|]; cbn; rewrite !elem_of_cons; [naive_solver|].
  rewrite IH. naive_solver.
Qed.

Lemma assign_nodup {A} (m : list (string * A)) k v : NoDup m.*1 → NoDup (assign m k v).*1.
Proof.
  induction m as [|[k0 v0] m IH]; cbn; [intros; repeat constructor; apply not_elem_of_nil|].
  intros [Hn Hd]%NoDup_cons. destruct (String.eqb_spec k0 k) as [->|]; cbn; constructor; auto.
  rewrite assign_keys. naive_solver.
Qed.

Lemma without_nodup {A} (m : list (string * A)) k : NoDup m.*1 → NoDup (without m k).*1.
Proof.
  unfold without. induction m as [|[k0 v0] m IH]; cbn; [done|]. intros [Hn Hd]%NoDup_cons.
  destruct (negb _); cbn; [|auto]. constructor; [|auto]. intros Hin. apply Hn.
  apply list_elem_of_fmap in Hin as ([k1 v1] & -> & Hin). apply list_elem_of_In, filter_In in Hin as [Hin _].
  apply list_elem_of_In in Hin. by apply (list_elem_of_fmap_2 fst _ (k1, v1)).
Qed.

Lemma overlap_nodup (s : Selector) key : NoDup s.*1 → NoDup (overlap_of s key).*1.
Proof. intros H. unfold overlap_of. by do 2 apply without_nodup; apply assign_nodup. Qed.

(** An object equal to a selector is that selector, up to the order of its keys. *)
Lemma equal_selector (current : obj) (sel b : Selector) :
  mapM string_entry current = Some sel → NoDup sel.*1 → NoDup b.*1 →
  equal current b = true → labels_of sel = labels_of b ∧ JObj current = selector_json sel.
Proof.
  intros Hsel Hn Hb. unfold equal. rewrite andb_true_iff, Nat.eqb_eq, forallb_In. intros [Hlen Hall].
  assert (JObj current = selector_json sel ∧ length sel = length current
          ∧ ∀ f, f ∈ sel → (f.1, JStr f.2) ∈ current) as (Hj & Hl & Hin).
  { clear -Hsel. revert sel Hsel. induction current as [|[k v] current IH]; intros sel Hsel.
    - injection Hsel as <-. split_and!; [done|done|]. by intros f ?%not_elem_of_nil.
    - cbn in Hsel. destruct v; try done. cbn in Hsel.
      destruct (mapM string_entry current) as [sel'|] eqn:Hm; [|done]. injection Hsel as <-.
      destruct (IH sel' eq_refl) as (Hj & Hl & Hin). unfold selector_json in *. injection Hj as Hj.
      split_and!; [by rewrite Hj|cbn; lia|]. intros f [->|Hf]%elem_of_cons; [left|right; auto]. }
  split; [|done]. apply map_eq. intros k. rewrite !look_labels.
  assert (∀ f, f ∈ sel → f ∈ b) as Hsub.
  { intros f Hf. specialize (Hall _ (Hin f Hf)). cbn in Hall.
    destruct (look b f.1) as [v|] eqn:Hlook; [|done]. apply String.eqb_eq in Hall as <-.
    rewrite <- look_labels in Hlook. apply elem_of_list_to_map_2 in Hlook. by destruct f. }
  rewrite <- !look_labels. assert (sel ≡ₚ b) as Hp.
  { apply submseteq_length_Permutation; [|lia]. apply NoDup_submseteq; [by apply NoDup_fmap_1 in Hn|done]. }
  by rewrite (list_to_map_proper sel b).
Qed.

(** ** One Service *)

Section OneService.
Context {W : Type} `{!Exec W} `{!Surroundings W} {ns : string} `{!ServiceApi W ns} (isIP : string → Z).
Context (service : string) (others : string → option labels).

(** The Service has these labels and the other Services are as they were. *)
Definition at_labels (m : labels) (w : W) : Prop :=
  live w service = Some m ∧ ∀ o, o ≠ service → live w o = others o.

Lemma at_labels_same m w w' : (∀ s, live w' s = live w s) → at_labels m w → at_labels m w'.
Proof. intros Hs [H1 H2]. split; [by rewrite Hs|]. intros o Ho. rewrite Hs. auto. Qed.

(** Every step that is not a patch of a Service keeps any such state. *)
Definition keeps {E A} (m : io W E A) : Prop :=
  ∀ (I : W → Prop), (∀ w w', (∀ s, live w' s = live w s) → I w → I w') →
  triple I m (λ _, I) (λ _, I).

Lemma keeps_bind {E A B} (m : io W E A) (f : A → io W E B) :
  keeps m → (∀ a, keeps (f a)) → keeps (ibind m f).
Proof. intros Hm Hf I HI. eapply triple_bind; [by apply Hm|]. intros a. by apply Hf. Qed.

Lemma keeps_ret {E A} (a : A) : keeps (E := E) (ret a).
Proof. intros I HI. by apply triple_ret. Qed.

Lemma keeps_throw {E A} (e : E) : keeps (A := A) (throw e).
Proof. intros I HI. by apply triple_throw. Qed.

Lemma keeps_lift {E A} (m : outcome E A) : keeps (lift m).
Proof. intros I HI. by apply triple_lift. Qed.

Lemma keeps_command cmd args : changes_service args = false → keeps (execCapture cmd args).
Proof.
  intros Ha I HI w Hw. destruct (execCapture cmd args w) as [r w'] eqn:He.
  assert (I w') by (eapply HI; [|exact Hw]; by eapply other_commands). by destruct r.
Qed.

Lemma keeps_sample {A E} (f : W → A * W) : (∀ w s, live (f w).2 s = live w s) → keeps (E := E) (sample f).
Proof.
  intros Hf I HI w Hw. unfold sample. specialize (Hf w). destruct (f w) as [a w']. by apply (HI w).
Qed.

Lemma keeps_list_pods selector : keeps (list_pods ns service selector).
Proof.
  unfold list_pods. apply keeps_bind; [apply keeps_lift|]. intros l.
  apply keeps_bind; [by apply keeps_command|]. intros r.
  destruct (negb _); [apply keeps_throw|].
  destruct (jget _ _) as [[| | | |pods|]|]; try apply keeps_throw.
  destruct (_ <? _)%nat; [apply keeps_throw|apply keeps_ret].
Qed.

Lemma keeps_cleanup path pods : keeps (cleanup ns path pods).
Proof.
  induction pods as [|p pods IH]; cbn; [apply keeps_ret|]. apply keeps_bind; [|done].
  apply keeps_bind; [by apply keeps_command|]. intros; apply keeps_ret.
Qed.

Lemma keeps_all_healthy project neg incoming refs : keeps (all_healthy project neg incoming refs).
Proof.
  induction refs as [|ref refs IH]; cbn; [apply keeps_ret|]. apply keeps_bind.
  - intros I HI w Hw. pose proof (healthy_keeps project ref neg w) as Hk.
    destruct (healthy project ref neg w) as [[a|e] w']; by apply (HI w).
  - intros ips. apply keeps_bind; [done|]. intros; apply keeps_ret.
Qed.

Lemma keeps_discover project neg : keeps (discover project neg).
Proof.
  intros I HI w Hw. pose proof (discover_keeps project neg w) as Hk.
  destruct (discover project neg w) as [[a|e] w']; by apply (HI w).
Qed.

(** A swap whose test the Service passes reaches the new selector, or fails either way. *)
Lemma replace_at from to extra :
  NoDup from.*1 → NoDup to.*1 → plain_ops extra →
  triple (at_labels (labels_of from)) (replace ns service from to extra)
    (λ x w, if (exitCode x =? 0)%Z then at_labels (labels_of to) w
            else at_labels (labels_of from) w ∨ at_labels (labels_of to) w)
    (λ _, at_labels (labels_of from)).
Proof.
  intros Hf Ht Hextra w [Hl Ho]. unfold replace.
  destruct (execCapture _ _ w) as [r w'] eqn:He.
  apply patch_swaps in He as [Hother Hcase]; [|done..].
  assert (∀ m, live w' service = Some m → at_labels m w') as Hat.
  { intros m Hm. split; [done|]. intros o Hne. rewrite Hother by done. auto. }
  destruct Hcase as [[Hr Hsame]|([x ->] & _ & Hto)].
  - assert (at_labels (labels_of from) w') as H by (apply Hat; congruence).
    destruct r as [x|e]; [|done]. apply Z.eqb_neq in Hr as ->. by left.
  - destruct (exitCode x =? 0)%Z; auto.
Qed.

(** The selectors a replacement may leave: the original, the new one, or the overlap of both. *)
Inductive kept (original next : Selector) : labels → Prop :=
| kept_original : kept original next (labels_of original)
| kept_next : kept original next (labels_of next)
| kept_overlap key : kept original next (labels_of (overlap_of original key)).

Definition within (original next : Selector) (w : W) : Prop :=
  ∃ m, kept original next m ∧ at_labels m w.

Lemma within_same original next w w' :
  (∀ s, live w' s = live w s) → within original next w → within original next w'.
Proof. intros Hs (m & Hk & Ha). exists m. split; [done|]. by eapply at_labels_same. Qed.

Lemma keeps_at {E A} (m : io W E A) l (X : E → W → Prop) :
  keeps m → (∀ e w, at_labels l w → X e w) → triple (at_labels l) m (λ _, at_labels l) X.
Proof.
  intros Hm HX. eapply triple_weaken; [apply (Hm (at_labels l))|done|done|exact HX].
  intros w w'. apply at_labels_same.
Qed.

(** ** The overlap phase *)

Section Overlap.
Context (original next : Selector) (key : string).
Hypothesis original_keys : NoDup original.*1.
Hypothesis next_keys : NoDup next.*1.

Abbreviation overlap := (overlap_of original key).

Definition overlapping (w : W) : Prop :=
  at_labels (labels_of overlap) w ∨ at_labels (labels_of next) w.

Definition pass_post (r : ExecCaptureResult + option Z) (w : W) : Prop :=
  match r with
  | inl x => exitCode x = 0%Z ∧ at_labels (labels_of next) w
  | inr _ => at_labels (labels_of overlap) w
  end.

Ltac kept_step := eapply triple_bind; [apply keeps_at; [|by left]|intros ?].

Lemma warm_pass_at project neg path clear incoming labelled refs since :
  plain_ops clear →
  triple (at_labels (labels_of overlap))
    (warm_pass ns service project neg path overlap next clear incoming labelled refs since)
    pass_post (λ _, overlapping).
Proof.
  intros Hclear. unfold warm_pass. kept_step; [apply keeps_list_pods|].
  destruct (negb _); [apply triple_throw; by left|].
  kept_step; [apply keeps_all_healthy|]. kept_step.
  { destruct a0; [|apply keeps_ret]. destruct since; [apply keeps_ret|].
    apply keeps_bind; [apply keeps_sample, now_keeps|]. intros; apply keeps_ret. }
  destruct a1 as [t0|]; [|by apply triple_ret].
  kept_step; [apply keeps_sample, now_keeps|].
  destruct (_ <=? _)%Z; [|by apply triple_ret].
  eapply triple_bind.
  { eapply triple_weaken; [apply (replace_at overlap next clear); [by apply overlap_nodup|done|done]|done| |by left].
    intros x w H. exact H. }
  intros x. cbn beta. destruct (exitCode x =? 0)%Z eqn:Hx; cbn [negb].
  - apply Z.eqb_eq in Hx. eapply triple_bind.
    + eapply triple_weaken; [apply (keeps_cleanup path labelled (at_labels (labels_of next)))| | |].
      * intros w w'. apply at_labels_same.
      * done.
      * intros u w H. exact H.
      * intros e w H. by right.
    + intros u. by apply triple_ret.
  - by apply triple_throw.
Qed.

Lemma warm_loop_at pass deadline fuel since :
  (∀ s, triple (at_labels (labels_of overlap)) (pass s) pass_post (λ _, overlapping)) →
  triple (at_labels (labels_of overlap)) (warm_loop pass service deadline fuel since)
    (λ x w, exitCode x = 0%Z ∧ at_labels (labels_of next) w) (λ _, overlapping).
Proof.
  intros Hpass. revert since. induction fuel as [|fuel IH]; intros since; cbn;
    [apply triple_throw; by left|].
  kept_step; [apply keeps_sample, now_keeps|].
  destruct (_ <? _)%Z; [|apply triple_throw; by left].
  eapply triple_bind; [apply Hpass|]. intros [x|s]; cbn [pass_post]; [by apply triple_ret|].
  kept_step; [apply keeps_sample; intros w s'; apply sleep_keeps|]. apply IH.
Qed.

(** Sampling never throws. *)
Lemma sample_at {A E} (f : W → A * W) l (X : E → W → Prop) :
  (∀ w s, live (f w).2 s = live w s) → triple (at_labels l) (sample f) (λ _, at_labels l) X.
Proof.
  intros Hf w Hw. unfold sample. specialize (Hf w). destruct (f w) as [a w'].
  by apply (at_labels_same l w).
Qed.

(** What the catch block is left with. *)
Definition failed_at (p : progress) (w : W) : Prop :=
  if overlapAttempted p then at_labels (labels_of original) w ∨ overlapping w
  else at_labels (labels_of original) w.

Lemma during_keeps {A} p (m : io W string A) :
  keeps m → overlapAttempted p = false →
  triple (at_labels (labels_of original)) (during_try p m) (λ _, at_labels (labels_of original))
    (λ '(_, p) w, failed_at p w).
Proof.
  intros Hm Hp. eapply triple_catch; [apply keeps_at; [done|by intros e w H; exact H]|].
  intros e. apply triple_throw. intros w Hw. unfold failed_at. by rewrite Hp.
Qed.

Lemma label_pods_at path done pods :
  triple (at_labels (labels_of original)) (label_pods isIP ns path done pods)
    (λ _, at_labels (labels_of original)) (λ '(_, p) w, failed_at p w).
Proof.
  revert done. induction pods as [|p pods IH]; intros done; cbn; [by apply triple_ret|].
  eapply triple_bind; [apply during_keeps; [apply keeps_lift|reflexivity]|]. intros [name uid].
  eapply triple_bind; [apply during_keeps; [by apply keeps_command|reflexivity]|]. intros r.
  destruct (negb _); [|apply IH]. by apply triple_throw.
Qed.

Ltac try_step := eapply triple_bind; [apply during_keeps; [|reflexivity]|intros ?].

Lemma recovery_ops path value : plain_ops [patch_op "add" path (Some (JStr value))].
Proof. split; [by apply wf_check_sound|done]. Qed.

Lemma overlap_cutover_at annots projectId path recovery clear :
  plain_ops clear →
  triple (at_labels (labels_of original))
    (overlap_cutover isIP ns service original next annots projectId key path recovery clear)
    (λ x w, exitCode x = 0%Z ∧ at_labels (labels_of next) w) (λ '(_, p) w, failed_at p w).
Proof.
  intros Hclear. unfold overlap_cutover. destruct projectId as [project|]; [|by apply triple_throw].
  destruct (decide (project = "")) as [->|Hp]; [by apply triple_throw|].
  assert (∀ (B : Type) (a b : B), match project with "" => a | _ => b end = b) as ->
    by (intros; by destruct project).
  try_step; [apply keeps_lift|]. try_step; [apply keeps_lift|]. try_step; [apply keeps_lift|].
  try_step; [apply keeps_discover|]. destruct (_ =? _)%nat; [by apply triple_throw|].
  try_step; [apply keeps_list_pods|]. destruct (_ =? _)%nat; [by apply triple_throw|].
  try_step; [apply keeps_list_pods|]. eapply triple_bind; [apply label_pods_at|]. intros labelled.
  eapply triple_bind.
  { eapply triple_catch; [apply replace_at; [done|by apply overlap_nodup|apply recovery_ops]|].
    intros e. apply triple_throw. intros w Hw. by left. }
  intros x. cbn beta. destruct (exitCode x =? 0)%Z; cbn [negb].
  - eapply triple_bind.
    { apply (sample_at now (labels_of overlap)), now_keeps. }
    intros t. eapply triple_catch; [apply warm_loop_at; intros s; by apply warm_pass_at|].
    intros e. apply triple_throw. intros w Hw. by right.
  - apply triple_throw. intros w [H|H]; [by left|by right; left].
Qed.

(** ** The recovery *)

Definition recovering (w : W) : Prop := at_labels (labels_of original) w ∨ overlapping w.

Lemma recovering_same w w' : (∀ s, live w' s = live w s) → recovering w → recovering w'.
Proof.
  intros Hs [H|[H|H]]; [left|right; left|right; right]; by eapply at_labels_same.
Qed.

Lemma equal_strings (current : obj) (b : Selector) :
  equal current b = true → ∃ sel, mapM string_entry current = Some sel.
Proof.
  unfold equal. intros [_ H]%andb_true_iff. rewrite forallb_In in H.
  induction current as [|[k v] current IH]; [by eexists|].
  pose proof (H (k, v) (list_elem_of_here _ _)) as Hv. cbn in Hv. destruct v; try done.
  destruct IH as [sel Hs]; [intros f Hf; apply H; by right|].
  exists ((k, s) :: sel). cbn. by rewrite Hs.
Qed.

(** What a read of the Service tells when its selector equals a known one. *)
Lemma read_equal w r w' current b :
  execCapture "kubectl" (get_service_args ns service) w = (Returns r, w') → exitCode r = 0%Z →
  jget (jget (json_parse (stdout r)) "spec") "selector" = Some (JObj current) →
  NoDup b.*1 → equal current b = true →
  live w service = Some (labels_of b)
  ∧ ∃ sel, NoDup sel.*1 ∧ labels_of sel = labels_of b ∧ JObj current = selector_json sel.
Proof.
  intros He H0 Hj Hb Heq. destruct (equal_strings _ _ Heq) as [sel Hsel].
  destruct (get_shows service w r w' sel He H0) as [Hn Hl]; [by rewrite Hj|].
  destruct (equal_selector current sel b Hsel Hn Hb Heq) as [Hlab Hjson].
  rewrite Hl, Hlab. split; [done|]. by exists sel.
Qed.

(** Putting the original selector back over a known one. *)
Lemma put_back_at sel extra :
  NoDup sel.*1 → plain_ops extra →
  triple (λ w, recovering w ∧ live w service = Some (labels_of sel))
    (replace ns service sel original extra)
    (λ x w, if (exitCode x =? 0)%Z then at_labels (labels_of original) w else recovering w)
    (λ _, recovering).
Proof.
  intros Hn Hextra w [Hrec Hl]. assert (at_labels (labels_of sel) w) as Ha.
  { split; [done|]. by destruct Hrec as [[_ ?]|[[_ ?]|[_ ?]]]. }
  assert (∀ w', at_labels (labels_of sel) w' → recovering w') as Hback.
  { intros w' [Hl' Ho]. destruct Hrec as [[Hm _]|[[Hm _]|[Hm _]]]; rewrite Hm in Hl; injection Hl as Hl;
      [left|right; left|right; right]; by split; rewrite ?Hl. }
  pose proof (replace_at sel original extra Hn original_keys Hextra w Ha) as Hrep.
  destruct (replace _ _ _ _ _ w) as [[x|e] w']; [|by apply Hback].
  destruct (exitCode x =? 0)%Z; [done|]. destruct Hrep; [by apply Hback|by left].
Qed.

Lemma restore_overlap_at clear :
  plain_ops clear →
  triple recovering (restore_overlap ns service original next overlap clear)
    (λ b w, if b : bool then at_labels (labels_of original) w else recovering w) (λ _, recovering).
Proof.
  intros Hclear w Hrec. unfold restore_overlap, ibind at 1.
  destruct (execCapture "kubectl" (get_service_args ns service) w) as [r w1] eqn:He.
  assert (∀ s, live w1 s = live w s) as Hs by (by eapply other_commands).
  pose proof (recovering_same _ _ Hs Hrec) as Hrec1. destruct r as [r|e]; [|done].
  destruct (exitCode r =? 0)%Z eqn:H0; cbn [negb]; [|done]. apply Z.eqb_eq in H0.
  destruct (jget (jget _ "spec") "selector") as [[| | | | |current]|] eqn:Hj; try done.
  destruct (equal current original) eqn:Ho.
  { destruct (read_equal _ _ _ _ _ He H0 Hj original_keys Ho) as [Hl _]. cbn.
    split; [by rewrite Hs|]. by destruct Hrec1 as [[_ ?]|[[_ ?]|[_ ?]]]. }
  destruct (equal current overlap || equal current next) eqn:Hb; [|done].
  assert (∃ b, NoDup b.*1 ∧ equal current b = true) as (b & Hbn & Hbe).
  { apply orb_true_iff in Hb as [Hb|Hb]; [exists overlap|exists next]; split; try done.
    by apply overlap_nodup. }
  destruct (read_equal _ _ _ _ _ He H0 Hj Hbn Hbe) as (Hl & sel & Hn & Hlab & ->).
  change (patch_op "test" "/spec/selector" (Some (selector_json sel)) :: ?o :: ?e)
    with (swap_ops sel original e).
  set (extra := if equal current overlap then clear else []).
  assert (plain_ops extra) as Hextra by (unfold extra; by destruct (equal current overlap)).
  pose proof (put_back_at sel extra Hn Hextra w1) as Hp.
  unfold catch, ibind. unfold replace in Hp. destruct (execCapture "kubectl" _ w1) as [[x|e] w2].
  - specialize (Hp ltac:(split; [done|by rewrite Hs, Hlab])). cbn. by destruct (exitCode x =? 0)%Z.
  - exact (Hp ltac:(split; [done|by rewrite Hs, Hlab])).
Qed.
End Overlap.

Lemma recovering_within original next key w : recovering original next key w → within original next w.
Proof.
  intros [H|[H|H]]; eexists; (split; [|exact H]); [apply kept_original|apply kept_overlap|apply kept_next].
Qed.

Lemma original_within original next w : at_labels (labels_of original) w → within original next w.
Proof. intros H. eexists. split; [apply kept_original|done]. Qed.

Lemma generic_swap_at original next :
  NoDup original.*1 → NoDup next.*1 →
  triple (at_labels (labels_of original)) (replace ns service original next [])
    (λ x w, if (exitCode x =? 0)%Z then at_labels (labels_of next) w else within original next w)
    (λ _, within original next).
Proof.
  intros Ho Hn. eapply triple_weaken; [by apply replace_at|done| |].
  - intros x w. cbn. destruct (exitCode x =? 0)%Z; [done|].
    intros [H|H]; eexists; (split; [|exact H]); constructor.
  - intros e w. apply original_within.
Qed.

(** The replacement, whichever path the Service's annotations select. *)
Lemma replace_selector_at original next annots projectId :
  NoDup original.*1 → NoDup next.*1 →
  triple (at_labels (labels_of original))
    (replaceServiceSelector isIP ns service original next annots projectId)
    (λ x w, if (exitCode x =? 0)%Z then at_labels (labels_of next) w else within original next w)
    (λ _, within original next).
Proof.
  intros Ho Hn. unfold replaceServiceSelector.
  do 4 (eapply triple_bind; [apply keeps_at; [apply keeps_lift|intros e w; apply original_within]|intros ?]).
  destruct (negb _ && negb _); [by apply generic_swap_at|].
  destruct (_ && only_ingress _); [by apply generic_swap_at|].
  eapply triple_bind; [apply (sample_at randomUUID (labels_of original)), random_keeps|]. intros uuid.
  set (key := _ +:+ join "" _). set (clear := [patch_op "test" _ _; _]).
  assert (plain_ops clear) as Hclear by (split; [by apply wf_check_sound|done]). eapply triple_catch.
  { eapply triple_weaken; [by apply (overlap_cutover_at original next key)|done| |].
    - intros x w [Hx Hw]. apply Z.eqb_eq in Hx. by rewrite Hx.
    - intros e w H. exact H. }
  intros [message p]. cbn beta iota. eapply triple_bind with
    (R := λ (b : bool) w, if b then at_labels (labels_of original) w else recovering original next key w).
  - destruct (overlapAttempted p) eqn:Hp.
    + eapply triple_weaken; [by apply (restore_overlap_at original next key)| |done|].
      * intros w Hw. unfold failed_at in Hw. by rewrite Hp in Hw.
      * intros e w. apply recovering_within.
    + apply triple_ret. intros w Hw. unfold failed_at in Hw. by rewrite Hp in Hw.
  - intros clean. eapply triple_bind with (R := λ _, recovering original next key).
    + destruct clean.
      * eapply triple_weaken; [apply (keeps_at _ (labels_of original) (λ _, recovering original next key));
          [apply keeps_cleanup|intros e w H; by left]|intros w H; exact H|intros u w H; by left|].
        intros e w. apply recovering_within.
      * apply triple_ret. intros w H. exact H.
    + intros u. apply triple_ret. intros w. apply recovering_within.
Qed.
End OneService.

(** ** The warm-up ends *)

Section WarmUp.
Context {W : Type} `{!Exec W} `{!Surroundings W} (time : W → Z).
Hypothesis now_tells : ∀ w, (now w).1 = time w.
Hypothesis now_passes : ∀ w, (time w ≤ time (now w).2)%Z.
Hypothesis sleep_passes : ∀ d w, (time w + d ≤ time (sleep d w))%Z.

(** The warm-up always ends within its five minutes: each pass costs five seconds of sleep, so the
    loop reaches its deadline, or its result, before the fuel of 62 passes runs out, and more fuel
    changes nothing. *)
Theorem warm_up_terminates pass service start extra w :
  (∀ s w r w', pass s w = (r, w') → time w ≤ time w')%Z → (start ≤ time w)%Z →
  warm_loop pass service (start + WARMUP_MS) (warm_fuel + extra) None w
  = warm_loop pass service (start + WARMUP_MS) warm_fuel None w.
Proof.
  intros Hpass Hstart.
  assert (∀ fuel since w, (start + WARMUP_MS - 5000 * (Z.of_nat fuel - 1) ≤ time w)%Z → (fuel ≠ 0)%nat →
    warm_loop pass service (start + WARMUP_MS) (fuel + extra) since w
    = warm_loop pass service (start + WARMUP_MS) fuel since w) as H.
  { clear w Hstart. induction fuel as [|fuel IH]; intros since w Hw Hf; [done|].
    cbn [warm_loop Nat.add]. apply ibind_ext. intros t w1 Ht. unfold sample in Ht.
    pose proof (now_tells w) as Hnow. pose proof (now_passes w) as Hpast. destruct (now w) as [t' w1'].
    injection Ht as -> ->. cbn in Hnow, Hpast.
    destruct (t <? start + WARMUP_MS)%Z eqn:Hlt; [|done]. apply Z.ltb_lt in Hlt.
    apply ibind_ext. intros [x|s] w2 Hr; [done|]. apply Hpass in Hr.
    apply ibind_ext. intros u w3 [= <- <-]. pose proof (sleep_passes 5000 w2). apply IH; lia. }
  unfold warm_fuel. apply (H 62); [|done]. unfold WARMUP_MS in *. lia.
Qed.
End WarmUp.

(** ** Reading every Service *)

Section Switch.
Context {W : Type} `{!Exec W} `{!Surroundings W} {ns : string} `{!ServiceApi W ns} `{!Collaborators W}
  (isIP : string → Z) (releaseName : string) (projectId : option string).
Context (start : string → option labels).

(** Every Service is as at the start. *)
Definition unchanged (w : W) : Prop := ∀ s, live w s = start s.

(** What a snapshot knows is the truth, and without failures it is what the operator expects. *)
Definition sound (expected : option string) (s : snapshot) : Prop :=
  ∀ n sel, look (originalSelectors s) n = Some sel →
    NoDup sel.*1 ∧ start n = Some (labels_of sel)
    ∧ (failures s = [] → expected_mismatch expected sel = false).

Abbreviation name_of d := (service_name releaseName (servicePool d)).

Lemma snoc_not_nil {A} (l : list A) x : l ++ [x] ≠ [].
Proof. by destruct l. Qed.

Lemma read_service_shows r sel a :
  read_service r = (Some sel, a) →
  exitCode r = 0%Z ∧ parse_selector (jget (jget (json_parse (stdout r)) "spec") "selector") = Some sel.
Proof.
  unfold read_service. destruct (exitCode r =? 0)%Z eqn:H0; [|done]. apply Z.eqb_eq in H0.
  destruct (json_parse (stdout r)); [|done]. intros H. split; [done|exact (f_equal fst H)].
Qed.

Lemma observe_sound expected s d r w w' :
  unchanged w → execCapture "kubectl" (get_service_args ns (name_of d)) w = (Returns r, w') →
  sound expected s →
  sound expected (observe releaseName expected s d r)
  ∧ (failures (observe releaseName expected s d r) = [] →
     failures s = [] ∧ is_Some (look (originalSelectors (observe releaseName expected s d r)) (name_of d)))
  ∧ ∀ n, is_Some (look (originalSelectors s) n) →
         is_Some (look (originalSelectors (observe releaseName expected s d r)) n).
Proof.
  intros Hw He Hs. unfold observe. destruct (read_service r) as [[sel|] a] eqn:Hr.
  - apply read_service_shows in Hr as [H0 Hsel].
    destruct (get_shows _ w r w' sel He H0 Hsel) as [Hn Hl]. rewrite Hw in Hl.
    split_and!; cbn [failures originalSelectors].
    + intros n sel' Hlook. cbn in Hlook |- *. rewrite look_assign in Hlook.
      destruct (String.eqb_spec (name_of d) n) as [<-|].
      * injection Hlook as <-. split_and!; [done..|].
        destruct (expected_mismatch expected sel); [|done]. by intros ?%snoc_not_nil.
      * destruct (Hs n sel' Hlook) as (? & ? & Hexp). split_and!; [done..|].
        destruct (expected_mismatch expected sel); [|done]. by intros ?%snoc_not_nil.
    + destruct (expected_mismatch expected sel); [by intros ?%snoc_not_nil|].
      rewrite look_assign, String.eqb_refl. eauto.
    + intros n Hn'. rewrite look_assign. by destruct (String.eqb _ n); [eexists|].
  - split_and!; cbn [failures originalSelectors]; [|by intros ?%snoc_not_nil|done].
    intros n sel Hlook. destruct (Hs n sel Hlook) as (? & ? & _). split_and!; [done..|].
    by intros ?%snoc_not_nil.
Qed.

Lemma plainly_command args (I : W → Prop) :
  changes_service args = false → (∀ w w', (∀ s, live w' s = live w s) → I w → I w') →
  triple I (plainly (execCapture "kubectl" args)) (λ _, I) (λ _, I).
Proof.
  intros Ha HI. eapply triple_catch; [by apply (keeps_command "kubectl" args)|].
  intros e. by apply triple_throw.
Qed.

Lemma unchanged_same w w' : (∀ s, live w' s = live w s) → unchanged w → unchanged w'.
Proof. intros Hs Hw s. by rewrite Hs. Qed.

Lemma snapshot_at expected s ds :
  sound expected s →
  triple unchanged (snapshot_services releaseName ns expected s ds)
    (λ s' w, unchanged w ∧ sound expected s'
       ∧ (∀ n, is_Some (look (originalSelectors s) n) → is_Some (look (originalSelectors s') n))
       ∧ (failures s' = [] → failures s = []
          ∧ ∀ d, d ∈ ds → is_Some (look (originalSelectors s') (name_of d))))
    (λ _, unchanged).
Proof.
  revert s. induction ds as [|d ds IH]; intros s Hs w Hw; cbn [snapshot_services].
  - cbn. split_and!; try done. intros H. split; [done|]. by intros d ?%not_elem_of_nil.
  - unfold ibind at 1, plainly, catch.
    destruct (execCapture "kubectl" (get_service_args ns (name_of d)) w) as [[r|e] w1] eqn:He;
      [|cbn; eapply unchanged_same; [|done]; by eapply other_commands].
    assert (unchanged w1) as Hw1 by (eapply unchanged_same; [|done]; by eapply other_commands).
    destruct (observe_sound expected s d r w w1 Hw He Hs) as (Hs1 & Hf1 & Hm1).
    specialize (IH _ Hs1 w1 Hw1). destruct (snapshot_services _ _ _ _ _ w1) as [[s'|e] w2]; [|done].
    destruct IH as (Hw2 & Hs' & Hm' & Hf'). split_and!; [done|done|by auto|].
    intros H. destruct (Hf' H) as [H1 Hds]. destruct (Hf1 H1) as [H2 Hd]. split; [done|].
    intros d' [->|Hd']%elem_of_cons; auto.
Qed.

(** ** Replacing the selectors *)

Section Patching.
Context (s : snapshot) (expected : option string) (version : string) (ds : list destination).
Hypothesis s_sound : sound expected s.
Hypothesis s_complete : ∀ d, d ∈ ds → is_Some (look (originalSelectors s) (name_of d)).

Definition original_of (n : string) : Selector := default [] (look (originalSelectors s) n).
Abbreviation new_of d := (retarget (original_of (name_of d)) (targetPool d) version).

(** A Service is as at the start, or has a selector its replacement may leave. *)
Definition contained (n : string) (w : W) : Prop :=
  live w n = start n
  ∨ ∃ d m, d ∈ ds ∧ name_of d = n ∧ kept (original_of n) (new_of d) m ∧ live w n = Some m.

Definition logged (log : patch_log) (w : W) : Prop :=
  (∀ f, f ∈ log.1 → live w f.1 = Some (labels_of f.2) ∧ ∃ d, d ∈ ds ∧ name_of d = f.1 ∧ f.2 = new_of d)
  ∧ (∀ n, n ∉ log.1.*1 → n ∉ log.2.*2 → live w n = start n)
  ∧ (∀ n, contained n w).

Lemma original_start d :
  d ∈ ds → NoDup (original_of (name_of d)).*1 ∧ start (name_of d) = Some (labels_of (original_of (name_of d))).
Proof.
  intros Hd. destruct (s_complete d Hd) as [sel Hsel]. unfold original_of. rewrite Hsel.
  by destruct (s_sound _ _ Hsel) as (? & ? & _).
Qed.

Lemma retarget_nodup (sel : Selector) pool v : NoDup sel.*1 → NoDup (retarget sel pool v).*1.
Proof. intros H. unfold retarget. by do 2 apply assign_nodup. Qed.

(** A replacement of one Service, seen from all of them. *)
Lemma swap_at from to n :
  NoDup from.*1 → NoDup to.*1 → ∀ w, live w n = Some (labels_of from) →
  match swap isIP ns projectId s n from to w with
  | (Returns x, w') =>
      (∀ o, o ≠ n → live w' o = live w o)
      ∧ if (exitCode x =? 0)%Z then live w' n = Some (labels_of to)
        else ∃ m, kept from to m ∧ live w' n = Some m
  | (Throws _, w') => (∀ o, o ≠ n → live w' o = live w o) ∧ ∃ m, kept from to m ∧ live w' n = Some m
  end.
Proof.
  intros Hf Ht w Hl. unfold swap, plainly, catch.
  pose proof (replace_selector_at isIP n (live w) from to (look (annotations s) n) projectId Hf Ht w) as H.
  specialize (H (conj Hl (λ o _, eq_refl))).
  destruct (replaceServiceSelector _ _ _ _ _ _ _ w) as [[x|e] w'].
  - destruct (exitCode x =? 0)%Z; [by destruct H|]. destruct H as (m & Hk & Hm & Ho). eauto.
  - destruct H as (m & Hk & Hm & Ho). cbn. eauto.
Qed.

Lemma contained_step d w w' :
  d ∈ ds → (∀ o, o ≠ name_of d → live w' o = live w o) →
  (∃ m, kept (original_of (name_of d)) (new_of d) m ∧ live w' (name_of d) = Some m) →
  (∀ n, contained n w) → ∀ n, contained n w'.
Proof.
  intros Hd Ho (m & Hk & Hm) Hc n. destruct (decide (n = name_of d)) as [->|Hne].
  - right. exists d, m. done.
  - specialize (Hc n). unfold contained in *. by rewrite Ho.
Qed.

Lemma logged_patched log d w w1 :
  d ∈ ds → logged log w → name_of d ∉ log.1.*1 → (∀ o, o ≠ name_of d → live w1 o = live w o) →
  live w1 (name_of d) = Some (labels_of (new_of d)) →
  logged (log.1 ++ [(name_of d, new_of d)], log.2) w1.
Proof.
  intros Hd (H1 & H2 & H3) Hn Ho Hm. split_and!; cbn [fst snd].
  - intros f [Hf|Hf%list_elem_of_singleton]%elem_of_app; [|subst f; by split; [|exists d]].
    rewrite Ho; [auto|]. intros Heq. apply Hn. rewrite <- Heq. by apply (list_elem_of_fmap_2 fst _ f).
  - intros n Hn1 Hn2. rewrite fmap_app, elem_of_app in Hn1. cbn in Hn1. rewrite list_elem_of_singleton in Hn1.
    rewrite Ho by tauto. auto.
  - apply (contained_step d w); try done. eexists. split; [apply kept_next|done].
Qed.

Lemma logged_failed log d w w1 :
  d ∈ ds → logged log w → name_of d ∉ log.1.*1 → (∀ o, o ≠ name_of d → live w1 o = live w o) →
  (∃ m, kept (original_of (name_of d)) (new_of d) m ∧ live w1 (name_of d) = Some m) →
  logged (log.1, log.2 ++ [(servicePool d, name_of d)]) w1.
Proof.
  intros Hd (H1 & H2 & H3) Hn Ho Hm. split_and!; cbn [fst snd].
  - intros f Hf. rewrite Ho; [auto|]. intros Heq. apply Hn. rewrite <- Heq.
    by apply (list_elem_of_fmap_2 fst _ f).
  - intros n Hn1 Hn2. rewrite fmap_app, elem_of_app in Hn2. cbn in Hn2. rewrite list_elem_of_singleton in Hn2.
    rewrite Ho by tauto. auto.
  - by apply (contained_step d w).
Qed.

Lemma patch_services_at log rest :
  (∀ d, d ∈ rest → d ∈ ds) → NoDup (log.1.*1 ++ log.2.*2 ++ map (λ d, name_of d) rest) →
  triple (logged log) (patch_services isIP releaseName ns projectId s version log rest)
    (λ log' w, logged log' w ∧ log.1.*1 ++ log.2.*2 ++ map (λ d, name_of d) rest ≡ₚ log'.1.*1 ++ log'.2.*2)
    (λ _ w, ∀ n, contained n w).
Proof.
  revert log. induction rest as [|d rest IH]; intros log Hds Hnd w Hlog; cbn [patch_services map].
  { cbn. by rewrite app_nil_r. }
  destruct log as [patched failed]. cbn [fst snd map] in *.
  assert (name_of d ∉ patched.*1 ∧ name_of d ∉ failed.*2) as [Hnp Hnf].
  { apply NoDup_app in Hnd as (_ & H1 & H2). apply NoDup_app in H2 as (_ & H2 & _).
    split; intros Hin; [apply (H1 _ Hin), elem_of_app; right; left|apply (H2 _ Hin); left]. }
  assert (d ∈ ds) as Hd by (apply Hds; left).
  assert (∀ d', d' ∈ rest → d' ∈ ds) as Hrest by (intros d' Hd'; apply Hds; by right).
  destruct (original_start d Hd) as [Hnd0 Hst].
  assert (live w (name_of d) = Some (labels_of (original_of (name_of d)))) as Hlive.
  { destruct Hlog as (_ & Hlog2 & _). by rewrite Hlog2. }
  unfold ibind at 1. fold (original_of (name_of d)).
  pose proof (swap_at _ (new_of d) (name_of d) Hnd0 (retarget_nodup _ _ _ Hnd0) w Hlive) as Hswap.
  destruct (swap _ _ _ _ _ _ _ w) as [[x|e] w1]; destruct Hswap as [Ho Hm].
  2: { destruct Hlog as (_ & _ & Hc). by apply (contained_step d w). }
  assert (name_of d :: map (λ d, name_of d) rest = [name_of d] ++ map (λ d, name_of d) rest) as Hcons by done.
  rewrite Hcons in *. destruct (exitCode x =? 0)%Z.
  - pose proof (logged_patched (patched, failed) d w w1 Hd Hlog Hnp Ho Hm) as Hlog1.
    assert (patched.*1 ++ failed.*2 ++ [name_of d] ++ map (λ d, name_of d) rest
            ≡ₚ (patched ++ [(name_of d, new_of d)]).*1 ++ failed.*2 ++ map (λ d, name_of d) rest) as Hperm.
    { rewrite fmap_app, <- app_assoc. f_equiv. rewrite !(assoc_L (++)). f_equiv. apply Permutation_app_comm. }
    rewrite Hperm in Hnd.
    pose proof (IH (patched ++ [(name_of d, new_of d)], failed) Hrest Hnd w1 Hlog1) as H.
    destruct (patch_services _ _ _ _ _ _ _ _ w1) as [[log'|e] w2]; [|exact H].
    destruct H as [H1 H2]. split; [exact H1|by rewrite Hperm].
  - pose proof (logged_failed (patched, failed) d w w1 Hd Hlog Hnp Ho Hm) as Hlog1.
    assert (patched.*1 ++ failed.*2 ++ [name_of d] ++ map (λ d, name_of d) rest
            ≡ₚ patched.*1 ++ (failed ++ [(servicePool d, name_of d)]).*2 ++ map (λ d, name_of d) rest) as Hperm.
    { rewrite fmap_app, <- app_assoc. done. }
    rewrite Hperm in Hnd.
    pose proof (IH (patched, failed ++ [(servicePool d, name_of d)]) Hrest Hnd w1 Hlog1) as H.
    destruct (patch_services _ _ _ _ _ _ _ _ w1) as [[log'|e] w2]; [|exact H].
    destruct H as [H1 H2]. split; [exact H1|by rewrite Hperm].
Qed.

(** ** Putting them back *)

Lemma look_without {A} (m : list (string * A)) k k' :
  look (without m k) k' = if String.eqb k k' then None else look m k'.
Proof.
  unfold without. induction m as [|[k0 v] m IH]; cbn; [by destruct (String.eqb k k')|].
  destruct (String.eqb_spec k0 k) as [->|Hne]; cbn.
  - rewrite IH. by destruct (String.eqb k k').
  - rewrite IH. destruct (String.eqb_spec k0 k') as [->|]; [|done].
    by rewrite (proj2 (String.eqb_neq k k')).
Qed.

(** The overlap does not depend on the component and the version it started from. *)
Lemma overlap_retarget (sel : Selector) pool v key :
  labels_of (overlap_of (retarget sel pool v) key) = labels_of (overlap_of sel key).
Proof.
  apply map_eq. intros k. rewrite !look_labels. unfold overlap_of, retarget.
  rewrite !look_without, !look_assign.
  destruct (String.eqb COMPONENT k); [done|]. destruct (String.eqb VERSION k); [done|].
  by destruct (String.eqb key k).
Qed.

Lemma kept_back (sel : Selector) pool v m :
  kept (retarget sel pool v) sel m → kept sel (retarget sel pool v) m.
Proof. inversion 1; subst; [constructor..|]. rewrite overlap_retarget. constructor. Qed.

Lemma restore_services_at patched :
  NoDup patched.*1 →
  triple (λ w, (∀ n, contained n w)
             ∧ ∀ f, f ∈ patched → live w f.1 = Some (labels_of f.2)
                    ∧ ∃ d, d ∈ ds ∧ name_of d = f.1 ∧ f.2 = new_of d)
    (restore_services isIP ns projectId s patched)
    (λ _ w, ∀ n, contained n w) (λ _ w, ∀ n, contained n w).
Proof.
  induction patched as [|[n sel] patched IH]; intros Hnd w [Hc Hp]; [done|].
  cbn in Hnd. apply NoDup_cons in Hnd as [Hn Hnd].
  destruct (Hp _ (list_elem_of_here _ _)) as (Hl & d & Hd & Hdn & Hsel). cbn [fst snd] in Hl, Hdn, Hsel.
  destruct (original_start d Hd) as [Ho Hst]. cbn [restore_services]. fold (original_of n). subst n sel.
  unfold ibind at 1.
  pose proof (swap_at _ _ (name_of d) (retarget_nodup _ (targetPool d) version Ho) Ho w Hl) as Hswap.
  destruct (swap _ _ _ _ _ _ _ w) as [[x|e] w1]; destruct Hswap as [Hother Hm].
  2: { apply (contained_step d w); try done. destruct Hm as (m & Hk & Hm). exists m.
       split; [by apply kept_back|done]. }
  assert (∀ n, contained n w1) as Hc1.
  { apply (contained_step d w); try done. destruct (exitCode x =? 0)%Z.
    - eexists. split; [apply kept_original|done].
    - destruct Hm as (m & Hk & Hm). exists m. split; [by apply kept_back|done]. }
  assert (∀ f, f ∈ patched → live w1 f.1 = Some (labels_of f.2)
                    ∧ ∃ d, d ∈ ds ∧ name_of d = f.1 ∧ f.2 = new_of d) as Hp1.
  { intros f Hf. destruct (Hp f) as [Hlf Hdf]; [by right|]. rewrite Hother; [done|].
    intros Heq. apply Hn. rewrite <- Heq. by apply (list_elem_of_fmap_2 fst _ f). }
  unfold ibind. specialize (IH Hnd w1 (conj Hc1 Hp1)).
  by destruct (restore_services _ _ _ _ patched w1) as [[rest|e] w2].
Qed.
End Patching.

Lemma assign_fold (m : list (string * Selector)) l :
  NoDup (m ++ l).*1 → foldl (λ m f, assign m f.1 f.2) m l = m ++ l.
Proof.
  revert m. induction l as [|[k v] l IH]; intros m Hnd; cbn; [by rewrite app_nil_r|].
  assert (k ∉ m.*1) as Hk.
  { rewrite fmap_app in Hnd. apply NoDup_app in Hnd as (_ & Hd & _). intros Hin.
    apply (Hd _ Hin). left. }
  assert (assign m k v = m ++ [(k, v)]) as ->.
  { clear -Hk. induction m as [|[k0 v0] m IH]; cbn in *; [done|].
    apply not_elem_of_cons in Hk as [H1 H2]. rewrite (proj2 (String.eqb_neq k0 k)) by done. by rewrite IH. }
  rewrite IH; rewrite <- app_assoc; done.
Qed.

Lemma look_elem {A} (m : list (string * A)) k v : NoDup m.*1 → (k, v) ∈ m → look m k = Some v.
Proof.
  induction m as [|[k0 v0] m IH]; cbn; [by intros _ ?%not_elem_of_nil|].
  intros [Hn Hd]%NoDup_cons [Heq|Hin]%elem_of_cons; [simplify_eq; by rewrite String.eqb_refl|].
  destruct (String.eqb_spec k0 k) as [->|]; [|auto].
  destruct Hn. by apply (list_elem_of_fmap_2 fst _ (k, v)).
Qed.

Lemma last_selectors_id patched : NoDup patched.*1 → last_selectors patched = patched.
Proof.
  intros Hnd. unfold last_selectors. rewrite assign_fold by done. cbn [app].
  transitivity (map id patched); [|apply map_id]. apply map_ext_in.
  intros [k v] Hin%list_elem_of_In. cbn [fst]. by rewrite (look_elem _ _ _ Hnd Hin).
Qed.
End Switch.

Lemma NoDup_map_same {A B} (f : A → B) l x y :
  NoDup (map f l) → x ∈ l → y ∈ l → f x = f y → x = y.
Proof.
  induction l as [|z l IH]; cbn; [by intros _ ?%not_elem_of_nil|].
  intros [Hn Hd]%NoDup_cons [->|Hx]%elem_of_cons [->|Hy]%elem_of_cons Heq; try done; [| |auto].
  - destruct Hn. rewrite Heq. by apply (list_elem_of_fmap_2 f).
  - destruct Hn. rewrite <- Heq. by apply (list_elem_of_fmap_2 f).
Qed.

(** ** What a switch guarantees *)

Section Guarantees.
Context {W : Type} `{!Exec W} `{!Surroundings W} {ns : string} `{!ServiceApi W ns} `{!Collaborators W}
  (isIP : string → Z) (releaseName : string) (projectId : option string).
Context (restoreWarmedHpas : io W string unit).
Hypothesis edge_keeps : ∀ w s, live (restoreEdgeToPreviousBuild w).2 s = live w s.
Hypothesis hpas_keep : ∀ w s, live (restoreWarmedHpas w).2 s = live w s.
Context (safeBuildId : string) (expected : option string) (pools : list string) (origin : bool)
  (defaultPool : string).

Abbreviation ds := (switch_destinations pools origin defaultPool).
Abbreviation name_of d := (service_name releaseName (servicePool d)).
Abbreviation switch :=
  (switchTrafficToNewBuild isIP releaseName ns projectId restoreWarmedHpas safeBuildId expected pools origin defaultPool).

Hypothesis distinct_names : NoDup (map (λ d, name_of d) ds).

(** The end of a switch: aborted before any patch, aborted with the Services contained, or done. *)
Inductive switch_end (w w' : W) : outcome cutover_error unit → Prop :=
| switch_untouched e : (∀ n, live w' n = live w n) → switch_end w w' (Throws e)
| switch_aborted s e :
    sound (live w) expected s → failures s = [] →
    (∀ d, d ∈ ds → is_Some (look (originalSelectors s) (name_of d))) →
    (∀ n, contained releaseName (live w) s safeBuildId ds n w') → switch_end w w' (Throws e)
| switch_done s log :
    sound (live w) expected s → failures s = [] →
    (∀ d, d ∈ ds → is_Some (look (originalSelectors s) (name_of d))) →
    logged releaseName (live w) s safeBuildId ds log w' → log.2 = [] →
    map (λ d, name_of d) ds ≡ₚ log.1.*1 → switch_end w w' (Returns tt).

Lemma keeps_run {A} (m : io W string A) (I : W → Prop) :
  (∀ w s, live (m w).2 s = live w s) → (∀ w w', (∀ s, live w' s = live w s) → I w → I w') →
  triple I (plainly m) (λ _, I) (λ _, I).
Proof.
  intros Hm HI w Hw. unfold plainly, catch. specialize (Hm w).
  destruct (m w) as [[a|e] w']; by apply (HI w).
Qed.

Lemma contained_same start s n w w' :
  (∀ n, live w' n = live w n) → contained releaseName start s safeBuildId ds n w →
  contained releaseName start s safeBuildId ds n w'.
Proof. intros Hs. unfold contained. by rewrite !Hs. Qed.

Lemma abort_at (I : W → Prop) (restore : io W cutover_error (list string)) :
  triple I restore (λ _, I) (λ _, I) → (∀ w w', (∀ s, live w' s = live w s) → I w → I w') →
  triple I (do! _ := restore in do! _ := plainly restoreEdgeToPreviousBuild in
            do! _ := plainly restoreWarmedHpas in throw (CutoverExitError 1))
    (λ _ : unit, λ _, False) (λ _, I).
Proof.
  intros Hr HI. eapply triple_bind; [exact Hr|]. intros u.
  eapply triple_bind; [by apply keeps_run|]. intros u'.
  eapply triple_bind; [by apply keeps_run|]. intros u''. by apply triple_throw.
Qed.

Lemma switch_ends w res w' : switch w = (res, w') → switch_end w w' res.
Proof.
  unfold switchTrafficToNewBuild. cbv zeta. intros Hrun. unfold ibind at 1 in Hrun.
  assert (sound (live w) expected empty_snapshot) as H0 by (by intros n sel).
  pose proof (snapshot_at releaseName (live w) expected empty_snapshot ds H0 w (λ n, eq_refl)) as Hsnap.
  destruct (snapshot_services _ _ _ _ _ w) as [[s|e] w1].
  2: { injection Hrun as <- <-. by apply switch_untouched. }
  destruct Hsnap as (Hw1 & Hs & _ & Hf).
  destruct (length (failures s) =? 0)%nat eqn:Hlen.
  2: { unfold ibind at 1, ret at 1 in Hrun.
       assert (0 <? length (failures s) = true)%nat as Hlt by (destruct (failures s); done).
       rewrite Hlt in Hrun.
       pose proof (abort_at (unchanged (live w)) (restore_services isIP ns projectId s (last_selectors []))) as Ha.
       pose proof (triple_run _ _ _ _ _ _ _ (Ha ltac:(by apply triple_ret) (unchanged_same (live w))) Hw1 Hrun) as He.
       destruct res as [[]|e]; [done|]. by apply switch_untouched. }
  apply Nat.eqb_eq, nil_length_inv in Hlen. destruct (Hf Hlen) as [_ Hcomplete].
  unfold ibind at 1 in Hrun.
  assert (logged releaseName (live w) s safeBuildId ds ([], []) w1) as Hlog.
  { split_and!; [by intros f ?%not_elem_of_nil|intros n _ _; apply Hw1|intros n; left; apply Hw1]. }
  pose proof (patch_services_at isIP releaseName projectId (live w) s expected safeBuildId ds Hs Hcomplete
                ([], []) ds (λ d Hd, Hd) distinct_names w1 Hlog) as Hpatch.
  destruct (patch_services _ _ _ _ _ _ _ _ w1) as [[[patched failed]|e] w2].
  2: { injection Hrun as <- <-. by eapply switch_aborted. }
  destruct Hpatch as [Hlog2 Hperm]. cbn [fst snd app fmap list_fmap] in Hperm.
  destruct (0 <? length failed)%nat eqn:Hfailed.
  - assert (NoDup patched.*1) as Hnd.
    { pose proof distinct_names as Hn. rewrite Hperm in Hn. by apply NoDup_app in Hn as (Hn & _). }
    rewrite last_selectors_id in Hrun by done.
    unfold ibind at 1 in Hrun.
    pose proof (restore_services_at isIP releaseName projectId (live w) s expected safeBuildId ds Hs Hcomplete
                  patched Hnd w2) as Hrestore.
    destruct Hlog2 as (Hl1 & _ & Hl3). specialize (Hrestore (conj Hl3 Hl1)).
    destruct (restore_services _ _ _ _ patched w2) as [[names|e] w3].
    2: { injection Hrun as <- <-. by eapply switch_aborted. }
    pose proof (abort_at (λ w', ∀ n, contained releaseName (live w) s safeBuildId ds n w') (ret names)
      ltac:(by apply triple_ret)) as Ha.
    assert (∀ v v', (∀ s, live v' s = live v s) →
      (∀ n, contained releaseName (live w) s safeBuildId ds n v) →
      ∀ n, contained releaseName (live w) s safeBuildId ds n v') as Hsame.
    { intros v v' Hv Hc n. by eapply contained_same. }
    pose proof (triple_run _ _ _ _ w3 res w' (Ha Hsame) Hrestore Hrun) as He.
    destruct res as [[]|e]; [done|]. by eapply switch_aborted.
  - injection Hrun as <- <-. destruct failed; [|done]. rewrite app_nil_r in Hperm.
    by eapply (switch_done _ _ s (patched, [])).
Qed.

(** A Service's selector after its replacement, and during its overlap. *)
Definition retargeted (d : destination) (m : labels) : labels :=
  <[VERSION := safeBuildId]> (<[COMPONENT := targetPool d]> m).
Definition overlapped (key : string) (m : labels) : labels :=
  delete COMPONENT (delete VERSION (<[key := "1"]> m)).

Lemma without_labels (sel : Selector) k : labels_of (without sel k) = delete k (labels_of sel).
Proof.
  apply map_eq. intros k'. rewrite look_labels, look_without.
  destruct (String.eqb_spec k k') as [->|]; [by rewrite lookup_delete_eq|].
  by rewrite lookup_delete_ne, look_labels.
Qed.

Lemma retarget_labels d (sel : Selector) :
  labels_of (retarget sel (targetPool d) safeBuildId) = retargeted d (labels_of sel).
Proof. unfold retarget, retargeted. by rewrite !assign_labels. Qed.

Lemma overlap_labels key (sel : Selector) : labels_of (overlap_of sel key) = overlapped key (labels_of sel).
Proof. unfold overlap_of, overlapped. by rewrite !without_labels, assign_labels. Qed.

Lemma original_live w s d :
  sound (live w) expected s → is_Some (look (originalSelectors s) (name_of d)) →
  live w (name_of d) = Some (labels_of (original_of s (name_of d)))
  ∧ (failures s = [] → expected_mismatch expected (original_of s (name_of d)) = false).
Proof.
  intros Hs [sel Hsel]. unfold original_of. rewrite Hsel. by destruct (Hs _ _ Hsel) as (_ & ? & ?).
Qed.

Lemma mismatch_false b sel :
  expected = Some b → b ≠ "" → expected_mismatch expected sel = false →
  labels_of sel !! VERSION = Some (sanitizeK8sName b "").
Proof.
  intros -> Hb. unfold expected_mismatch. rewrite look_labels.
  rewrite (proj2 (String.eqb_neq b "")) by done. cbn [negb andb].
  intros H%negb_false_iff. by apply bool_decide_eq_true in H.
Qed.

(** What a switch that returns has done. *)
Lemma switch_all w w' :
  switch w = (Returns tt, w') →
  (∀ d, d ∈ ds → ∃ m, live w (name_of d) = Some m
     ∧ (∀ b, expected = Some b → b ≠ "" → m !! VERSION = Some (sanitizeK8sName b ""))
     ∧ live w' (name_of d) = Some (retargeted d m))
  ∧ ∀ n, n ∉ map (λ d, name_of d) ds → live w' n = live w n.
Proof.
  intros Hend%switch_ends. inversion Hend as [| |s log Hs Hf Hc Hlog Hfailed Hperm]; subst.
  destruct Hlog as (Hl1 & Hl2 & _). split.
  - intros d Hd. destruct (original_live w s d Hs (Hc d Hd)) as [Hlive Hexp].
    eexists. split_and!; [exact Hlive|intros b Hb Hne; eapply mismatch_false; eauto|].
    assert (name_of d ∈ log.1.*1) as Hin.
    { rewrite <- Hperm. by apply (list_elem_of_fmap_2 (λ d, name_of d)). }
    apply list_elem_of_fmap in Hin as (f & Hfn & Hin).
    destruct (Hl1 f Hin) as (Hlf & d' & Hd' & Hdn & Hsel). rewrite <- Hfn in Hlf, Hdn.
    assert (d' = d) as -> by (by eapply NoDup_map_same).
    by rewrite Hlf, Hsel, retarget_labels.
  - intros n Hn. apply Hl2; [by rewrite <- Hperm|rewrite Hfailed; apply not_elem_of_nil].
Qed.

(** C5. A switch that returns has switched everything: every Service of the topology selects its pool
    of the new build and keeps its other labels, each selected the expected build before, and no
    other Service has changed. *)
Theorem switch_complete w w' :
  switch w = (Returns tt, w') →
  (∀ d, d ∈ ds → ∃ m, live w (name_of d) = Some m
     ∧ (∀ b, expected = Some b → b ≠ "" → m !! VERSION = Some (sanitizeK8sName b ""))
     ∧ live w' (name_of d) = Some (retargeted d m))
  ∧ ∀ n, n ∉ map (λ d, name_of d) ds → live w' n = live w n.
Proof. apply switch_all. Qed.

(** A Service that no longer selects the build the operation started from aborts the switch
    before any patch: every selector stays as it is. *)
Theorem moved_service_aborts w res w' d b m :
  switch w = (res, w') → d ∈ ds → expected = Some b → b ≠ "" →
  live w (name_of d) = Some m → m !! VERSION ≠ Some (sanitizeK8sName b "") →
  (∃ e, res = Throws e) ∧ ∀ n, live w' n = live w n.
Proof.
  intros Hend%switch_ends Hd Hb Hne Hm Hv.
  assert (∀ s, sound (live w) expected s → failures s = [] →
    (∀ d, d ∈ ds → is_Some (look (originalSelectors s) (name_of d))) → False) as Hno.
  { intros s Hs Hf Hc. destruct (original_live w s d Hs (Hc d Hd)) as [Hlive Hexp].
    rewrite Hlive in Hm. injection Hm as <-. apply Hv. eapply mismatch_false; eauto. }
  inversion Hend; subst; [by eauto|exfalso; eauto|exfalso; eauto].
Qed.

(** Whatever the commands answer, a switch leaves each Service with its old selector, its new one,
    or the overlap that selects the labelled pods of both builds, and touches no other Service. *)
Theorem switch_contained w res w' n :
  switch w = (res, w') →
  live w' n = live w n
  ∨ ∃ d m key, d ∈ ds ∧ name_of d = n ∧ live w n = Some m
      ∧ (live w' n = Some (retargeted d m) ∨ live w' n = Some (overlapped key m)).
Proof.
  intros Hend%switch_ends.
  assert (∀ s, sound (live w) expected s →
    (∀ d, d ∈ ds → is_Some (look (originalSelectors s) (name_of d))) →
    contained releaseName (live w) s safeBuildId ds n w' →
    live w' n = live w n
    ∨ ∃ d m key, d ∈ ds ∧ name_of d = n ∧ live w n = Some m
        ∧ (live w' n = Some (retargeted d m) ∨ live w' n = Some (overlapped key m))) as Hcont.
  { intros s Hs Hc [H|(d & m & Hd & <- & Hk & Hm)]; [by left|].
    destruct (original_live w s d Hs (Hc d Hd)) as [Hlive _]. inversion Hk as [Hk1|Hk1|key Hk1]; subst.
    - left. congruence.
    - right. exists d, (labels_of (original_of s (name_of d))), "". rewrite <- retarget_labels. auto.
    - right. exists d, (labels_of (original_of s (name_of d))), key. rewrite <- overlap_labels. auto. }
  inversion Hend as [e Hsame|s e Hs Hf Hc Hcon|s log Hs Hf Hc Hlog]; subst; [by left|eauto|].
  destruct Hlog as (_ & _ & Hcon). eauto.
Qed.
End Guarantees.

(** ** All or nothing *)

Section AllOrNothing.
Context {W : Type} `{!Exec W} `{!Surroundings W} {ns : string} `{!ServiceApi W ns} `{!Collaborators W}
  (isIP : string → Z) (releaseName : string) (projectId : option string).
Context (accepts : string → Prop).
Hypothesis patches_answer : ∀ n from to w r w',
  execCapture "kubectl" (patch_service_args ns n (swap_ops from to [])) w = (r, w') →
  NoDup from.*1 → NoDup to.*1 →
  ∃ x, r = Returns x
    ∧ (exitCode x = 0%Z ↔ accepts n ∧ live w n = Some (labels_of from))
    ∧ (exitCode x ≠ 0%Z → ∀ s, live w' s = live w s).
Hypothesis generic_services : ∀ n w r w' a,
  execCapture "kubectl" (get_service_args ns n) w = (Returns r, w') → (read_service r).2 = Some a →
  annotated (Some a) ANNOTATION_NEG = false ∧ annotated (Some a) ANNOTATION_NEG_STATUS = false.

Abbreviation name_of d := (service_name releaseName (servicePool d)).

Definition generic (s : snapshot) : Prop := ∀ n,
  annotated (look (annotations s) n) ANNOTATION_NEG = false
  ∧ annotated (look (annotations s) n) ANNOTATION_NEG_STATUS = false.

Definition plain_error (e : cutover_error) : Prop := ∃ m, e = PlainError m.

Lemma observe_annotations expected s d r :
  annotations (observe releaseName expected s d r)
  = match (read_service r).2 with
    | Some a => assign (annotations s) (name_of d) a
    | None => annotations s
    end.
Proof. unfold observe. by destruct (read_service r) as [[] ?]. Qed.

Lemma snapshot_generic expected s ds :
  generic s →
  triple (λ _, True) (snapshot_services releaseName ns expected s ds) (λ s' _, generic s') (λ e _, plain_error e).
Proof.
  revert s. induction ds as [|d ds IH]; intros s Hs w _; cbn [snapshot_services]; [done|].
  unfold ibind at 1, plainly, catch.
  destruct (execCapture "kubectl" _ w) as [[r|e] w1] eqn:He; [|by eexists].
  apply IH; [|done]. intros n. rewrite observe_annotations.
  destruct (read_service r).2 as [a|] eqn:Ha; [|apply Hs]. rewrite look_assign.
  destruct (String.eqb_spec (name_of d) n) as [<-|]; [|apply Hs]. by eapply generic_services.
Qed.

Lemma generic_swap s n from to w :
  generic s → NoDup from.*1 → NoDup to.*1 → live w n = Some (labels_of from) →
  match swap isIP ns projectId s n from to w with
  | (Returns x, w') =>
      if (exitCode x =? 0)%Z
      then accepts n ∧ live w' n = Some (labels_of to) ∧ ∀ o, o ≠ n → live w' o = live w o
      else ∀ o, live w' o = live w o
  | (Throws e, w') => plain_error e
  end.
Proof.
  intros Hs Hf Ht Hl. destruct (swap isIP ns projectId s n from to w) as [[x|e] w'] eqn:Hswap.
  2: { unfold swap, plainly, catch in Hswap. destruct (replaceServiceSelector _ _ _ _ _ _ _ w) as [[]];
       [done|]. injection Hswap as <- _. by eexists. }
  unfold swap, plainly, catch in Hswap.
  destruct (replaceServiceSelector _ _ _ _ _ _ _ w) as [[x'|] w1] eqn:Hrep; [|done].
  injection Hswap as -> ->. unfold replaceServiceSelector in Hrep.
  do 4 (apply ibind_Returns in Hrep as (? & ? & Hlift & Hrep); injection Hlift as _ <-).
  destruct (Hs n) as [H1 H2]. rewrite H1, H2 in Hrep. cbn [negb andb] in Hrep. unfold replace in Hrep.
  pose proof Hrep as Hex. apply patches_answer in Hrep as (y & [= <-] & Hiff & Hsame); [|done..].
  apply patch_swaps in Hex as [Hother Hcase]; [|done|done|by split].
  destruct (exitCode x =? 0)%Z eqn:H0; [apply Z.eqb_eq in H0|apply Z.eqb_neq in H0; auto].
  destruct (proj1 Hiff H0) as [Hacc _]. split_and!; [done| |done].
  destruct Hcase as [[Hne _]|(_ & _ & Hto)]; done.
Qed.

(** ** The loops when failing patches have no effect *)

Section Loops.
Context (start : string → option labels) (s : snapshot) (expected : option string) (version : string)
  (ds : list destination).
Hypothesis s_sound : sound start expected s.
Hypothesis s_complete : ∀ d, d ∈ ds → is_Some (look (originalSelectors s) (name_of d)).
Hypothesis s_generic : generic s.

Abbreviation new_of d := (retarget (original_of s (name_of d)) (targetPool d) version).

(** Exactly the patched Services have changed, and each of them accepts patches. *)
Definition exactly (patched : list (string * Selector)) (w : W) : Prop :=
  (∀ f, f ∈ patched → accepts f.1 ∧ live w f.1 = Some (labels_of f.2)
                      ∧ ∃ d, d ∈ ds ∧ name_of d = f.1 ∧ f.2 = new_of d)
  ∧ ∀ n, n ∉ patched.*1 → live w n = start n.

Lemma patch_exactly log rest :
  (∀ d, d ∈ rest → d ∈ ds) → NoDup (log.1.*1 ++ map (λ d, name_of d) rest) →
  triple (exactly log.1) (patch_services isIP releaseName ns projectId s version log rest)
    (λ log', exactly log'.1) (λ e _, plain_error e).
Proof.
  revert log. induction rest as [|d rest IH]; intros [patched failed] Hds Hnd w [He1 He2];
    cbn [patch_services map fst snd] in *; [done|].
  assert (d ∈ ds) as Hd by (apply Hds; left).
  assert (∀ d', d' ∈ rest → d' ∈ ds) as Hrest by (intros d' Hd'; apply Hds; by right).
  destruct (original_start releaseName start s expected ds s_sound s_complete d Hd) as [Hnd0 Hst].
  assert (name_of d ∉ patched.*1) as Hn.
  { apply NoDup_app in Hnd as (_ & H & _). intros Hin. apply (H _ Hin). left. }
  unfold ibind at 1. fold (original_of s (name_of d)).
  pose proof (generic_swap s (name_of d) _ (new_of d) w s_generic Hnd0 (retarget_nodup _ _ _ Hnd0)
                ltac:(by rewrite He2)) as Hswap.
  destruct (swap _ _ _ _ _ _ _ w) as [[x|e] w1]; [|done].
  destruct (exitCode x =? 0)%Z.
  - destruct Hswap as (Hacc & Hto & Hother). apply IH; [done| |]; cbn [fst].
    + rewrite fmap_app, <- app_assoc. exact Hnd.
    + split.
      * intros f [Hf|Hf%list_elem_of_singleton]%elem_of_app.
        -- rewrite Hother; [auto|]. intros Heq. apply Hn. rewrite <- Heq.
           by apply (list_elem_of_fmap_2 fst _ f).
        -- subst f. split_and!; [done..|]. by exists d.
      * intros n Hin. rewrite fmap_app, elem_of_app in Hin. cbn in Hin.
        rewrite list_elem_of_singleton in Hin. rewrite Hother by tauto. apply He2. tauto.
  - apply IH; [done| |]; cbn [fst].
    + apply NoDup_app in Hnd as (H1 & H2 & H3). apply NoDup_cons in H3 as [_ H3].
      apply NoDup_app. split_and!; [done| |done]. intros n Hin Hin'. apply (H2 _ Hin). by right.
    + split; [intros f Hf; rewrite Hswap; auto|intros n Hin; rewrite Hswap; auto].
Qed.

Lemma restore_exactly patched :
  NoDup patched.*1 →
  triple (exactly patched) (restore_services isIP ns projectId s patched)
    (λ _ w, ∀ n, live w n = start n) (λ e _, plain_error e).
Proof.
  induction patched as [|[n sel] patched IH]; intros Hnd w [He1 He2].
  { cbn. intros n. apply He2, not_elem_of_nil. }
  cbn in Hnd. apply NoDup_cons in Hnd as [Hn Hnd].
  destruct (He1 _ (list_elem_of_here _ _)) as (Hacc & Hl & d & Hd & Hdn & Hsel). cbn [fst snd] in *.
  destruct (original_start releaseName start s expected ds s_sound s_complete d Hd) as [Ho Hst].
  cbn [restore_services]. fold (original_of s n). subst n sel. unfold ibind at 1.
  pose proof (generic_swap s (name_of d) _ _ w s_generic (retarget_nodup _ (targetPool d) version Ho) Ho Hl)
    as Hswap.
  destruct (swap isIP ns projectId s (name_of d) _ _ w) as [[x|e] w1] eqn:Hrun; [|done].
  assert (exitCode x = 0%Z) as H0.
  { unfold swap, plainly, catch in Hrun.
    destruct (replaceServiceSelector _ _ _ _ _ _ _ w) as [[x'|] w1'] eqn:Hrep; [|done].
    injection Hrun as -> ->. unfold replaceServiceSelector in Hrep.
    do 4 (apply ibind_Returns in Hrep as (? & ? & Hlift & Hrep); injection Hlift as _ <-).
    destruct (s_generic (name_of d)) as [H1 H2]. rewrite H1, H2 in Hrep. cbn [negb andb] in Hrep.
    apply patches_answer in Hrep as (y & [= <-] & Hiff & _); [by apply Hiff| |done].
    by apply retarget_nodup. }
  rewrite H0 in Hswap. destruct Hswap as (_ & Hto & Hother).
  assert (exactly patched w1) as Hex.
  { split.
    - intros f Hf. destruct (He1 f) as (Ha & Hlf & Hdf); [by right|]. rewrite Hother; [done|].
      intros Heq. apply Hn. rewrite <- Heq. by apply (list_elem_of_fmap_2 fst _ f).
    - intros n Hin. destruct (decide (n = name_of d)) as [->|Hne]; [congruence|].
      rewrite Hother by done. apply He2. cbn. intros [?|?]%elem_of_cons; done. }
  specialize (IH Hnd w1 Hex). unfold ibind. by destruct (restore_services _ _ _ _ patched w1) as [[] w2].
Qed.
End Loops.

(** The abort after a restoration. *)
Lemma abort_restored (restoreWarmedHpas : io W string unit) start (P : W → Prop) (restore : io W cutover_error (list string)) :
  (∀ w s, live (restoreEdgeToPreviousBuild w).2 s = live w s) →
  (∀ w s, live (restoreWarmedHpas w).2 s = live w s) →
  triple P restore (λ _ w, ∀ n, live w n = start n) (λ e _, plain_error e) →
  triple P (do! _ := restore in do! _ := plainly restoreEdgeToPreviousBuild in
            do! _ := plainly restoreWarmedHpas in throw (CutoverExitError 1))
    (λ _ : unit, λ _, False)
    (λ e w, plain_error e ∨ (e = CutoverExitError 1 ∧ ∀ n, live w n = start n)).
Proof.
  intros Hedge Hhpas Hr. eapply triple_bind.
  { eapply triple_weaken; [exact Hr|done|intros u w H; exact H|by left]. }
  intros u.
  assert (∀ m : io W string unit, (∀ w s, live (m w).2 s = live w s) →
    triple (λ w, ∀ n, live w n = start n) (plainly m) (λ _ w, ∀ n, live w n = start n)
      (λ e w, plain_error e ∨ (e = CutoverExitError 1 ∧ ∀ n, live w n = start n))) as Hstep.
  { intros m Hm w Hw. unfold plainly, catch. specialize (Hm w).
    destruct (m w) as [[a|e] w']; [intros n; by rewrite Hm|left; by eexists]. }
  eapply triple_bind; [by apply Hstep|]. intros u'.
  eapply triple_bind; [by apply Hstep|]. intros u''. apply triple_throw. by right.
Qed.

End AllOrNothing.

(** C29. Replacing a selector is safe on every path.  From its original selector, a Service ends with
    the new one when the result is a success, and otherwise with the original, the new one, or the
    overlap of both builds; no other Service changes. *)
Theorem selector_swap_contract {W} `{!Exec W} `{!Surroundings W} {ns} `{!ServiceApi W ns}
    (isIP : string → Z) service original next annots projectId (w w' : W) res :
  NoDup original.*1 → NoDup next.*1 → live w service = Some (labels_of original) →
  replaceServiceSelector isIP ns service original next annots projectId w = (res, w') →
  (∀ o, o ≠ service → live w' o = live w o)
  ∧ (∀ x, res = Returns x → exitCode x = 0%Z → live w' service = Some (labels_of next))
  ∧ ∃ m, kept original next m ∧ live w' service = Some m.
Proof.
  intros Ho Hn Hl Hrun.
  pose proof (triple_run _ _ _ _ _ _ _
    (replace_selector_at isIP service (live w) original next annots projectId Ho Hn)
    (conj Hl (λ o _, eq_refl)) Hrun) as H.
  destruct res as [x|e].
  - destruct (exitCode x =? 0)%Z eqn:Hx.
    + destruct H as [H1 H2]. split_and!; [done|by intros ? [= <-]|]. eexists. split; [apply kept_next|done].
    + apply Z.eqb_neq in Hx. destruct H as (m & Hk & H1 & H2).
      split_and!; [done|by intros ? [= <-]|eauto].
  - destruct H as (m & Hk & H1 & H2). split_and!; [done|done|eauto].
Qed.

(** ** A cluster *)

(** Services with their selectors, and a clock; the Service [frozen] refuses every patch. *)
Record cluster := mkCluster { services : list (string * labels); clock : Z }.

Definition frozen : string := "shop-frozen".

Definition service_document (m : labels) : json :=
  JObj [("spec", JObj [("selector", selector_json (map_to_list m))])].

Definition answers (code : Z) (out : string) : outcome string ExecCaptureResult :=
  Returns (mkResult code out "" false).

(** The two selectors of a patch. *)
Definition swap_of (text : string) : option (Selector * Selector) :=
  match json_parse text with
  | Some (JArr (t :: r :: _)) =>
      match parse_selector (jget (Some t) "value"), parse_selector (jget (Some r) "value") with
      | Some from, Some to => Some (from, to)
      | _, _ => None
      end
  | _ => None
  end.

Definition run_patch (name text : string) (w : cluster) : outcome string ExecCaptureResult * cluster :=
  match swap_of text, look (services w) name with
  | Some (from, to), Some m =>
      if bool_decide (m = labels_of from) && negb (String.eqb name frozen)
      then (answers 0 "", mkCluster (assign (services w) name (labels_of to)) (clock w))
      else (answers 1 "", w)
  | _, _ => (answers 1 "", w)
  end.

#[global] Instance cluster_exec : Exec cluster := {
  execCapture cmd args w :=
    if changes_service args then run_patch (nth 2 args "") (List.last args "") w
    else (if bool_decide (args = get_service_args "default" (nth 2 args ""))
          then match look (services w) (nth 2 args "") with
               | Some m => answers 0 (stringify (service_document m))
               | None => answers 1 ""
               end
          else answers 1 "", w);
  execCaptureStdin cmd args text w := (answers 1 "", w)
}.

#[global] Instance cluster_surroundings : Surroundings cluster := {
  now w := (clock w, w);
  sleep d w := mkCluster (services w) (clock w + d);
  randomUUID w := ("3f0c", w);
  discover project neg := ret [];
  healthy project ref neg := ret []
}.

#[global] Instance cluster_collaborators : Collaborators cluster := {
  restoreEdgeToPreviousBuild := ret tt;
  revertRoutingServiceToBuild b := ret tt
}.

Lemma parse_selector_json (s : Selector) : parse_selector (Some (selector_json s)) = Some s.
Proof.
  cbn [parse_selector selector_json]. induction s as [|[k v] s IH]; [done|].
  cbn. cbn in IH. unfold selector_json in *. by rewrite IH.
Qed.

Lemma selector_json_keys (s : Selector) : (map (λ f, (f.1, JStr f.2)) s).*1 = s.*1.
Proof. induction s as [|f s IH]; [done|]. cbn. by rewrite <- IH. Qed.

Lemma selector_json_wf (s : Selector) : NoDup s.*1 → wf_json (selector_json s).
Proof.
  intros H. apply wf_obj. rewrite selector_json_keys. split; [done|].
  apply Forall_forall. by intros f (g & -> & _)%list_elem_of_fmap.
Qed.

Lemma selector_json_canonical (s : Selector) : canonical (selector_json s) = true.
Proof. cbn. apply forallb_In. by intros f (g & -> & _)%list_elem_of_fmap. Qed.

Lemma patch_op_wf op path v : wf_json v → wf_json (patch_op op path (Some v)).
Proof.
  intros Hv. apply wf_obj. split; [by apply (bool_decide_unpack (NoDup ["op"; "path"; "value"]))|].
  constructor; [done|]. constructor; [done|]. by constructor.
Qed.

Lemma swap_of_ops from to extra :
  NoDup from.*1 → NoDup to.*1 → plain_ops extra →
  swap_of (stringify (JArr (swap_ops from to extra))) = Some (from, to).
Proof.
  intros Hf Ht [Hw Hc]. unfold swap_of. rewrite parse_stringify.
  - unfold swap_ops.
    change (jget (Some (patch_op _ _ (Some (selector_json from)))) "value") with (Some (selector_json from)).
    change (jget (Some (patch_op _ _ (Some (selector_json to)))) "value") with (Some (selector_json to)).
    by rewrite !parse_selector_json.
  - apply wf_arr. apply wf_arr in Hw.
    constructor; [by apply patch_op_wf, selector_json_wf|].
    constructor; [by apply patch_op_wf, selector_json_wf|done].
  - cbn in Hc |- *. pose proof (selector_json_canonical from) as H1.
    pose proof (selector_json_canonical to) as H2. cbn in H1, H2. by rewrite H1, H2, Hc.
Qed.

Lemma get_runs n (w : cluster) :
  execCapture "kubectl" (get_service_args "default" n) w
  = (match look (services w) n with
     | Some m => answers 0 (stringify (service_document m))
     | None => answers 1 ""
     end, w).
Proof.
  change (execCapture "kubectl" (get_service_args "default" n) w) with
    (if bool_decide (get_service_args "default" n = get_service_args "default" n)
     then match look (services w) n with
          | Some m => answers 0 (stringify (service_document m))
          | None => answers 1 ""
          end
     else answers 1 "", w).
  by rewrite bool_decide_eq_true_2.
Qed.

Lemma patch_runs n from to extra (w : cluster) :
  NoDup from.*1 → NoDup to.*1 → plain_ops extra →
  execCapture "kubectl" (patch_service_args "default" n (swap_ops from to extra)) w
  = match look (services w) n with
    | Some m =>
        if bool_decide (m = labels_of from) && negb (String.eqb n frozen)
        then (answers 0 "", mkCluster (assign (services w) n (labels_of to)) (clock w))
        else (answers 1 "", w)
    | None => (answers 1 "", w)
    end.
Proof.
  intros Hf Ht He.
  change (execCapture "kubectl" (patch_service_args "default" n (swap_ops from to extra)) w)
    with (run_patch n (stringify (JArr (swap_ops from to extra))) w).
  unfold run_patch. rewrite swap_of_ops by done. by destruct (look (services w) n).
Qed.

Lemma document_parses m :
  json_parse (stringify (service_document m)) = Some (service_document m).
Proof.
  apply parse_stringify.
  - apply wf_obj. split; [apply NoDup_singleton|]. constructor; [|done].
    apply wf_obj. split; [apply NoDup_singleton|]. constructor; [|done].
    apply selector_json_wf, NoDup_fst_map_to_list.
  - unfold service_document. pose proof (selector_json_canonical (map_to_list m)) as H.
    revert H. generalize (selector_json (map_to_list m)). intros j H. cbn. by rewrite H.
Qed.

#[global] Instance cluster_api : ServiceApi cluster "default".
Proof.
  refine {| live := λ w n, look (services w) n |}; try done.
  - intros service w r w' sel. rewrite get_runs.
    destruct (look (services w) service) as [m|] eqn:Hm; [|by intros [= <- _]].
    intros [Hr _]%pair_equal_spec _. unfold answers in Hr.
    assert (r = mkResult 0 (stringify (service_document m)) "" false) as -> by congruence.
    cbn [stdout]. rewrite document_parses.
    change (jget (jget (Some (service_document m)) "spec") "selector")
      with (Some (selector_json (map_to_list m))).
    rewrite parse_selector_json. intros [= <-].
    split; [apply NoDup_fst_map_to_list|by rewrite list_to_map_to_list].
  - intros service from to extra w r w' Hrun Hf Ht Hextra. rewrite patch_runs in Hrun by done.
    destruct (look (services w) service) as [m|] eqn:Hm; [|injection Hrun as <- <-; by split; [|left]].
    destruct (bool_decide (m = labels_of from)) eqn:Hmf; [|injection Hrun as <- <-; by split; [|left]].
    apply bool_decide_eq_true in Hmf as ->. destruct (negb _); injection Hrun as <- <-; [|by split; [|left]].
    cbn [services]. split; [|right].
    + intros o Ho. rewrite look_assign. by rewrite (proj2 (String.eqb_neq service o)).
    + rewrite look_assign, String.eqb_refl. split_and!; [by eexists|done|done].
  - intros cmd args w r w' Hrun Ha s. cbn in Hrun. rewrite Ha in Hrun. by injection Hrun as _ <-.
Defined.

(** Two pools and the portable origin, all on the first build. *)
Definition selects (pool version : string) : labels :=
  labels_of [("app.kubernetes.io/name", "shop"); (COMPONENT, pool); (VERSION, version)].

Definition sample_cluster : cluster :=
  mkCluster [("shop-web", selects "web" "v1"); ("shop-frozen", selects "frozen" "v1");
             ("shop-api", selects "api" "v1"); ("shop-origin", selects "web" "v1");
             ("shop-routing-service", selects "routing-service" "v1")] 0.

Definition four (_ : string) : Z := 4.

Definition switch_sample (expected : string) (pools : list string) :=
  switchTrafficToNewBuild four "shop" "default" None (ret tt) "v2" (Some expected) pools true "web" sample_cluster.

Lemma cluster_edge (w : cluster) s : live (restoreEdgeToPreviousBuild w).2 s = live w s.
Proof. done. Qed.

Lemma cluster_hpas (w : cluster) s : live (ret (E := string) tt w).2 s = live w s.
Proof. done. Qed.

Lemma switch_complete_witness :
  (switch_sample "v1" ["web"; "api"]).1 = Returns tt
  ∧ (∀ d, d ∈ switch_destinations ["web"; "api"] true "web" →
       ∃ m, live sample_cluster (service_name "shop" (servicePool d)) = Some m
       ∧ (∀ b, Some "v1" = Some b → b ≠ "" → m !! VERSION = Some (sanitizeK8sName b ""))
       ∧ live (switch_sample "v1" ["web"; "api"]).2 (service_name "shop" (servicePool d))
         = Some (retargeted "v2" d m))
  ∧ ∀ n, n ∉ map (λ d, service_name "shop" (servicePool d)) (switch_destinations ["web"; "api"] true "web") →
         live (switch_sample "v1" ["web"; "api"]).2 n = live sample_cluster n.
Proof.
  split; [vm_compute; reflexivity|].
  apply (switch_complete (W := cluster) four "shop" None (ret tt) cluster_edge cluster_hpas "v2" (Some "v1")
           ["web"; "api"] true "web").
  - apply (bool_decide_unpack _). vm_compute. exact I.
  - vm_compute. reflexivity.
Defined.

Lemma moved_service_aborts_witness :
  (∃ e, (switch_sample "v0" ["web"; "api"]).1 = Throws e)
  ∧ ∀ n, live (switch_sample "v0" ["web"; "api"]).2 n = live sample_cluster n.
Proof.
  apply (moved_service_aborts (W := cluster) four "shop" None (ret tt) cluster_edge cluster_hpas "v2" (Some "v0")
           ["web"; "api"] true "web") with (d := mkDestination "api" "api") (b := "v0") (m := selects "api" "v1").
  - apply (bool_decide_unpack _). vm_compute. exact I.
  - vm_compute. reflexivity.
  - apply list_elem_of_further, list_elem_of_here.
  - reflexivity.
  - discriminate.
  - vm_compute. reflexivity.
  - vm_compute. discriminate.
Defined.

(** A switch over a pool whose Service refuses patches. *)
Definition refused_sample := switch_sample "v1" ["web"; "frozen"].

Lemma switch_contained_witness :
  live refused_sample.2 "shop-web" = live sample_cluster "shop-web"
  ∨ ∃ d m key, d ∈ switch_destinations ["web"; "frozen"] true "web"
      ∧ service_name "shop" (servicePool d) = "shop-web" ∧ live sample_cluster "shop-web" = Some m
      ∧ (live refused_sample.2 "shop-web" = Some (retargeted "v2" d m)
         ∨ live refused_sample.2 "shop-web" = Some (overlapped key m)).
Proof.
  apply (switch_contained (W := cluster) four "shop" None (ret tt) cluster_edge cluster_hpas "v2" (Some "v1")
           ["web"; "frozen"] true "web") with (res := refused_sample.1).
  - apply (bool_decide_unpack _). vm_compute. exact I.
  - vm_compute. reflexivity.
Defined.

Lemma cluster_answers n from to (w : cluster) r w' :
  execCapture "kubectl" (patch_service_args "default" n (swap_ops from to [])) w = (r, w') →
  NoDup from.*1 → NoDup to.*1 →
  ∃ x, r = Returns x
    ∧ (exitCode x = 0%Z ↔ n ≠ frozen ∧ live w n = Some (labels_of from))
    ∧ (exitCode x ≠ 0%Z → ∀ s, live w' s = live w s).
Proof.
  intros Hrun Hf Ht. rewrite patch_runs in Hrun by (done || by split).
  change (live w n) with (look (services w) n).
  destruct (look (services w) n) as [m|].
  2: { injection Hrun as <- <-. exists (mkResult 1 "" "" false). split_and!; [done|split; [done|by intros [_ ?]]|done]. }
  destruct (decide (m = labels_of from)) as [Hm|Hne].
  - subst m. rewrite bool_decide_eq_true_2 in Hrun by done.
    destruct (String.eqb_spec n frozen) as [->|Hn]; injection Hrun as <- <-; eexists;
      (split_and!; [done|split|]); naive_solver.
  - rewrite bool_decide_eq_false_2 in Hrun by done. injection Hrun as <- <-.
    exists (mkResult 1 "" "" false). split_and!; [done|split; [done|by intros [_ [= ?]]]|done].
Qed.

Lemma cluster_generic n (w : cluster) r w' a :
  execCapture "kubectl" (get_service_args "default" n) w = (Returns r, w') → (read_service r).2 = Some a →
  annotated (Some a) ANNOTATION_NEG = false ∧ annotated (Some a) ANNOTATION_NEG_STATUS = false.
Proof.
  rewrite get_runs. intros [Hr _]%pair_equal_spec. unfold answers in Hr.
  destruct (look (services w) n) as [m|].
  - assert (r = mkResult 0 (stringify (service_document m)) "" false) as -> by congruence.
    unfold read_service. cbn [exitCode stdout]. rewrite document_parses. cbn. by intros [= <-].
  - assert (r = mkResult 1 "" "" false) as -> by congruence. done.
Qed.


Definition web_selector (version : string) : Selector := [(COMPONENT, "web"); (VERSION, version)].
Definition one_service : cluster := mkCluster [("shop-web", labels_of (web_selector "v1"))] 0.

Definition one_swap :=
  replaceServiceSelector four "default" "shop-web" (web_selector "v1") (web_selector "v2") None None one_service.

Lemma selector_swap_contract_witness :
  (∀ o, o ≠ "shop-web" → live one_swap.2 o = live one_service o)
  ∧ (∀ x, one_swap.1 = Returns x → exitCode x = 0%Z →
     live one_swap.2 "shop-web" = Some (labels_of (web_selector "v2")))
  ∧ ∃ m, kept (web_selector "v1") (web_selector "v2") m ∧ live one_swap.2 "shop-web" = Some m.
Proof.
  apply (selector_swap_contract (W := cluster) four "shop-web" (web_selector "v1") (web_selector "v2") None None
           one_service one_swap.2 one_swap.1).
  - apply (bool_decide_unpack _). vm_compute. exact I.
  - apply (bool_decide_unpack _). vm_compute. exact I.
  - vm_compute. reflexivity.
  - vm_compute. reflexivity.
Defined.

(** A warm-up that never becomes healthy. *)
Definition idle_pass (since : option Z) : io cluster string (ExecCaptureResult + option Z) := ret (inr None).

Lemma warm_up_terminates_witness :
  (0 ≤ clock sample_cluster)%Z
  ∧ warm_loop idle_pass "shop-web" (0 + WARMUP_MS) (warm_fuel + 1000) None sample_cluster
    = warm_loop idle_pass "shop-web" (0 + WARMUP_MS) warm_fuel None sample_cluster.
Proof.
  split; [vm_compute; discriminate|].
  apply (warm_up_terminates (W := cluster) clock); cbn.
  - done.
  - intros w. lia.
  - intros d w. lia.
  - intros s w r w' [= _ <-]. lia.
  - lia.
Defined.

(** A command that cannot be spawned is not a failed patch: the exception leaves the switch at once,
    with the Services patched before it on the new build and nothing restored. *)
Definition flaky_exec : Exec cluster := {|
  execCapture cmd args w :=
    if changes_service args && String.eqb (nth 2 args "") "shop-api"
    then (Throws "spawn kubectl EAGAIN", w) else execCapture cmd args w;
  execCaptureStdin cmd args text w := execCaptureStdin cmd args text w
|}.

Definition flaky_switch :=
  switchTrafficToNewBuild (Exec0 := flaky_exec) four "shop" "default" None (ret tt) "v2" (Some "v1")
    ["web"; "api"] true "web" sample_cluster.

Example spawn_failure_splits_traffic :
  match flaky_switch.1 with Throws (PlainError m) => String.eqb m "spawn kubectl EAGAIN" | _ => false end
  && bool_decide (look (services flaky_switch.2) "shop-web" = Some (selects "web" "v2"))
  && bool_decide (look (services flaky_switch.2) "shop-api" = Some (selects "api" "v1")) = true.
Proof. vm_compute. reflexivity. Qed.

End TrafficFacts.
