(* ===== verification/StablePools.v ===== *)
(** * Stable resources of removed pools (src/src/cli/stable-pool-resources.ts)

    A pool that leaves the topology keeps its stable Service and the objects around it while one of
    the two builds in play has it; the cleanup deletes them afterwards.  Messages of errors and
    failures are shortened. *)
From Stdlib Require Import String.
From S2P Require Import Prelude JsString Json JsonParse K8sNames PlanParse Effects.
Import K8sNames.
Local Open Scope stdpp_scope.
Local Open Scope js_scope.

Module StablePools.

Definition RETAINED_STABLE_POOL_LABEL : string := "adapter-k8s.dev/retained-stable-pool".
Definition KEEP_ANNOTATION : string := "helm.sh/resource-policy".
Definition KEEP_VALUE : string := "keep".
Definition GKE_HCP_CRD : string := "healthcheckpolicies.networking.gke.io".
Definition NAME : string := "app.kubernetes.io/name".
Definition COMPONENT : string := "app.kubernetes.io/component".

Inductive StableKind := KService | KPdb | KHcp | KBcp.

#[export] Instance StableKind_eq_dec : EqDecision StableKind.
Proof. solve_decision. Defined.

Record StableResource := mkStable {
  r_kind : StableKind; r_name : string; r_pool : string; resourceVersion : string; r_object : obj
}.

Definition typeForKind (kind : StableKind) : string :=
  match kind with
  | KService => "service"
  | KPdb => "poddisruptionbudget"
  | KHcp => "healthcheckpolicy"
  | KBcp => "gcpbackendpolicy"
  end.

Definition expectedName (names : StablePoolResourceNames) (kind : StableKind) : string :=
  match kind with
  | KService => service names
  | KPdb => pdb names
  | KHcp => stable_hcp names
  | KBcp => bcp names
  end.

(** objectRecord: the value when it is an object and not an array. *)
Definition objectRecord (v : option json) : option json :=
  match v with Some (JObj fs) => Some (JObj fs) | _ => None end.

Definition is_text := PlanParse.is_text.

(** The specification of a stable object names its pool. *)
Definition serves_pool (spec : option json) (kind : StableKind) (releaseName pool serviceName : string) : bool :=
  let selects selector := is_text (jget selector NAME) releaseName && is_text (jget selector COMPONENT) pool in
  match kind with
  | KService => selects (jget spec "selector")
  | KPdb => selects (jget (jget spec "selector") "matchLabels")
  | KHcp | KBcp =>
      is_text (jget (jget spec "targetRef") "kind") "Service"
      && is_text (jget (jget spec "targetRef") "name") serviceName
  end.

Definition validateStableResource (value : json) (kind : StableKind) (releaseName pool namespace : string)
    (requireRetainedLabel : bool) : outcome string StableResource :=
  let! names := stablePoolResourceNames releaseName pool in
  let metadata := objectRecord (jget (Some value) "metadata") in
  let labels := objectRecord (jget metadata "labels") in
  let annotations := objectRecord (jget metadata "annotations") in
  let wantedName := expectedName names kind in
  match is_text (jget metadata "name") wantedName, jget metadata "resourceVersion" with
  | true, Some (JStr (String _ _ as version)) =>
      if negb (is_text (jget annotations "meta.helm.sh/release-name") releaseName)
         || negb (is_text (jget annotations "meta.helm.sh/release-namespace") namespace)
      then Throws "foreign Helm ownership"
      else
        let retainedMarker := is_text (jget labels RETAINED_STABLE_POOL_LABEL) releaseName in
        let legacyRetained := is_text (jget labels ADAPTER_RELEASE_LABEL) releaseName
                              && is_text (jget annotations KEEP_ANNOTATION) KEEP_VALUE in
        if requireRetainedLabel && negb retainedMarker && negb legacyRetained
        then Throws "missing retained-resource ownership label"
        else
          let labeledRelease := jget labels NAME in
          let labeledPool := jget labels COMPONENT in
          let labelled := match labeledRelease, labeledPool with None, None => false | _, _ => true end in
          if (negb (bool_decide (kind = KHcp)) || labelled)
             && (negb (is_text labeledRelease releaseName) || negb (is_text labeledPool pool))
          then Throws "inconsistent release/pool labels"
          else if negb (serves_pool (objectRecord (jget (Some value) "spec")) kind releaseName pool
                          (service names))
          then Throws "does not serve the pool"
          else Returns (mkStable kind wantedName pool version
                          match value with JObj fs => fs | _ => [] end)
  | _, _ => Throws "identity mismatch"
  end.

Section Commands.
Context {W : Type} `{!Exec W}.
Abbreviation action := (io W string).

Definition get_object_args (kind name namespace : string) : list string :=
  ["get"; kind; name; "-n"; namespace; "--ignore-not-found"; "-o"; "json"].

Definition readExact (kind : StableKind) (name namespace : string) : action (option json) :=
  do! result := execCapture "kubectl" (get_object_args (typeForKind kind) name namespace) in
  if negb (exitCode result =? 0)%Z then throw "Could not read the object"
  else if is_empty (trim (stdout result)) then ret None
  else match json_parse (stdout result) with
       | Some v => ret (Some v)
       | None => throw "Could not parse the object"
       end.

Definition hasHealthCheckPolicyCrd : action bool :=
  do! result := execCapture "kubectl" ["get"; "crd"; GKE_HCP_CRD; "--ignore-not-found"; "-o"; "name"] in
  if negb (exitCode result =? 0)%Z then throw "Could not determine whether the CRD exists"
  else ret (negb (is_empty (trim (stdout result)))).

(** options.namespace resolved and checked. *)
Definition resolved (namespace : option string) : outcome string string :=
  let! v := resolveK8sNamespace (JStr <$> namespace) in
  match v with JStr n => Returns n | _ => Throws "Invalid namespace" end.

(** ** Keeping the objects of a removed pool *)

Definition retain_patch (releaseName pool version : string) : json :=
  JObj [("metadata", JObj
    [("resourceVersion", JStr version);
     ("labels", JObj [(NAME, JStr releaseName); (COMPONENT, JStr pool);
                      (ADAPTER_RELEASE_LABEL, JStr releaseName);
                      (RETAINED_STABLE_POOL_LABEL, JStr releaseName)]);
     ("annotations", JObj [(KEEP_ANNOTATION, JStr KEEP_VALUE)])])].

Fixpoint retain_candidates (releaseName pool namespace : string)
    (candidates : list (StableKind * string * bool)) (retained : list StableKind)
    : action (list StableKind) :=
  match candidates with
  | [] => ret retained
  | (kind, name, required) :: candidates =>
      do! read := readExact kind name namespace in
      match read with
      | None =>
          if required then throw "Required stable Service is missing"
          else retain_candidates releaseName pool namespace candidates retained
      | Some value =>
          do! resource := lift (validateStableResource value kind releaseName pool namespace false) in
          do! patch := execCapture "kubectl"
            ["patch"; typeForKind kind; r_name resource; "-n"; namespace; "--type=merge"; "-p";
             stringify (retain_patch releaseName pool (resourceVersion resource))] in
          if negb (exitCode patch =? 0)%Z then throw "Could not retain the object"
          else retain_candidates releaseName pool namespace candidates (retained ++ [kind])
      end
  end.

Definition retainRemovedPoolResources (releaseName pool : string) (namespace : option string)
    (healthCheckPolicyCrd : bool) : action (list StableKind) :=
  do! namespace := lift (resolved namespace) in
  do! names := lift (stablePoolResourceNames releaseName pool) in
  retain_candidates releaseName pool namespace
    ([(KService, service names, true); (KPdb, pdb names, false)]
     ++ if healthCheckPolicyCrd then [(KHcp, stable_hcp names, false); (KBcp, bcp names, false)] else [])
    [].

(** ** The cleanup *)

Record StablePoolCleanupResult := mkCleanup { deleted : list string; failures : list string }.

Definition list_retained_args (kind : StableKind) (releaseName namespace : string) : list string :=
  ["get"; typeForKind kind; "-n"; namespace; "-l";
   NAME +:+ "=" +:+ releaseName +:+ "," +:+ ADAPTER_RELEASE_LABEL +:+ "=" +:+ releaseName; "-o"; "json"].

(** What one listed object adds to the resources to delete and to the failures. *)
Definition classify_item (kind : StableKind) (releaseName namespace : string) (keepPools : list string)
    (item : json) : option (outcome string StableResource) :=
  let metadata := objectRecord (jget (Some item) "metadata") in
  let labels := objectRecord (jget metadata "labels") in
  let annotations := objectRecord (jget metadata "annotations") in
  let marker := jget labels RETAINED_STABLE_POOL_LABEL in
  let marked := is_text marker releaseName in
  if match marker with Some _ => negb marked | None => false end then Some (Throws "foreign marker")
  else if negb marked && negb (is_text (jget annotations KEEP_ANNOTATION) KEEP_VALUE) then None
  else
    match jget labels COMPONENT with
    | Some (JStr pool) =>
        if String.eqb pool "routing-service" then Some (Throws "missing a non-routing pool component")
        else match validateStableResource item kind releaseName pool namespace true with
             | Throws e => Some (Throws e)
             | Returns resource => if bool_decide (pool ∈ keepPools) then None else Some (Returns resource)
             end
    | _ => Some (Throws "missing a non-routing pool component")
    end.

(** The resources and the failures found so far. *)
Abbreviation findings := (list StableResource * list string)%type.

Definition add_item (kind : StableKind) (releaseName namespace : string) (keepPools : list string)
    (found : findings) (item : json) : findings :=
  match classify_item kind releaseName namespace keepPools item with
  | Some (Returns resource) => (found.1 ++ [resource], found.2)
  | Some (Throws e) => (found.1, found.2 ++ [e])
  | None => found
  end.

Fixpoint list_kinds (releaseName namespace : string) (keepPools : list string) (kinds : list StableKind)
    (found : findings) : action findings :=
  match kinds with
  | [] => ret found
  | kind :: kinds =>
      do! result := execCapture "kubectl" (list_retained_args kind releaseName namespace) in
      list_kinds releaseName namespace keepPools kinds
        (if negb (exitCode result =? 0)%Z then (found.1, found.2 ++ ["could not list"])
         else match jget (json_parse (stdout result)) "items" with
              | Some (JArr items) => foldl (add_item kind releaseName namespace keepPools) found items
              | _ => (found.1, found.2 ++ ["could not parse"])
              end)
  end.

(** The resources of each pool, in the order of the pools' first resource. *)
Abbreviation buckets := (list (string * list StableResource)).

Fixpoint bucket_of (b : buckets) (pool : string) : list StableResource :=
  match b with
  | [] => []
  | (p, l) :: b => if String.eqb p pool then l else bucket_of b pool
  end.

Fixpoint set_bucket (b : buckets) (pool : string) (l : list StableResource) : buckets :=
  match b with
  | [] => [(pool, l)]
  | (p, l') :: b => if String.eqb p pool then (p, l) :: b else (p, l') :: set_bucket b pool l
  end.

Definition add_resource (acc : buckets * list string) (resource : StableResource) : buckets * list string :=
  let bucket := bucket_of acc.1 (r_pool resource) in
  if existsb (λ entry, bool_decide (r_kind entry = r_kind resource)) bucket
  then (acc.1, acc.2 ++ ["duplicate"])
  else (set_bucket acc.1 (r_pool resource) (bucket ++ [resource]), acc.2).

Definition delete_rank (kind : StableKind) : nat :=
  match kind with KBcp | KHcp => 0 | KPdb => 1 | KService => 2 end.

(** Array.prototype.sort is stable. *)
Definition ordered (l : list StableResource) : list StableResource :=
  flat_map (λ n, List.filter (λ r, Nat.eqb (delete_rank (r_kind r)) n) l) [0; 1; 2]%nat.

Definition delete_args (kind name namespace : string) : list string :=
  ["delete"; kind; name; "-n"; namespace; "--ignore-not-found"].

Fixpoint delete_bucket (namespace : string) (companionFailed : bool) (l : list StableResource)
    (result : StablePoolCleanupResult) : action StablePoolCleanupResult :=
  match l with
  | [] => ret result
  | resource :: l =>
      let kind := r_kind resource in
      if bool_decide (kind = KService) && companionFailed
      then delete_bucket namespace companionFailed l result
      else
        do! done := execCapture "kubectl" (delete_args (typeForKind kind) (r_name resource) namespace) in
        if negb (exitCode done =? 0)%Z
        then delete_bucket namespace (companionFailed || negb (bool_decide (kind = KService))) l
               (mkCleanup (deleted result) (failures result ++ ["could not delete"]))
        else delete_bucket namespace companionFailed l
               (mkCleanup (deleted result ++ [typeForKind kind +:+ "/" +:+ r_name resource]) (failures result))
  end.

Fixpoint delete_buckets (namespace : string) (b : buckets) (result : StablePoolCleanupResult)
    : action StablePoolCleanupResult :=
  match b with
  | [] => ret result
  | (_, l) :: b =>
      do! result := delete_bucket namespace false (ordered l) result in
      delete_buckets namespace b result
  end.

Definition cleanupRetainedStablePoolResources (releaseName : string) (keepPools : list string)
    (namespace : option string) (healthCheckPolicyCrd : bool) : action StablePoolCleanupResult :=
  do! _ := lift (assertSafeReleaseName releaseName) in
  do! namespace := lift (resolved namespace) in
  do! _ := lift (collect (map assertSafePoolName keepPools)) in
  let kinds := [KService; KPdb] ++ (if healthCheckPolicyCrd then [KHcp; KBcp] else []) in
  do! found := list_kinds releaseName namespace keepPools kinds ([], []) in
  let '(resources, failures) := found in
  if (0 <? length failures)%nat then ret (mkCleanup [] failures)
  else
    let '(byPool, failures) := foldl add_resource ([], []) resources in
    if (0 <? length failures)%nat then ret (mkCleanup [] failures)
    else delete_buckets namespace byPool (mkCleanup [] []).
End Commands.

End StablePools.
