(* ===== verification/ReleaseNames.v ===== *)
(** * Names of a release's objects

    The names that the templates of src/src/emit/templates give to the objects of a release and of
    its builds, besides those of [K8sNames].  SHA-256 is a parameter. *)
From Stdlib Require Import Ascii String.
From S2P Require Import Prelude JsString K8sNames.
Import K8sNames.
Local Open Scope stdpp_scope.
Local Open Scope js_scope.

Module ReleaseNames.

Definition ROUTING_MANIFEST_SNAPSHOT_COMPONENT : string := "routing-manifest-snapshot".
Definition COMPOSITION_PLAN_COMPONENT : string := "composition-plan".
Definition EMIT_METADATA_COMPONENT : string := "emit-metadata".
Definition INTERNAL_SECRET_COMPONENT : string := "internal-secret".
Definition INTERNAL_SECRET_KEY : string := "secret".

Definition routingServiceDeploymentName (releaseName : string) : string :=
  sanitizeK8sName (releaseName +:+ "-routing-service") "".

Definition compositionPlanConfigMapName (releaseName buildId : string) : string :=
  compositionPlanResourceName releaseName buildId.

(** The character of code 0. *)
Definition NUL : string := String Ascii.zero EmptyString.

Section Names.
Variable sha256_hex : string → string.

Definition routeExtJobName (releaseName buildId : string) : string :=
  releaseName +:+ "-route-ext-" +:+ take_string 12 (sha256_hex buildId).

Definition emitMetadataConfigMapName (releaseName buildId : string) : string :=
  sanitizeK8sName (releaseName +:+ "-emit-meta-" +:+ buildId) ("-" +:+ take_string 8 (sha256_hex buildId)).

Definition internalSecretName (releaseName buildId : string) : string :=
  sanitizeK8sName (releaseName +:+ "-ihs-" +:+ buildId) ("-" +:+ take_string 8 (sha256_hex buildId)).

(** The inventory of a build, or the index of the release. *)
Definition retentionName (release : string) (buildId : option string) : outcome string string :=
  let! _ := assertSafeReleaseName release in
  let! _ := match buildId with Some b => assertSafeBuildId b | None => accept end in
  Returns (take_string 27 release +:+ "-retention-"
    +:+ take_string 12 (sha256_hex (release +:+ NUL
          +:+ match buildId with None => "index" | Some b => "build" +:+ NUL +:+ b end))).
End Names.

End ReleaseNames.
