(* ===== verification/Gc.v ===== *)
(** * Parking and garbage collection (src/src/cutover/gc.ts)

    What a cutover does once its state is committed: the previous build is parked, and the objects
    of superseded builds are deleted; and the capacity a rollback must come back at.  Console output
    is left out.  In the documents kubectl prints, a field whose type is not the one the code
    declares is read as absent. *)
From Stdlib Require Import Ascii String.
From S2P Require Import Prelude JsString Json JsonParse K8sNames PlanParse Effects StablePools ReleaseNames.
Import K8sNames StablePools ReleaseNames.
Local Open Scope stdpp_scope.
Local Open Scope js_scope.

Module Gc.

Definition VERSION : string := "app.kubernetes.io/version".

Inductive VersionedCompanionKind := CService | CHealthCheckPolicy.

Definition companion_type (kind : VersionedCompanionKind) : string :=
  match kind with CService => "service" | CHealthCheckPolicy => "healthcheckpolicy" end.

(** The identity of a companion of a versioned Deployment. *)
Definition owned_companion (object : option json) (kind : VersionedCompanionKind)
    (name releaseName poolName buildId serviceName : string) : bool :=
  let metadata := objectRecord (jget object "metadata") in
  let labels := objectRecord (jget metadata "labels") in
  let spec := objectRecord (jget object "spec") in
  is_text (jget metadata "name") name
  && is_text (jget labels ADAPTER_RELEASE_LABEL) releaseName
  && is_text (jget labels NAME) releaseName
  && is_text (jget labels COMPONENT) poolName
  && is_text (jget labels VERSION) (sanitizeK8sName buildId "")
  && match kind with
     | CService =>
         let selector := objectRecord (jget spec "selector") in
         is_text (jget selector NAME) releaseName
         && is_text (jget selector COMPONENT) poolName
         && is_text (jget selector VERSION) (sanitizeK8sName buildId "")
     | CHealthCheckPolicy =>
         let targetRef := objectRecord (jget spec "targetRef") in
         is_text (jget targetRef "group") ""
         && is_text (jget targetRef "kind") "Service"
         && is_text (jget targetRef "name") serviceName
     end.

(** The pool server's container of a Deployment, its environment and its labels. *)
Definition pool_container (deployment : json) : option json :=
  match jget (jget (jget (jget (Some deployment) "spec") "template") "spec") "containers" with
  | Some (JArr cs) => List.find (λ c, is_text (jget (Some c) "name") "pool-server") cs
  | _ => None
  end.

Definition env_value (container : option json) (name : string) : option string :=
  match jget container "env" with
  | Some (JArr es) =>
      match List.find (λ e, is_text (jget (Some e) "name") name) es with
      | Some e => match jget (Some e) "value" with Some (JStr v) => Some v | _ => None end
      | None => None
      end
  | _ => None
  end.

(** The pool and the build id of a Deployment whose labels and template agree on them. *)
Definition owned_deployment (deployment : json) (releaseName : string) : option (string * string) :=
  let labels := jget (jget (Some deployment) "metadata") "labels" in
  let container := pool_container deployment in
  match env_value container "NEXT_BUILD_ID", env_value container "POOL_NAME" with
  | Some (String _ _ as rawBuildId), Some (String _ _ as poolName) =>
      if is_text (jget labels ADAPTER_RELEASE_LABEL) releaseName
         && is_text (jget labels NAME) releaseName
         && bool_decide (env_value container "RELEASE_NAME" = Some releaseName)
         && is_text (jget labels COMPONENT) poolName
         && is_text (jget labels VERSION) (sanitizeK8sName rawBuildId "")
      then Some (poolName, rawBuildId) else None
  | _, _ => None
  end.

(** (v ?? []) as an array; [None] is the TypeError of any other value. *)
Definition array_of (v : option json) : option (list json) :=
  match v with None | Some JNull => Some [] | Some (JArr l) => Some l | _ => None end.

(** v.key, which throws on null. *)
Definition member (v : json) (key : string) : option (option json) :=
  match v with JNull => None | _ => Some (jget (Some v) key) end.

Definition env_secrets (e : json) : option (list string) :=
  v ← member e "valueFrom";
  Some match jget (jget v "secretKeyRef") "name" with Some (JStr (String _ _ as n)) => [n] | _ => [] end.

Definition container_secrets (c : json) : option (list string) :=
  v ← member c "env"; es ← array_of v; l ← mapM env_secrets es; Some (concat l).

Definition deployment_secrets (d : json) : option (list string) :=
  v ← member d "spec"; cs ← array_of (jget (jget (jget v "template") "spec") "containers");
  l ← mapM container_secrets cs; Some (concat l).

(** Every Secret that the Deployments of a listing reference; [None] when it cannot be read. *)
Definition referenced (out : string) : option (list string) :=
  parsed ← json_parse out; v ← member parsed "items"; ds ← array_of v;
  l ← mapM deployment_secrets ds; Some (concat l).

(** String(v) *)
Fixpoint js_text (v : json) : string :=
  match v with
  | JNull => "null"
  | JBool b => if b then "true" else "false"
  | JNum n => num_text n
  | JStr s => s
  | JArr l => join "," (map (λ x, match x with JNull => "" | _ => js_text x end) l)
  | JObj _ => "[object Object]"
  end.

Section Operations.
Context {W : Type} `{!Exec W} (sha256_hex : string → string).

Abbreviation action := (io W string).

Definition ignore {A} (m : action A) : action unit := catch (do! _ := m in ret tt) (λ _, ret tt).

Definition lines (out : string) : list string := split_on "010" (trim out).

(** Delete the companion when its own document proves its identity; no failure escapes. *)
Definition deleteOwnedVersionedCompanion (kind : VersionedCompanionKind)
    (name namespace releaseName poolName buildId serviceName : string) : action unit :=
  ignore (
    do! read := execCapture "kubectl" (get_object_args (companion_type kind) name namespace) in
    if negb (exitCode read =? 0)%Z || is_empty (trim (stdout read)) then ret tt
    else
      if owned_companion (objectRecord (json_parse (stdout read))) kind name releaseName poolName buildId serviceName
      then do! _ := execCapture "kubectl" (delete_args (companion_type kind) name namespace) in ret tt
      else ret tt).

(** ** Parking the previous build *)

Definition scale_args (name namespace : string) (replicas : Z) : list string :=
  ["scale"; "deployment/" +:+ name; "-n"; namespace; "--replicas=" +:+ z_text replicas].

Fixpoint park_pools (releaseName namespace previousBuildId : string) (replicas : Z) (pools : list string)
    : action unit :=
  match pools with
  | [] => ret tt
  | poolName :: pools =>
      let names := poolResourceNames releaseName poolName previousBuildId in
      do! hpaDelete := execCapture "kubectl" (delete_args "hpa" (hpa names) namespace) in
      do! _ := (if negb (exitCode hpaDelete =? 0)%Z then ret tt
                else do! _ := execCapture "kubectl" (scale_args (deployment names) namespace replicas) in
                     ret tt) in
      park_pools releaseName namespace previousBuildId replicas pools
  end.

Definition scaleDownPreviousBuild (releaseName namespace buildId : string) (previousBuildId : option string)
    (previousPools : list string) (replicas : Z) : action unit :=
  match previousBuildId with
  | Some (String _ _ as b) =>
      if String.eqb b buildId then ret tt else park_pools releaseName namespace b replicas previousPools
  | _ => ret tt
  end.

(** ** Superseded objects *)

Definition list_deployments_args (releaseName namespace : string) : list string :=
  ["get"; "deployments"; "-n"; namespace; "-l"; NAME +:+ "=" +:+ releaseName; "-o"; "json"].

Definition delete_plain_args (kind name namespace : string) : list string :=
  ["delete"; kind; name; "-n"; namespace].

(** What is kept and what is known when the Deployments are collected. *)
Record plan := mkPlan {
  g_release : string; g_namespace : string; g_build : string; g_previous : option string;
  g_pools : list string; g_previousPools : list string;
  hasPortableOrigin : bool; hasHealthCheckPolicy : bool
}.

(** A non-empty previous build id. *)
Definition previous (p : plan) : option string :=
  match g_previous p with Some (String _ _ as b) => Some b | _ => None end.

Definition build_deployments (releaseName buildId : string) (pools : list string) : list string :=
  map (λ pool, sanitizeK8sName (releaseName +:+ "-" +:+ pool +:+ "-" +:+ buildId) "") pools.

(** The Deployments that are never candidates: the routing tier and the two builds in play. *)
Definition kept_deployment (p : plan) (name : string) : bool :=
  String.eqb name (routingServiceDeploymentName (g_release p))
  || bool_decide (name ∈ build_deployments (g_release p) (g_build p) (g_pools p))
  || match previous p with
     | Some b => bool_decide (name ∈ build_deployments (g_release p) b (g_previousPools p))
     | None => false
     end.

Definition collect_deployment (p : plan) (deployment : json) : action unit :=
  match deployment with
  | JNull => throw "TypeError"
  | _ =>
      match jget (jget (Some deployment) "metadata") "name", previous p with
      | Some (JStr (String _ _ as name)), Some _ =>
          if kept_deployment p name then ret tt
          else
            match owned_deployment deployment (g_release p) with
            | None => ret tt
            | Some (poolName, rawBuildId) =>
                let expected := poolResourceNames (g_release p) poolName rawBuildId in
                if negb (String.eqb (K8sNames.deployment expected) name) then ret tt
                else
                  do! _ := execCapture "kubectl" (delete_plain_args "deployment" name (g_namespace p)) in
                  do! _ := deleteOwnedVersionedCompanion CService name (g_namespace p) (g_release p)
                             poolName rawBuildId name in
                  if hasHealthCheckPolicy p
                  then deleteOwnedVersionedCompanion CHealthCheckPolicy (hcp expected) (g_namespace p)
                         (g_release p) poolName rawBuildId name
                  else ret tt
            end
      | _, _ => ret tt
      end
  end.

Fixpoint each {A} (f : A → action unit) (l : list A) : action unit :=
  match l with
  | [] => ret tt
  | x :: l => do! _ := f x in each f l
  end.

Definition collect_deployments (p : plan) : action unit :=
  do! allDeploys := execCapture "kubectl" (list_deployments_args (g_release p) (g_namespace p)) in
  if (exitCode allDeploys =? 0)%Z && negb (is_empty (trim (stdout allDeploys)))
  then match jget (json_parse (stdout allDeploys)) "items" with
       | Some (JArr deployments) => each (collect_deployment p) deployments
       | _ => ret tt
       end
  else ret tt.

(** The names listed for a component, one per line. *)
Definition list_names_args (resource releaseName component namespace : string) : list string :=
  ["get"; resource; "-n"; namespace; "-l";
   NAME +:+ "=" +:+ releaseName +:+ "," +:+ COMPONENT +:+ "=" +:+ component; "-o";
   "jsonpath={range .items[*]}{.metadata.name}{" +:+ in_quotes "\n" +:+ "}{end}"].

Definition sweep_one (kind namespace : string) (keep : list string) (name : string) : action unit :=
  if is_empty name || bool_decide (name ∈ keep) then ret tt
  else do! _ := execCapture "kubectl" (delete_plain_args kind name namespace) in ret tt.

(** Delete the listed objects of a component but those to keep. *)
Definition sweep (p : plan) (resource kind component : string) (keep : list string) : action unit :=
  do! listed := execCapture "kubectl" (list_names_args resource (g_release p) component (g_namespace p)) in
  if (exitCode listed =? 0)%Z
  then each (sweep_one kind (g_namespace p) keep) (lines (stdout listed))
  else ret tt.

(** *** Retained inventories *)

Definition list_inventories_args (releaseName namespace : string) : list string :=
  ["get"; "configmaps"; "-n"; namespace; "-l";
   NAME +:+ "=" +:+ releaseName +:+ "," +:+ COMPONENT +:+ "=retained-build-inventory"; "-o"; "json"].

(** The name of the inventory when it belongs to another build than the two in play; a document
    that cannot be read throws, which ends the collection. *)
Definition stale_inventory (p : plan) (previousBuildId : string) (object : json)
    : outcome string (option string) :=
  match member object "data" with
  | None => Throws "TypeError"
  | Some data =>
      match json_parse (js_text (default (JStr "null")
              (match jget data "inventory.json" with Some JNull => None | v => v end))) with
      | None => Throws "SyntaxError"
      | Some inventory =>
          match jget (Some inventory) "buildId" with
          | Some b =>
              if negb (PlanParse.truthy b) || is_text (Some b) (g_build p) || is_text (Some b) previousBuildId
              then Returns None
              else
                let! expected := retentionName sha256_hex (g_release p) (Some (js_text b)) in
                let metadata := jget (Some object) "metadata" in
                Returns (if is_text (jget metadata "name") expected
                            && is_text (jget (jget metadata "labels") NAME) (g_release p)
                         then Some expected else None)
          | None => Returns None
          end
      end
  end.

Definition collect_inventories (p : plan) (previousBuildId : string) : action unit :=
  do! listed := execCapture "kubectl" (list_inventories_args (g_release p) (g_namespace p)) in
  if (exitCode listed =? 0)%Z && negb (is_empty (trim (stdout listed)))
  then
    match jget (json_parse (stdout listed)) "items" with
    | Some (JArr objects) =>
        ignore (each (λ object,
          do! stale := lift (stale_inventory p previousBuildId object) in
          match stale with
          | Some name =>
              do! _ := execCapture "kubectl" (delete_plain_args "configmap" name (g_namespace p)) in ret tt
          | None => ret tt
          end) objects)
    | _ => ret tt
    end
  else ret tt.

(** *** The per-build ConfigMaps *)

Definition collect_configmaps (p : plan) : action unit :=
  match previous p with
  | None => ret tt
  | Some b =>
      let pair (name : string → string → string) := [name (g_release p) (g_build p); name (g_release p) b] in
      do! _ := collect_inventories p b in
      do! _ := sweep p "configmaps" "configmap" ROUTING_MANIFEST_SNAPSHOT_COMPONENT
                 (pair (routingManifestSnapshotName sha256_hex)) in
      do! _ := (if hasPortableOrigin p
                then sweep p "configmaps" "configmap" COMPOSITION_PLAN_COMPONENT
                       (pair compositionPlanConfigMapName)
                else ret tt) in
      sweep p "configmaps" "configmap" EMIT_METADATA_COMPONENT (pair (emitMetadataConfigMapName sha256_hex))
  end.

(** *** Internal Secrets *)

Definition in_play_secrets (p : plan) : list string :=
  internalSecretName sha256_hex (g_release p) (g_build p)
  :: match previous p with Some b => [internalSecretName sha256_hex (g_release p) b] | None => [] end.

Definition collect_secrets (p : plan) : action unit :=
  do! deploySpecs := execCapture "kubectl" (list_deployments_args (g_release p) (g_namespace p)) in
  match (if (exitCode deploySpecs =? 0)%Z && negb (is_empty (trim (stdout deploySpecs)))
         then referenced (stdout deploySpecs) else None) with
  | None => ret tt
  | Some names => sweep p "secrets" "secret" INTERNAL_SECRET_COMPONENT (names ++ in_play_secrets p)
  end.

Definition gcSupersededResources (p : plan) : action unit :=
  do! _ := collect_deployments p in
  do! _ := ignore (cleanupRetainedStablePoolResources (g_release p) (g_pools p ++ g_previousPools p)
             (Some (g_namespace p)) (hasHealthCheckPolicy p)) in
  do! _ := sweep p "jobs" "job" "route-ext-job" [routeExtJobName sha256_hex (g_release p) (g_build p)] in
  do! _ := collect_configmaps p in
  collect_secrets p.

(** ** The capacity of a rollback *)

Definition ROLLBACK_MIN_REPLICAS : Z := 2.

Record LiveCapacity := mkLive {
  specReplicas : option Z; readyReplicas : option Z; hpaDesired : option Z; hpaMax : option Z
}.

Record scaling := mkScaling { s_min : Z; s_max : Z; targetCPU : Z }.
Record capacity := mkCapacity { replicas : Z; c_min : Z; c_max : Z }.

Definition planRollbackCapacity (observed : LiveCapacity) (s : scaling) : capacity :=
  let live := Z.max (Z.max (default 0%Z (specReplicas observed)) (default 0%Z (readyReplicas observed)))
                (default 0%Z (hpaDesired observed)) in
  let replicas := Z.max (Z.max ROLLBACK_MIN_REPLICAS (s_min s)) live in
  mkCapacity replicas replicas (Z.max (Z.max (s_max s) (default 0%Z (hpaMax observed))) replicas).

(** The digits that parseInt(s, 10) reads, and their value. *)
Fixpoint leading_digits (s : string) : string :=
  match s with
  | String c s' => if is_digit c then String c (leading_digits s') else EmptyString
  | EmptyString => EmptyString
  end.

Definition parse_int (s : string) : option Z :=
  let digits (sign : Z) (t : string) :=
    match leading_digits t with EmptyString => None | d => Some (sign * digits_value 0 d)%Z end in
  match trim_start s with
  | String "-" t => digits (-1)%Z t
  | String "+" t => digits 1%Z t
  | t => digits 1%Z t
  end.

(** The fields of the first line of a jsonpath of three. *)
Definition field (out : string) (i : nat) : string := default "" (split_on "|" (trim out) !! i).

Definition get_path_args (kind name namespace path : string) : list string :=
  ["get"; kind; name; "-n"; namespace; "--ignore-not-found"; "-o"; "jsonpath=" +:+ path].

Definition readLiveCapacity (releaseName pool currentBuildId namespace : string)
    : action (LiveCapacity * list string) :=
  let names := poolResourceNames releaseName pool currentBuildId in
  do! dep := execCapture "kubectl" (get_path_args "deployment" (deployment names) namespace
               "{.metadata.name}|{.spec.replicas}|{.status.readyReplicas}") in
  let dep_ok := (exitCode dep =? 0)%Z in
  let dep_found := dep_ok && negb (is_empty (field (stdout dep) 0)) in
  do! hpaRes := execCapture "kubectl" (get_path_args "hpa" (hpa names) namespace
               "{.metadata.name}|{.status.desiredReplicas}|{.spec.maxReplicas}") in
  let hpa_ok := (exitCode hpaRes =? 0)%Z in
  let hpa_found := hpa_ok && negb (is_empty (field (stdout hpaRes) 0)) in
  let read (found : bool) (out : string) (i : nat) := if found then parse_int (field out i) else None in
  ret (mkLive (read dep_found (stdout dep) 1%nat) (read dep_found (stdout dep) 2%nat)
         (read hpa_found (stdout hpaRes) 1%nat) (read hpa_found (stdout hpaRes) 2%nat),
       (if dep_ok then [] else ["deployment " +:+ deployment names])
       ++ (if hpa_ok then [] else ["hpa " +:+ hpa names])).

(** ** Parking the build a rollback leaves *)

Record PoolDeploy := mkDeploy { d_pool : string; d_name : string; d_hpa : string }.

Definition scaleDownCurrentBuild (namespace : string) (currentDeploys : list PoolDeploy) (replicas : Z)
    : action unit :=
  each (λ d,
    do! _ := execOrThrow "kubectl" (delete_args "hpa" (d_hpa d) namespace) in
    execOrThrow "kubectl" (scale_args (d_name d) namespace replicas)) currentDeploys.
End Operations.

End Gc.
