(* ===== verification/GcFacts.v ===== *)
(** * Garbage collection spares the builds in play

    The objects of a namespace, as kubectl shows and deletes them, are stated as the class
    [ObjectApi]; against it, the collection after a cutover deletes nothing that the current or the
    previous build needs.  [store] is an instance. *)
From Stdlib Require Import Ascii String.
From S2P Require Import Prelude JsString Json JsonParse K8sNames PlanParse Effects StablePools ReleaseNames Gc.
Import K8sNames StablePools ReleaseNames Gc.
Local Open Scope stdpp_scope.
Local Open Scope js_scope.

Module GcFacts.

(** A member of a list of constants. *)
Ltac by_list := repeat first [apply list_elem_of_here | apply list_elem_of_further].

(** ** The API server's side *)

Definition label (doc : json) (key : string) : option json := jget (jget (jget (Some doc) "metadata") "labels") key.
Definition object_name (doc : json) : option json := jget (jget (Some doc) "metadata") "name".

Definition singular (resource : string) : string :=
  match resource with
  | "deployments" => "deployment" | "configmaps" => "configmap" | "jobs" => "job" | "secrets" => "secret"
  | r => r
  end.

Definition deletes (args : list string) : option (string * string) :=
  match args with "delete" :: kind :: name :: _ => Some (kind, name) | _ => None end.

Definition selector_text (ls : list (string * string)) : string :=
  join "," (map (λ f, f.1 +:+ "=" +:+ f.2) ls).

Definition has_labels (doc : json) (ls : list (string * string)) : Prop :=
  ∀ k v, (k, v) ∈ ls → label doc k = Some (JStr v).

Definition list_args (ns resource : string) (ls : list (string * string)) : list string :=
  ["get"; resource; "-n"; ns; "-l"; selector_text ls; "-o"; "json"].

(** The selectors and the components a collection lists. *)
Definition selectors (release : string) : list (list (string * string)) :=
  [[(NAME, release)]; [(NAME, release); (ADAPTER_RELEASE_LABEL, release)];
   [(NAME, release); (COMPONENT, "retained-build-inventory")]].

Definition components : list string :=
  ["route-ext-job"; ROUTING_MANIFEST_SNAPSHOT_COMPONENT; COMPOSITION_PLAN_COMPONENT; EMIT_METADATA_COMPONENT;
   INTERNAL_SECRET_COMPONENT].

Class ObjectApi (W : Type) `{!Exec W} (ns release : string) := {
  stored : W → string → string → option json;
  delete_removes : ∀ cmd args kind name w r w',
    execCapture cmd args w = (r, w') → deletes args = Some (kind, name) →
    ∀ k n, stored w' k n = stored w k n ∨ (k = kind ∧ n = name ∧ stored w' k n = None);
  get_keeps : ∀ cmd rest w r w',
    execCapture cmd ("get" :: rest) w = (r, w') → ∀ k n, stored w' k n = stored w k n;
  get_reads : ∀ kind name w r w' doc,
    execCapture "kubectl" (get_object_args kind name ns) w = (Returns r, w') → exitCode r = 0%Z →
    json_parse (stdout r) = Some doc → stored w kind name = Some doc;
  list_shape : ∀ resource ls w r w', ls ∈ selectors release →
    execCapture "kubectl" (list_args ns resource ls) w = (Returns r, w') → exitCode r = 0%Z →
    ∃ items, jget (json_parse (stdout r)) "items" = Some (JArr items);
  list_reads : ∀ resource ls w r w' items item, ls ∈ selectors release →
    execCapture "kubectl" (list_args ns resource ls) w = (Returns r, w') → exitCode r = 0%Z →
    jget (json_parse (stdout r)) "items" = Some (JArr items) → item ∈ items →
    has_labels item ls ∧ ∃ n, object_name item = Some (JStr n) ∧ stored w (singular resource) n = Some item;
  list_complete : ∀ resource ls w r w' items n doc, ls ∈ selectors release →
    execCapture "kubectl" (list_args ns resource ls) w = (Returns r, w') → exitCode r = 0%Z →
    jget (json_parse (stdout r)) "items" = Some (JArr items) →
    stored w (singular resource) n = Some doc → has_labels doc ls → doc ∈ items;
  names_read : ∀ resource component w r w' n, component ∈ components →
    execCapture "kubectl" (list_names_args resource release component ns) w = (Returns r, w') →
    exitCode r = 0%Z → n ∈ lines (stdout r) → n ≠ "" →
    ∃ doc, stored w (singular resource) n = Some doc ∧ has_labels doc [(NAME, release); (COMPONENT, component)]
}.

(** ** What the two builds need *)

Section InPlay.
Context (sha256_hex : string → string) (p : plan) (start : string → string → option json).

Definition keep_pools : list string := g_pools p ++ g_previousPools p.

Definition in_play_deployments : list string :=
  build_deployments (g_release p) (g_build p) (g_pools p)
  ++ match previous p with
     | Some b => build_deployments (g_release p) b (g_previousPools p)
     | None => []
     end.

Definition of_pools (doc : json) : Prop :=
  ∃ pool, label doc COMPONENT = Some (JStr pool) ∧ pool ∈ keep_pools.

(** The per-build ConfigMaps of each component. *)
Definition config_names (b : string) : list (string * list string) :=
  let pair (name : string → string → string) := [name (g_release p) (g_build p); name (g_release p) b] in
  [(ROUTING_MANIFEST_SNAPSHOT_COMPONENT, pair (routingManifestSnapshotName sha256_hex));
   (COMPOSITION_PLAN_COMPONENT, pair compositionPlanConfigMapName);
   (EMIT_METADATA_COMPONENT, pair (emitMetadataConfigMapName sha256_hex))].

(** The build that a retained inventory is of. *)
Definition inventory_build (doc : json) : option json :=
  match jget (jget (Some doc) "data") "inventory.json" with
  | Some (JStr text) => jget (json_parse text) "buildId"
  | _ => None
  end.

Inductive in_play : string → string → json → Prop :=
| play_deployment name doc : kept_deployment p name = true → in_play "deployment" name doc
| play_service name doc : of_pools doc → name ∈ in_play_deployments → in_play "service" name doc
| play_policy name doc target :
    of_pools doc → jget (jget (jget (Some doc) "spec") "targetRef") "name" = Some (JStr target) →
    target ∈ in_play_deployments → in_play "healthcheckpolicy" name doc
| play_stable kind name doc : of_pools doc → label doc VERSION = None → in_play (typeForKind kind) name doc
| play_budget name doc : of_pools doc → in_play "poddisruptionbudget" name doc
| play_backend name doc : of_pools doc → in_play "gcpbackendpolicy" name doc
| play_config b component names name doc :
    previous p = Some b → (component, names) ∈ config_names b →
    label doc COMPONENT = Some (JStr component) → name ∈ names → in_play "configmap" name doc
| play_inventory b build name doc :
    previous p = Some b → label doc COMPONENT = Some (JStr "retained-build-inventory") →
    inventory_build doc = Some (JStr build) → build = g_build p ∨ build = b → in_play "configmap" name doc
| play_unclassified name doc : previous p = None → in_play "configmap" name doc
| play_secret name doc : name ∈ in_play_secrets sha256_hex p → in_play "secret" name doc
| play_referenced name doc deployment d names :
    start "deployment" deployment = Some d → kept_deployment p deployment = true →
    label d NAME = Some (JStr (g_release p)) →
    deployment_secrets d = Some names → name ∈ names → in_play "secret" name doc
| play_job name doc : name = routeExtJobName sha256_hex (g_release p) (g_build p) → in_play "job" name doc
| play_autoscaler name doc : in_play "hpa" name doc.
End InPlay.

Lemma jget_record v k : jget (objectRecord v) k = jget v k.
Proof. by destruct v as [[]|]. Qed.

Lemma is_text_true v s : is_text v s = true ↔ v = Some (JStr s).
Proof.
  unfold is_text, PlanParse.is_text. destruct v as [[]|]; try done.
  rewrite String.eqb_eq. naive_solver.
Qed.

Lemma not_in_play_deployment p name :
  kept_deployment p name = false → name ∉ in_play_deployments p.
Proof.
  unfold kept_deployment, in_play_deployments. intros [[_ H1]%orb_false_iff H2]%orb_false_iff.
  apply bool_decide_eq_false in H1. rewrite elem_of_app. intros [?|Hn]; [done|].
  destruct (previous p); [by apply bool_decide_eq_false in H2|set_solver].
Qed.

Section Safety.
Context {W : Type} `{!Exec W} (sha256_hex : string → string) (p : plan).
Context `{!ObjectApi W (g_namespace p) (g_release p)} (start : string → string → option json).
Abbreviation in_play := (in_play sha256_hex p start).

(** Nothing is created, and nothing of the builds in play is gone. *)
Definition spares (w : W) : Prop :=
  (∀ k n doc, stored w k n = Some doc → start k n = Some doc)
  ∧ (∀ k n doc, in_play k n doc → start k n = Some doc → stored w k n = Some doc).

Lemma spares_same w w' : (∀ k n, stored w' k n = stored w k n) → spares w → spares w'.
Proof. intros H [H1 H2]. split; intros k n doc; rewrite H; eauto. Qed.

Lemma spares_get cmd rest : invariant spares (execCapture cmd ("get" :: rest)).
Proof.
  intros w Hw. destruct (execCapture cmd ("get" :: rest) w) as [r w'] eqn:Hr.
  destruct r; (eapply spares_same; [intros k n; by eapply get_keeps|done]).
Qed.

Lemma spares_delete cmd args k n :
  deletes args = Some (k, n) → (∀ doc, start k n = Some doc → ¬ in_play k n doc) →
  invariant spares (execCapture cmd args).
Proof.
  intros Hd Hn w [H1 H2]. destruct (execCapture cmd args w) as [r w'] eqn:Hr.
  pose proof (delete_removes _ _ _ _ _ _ _ Hr Hd) as Hs.
  assert (spares w'); [|by destruct r]. split; intros k' n' doc.
  - intros Hst. destruct (Hs k' n') as [He|(_ & _ & He)]; rewrite He in Hst; eauto. done.
  - intros Hp Hst. destruct (Hs k' n') as [->|(-> & -> & _)]; [eauto|]. by destruct (Hn doc).
Qed.

(** *** What a read tells its continuation *)

Lemma get_after {A} kind name (f : ExecCaptureResult → io W string A) :
  (∀ r, (∀ doc, exitCode r = 0%Z → json_parse (stdout r) = Some doc → start kind name = Some doc) →
        invariant spares (f r)) →
  invariant spares (ibind (execCapture "kubectl" (get_object_args kind name (g_namespace p))) f).
Proof.
  intros Hf. eapply invariant_after; [|exact Hf]. intros w r w' Hw Hr. split.
  - eapply (invariant_run spares); [apply spares_get|done|exact Hr].
  - intros a -> doc He Hj. apply (proj1 Hw). by eapply get_reads.
Qed.

(** What a listing tells: its items are objects with these labels, and none in play is missing. *)
Definition listed (resource : string) (ls : list (string * string)) (r : ExecCaptureResult) : Prop :=
  exitCode r = 0%Z → ∃ items, jget (json_parse (stdout r)) "items" = Some (JArr items) ∧
    (∀ item, item ∈ items → has_labels item ls
       ∧ ∃ n, object_name item = Some (JStr n) ∧ start (singular resource) n = Some item)
    ∧ (∀ n doc, in_play (singular resource) n doc → start (singular resource) n = Some doc →
                has_labels doc ls → doc ∈ items).

Lemma list_triple resource ls :
  ls ∈ selectors (g_release p) →
  triple spares (execCapture "kubectl" (list_args (g_namespace p) resource ls))
    (λ r w, listed resource ls r ∧ spares w) (λ _, spares).
Proof.
  intros Hls w Hw. destruct (execCapture _ _ w) as [r w'] eqn:Hr.
  assert (spares w') as Hw'.
  { eapply (invariant_run spares); [apply spares_get|done|exact Hr]. }
  destruct r as [r|]; [|done]. split; [|done]. intros He.
  destruct (list_shape _ _ _ _ _ Hls Hr He) as [items Hi]. exists items. split; [done|]. split.
  - intros item Hin. destruct (list_reads _ _ _ _ _ _ _ Hls Hr He Hi Hin) as (Hl & n & Hn & Hs).
    split; [done|]. exists n. split; [done|]. by apply (proj1 Hw).
  - intros n doc Hp Hs Hl. eapply list_complete; [exact Hls|exact Hr|done|done| |done]. by apply (proj2 Hw).
Qed.

Lemma list_after {A} resource ls (f : ExecCaptureResult → io W string A) :
  ls ∈ selectors (g_release p) →
  (∀ r, listed resource ls r → invariant spares (f r)) →
  invariant spares (ibind (execCapture "kubectl" (list_args (g_namespace p) resource ls)) f).
Proof. intros Hls Hf. eapply triple_bind; [by apply list_triple|]. intros r. apply triple_pure, Hf. Qed.

Lemma names_after {A} resource component (f : ExecCaptureResult → io W string A) :
  component ∈ components →
  (∀ r, (exitCode r = 0%Z → ∀ n, n ∈ lines (stdout r) → n ≠ "" →
          ∃ doc, start (singular resource) n = Some doc
                 ∧ label doc COMPONENT = Some (JStr component)) →
        invariant spares (f r)) →
  invariant spares (ibind (execCapture "kubectl"
    (list_names_args resource (g_release p) component (g_namespace p))) f).
Proof.
  intros Hc Hf. eapply invariant_after; [|exact Hf]. intros w r w' Hw Hr. split.
  - eapply (invariant_run spares); [apply spares_get|done|exact Hr].
  - intros a -> He n Hn Hne. destruct (names_read _ _ _ _ _ _ Hc Hr He Hn Hne) as (doc & Hs & Hl).
    exists doc. split; [by apply (proj1 Hw)|]. apply Hl. set_solver.
Qed.

Lemma spares_ignore {A} (m : io W string A) : invariant spares m → invariant spares (ignore m).
Proof. intros Hm. apply invariant_catch; [|intros; apply invariant_ret].
  apply invariant_bind; [done|intros; apply invariant_ret].
Qed.

Lemma spares_each {A} (f : A → io W string unit) l :
  (∀ x, x ∈ l → invariant spares (f x)) → invariant spares (each f l).
Proof.
  induction l as [|x l IH]; intros Hf; simpl; [apply invariant_ret|].
  apply invariant_bind; [apply Hf; set_solver|]. intros _. apply IH. intros y Hy. apply Hf. set_solver.
Qed.

Lemma spares_then {A} (m : io W string A) : invariant spares m → invariant spares (ibind m (λ _, ret tt)).
Proof. intros Hm. apply invariant_bind; [done|intros; apply invariant_ret]. Qed.

(** *** Deployments and their companions *)

Lemma spares_companion kind name releaseName poolName buildId serviceName :
  match kind with CService => name | CHealthCheckPolicy => serviceName end ∉ in_play_deployments p →
  invariant spares (deleteOwnedVersionedCompanion kind name (g_namespace p) releaseName poolName buildId serviceName).
Proof.
  intros Hn. apply spares_ignore, get_after. intros r Hr. apply invariant_if; [intros; apply invariant_ret|].
  intros [He%negb_false_iff%Z.eqb_eq _]%orb_false_iff. apply invariant_if; [|intros; apply invariant_ret].
  unfold owned_companion. rewrite !jget_record. intros Ho.
  apply spares_then. eapply spares_delete; [reflexivity|].
  intros doc Hs Hp. destruct (json_parse (stdout r)) as [doc'|] eqn:Hj; [|by destruct kind].
  rewrite (Hr doc' He eq_refl) in Hs. injection Hs as ->.
  repeat match goal with H : _ && _ = true |- _ => apply andb_true_iff in H as [H ?] end.
  repeat match goal with H : is_text _ _ = true |- _ => apply is_text_true in H end.
  destruct kind; simpl in Hp; inversion Hp; subst; try done; unfold label in *; try congruence;
    try (destruct kind; try done; congruence).
  all: repeat match goal with H : _ && _ = true |- _ => apply andb_true_iff in H as [H ?] end;
    repeat match goal with H : is_text _ _ = true |- _ => apply is_text_true in H end; try congruence.
Qed.

Lemma kept_not_in_play name :
  kept_deployment p name = false → ∀ doc, ¬ in_play "deployment" name doc.
Proof.
  intros Hk doc Hp. inversion Hp; subst; try congruence. destruct kind; done.
Qed.

Lemma spares_deployment deployment : invariant spares (collect_deployment p deployment).
Proof.
  unfold collect_deployment. destruct deployment; try apply invariant_ret; [apply invariant_throw|].
  destruct (jget (jget _ "metadata") "name") as [[| | |[|c name]| |]|], (previous p) as [prev|];
    try apply invariant_ret.
  all: apply invariant_if; [intros; apply invariant_ret|]; intros Hk.
  all: destruct (owned_deployment _ _) as [[pool build]|]; [|apply invariant_ret].
  all: apply invariant_if; [intros; apply invariant_ret|]; intros _.
  all: pose proof (not_in_play_deployment _ _ Hk) as Hn.
  all: apply invariant_bind;
    [eapply spares_delete; [reflexivity|]; intros doc _; by apply kept_not_in_play|intros _].
  all: apply invariant_bind; [by apply spares_companion|intros _].
  all: apply invariant_if; intros _; [by apply spares_companion|apply invariant_ret].
Qed.

Lemma spares_deployments : invariant spares (collect_deployments p).
Proof.
  apply invariant_bind; [apply spares_get|]. intros r. apply invariant_if; intros _; [|apply invariant_ret].
  destruct (jget _ _) as [[]|]; try apply invariant_ret. apply spares_each. intros. apply spares_deployment.
Qed.

(** *** Sweeps *)

Lemma spares_sweep resource kind component keep :
  singular resource = kind → component ∈ components →
  (∀ n doc, label doc COMPONENT = Some (JStr component) → in_play kind n doc → n ∈ keep) →
  invariant spares (sweep p resource kind component keep).
Proof.
  intros <- Hc Hk. apply names_after; [done|]. intros r Hr.
  apply invariant_if; [intros He%Z.eqb_eq|intros; apply invariant_ret].
  apply spares_each. intros n Hn. unfold sweep_one. apply invariant_if; [intros; apply invariant_ret|].
  intros [Hne Hno]%orb_false_iff. apply bool_decide_eq_false in Hno.
  assert (n ≠ "") as Hn0 by by intros ->.
  destruct (Hr He n Hn Hn0) as (doc & Hs & Hl).
  apply spares_then. eapply spares_delete; [reflexivity|]. intros doc' Hs' Hp. simplify_eq. eauto.
Qed.

(** *** Stable resources *)

Lemma validated value kind releaseName pool namespace b resource :
  validateStableResource value kind releaseName pool namespace b = Returns resource →
  r_kind resource = kind ∧ r_pool resource = pool ∧ object_name value = Some (JStr (r_name resource)).
Proof.
  unfold validateStableResource. destruct (stablePoolResourceNames _ _) as [names|]; [|done].
  cbn [obind]. rewrite !jget_record. intros Hv.
  destruct (is_text (jget (jget (Some value) "metadata") "name") _) eqn:Hn; [|done].
  apply is_text_true in Hn. repeat (case_match; try done); by simplify_eq.
Qed.

Lemma classified kind namespace keep item resource :
  classify_item kind (g_release p) namespace keep item = Some (Returns resource) →
  r_kind resource = kind ∧ object_name item = Some (JStr (r_name resource))
  ∧ label item COMPONENT = Some (JStr (r_pool resource)) ∧ r_pool resource ∉ keep.
Proof.
  unfold classify_item. rewrite !jget_record. intros Hc. unfold label.
  destruct (match jget _ RETAINED_STABLE_POOL_LABEL with Some _ => _ | None => _ end); [done|].
  destruct (negb _ && negb _); [done|].
  destruct (jget (jget _ "labels") COMPONENT) as [[| | |pool| |]|]; try done.
  destruct (pool =? "routing-service")%string; [done|].
  destruct (validateStableResource _ _ _ _ _ _) as [r|] eqn:Hv; [|done].
  apply validated in Hv as (Hk & <- & Hn). destruct (bool_decide _) eqn:Hb; [done|]. simplify_eq.
  split_and!; [done|done|done|]. by eapply bool_decide_eq_false_1.
Qed.

Definition removable (r : StableResource) : Prop :=
  ∃ doc, start (typeForKind (r_kind r)) (r_name r) = Some doc
         ∧ label doc COMPONENT = Some (JStr (r_pool r)) ∧ r_pool r ∉ keep_pools p.

Lemma removable_free r : removable r → ∀ doc, start (typeForKind (r_kind r)) (r_name r) = Some doc →
  ¬ in_play (typeForKind (r_kind r)) (r_name r) doc.
Proof.
  intros (doc & Hs & Hl & Hk) doc' Hs' Hp. simplify_eq.
  assert (of_pools p doc → False) as Hf.
  { intros (pool & Hl' & Hin). rewrite Hl in Hl'. by simplify_eq. }
  destruct (r_kind r); simpl in Hp; inversion Hp; subst; auto.
Qed.

Lemma retained_args kind namespace :
  list_retained_args kind (g_release p) namespace
  = list_args namespace (typeForKind kind) [(NAME, g_release p); (ADAPTER_RELEASE_LABEL, g_release p)].
Proof. unfold list_retained_args, list_args, selector_text. cbn [map join fst snd]. by rewrite !append_assoc. Qed.

Lemma add_item_removable kind items found :
  (∀ item, item ∈ items → ∃ n, object_name item = Some (JStr n) ∧ start (typeForKind kind) n = Some item) →
  Forall removable found.1 →
  Forall removable (foldl (add_item kind (g_release p) (g_namespace p) (keep_pools p)) found items).1.
Proof.
  revert found. induction items as [|item items IH]; intros found Hi Hf; [done|]. simpl.
  apply IH; [intros; apply Hi; set_solver|]. unfold add_item.
  destruct (classify_item _ _ _ _ item) as [[r|e]|] eqn:Hc; [|done|done]. simpl.
  apply Forall_app_2; [done|]. apply Forall_singleton.
  apply classified in Hc as (Hk & Hn & Hl & Hp).
  destruct (Hi item) as (n & Hn' & Hs); [set_solver|]. exists item.
  rewrite Hn in Hn'. injection Hn' as <-. by rewrite Hk.
Qed.

Lemma spares_list_kinds kinds found :
  Forall removable found.1 →
  triple spares (list_kinds (g_release p) (g_namespace p) (keep_pools p) kinds found)
    (λ found w, Forall removable found.1 ∧ spares w) (λ _, spares).
Proof.
  revert found. induction kinds as [|kind kinds IH]; intros found Hf; simpl; [by apply triple_ret|].
  rewrite retained_args. eapply triple_bind; [apply list_triple; by_list|]. intros r. apply triple_pure. intros Hr.
  apply IH. destruct (exitCode r =? 0)%Z eqn:He; [|done]. apply Z.eqb_eq in He. simpl.
  destruct (Hr He) as (items & -> & Hitems & _).
  apply add_item_removable; [|done]. intros item Hin.
  destruct (Hitems item Hin) as [_ (n & Hn & Hs)]. exists n. split; [done|].
  by destruct kind.
Qed.

Lemma bucket_sub b pool : bucket_of b pool ⊆ concat b.*2.
Proof.
  induction b as [|[q l] b IH]; simpl; [set_solver|]. destruct (q =? pool)%string; set_solver.
Qed.

Lemma set_bucket_sub b pool l : concat (set_bucket b pool l).*2 ⊆ concat b.*2 ++ l.
Proof.
  induction b as [|[q l'] b IH]; simpl; [set_solver|]. destruct (q =? pool)%string; set_solver.
Qed.

Lemma add_resource_removable resources acc :
  Forall removable resources → Forall removable (concat acc.1.*2) →
  Forall removable (concat (foldl add_resource acc resources).1.*2).
Proof.
  revert acc. induction resources as [|r resources IH]; intros acc Hr Ha; [done|]. simpl.
  apply Forall_cons in Hr as [Hr Hrs]. apply IH; [done|]. unfold add_resource.
  destruct (existsb _ _); [done|]. cbn [fst]. rewrite Forall_forall in Ha |- *. intros x Hx.
  apply set_bucket_sub in Hx. rewrite !elem_of_app, list_elem_of_singleton in Hx.
  destruct Hx as [?|[Hx| ->]]; [by apply Ha| |done]. by apply Ha, (bucket_sub _ (r_pool r)).
Qed.

Lemma spares_bucket l failed result :
  Forall removable l → invariant spares (delete_bucket (g_namespace p) failed l result).
Proof.
  revert failed result. induction l as [|r l IH]; intros failed result Hl; simpl; [apply invariant_ret|].
  apply Forall_cons in Hl as [Hr Hl]. apply invariant_if; intros _; [by apply IH|].
  apply invariant_bind; [eapply spares_delete; [reflexivity|]; intros doc; by apply removable_free|].
  intros done_. apply invariant_if; intros _; by apply IH.
Qed.

Lemma spares_buckets b result :
  Forall removable (concat b.*2) → invariant spares (delete_buckets (g_namespace p) b result).
Proof.
  revert result. induction b as [|[q l] b IH]; intros result Hb; simpl; [apply invariant_ret|].
  simpl in Hb. apply Forall_app in Hb as [Hl Hb]. apply invariant_bind; [|intros; by apply IH].
  apply spares_bucket. unfold ordered. rewrite Forall_forall in Hl |- *. intros r Hr.
  apply list_elem_of_In, in_flat_map in Hr as (n & _ & Hr). apply filter_In in Hr as [Hr _].
  apply Hl. by apply list_elem_of_In.
Qed.

Lemma resolved_is namespace n : resolved (Some namespace) = Returns n → n = namespace.
Proof.
  unfold resolved, resolveK8sNamespace. cbn. destruct (assertSafeNamespace _); cbn; by intros; simplify_eq.
Qed.

Lemma spares_cleanup :
  invariant spares (cleanupRetainedStablePoolResources (g_release p) (g_pools p ++ g_previousPools p)
    (Some (g_namespace p)) (hasHealthCheckPolicy p)).
Proof.
  apply invariant_bind; [apply invariant_lift|intros _].
  apply invariant_lift_bind. intros n ->%resolved_is.
  apply invariant_bind; [apply invariant_lift|intros _].
  eapply triple_bind; [by apply spares_list_kinds|]. intros [resources failures]. apply triple_pure.
  intros Hr. apply invariant_if; intros _; [apply invariant_ret|].
  pose proof (add_resource_removable resources ([], []) Hr (List.Forall_nil _)) as Hb.
  destruct (foldl add_resource _ _) as [byPool failures']. apply invariant_if; intros _; [apply invariant_ret|].
  by apply spares_buckets.
Qed.

(** *** ConfigMaps, Secrets, Jobs *)

Lemma deployments_args namespace :
  list_deployments_args (g_release p) namespace = list_args namespace "deployments" [(NAME, g_release p)].
Proof. done. Qed.

Lemma inventories_args namespace :
  list_inventories_args (g_release p) namespace
  = list_args namespace "configmaps" [(NAME, g_release p); (COMPONENT, "retained-build-inventory")].
Proof.
  unfold list_inventories_args, list_args, selector_text. cbn [map join fst snd]. by rewrite !append_assoc.
Qed.

(** An inventory taken for stale is of another build, and is the object of that name. *)
Lemma stale_is_superseded b object name :
  stale_inventory sha256_hex p b object = Returns (Some name) →
  object_name object = Some (JStr name)
  ∧ ∀ build, inventory_build object = Some (JStr build) → build ≠ g_build p ∧ build ≠ b.
Proof.
  unfold stale_inventory, inventory_build. destruct (member object "data") as [data|] eqn:Hm; [|done].
  assert (jget (Some object) "data" = data) as -> by (destruct object; by simplify_eq/=).
  destruct (json_parse _) as [inventory|] eqn:Hj; [|done].
  destruct (jget (Some inventory) "buildId") as [v|] eqn:Hv; [|done].
  destruct (_ || _) eqn:Hor; [done|]. apply orb_false_iff in Hor as [[_ H1]%orb_false_iff H2].
  destruct (retentionName _ _ _) as [expected|]; [|done]. cbn [obind].
  destruct (_ && _) eqn:Ha; [|done]. intros [= <-]. apply andb_true_iff in Ha as [Hn _].
  apply is_text_true in Hn. split; [done|]. intros build Hb.
  destruct (jget data "inventory.json") as [[| | |text| |]|] eqn:Hd; try done.
  cbn in Hj. rewrite Hj, Hv in Hb. injection Hb as ->. cbn in H1, H2.
  by apply String.eqb_neq in H1, H2.
Qed.

Lemma spares_inventories b : previous p = Some b → invariant spares (collect_inventories sha256_hex p b).
Proof.
  intros Hb. unfold collect_inventories. rewrite inventories_args. apply list_after; [by_list|]. intros r Hr.
  apply invariant_if; intros Hex; [|apply invariant_ret].
  apply andb_true_iff in Hex as [He%Z.eqb_eq _].
  destruct (Hr He) as (objects & -> & Hitems & _).
  apply spares_ignore, spares_each. intros object Hin. apply invariant_lift_bind. intros [name|] Hs;
    [|apply invariant_ret].
  apply stale_is_superseded in Hs as [Hn Hold]. destruct (Hitems object Hin) as (Hl & n & Hn' & Hst).
  rewrite Hn in Hn'. injection Hn' as <-.
  apply spares_then. eapply spares_delete; [reflexivity|]. intros doc Hd Hp. cbn in Hst.
  rewrite Hst in Hd. injection Hd as <-.
  assert (label object COMPONENT = Some (JStr "retained-build-inventory")) as Hc by (apply Hl; set_solver).
  inversion Hp as [| | |[] ? ? ? ? Hk| | |b' comp names ? ? Hb' Hcn Hl'|b' build ? ? Hb' Hl' Hi Hor|? ? Hu| | | |];
    subst; try done.
  - rewrite Hc in Hl'. injection Hl' as <-. unfold config_names in Hcn. set_solver.
  - destruct (Hold build Hi) as [H1 H2]. rewrite Hb in Hb'. injection Hb' as ->. naive_solver.
  - congruence.
Qed.

Lemma spares_config b component names :
  previous p = Some b → (component, names) ∈ config_names sha256_hex p b →
  invariant spares (sweep p "configmaps" "configmap" component names).
Proof.
  intros Hb Hc. apply spares_sweep; [done|unfold config_names in Hc; unfold components; set_solver|]. intros n doc Hl Hp.
  assert (component ≠ "retained-build-inventory") as Hne.
  { intros ->. unfold config_names in Hc. set_solver. }
  inversion Hp as [| | |[] ? ? ? ? Hk| | |b' comp names' ? ? Hb' Hcn Hl' Hn|b' build ? ? Hb' Hl'|? ? Hu| | | |];
    subst; try done; try congruence.
  rewrite Hl in Hl'. injection Hl' as <-. rewrite Hb in Hb'. injection Hb' as <-.
  unfold config_names in *. set_unfold. naive_solver.
Qed.

Lemma spares_configmaps : invariant spares (collect_configmaps sha256_hex p).
Proof.
  unfold collect_configmaps. destruct (previous p) as [b|] eqn:Hb; [|apply invariant_ret].
  apply invariant_bind; [by apply spares_inventories|intros _].
  apply invariant_bind; [apply (spares_config b); [done|unfold config_names; set_solver]|intros _].
  apply invariant_bind; [|intros _; apply (spares_config b); [done|unfold config_names; set_solver]].
  apply invariant_if; intros _; [|apply invariant_ret].
  apply (spares_config b); [done|unfold config_names; set_solver].
Qed.

Lemma spares_jobs :
  invariant spares (sweep p "jobs" "job" "route-ext-job" [routeExtJobName sha256_hex (g_release p) (g_build p)]).
Proof.
  apply spares_sweep; [done|by_list|]. intros n doc _ Hp.
  inversion Hp as [| | |[] ? ? ? ? Hk| | | | | | | | |]; subst; try done. set_solver.
Qed.

(** The Secrets of every listed Deployment are among those referenced. *)
Lemma referenced_covers out items names d l :
  referenced out = Some names → jget (json_parse out) "items" = Some (JArr items) → d ∈ items →
  deployment_secrets d = Some l → l ⊆ names.
Proof.
  unfold referenced. intros Hr Hi Hd Hl. destruct (json_parse out) as [parsed|]; [|done]. simpl in Hr.
  destruct (member parsed "items") as [v|] eqn:Hm; [|done]. simpl in Hr.
  assert (v = Some (JArr items)) as -> by (destruct parsed; by simplify_eq/=). simpl in Hr.
  destruct (mapM deployment_secrets items) as [ls|] eqn:Hms; [|done]. simpl in Hr. injection Hr as <-.
  apply mapM_Some_1 in Hms. apply list_elem_of_lookup in Hd as [i Hd].
  destruct (Forall2_lookup_l _ _ _ _ _ Hms Hd) as (l' & Hl' & He). rewrite Hl in He. injection He as <-.
  intros x Hx. apply list_elem_of_In, in_concat. exists l.
  split; apply list_elem_of_In; [by eapply list_elem_of_lookup_2|done].
Qed.

Lemma spares_secrets : invariant spares (collect_secrets sha256_hex p).
Proof.
  unfold collect_secrets. rewrite deployments_args. apply list_after; [by_list|]. intros r Hr.
  destruct (_ && _) eqn:Hok; [|apply invariant_ret]. apply andb_true_iff in Hok as [He%Z.eqb_eq _].
  destruct (referenced (stdout r)) as [names|] eqn:Hn; [|apply invariant_ret].
  apply spares_sweep; [done|by_list|]. intros n doc _ Hp. rewrite elem_of_app.
  inversion Hp as [| | |[] ? ? ? ? Hk| | | | | | |? ? deployment d l Hs Hk Hl Hd Hin| |]; subst; try done;
    [by right|left].
  destruct (Hr He) as (items & Hi & _ & Hall). eapply referenced_covers; [done|done| |done|done].
  eapply Hall; [by apply play_deployment|done|]. intros k v Hkv.
  apply list_elem_of_singleton in Hkv. by simplify_eq.
Qed.

Lemma spares_collection : invariant spares (gcSupersededResources sha256_hex p).
Proof.
  apply invariant_bind; [apply spares_deployments|intros _].
  apply invariant_bind; [apply spares_ignore, spares_cleanup|intros _].
  apply invariant_bind; [apply spares_jobs|intros _].
  apply invariant_bind; [apply spares_configmaps|intros _]. apply spares_secrets.
Qed.
End Safety.

(** C11. The collection after a cutover spares the builds in play: whatever the commands answer and
    wherever it stops, every object that the current or the previous build needs is still there:
    their Deployments, Services and policies, the stable objects of their pools, their ConfigMaps and
    inventories, the Secrets they reference, the running registration Job. *)
Theorem collection_spares_builds_in_play {W} `{!Exec W} sha256_hex p `{!ObjectApi W (g_namespace p) (g_release p)} w r w' k n doc :
  gcSupersededResources sha256_hex p w = (r, w') →
  stored w k n = Some doc → in_play sha256_hex p (stored w) k n doc →
  stored w' k n = Some doc.
Proof.
  intros Hr Hs Hp.
  assert (spares sha256_hex p (stored w) w) as Hw by (split; auto).
  apply (invariant_run _ _ _ _ _ (spares_collection sha256_hex p (stored w)) Hw Hr); done.
Qed.

(** ** A store *)

(** The objects of a namespace by kind and name.  It answers the gets and the listings a collection
    makes of the release "shop", each only when its output reads back. *)
Abbreviation store := (list (string * string * json)).

Fixpoint found (s : store) (kind name : string) : option json :=
  match s with
  | [] => None
  | (k, n, doc) :: s => if String.eqb k kind && String.eqb n name then Some doc else found s kind name
  end.

Definition removed (s : store) (kind name : string) : store :=
  List.filter (λ o, negb (String.eqb o.1.1 kind && String.eqb o.1.2 name)) s.

Definition labelled (ls : list (string * string)) (doc : json) : bool :=
  forallb (λ f, is_text (label doc f.1) f.2) ls.

(** The objects of a kind with some labels. *)
Definition selected (s : store) (kind : string) (ls : list (string * string)) : list (string * json) :=
  omap (λ o, if String.eqb o.1.1 kind && labelled ls o.2 then Some (o.1.2, o.2) else None) s.

Definition reply (ok : bool) (out : string) : outcome string ExecCaptureResult :=
  Returns (if ok then mkResult 0 out "" false else mkResult 1 "" "" false).

Definition items_text (docs : list json) : string := stringify (JObj [("items", JArr docs)]).

Definition answer_list (s : store) (kind : string) (ls : list (string * string)) : outcome string ExecCaptureResult :=
  let l := selected s kind ls in
  reply (bool_decide (jget (json_parse (items_text (map snd l))) "items" = Some (JArr (map snd l)))
         && forallb (λ o, is_text (object_name o.2) o.1 && bool_decide (found s kind o.1 = Some o.2)) l)
    (items_text (map snd l)).

Definition answer_names (s : store) (kind component : string) : outcome string ExecCaptureResult :=
  let l := selected s kind [(NAME, "shop"); (COMPONENT, component)] in
  let out := join (String "010" "") (map fst l) in
  reply (forallb (λ n, String.eqb n "" || match found s kind n with
                                          | Some doc => labelled [(NAME, "shop"); (COMPONENT, component)] doc
                                          | None => false end) (lines out)) out.

Definition answer_get (s : store) (kind name : string) : outcome string ExecCaptureResult :=
  match found s kind name with
  | Some doc => reply (bool_decide (json_parse (stringify doc) = Some doc)) (stringify doc)
  | None => reply true ""
  end.

Definition shelf_get (args : list string) (s : store) : outcome string ExecCaptureResult :=
  let resource := nth 1 args "" in
  match List.find (λ ls, bool_decide (args = list_args "default" resource ls)) (selectors "shop") with
  | Some ls => answer_list s (singular resource) ls
  | None =>
      match List.find (λ c, bool_decide (args = list_names_args resource "shop" c "default")) components with
      | Some c => answer_names s (singular resource) c
      | None =>
          if bool_decide (args = get_object_args resource (nth 2 args "") "default")
          then answer_get s resource (nth 2 args "") else reply false ""
      end
  end.

#[global] Instance shelf_exec : Exec store := {
  execCapture cmd args s :=
    match deletes args with
    | Some (kind, name) => (reply true "", removed s kind name)
    | None => (shelf_get args s, s)
    end;
  execCaptureStdin cmd args text s := (reply false "", s)
}.

Lemma found_removed s kind name k n :
  found (removed s kind name) k n = if String.eqb k kind && String.eqb n name then None else found s k n.
Proof.
  induction s as [|[[k' n'] doc] s IH]; [by cbn; destruct (_ && _)|].
  change (removed ((k', n', doc) :: s) kind name) with
    (if negb (String.eqb k' kind && String.eqb n' name) then (k', n', doc) :: removed s kind name
     else removed s kind name).
  destruct (String.eqb k' kind && String.eqb n' name) eqn:Hd; cbn [negb found].
  - rewrite IH. apply andb_true_iff in Hd as [->%String.eqb_eq ->%String.eqb_eq].
    rewrite (String.eqb_sym kind k), (String.eqb_sym name n). by destruct (_ && _).
  - rewrite IH. destruct (String.eqb k' k && String.eqb n' n) eqn:Hf; [|done].
    apply andb_true_iff in Hf as [->%String.eqb_eq ->%String.eqb_eq]. by rewrite Hd.
Qed.

Lemma labelled_iff ls doc : labelled ls doc = true ↔ has_labels doc ls.
Proof.
  unfold labelled, has_labels. rewrite forallb_In. split.
  - intros H k v Hkv. by apply is_text_true, (H (k, v)).
  - intros H [k v] Hkv. apply is_text_true. by apply H.
Qed.

Lemma reply_zero ok out r : reply ok out = Returns r → exitCode r = 0%Z → ok = true ∧ stdout r = out.
Proof. unfold reply. destruct ok; intros [= <-]; [done|]. intros [=]. Qed.

Lemma selected_in s kind ls n doc :
  (n, doc) ∈ selected s kind ls → labelled ls doc = true.
Proof.
  unfold selected. rewrite list_elem_of_omap. intros ([[k n'] d] & _ & H). cbn in H.
  destruct (String.eqb k kind && labelled ls d) eqn:Hl; [|done].
  apply andb_true_iff in Hl as [_ Hl]. by simplify_eq.
Qed.

Lemma found_in s kind n doc : found s kind n = Some doc → (kind, n, doc) ∈ s.
Proof.
  induction s as [|[[k n'] d] s IH]; cbn; [done|]. destruct (String.eqb k kind && String.eqb n' n) eqn:Hf.
  - apply andb_true_iff in Hf as [->%String.eqb_eq ->%String.eqb_eq]. intros [= ->]. apply list_elem_of_here.
  - intros H. by apply list_elem_of_further, IH.
Qed.

Lemma selected_found s kind ls n doc :
  found s kind n = Some doc → has_labels doc ls → (n, doc) ∈ selected s kind ls.
Proof.
  intros Hf%found_in Hl%labelled_iff. unfold selected. apply list_elem_of_omap. exists (kind, n, doc).
  split; [done|]. cbn. by rewrite String.eqb_refl, Hl.
Qed.

Lemma shelf_capture cmd args s r s' :
  execCapture cmd args s = (Returns r, s') → deletes args = None → shelf_get args s = Returns r ∧ s' = s.
Proof. cbn. intros Hr Hd. rewrite Hd in Hr. by injection Hr as -> ->. Qed.

Lemma shelf_list resource ls s :
  ls ∈ selectors "shop" → shelf_get (list_args "default" resource ls) s = answer_list s (singular resource) ls.
Proof.
  intros Hls. unfold shelf_get. cbn [nth list_args].
  assert (List.find (λ l, bool_decide (list_args "default" resource ls = list_args "default" resource l))
            (selectors "shop") = Some ls) as ->; [|done].
  assert (∀ l, l ∈ selectors "shop" →
    bool_decide (list_args "default" resource ls = list_args "default" resource l) = bool_decide (ls = l)) as Heq.
  { intros l Hl. apply bool_decide_ext. split; [|by intros ->]. intros Ha.
    assert (selector_text ls = selector_text l) as Ht by (unfold list_args in Ha; congruence). clear Ha.
    unfold selectors in *. rewrite !elem_of_cons, elem_of_nil in Hls, Hl.
    destruct Hls as [->|[->|[->|[]]]], Hl as [->|[->|[->|[]]]]; try done. }
  cbn [List.find selectors]. rewrite !Heq by (unfold selectors; by_list).
  unfold selectors in Hls. rewrite !elem_of_cons, elem_of_nil in Hls.
  by destruct Hls as [->|[->|[->|[]]]].
Qed.

Lemma find_none {A} (f : A → bool) l : (∀ x, x ∈ l → f x = false) → List.find f l = None.
Proof.
  induction l as [|x l IH]; cbn; [done|]. intros H. rewrite H by set_solver. apply IH. set_solver.
Qed.

Lemma no_listing args s :
  (∀ ls, args ≠ list_args "default" (nth 1 args "") ls) →
  shelf_get args s
  = match List.find (λ c, bool_decide (args = list_names_args (nth 1 args "") "shop" c "default")) components with
    | Some c => answer_names s (singular (nth 1 args "")) c
    | None =>
        if bool_decide (args = get_object_args (nth 1 args "") (nth 2 args "") "default")
        then answer_get s (nth 1 args "") (nth 2 args "") else reply false ""
    end.
Proof.
  intros H. unfold shelf_get. cbv zeta. rewrite find_none; [done|]. intros ls _.
  by apply bool_decide_eq_false_2.
Qed.

Lemma shelf_names resource component s :
  component ∈ components →
  shelf_get (list_names_args resource "shop" component "default") s = answer_names s (singular resource) component.
Proof.
  intros Hc. rewrite no_listing by (intros ls Ha; by inversion Ha).
  cbn [nth list_names_args].
  assert (List.find (λ c, bool_decide (list_names_args resource "shop" component "default"
                                       = list_names_args resource "shop" c "default")) components
          = Some component) as ->; [|done].
  assert (∀ c, c ∈ components → bool_decide (list_names_args resource "shop" component "default"
            = list_names_args resource "shop" c "default") = bool_decide (component = c)) as Heq.
  { intros c Hc'. apply bool_decide_ext. split; [|by intros ->]. intros Ha. unfold list_names_args in Ha.
    injection Ha as Ha. unfold components in *. rewrite !elem_of_cons, elem_of_nil in Hc, Hc'.
    destruct Hc as [->|[->|[->|[->|[->|[]]]]]], Hc' as [->|[->|[->|[->|[->|[]]]]]]; done. }
  cbn [List.find components]. rewrite !Heq by (unfold components; by_list).
  unfold components in Hc. rewrite !elem_of_cons, elem_of_nil in Hc.
  by destruct Hc as [->|[->|[->|[->|[->|[]]]]]].
Qed.

Lemma shelf_object kind name s : shelf_get (get_object_args kind name "default") s = answer_get s kind name.
Proof.
  rewrite no_listing by (intros ls Ha; by inversion Ha). cbn [nth get_object_args].
  rewrite find_none; [by rewrite bool_decide_eq_true_2|]. intros c _. apply bool_decide_eq_false_2.
  intros Ha. by inversion Ha.
Qed.

#[global] Instance shelf_api : ObjectApi store "default" "shop".
Proof.
  refine {| stored := found |}.
  - intros cmd args kind name s r s' Hr Hd k n. cbn in Hr. rewrite Hd in Hr. injection Hr as <- <-.
    rewrite found_removed. destruct (String.eqb k kind && String.eqb n name) eqn:Hk; [right|by left].
    by apply andb_true_iff in Hk as [->%String.eqb_eq ->%String.eqb_eq].
  - intros cmd rest s r s' Hr k n. cbn in Hr. by injection Hr as _ <-.
  - intros kind name s r s' doc Hr H0 Hj. apply shelf_capture in Hr as [Hr _]; [|done].
    rewrite shelf_object in Hr. unfold answer_get in Hr.
    destruct (found s kind name) as [d|]; apply reply_zero in Hr as [Hb Ho]; try done;
      rewrite Ho in Hj; [|done]. apply bool_decide_eq_true in Hb. congruence.
  - intros resource ls s r s' Hls Hr H0. apply shelf_capture in Hr as [Hr _]; [|done].
    rewrite shelf_list in Hr by done. unfold answer_list in Hr. cbv zeta in Hr.
    apply reply_zero in Hr as [Hb ->]; [|done]. apply andb_true_iff in Hb as [Hb _].
    apply bool_decide_eq_true in Hb. eauto.
  - intros resource ls s r s' items item Hls Hr H0 Hi Hin. apply shelf_capture in Hr as [Hr _]; [|done].
    rewrite shelf_list in Hr by done. unfold answer_list in Hr. cbv zeta in Hr.
    apply reply_zero in Hr as [Hb Ho]; [|done]. apply andb_true_iff in Hb as [Hb Hf].
    apply bool_decide_eq_true in Hb. rewrite Ho in Hi. rewrite Hb in Hi. injection Hi as <-.
    apply list_elem_of_fmap in Hin as ([n d] & -> & Hin). cbn. split; [by eapply labelled_iff, selected_in|].
    exists n. rewrite forallb_In in Hf. apply Hf in Hin as [Hn Hd]%andb_true_iff. cbn in Hn, Hd.
    by apply is_text_true in Hn; apply bool_decide_eq_true in Hd.
  - intros resource ls s r s' items n doc Hls Hr H0 Hi Hf Hl. apply shelf_capture in Hr as [Hr _]; [|done].
    rewrite shelf_list in Hr by done. unfold answer_list in Hr. cbv zeta in Hr.
    apply reply_zero in Hr as [Hb Ho]; [|done]. apply andb_true_iff in Hb as [Hb _].
    apply bool_decide_eq_true in Hb. rewrite Ho in Hi. rewrite Hb in Hi. injection Hi as <-.
    apply (list_elem_of_fmap_2 snd _ (n, doc)). by apply selected_found.
  - intros resource component s r s' n Hc Hr H0 Hn Hne. apply shelf_capture in Hr as [Hr _]; [|done].
    rewrite shelf_names in Hr by done. unfold answer_names in Hr. cbv zeta in Hr.
    apply reply_zero in Hr as [Hb Ho]; [|done]. rewrite Ho in Hn. rewrite forallb_In in Hb.
    specialize (Hb n Hn). rewrite (proj2 (String.eqb_neq n "")) in Hb by done. cbn [orb] in Hb.
    destruct (found s (singular resource) n) as [d|]; [|done]. exists d. split; [done|]. by apply labelled_iff.
Defined.

(** Three builds of one pool, the oldest superseded. *)
Definition env_entry (f : string * string) : json := JObj [("name", JStr f.1); ("value", JStr f.2)].

Definition deployment_of (build : string) : string * string * json :=
  ("deployment", "shop-web-" +:+ build,
   JObj [("metadata", JObj [("name", JStr ("shop-web-" +:+ build));
           ("labels", JObj [(NAME, JStr "shop"); (ADAPTER_RELEASE_LABEL, JStr "shop");
                            (COMPONENT, JStr "web"); (VERSION, JStr build)])]);
         ("spec", JObj [("template", JObj [("spec", JObj [("containers", JArr
           [JObj [("name", JStr "pool-server");
                  ("env", JArr (map env_entry [("NEXT_BUILD_ID", build); ("POOL_NAME", "web");
                                               ("RELEASE_NAME", "shop")]))]])])])])]).

Definition sample_shelf : store := [deployment_of "v1"; deployment_of "v2"; deployment_of "v3"].
Definition sample_plan : plan := mkPlan "shop" "default" "v3" (Some "v2") ["web"] ["web"] false false.
Definition collected : store := (gcSupersededResources (λ _, "0a1b2c3d4e5f6a7b8c9d") sample_plan sample_shelf).2.

Example superseded_is_deleted : found collected "deployment" "shop-web-v1" = None.
Proof. vm_compute. reflexivity. Qed.

#[global] Instance sample_api : ObjectApi store (g_namespace sample_plan) (g_release sample_plan) := shelf_api.

Lemma collection_spares_builds_in_play_witness :
  stored (ObjectApi := sample_api) collected "deployment" "shop-web-v2" = Some (deployment_of "v2").2.
Proof.
  apply (collection_spares_builds_in_play (λ _, "0a1b2c3d4e5f6a7b8c9d") sample_plan sample_shelf (Returns tt)
    collected "deployment" "shop-web-v2" (deployment_of "v2").2).
  - vm_compute. reflexivity.
  - vm_compute. reflexivity.
  - apply play_deployment. vm_compute. reflexivity.
Defined.
End GcFacts.
