(* ===== verification/Resp.v ===== *)
(** * The RESP2 wire format of the Valkey client

    Models the codec of src/src/pool-server/valkey-cache/resp-client.ts: the command encoder, the
    framing pass that measures one reply without copying it, and the reply parser.  A Buffer is a
    list of bytes, integers from 0 to 255.  Buffer.prototype.toString is the parameter [decode];
    Buffer.from of a string is [utf8].  Positions are exact integers: the rounding of doubles past
    2^53 is left out, every cap being below. *)
From Stdlib Require Import Ascii String DecimalString.
From S2P Require Import Prelude JsString Regex Json JsonParse.
Local Open Scope stdpp_scope.
Local Open Scope js_scope.
Local Open Scope Z_scope.

Module Resp.

Abbreviation bytes := (list Z).

Definition size (b : bytes) : Z := Z.of_nat (length b).

(** Buffer.from(string): the UTF-8 encoding of code units below 256. *)
Fixpoint utf8 (s : string) : bytes :=
  match s with
  | EmptyString => []
  | String c s' =>
      let n := Z.of_nat (code c) in
      (if n <? 128 then [n] else [Z.lor 192 (Z.shiftr n 6); Z.lor 128 (Z.land n 63)]) ++ utf8 s'
  end.

Definition CRLF : bytes := [13; 10].

(** ** Commands *)

Inductive Arg :=
| AText (s : string)
| ANumber (n : num)
| ABuffer (b : bytes).

(** String(n) *)
Definition number_text (n : num) : string :=
  match n with
  | NInt n => z_text n
  | NFrac t => t
  | NInf negative => if negative then "-Infinity" else "Infinity"
  | NNaN => "NaN"
  end.

Definition arg_body (a : Arg) : bytes :=
  match a with AText s => utf8 s | ANumber n => utf8 (number_text n) | ABuffer b => b end.

Definition encodeCommand (args : list Arg) : bytes :=
  utf8 ("*" +:+ z_text (Z.of_nat (length args))) ++ CRLF
  ++ flat_map (λ a, let body := arg_body a in
                    utf8 ("$" +:+ z_text (size body)) ++ CRLF ++ body ++ CRLF) args.

(** ** Numbers *)

(** The integer a text of decimal digits with an optional sign denotes. *)
Definition integer_text (s : string) : option Z :=
  match s with
  | String "+" d => Z.of_uint <$> NilZero.uint_of_string d
  | _ => Z.of_int <$> NilZero.int_of_string s
  end.

Definition radix_digit (base : Z) (c : ascii) : option Z :=
  let n := Z.of_nat (code (lower_char c)) in
  let v := if n <=? 57 then n - 48 else n - 87 in
  if (48 <=? n) && ((n <=? 57) || (97 <=? n)) && (v <? base) then Some v else None.

Fixpoint radix_value (base acc : Z) (s : string) : option Z :=
  match s with
  | EmptyString => Some acc
  | String c s' =>
      match radix_digit base c with Some v => radix_value base (base * acc + v) s' | None => None end
  end.

(** The binary, octal and hexadecimal integers of StringNumericLiteral. *)
Definition radix_text (s : string) : option Z :=
  match s with
  | String "0" (String x d) =>
      let base := match lower_char x with "x" => 16 | "o" => 8 | "b" => 2 | _ => 0 end%char in
      if (base =? 0) || is_empty d then None else radix_value base 0 d
  | _ => None
  end.

Definition DECIMAL_LITERAL_RE : string := "^[+-]?(?:[0-9]+\.?[0-9]*|\.[0-9]+)(?:[eE][+-]?[0-9]+)?$".

Definition exact_num (n : Z) (t : string) : num := if safe_integer n then NInt n else NFrac t.

(** Number(s).  A decimal literal that is not the text of a safe integer is kept as its text. *)
Definition js_number (s : string) : num :=
  let t := trim s in
  if is_empty t then NInt 0
  else match integer_text t with
       | Some n => exact_num n t
       | None =>
           if re_test DECIMAL_LITERAL_RE t then NFrac t
           else match radix_text t with
                | Some n => exact_num n t
                | None =>
                    if String.eqb t "Infinity" || String.eqb t "+Infinity" then NInf false
                    else if String.eqb t "-Infinity" then NInf true
                    else NNaN
                end
       end.

Definition DECIMAL_INTEGER : string := "^-?\d+$".

(** Number.isInteger excludes texts that overflow to Infinity; here they are integers past every cap. *)
Definition parseRespLength (line : string) : option Z :=
  if re_test DECIMAL_INTEGER line then
    match integer_text line with
    | Some value => if -1 <=? value then Some value else None
    | None => None
    end
  else None.

(** ** Replies *)

Inductive Reply :=
| RSimple (line : string)
| RError (line : string)
| RInteger (n : num)
| RBulk (b : bytes)
| RNull
| RArray (items : list Reply).

(** Why a command or a connection fails; a RespError of the server keeps its line. *)
Inductive failure :=
| ServerError (line : string)
| ClusterRedirect (line : string)
| ProtocolError
| SocketError
| ConnectionClosed
| CommandTimeout
| ConnectFailed
| InvalidUrl
| NotConnected
| CircuitOpen
| ClientClosed.

Definition MAX_HEADER_LINE_BYTES : Z := 8 * 1024.
Definition MAX_ARRAY_ELEMENTS : Z := 1000000.
Definition MAX_FRAME_DEPTH : nat := 32.
Definition DEFAULT_MAX_REPLY_BYTES : Z := 64 * 1024 * 1024.
Definition MAX_BUFFERED_FACTOR : Z := 4.

(** The bytes from a position on. *)
Definition from_offset (buf : bytes) (offset : Z) : bytes := drop (Z.to_nat offset) buf.

Fixpoint find_crlf (s : bytes) : option Z :=
  match s with
  | a :: s' =>
      if (a =? 13) && match s' with b :: _ => b =? 10 | [] => false end then Some 0
      else Z.succ <$> find_crlf s'
  | [] => None
  end.

(** buf.indexOf(CRLF, offset) *)
Definition line_end (buf : bytes) (offset : Z) : option Z :=
  Z.add offset <$> find_crlf (from_offset buf offset).

(** buf.subarray(a, b) *)
Definition slice (buf : bytes) (a b : Z) : bytes := take (Z.to_nat (b - a)) (from_offset buf a).

(** ** The framing pass *)

Inductive scan := End_ (end_ : Z) | Need (need : Z).

Section Decode.
Variable decode : bytes → string.

Definition text_line (buf : bytes) (offset lineEnd : Z) : string :=
  decode (slice buf (offset + 1) lineEnd).

Fixpoint scan_elements (frame : Z → outcome failure scan) (count : nat) (cursor : Z)
    : outcome failure scan :=
  match count with
  | O => Returns (End_ cursor)
  | S count =>
      let! sub := frame cursor in
      match sub with
      | Need n => Returns (Need n)
      | End_ e => scan_elements frame count e
      end
  end.

(** scanFrameEnd with [levels] nested frames left before the depth cap. *)
Fixpoint scan_frame (levels : nat) (buf : bytes) (limit offset : Z) : outcome failure scan :=
  match levels with
  | O => Throws ProtocolError
  | S levels =>
      match from_offset buf offset with
      | [] => Returns (Need (offset + 1))
      | type :: _ =>
          let lineEnd := line_end buf offset in
          if match lineEnd with None => true | Some e => MAX_HEADER_LINE_BYTES <? e - offset end
             && (MAX_HEADER_LINE_BYTES <? size buf - offset)
          then Throws ProtocolError
          else
            match lineEnd with
            | None => Returns (Need (size buf + 1))
            | Some lineEnd =>
                let after := lineEnd + 2 in
                let line := text_line buf offset lineEnd in
                if (type =? 43) || (type =? 45) || (type =? 58) then
                  if limit <? after then Throws ProtocolError else Returns (End_ after)
                else if type =? 36 then
                  match parseRespLength line with
                  | None => Throws ProtocolError
                  | Some len =>
                      if len =? -1 then Returns (End_ after)
                      else
                        let end_ := after + len + 2 in
                        if limit <? end_ then Throws ProtocolError
                        else if end_ <=? size buf then Returns (End_ end_) else Returns (Need end_)
                  end
                else if type =? 42 then
                  match parseRespLength line with
                  | None => Throws ProtocolError
                  | Some count =>
                      if count =? -1 then Returns (End_ after)
                      else if MAX_ARRAY_ELEMENTS <? count then Throws ProtocolError
                      else
                        let! r := scan_elements (scan_frame levels buf limit) (Z.to_nat count) after in
                        match r with
                        | Need n => Returns (Need n)
                        | End_ cursor =>
                            if limit <? cursor then Throws ProtocolError else Returns (End_ cursor)
                        end
                  end
                else Throws ProtocolError
            end
      end
  end.

Definition scanFrameEnd (buf : bytes) (offset limit : Z) : outcome failure scan :=
  scan_frame (S MAX_FRAME_DEPTH) buf limit offset.

(** ** The parser *)

Fixpoint parse_elements (reply : Z → outcome failure (option (Reply * Z))) (count : nat) (cursor : Z)
    : outcome failure (option (list Reply * Z)) :=
  match count with
  | O => Returns (Some ([], cursor))
  | S count =>
      let! next := reply cursor in
      match next with
      | None => Returns None
      | Some (r, cursor) =>
          let! rest := parse_elements reply count cursor in
          match rest with
          | None => Returns None
          | Some (l, cursor) => Returns (Some (r :: l, cursor))
          end
      end
  end.

(** A reply from [offset] on and the position after it; [None] when the reply is incomplete.  The
    lengths are those the framing pass has accepted.  Every nested reply starts after a byte of the
    outer one, so the length of the buffer bounds the recursion. *)
Fixpoint parse_reply (fuel : nat) (buf : bytes) (offset : Z) : outcome failure (option (Reply * Z)) :=
  match fuel with
  | O => Returns None
  | S fuel =>
      match from_offset buf offset, line_end buf offset with
      | type :: _, Some lineEnd =>
          let line := text_line buf offset lineEnd in
          let after := lineEnd + 2 in
          if type =? 43 then Returns (Some (RSimple line, after))
          else if type =? 45 then Returns (Some (RError line, after))
          else if type =? 58 then Returns (Some (RInteger (js_number line), after))
          else if type =? 36 then
            match integer_text line with
            | None => Returns None
            | Some len =>
                if len <? 0 then Returns (Some (RNull, after))
                else
                  let end_ := after + len in
                  if size buf <? end_ + 2 then Returns None
                  else Returns (Some (RBulk (slice buf after end_), end_ + 2))
            end
          else if type =? 42 then
            match integer_text line with
            | None => Returns None
            | Some count =>
                if count <? 0 then Returns (Some (RNull, after))
                else if MAX_ARRAY_ELEMENTS <? count then Throws ProtocolError
                else
                  let! items := parse_elements (parse_reply fuel buf) (Z.to_nat count) after in
                  match items with
                  | None => Returns None
                  | Some (l, cursor) => Returns (Some (RArray l, cursor))
                  end
            end
          else Returns None
      | _, _ => Returns None
      end
  end.

Definition parseReply (buf : bytes) (offset : Z) : outcome failure (option (Reply * Z)) :=
  parse_reply (S (length buf)) buf offset.
End Decode.

End Resp.
