(* ===== verification/RespFacts.v ===== *)
(** * Correctness of the RESP2 codec

    The framing pass and the parser agree on every frame; a frame once measured stays measured as
    bytes arrive, and the size the pass asks for is one below which rescanning is pointless; the
    frames a server writes are read back, whole or cut anywhere. *)
From Stdlib Require Import Ascii String DecimalFacts DecimalZ DecimalString.
From S2P Require Import Prelude JsString Regex Json JsonParse Resp.
Import Resp.
Local Open Scope stdpp_scope.
Local Open Scope js_scope.
Local Open Scope Z_scope.

Module RespFacts.

(** ** Positions *)

Lemma size_app a b : size (a ++ b) = size a + size b.
Proof. unfold size. rewrite length_app. lia. Qed.

Lemma size_cons x b : size (x :: b) = 1 + size b.
Proof. unfold size. cbn. lia. Qed.

Lemma size_nonneg b : 0 ≤ size b.
Proof. unfold size. lia. Qed.

#[local] Hint Resolve size_nonneg : core.
#[local] Hint Rewrite size_app size_cons : size.

Lemma from_offset_app pre b : from_offset (pre ++ b) (size pre) = b.
Proof. unfold from_offset, size. rewrite Nat2Z.id. apply drop_app_length. Qed.

Lemma from_offset_ext buf x offset :
  0 ≤ offset ≤ size buf → from_offset (buf ++ x) offset = from_offset buf offset ++ x.
Proof. unfold from_offset, size. intros H. apply drop_app_le. lia. Qed.

Lemma from_offset_size buf offset : 0 ≤ offset ≤ size buf → size (from_offset buf offset) = size buf - offset.
Proof. unfold from_offset, size. intros H. rewrite length_drop. lia. Qed.

Lemma from_offset_end buf offset : size buf ≤ offset → from_offset buf offset = [].
Proof. unfold from_offset, size. intros H. apply drop_ge. lia. Qed.

Lemma from_offset_cons buf offset b s : from_offset buf offset = b :: s → 0 ≤ offset → offset < size buf.
Proof.
  intros Heq H0. destruct (decide (size buf ≤ offset)) as [H|H]; [|lia].
  by rewrite from_offset_end in Heq.
Qed.

Lemma slice_ext buf x a b : 0 ≤ a → b ≤ size buf → slice (buf ++ x) a b = slice buf a b.
Proof.
  intros Ha Hb. unfold slice. destruct (decide (b ≤ a)) as [Hle|Hlt].
  - replace (Z.to_nat (b - a)) with 0%nat by lia. done.
  - rewrite from_offset_ext by lia. rewrite take_app_le; [done|].
    assert (size (from_offset buf a) = size buf - a) as Hs by (apply from_offset_size; lia).
    unfold size in *. lia.
Qed.

Lemma slice_middle pre a b : slice (pre ++ a ++ b) (size pre) (size pre + size a) = a.
Proof.
  unfold slice. rewrite from_offset_app. replace (size pre + size a - size pre) with (size a) by lia.
  unfold size. rewrite Nat2Z.id. apply take_app_length.
Qed.

(** ** Lines *)

Lemma find_crlf_bounds s i : find_crlf s = Some i → 0 ≤ i ∧ i + 2 ≤ size s.
Proof.
  revert i. induction s as [|a s IH]; intros i; cbn -[size]; [done|].
  destruct (_ && _) eqn:E.
  - intros [= <-]. apply andb_true_iff in E as [_ E]. destruct s as [|b s]; [done|].
    rewrite !size_cons. pose proof (size_nonneg s). lia.
  - destruct (find_crlf s) as [k|]; [|done]. intros [= <-]. destruct (IH k eq_refl). rewrite size_cons. lia.
Qed.

Definition starts_lf (s : bytes) : bool := match s with b :: _ => b =? 10 | [] => false end.

Lemma find_crlf_cons a s :
  find_crlf (a :: s) = if (a =? 13) && starts_lf s then Some 0 else Z.succ <$> find_crlf s.
Proof. done. Qed.

Lemma find_crlf_ext s x i : find_crlf s = Some i → find_crlf (s ++ x) = Some i.
Proof.
  revert i. induction s as [|a s IH]; intros i; [done|]. cbn [app]. rewrite !find_crlf_cons.
  assert (starts_lf s = true → starts_lf (s ++ x) = true) as Hl by (by destruct s).
  destruct (a =? 13), (starts_lf s) eqn:Hs; cbn [andb];
    try (destruct (find_crlf s) as [k|] eqn:Hk; [|done]; rewrite (IH k eq_refl));
    try rewrite Hl by done; try done.
  (* a carriage return at the end of what is known *)
  destruct s as [|b s]; [done|]. cbn in Hs |- *. by rewrite Hs.
Qed.

(** A line holds no CRLF. *)
Definition unbroken (l : bytes) : Prop := find_crlf l = None.

Lemma unbroken_cons a l : unbroken (a :: l) ↔ (a =? 13) && starts_lf l = false ∧ unbroken l.
Proof.
  unfold unbroken. rewrite find_crlf_cons. destruct (_ && _); [naive_solver|].
  destruct (find_crlf l); cbn; naive_solver.
Qed.

Lemma starts_lf_line a l r : (a =? 13) && starts_lf l = false → (a =? 13) && starts_lf (l ++ CRLF ++ r) = false.
Proof. destruct l; cbn; [|done]. intros _. apply andb_false_r. Qed.

Lemma find_crlf_line l r : unbroken l → find_crlf (l ++ CRLF ++ r) = Some (size l).
Proof.
  induction l as [|a l IH]; [done|]. intros [Ha Hl]%unbroken_cons. cbn [app].
  rewrite find_crlf_cons, (starts_lf_line a l r Ha), (IH Hl), size_cons. cbn. f_equal. lia.
Qed.

(** Cut before its end, a line shows no CRLF. *)
Lemma find_crlf_cut l k : unbroken l → (k < length l + 2)%nat → find_crlf (take k (l ++ CRLF)) = None.
Proof.
  revert k. induction l as [|a l IH]; intros k Hl Hk.
  - destruct k as [|[|k]]; [done|done|]. cbn [length] in Hk. lia.
  - apply unbroken_cons in Hl as [Ha Hl]. destruct k as [|k]; [done|]. cbn [length] in Hk. cbn [app take].
    rewrite find_crlf_cons, (IH k Hl) by lia. replace (_ && _) with false; [done|]. symmetry.
    destruct k as [|k]; [by rewrite andb_false_r|]. destruct l as [|b l]; cbn in *; [apply andb_false_r|done].
Qed.

Lemma line_end_bounds buf offset e :
  line_end buf offset = Some e → 0 ≤ offset → offset ≤ e ∧ e + 2 ≤ size buf.
Proof.
  unfold line_end. destruct (find_crlf _) as [i|] eqn:Hi; [|done]. intros [= <-] H0.
  apply find_crlf_bounds in Hi as [Hi1 Hi2].
  destruct (decide (offset ≤ size buf)); [rewrite from_offset_size in Hi2 by lia; lia|].
  rewrite from_offset_end in Hi2 by lia. change (size []) with 0 in Hi2. lia.
Qed.

Lemma line_end_ext buf x offset e :
  line_end buf offset = Some e → 0 ≤ offset → line_end (buf ++ x) offset = Some e.
Proof.
  intros He H0. destruct (line_end_bounds buf offset e He H0).
  unfold line_end in *. rewrite from_offset_ext by lia.
  destruct (find_crlf (from_offset buf offset)) as [i|] eqn:Hi; [|done]. by rewrite (find_crlf_ext _ _ i).
Qed.

Lemma text_line_ext decode buf x offset e :
  line_end buf offset = Some e → 0 ≤ offset → text_line decode (buf ++ x) offset e = text_line decode buf offset e.
Proof.
  intros He H0. destruct (line_end_bounds buf offset e He H0). unfold text_line.
  by rewrite slice_ext by lia.
Qed.

(** ** The texts of lengths *)

Lemma digits_of_uint d : all_chars is_digit (NilEmpty.string_of_uint d) = true.
Proof. induction d; cbn; auto. Qed.

Lemma length_string_of_uint d : String.length (NilEmpty.string_of_uint d) = Decimal.nb_digits d.
Proof. induction d; cbn; congruence. Qed.

Lemma nb_digits_double d :
  (Decimal.nb_digits (Decimal.Little.double d) ≤ S (Decimal.nb_digits d))%nat
  ∧ (Decimal.nb_digits (Decimal.Little.succ_double d) ≤ S (Decimal.nb_digits d))%nat.
Proof. induction d; cbn; lia. Qed.

Lemma nb_digits_little p : (Decimal.nb_digits (Pos.to_little_uint p) ≤ S (Pos.size_nat p))%nat.
Proof.
  induction p as [p IH|p IH|]; cbn; [| |lia];
    pose proof (nb_digits_double (Pos.to_little_uint p)); lia.
Qed.

Lemma nb_digits_pos p : (Decimal.nb_digits (Pos.to_uint p) ≤ S (Pos.size_nat p))%nat.
Proof. unfold Pos.to_uint. rewrite nb_digits_rev. apply nb_digits_little. Qed.

(** A sign or none, then at least one digit. *)
Lemma z_text_shape n :
  ∃ sign d, z_text n = sign +:+ d ∧ (sign = "" ∨ sign = "-")%string ∧ all_chars is_digit d = true ∧ d ≠ ""%string.
Proof.
  assert (∀ d, NilZero.string_of_uint d ≠ ""%string ∧ all_chars is_digit (NilZero.string_of_uint d) = true) as Hd.
  { intros d. split; [by destruct d|]. destruct d; try apply (digits_of_uint (_ _)). done. }
  unfold z_text. destruct (Z.to_int n) as [d|d]; cbn [NilZero.string_of_int]; destruct (Hd d).
  - exists ""%string, (NilZero.string_of_uint d). auto.
  - exists "-"%string, (NilZero.string_of_uint d). auto.
Qed.

Lemma length_z_text n : 0 ≤ n ≤ 2 ^ 53 → (String.length (z_text n) ≤ 60)%nat.
Proof.
  intros Hn. destruct n as [|p|p]; [cbn; lia| |lia].
  assert (Pos.size_nat p ≤ 54)%nat as Hs.
  { destruct (decide (Pos.size_nat p ≤ 54)%nat) as [|H]; [done|].
    assert (2 ^ (Z.of_nat (Pos.size_nat p) - 1) ≤ Z.pos p) as Hp.
    { clear. induction p as [p IH|p IH|]; cbn [Pos.size_nat].
      - replace (Z.of_nat (S (Pos.size_nat p)) - 1) with (Z.succ (Z.of_nat (Pos.size_nat p) - 1)) by lia.
        rewrite Z.pow_succ_r by (destruct p; cbn; lia). lia.
      - replace (Z.of_nat (S (Pos.size_nat p)) - 1) with (Z.succ (Z.of_nat (Pos.size_nat p) - 1)) by lia.
        rewrite Z.pow_succ_r by (destruct p; cbn; lia). lia.
      - done. }
    assert (2 ^ 54 ≤ 2 ^ (Z.of_nat (Pos.size_nat p) - 1)) by (apply Z.pow_le_mono_r; lia). lia. }
  pose proof (nb_digits_pos p) as Hd. unfold z_text. cbn [Z.to_int NilZero.string_of_int].
  destruct (Pos.to_uint p) eqn:Hp; cbn [NilZero.string_of_uint]; try rewrite length_string_of_uint; try lia.
  all: cbn; lia.
Qed.

Lemma integer_z_text n : integer_text (z_text n) = Some n.
Proof.
  destruct (z_text_shape n) as (sign & d & Heq & Hsign & Hd & Hne).
  assert (∀ s, z_text n ≠ String "+" s) as Hplus.
  { intros s Hs. rewrite Heq in Hs. destruct Hsign; subst sign; cbn in Hs; [|done]. by subst d. }
  assert (Z.of_int <$> NilZero.int_of_string (z_text n) = Some n) as Hn.
  { unfold z_text. destruct (to_int_not_nil n). rewrite NilZero.isi by done. cbn. f_equal. apply DecimalZ.of_to. }
  unfold integer_text. destruct (z_text n) as [|c s] eqn:Hz; [done|].
  destruct (decide (c = "+"%char)) as [->|Hc]; [by destruct (Hplus s)|].
  rewrite <- Hn. destruct c as [[] [] [] [] [] [] [] []]; done.
Qed.

Definition digit_class : re := RCls false digit_range.

Lemma digits_star d : all_chars is_digit d = true → rmatch (RStar digit_class) d = true.
Proof.
  induction d as [|c d IH]; [done|]. intros [Hc Hd]%andb_true_iff.
  change (rmatch (deriv c (RStar digit_class)) d = true).
  assert (deriv c (RStar digit_class) = RStar digit_class) as ->; [|by apply IH].
  destruct c as [[] [] [] [] [] [] [] []]; done.
Qed.

Lemma decimal_z_text n : re_test DECIMAL_INTEGER (z_text n) = true.
Proof.
  destruct (z_text_shape n) as (sign & d & -> & Hsign & Hd & Hne). unfold re_test.
  assert (compiled DECIMAL_INTEGER
          = RSeq (RRep 0 1 (RCls false [("-", "-")]%char)) (RSeq digit_class (RStar digit_class))) as ->
    by reflexivity.
  assert (rmatch (RSeq digit_class (RStar digit_class)) d = true) as Hm.
  { destruct d as [|c d]; [done|]. apply andb_true_iff in Hd as [Hc Hd].
    change (rmatch (deriv c (RSeq digit_class (RStar digit_class))) d = true).
    assert (deriv c (RSeq digit_class (RStar digit_class)) = RStar digit_class) as ->
      by (destruct c as [[] [] [] [] [] [] [] []]; done).
    by apply digits_star. }
  apply rmatch_correct. apply MSeq; [|by apply rmatch_correct].
  destruct Hsign as [-> | ->]; [apply MRep0|].
  change "-"%string with ("-" +:+ "")%string. apply MRepS; [by apply MCls|apply MRep0].
Qed.

Lemma parse_z_text n : -1 ≤ n → parseRespLength (z_text n) = Some n.
Proof.
  intros Hn. unfold parseRespLength. rewrite decimal_z_text, integer_z_text.
  by replace (-1 <=? n) with true by (symmetry; apply Z.leb_le; lia).
Qed.

(** Texts of characters below 128 are their own bytes, and none of them ends a line. *)
Definition plain (c : ascii) : bool := (code c <? 128)%nat && negb (code c =? 13)%nat.

Lemma utf8_plain s :
  all_chars plain s = true → length (utf8 s) = String.length s ∧ unbroken (utf8 s).
Proof.
  induction s as [|c s IH]; [done|]. intros [Hc Hs]%andb_true_iff. destruct (IH Hs) as [Hl Hu].
  unfold plain in Hc. b2p. cbn [utf8].
  replace (Z.of_nat (code c) <? 128) with true by (symmetry; apply Z.ltb_lt; lia).
  cbn [app length String.length]. split; [congruence|]. apply unbroken_cons. split; [|done].
  by replace (Z.of_nat (code c) =? 13) with false by (symmetry; apply Z.eqb_neq; lia).
Qed.

Lemma z_text_plain n : all_chars plain (z_text n) = true.
Proof.
  destruct (z_text_chars n) as [H _]. eapply all_chars_impl; [|exact H].
  intros c. destruct c as [[] [] [] [] [] [] [] []]; done.
Qed.

(** ** The framing pass *)

Section Scan.
Context (decode : bytes → string) (limit : Z).

(** What a scan of a buffer says of the buffers that extend it: a complete frame keeps its end, an
    incomplete one stays incomplete until the bytes it needs are there. *)
Definition lasting (f : bytes → Z → outcome failure scan) (buf : bytes) (offset : Z) (r : scan) : Prop :=
  match r with
  | End_ e => offset ≤ e ∧ (offset ≤ size buf → e ≤ size buf) ∧ ∀ x, f (buf ++ x) offset = Returns (End_ e)
  | Need n => size buf < n ∧ ∀ x, size (buf ++ x) < n → f (buf ++ x) offset = Returns (Need n)
  end.

Lemma elements_lasting (frame : bytes → Z → outcome failure scan) buf count cursor r :
  (∀ c r, 0 ≤ c → frame buf c = Returns r → lasting frame buf c r) →
  0 ≤ cursor → scan_elements (frame buf) count cursor = Returns r →
  lasting (λ b, scan_elements (frame b) count) buf cursor r.
Proof.
  intros Hf. revert cursor. induction count as [|count IH]; intros cursor Hc; cbn.
  - intros [= <-]. cbn. auto with lia.
  - rewrite obind_Returns. intros (sub & Hsub & Hr).
    pose proof (Hf _ _ Hc Hsub) as Hl. destruct sub as [e|n]; cbn in Hl.
    + destruct Hl as (He & Hb & Hext). assert (0 ≤ e) as He0 by lia.
      specialize (IH e He0 Hr). destruct r as [e'|n']; cbn in IH |- *.
      * destruct IH as (? & ? & IH). split_and!; [lia|auto with lia|]. intros x. rewrite Hext. cbn. apply IH.
      * destruct IH as [? IH]. split; [lia|]. intros x Hx. rewrite Hext. cbn. by apply IH.
    + injection Hr as <-. cbn. destruct Hl as [? Hext]. split; [lia|]. intros x Hx. by rewrite Hext.
Qed.

Lemma size_nil_ext buf x : size (buf ++ x) < size buf + 1 → x = [].
Proof. rewrite size_app. unfold size. destruct x; [done|cbn; lia]. Qed.

(** The pass once the header line of a frame is known. *)
Definition measure (lv : nat) (buf : bytes) (type after : Z) (line : string) : outcome failure scan :=
  if (type =? 43) || (type =? 45) || (type =? 58) then
    if limit <? after then Throws ProtocolError else Returns (End_ after)
  else if type =? 36 then
    match parseRespLength line with
    | None => Throws ProtocolError
    | Some len =>
        if len =? -1 then Returns (End_ after)
        else if limit <? after + len + 2 then Throws ProtocolError
        else if after + len + 2 <=? size buf then Returns (End_ (after + len + 2))
        else Returns (Need (after + len + 2))
    end
  else if type =? 42 then
    match parseRespLength line with
    | None => Throws ProtocolError
    | Some count =>
        if count =? -1 then Returns (End_ after)
        else if MAX_ARRAY_ELEMENTS <? count then Throws ProtocolError
        else
          let! r := scan_elements (scan_frame decode lv buf limit) (Z.to_nat count) after in
          match r with
          | Need n => Returns (Need n)
          | End_ cursor => if limit <? cursor then Throws ProtocolError else Returns (End_ cursor)
          end
    end
  else Throws ProtocolError.

Lemma scan_header lv buf offset type s e :
  from_offset buf offset = type :: s → line_end buf offset = Some e → e - offset ≤ MAX_HEADER_LINE_BYTES →
  scan_frame decode (S lv) buf limit offset = measure lv buf type (e + 2) (text_line decode buf offset e).
Proof.
  intros Hs He Hm. cbn [scan_frame]. rewrite Hs, He.
  by replace (MAX_HEADER_LINE_BYTES <? e - offset) with false by (symmetry; apply Z.ltb_ge; lia).
Qed.

Lemma parse_length_bound line n : parseRespLength line = Some n → -1 ≤ n.
Proof. unfold parseRespLength. repeat case_match; try done. b2p. congruence. Qed.

Lemma from_offset_nil buf offset : from_offset buf offset = [] → 0 ≤ offset → size buf ≤ offset.
Proof.
  intros Hs H0. destruct (decide (size buf ≤ offset)) as [|H]; [done|].
  assert (size (from_offset buf offset) = size buf - offset) as Hz by (apply from_offset_size; lia).
  rewrite Hs in Hz. change (size []) with 0 in Hz. lia.
Qed.

(** A scan that does not throw has found the header, or asks for the next byte. *)
Lemma scan_cases lv buf offset r :
  0 ≤ offset → scan_frame decode (S lv) buf limit offset = Returns r →
  (from_offset buf offset = [] ∧ r = Need (offset + 1))
  ∨ (∃ type s, from_offset buf offset = type :: s ∧
       ((line_end buf offset = None ∧ r = Need (size buf + 1)
         ∧ size buf - offset ≤ MAX_HEADER_LINE_BYTES)
        ∨ ∃ e, line_end buf offset = Some e ∧ e - offset ≤ MAX_HEADER_LINE_BYTES
               ∧ measure lv buf type (e + 2) (text_line decode buf offset e) = Returns r)).
Proof.
  intros H0. destruct (from_offset buf offset) as [|type s] eqn:Hs.
  { cbn [scan_frame]. rewrite Hs. intros [= <-]. by left. }
  right. exists type, s. split; [done|].
  pose proof (from_offset_cons _ _ _ _ Hs H0) as Hlt.
  destruct (line_end buf offset) as [e|] eqn:He.
  2: { cbn [scan_frame] in *. rewrite Hs, He in *. cbn [andb] in *.
       destruct (_ <? _) eqn:Hmax; [done|]. b2p. left. split_and!; [done|congruence|done]. }
  destruct (line_end_bounds _ _ _ He H0) as [Hoe Hez].
  destruct (decide (e - offset ≤ MAX_HEADER_LINE_BYTES)) as [Hm|Hm].
  - rewrite (scan_header lv buf offset type s e) in * by done. right. by exists e.
  - cbn [scan_frame] in *. rewrite Hs, He in *.
    replace (_ && _) with true in *; [done|]. symmetry. apply andb_true_iff. split; apply Z.ltb_lt; lia.
Qed.

Lemma measure_lasting lv buf x type after line r :
  (∀ o r, 0 ≤ o → scan_frame decode lv buf limit o = Returns r →
     lasting (λ b o, scan_frame decode lv b limit o) buf o r) →
  0 ≤ after ≤ size buf → measure lv buf type after line = Returns r →
  match r with
  | End_ e => after ≤ e ≤ size buf ∧ measure lv (buf ++ x) type after line = Returns (End_ e)
  | Need n => size buf < n ∧ (size (buf ++ x) < n → measure lv (buf ++ x) type after line = Returns (Need n))
  end.
Proof.
  intros Hrec Ha. unfold measure.
  destruct (_ || _ || _); [destruct (limit <? after); [done|]; intros [= <-]; split; [lia|done]|].
  destruct (type =? 36).
  { destruct (parseRespLength line) as [len|] eqn:Hlen; [|done]. apply parse_length_bound in Hlen.
    destruct (len =? -1) eqn:Hnull; [intros [= <-]; split; [lia|done]|]. b2p.
    destruct (limit <? _); [done|]. destruct (_ <=? size buf) eqn:Hin; b2p; intros [= <-].
    - split; [lia|]. replace (_ <=? _) with true; [done|]. symmetry.
      rewrite size_app. apply Z.leb_le. pose proof (size_nonneg x). lia.
    - split; [lia|]. intros Hx. replace (_ <=? _) with false; [done|]. symmetry. apply Z.leb_gt. lia. }
  destruct (type =? 42); [|done].
  destruct (parseRespLength line) as [count|] eqn:Hlen; [|done].
  destruct (count =? -1); [intros [= <-]; split; [lia|done]|].
  destruct (MAX_ARRAY_ELEMENTS <? count); [done|]. rewrite obind_Returns. intros (sub & Hsub & Hr).
  apply (elements_lasting (λ b o, scan_frame decode lv b limit o)) in Hsub; [|done|lia].
  destruct sub as [c|n]; cbn in Hsub.
  - destruct (limit <? c) eqn:Hc; [done|]. injection Hr as <-. destruct Hsub as (? & ? & Hext).
    split; [lia|]. rewrite Hext. cbn. by rewrite Hc.
  - injection Hr as <-. destruct Hsub as [? Hext]. split; [lia|]. intros Hx. by rewrite Hext.
Qed.

Lemma scan_lasting lv buf offset r :
  0 ≤ offset → scan_frame decode lv buf limit offset = Returns r →
  lasting (λ b o, scan_frame decode lv b limit o) buf offset r.
Proof.
  revert offset r. induction lv as [|lv IH]; intros offset r H0 Hr; [done|].
  destruct (scan_cases lv buf offset r H0 Hr) as [[Hs ->]|(type & s & Hs & Hr')].
  { apply from_offset_nil in Hs; [|done]. cbn. split; [lia|]. intros x Hx.
    cbn [scan_frame]. by rewrite from_offset_end by lia. }
  pose proof (from_offset_cons _ _ _ _ Hs H0) as Hlt.
  destruct Hr' as [(He & -> & Hm)|(e & He & Hm & Hr')].
  { cbn. split; [lia|]. intros x Hx%size_nil_ext. subst x. by rewrite app_nil_r. }
  destruct (line_end_bounds _ _ _ He H0) as [Hoe Hez].
  assert (∀ x, scan_frame decode (S lv) (buf ++ x) limit offset
               = measure lv (buf ++ x) type (e + 2) (text_line decode buf offset e)) as Hx.
  { intros x. rewrite (scan_header lv (buf ++ x) offset type (s ++ x) e).
    - by rewrite (text_line_ext decode buf x offset e).
    - rewrite from_offset_ext by lia. by rewrite Hs.
    - by apply line_end_ext.
    - done. }
  pose proof (λ x, measure_lasting lv buf x type (e + 2) _ r IH ltac:(lia) Hr') as HL.
  destruct r as [e'|n]; unfold lasting; cbv beta.
  - split_and!; [specialize (HL []); lia|specialize (HL []); lia|]. intros x. rewrite Hx. apply HL.
  - split; [apply (HL [])|]. intros x Hn. rewrite Hx. by apply HL.
Qed.

(** ** The parser agrees with the framing pass *)

Lemma parse_length_text line n : parseRespLength line = Some n → integer_text line = Some n.
Proof. unfold parseRespLength. repeat case_match; congruence. Qed.

(** The parser once the header line is known. *)
Definition read_body (fuel : nat) (buf : bytes) (type after : Z) (line : string)
    : outcome failure (option (Reply * Z)) :=
  if type =? 43 then Returns (Some (RSimple line, after))
  else if type =? 45 then Returns (Some (RError line, after))
  else if type =? 58 then Returns (Some (RInteger (js_number line), after))
  else if type =? 36 then
    match integer_text line with
    | None => Returns None
    | Some len =>
        if len <? 0 then Returns (Some (RNull, after))
        else if size buf <? after + len + 2 then Returns None
        else Returns (Some (RBulk (slice buf after (after + len)), after + len + 2))
    end
  else if type =? 42 then
    match integer_text line with
    | None => Returns None
    | Some count =>
        if count <? 0 then Returns (Some (RNull, after))
        else if MAX_ARRAY_ELEMENTS <? count then Throws ProtocolError
        else
          let! items := parse_elements (parse_reply decode fuel buf) (Z.to_nat count) after in
          match items with
          | None => Returns None
          | Some (l, cursor) => Returns (Some (RArray l, cursor))
          end
    end
  else Returns None.

Lemma parse_header fuel buf offset type s e :
  from_offset buf offset = type :: s → line_end buf offset = Some e →
  parse_reply decode (S fuel) buf offset = read_body fuel buf type (e + 2) (text_line decode buf offset e).
Proof. intros Hs He. cbn [parse_reply]. by rewrite Hs, He. Qed.

Lemma parse_elements_of_scan lv fuel buf count cursor e :
  (∀ c e, cursor ≤ c → scan_frame decode lv buf limit c = Returns (End_ e) →
     ∃ r, parse_reply decode fuel buf c = Returns (Some (r, e))) →
  0 ≤ cursor → scan_elements (scan_frame decode lv buf limit) count cursor = Returns (End_ e) →
  ∃ l, parse_elements (parse_reply decode fuel buf) count cursor = Returns (Some (l, e)).
Proof.
  revert cursor. induction count as [|count IH]; intros cursor Hf H0; cbn.
  - intros [= <-]. by eexists.
  - rewrite obind_Returns. intros (sub & Hsub & Hr). destruct sub as [c|]; [|done].
    destruct (scan_lasting lv buf cursor _ H0 Hsub) as (Hc & _).
    destruct (Hf cursor c ltac:(lia) Hsub) as [r ->].
    destruct (IH c) as [l Hl]; [intros; apply Hf; [lia|done]|lia|done|].
    exists (r :: l). cbn. by rewrite Hl.
Qed.

Lemma parse_of_scan lv fuel buf offset e :
  0 ≤ offset → scan_frame decode lv buf limit offset = Returns (End_ e) →
  size buf - offset < Z.of_nat fuel →
  ∃ r, parse_reply decode fuel buf offset = Returns (Some (r, e)).
Proof.
  revert fuel offset e. induction lv as [|lv IH]; intros fuel offset e H0 Hr Hfuel; [done|].
  destruct (scan_cases lv buf offset _ H0 Hr) as [[Hs [=]]|(type & s & Hs & [(_ & [=] & _)|(le & He & Hm & Hr')])].
  pose proof (from_offset_cons _ _ _ _ Hs H0) as Hlt.
  destruct (line_end_bounds _ _ _ He H0) as [Hoe Hez].
  destruct fuel as [|fuel]; [lia|]. rewrite (parse_header fuel buf offset type s le) by done.
  unfold measure in Hr'. unfold read_body.
  destruct (type =? 43); cbn [orb] in Hr'.
  { destruct (limit <? _); [done|]. injection Hr' as <-. by eexists. }
  destruct (type =? 45); cbn [orb] in Hr'.
  { destruct (limit <? _); [done|]. injection Hr' as <-. by eexists. }
  destruct (type =? 58); cbn [orb] in Hr'.
  { destruct (limit <? _); [done|]. injection Hr' as <-. by eexists. }
  destruct (type =? 36).
  { destruct (parseRespLength _) as [len|] eqn:Hlen; [|done]. rewrite (parse_length_text _ _ Hlen).
    apply parse_length_bound in Hlen. destruct (len =? -1) eqn:Hnull; b2p.
    { subst len. injection Hr' as <-. by eexists. }
    replace (len <? 0) with false by (symmetry; apply Z.ltb_ge; lia).
    destruct (limit <? _); [done|]. destruct (_ <=? size buf) eqn:Hin; [|done]. b2p. injection Hr' as <-.
    replace (size buf <? _) with false by (symmetry; apply Z.ltb_ge; lia). by eexists. }
  destruct (type =? 42); [|done].
  destruct (parseRespLength _) as [count|] eqn:Hlen; [|done]. rewrite (parse_length_text _ _ Hlen).
  apply parse_length_bound in Hlen. destruct (count =? -1) eqn:Hnull; b2p.
  { subst count. injection Hr' as <-. by eexists. }
  replace (count <? 0) with false by (symmetry; apply Z.ltb_ge; lia).
  destruct (MAX_ARRAY_ELEMENTS <? count); [done|].
  apply obind_Returns in Hr' as (sub & Hsub & Hr'). destruct sub as [c|]; [|done].
  destruct (limit <? c); [done|]. injection Hr' as <-.
  destruct (parse_elements_of_scan lv fuel buf (Z.to_nat count) (le + 2) c) as [l Hl]; [|lia|done|].
  - intros o e' Ho Hscan. apply IH; [lia|done|lia].
  - exists (RArray l). by rewrite Hl.
Qed.

Lemma frame_parses buf e :
  scanFrameEnd decode buf 0 limit = Returns (End_ e) →
  ∃ r, parseReply decode buf 0 = Returns (Some (r, e)).
Proof. intros H. apply (parse_of_scan (S MAX_FRAME_DEPTH)); [lia|done|unfold size; lia]. Qed.

(** ** A frame on its own *)

Lemma find_crlf_prefix s x i : find_crlf (s ++ x) = Some i → i + 2 ≤ size s → find_crlf s = Some i.
Proof.
  revert i. induction s as [|a s IH]; intros i.
  { intros H%find_crlf_bounds. change (size []) with 0. lia. }
  cbn [app]. rewrite !find_crlf_cons, size_cons. destruct (_ && starts_lf (s ++ x)) eqn:E.
  - intros [= <-] Hs. destruct s as [|b s]; [change (size []) with 0 in Hs; lia|]. cbn [app starts_lf] in *. by rewrite E.
  - destruct (find_crlf (s ++ x)) as [k|] eqn:Hk; [|done]. intros [= <-] Hs.
    replace (_ && starts_lf s) with false; [by rewrite (IH k eq_refl) by lia|].
    symmetry. destruct s; [apply andb_false_r|done].
Qed.

Lemma line_end_prefix buf x offset e :
  line_end (buf ++ x) offset = Some e → 0 ≤ offset ≤ size buf → e + 2 ≤ size buf → line_end buf offset = Some e.
Proof.
  unfold line_end. intros He H0 Hs. rewrite from_offset_ext in He by lia.
  destruct (find_crlf (_ ++ x)) as [i|] eqn:Hi; [|done]. injection He as <-.
  rewrite (find_crlf_prefix _ x i); [done|done|]. rewrite from_offset_size by lia. lia.
Qed.

Lemma elements_prefix lv buf x count cursor e :
  (∀ o e, cursor ≤ o → scan_frame decode lv (buf ++ x) limit o = Returns (End_ e) → e ≤ size buf →
     scan_frame decode lv buf limit o = Returns (End_ e)) →
  0 ≤ cursor → scan_elements (scan_frame decode lv (buf ++ x) limit) count cursor = Returns (End_ e) →
  e ≤ size buf → scan_elements (scan_frame decode lv buf limit) count cursor = Returns (End_ e).
Proof.
  revert cursor. induction count as [|count IH]; intros cursor Hf H0; cbn; [done|].
  rewrite obind_Returns. intros (sub & Hsub & Hr) Hs. destruct sub as [c|]; [|done].
  destruct (scan_lasting lv (buf ++ x) cursor _ H0 Hsub) as (Hc & _).
  destruct (elements_lasting (λ b o, scan_frame decode lv b limit o) (buf ++ x) count c _
    (λ c r, scan_lasting lv (buf ++ x) c r) ltac:(lia) Hr) as (Hce & _).
  rewrite (Hf cursor c) by (done || lia). cbn. apply IH; [|lia|done|done].
  intros o e' Ho. apply Hf. lia.
Qed.

Lemma measure_prefix lv buf x type after line e :
  (∀ o e, after ≤ o → scan_frame decode lv (buf ++ x) limit o = Returns (End_ e) → e ≤ size buf →
     scan_frame decode lv buf limit o = Returns (End_ e)) →
  0 ≤ after → measure lv (buf ++ x) type after line = Returns (End_ e) →
  after ≤ e ∧ (e ≤ size buf → measure lv buf type after line = Returns (End_ e)).
Proof.
  intros Hf Ha. unfold measure.
  destruct (_ || _ || _); [destruct (limit <? after); [done|]; intros [= <-]; split; [lia|done]|].
  destruct (type =? 36).
  { destruct (parseRespLength line) as [len|] eqn:Hlen; [|done]. apply parse_length_bound in Hlen.
    destruct (len =? -1) eqn:Hnull; [intros [= <-]; split; [lia|done]|]. b2p.
    destruct (limit <? _); [done|]. destruct (_ <=? size (buf ++ x)) eqn:Hin; [|done]. intros [= <-].
    split; [lia|]. intros Hs. by replace (_ <=? _) with true by (symmetry; apply Z.leb_le; lia). }
  destruct (type =? 42); [|done].
  destruct (parseRespLength line) as [count|] eqn:Hlen; [|done].
  destruct (count =? -1); [intros [= <-]; split; [lia|done]|].
  destruct (MAX_ARRAY_ELEMENTS <? count); [done|]. rewrite obind_Returns. intros (sub & Hsub & Hr).
  destruct sub as [c|]; [|done].
  destruct (elements_lasting (λ b o, scan_frame decode lv b limit o) _ _ _ _
    (λ c r, scan_lasting lv (buf ++ x) c r) Ha Hsub) as (Hc & _).
  destruct (limit <? c) eqn:Hcl; [done|]. injection Hr as <-. split; [done|]. intros Hs.
  rewrite (elements_prefix lv buf x _ _ c) by done. cbn. by rewrite Hcl.
Qed.

Lemma scan_prefix lv buf x offset e :
  0 ≤ offset → scan_frame decode lv (buf ++ x) limit offset = Returns (End_ e) → e ≤ size buf →
  scan_frame decode lv buf limit offset = Returns (End_ e).
Proof.
  revert offset e. induction lv as [|lv IH]; intros offset e H0 Hr Hs; [done|].
  destruct (scan_cases lv (buf ++ x) offset _ H0 Hr) as [[_ [=]]|(type & s & Hf & [(_ & [=] & _)|(le & He & Hm & Hr')])].
  destruct (line_end_bounds _ _ _ He H0) as [Hoe _].
  destruct (measure_prefix lv buf x type (le + 2) _ e (λ o e Ho, IH o e ltac:(lia)) ltac:(lia) Hr') as [Hle Hmb].
  assert (line_end buf offset = Some le) as He' by (apply (line_end_prefix buf x); [done|lia|lia]).
  rewrite from_offset_ext in Hf by lia.
  destruct (from_offset buf offset) as [|t0 s0] eqn:Hf0; [apply from_offset_nil in Hf0; lia|].
  injection Hf as -> _. rewrite (scan_header lv buf offset type s0 le) by done.
  rewrite <- (text_line_ext decode buf x offset le He' H0). by apply Hmb.
Qed.

(** What the parser has read stays read as bytes arrive. *)
Lemma parse_ext fuel fuel' buf x offset r e :
  (fuel ≤ fuel')%nat → 0 ≤ offset → parse_reply decode fuel buf offset = Returns (Some (r, e)) →
  offset ≤ e ∧ parse_reply decode fuel' (buf ++ x) offset = Returns (Some (r, e)).
Proof.
  revert fuel' offset r e. induction fuel as [|fuel IH]; intros fuel' offset r e Hfuel H0; [done|].
  destruct fuel' as [|fuel']; [lia|]. cbn [parse_reply].
  destruct (from_offset buf offset) as [|type s] eqn:Hs; [done|].
  destruct (line_end buf offset) as [le|] eqn:He; [|done].
  pose proof (from_offset_cons _ _ _ _ Hs H0) as Hlt.
  destruct (line_end_bounds _ _ _ He H0) as [Hoe Hez].
  rewrite from_offset_ext, Hs by lia. cbn [app]. rewrite (line_end_ext buf x offset le) by done.
  rewrite (text_line_ext decode buf x offset le) by done.
  destruct (type =? 43); [intros [= <- <-]; split; [lia|done]|].
  destruct (type =? 45); [intros [= <- <-]; split; [lia|done]|].
  destruct (type =? 58); [intros [= <- <-]; split; [lia|done]|].
  destruct (type =? 36).
  { destruct (integer_text _) as [len|]; [|done]. destruct (len <? 0) eqn:Hn; [intros [= <- <-]; split; [lia|done]|].
    b2p. destruct (size buf <? _) eqn:Hz; [done|]. intros [= <- <-]. b2p. split; [lia|].
    pose proof (size_nonneg x). rewrite size_app. rewrite slice_ext by lia.
    by replace (_ <? _) with false by (symmetry; apply Z.ltb_ge; lia). }
  destruct (type =? 42); [|done].
  destruct (integer_text _) as [count|]; [|done]. destruct (count <? 0); [intros [= <- <-]; split; [lia|done]|].
  destruct (MAX_ARRAY_ELEMENTS <? count); [done|]. rewrite obind_Returns. intros (items & Hitems & Hr).
  destruct items as [[l c]|]; [|done]. injection Hr as <- <-.
  assert (le + 2 ≤ c ∧ parse_elements (parse_reply decode fuel' (buf ++ x)) (Z.to_nat count) (le + 2) = Returns (Some (l, c)))
    as [Hc ->]; [|split; [lia|done]].
  assert (0 ≤ le + 2) as Hcur by lia. revert Hcur Hitems. generalize (le + 2) as cursor. revert l c.
  induction (Z.to_nat count) as [|n IHn]; intros l c cursor Hcur; cbn; [intros [= <- <-]; split; [lia|done]|].
  rewrite obind_Returns. intros (next & Hnext & Hr). destruct next as [[r0 c0]|]; [|done].
  apply obind_Returns in Hr as (rest & Hrest & Hr). destruct rest as [[l1 c1]|]; [|done]. injection Hr as <- <-.
  destruct (IH fuel' cursor r0 c0 ltac:(lia) ltac:(lia) Hnext) as [? ->].
  destruct (IHn l1 c1 c0 ltac:(lia) Hrest) as [? Hl]. cbn. rewrite Hl. cbn. split; [lia|done].
Qed.

Lemma parse_whole frame x r :
  parseReply decode frame 0 = Returns (Some (r, size frame)) →
  parseReply decode (frame ++ x) 0 = Returns (Some (r, size frame)).
Proof. intros H. apply (parse_ext _ (S (length (frame ++ x))) _ x) in H; [apply H|rewrite length_app; lia|done]. Qed.

(** A measured frame, alone, reads as it does in its buffer. *)
Lemma frame_alone buf e r :
  scanFrameEnd decode buf 0 limit = Returns (End_ e) → parseReply decode buf 0 = Returns (Some (r, e)) →
  e ≤ size buf ∧ parseReply decode (take (Z.to_nat e) buf) 0 = Returns (Some (r, e)).
Proof.
  intros Hs Hp. destruct (scan_lasting _ buf 0 _ ltac:(lia) Hs) as (H0 & Hb & _).
  specialize (Hb (size_nonneg buf)). split; [done|].
  assert (size (take (Z.to_nat e) buf) = e) as Hsz by (unfold size in *; rewrite length_take; lia).
  rewrite <- (take_drop (Z.to_nat e) buf) in Hs. apply scan_prefix in Hs; [|lia|lia].
  destruct (frame_parses (take (Z.to_nat e) buf) e Hs) as [r' Hr'].
  pose proof Hr' as Hr2. rewrite <- Hsz in Hr2 at 2. apply (parse_whole _ (drop (Z.to_nat e) buf)) in Hr2.
  rewrite take_drop, Hp in Hr2. congruence.
Qed.

End Scan.

(** ** The frames a server writes *)

(** A line that the cap accepts even when its last byte arrives alone. *)
Definition header_line (l : string) : Prop :=
  unbroken (utf8 l) ∧ size (utf8 l) + 1 < MAX_HEADER_LINE_BYTES.

Definition framed (type : Z) (line : string) (body : bytes) : bytes := type :: utf8 line ++ CRLF ++ body.

(** The frames of a reply, with the nesting they stay below. *)
Inductive wire : nat → Reply → bytes → Prop :=
| wire_simple lv l : header_line l → wire (S lv) (RSimple l) (framed 43 l [])
| wire_error lv l : header_line l → wire (S lv) (RError l) (framed 45 l [])
| wire_integer lv n : safe_integer n = true → wire (S lv) (RInteger (NInt n)) (framed 58 (z_text n) [])
| wire_bulk lv b : wire (S lv) (RBulk b) (framed 36 (z_text (size b)) (b ++ CRLF))
| wire_null_bulk lv : wire (S lv) RNull (framed 36 (z_text (-1)) [])
| wire_null_array lv : wire (S lv) RNull (framed 42 (z_text (-1)) [])
| wire_array lv l bs :
    wires lv l bs → Z.of_nat (length l) ≤ MAX_ARRAY_ELEMENTS →
    wire (S lv) (RArray l) (framed 42 (z_text (Z.of_nat (length l))) bs)
with wires : nat → list Reply → bytes → Prop :=
| wires_nil lv : wires lv [] []
| wires_cons lv r l b bs : wire lv r b → wires lv l bs → wires lv (r :: l) (b ++ bs).

Scheme wire_mut := Induction for wire Sort Prop
  with wires_mut := Induction for wires Sort Prop.
Combined Scheme wire_wires_ind from wire_mut, wires_mut.

Section Wire.
Context (decode : bytes → string) (decode_utf8 : ∀ s, decode (utf8 s) = s).
Context (limit : Z) (limit_exact : limit ≤ 2 ^ 53).

Lemma z_text_line n : -1 ≤ n ≤ 2 ^ 53 → header_line (z_text n).
Proof.
  intros Hn. destruct (utf8_plain _ (z_text_plain n)) as [Hl Hu]. split; [done|].
  unfold size. rewrite Hl. destruct (decide (n = -1)) as [->|]; [done|].
  pose proof (length_z_text n ltac:(lia)). unfold MAX_HEADER_LINE_BYTES. lia.
Qed.

Lemma safe_text_line n : safe_integer n = true → header_line (z_text n).
Proof.
  intros Hn. destruct (decide (-1 ≤ n)) as [|Hneg].
  { apply z_text_line. unfold safe_integer in Hn. b2p. lia. }
  destruct (utf8_plain _ (z_text_plain n)) as [Hl Hu]. split; [done|]. unfold size. rewrite Hl.
  assert (String.length (z_text n) = S (String.length (z_text (- n)))) as ->.
  { destruct n as [|p|p]; try lia. done. }
  unfold safe_integer in Hn. b2p. pose proof (length_z_text (- n) ltac:(lia)). unfold MAX_HEADER_LINE_BYTES. lia.
Qed.

Lemma size_framed type l body : size (framed type l body) = size (utf8 l) + 3 + size body.
Proof. unfold framed. rewrite size_cons, !size_app. change (size CRLF) with 2. lia. Qed.

(** The header of a frame in a buffer. *)
Lemma header_found pre type l body x :
  type ≠ 13 → unbroken (utf8 l) →
  let buf := pre ++ framed type l body ++ x in
  let e := size pre + 1 + size (utf8 l) in
  from_offset buf (size pre) = type :: utf8 l ++ CRLF ++ body ++ x
  ∧ line_end buf (size pre) = Some e ∧ text_line decode buf (size pre) e = l.
Proof.
  intros Ht Hl. cbv zeta.
  assert (from_offset (pre ++ framed type l body ++ x) (size pre) = type :: utf8 l ++ CRLF ++ body ++ x) as Hf.
  { rewrite from_offset_app. unfold framed. cbn [app]. by rewrite <- !app_assoc. }
  split_and!; [done| |].
  - unfold line_end. rewrite Hf, find_crlf_cons.
    replace (type =? 13) with false by (symmetry; apply Z.eqb_neq; lia). cbn [andb].
    rewrite find_crlf_line by done. cbn. f_equal. lia.
  - unfold text_line, framed. transitivity (decode (utf8 l)); [f_equal|apply decode_utf8].
    replace (pre ++ (type :: utf8 l ++ CRLF ++ body) ++ x) with ((pre ++ [type]) ++ utf8 l ++ (CRLF ++ body ++ x)).
    + replace (size pre + 1) with (size (pre ++ [type])) by (rewrite size_app; done). apply slice_middle.
    + rewrite <- !app_assoc. cbn [app]. by rewrite <- !app_assoc.
Qed.

Lemma scan_framed lv pre type l body x :
  type ≠ 13 → header_line l →
  scan_frame decode (S lv) (pre ++ framed type l body ++ x) limit (size pre)
  = measure decode limit lv (pre ++ framed type l body ++ x) type (size pre + size (framed type l [])) l.
Proof.
  intros Ht [Hl Hs]. destruct (header_found pre type l body x Ht Hl) as (Hf & He & Hline).
  rewrite (scan_header decode limit lv _ _ _ _ _ Hf He) by lia. rewrite Hline.
  f_equal. rewrite size_framed. change (size []) with 0. lia.
Qed.

Lemma parse_framed fuel pre type l body x :
  type ≠ 13 → header_line l →
  parse_reply decode (S fuel) (pre ++ framed type l body ++ x) (size pre)
  = read_body decode fuel (pre ++ framed type l body ++ x) type (size pre + size (framed type l [])) l.
Proof.
  intros Ht [Hl Hs]. destruct (header_found pre type l body x Ht Hl) as (Hf & He & Hline).
  rewrite (parse_header decode fuel _ _ _ _ _ Hf He). rewrite Hline.
  f_equal. rewrite size_framed. change (size []) with 0. lia.
Qed.

Lemma framed_app type l body : framed type l body = framed type l [] ++ body.
Proof. unfold framed. cbn [app]. by rewrite app_nil_r, <- !app_assoc. Qed.

Lemma js_number_z_text n : safe_integer n = true → js_number (z_text n) = NInt n.
Proof.
  intros Hn. destruct (z_text_chars n) as [Hc Hne]. unfold js_number. rewrite trim_id.
  2: { eapply all_chars_impl; [|exact Hc]. intros c. destruct c as [[] [] [] [] [] [] [] []]; done. }
  destruct (z_text n) eqn:Hz; [done|]. cbn [is_empty]. rewrite <- Hz, integer_z_text.
  unfold exact_num. by rewrite Hn.
Qed.

(** A frame is measured exactly wherever it lies in a buffer. *)
Lemma wire_scan :
  (∀ lv r b, wire lv r b → ∀ pre x, size pre + size b ≤ limit →
     scan_frame decode lv (pre ++ b ++ x) limit (size pre) = Returns (End_ (size pre + size b)))
  ∧ (∀ lv l b, wires lv l b → ∀ pre x, size pre + size b ≤ limit →
     scan_elements (scan_frame decode lv (pre ++ b ++ x) limit) (length l) (size pre)
     = Returns (End_ (size pre + size b))).
Proof.
  apply wire_wires_ind.
  1-2: intros lv l Hl pre x Hs; rewrite scan_framed by done; unfold measure; cbn [Z.eqb Pos.eqb orb];
    by replace (limit <? _) with false by (symmetry; apply Z.ltb_ge; lia).
  - intros lv n Hn pre x Hs. rewrite scan_framed by (done || by apply safe_text_line).
    unfold measure; cbn [Z.eqb Pos.eqb orb].
    by replace (limit <? _) with false by (symmetry; apply Z.ltb_ge; lia).
  - intros lv b pre x Hs. rewrite size_framed, size_app in Hs. change (size CRLF) with 2 in Hs.
    pose proof (size_nonneg b). pose proof (size_nonneg pre). pose proof (size_nonneg (utf8 (z_text (size b)))).
    rewrite scan_framed by (done || apply z_text_line; lia).
    unfold measure; cbn [Z.eqb Pos.eqb orb]. rewrite parse_z_text by lia.
    replace (size b =? -1) with false by (symmetry; apply Z.eqb_neq; lia).
    assert (size pre + size (framed 36 (z_text (size b)) []) + size b + 2
            = size pre + size (framed 36 (z_text (size b)) (b ++ CRLF))) as ->.
    { rewrite !size_framed, size_app. change (size CRLF) with 2. change (size []) with 0. lia. }
    replace (limit <? _) with false by (symmetry; apply Z.ltb_ge; rewrite size_framed, size_app; change (size CRLF) with 2; lia).
    by replace (_ <=? _) with true by (symmetry; apply Z.leb_le; rewrite !size_app; pose proof (size_nonneg x); lia).
  - intros lv pre x Hs. by rewrite scan_framed by done.
  - intros lv pre x Hs. by rewrite scan_framed by done.
  - intros lv l bs Hw IH Hlen pre x Hs. unfold MAX_ARRAY_ELEMENTS in Hlen.
    rewrite scan_framed by (done || apply z_text_line; lia).
    unfold measure; cbn [Z.eqb Pos.eqb orb]. rewrite parse_z_text by lia.
    replace (Z.of_nat (length l) =? -1) with false by (symmetry; apply Z.eqb_neq; lia).
    replace (MAX_ARRAY_ELEMENTS <? _) with false by (symmetry; apply Z.ltb_ge; unfold MAX_ARRAY_ELEMENTS; lia).
    rewrite Nat2Z.id. rewrite (framed_app _ _ bs) in Hs |- *. rewrite size_app in Hs.
    rewrite <- app_assoc, (app_assoc pre), <- size_app.
    rewrite IH by (rewrite size_app; lia). cbn [obind].
    rewrite !size_app in *. replace (limit <? _) with false by (symmetry; apply Z.ltb_ge; lia).
    do 2 f_equal. lia.
  - intros lv pre x Hs. cbn. do 2 f_equal. change (size []) with 0. lia.
  - intros lv r l b bs Hb IHb Hbs IHbs pre x Hs. rewrite size_app in *. pose proof (size_nonneg bs).
    cbn [length scan_elements]. rewrite <- app_assoc, IHb by lia. cbn [obind].
    rewrite (app_assoc pre), <- size_app, IHbs by (rewrite size_app; lia). do 2 f_equal. rewrite size_app. lia.
Qed.

Lemma framed_fuel type l body fuel :
  size (framed type l body) ≤ Z.of_nat fuel → ∃ fuel', fuel = S fuel' ∧ size body ≤ Z.of_nat fuel'.
Proof.
  rewrite size_framed. pose proof (size_nonneg (utf8 l)). pose proof (size_nonneg body).
  intros Hf. exists (pred fuel). lia.
Qed.

(** And it is read back. *)
Lemma wire_parse :
  (∀ lv r b, wire lv r b → size b ≤ limit → ∀ fuel pre x, size b ≤ Z.of_nat fuel →
     parse_reply decode fuel (pre ++ b ++ x) (size pre) = Returns (Some (r, size pre + size b)))
  ∧ (∀ lv l b, wires lv l b → size b ≤ limit → ∀ fuel pre x, size b ≤ Z.of_nat fuel →
     parse_elements (parse_reply decode fuel (pre ++ b ++ x)) (length l) (size pre)
     = Returns (Some (l, size pre + size b))).
Proof.
  apply wire_wires_ind.
  1-2: intros lv l Hl Hs fuel pre x (fuel' & -> & Hf)%framed_fuel; by rewrite parse_framed by done.
  - intros lv n Hn Hs fuel pre x (fuel' & -> & Hf)%framed_fuel.
    rewrite parse_framed by (done || by apply safe_text_line). unfold read_body; cbn [Z.eqb Pos.eqb].
    by rewrite js_number_z_text.
  - intros lv b Hs fuel pre x (fuel' & -> & Hf)%framed_fuel.
    rewrite size_framed, size_app in Hs. change (size CRLF) with 2 in Hs.
    pose proof (size_nonneg b). pose proof (size_nonneg (utf8 (z_text (size b)))).
    rewrite parse_framed by (done || apply z_text_line; lia).
    unfold read_body; cbn [Z.eqb Pos.eqb]. rewrite integer_z_text.
    replace (size b <? 0) with false by (symmetry; apply Z.ltb_ge; lia).
    replace (_ <? _) with false.
    2: { symmetry. apply Z.ltb_ge. rewrite !size_app, !size_framed, size_app. change (size CRLF) with 2.
         change (size []) with 0. pose proof (size_nonneg x). lia. }
    rewrite (framed_app _ _ (b ++ CRLF)), <- !app_assoc, (app_assoc pre), <- size_app.
    rewrite slice_middle. do 3 f_equal. rewrite !size_app. change (size CRLF) with 2. lia.
  - intros lv Hs fuel pre x (fuel' & -> & Hf)%framed_fuel. by rewrite parse_framed by done.
  - intros lv Hs fuel pre x (fuel' & -> & Hf)%framed_fuel. by rewrite parse_framed by done.
  - intros lv l bs Hw IH Hlen Hs fuel pre x (fuel' & -> & Hf)%framed_fuel. unfold MAX_ARRAY_ELEMENTS in Hlen.
    rewrite parse_framed by (done || apply z_text_line; lia).
    unfold read_body; cbn [Z.eqb Pos.eqb]. rewrite integer_z_text.
    replace (_ <? 0) with false by (symmetry; apply Z.ltb_ge; lia).
    replace (MAX_ARRAY_ELEMENTS <? _) with false by (symmetry; apply Z.ltb_ge; unfold MAX_ARRAY_ELEMENTS; lia).
    rewrite Nat2Z.id. rewrite (framed_app _ _ bs) in Hs |- *. rewrite size_app in Hs.
    pose proof (size_nonneg (framed 42 (z_text (Z.of_nat (length l))) [])).
    rewrite <- app_assoc, (app_assoc pre), <- size_app.
    rewrite IH by lia. cbn [obind]. do 3 f_equal. rewrite !size_app. lia.
  - intros lv Hs fuel pre x Hf. cbn. do 3 f_equal. change (size []) with 0. lia.
  - intros lv r l b bs Hb IHb Hbs IHbs Hs fuel pre x Hf. rewrite size_app in *.
    pose proof (size_nonneg bs). pose proof (size_nonneg b).
    cbn [length parse_elements]. rewrite <- app_assoc, IHb by lia. cbn [obind].
    rewrite (app_assoc pre), <- size_app, IHbs by lia. cbn [obind]. do 3 f_equal. rewrite size_app. lia.
Qed.

(** Cut before its end, it asks for more. *)
Lemma cut_header lv pre type l body p q :
  type ≠ 13 → header_line l → framed type l body = p ++ q → q ≠ [] →
  (∃ n, scan_frame decode (S lv) (pre ++ p) limit (size pre) = Returns (Need n))
  ∨ ∃ p', p = framed type l p' ∧ body = p' ++ q.
Proof.
  intros Ht [Hl Hs] Heq Hq. destruct p as [|t p].
  { left. exists (size pre + 1). cbn [scan_frame]. rewrite app_nil_r. by rewrite from_offset_end by done. }
  unfold framed in Heq. injection Heq as <- Heq. change (utf8 l ++ CRLF ++ body = p ++ q) in Heq.
  destruct (decide (length p < length (utf8 l) + 2)%nat) as [Hlt|Hge].
  - left. assert (p = take (length p) (utf8 l ++ CRLF)) as Hp.
    { rewrite app_assoc in Heq. apply (f_equal (take (length p))) in Heq.
      rewrite take_app_length, take_app_le in Heq; [done|]. rewrite length_app. cbn. lia. }
    exists (size (pre ++ type :: p) + 1). cbn [scan_frame]. rewrite from_offset_app.
    unfold line_end. rewrite from_offset_app, find_crlf_cons.
    replace (type =? 13) with false by (symmetry; apply Z.eqb_neq; lia). cbn [andb].
    rewrite Hp, find_crlf_cut by done. cbn [fmap option_fmap option_map andb].
    rewrite <- Hp, !size_app. unfold size in Hs |- *. cbn [length].
    replace (_ <? _) with false by (symmetry; apply Z.ltb_ge; lia). done.
  - right. exists (drop (length (utf8 l ++ CRLF)) p).
    assert (p = (utf8 l ++ CRLF) ++ drop (length (utf8 l ++ CRLF)) p) as Hp.
    { rewrite app_assoc in Heq. pose proof (f_equal (take (length (utf8 l ++ CRLF))) Heq) as Ht'.
      rewrite take_app_length, take_app_le in Ht' by (rewrite length_app; cbn; lia).
      rewrite Ht' at 1. by rewrite take_drop. }
    split; [unfold framed; f_equal; rewrite app_assoc; exact Hp|].
    rewrite Hp, <- app_assoc, (app_assoc (utf8 l)) in Heq. by apply app_inv_head in Heq.
Qed.

Lemma cut_short lv pre type l p q :
  type ≠ 13 → header_line l → framed type l [] = p ++ q → q ≠ [] →
  ∃ n, scan_frame decode (S lv) (pre ++ p) limit (size pre) = Returns (Need n).
Proof.
  intros Ht Hl Heq Hq. destruct (cut_header lv pre type l [] p q Ht Hl Heq Hq) as [|(p' & -> & Hp)]; [done|].
  symmetry in Hp. apply app_nil in Hp as [_ ->]. done.
Qed.

Lemma wire_partial :
  (∀ lv r b, wire lv r b → ∀ pre p q, size pre + size b ≤ limit → b = p ++ q → q ≠ [] →
     ∃ n, scan_frame decode lv (pre ++ p) limit (size pre) = Returns (Need n))
  ∧ (∀ lv l b, wires lv l b → ∀ pre p q, size pre + size b ≤ limit → b = p ++ q → q ≠ [] →
     ∃ n, scan_elements (scan_frame decode lv (pre ++ p) limit) (length l) (size pre) = Returns (Need n)).
Proof.
  apply wire_wires_ind.
  - intros lv l Hl pre p q Hs Heq Hq. by apply (cut_short lv pre 43 l p q).
  - intros lv l Hl pre p q Hs Heq Hq. by apply (cut_short lv pre 45 l p q).
  - intros lv n Hn pre p q Hs Heq Hq. apply (cut_short lv pre 58 (z_text n) p q); try done. by apply safe_text_line.
  - intros lv b pre p q Hs Heq Hq.
    rewrite size_framed, size_app in Hs. change (size CRLF) with 2 in Hs.
    pose proof (size_nonneg b). pose proof (size_nonneg pre). pose proof (size_nonneg (utf8 (z_text (size b)))).
    assert (header_line (z_text (size b))) as Hl by (apply z_text_line; lia).
    destruct (cut_header lv pre 36 _ _ p q ltac:(done) Hl Heq Hq) as [|(p' & -> & Hp)]; [done|].
    exists (size pre + size (framed 36 (z_text (size b)) []) + size b + 2).
    rewrite <- (app_nil_r (framed _ _ p')), scan_framed by done.
    unfold measure; cbn [Z.eqb Pos.eqb orb]. rewrite parse_z_text by lia.
    replace (size b =? -1) with false by (symmetry; apply Z.eqb_neq; lia).
    replace (limit <? _) with false by (symmetry; apply Z.ltb_ge; rewrite size_framed; change (size []) with 0; lia).
    replace (_ <=? _) with false; [done|]. symmetry. apply Z.leb_gt.
    apply (f_equal size) in Hp. rewrite !size_app in Hp. change (size CRLF) with 2 in Hp.
    assert (0 < size q) by (unfold size; destruct q; [done|cbn; lia]).
    rewrite app_nil_r, size_app, !size_framed. change (size []) with 0. lia.
  - intros lv pre p q Hs Heq Hq. by apply (cut_short lv pre 36 (z_text (-1)) p q).
  - intros lv pre p q Hs Heq Hq. by apply (cut_short lv pre 42 (z_text (-1)) p q).
  - intros lv l bs Hw IH Hlen pre p q Hs Heq Hq. pose proof Hlen as Hlen'. unfold MAX_ARRAY_ELEMENTS in Hlen'.
    assert (header_line (z_text (Z.of_nat (length l)))) as Hl by (apply z_text_line; lia).
    destruct (cut_header lv pre 42 _ _ p q ltac:(done) Hl Heq Hq) as [|(p' & -> & Hp)]; [done|].
    rewrite (framed_app _ _ bs), size_app in Hs.
    destruct (IH (pre ++ framed 42 (z_text (Z.of_nat (length l))) []) p' q) as [n Hn];
      [rewrite size_app; lia|done|done|]. exists n.
    rewrite <- (app_nil_r (framed _ _ p')), scan_framed by done.
    unfold measure; cbn [Z.eqb Pos.eqb orb]. rewrite parse_z_text by lia.
    replace (Z.of_nat (length l) =? -1) with false by (symmetry; apply Z.eqb_neq; lia).
    replace (MAX_ARRAY_ELEMENTS <? _) with false by (symmetry; apply Z.ltb_ge; lia).
    rewrite Nat2Z.id, app_nil_r, (framed_app _ _ p'), app_assoc, <- size_app, Hn. done.
  - intros lv pre p q Hs [_ ->]%eq_sym%app_nil Hq. done.
  - intros lv r l b bs Hb IHb Hbs IHbs pre p q Hs Heq Hq. rewrite size_app in Hs.
    pose proof (size_nonneg bs). pose proof (size_nonneg b). cbn [length scan_elements].
    destruct (decide (length p < length b)%nat) as [Hlt|Hge].
    + destruct (IHb pre p (drop (length p) b)) as [n ->]; [lia| | |by exists n].
      * apply (f_equal (take (length p))) in Heq.
        rewrite take_app_length, take_app_le in Heq by lia. rewrite <- Heq at 1. by rewrite take_drop.
      * intros Hd%(f_equal length). rewrite length_drop in Hd. cbn in Hd. lia.
    + assert (p = b ++ drop (length b) p) as Hp.
      { pose proof (f_equal (take (length b)) Heq) as Ht. rewrite take_app_length, take_app_le in Ht by lia.
        rewrite Ht at 1. by rewrite take_drop. }
      rewrite Hp. rewrite (proj1 wire_scan lv r b Hb) by lia. cbn [obind].
      destruct (IHbs (pre ++ b) (drop (length b) p) q) as [n Hn]; [rewrite size_app; lia| |done|].
      * rewrite Hp, <- app_assoc in Heq. by apply app_inv_head in Heq.
      * exists n. by rewrite <- app_assoc, size_app in Hn.
Qed.

Lemma wires_bulks lv (args : list Arg) :
  wires (S lv) (map (λ a, RBulk (arg_body a)) args)
    (concat (map (λ a, framed 36 (z_text (size (arg_body a))) (arg_body a ++ CRLF)) args)).
Proof.
  induction args as [|a args IH]; cbn [map concat]; [apply wires_nil|].
  apply wires_cons; [apply wire_bulk|done].
Qed.

Lemma utf8_app a b : utf8 (a +:+ b) = utf8 a ++ utf8 b.
Proof. induction a as [|c a IH]; cbn; [done|]. by rewrite IH, app_assoc. Qed.

Lemma encodeCommand_framed args :
  encodeCommand args
  = framed 42 (z_text (Z.of_nat (length args)))
      (concat (map (λ a, framed 36 (z_text (size (arg_body a))) (arg_body a ++ CRLF)) args)).
Proof.
  unfold encodeCommand, framed. rewrite utf8_app. change (utf8 "*") with [42]. cbn [app]. do 3 f_equal.
  induction args as [|a args IH]; [done|]. cbn [flat_map map concat]. rewrite IH, utf8_app.
  change (utf8 "$") with [36]. cbn [app]. by rewrite <- !app_assoc.
Qed.

Lemma encodeCommand_wire lv args :
  Z.of_nat (length args) ≤ MAX_ARRAY_ELEMENTS →
  wire (S (S lv)) (RArray (map (λ a, RBulk (arg_body a)) args)) (encodeCommand args).
Proof.
  intros Hn. rewrite encodeCommand_framed. rewrite <- (length_map (λ a, RBulk (arg_body a)) args) in Hn |- *.
  apply wire_array; [apply wires_bulks|done].
Qed.

End Wire.

(** UTF-8 texts of code units below 256. *)
Fixpoint latin1 (b : bytes) : string :=
  match b with
  | [] => ""
  | n :: b =>
      if n <? 128 then String (ascii_of_nat (Z.to_nat n)) (latin1 b)
      else match b with
           | m :: b => String (ascii_of_nat (Z.to_nat (64 * Z.land n 3 + Z.land m 63))) (latin1 b)
           | [] => ""
           end
  end.

Lemma latin1_utf8 s : latin1 (utf8 s) = s.
Proof.
  induction s as [|c s IH]; [done|]. cbn [utf8].
  assert (∀ b, latin1 ((if Z.of_nat (code c) <? 128 then [Z.of_nat (code c)]
     else [Z.lor 192 (Z.shiftr (Z.of_nat (code c)) 6); Z.lor 128 (Z.land (Z.of_nat (code c)) 63)]) ++ b)
     = String c (latin1 b)) as H by (intros b; destruct c as [[] [] [] [] [] [] [] []]; reflexivity).
  cbv zeta. by rewrite H, IH.
Qed.

(** ** Theorems *)

(** The framing pass is sound: the parser reads a reply that ends where a complete frame was
    measured, a frame once complete stays so, and below the size the pass asks for every later buffer
    is incomplete in the same way, so rescanning it is pointless. *)
Theorem framing_pass_sound decode limit buf offset r :
  0 ≤ offset → scan_frame decode (S MAX_FRAME_DEPTH) buf limit offset = Returns r →
  match r with
  | End_ e =>
      (∀ x, scan_frame decode (S MAX_FRAME_DEPTH) (buf ++ x) limit offset = Returns (End_ e))
      ∧ ∃ reply, ∀ x, parseReply decode (buf ++ x) offset = Returns (Some (reply, e))
  | Need n =>
      size buf < n
      ∧ ∀ x, size (buf ++ x) < n →
             scan_frame decode (S MAX_FRAME_DEPTH) (buf ++ x) limit offset = Returns (Need n)
  end.
Proof.
  intros H0 Hr. pose proof (scan_lasting decode limit _ buf offset r H0 Hr) as Hl.
  destruct r as [e|n]; [|exact Hl]. destruct Hl as (_ & _ & Hext). split; [done|].
  destruct (parse_of_scan decode limit _ (S (length buf)) buf offset e H0 Hr) as [reply Hp]; [unfold size; lia|].
  exists reply. intros x.
  apply (parse_ext decode _ (S (length (buf ++ x))) _ x) in Hp; [apply Hp|rewrite length_app; lia|done].
Qed.

(** A command is read back as its arguments, whatever bytes they hold: no argument can end
    another or start a command of its own. *)
Theorem command_roundtrip decode args x :
  (∀ s, decode (utf8 s) = s) → Z.of_nat (length args) ≤ MAX_ARRAY_ELEMENTS → size (encodeCommand args) ≤ 2 ^ 53 →
  parseReply decode (encodeCommand args ++ x) 0
  = Returns (Some (RArray (map (λ a, RBulk (arg_body a)) args), size (encodeCommand args))).
Proof.
  intros Hd Hn Hs. unfold parseReply.
  apply (proj1 (wire_parse decode Hd (2 ^ 53) ltac:(lia)) _ _ _ (encodeCommand_wire 0 args Hn) Hs
           (S (length (encodeCommand args ++ x))) [] x).
  unfold size. rewrite length_app. lia.
Qed.

Definition sample_frame : bytes := framed 36 (z_text 1) ([65] ++ CRLF).

Lemma framing_pass_sound_witness :
  scan_frame latin1 (S MAX_FRAME_DEPTH) sample_frame 64 0 = Returns (End_ 7)
  ∧ (∀ x, scan_frame latin1 (S MAX_FRAME_DEPTH) (sample_frame ++ x) 64 0 = Returns (End_ 7))
  ∧ ∃ reply, ∀ x, parseReply latin1 (sample_frame ++ x) 0 = Returns (Some (reply, 7)).
Proof.
  split; [vm_compute; reflexivity|].
  apply (framing_pass_sound latin1 64 sample_frame 0 (End_ 7)); [lia|vm_compute; reflexivity].
Defined.

Lemma command_roundtrip_witness :
  parseReply latin1 (encodeCommand [AText "SET"; AText "key"; ABuffer (CRLF ++ [42; 49])] ++ [1; 2]) 0
  = Returns (Some (RArray (map (λ a, RBulk (arg_body a)) [AText "SET"; AText "key"; ABuffer (CRLF ++ [42; 49])]),
                   size (encodeCommand [AText "SET"; AText "key"; ABuffer (CRLF ++ [42; 49])]))).
Proof.
  apply (command_roundtrip latin1 [AText "SET"; AText "key"; ABuffer (CRLF ++ [42; 49])] [1; 2]).
  - apply latin1_utf8.
  - vm_compute. discriminate.
  - vm_compute. discriminate.
Defined.

End RespFacts.
