(* ===== verification/RespClient.v ===== *)
(** * The Valkey client

    Models the client of src/src/pool-server/valkey-cache/resp-client.ts as a machine of events: the
    commands its users send and what the platform reports (a socket is ready, bytes arrive, a timer
    fires, a socket fails or closes).  A promise is its number, [settled] the promises resolved and
    rejected so far.  A socket and its connection attempt carry the generation that opened them.
    A continuation that awaits a settled promise runs before the next event, as microtasks do.
    Error texts are left out, their kinds kept; the URL parser of the platform is a parameter. *)
From Stdlib Require Import Ascii String.
From S2P Require Import Prelude JsString Regex Json JsonParse Resp.
Import Resp.
Local Open Scope stdpp_scope.
Local Open Scope js_scope.
Local Open Scope Z_scope.

Module RespClient.

Definition DEFAULT_CIRCUIT_BREAKER_MS : Z := 1500.

(** ** The connection target *)

(** The members of a parsed URL that the client reads. *)
Record url := mkUrl {
  protocol : string; hostname : string; url_port : string;
  url_username : string; url_password : string; pathname : string
}.

Record ValkeyTarget := mkTarget {
  target_host : string; target_port : Z; useTls : bool;
  username : option string; password : option string; hasDbIndex : bool
}.

(** hostname.replace(/^\[|\]$/g, "") *)
Definition strip_brackets (h : string) : string :=
  let h := match h with String "[" h' => h' | _ => h end in
  match cut_last "]" h with Some (a, EmptyString) => a | _ => h end.

(** [parsed] is what new URL gives, [None] when it throws; [None] is the redacted error. *)
Definition parseValkeyUrl (decodeURIComponent : string → option string) (parsed : option url)
    : option ValkeyTarget :=
  match parsed with
  | None => None
  | Some u =>
      if negb (String.eqb (protocol u) "redis:") && negb (String.eqb (protocol u) "rediss:") then None
      else
        let host := strip_brackets (hostname u) in
        if is_empty host then None
        else
          let port := if is_empty (url_port u) then NInt 6379 else js_number (url_port u) in
          let decode raw := if is_empty raw then None else Some (default raw (decodeURIComponent raw)) in
          match port with
          | NInt port =>
              if (port <? 1) || (65535 <? port) then None
              else Some (mkTarget host port (String.eqb (protocol u) "rediss:")
                     (decode (url_username u)) (decode (url_password u))
                     (negb (is_empty (pathname u)) && negb (String.eqb (pathname u) "/")))
          | _ => None
          end
  end.

(** The AUTH command connect sends, if any. *)
Definition auth_command (target : ValkeyTarget) (explicit : option string) : option (list Arg) :=
  let password := match explicit with Some p => Some p | None => password target end in
  match username target with
  | Some (String _ _ as user) => Some [AText "AUTH"; AText user; AText (default "" password)]
  | _ =>
      match password with
      | Some (String _ _ as p) => Some [AText "AUTH"; AText p]
      | _ => None
      end
  end.

Record RespClientOptions := mkOptions {
  target : option ValkeyTarget;
  explicit_password : option string;
  commandTimeoutMs : Z;
  circuitBreakerMs : Z;
  maxReplyBytes : Z
}.

Definition maxBufferedBytes (o : RespClientOptions) : Z := maxReplyBytes o * MAX_BUFFERED_FACTOR.

(** ** The state *)

(** A command in flight: its promise, and the generation its timer has captured. *)
Record Pending := mkPending { promise : nat; timer : option Z }.

Record client := mkClient {
  socket : option Z;
  destroyed : bool;
  connecting : option Z;
  inboundChunks : list bytes;
  inboundBytes : Z;
  neededBytes : Z;
  queue : list Pending;
  ended : bool;
  generation : Z;
  circuitOpenUntil : Z
}.

(** How far connect() is: before its socket is ready, or awaiting the reply of AUTH. *)
Inductive phase := Opening | Authenticating (id : nat).

(** The commands of one call, written together once the connection is ready. *)
Abbreviation job := (list (nat * list Arg)).

Record state := mkState {
  cl : client;
  attempt : option (Z * phase);
  waiting : list (Z * job);
  closing : option nat;
  next : nat;
  settled : list (nat * outcome failure Reply);
  writes : list (Z * nat * list Arg);
  received : list (Z * bytes)
}.

Definition initial_client : client := mkClient None false None [] 0 0 [] false 0 0.
Definition initial : state := mkState initial_client None [] None 0 [] [] [].

Definition with_client (s : state) (c : client) : state :=
  mkState c (attempt s) (waiting s) (closing s) (next s) (settled s) (writes s) (received s).
Definition with_attempt (s : state) (a : option (Z * phase)) : state :=
  mkState (cl s) a (waiting s) (closing s) (next s) (settled s) (writes s) (received s).
Definition with_waiting (s : state) (w : list (Z * job)) : state :=
  mkState (cl s) (attempt s) w (closing s) (next s) (settled s) (writes s) (received s).
Definition with_closing (s : state) (c : option nat) : state :=
  mkState (cl s) (attempt s) (waiting s) c (next s) (settled s) (writes s) (received s).
Definition with_next (s : state) (n : nat) : state :=
  mkState (cl s) (attempt s) (waiting s) (closing s) n (settled s) (writes s) (received s).
Definition with_settled (s : state) (l : list (nat * outcome failure Reply)) : state :=
  mkState (cl s) (attempt s) (waiting s) (closing s) (next s) l (writes s) (received s).
Definition with_writes (s : state) (l : list (Z * nat * list Arg)) : state :=
  mkState (cl s) (attempt s) (waiting s) (closing s) (next s) (settled s) l (received s).
Definition with_received (s : state) (l : list (Z * bytes)) : state :=
  mkState (cl s) (attempt s) (waiting s) (closing s) (next s) (settled s) (writes s) l.

Definition settle (s : state) (l : list (nat * outcome failure Reply)) : state :=
  with_settled s (settled s ++ l).

Definition is_settled (s : state) (id : nat) : bool := bool_decide (id ∈ (settled s).*1).

Definition with_inbound (c : client) (chunks : list bytes) (bytes needed : Z) : client :=
  mkClient (socket c) (destroyed c) (connecting c) chunks bytes needed (queue c) (ended c)
    (generation c) (circuitOpenUntil c).
Definition with_queue (c : client) (q : list Pending) : client :=
  mkClient (socket c) (destroyed c) (connecting c) (inboundChunks c) (inboundBytes c) (neededBytes c) q
    (ended c) (generation c) (circuitOpenUntil c).
Definition with_connection (c : client) (socket : option Z) (destroyed : bool) (connecting : option Z)
    (generation circuitOpenUntil : Z) : client :=
  mkClient socket destroyed connecting (inboundChunks c) (inboundBytes c) (neededBytes c) (queue c)
    (ended c) generation circuitOpenUntil.
Definition with_ended (c : client) : client :=
  mkClient (socket c) (destroyed c) (connecting c) (inboundChunks c) (inboundBytes c) (neededBytes c)
    (queue c) true (generation c) (circuitOpenUntil c).

Section Client.
Context (decode : bytes → string) (o : RespClientOptions).

(** ** Failures *)

(** failAll; [gen] is the generation the failure was observed on, if the caller passes one. *)
Definition failAll (now : Z) (error : failure) (fromConnectFailure : bool) (gen : option Z) (s : state)
    : state :=
  let c := cl s in
  if match gen with Some g => negb (g =? generation c) | None => false end then s
  else
    let opens := (0 <? circuitBreakerMs o) && (fromConnectFailure || negb (length (queue c) =? 0)%nat) in
    let c' := mkClient None false None [] 0 0 [] (ended c) (generation c + 1)
                (if opens then now + circuitBreakerMs o else circuitOpenUntil c) in
    settle (with_client s c') (map (λ p, (promise p, Throws error)) (queue c)).

(** ** Replies *)

(** annotateRespError: /^(MOVED|ASK) / *)
Definition annotateRespError (line : string) : failure :=
  if starts_with "MOVED " line || starts_with "ASK " line then ClusterRedirect line else ServerError line.

Definition reply_outcome (r : Reply) : outcome failure Reply :=
  match r with RError line => Throws (annotateRespError line) | _ => Returns r end.

Definition flattenInbound (c : client) : bytes := concat (inboundChunks c).

(** The client after the head frame: the rest of the flattened buffer is the only chunk. *)
Definition consumeInbound (c : client) (consumed : Z) : client :=
  let rest := drop (Z.to_nat consumed) (flattenInbound c) in
  with_inbound c (if (length rest =? 0)%nat then [] else [rest]) (size rest) 0.

(** The drain loop; each turn answers one command, so the queue's length bounds it. *)
Fixpoint drain_loop (fuel : nat) (now gen : Z) (s : state) : state :=
  let c := cl s in
  match fuel, queue c with
  | S fuel, pending :: rest =>
      if inboundBytes c <? neededBytes c then s
      else
        let buf := flattenInbound c in
        let c := with_inbound c [buf] (inboundBytes c) (neededBytes c) in
        match scanFrameEnd decode buf 0 (maxReplyBytes o) with
        | Throws e => failAll now e false (Some gen) s
        | Returns (Need n) => with_client s (with_inbound c [buf] (inboundBytes c) n)
        | Returns (End_ end_) =>
            match parseReply decode buf 0 with
            | Returns (Some (value, next)) =>
                if negb (next =? end_) then failAll now ProtocolError false (Some gen) s
                else
                  let s := with_client s (with_queue (consumeInbound c next) rest) in
                  drain_loop fuel now gen (settle s [(promise pending, reply_outcome value)])
            | _ => failAll now ProtocolError false (Some gen) s
            end
        end
  | _, _ =>
      if 0 <? inboundBytes c then failAll now ProtocolError false (Some gen) s else s
  end.

Definition drainInbound (now gen : Z) (s : state) : state := drain_loop (length (queue (cl s))) now gen s.

Definition onData (now : Z) (chunk : bytes) (gen : Z) (s : state) : state :=
  let c := cl s in
  if negb (gen =? generation c) then s
  else if (length (queue c) =? 0)%nat then failAll now ProtocolError false (Some gen) s
  else
    let c := with_inbound c (inboundChunks c ++ [chunk]) (inboundBytes c + size chunk) (neededBytes c) in
    let s := with_client s c in
    if maxBufferedBytes o <? inboundBytes c then failAll now ProtocolError false (Some gen) s
    else drainInbound now gen s.

(** ** Commands *)

(** write: its promise is rejected when there is no socket. *)
Definition write (id : nat) (args : list Arg) (s : state) : state :=
  let c := cl s in
  match socket c with
  | None => settle s [(id, Throws NotConnected)]
  | Some g =>
      let pending := mkPending id (if 0 <? commandTimeoutMs o then Some (generation c) else None) in
      with_writes (with_client s (with_queue c (queue c ++ [pending]))) (writes s ++ [(g, id, args)])
  end.

Definition write_job (j : job) (s : state) : state := foldl (λ s c, write c.1 c.2 s) s j.

Definition reject_job (e : failure) (j : job) (s : state) : state :=
  settle s (map (λ c, (c.1, Throws e)) j).

Inductive readiness := Rejected (e : failure) | Awaits (attempt : Z) | Resolved.

(** ensureConnected; a new attempt takes the next generation. *)
Definition ensureConnected (now : Z) (s : state) : readiness * state :=
  let c := cl s in
  if ended c then (Rejected ClientClosed, s)
  else
    match connecting c with
    | Some g => (Awaits g, s)
    | None =>
        if match socket c with Some _ => negb (destroyed c) | None => false end then (Resolved, s)
        else if now <? circuitOpenUntil c then (Rejected CircuitOpen, s)
        else
          let g := generation c + 1 in
          (Awaits g, with_attempt (with_client s
             (with_connection c (socket c) (destroyed c) (Some g) g (circuitOpenUntil c)))
             (Some (g, Opening)))
    end.

(** send, and exec of a transaction: the commands take the next promises. *)
Definition send (commands : list (list Arg)) (now : Z) (s : state) : state :=
  let j := imap (λ i args, ((next s + i)%nat, args)) commands in
  let s := with_next s (next s + length commands) in
  match ensureConnected now s with
  | (Rejected e, s) => reject_job e j s
  | (Awaits g, s) => with_waiting s (waiting s ++ [(g, j)])
  | (Resolved, s) => write_job j s
  end.

(** The jobs that await an attempt, and the others. *)
Definition jobs_of (g : Z) (w : list (Z * job)) : list job :=
  omap (λ x, if x.1 =? g then Some x.2 else None) w.
Definition other_jobs (g : Z) (w : list (Z * job)) : list (Z * job) :=
  List.filter (λ x, negb (x.1 =? g)) w.

(** The attempt's promise resolves: the breaker closes and the waiting commands are written. *)
Definition connected (g : Z) (s : state) : state :=
  let c := cl s in
  let jobs := jobs_of g (waiting s) in
  let s := with_waiting (with_attempt (with_client s
             (with_connection c (socket c) (destroyed c) None (generation c) 0)) None)
             (other_jobs g (waiting s)) in
  foldl (λ s j, write_job j s) s jobs.

(** It rejects. *)
Definition connect_failed (g : Z) (e : failure) (now : Z) (s : state) : state :=
  let s := failAll now e true (Some g) s in
  let jobs := jobs_of g (waiting s) in
  let s := with_waiting (with_attempt s None) (other_jobs g (waiting s)) in
  foldl (λ s j, reject_job e j s) s jobs.

(** connect after its socket is ready: the socket is exposed, then AUTH is sent if needed. *)
Definition socket_ready (g : Z) (t : ValkeyTarget) (s : state) : state :=
  let c := cl s in
  let s := with_client s (with_connection c (Some g) false (connecting c) (generation c) (circuitOpenUntil c)) in
  match auth_command t (explicit_password o) with
  | Some args =>
      let id := next s in
      write id args (with_attempt (with_next s (S id)) (Some (g, Authenticating id)))
  | None => connected g s
  end.

Definition quit (now : Z) (s : state) : state :=
  let c := with_ended (cl s) in
  let s := with_client s c in
  if match socket c with Some _ => negb (destroyed c) | None => false end
  then let id := next s in
       write id [AText "QUIT"] (with_closing (with_next s (S id)) (Some id))
  else failAll now ClientClosed false None s.

(** ** Events *)

Inductive event :=
| ESend (commands : list (list Arg)) (now : Z)
| EReady (g : Z)
| EAuthenticated (g : Z)
| EConnectFailed (g : Z) (e : failure) (now : Z)
| EData (g : Z) (chunk : bytes) (now : Z)
| EFailed (g : Z) (e : failure) (now : Z)
| EDestroyed
| ETimeout (id : nat) (now : Z)
| EQuit (now : Z)
| EQuitReplied (now : Z).

(** The reply of the attempt's AUTH, when it has one. *)
Definition auth_result (s : state) : option (Z * outcome failure Reply) :=
  match attempt s with
  | Some (g, Authenticating id) =>
      (λ r, (g, r.2)) <$> List.find (λ r, (r.1 =? id)%nat) (settled s)
  | _ => None
  end.

Definition timer_of (id : nat) (s : state) : option Z :=
  match List.find (λ p, (promise p =? id)%nat) (queue (cl s)) with Some p => timer p | None => None end.

(** The state after an event, or [None] when the platform cannot raise it.  Once AUTH has its reply,
    connect continues before anything else.  A socket reports data once it is ready and until it is
    destroyed; it may be destroyed before it reports its close. *)
Definition handle (ev : event) (s : state) : option state :=
  match auth_result s with
  | Some (g, r) =>
      match ev, r with
      | EAuthenticated g', Returns _ => if g' =? g then Some (connected g s) else None
      | EConnectFailed g' _ now, Throws e => if g' =? g then Some (connect_failed g e now s) else None
      | _, _ => None
      end
  | None =>
      match ev with
      | ESend commands now => Some (send commands now s)
      | EReady g =>
          match attempt s, target o with
          | Some (g', Opening), Some t => if g =? g' then Some (socket_ready g t s) else None
          | _, _ => None
          end
      | EAuthenticated _ => None
      | EConnectFailed g e now =>
          match attempt s with
          | Some (g', Opening) => if g =? g' then Some (connect_failed g e now s) else None
          | _ => None
          end
      | EData g chunk now =>
          if bool_decide (socket (cl s) = Some g) && negb (destroyed (cl s)) && negb (length chunk =? 0)%nat
          then Some (onData now chunk g (with_received s (received s ++ [(g, chunk)]))) else None
      | EFailed g e now =>
          if bool_decide (socket (cl s) = Some g) then Some (failAll now e false (Some g) s) else None
      | EDestroyed =>
          match socket (cl s) with
          | Some g =>
              let c := cl s in
              Some (with_client s (with_connection c (Some g) true (connecting c) (generation c) (circuitOpenUntil c)))
          | None => None
          end
      | ETimeout id now =>
          match timer_of id s with
          | Some g => Some (failAll now CommandTimeout false (Some g) s)
          | None => None
          end
      | EQuit now => Some (quit now s)
      | EQuitReplied now =>
          match closing s with
          | Some id =>
              if is_settled s id then Some (failAll now ClientClosed false None (with_closing s None)) else None
          | None => None
          end
      end
  end.

Fixpoint run (evs : list event) (s : state) : option state :=
  match evs with
  | [] => Some s
  | ev :: evs => match handle ev s with Some s => run evs s | None => None end
  end.
End Client.

(** ** The shapes of replies *)

Definition get_reply (decode : bytes → string) (r : Reply) : outcome failure (option string) :=
  match r with
  | RNull => Returns None
  | RBulk b => Returns (Some (decode b))
  | _ => Throws ProtocolError
  end.

Definition hmget_element (decode : bytes → string) (r : Reply) : outcome failure (option string) :=
  match r with
  | RNull => Returns None
  | RBulk b => Returns (Some (decode b))
  | _ => Throws ProtocolError
  end.

Fixpoint collect {A B} (f : A → outcome failure B) (l : list A) : outcome failure (list B) :=
  match l with
  | [] => Returns []
  | x :: l => let! y := f x in let! ys := collect f l in Returns (y :: ys)
  end.

Definition hmget_reply (decode : bytes → string) (r : Reply) : outcome failure (list (option string)) :=
  match r with RArray l => collect (hmget_element decode) l | _ => Throws ProtocolError end.

Fixpoint field_pairs (decode : bytes → string) (l : list bytes) (out : gmap string bytes) : gmap string bytes :=
  match l with
  | field :: value :: l => field_pairs decode l (<[decode field := value]> out)
  | _ => out
  end.

Definition hgetall_reply (decode : bytes → string) (r : Reply) : outcome failure (gmap string bytes) :=
  match r with
  | RArray l =>
      let! reply := collect (λ x, match x with RBulk b => Returns b | _ => Throws ProtocolError end) l in
      if Nat.odd (length reply) then Throws ProtocolError else Returns (field_pairs decode reply ∅)
  | _ => Throws ProtocolError
  end.

(** exec: the reply to EXEC. *)
Definition exec_reply (r : Reply) : outcome failure (list Reply) :=
  match r with RArray l => Returns l | _ => Throws ProtocolError end.

End RespClient.
