(* ===== verification/RespClientFacts.v ===== *)
(** * Correctness of the Valkey client

    No command is lost or answered twice, whatever the platform reports.  As long as a socket's close
    is reported before the next command once it is destroyed with commands in flight, the n-th reply
    of a connection answers its n-th command; without it, a reply can answer another command. *)
From Stdlib Require Import Ascii String.
From S2P Require Import Prelude JsString Regex Json JsonParse Resp RespFacts RespClient.
Import Resp RespFacts RespClient.
Local Open Scope stdpp_scope.
Local Open Scope js_scope.
Local Open Scope Z_scope.

Module RespClientFacts.

Section Facts.
Context (decode : bytes → string) (o : RespClientOptions).

(** ** Every command is somewhere *)

Definition job_ids (j : job) : list nat := j.*1.
Definition waiting_ids (w : list (Z * job)) : list nat := concat (map (λ x, job_ids x.2) w).
Definition queue_ids (s : state) : list nat := map promise (queue (cl s)).

(** The commands in flight, answered, or waiting for the connection. *)
Definition commands (s : state) : list nat :=
  queue_ids s ++ (settled s).*1 ++ waiting_ids (waiting s).

Lemma fail_commands now e b gen s : commands (failAll o now e b gen s) ≡ₚ commands s.
Proof.
  unfold failAll. destruct (match gen with Some _ => _ | None => _ end); [done|].
  unfold commands, queue_ids. cbn. rewrite fmap_app.
  assert ((map (λ p, (promise p, Throws e)) (queue (cl s)) : list (nat * outcome failure Reply)).*1
          = map promise (queue (cl s))) as ->.
  { clear. induction (queue (cl s)); cbn; congruence. }
  solve_Permutation.
Qed.

Lemma drain_commands fuel now gen s : commands (drain_loop decode o fuel now gen s) ≡ₚ commands s.
Proof.
  revert s. induction fuel as [|fuel IH]; intros s; cbn [drain_loop].
  { destruct (0 <? _); [apply fail_commands|done]. }
  destruct (queue (cl s)) as [|p q] eqn:Hq.
  { destruct (0 <? _); [apply fail_commands|done]. }
  destruct (_ <? _); [done|]. cbv zeta.
  destruct (scanFrameEnd _ _ _ _) as [[e|n]|e]; [|done|apply fail_commands].
  destruct (parseReply _ _ _) as [[[r nx]|]|]; try apply fail_commands.
  destruct (negb _); [apply fail_commands|]. rewrite IH.
  unfold commands, queue_ids. cbn. rewrite Hq, fmap_app. cbn. solve_Permutation.
Qed.

Lemma data_commands now chunk gen s : commands (onData decode o now chunk gen s) ≡ₚ commands s.
Proof.
  unfold onData. destruct (negb _); [done|]. destruct (_ =? 0)%nat; [apply fail_commands|]. cbv zeta.
  destruct (_ <? _); [by rewrite fail_commands|]. unfold drainInbound. by rewrite drain_commands.
Qed.

Lemma write_commands id args s : commands (write o id args s) ≡ₚ id :: commands s.
Proof.
  unfold write, commands, queue_ids. destruct (socket (cl s)); cbn; rewrite ?map_app, ?fmap_app; cbn; solve_Permutation.
Qed.

Lemma write_job_commands j s : commands (write_job o j s) ≡ₚ job_ids j ++ commands s.
Proof.
  revert s. induction j as [|[id args] j IH]; intros s; [done|].
  change (write_job o ((id, args) :: j) s) with (write_job o j (write o id args s)).
  rewrite IH, write_commands. cbn. solve_Permutation.
Qed.

Lemma reject_job_commands e j s : commands (reject_job e j s) ≡ₚ job_ids j ++ commands s.
Proof.
  unfold reject_job, commands, queue_ids, job_ids. cbn. rewrite fmap_app.
  assert ((map (λ c, (c.1, Throws e)) j : list (nat * outcome failure Reply)).*1 = j.*1) as ->.
  { clear. induction j; cbn; congruence. }
  solve_Permutation.
Qed.

Lemma split_waiting g w : concat (map job_ids (jobs_of g w)) ++ waiting_ids (other_jobs g w) ≡ₚ waiting_ids w.
Proof.
  induction w as [|[g' j] w IH]; [done|]. unfold jobs_of, other_jobs, waiting_ids in *. cbn.
  destruct (g' =? g); cbn; rewrite <- IH; solve_Permutation.
Qed.

Lemma fold_jobs (f : job → state → state) jobs s :
  (∀ j s, commands (f j s) ≡ₚ job_ids j ++ commands s) →
  commands (foldl (λ s j, f j s) s jobs) ≡ₚ concat (map job_ids jobs) ++ commands s.
Proof.
  intros Hf. revert s. induction jobs as [|j jobs IH]; intros s; cbn; [done|].
  rewrite IH, Hf. solve_Permutation.
Qed.

Lemma release_commands (f : job → state → state) g s s0 :
  (∀ j s, commands (f j s) ≡ₚ job_ids j ++ commands s) →
  queue_ids s0 = queue_ids s → settled s0 = settled s → waiting s0 = other_jobs g (waiting s) →
  commands (foldl (λ s j, f j s) s0 (jobs_of g (waiting s))) ≡ₚ commands s.
Proof.
  intros Hf Hq Hs Hw. rewrite fold_jobs by done. unfold commands. rewrite Hq, Hs, Hw.
  rewrite <- (split_waiting g (waiting s)). solve_Permutation.
Qed.

Lemma connected_commands g s : commands (connected o g s) ≡ₚ commands s.
Proof. apply release_commands; [apply write_job_commands|done..]. Qed.

Lemma waiting_fail now e b gen s : waiting (failAll o now e b gen s) = waiting s.
Proof. unfold failAll. by destruct (match gen with Some _ => _ | None => _ end). Qed.

Lemma connect_failed_commands g e now s : commands (connect_failed o g e now s) ≡ₚ commands s.
Proof.
  unfold connect_failed. cbv zeta. etrans; [|apply (fail_commands now e true (Some g))].
  apply release_commands; [apply reject_job_commands|done..].
Qed.

(** No operation but the allocation of promises changes their count. *)
Lemma next_fail now e b gen s : next (failAll o now e b gen s) = next s.
Proof. unfold failAll. by destruct (match gen with Some _ => _ | None => _ end). Qed.

Lemma next_drain fuel now gen s : next (drain_loop decode o fuel now gen s) = next s.
Proof.
  revert s. induction fuel as [|fuel IH]; intros s; cbn [drain_loop];
    [by destruct (0 <? _); [apply next_fail|]|].
  destruct (queue (cl s)); [by destruct (0 <? _); [apply next_fail|]|].
  destruct (_ <? _); [done|]. cbv zeta. repeat case_match; try apply next_fail; try done. by rewrite IH.
Qed.

Lemma next_data now chunk gen s : next (onData decode o now chunk gen s) = next s.
Proof.
  unfold onData. destruct (negb _); [done|]. destruct (_ =? 0)%nat; [apply next_fail|]. cbv zeta.
  destruct (_ <? _); [by rewrite next_fail|]. unfold drainInbound. by rewrite next_drain.
Qed.

Lemma next_write id args s : next (write o id args s) = next s.
Proof. unfold write. by destruct (socket (cl s)). Qed.

Lemma next_fold {A} (f : A → state → state) l s :
  (∀ a s, next (f a s) = next s) → next (foldl (λ s a, f a s) s l) = next s.
Proof. intros Hf. revert s. induction l as [|a l IH]; intros s; cbn; [done|]. by rewrite IH. Qed.

Lemma next_write_job j s : next (write_job o j s) = next s.
Proof. apply (next_fold (λ c, write o c.1 c.2)). intros. apply next_write. Qed.

Lemma next_connected g s : next (connected o g s) = next s.
Proof. unfold connected. cbv zeta. rewrite next_fold; [done|apply next_write_job]. Qed.

Lemma next_connect_failed g e now s : next (connect_failed o g e now s) = next s.
Proof. unfold connect_failed. cbv zeta. rewrite next_fold by done. apply next_fail. Qed.

(** Every promise handed out is in flight, settled, or waiting for the connection, once. *)
Definition accounted (s : state) : Prop := commands s ≡ₚ seq 0 (next s).

Lemma seq_more (l : list nat) n k : l ≡ₚ seq 0 n → seq n k ++ l ≡ₚ seq 0 (n + k).
Proof. intros ->. rewrite seq_app. cbn. solve_Permutation. Qed.

Lemma send_accounted cmds now s : accounted s → accounted (send o cmds now s).
Proof.
  intros Hs. unfold send, accounted. cbv zeta.
  set (j := imap _ cmds). set (s1 := with_next s _).
  assert (job_ids j = seq (next s) (length cmds)) as Hj.
  { unfold j, job_ids. clear. generalize (next s) as n. induction cmds as [|c cmds IH]; intros n; [done|].
    cbn. rewrite Nat.add_0_r. f_equal. rewrite <- IH. f_equal. apply imap_ext. intros i x _. cbn. f_equal. lia. }
  assert (seq (next s) (length cmds) ++ commands s ≡ₚ seq 0 (next s + length cmds)) as Hall by by apply seq_more.
  assert (∀ s2, cl s2 = cl s1 → settled s2 = settled s1 → waiting s2 = waiting s1 → commands s2 = commands s) as Hc.
  { intros s2 H1 H2 H3. unfold commands, queue_ids. by rewrite H1, H2, H3. }
  unfold ensureConnected. destruct (ended _).
  { rewrite reject_job_commands, Hj. cbn. done. }
  destruct (connecting _) as [g|].
  { cbn. rewrite <- Hall, <- Hj. unfold commands, waiting_ids, queue_ids. cbn.
    rewrite map_app, concat_app. cbn. solve_Permutation. }
  destruct (match socket _ with Some _ => _ | None => _ end).
  { rewrite write_job_commands, Hj, next_write_job. done. }
  destruct (_ <? _).
  { rewrite reject_job_commands, Hj. done. }
  cbn. rewrite <- Hall, <- Hj. unfold commands, waiting_ids, queue_ids. cbn.
  rewrite map_app, concat_app. cbn. solve_Permutation.
Qed.

Lemma write_next_accounted args s s' :
  accounted s → cl s' = cl s ∨ queue (cl s') = queue (cl s) → settled s' = settled s → waiting s' = waiting s →
  next s' = S (next s) → accounted (write o (next s) args s').
Proof.
  intros Hs Hq Hse Hw Hn. unfold accounted in *. rewrite write_commands, next_write, Hn.
  assert (commands s' = commands s) as ->.
  { unfold commands, queue_ids. rewrite Hse, Hw. by destruct Hq as [-> | ->]. }
  rewrite Hs. change (S (next s)) with (1 + next s)%nat. rewrite (Nat.add_comm 1), seq_app. cbn. solve_Permutation.
Qed.

Lemma ready_accounted g t s : accounted s → accounted (socket_ready o g t s).
Proof.
  intros Hs. unfold socket_ready. cbv zeta. destruct (auth_command _ _).
  - apply (write_next_accounted _ s); try done. by right.
  - unfold accounted. rewrite connected_commands, next_connected. done.
Qed.

Lemma quit_accounted now s : accounted s → accounted (quit o now s).
Proof.
  intros Hs. unfold quit. cbv zeta. destruct (match socket _ with Some _ => _ | None => _ end).
  - apply (write_next_accounted _ s); try done. by right.
  - unfold accounted. rewrite fail_commands, next_fail. done.
Qed.

Lemma handle_accounted ev s s' : handle decode o ev s = Some s' → accounted s → accounted s'.
Proof.
  assert (∀ s1, commands s1 ≡ₚ commands s → next s1 = next s → accounted s → accounted s1) as Hsame.
  { intros s1 Hc Hn Hs. unfold accounted. by rewrite Hc, Hn. }
  unfold handle. destruct (auth_result s) as [[g r]|].
  { destruct ev; try done; destruct r; try done; destruct (_ =? g); try done; intros [= <-].
    - apply Hsame; [apply connected_commands|apply next_connected].
    - apply Hsame; [apply connect_failed_commands|apply next_connect_failed]. }
  destruct ev as [cmds now|g|g|g e now|g chunk now|g e now| |id now|now|now]; try done.
  - intros [= <-]. apply send_accounted.
  - destruct (attempt s) as [[g' []]|]; try done. destruct (target o) as [t|]; [|done].
    destruct (g =? g'); [|done]. intros [= <-]. apply ready_accounted.
  - destruct (attempt s) as [[g' []]|]; try done. destruct (g =? g'); [|done]. intros [= <-].
    apply Hsame; [apply connect_failed_commands|apply next_connect_failed].
  - destruct (_ && _); [|done]. intros [= <-]. apply Hsame; [by rewrite data_commands|by rewrite next_data].
  - destruct (bool_decide _); [|done]. intros [= <-]. apply Hsame; [apply fail_commands|apply next_fail].
  - destruct (socket (cl s)); [|done]. intros [= <-]. by apply Hsame.
  - destruct (timer_of id s); [|done]. intros [= <-]. apply Hsame; [apply fail_commands|apply next_fail].
  - intros [= <-]. apply quit_accounted.
  - destruct (closing s); [|done]. destruct (is_settled s _); [|done]. intros [= <-].
    apply Hsame; [by rewrite fail_commands|by rewrite next_fail].
Qed.

(** ** Replies and commands in step *)

(** The commands written to a socket, and the bytes it has delivered. *)
Definition writes_on (g : Z) (s : state) : list nat :=
  omap (λ w, if w.1.1 =? g then Some w.1.2 else None) (writes s).
Definition received_on (g : Z) (s : state) : bytes :=
  concat (omap (λ x, if x.1 =? g then Some x.2 else None) (received s)).

Definition answered (s : state) (id : nat) (frame : bytes) : Prop :=
  ∃ r, parseReply decode frame 0 = Returns (Some (r, size frame)) ∧ (id, reply_outcome r) ∈ settled s.

(** The n-th frame delivered answers the n-th command written; the commands after them are in
    flight, and the bytes after them are buffered. *)
Definition stream (g : Z) (s : state) : Prop :=
  ∃ frames, Forall2 (answered s) (take (length frames) (writes_on g s)) frames
    ∧ queue_ids s = drop (length frames) (writes_on g s)
    ∧ received_on g s = concat frames ++ flattenInbound (cl s).

Definition timers_live (s : state) : Prop :=
  Forall (λ p, timer p = if 0 <? commandTimeoutMs o then Some (generation (cl s)) else None) (queue (cl s)).

Definition socket_ok (s : state) : Prop :=
  match socket (cl s) with
  | None => queue (cl s) = [] ∧ flattenInbound (cl s) = []
  | Some g =>
      g ≤ generation (cl s)
      ∧ (g = generation (cl s) → stream g s ∧ timers_live s)
      ∧ (g ≠ generation (cl s) →
           flattenInbound (cl s) = []
           ∧ (ended (cl s) = true
            ∨ queue (cl s) = [] ∧ attempt s = Some (generation (cl s), Opening) ∧ destroyed (cl s) = true))
  end.

Definition attempt_ok (s : state) : Prop :=
  match attempt s with
  | None => connecting (cl s) = None
  | Some (g, Opening) =>
      (ended (cl s) = false ∧ g = generation (cl s) ∧ connecting (cl s) = Some g ∧ queue (cl s) = []
       ∧ flattenInbound (cl s) = [] ∧ socket (cl s) ≠ Some g)
      ∨ (ended (cl s) = true ∧ g < generation (cl s) ∧ connecting (cl s) = None ∧ socket (cl s) = None)
  | Some (g, Authenticating id) =>
      (connecting (cl s) = None ∨ connecting (cl s) = Some g ∧ g = generation (cl s) ∧ socket (cl s) = Some g)
      ∧ (id ∈ queue_ids s ∨ id ∈ (settled s).*1)
  end.

(** A generation without its socket has neither written nor received. *)
Definition fresh (s : state) : Prop :=
  (∀ g id args, (g, id, args) ∈ writes s → g ≤ generation (cl s) ∧ (g = generation (cl s) → socket (cl s) = Some g))
  ∧ (∀ g b, (g, b) ∈ received s → g ≤ generation (cl s) ∧ (g = generation (cl s) → socket (cl s) = Some g)).

Record Inv (s : state) : Prop := {
  inv_bytes : inboundBytes (cl s) = size (flattenInbound (cl s));
  inv_socket : socket_ok s;
  inv_attempt : attempt_ok s;
  inv_fresh : fresh s;
  inv_closing : closing s ≠ None → ended (cl s) = true
}.

(** A destroyed socket with commands in flight reports its close before the next command. *)
Definition prompt (ev : event) (s : state) : Prop :=
  match ev with ESend _ _ => destroyed (cl s) = true → queue (cl s) = [] | _ => True end.

Inductive reachable : state → Prop :=
| reach_initial : reachable initial
| reach_step ev s s' : reachable s → prompt ev s → handle decode o ev s = Some s' → reachable s'.

Lemma answered_more s s' id f :
  (∀ x, x ∈ settled s → x ∈ settled s') → answered s id f → answered s' id f.
Proof. intros Hs (r & Hr & Hin). exists r. auto. Qed.

Lemma elem_concat_nil {A} (g : Z) (l : list (Z * A)) :
  (∀ x, x ∈ l → x.1 ≠ g) → omap (λ x, if x.1 =? g then Some x.2 else None) l = [].
Proof.
  induction l as [|x l IH]; intros H; [done|]. cbn.
  replace (x.1 =? g) with false by (symmetry; apply Z.eqb_neq, H, list_elem_of_here).
  apply IH. intros y Hy. apply H. by apply list_elem_of_further.
Qed.

(** *** Failures *)

(** The attempt of the current generation is not before its socket, unless the client has ended. *)
Definition opened (s : state) : Prop :=
  ∀ g, attempt s = Some (g, Opening) → g = generation (cl s) → ended (cl s) = true.

Lemma elem_promises (l : list Pending) e id :
  id ∈ map promise l → id ∈ (map (λ p, (promise p, Throws e)) l : list (nat * outcome failure Reply)).*1.
Proof.
  intros (p & -> & Hp)%list_elem_of_fmap. apply list_elem_of_fmap. exists (promise p, Throws e).
  split; [done|]. apply list_elem_of_fmap. by exists p.
Qed.

Lemma fail_inv now e b gen s : Inv s → opened s → Inv (failAll o now e b gen s).
Proof.
  intros [Hb Hs Ha [Hw Hr] Hc] Ho. unfold failAll.
  destruct (match gen with Some _ => _ | None => _ end); [by split|]. split; [done|done| | |done].
  - unfold attempt_ok in *. cbn. destruct (attempt s) as [[g [|id]]|] eqn:Hat; [| |done].
    + right. destruct Ha as [(He & Hg & _)|(He & Hlt & _)]; [|by split_and!; try done; lia].
      pose proof (Ho g Hat Hg). congruence.
    + split; [by left|]. right. rewrite fmap_app. apply elem_of_app. destruct Ha as [_ [Hq|Hse]]; [right|by left].
      by apply elem_promises.
  - split; cbn; intros; [edestruct Hw; [eassumption|]|edestruct Hr; [eassumption|]]; split; lia.
Qed.

Lemma fail_ended_inv now e b s : Inv s → Inv (failAll o now e b None (with_client s (with_ended (cl s)))).
Proof.
  intros [Hb Hs Ha [Hw Hr] Hc]. unfold failAll. split; [done|done| | |done].
  - unfold attempt_ok in *. cbn. destruct (attempt s) as [[g [|id]]|] eqn:Hat; [| |done].
    + right. destruct Ha as [(He & Hg & _)|(He & Hlt & _)]; by split_and!; try done; lia.
    + split; [by left|]. right. rewrite fmap_app. apply elem_of_app. destruct Ha as [_ [Hq|Hse]]; [right|by left].
      by apply elem_promises.
  - split; cbn; intros; [edestruct Hw; [eassumption|]|edestruct Hr; [eassumption|]]; split; lia.
Qed.

Lemma settle_inv l s : Inv s → Inv (settle s l).
Proof.
  intros [Hb Hs Ha Hf Hc]. split; [done| | |done|done].
  - unfold socket_ok in *. cbn. destruct (socket (cl s)) as [g|]; [|done].
    destruct Hs as (? & Hlive & ?). split_and!; [done| |done]. intros Hg.
    destruct (Hlive Hg) as [(frames & Hfr & Hq & Hrec) Ht]. split; [|done]. exists frames.
    split_and!; [|done|done]. eapply Forall2_impl; [exact Hfr|]. intros id f.
    apply answered_more. intros x Hx. apply elem_of_app. by left.
  - unfold attempt_ok in *. cbn. destruct (attempt s) as [[g [|id]]|]; [done| |done].
    destruct Ha as [? [?|?]]; split; auto. right. rewrite fmap_app. apply elem_of_app. by left.
Qed.

Lemma waiting_inv w s : Inv s → Inv (with_waiting s w).
Proof. intros [Hb Hs Ha Hf Hc]. exact (Build_Inv (with_waiting s w) Hb Hs Ha Hf Hc). Qed.

(** A failed attempt is over. *)
Lemma connect_failed_inv g e now s :
  Inv s → (attempt s = Some (g, Opening) ∨ ∃ id, attempt s = Some (g, Authenticating id)) →
  Inv (connect_failed o g e now s).
Proof.
  intros HI Hat. unfold connect_failed. cbv zeta.
  assert (Inv (with_attempt (failAll o now e true (Some g) s) None)) as H1.
  { destruct HI as [Hb Hs Ha [Hw Hr] Hc]. unfold failAll.
    destruct (negb (g =? generation (cl s))) eqn:Hg; b2p.
    - split; [done| | |done|done].
      + unfold socket_ok in *. cbn. destruct (socket (cl s)) as [g'|]; [|done].
        destruct Hs as (? & ? & Hne). split_and!; [done|done|]. intros Hg'. destruct (Hne Hg') as [? [?|(? & Hop & ?)]]; [auto|].
        unfold attempt_ok in Ha. destruct Hat as [Hat|[id Hat]]; congruence.
      + unfold attempt_ok in *. cbn. destruct Hat as [Hat|[id Hat]]; rewrite Hat in Ha.
        * destruct Ha as [(_ & ? & _)|(_ & _ & ? & _)]; done.
        * destruct Ha as [[?|(_ & ? & _)] _]; done.
    - split; [done|done|done| |done].
      split; cbn; intros; [edestruct Hw; [eassumption|]|edestruct Hr; [eassumption|]]; split; lia. }
  assert (Inv (with_waiting (with_attempt (failAll o now e true (Some g) s) None)
               (other_jobs g (waiting (failAll o now e true (Some g) s))))) as H2 by by apply waiting_inv.
  revert H2. generalize (jobs_of g (waiting (failAll o now e true (Some g) s))) as jobs.
  generalize (with_waiting (with_attempt (failAll o now e true (Some g) s) None)
               (other_jobs g (waiting (failAll o now e true (Some g) s)))) as s2.
  intros s2 jobs. revert s2. induction jobs as [|j jobs IH]; intros s2 H2; [done|].
  apply IH. unfold reject_job. by apply settle_inv.
Qed.

(** *** Writes *)

Lemma writes_on_snoc g s g' id args :
  omap (λ w, if w.1.1 =? g then Some w.1.2 else None) (writes s ++ [(g', id, args)])
  = writes_on g s ++ (if g' =? g then [id] else []).
Proof. rewrite omap_app. cbn. by destruct (g' =? g). Qed.

(** The client is not about to expose a new socket. *)
Definition exposed (s : state) : Prop := ∀ g, attempt s = Some (g, Opening) → g ≠ generation (cl s).

Lemma write_inv id args s : Inv s → exposed s → Inv (write o id args s).
Proof.
  intros HI Ho. unfold write. destruct (socket (cl s)) as [g|] eqn:Hsock; [|by apply settle_inv].
  destruct HI as [Hb Hs Ha [Hw Hr] Hc].
  split; [done| | | |done].
  - unfold socket_ok in *. cbn. rewrite Hsock in Hs |- *. destruct Hs as (Hle & Hlive & Hdead).
    split_and!; [done| |].
    + intros Hg. destruct (Hlive Hg) as [(frames & Hf & Hq & Hrec) Ht]. split.
      * exists frames. unfold writes_on, queue_ids. cbn. rewrite writes_on_snoc, Z.eqb_refl, map_app.
        assert (length frames ≤ length (writes_on g s))%nat as Hlen.
        { apply Forall2_length in Hf. rewrite length_take in Hf. lia. }
        rewrite take_app_le, drop_app_le by done. split_and!; [|f_equal; exact Hq|exact Hrec].
        eapply Forall2_impl; [exact Hf|]. intros ??. by apply answered_more.
      * unfold timers_live in *. cbn. apply Forall_app. split; [done|]. apply Forall_singleton. done.
    + intros Hg. destruct (Hdead Hg) as [Hch Hor]. split; [done|].
      destruct Hor as [|(_ & Hop & _)]; [by left|]. exfalso. by apply (Ho _ Hop).
  - unfold attempt_ok in *. cbn. destruct (attempt s) as [[g' [|id']]|] eqn:Hat; [| |done].
    + destruct Ha as [(_ & Hg & _)|?]; [exfalso; by apply (Ho _ Hat)|by right].
    + destruct Ha as [H1 H2]. split; [done|]. unfold queue_ids in *. cbn. rewrite map_app.
      destruct H2 as [?|?]; [left; apply elem_of_app; by left|by right].
  - split; cbn; [|done]. intros g' id' args' [Hin|Hin]%elem_of_app; [by eapply Hw|].
    apply list_elem_of_singleton in Hin. injection Hin as -> -> ->.
    unfold socket_ok in Hs. rewrite Hsock in Hs. destruct Hs as (Hle & _). by split.
Qed.

Lemma exposed_write id args s : exposed s → exposed (write o id args s).
Proof. unfold write, exposed. by destruct (socket (cl s)). Qed.

Lemma write_job_inv j s : Inv s → exposed s → Inv (write_job o j s) ∧ exposed (write_job o j s).
Proof.
  revert s. induction j as [|[id args] j IH]; intros s HI Ho; [done|].
  change (write_job o ((id, args) :: j) s) with (write_job o j (write o id args s)).
  apply IH; [by apply write_inv|by apply exposed_write].
Qed.

Lemma write_jobs_inv jobs s : Inv s → exposed s → Inv (foldl (λ s j, write_job o j s) s jobs).
Proof.
  revert s. induction jobs as [|j jobs IH]; intros s HI Ho; [done|]. cbn.
  destruct (write_job_inv j s HI Ho). by apply IH.
Qed.

(** *** Data *)

Lemma live_opened g s : Inv s → socket (cl s) = Some g → g = generation (cl s) → opened s.
Proof.
  intros HI Hs Hg g' Hat Hg'. pose proof (inv_attempt _ HI) as Ha. unfold attempt_ok in Ha. rewrite Hat in Ha.
  destruct Ha as [(_ & _ & _ & _ & _ & Hne)|[? _]]; [|done]. congruence.
Qed.

Lemma received_stale g b s :
  Inv s → g < generation (cl s) → Inv (with_received s (received s ++ [(g, b)])).
Proof.
  intros [Hb Hs Ha [Hw Hr] Hc] Hlt. split; [done| |done| |done].
  - unfold socket_ok in *. cbn. destruct (socket (cl s)) as [g'|]; [|done].
    destruct Hs as (? & Hlive & ?). split_and!; [done| |done]. intros Hg'.
    destruct (Hlive Hg') as [(frames & Hfr & Hq & Hrec) Ht]. split; [|done]. exists frames.
    split_and!; [exact Hfr|done|]. unfold received_on in *. cbn. rewrite omap_app, concat_app, Hrec. cbn.
    replace (g =? g') with false by (symmetry; apply Z.eqb_neq; lia). cbn. by rewrite app_nil_r.
  - split; [exact Hw|]. cbn. intros g' b' [Hin|Hin]%elem_of_app; [by eapply Hr|].
    apply list_elem_of_singleton in Hin. injection Hin as -> ->. split; lia.
Qed.

Lemma fail_received now e b gen s r :
  failAll o now e b gen (with_received s r) = with_received (failAll o now e b gen s) r.
Proof. unfold failAll. cbn. by destruct (match gen with Some _ => _ | None => _ end). Qed.

Lemma received_fail now e b gen s : received (failAll o now e b gen s) = received s.
Proof. unfold failAll. by destruct (match gen with Some _ => _ | None => _ end). Qed.

(** The bytes the platform delivers join the buffer. *)
Lemma received_live g chunk s :
  Inv s → socket (cl s) = Some g → g = generation (cl s) →
  let c := cl s in
  Inv (with_client (with_received s (received s ++ [(g, chunk)]))
         (with_inbound c (inboundChunks c ++ [chunk]) (inboundBytes c + size chunk) (neededBytes c))).
Proof.
  intros HI Hsock Hg. pose proof (live_opened g s HI Hsock Hg) as Ho.
  destruct HI as [Hb Hs Ha [Hw Hr] Hc]. cbv zeta.
  assert (∀ (l : list bytes) x, concat (l ++ [x]) = concat l ++ x) as Hcat.
  { intros l x. rewrite concat_app. cbn. by rewrite app_nil_r. }
  split.
  - cbn. unfold flattenInbound in *. cbn. by rewrite Hcat, size_app, Hb.
  - unfold socket_ok in *. cbn. rewrite Hsock in *. destruct Hs as (? & Hlive & ?). split_and!; [done| |done].
    intros _. destruct (Hlive Hg) as [(frames & Hfr & Hq & Hrec) Ht]. split; [|done]. exists frames.
    split_and!; [exact Hfr|done|]. unfold received_on, flattenInbound in *. cbn.
    rewrite omap_app, concat_app, Hrec. cbn. rewrite Z.eqb_refl, Hcat, app_assoc.
    f_equal. apply app_nil_r.
  - unfold attempt_ok in *. cbn. destruct (attempt s) as [[g' [|id]]|] eqn:Hat; [|done|done].
    destruct Ha as [(_ & Hg' & _ & _ & _ & Hne)|?]; [congruence|by right].
  - split; [exact Hw|]. cbn. intros g' b' [Hin|Hin]%elem_of_app; [by eapply Hr|].
    apply list_elem_of_singleton in Hin. injection Hin as -> ->. split; [lia|done].
  - done.
Qed.

Lemma flatten_inv n s :
  Inv s → Inv (with_client s (with_inbound (cl s) [flattenInbound (cl s)] (inboundBytes (cl s)) n))
          ∨ socket (cl s) = None ∨ socket (cl s) ≠ Some (generation (cl s)).
Proof.
  intros [Hb Hs Ha Hf Hc]. destruct (socket (cl s)) as [g|] eqn:Hsock; [|auto].
  destruct (decide (g = generation (cl s))) as [Hg|]; [left|right; right; congruence].
  split; [| | |done|done].
  - cbn. unfold flattenInbound. cbn. by rewrite app_nil_r.
  - unfold socket_ok in *. cbn. rewrite Hsock in *. destruct Hs as (? & Hlive & ?). split_and!; [done| |done].
    intros _. destruct (Hlive Hg) as [(frames & Hfr & Hq & Hrec) Ht]. split; [|done]. exists frames.
    split_and!; [exact Hfr|done|]. unfold flattenInbound in *. cbn. by rewrite app_nil_r.
  - unfold attempt_ok in *. cbn. destruct (attempt s) as [[g' [|id]]|] eqn:Hat; [|done|done].
    destruct Ha as [(_ & Hg' & _ & _ & _ & Hne)|?]; [congruence|by right].
Qed.

(** The head frame answers the head of the queue. *)
Lemma answer_inv g pending rest end_ value s :
  Inv s → socket (cl s) = Some g → g = generation (cl s) → queue (cl s) = pending :: rest →
  scanFrameEnd decode (flattenInbound (cl s)) 0 (maxReplyBytes o) = Returns (End_ end_) →
  parseReply decode (flattenInbound (cl s)) 0 = Returns (Some (value, end_)) →
  let c := with_inbound (cl s) [flattenInbound (cl s)] (inboundBytes (cl s)) (neededBytes (cl s)) in
  Inv (settle (with_client s (with_queue (consumeInbound c end_) rest)) [(promise pending, reply_outcome value)]).
Proof.
  intros HI Hsock Hg Hqueue Hscan Hparse. destruct HI as [Hb Hs Ha Hf Hc].
  destruct (frame_alone decode (maxReplyBytes o) _ _ _ Hscan Hparse) as [He Halone].
  set (buf := flattenInbound (cl s)) in *. set (frame := take (Z.to_nat end_) buf) in *.
  assert (size frame = end_) as Hsize.
  { destruct (scan_lasting decode (maxReplyBytes o) _ buf 0 _ ltac:(lia) Hscan) as (H0 & _).
    unfold frame, size in *. rewrite length_take. lia. }
  assert (∀ n b (q : list Pending), flattenInbound (with_queue (consumeInbound (with_inbound (cl s) [buf] b n) end_) q)
                = drop (Z.to_nat end_) buf) as Hflat.
  { intros n b q. unfold consumeInbound, flattenInbound. cbn. rewrite app_nil_r.
    destruct (drop (Z.to_nat end_) buf) eqn:Hd; cbn; [done|]. by rewrite app_nil_r. }
  cbv zeta. split.
  - cbn [cl settle with_settled with_client]. rewrite Hflat. cbn. unfold flattenInbound. cbn. by rewrite app_nil_r.
  - unfold socket_ok in *. cbn [cl settle with_settled with_client with_queue consumeInbound with_inbound socket generation].
    rewrite Hsock in *. destruct Hs as (? & Hlive & ?). split_and!; [done| |done].
    intros _. destruct (Hlive Hg) as [(frames & Hfr & Hq & Hrec) Ht].
    unfold queue_ids in Hq. rewrite Hqueue in Hq. cbn in Hq. split.
    + exists (frames ++ [frame]). rewrite length_app. cbn [length].
      assert (length frames < length (writes_on g s))%nat as Hlen.
      { apply (f_equal length) in Hq. rewrite length_drop in Hq. cbn in Hq. lia. }
      assert (writes_on g s = take (length frames) (writes_on g s) ++ promise pending :: map promise rest) as Hsplit.
      { rewrite Hq. by rewrite take_drop. }
      assert (length (take (length frames) (writes_on g s)) = length frames) as Htl by (rewrite length_take; lia).
      split_and!.
      * change (writes_on g _) with (writes_on g s). rewrite Hsplit at 1.
        rewrite (take_app_ge _ _ (length frames + 1)) by lia.
        rewrite Htl. replace (length frames + 1 - length frames)%nat with 1%nat by lia. cbn [take].
        apply Forall2_app.
        -- eapply Forall2_impl; [exact Hfr|]. intros id f. apply answered_more.
           intros x Hx. apply elem_of_app. by left.
        -- constructor; [|done]. exists value. rewrite Hsize. split; [done|].
           apply elem_of_app. right. by apply list_elem_of_singleton.
      * change (writes_on g _) with (writes_on g s). rewrite Hsplit at 1. unfold queue_ids. cbn.
        rewrite (drop_app_ge _ _ (length frames + 1)) by lia. rewrite Htl.
        by replace (length frames + 1 - length frames)%nat with 1%nat by lia.
      * change (received_on g _) with (received_on g s). rewrite Hrec, concat_app. cbn [concat cl settle with_settled with_client].
        rewrite Hflat, app_nil_r, <- app_assoc. f_equal. unfold frame. by rewrite take_drop.
    + unfold timers_live in *. cbn. rewrite Hqueue in Ht. by inversion Ht.
  - unfold attempt_ok in *. cbn. destruct (attempt s) as [[g' [|id]]|] eqn:Hat; [| |done].
    + destruct Ha as [(_ & Hg' & _ & _ & _ & Hne)|?]; [congruence|by right].
    + destruct Ha as [? Hin]. split; [done|]. unfold queue_ids in *. rewrite Hqueue in Hin. cbn in Hin |- *.
      rewrite fmap_app. destruct Hin as [[->|?]%elem_of_cons|?]; [right|by left|right];
        apply elem_of_app; [right; by apply list_elem_of_singleton|by left].
  - done.
  - done.
Qed.

Lemma drain_inv fuel now g s :
  Inv s → socket (cl s) = Some g → g = generation (cl s) → Inv (drain_loop decode o fuel now g s).
Proof.
  revert s. induction fuel as [|fuel IH]; intros s HI Hsock Hg; cbn [drain_loop];
    pose proof (live_opened g s HI Hsock Hg) as Ho.
  { destruct (0 <? _); [by apply fail_inv|done]. }
  destruct (queue (cl s)) as [|p q] eqn:Hq.
  { destruct (0 <? _); [by apply fail_inv|done]. }
  destruct (_ <? _); [done|]. cbv zeta.
  destruct (scanFrameEnd _ _ _ _) as [[e|n]|e] eqn:Hscan; [| |by apply fail_inv].
  - destruct (frame_parses decode (maxReplyBytes o) _ _ Hscan) as [r Hr]. rewrite Hr.
    rewrite Z.eqb_refl. cbn [negb]. apply IH; [|done|done]. by apply (answer_inv g).
  - destruct (flatten_inv n s HI) as [?|[?|Hne]]; [done|congruence|]. destruct Hne. congruence.
Qed.

Lemma data_inv now g chunk s :
  Inv s → socket (cl s) = Some g →
  Inv (onData decode o now chunk g (with_received s (received s ++ [(g, chunk)]))).
Proof.
  intros HI Hsock. unfold onData. cbn [cl with_received].
  assert (g ≤ generation (cl s)) as Hle.
  { pose proof (inv_socket _ HI) as Hs. unfold socket_ok in Hs. rewrite Hsock in Hs. apply Hs. }
  destruct (negb (g =? generation (cl s))) eqn:Hg; b2p; [apply received_stale; [done|lia]|].
  pose proof (live_opened g s HI Hsock Hg) as Ho.
  destruct (length _ =? 0)%nat.
  { rewrite fail_received. set (s' := failAll _ _ _ _ _ s).
    assert (received s = received s') as -> by (symmetry; apply received_fail).
    apply received_stale; [by apply fail_inv|]. unfold s', failAll.
    replace (negb (g =? generation (cl s))) with false by (symmetry; apply negb_false_iff, Z.eqb_eq; lia). cbn. lia. }
  cbv zeta. pose proof (received_live g chunk s HI Hsock Hg) as H1. cbv zeta in H1.
  destruct (_ <? _).
  - apply fail_inv; [exact H1|]. by apply (live_opened g).
  - unfold drainInbound. apply drain_inv; done.
Qed.

(** With no command in flight, nothing is buffered. *)
Definition idle (s : state) : Prop := queue (cl s) = [] → flattenInbound (cl s) = [].

Lemma fail_idle now e b gen s : idle s → idle (failAll o now e b gen s).
Proof. intros Hi. unfold failAll. by destruct (match gen with Some _ => _ | None => _ end). Qed.

Lemma fail_current_idle now e b s : idle (failAll o now e b (Some (generation (cl s))) s).
Proof. unfold failAll. by rewrite Z.eqb_refl. Qed.

Lemma write_idle id args s : idle s → idle (write o id args s).
Proof.
  intros Hi. unfold write. destruct (socket (cl s)); [|done]. intros Hq. cbn in Hq.
  by apply app_eq_nil in Hq as [_ ?].
Qed.

Lemma fold_idle {A} (f : A → state → state) l s :
  (∀ a s, idle s → idle (f a s)) → idle s → idle (foldl (λ s a, f a s) s l).
Proof. intros Hf. revert s. induction l as [|a l IH]; intros s Hs; cbn; [done|]. apply IH. by apply Hf. Qed.

Lemma write_job_idle j s : idle s → idle (write_job o j s).
Proof. apply (fold_idle (λ c, write o c.1 c.2)). intros. by apply write_idle. Qed.

Lemma drain_idle fuel now s :
  Inv s → (length (queue (cl s)) ≤ fuel)%nat → socket (cl s) = Some (generation (cl s)) →
  idle (drain_loop decode o fuel now (generation (cl s)) s).
Proof.
  revert s. induction fuel as [|fuel IH]; intros s HI Hlen Hsock; cbn [drain_loop].
  { destruct (0 <? _) eqn:Hb; [apply fail_current_idle|]. intros _. b2p.
    rewrite (inv_bytes _ HI) in Hb. unfold size in Hb. destruct (flattenInbound (cl s)); [done|cbn in Hb; lia]. }
  destruct (queue (cl s)) as [|p q] eqn:Hq.
  { destruct (0 <? _) eqn:Hb; [apply fail_current_idle|]. intros _. b2p.
    rewrite (inv_bytes _ HI) in Hb. unfold size in Hb. destruct (flattenInbound (cl s)); [done|cbn in Hb; lia]. }
  destruct (_ <? _); [unfold idle; by rewrite Hq|]. cbv zeta.
  destruct (scanFrameEnd _ _ _ _) as [[e|n]|e] eqn:Hscan; [| |apply fail_current_idle].
  - destruct (frame_parses decode (maxReplyBytes o) _ _ Hscan) as [r Hr]. rewrite Hr.
    rewrite Z.eqb_refl. cbn [negb].
    pose proof (answer_inv _ p q e r s HI Hsock eq_refl Hq Hscan Hr) as H1. cbv zeta in H1.
    apply IH in H1; [exact H1|cbn; cbn in Hlen; lia|done].
  - unfold idle. cbn. by rewrite Hq.
Qed.

Lemma data_idle now g chunk s :
  Inv s → idle s → socket (cl s) = Some g →
  idle (onData decode o now chunk g (with_received s (received s ++ [(g, chunk)]))).
Proof.
  intros HI Hi Hsock. unfold onData. cbn [cl with_received].
  destruct (negb (g =? generation (cl s))) eqn:Hg; b2p; [done|]. subst g.
  destruct (length _ =? 0)%nat.
  { rewrite fail_received. apply fail_current_idle. }
  cbv zeta. pose proof (received_live _ chunk s HI Hsock eq_refl) as H1. cbv zeta in H1.
  destruct (_ <? _); [|match goal with |- idle (drainInbound _ _ _ _ ?s1) => by apply (drain_idle _ now s1 H1) end].
  match goal with |- idle (failAll o now ?e ?b (Some ?g) ?s1) => apply (fail_current_idle now e b s1) end.
Qed.

(** *** Events *)

Lemma socket_none s : Inv s → idle s → prompt (ESend [] 0) s →
  (∀ g, socket (cl s) = Some g → destroyed (cl s) = true) →
  queue (cl s) = [] ∧ flattenInbound (cl s) = [].
Proof.
  intros HI Hi Hp Hd. destruct (socket (cl s)) as [g|] eqn:Hs.
  - assert (queue (cl s) = []) as Hq by (apply Hp; by eapply Hd). split; [done|by apply Hi].
  - pose proof (inv_socket _ HI) as H. unfold socket_ok in H. by rewrite Hs in H.
Qed.

(** A new attempt takes a generation nothing has used. *)
Lemma connect_inv s :
  Inv s → ended (cl s) = false → connecting (cl s) = None →
  (∀ g, socket (cl s) = Some g → destroyed (cl s) = true) →
  queue (cl s) = [] → flattenInbound (cl s) = [] →
  let c := cl s in let g := generation c + 1 in
  Inv (with_attempt (with_client s
         (with_connection c (socket c) (destroyed c) (Some g) g (circuitOpenUntil c))) (Some (g, Opening))).
Proof.
  intros [Hb Hs Ha [Hw Hr] Hc] He Hcon Hd Hq Hfl. cbv zeta. split; [done| | | |done].
  - unfold socket_ok in *. cbn. destruct (socket (cl s)) as [g|]; [|done]. destruct Hs as (Hle & _).
    split_and!; [lia|lia|]. intros _. split; [exact Hfl|]. right. split_and!; [done|done|by eapply Hd].
  - unfold attempt_ok. cbn. left. split_and!; try done. intros Hsock. unfold socket_ok in Hs.
    rewrite Hsock in Hs. destruct Hs. lia.
  - split; cbn.
    + intros g id args H. destruct (Hw _ _ _ H). split; lia.
    + intros g b H. destruct (Hr _ _ H). split; lia.
Qed.

(** The state once the attempt is over, before the waiting commands are written. *)
Definition exposing (g : Z) (d : bool) (until : Z) (s : state) : state :=
  with_attempt (with_client s (with_connection (cl s) (Some g) d None (generation (cl s)) until)) None.

Lemma exposing_inv g d until s :
  Inv s → attempt s = Some (g, Opening) → Inv (exposing g d until s).
Proof.
  intros [Hb Hs Ha [Hw Hr] Hc] Hat. unfold attempt_ok in Ha. rewrite Hat in Ha.
  destruct Ha as [(_ & Hg & Hcon & Hq & Hfl & Hne)|(He & Hlt & Hcon & Hsock)].
  - assert (∀ x, x ∈ writes s → x.1.1 ≠ g) as Hwg.
    { intros [[g' id] args] Hx Heq. cbn in Heq. subst g'. destruct (Hw _ _ _ Hx) as [_ H]. by apply Hne, H. }
    assert (∀ x, x ∈ received s → x.1 ≠ g) as Hrg.
    { intros [g' b] Hx Heq. cbn in Heq. subst g'. destruct (Hr _ _ Hx) as [_ H]. by apply Hne, H. }
    split; [done| |done| |done].
    + unfold socket_ok. cbn. split_and!; [lia| |done]. intros _. split.
      * exists []. cbn. unfold writes_on, queue_ids, received_on. cbn. rewrite Hq, elem_concat_nil by done.
        assert (omap (λ w : Z * nat * list Arg, if w.1.1 =? g then Some w.1.2 else None) (writes s) = []) as ->.
        { clear - Hwg. induction (writes s) as [|x l IH]; [done|]. cbn.
          replace (x.1.1 =? g) with false by (symmetry; apply Z.eqb_neq, Hwg, list_elem_of_here).
          apply IH. intros y Hy. apply Hwg. by apply list_elem_of_further. }
        split_and!; [constructor|done|]. unfold flattenInbound in *. cbn. done.
      * unfold timers_live. cbn. by rewrite Hq.
    + split; cbn.
      * intros g' id args H. destruct (Hw _ _ _ H) as [? Hs']. split; [done|]. intros ->. congruence.
      * intros g' b H. destruct (Hr _ _ H) as [? Hs']. split; [done|]. intros ->. congruence.
  - split; [done| |done| |done].
    + unfold socket_ok in *. cbn. rewrite Hsock in Hs. split_and!; [lia|lia|]. intros _. split; [apply Hs|by left].
    + split; cbn.
      * intros g' id args H. destruct (Hw _ _ _ H) as [? Hs']. split; [done|]. intros ->.
        rewrite Hsock in Hs'. by specialize (Hs' eq_refl).
      * intros g' b H. destruct (Hr _ _ H) as [? Hs']. split; [done|]. intros ->.
        rewrite Hsock in Hs'. by specialize (Hs' eq_refl).
Qed.

(** While AUTH is in flight the attempt goes on. *)
Lemma authenticating_inv g id d cn until s :
  Inv s → attempt s = None → socket (cl s) = Some g → id ∈ queue_ids s →
  (cn = None ∨ cn = Some g ∧ g = generation (cl s)) →
  Inv (with_attempt (with_client s (with_connection (cl s) (Some g) d cn (generation (cl s)) until))
         (Some (g, Authenticating id))).
Proof.
  intros [Hb Hs Ha [Hw Hr] Hc] Hat Hsock Hid Hcn. split; [done| | | |done].
  - unfold socket_ok in *. cbn. rewrite Hsock in Hs. destruct Hs as (? & Hlive & Hdead).
    split_and!; [done|done|]. intros Hg. destruct (Hdead Hg) as [? [?|(_ & ? & _)]]; [auto|congruence].
  - unfold attempt_ok. cbn. split; [|by left]. destruct Hcn as [?|[? ?]]; auto.
  - rewrite Hsock in Hw, Hr. by split.
Qed.

Lemma jobs_released_inv g s :
  Inv s → exposed s →
  Inv (foldl (λ s j, write_job o j s) (with_waiting s (other_jobs g (waiting s))) (jobs_of g (waiting s))).
Proof. intros HI He. apply write_jobs_inv; [by apply waiting_inv|done]. Qed.

Lemma ready_inv g t s : Inv s → attempt s = Some (g, Opening) → Inv (socket_ready o g t s).
Proof.
  intros HI Hat. unfold socket_ready. cbv zeta. destruct (auth_command _ _) as [args|].
  - set (s1 := with_next (exposing g false (circuitOpenUntil (cl s)) s) (S (next s))).
    assert (Inv s1) as H1.
    { destruct (exposing_inv g false (circuitOpenUntil (cl s)) s HI Hat). by apply Build_Inv. }
    pose proof (write_inv (next s) args s1 H1 ltac:(done)) as H2.
    apply (authenticating_inv g (next s) false (connecting (cl s)) (circuitOpenUntil (cl s))) in H2; try done.
    + unfold queue_ids. cbn. rewrite map_app. apply elem_of_app. right. by apply list_elem_of_singleton.
    + cbn. pose proof (inv_attempt _ HI) as Ha. unfold attempt_ok in Ha. rewrite Hat in Ha.
      destruct Ha as [(_ & ? & ? & _)|(_ & _ & ? & _)]; auto.
  - apply (jobs_released_inv g (exposing g false 0 s)); [by apply exposing_inv|done].
Qed.

Lemma authenticated_inv g r s : Inv s → auth_result s = Some (g, r) → Inv (connected o g s).
Proof.
  intros HI Hr. unfold auth_result in Hr. destruct (attempt s) as [[g' [|id]]|] eqn:Hat; try done.
  destruct (List.find _ _); [|done]. injection Hr as -> _.
  apply (jobs_released_inv g (with_attempt (with_client s (with_connection (cl s) (socket (cl s)) (destroyed (cl s))
           None (generation (cl s)) 0)) None)); [|done].
  destruct HI as [Hb Hs Ha Hf Hc]. split; [done| |done|done|done].
  unfold socket_ok in *. cbn. destruct (socket (cl s)) as [g'|]; [|done]. destruct Hs as (? & ? & Hdead).
  split_and!; [done|done|]. intros Hg. destruct (Hdead Hg) as [? [?|(_ & ? & _)]]; [auto|congruence].
Qed.

Lemma send_inv cmds now s : Inv s → idle s → prompt (ESend cmds now) s → Inv (send o cmds now s).
Proof.
  intros HI Hi Hp. unfold send. cbv zeta. set (s1 := with_next s _).
  assert (Inv s1) as H1 by (destruct HI; by apply Build_Inv).
  unfold ensureConnected. destruct (ended (cl s1)) eqn:He; [by apply settle_inv|].
  destruct (connecting (cl s1)) as [g|] eqn:Hcon; [by apply waiting_inv|].
  destruct (match socket _ with Some _ => _ | None => _ end) eqn:Hsock.
  - apply write_job_inv; [done|]. intros g Hat Hg. pose proof (inv_attempt _ H1) as Ha.
    unfold attempt_ok in Ha. rewrite Hat in Ha. destruct Ha as [(_ & _ & ? & _)|(? & _)]; congruence.
  - destruct (_ <? _); [by apply settle_inv|]. apply waiting_inv, connect_inv; try done.
    all: try (apply (socket_none s1); try done).
    all: intros g Hg; rewrite Hg in Hsock; by apply negb_false_iff in Hsock.
Qed.

Lemma ended_inv s : Inv s → exposed s → Inv (with_client s (with_ended (cl s))).
Proof.
  intros [Hb Hs Ha Hf Hc] Ho. split; [done| | |done|done].
  - unfold socket_ok in *. cbn. destruct (socket (cl s)) as [g|]; [|done]. destruct Hs as (? & ? & Hdead).
    split_and!; [done|done|]. intros Hg. destruct (Hdead Hg). auto.
  - unfold attempt_ok in *. cbn. destruct (attempt s) as [[g [|id]]|] eqn:Hat; [|done|done].
    destruct Ha as [(_ & Hg & _)|(? & ?)]; [|auto]. exfalso. by apply (Ho g Hat).
Qed.

Lemma quit_inv now s : Inv s → Inv (quit o now s).
Proof.
  intros HI. unfold quit. cbv zeta. cbn [cl with_client with_ended socket destroyed].
  destruct (match socket (cl s) with Some _ => _ | None => _ end) eqn:Hsock; [|by apply fail_ended_inv].
  assert (exposed s) as Ho.
  { intros g Hat Hg. destruct HI as [_ Hs Ha _ _]. unfold attempt_ok, socket_ok in *. rewrite Hat in *.
    destruct (socket (cl s)) as [g'|]; [|done]. apply negb_true_iff in Hsock.
    destruct Ha as [(He & _ & _ & _ & _ & Hne)|(_ & ? & _)]; [|lia].
    destruct Hs as (_ & _ & Hdead). destruct Hdead as [_ [?|(_ & _ & ?)]]; congruence. }
  apply write_inv; [|done]. destruct (ended_inv s HI Ho). by apply Build_Inv.
Qed.

(** *** Reachable states *)

Lemma fail_queue_opened s : Inv s → queue (cl s) ≠ [] → opened s.
Proof.
  intros HI Hq g Hat Hg. pose proof (inv_attempt _ HI) as Ha. unfold attempt_ok in Ha. rewrite Hat in Ha.
  destruct Ha as [(_ & _ & _ & ? & _)|(? & _)]; done.
Qed.

Lemma handle_inv ev s s' :
  Inv s → idle s → prompt ev s → handle decode o ev s = Some s' → Inv s' ∧ idle s'.
Proof.
  intros HI Hi Hp. unfold handle. destruct (auth_result s) as [[g r]|] eqn:Hres.
  { destruct ev; try done; destruct r; try done; destruct (_ =? g) eqn:Hg; try done; intros [= <-]; b2p; subst.
    - split; [by eapply authenticated_inv|]. apply fold_idle; [intros; by apply write_job_idle|exact Hi].
    - unfold auth_result in Hres. destruct (attempt s) as [[g' [|id]]|] eqn:Hat; try done.
      destruct (List.find _ _); [|done]. injection Hres as -> _. split.
      + apply connect_failed_inv; [done|]. right. by exists id.
      + apply fold_idle; [done|]. by apply (fail_idle now _ true (Some g) s). }
  destruct ev as [cmds now|g|g|g e now|g chunk now|g e now| |id now|now|now]; try done.
  - intros [= <-]. split; [by apply send_inv|]. unfold send. cbv zeta. unfold ensureConnected.
    repeat case_match; simplify_eq; try done; try by apply write_job_idle.
  - destruct (attempt s) as [[g' []]|] eqn:Hat; try done. destruct (target o) as [t|]; [|done].
    destruct (g =? g') eqn:Hg; [|done]. b2p. subst g'. intros [= <-]. split; [by apply ready_inv|].
    unfold socket_ready. cbv zeta. destruct (auth_command _ _); [by apply write_idle|].
    apply fold_idle; [intros; by apply write_job_idle|exact Hi].
  - destruct (attempt s) as [[g' []]|] eqn:Hat; try done. destruct (g =? g') eqn:Hg; [|done]. b2p. subst g'.
    intros [= <-]. split; [apply connect_failed_inv; auto|].
    apply fold_idle; [done|]. by apply (fail_idle now _ true (Some g) s).
  - destruct (_ && _ && _) eqn:E; [|done]. intros [= <-]. b2p. split; [by apply data_inv|by apply data_idle].
  - destruct (bool_decide _) eqn:E; [|done]. intros [= <-]. b2p. split; [|by apply fail_idle].
    destruct (decide (g = generation (cl s))) as [Hg|Hg]; [apply fail_inv; [done|by eapply live_opened]|].
    unfold failAll. by replace (g =? generation (cl s)) with false by (symmetry; apply Z.eqb_neq; lia).
  - destruct (socket (cl s)) as [g|] eqn:Hsock; [|done]. intros [= <-]. split; [|done].
    destruct HI as [Hb Hs Ha Hf Hc]. split; [done| | | |done].
    + unfold socket_ok in *. cbn. rewrite Hsock in Hs. destruct Hs as (? & ? & Hdead). split_and!; [done|done|].
      intros Hg. destruct (Hdead Hg) as [? [?|(? & ? & ?)]]; auto.
    + unfold attempt_ok in *. cbn. rewrite Hsock in Ha. done.
    + unfold fresh in *. cbn. by rewrite Hsock in Hf.
  - destruct (timer_of id s) as [g|] eqn:Ht; [|done]. intros [= <-]. split; [|by apply fail_idle].
    apply fail_inv; [done|]. apply fail_queue_opened; [done|]. unfold timer_of in Ht. intros Hq. by rewrite Hq in Ht.
  - intros [= <-]. split; [by apply quit_inv|]. unfold quit. cbv zeta.
    destruct (match socket _ with Some _ => _ | None => _ end); [by apply write_idle|by apply fail_idle].
  - destruct (closing s) as [id|] eqn:Hcl; [|done]. destruct (is_settled s id); [|done]. intros [= <-].
    split; [|by apply fail_idle]. apply fail_inv; [destruct HI; by apply Build_Inv|].
    intros g _ _. apply (inv_closing _ HI). by rewrite Hcl.
Qed.

Lemma initial_inv : Inv initial ∧ idle initial.
Proof.
  split; [|done]. split; try done. split; cbn; intros * H; by apply not_elem_of_nil in H.
Qed.

Lemma reachable_inv s : reachable s → Inv s ∧ idle s.
Proof.
  induction 1 as [|ev s s' _ [HI Hi] Hp Hh]; [apply initial_inv|]. by eapply handle_inv.
Qed.

(** A run in which the close of a destroyed socket is reported before the next command. *)
Fixpoint run_prompt (evs : list event) (s : state) : option state :=
  match evs with
  | [] => Some s
  | ev :: evs =>
      if match ev with ESend _ _ => destroyed (cl s) && negb (length (queue (cl s)) =? 0)%nat | _ => false end
      then None
      else match handle decode o ev s with Some s => run_prompt evs s | None => None end
  end.

Lemma run_prompt_reachable evs s s' : reachable s → run_prompt evs s = Some s' → reachable s'.
Proof.
  revert s. induction evs as [|ev evs IH]; intros s Hs; cbn; [by intros [= <-]|].
  destruct (match ev with ESend _ _ => _ | _ => _ end) eqn:Hp; [done|].
  destruct (handle decode o ev s) as [s1|] eqn:Hh; [|done]. apply IH. eapply reach_step; [done| |done].
  destruct ev; cbn; try done. intros Hd. rewrite Hd in Hp. cbn in Hp. b2p. by destruct (queue (cl s)).
Qed.

Lemma run_accounted evs s s' : accounted s → run decode o evs s = Some s' → accounted s'.
Proof.
  revert s. induction evs as [|ev evs IH]; intros s Hs; cbn; [by intros [= <-]|].
  destruct (handle decode o ev s) as [s1|] eqn:Hh; [|done]. apply IH. by eapply handle_accounted.
Qed.

(** ** An exchange *)

(** What draining leaves alone. *)
Definition keeps (s s' : state) : Prop :=
  socket (cl s') = socket (cl s) ∧ destroyed (cl s') = destroyed (cl s)
  ∧ generation (cl s') = generation (cl s) ∧ attempt s' = attempt s.

Definition answers (q : list Pending) (rs : list Reply) : list (nat * outcome failure Reply) :=
  zip_with (λ p r, (promise p, reply_outcome r)) q rs.

(** The client has answered the first commands, and holds a part of the frames still to come. *)
Definition holds (s : state) (future : bytes) (bs : list bytes) : Prop :=
  inboundBytes (cl s) = size (flattenInbound (cl s))
  ∧ flattenInbound (cl s) ++ future = concat bs
  ∧ neededBytes (cl s) ≤ match bs with b :: _ => size b | [] => 0 end.

Definition partial (s : state) (bs : list bytes) : Prop :=
  match bs with b :: _ => size (flattenInbound (cl s)) < size b | [] => True end.

Section Exchange.
Context (decode_utf8 : ∀ s, decode (utf8 s) = s) (limit_exact : maxReplyBytes o ≤ 2 ^ 53).

Abbreviation whole := (wire (S MAX_FRAME_DEPTH)).

Lemma whole_scan r b x :
  whole r b → size b ≤ maxReplyBytes o →
  scanFrameEnd decode (b ++ x) 0 (maxReplyBytes o) = Returns (End_ (size b))
  ∧ parseReply decode (b ++ x) 0 = Returns (Some (r, size b)).
Proof.
  intros Hw Hs. split.
  - pose proof (proj1 (wire_scan decode decode_utf8 _ limit_exact) _ _ _ Hw [] x) as H.
    change (size []) with 0 in H. apply H. lia.
  - unfold parseReply.
    pose proof (proj1 (wire_parse decode decode_utf8 _ limit_exact) _ _ _ Hw Hs (S (length (b ++ x))) [] x) as H.
    change (size []) with 0 in H. apply H. unfold size. rewrite length_app. lia.
Qed.

Lemma part_scan r b p q :
  whole r b → size b ≤ maxReplyBytes o → b = p ++ q → q ≠ [] →
  ∃ n, scanFrameEnd decode p 0 (maxReplyBytes o) = Returns (Need n) ∧ n ≤ size b.
Proof.
  intros Hw Hs Heq Hq.
  destruct (proj1 (wire_partial decode decode_utf8 _ limit_exact) _ _ _ Hw [] p q) as [n Hn]; [done..|].
  change (size []) with 0 in Hn. exists n. split; [exact Hn|].
  destruct (decide (n ≤ size b)) as [|Hlt]; [done|].
  destruct (scan_lasting decode (maxReplyBytes o) _ p 0 _ ltac:(lia) Hn) as [_ Hext].
  destruct (whole_scan r b [] Hw Hs) as [Hscan _]. rewrite app_nil_r, Heq in Hscan.
  unfold scanFrameEnd in Hscan. cbv beta in Hext. rewrite Hext in Hscan; [done|]. rewrite <- Heq. lia.
Qed.

Lemma drain_exchange q : ∀ fuel now g s future bs rs,
  queue (cl s) = q → (length q ≤ fuel)%nat → length bs = length q →
  Forall2 whole rs bs → Forall (λ b, size b ≤ maxReplyBytes o) bs → holds s future bs →
  ∃ k s', drain_loop decode o fuel now g s = s' ∧ keeps s s'
    ∧ queue (cl s') = drop k q ∧ settled s' = settled s ++ answers (take k q) (take k rs)
    ∧ holds s' future (drop k bs) ∧ partial s' (drop k bs).
Proof.
  induction q as [|p q IH]; intros fuel now g s future bs rs Hq Hfuel Hlen Hw Hsz (Hb & Hf & Hn).
  - destruct bs; [|done]. cbn in Hf. apply app_nil in Hf as [Hf ->]. exists O, s.
    assert (drain_loop decode o fuel now g s = s) as ->.
    { assert (0 <? inboundBytes (cl s) = false) as H0 by (rewrite Hb, Hf; done).
      destruct fuel; cbn [drain_loop]; [by rewrite H0|]. by rewrite Hq, H0. }
    split_and!; try done; [by rewrite app_nil_r|].
    unfold holds. by rewrite Hf in *.
  - destruct bs as [|b bs]; [done|]. destruct rs as [|r rs]; [by inversion Hw|].
    apply Forall2_cons in Hw as [Hw Hws]. apply Forall_cons in Hsz as [Hs Hsz].
    destruct fuel as [|fuel]; [cbn in Hfuel; lia|]. cbn [drain_loop]. rewrite Hq.
    assert (∀ n, partial s (b :: bs) → n ≤ size b →
      ∃ k s', with_client s (with_inbound (cl s) [flattenInbound (cl s)] (inboundBytes (cl s)) n) = s' ∧ keeps s s'
        ∧ queue (cl s') = drop k (p :: q) ∧ settled s' = settled s ++ answers (take k (p :: q)) (take k (r :: rs))
        ∧ holds s' future (drop k (b :: bs)) ∧ partial s' (drop k (b :: bs))) as Hwait.
    { intros n Hp Hle. exists O. eexists. split; [done|]. unfold holds, partial, flattenInbound in *. cbn.
      rewrite app_nil_r. rewrite app_nil_r. split_and!; done. }
    destruct (inboundBytes (cl s) <? neededBytes (cl s)) eqn:Hneed; b2p.
    { exists O, s. split_and!; try done; [by rewrite app_nil_r|]. unfold partial. change (neededBytes (cl s) ≤ size b) in Hn.
      change (size (flattenInbound (cl s)) < size b). lia. }
    cbv zeta. destruct (decide (size (flattenInbound (cl s)) < size b)) as [Hlt|Hge].
    + assert (b = flattenInbound (cl s) ++ drop (length (flattenInbound (cl s))) b) as Hsplit.
      { cbn in Hf. apply (f_equal (take (length (flattenInbound (cl s))))) in Hf.
        rewrite take_app_length, take_app_le in Hf by (unfold size in Hlt; lia).
        rewrite Hf at 1. by rewrite take_drop. }
      destruct (part_scan r b _ _ Hw Hs Hsplit) as (n & -> & Hle).
      { intros Hd%(f_equal length). rewrite length_drop in Hd. unfold size in Hlt. cbn in Hd. lia. }
      by apply Hwait.
    + set (rest := drop (length b) (flattenInbound (cl s))).
      assert (flattenInbound (cl s) = b ++ rest) as Hsplit.
      { cbn in Hf. pose proof (f_equal (take (length b)) Hf) as Ht.
        rewrite take_app_length, take_app_le in Ht by (unfold size in Hge; lia).
        unfold rest. rewrite <- Ht at 1. by rewrite take_drop. }
      rewrite Hsplit. destruct (whole_scan r b rest Hw Hs) as [-> ->]. rewrite Z.eqb_refl. cbn [negb].
      set (s1 := settle _ _).
      assert (flattenInbound (cl s1) = rest) as Hrest.
      { unfold s1, consumeInbound, flattenInbound. cbn. rewrite app_nil_r.
        unfold size. rewrite Nat2Z.id, drop_app_length. destruct rest; cbn; [done|by rewrite app_nil_r]. }
      destruct (IH fuel now g s1 future bs rs) as (k & s' & -> & (Hk1 & Hk2 & Hk3 & Hk4) & Hq' & Hset & Hh & Hp).
      { done. }
      { cbn in Hfuel. lia. }
      { cbn in Hlen. lia. }
      { done. }
      { done. }
      { unfold holds. rewrite Hrest. split_and!.
        - unfold s1. cbn. rewrite app_nil_r. unfold size. rewrite Nat2Z.id, drop_app_length. done.
        - cbn in Hf. rewrite Hsplit, <- app_assoc in Hf. by apply app_inv_head in Hf.
        - unfold s1. cbn -[size]. destruct bs; [done|apply size_nonneg]. }
      exists (S k), s'. split_and!; try done.
      cbn [take answers zip_with]. rewrite Hset. unfold s1. cbn. by rewrite <- app_assoc.
Qed.

Lemma chunks_exchange now g chunks : ∀ s bs rs,
  auth_result s = None → attempt s = None → socket (cl s) = Some g → destroyed (cl s) = false →
  generation (cl s) = g → length bs = length (queue (cl s)) → Forall2 whole rs bs →
  Forall (λ b, size b ≤ maxReplyBytes o) bs → size (concat bs) ≤ maxBufferedBytes o →
  holds s (concat chunks) bs → partial s bs → Forall (λ c, c ≠ []) chunks →
  ∃ s', run decode o (map (λ c, EData g c now) chunks) s = Some s' ∧ keeps s s'
    ∧ queue (cl s') = [] ∧ flattenInbound (cl s') = []
    ∧ settled s' = settled s ++ answers (queue (cl s)) rs.
Proof.
  induction chunks as [|c chunks IH]; intros s bs rs Hauth Hat Hsock Hd Hgen Hlen Hw Hsz Hmax (Hb & Hf & Hn) Hp Hne.
  - cbn in Hf. rewrite app_nil_r in Hf. destruct bs as [|b bs].
    + exists s. apply Forall2_nil_inv_r in Hw as ->. cbn in Hlen. destruct (queue (cl s)) eqn:Hq; [|done].
      split_and!; try done. by rewrite app_nil_r.
    + unfold partial in Hp. rewrite Hf in Hp. cbn [concat] in Hp. rewrite size_app in Hp.
      pose proof (size_nonneg (concat bs)). lia.
  - apply Forall_cons in Hne as [Hc Hne]. cbn [map run]. unfold handle. rewrite Hauth.
    rewrite bool_decide_eq_true_2 by done. rewrite Hd. cbn [andb negb].
    replace (length c =? 0)%nat with false by (destruct c; done). cbn [negb].
    set (s1 := onData _ _ _ _ _ _).
    assert (∃ k, keeps s s1 ∧ queue (cl s1) = drop k (queue (cl s))
      ∧ settled s1 = settled s ++ answers (take k (queue (cl s))) (take k rs)
      ∧ holds s1 (concat chunks) (drop k bs) ∧ partial s1 (drop k bs)) as (k & Hk & Hq1 & Hset & Hh & Hp1).
    { unfold s1, onData. cbn [cl with_received]. rewrite Hgen, Z.eqb_refl. cbn [negb].
      assert (length (queue (cl s)) ≠ 0)%nat as Hq0.
      { intros H0. rewrite H0 in Hlen. destruct bs; [|done]. cbn in Hf.
        apply app_nil in Hf as [_ Hf]. by apply app_nil in Hf as [? _]. }
      replace (length (queue (cl s)) =? 0)%nat with false by (symmetry; by apply Nat.eqb_neq). cbv zeta.
      match goal with |- context [drainInbound _ _ _ _ ?s2] => set (s3 := s2) end.
      assert (flattenInbound (cl s3) = flattenInbound (cl s) ++ c) as Hfl.
      { unfold s3, flattenInbound. cbn. rewrite concat_app. cbn. by rewrite app_nil_r. }
      assert (holds s3 (concat chunks) bs) as H3.
      { unfold holds. rewrite Hfl. split_and!.
        - unfold s3. cbn. by rewrite size_app, Hb.
        - rewrite <- app_assoc. exact Hf.
        - exact Hn. }
      assert (inboundBytes (cl s3) ≤ maxBufferedBytes o) as Hb3.
      { destruct H3 as (-> & H4 & _). apply (f_equal size) in H4. rewrite size_app in H4.
        pose proof (size_nonneg (concat chunks)). lia. }
      match goal with |- context [maxBufferedBytes o <? ?n] => change n with (inboundBytes (cl s3)) end.
      replace (maxBufferedBytes o <? _) with false by (symmetry; apply Z.ltb_ge; exact Hb3).
      destruct (drain_exchange (queue (cl s)) (length (queue (cl s3))) now g s3 (concat chunks) bs rs)
        as (k & s' & Hdr & Hk & H5 & H6 & H7 & H8); try done.
      exists k. unfold drainInbound. rewrite Hdr. by split_and!. }
    destruct Hk as (Hk1 & Hk2 & Hk3 & Hk4).
    assert (length (take k rs) = length (take k (queue (cl s)))) as Htk.
    { rewrite !length_take. apply Forall2_length in Hw. lia. }
    destruct (IH s1 (drop k bs) (drop k rs)) as (s' & Hrun & (H1 & H2 & H3 & H4) & H5 & H6 & H7); try done.
    + unfold auth_result. by rewrite Hk4, Hat.
    + by rewrite Hk4.
    + by rewrite Hk1.
    + by rewrite Hk2.
    + by rewrite Hk3.
    + rewrite Hq1, !length_drop. lia.
    + by apply Forall2_drop.
    + by apply Forall_drop.
    + destruct Hh as (_ & Hh & _). apply (f_equal size) in Hf, Hh. rewrite size_app in Hf, Hh.
      assert (size (concat bs) = size (concat (take k bs)) + size (concat (drop k bs))) as Hcut.
      { rewrite <- size_app, <- concat_app. by rewrite take_drop. }
      pose proof (size_nonneg (concat (take k bs))). lia.
    + exists s'. split_and!; try done.
      * split_and!; congruence.
      * rewrite H7, Hset, Hq1, <- app_assoc. f_equal. unfold answers.
        rewrite <- zip_with_app by done. by rewrite !take_drop.
Qed.
End Exchange.

(** ** Theorems *)

(** No command is lost or answered twice: whatever the platform reports, every promise handed out
    is in flight, settled, or waiting for the connection, exactly once. *)
Theorem commands_conserved evs s :
  run decode o evs initial = Some s →
  queue_ids s ++ (settled s).*1 ++ waiting_ids (waiting s) ≡ₚ seq 0 (next s).
Proof. intros Hr. apply (run_accounted evs initial s); [constructor|done]. Qed.

(** C27. As long as the close of a destroyed socket is reported before the next command, the n-th frame
    a connection delivers settles the n-th command written on it, the later commands are in flight
    in their order, and nothing but the rest of the stream is buffered. *)
Theorem replies_in_order evs s g :
  run_prompt evs initial = Some s → socket (cl s) = Some g → generation (cl s) = g →
  ∃ frames,
    Forall2 (λ id frame, ∃ r, parseReply decode frame 0 = Returns (Some (r, size frame))
                              ∧ (id, reply_outcome r) ∈ settled s)
            (take (length frames) (writes_on g s)) frames
    ∧ queue_ids s = drop (length frames) (writes_on g s)
    ∧ received_on g s = concat frames ++ flattenInbound (cl s).
Proof.
  intros Hr Hs Hg. apply run_prompt_reachable in Hr; [|constructor]. destruct (reachable_inv s Hr) as [HI _].
  pose proof (inv_socket _ HI) as H. unfold socket_ok in H. rewrite Hs in H. by apply H.
Qed.

(** No command hangs: in such a run, a command in flight on the current connection whose timer
    fires is rejected, with every other command in flight. *)
Theorem pending_times_out evs s g id now :
  run_prompt evs initial = Some s → socket (cl s) = Some g → generation (cl s) = g →
  0 < commandTimeoutMs o → id ∈ queue_ids s → auth_result s = None →
  ∃ s', handle decode o (ETimeout id now) s = Some s'
    ∧ (id, Throws CommandTimeout) ∈ settled s' ∧ queue (cl s') = [] ∧ socket (cl s') = None.
Proof.
  intros Hr Hs Hg Ht Hid Hauth. apply run_prompt_reachable in Hr; [|constructor].
  destruct (reachable_inv s Hr) as [HI _]. pose proof (inv_socket _ HI) as H. unfold socket_ok in H.
  rewrite Hs in H. destruct H as (_ & Hlive & _). destruct (Hlive (eq_sym Hg)) as [_ Htimers].
  assert (timer_of id s = Some (generation (cl s))) as Htimer.
  { unfold timer_of, timers_live, queue_ids in *. destruct (List.find _ _) as [p|] eqn:Hf.
    - apply find_some in Hf as [Hin _]. rewrite Forall_forall in Htimers.
      rewrite (Htimers p) by by apply list_elem_of_In.
      by replace (0 <? commandTimeoutMs o) with true by (symmetry; by apply Z.ltb_lt).
    - apply list_elem_of_fmap in Hid as (p & -> & Hp). apply list_elem_of_In in Hp.
      pose proof (find_none _ _ Hf p Hp) as H. cbn in H. by rewrite Nat.eqb_refl in H. }
  unfold handle. rewrite Hauth, Htimer. eexists. split; [done|].
  unfold failAll. rewrite Z.eqb_refl. cbn [negb]. split_and!; [|done|done].
  apply elem_of_app. right. apply list_elem_of_fmap in Hid as (p & -> & Hp).
  apply list_elem_of_fmap. by exists p.
Qed.

(** C18. An exchange: when the server answers the commands in flight with one frame each, then however
    the bytes are cut into chunks, each command is settled with its own reply, and the client is left
    with nothing in flight and nothing buffered. *)
Theorem exchange g s rs bs chunks now :
  (∀ t, decode (utf8 t) = t) → maxReplyBytes o ≤ 2 ^ 53 →
  attempt s = None → socket (cl s) = Some g → destroyed (cl s) = false → generation (cl s) = g →
  inboundChunks (cl s) = [] → inboundBytes (cl s) = 0 → neededBytes (cl s) = 0 →
  length bs = length (queue (cl s)) → Forall2 (wire (S MAX_FRAME_DEPTH)) rs bs →
  Forall (λ b, size b ≤ maxReplyBytes o) bs → size (concat bs) ≤ maxBufferedBytes o →
  concat chunks = concat bs → Forall (λ c, c ≠ []) chunks →
  ∃ s', run decode o (map (λ c, EData g c now) chunks) s = Some s'
    ∧ settled s' = settled s ++ zip_with (λ p r, (promise p, reply_outcome r)) (queue (cl s)) rs
    ∧ queue (cl s') = [] ∧ flattenInbound (cl s') = [] ∧ socket (cl s') = Some g.
Proof.
  intros Hd Hl Hat Hs Hde Hg Hch Hby Hn Hlen Hw Hsz Hmax Hcut Hne.
  destruct (chunks_exchange Hd Hl now g chunks s bs rs) as (s' & Hrun & Hk & Hq & Hfl & Hset); try done.
  - unfold auth_result. by rewrite Hat.
  - unfold holds, flattenInbound. rewrite Hch, Hby, Hn, Hcut. cbn -[size]. split_and!; [done|done|].
    destruct bs; [done|apply size_nonneg].
  - unfold partial, flattenInbound. rewrite Hch. destruct bs as [|b bs]; [done|].
    apply Forall2_cons_inv_r in Hw as (r & rs' & Hw & _ & _). inversion Hw; subst; rewrite size_framed;
      cbn -[size]; change (size []) with 0;
      repeat match goal with |- context [size ?x] => pose proof (size_nonneg x); generalize dependent (size x); intros end; lia.
  - exists s'. split_and!; try done. by rewrite (proj1 Hk).
Qed.

End Facts.

(** ** Concrete runs *)

Definition sample_options : RespClientOptions :=
  mkOptions (Some (mkTarget "valkey" 6379 false None None false)) None 5000 DEFAULT_CIRCUIT_BREAKER_MS
    DEFAULT_MAX_REPLY_BYTES.

Definition GET (key : string) : list Arg := [AText "GET"; AText key].

(** Two commands on one connection; the first reply arrives in two pieces. *)
Definition sample_run : list event :=
  [ESend [GET "a"] 0; EReady 1; ESend [GET "b"] 1; EData 1 (utf8 "$1") 2;
   EData 1 ([13; 10] ++ utf8 "A" ++ [13; 10]) 3].

Definition sample_state : state := default initial (run_prompt latin1 sample_options sample_run initial).

Lemma commands_conserved_witness :
  run latin1 sample_options sample_run initial = Some sample_state
  ∧ queue_ids sample_state ++ (settled sample_state).*1 ++ waiting_ids (waiting sample_state)
    ≡ₚ seq 0 (next sample_state).
Proof.
  split; [vm_compute; reflexivity|].
  apply (commands_conserved latin1 sample_options sample_run). vm_compute. reflexivity.
Defined.

Lemma replies_in_order_witness :
  queue_ids sample_state = [1%nat]
  ∧ ∃ frames,
    Forall2 (λ id frame, ∃ r, parseReply latin1 frame 0 = Returns (Some (r, size frame))
                              ∧ (id, reply_outcome r) ∈ settled sample_state)
            (take (length frames) (writes_on 1 sample_state)) frames
    ∧ queue_ids sample_state = drop (length frames) (writes_on 1 sample_state)
    ∧ received_on 1 sample_state = concat frames ++ flattenInbound (cl sample_state).
Proof.
  split; [vm_compute; reflexivity|].
  apply (replies_in_order latin1 sample_options sample_run); vm_compute; reflexivity.
Defined.

Lemma pending_times_out_witness :
  ∃ s', handle latin1 sample_options (ETimeout 1 9) sample_state = Some s'
    ∧ (1%nat, Throws CommandTimeout) ∈ settled s' ∧ queue (cl s') = [] ∧ socket (cl s') = None.
Proof.
  apply (pending_times_out latin1 sample_options sample_run sample_state 1 1 9); try (vm_compute; reflexivity).
  change (queue_ids sample_state) with [1%nat]. apply list_elem_of_here.
Defined.

(** One command in flight on a fresh connection. *)
Definition waiting_state : state :=
  default initial (run_prompt latin1 sample_options [ESend [GET "a"] 0; EReady 1] initial).

Lemma exchange_witness :
  ∃ s', run latin1 sample_options
          (map (λ c, EData 1 c 2) [utf8 "$1"; [13]; [10; 65]; [13; 10]]) waiting_state = Some s'
    ∧ settled s' = settled waiting_state
                   ++ zip_with (λ p r, (promise p, reply_outcome r)) (queue (cl waiting_state)) [RBulk [65]]
    ∧ queue (cl s') = [] ∧ flattenInbound (cl s') = [] ∧ socket (cl s') = Some 1.
Proof.
  apply (exchange latin1 sample_options 1 waiting_state [RBulk [65]] [framed 36 (z_text 1) ([65] ++ CRLF)]).
  - apply latin1_utf8.
  - vm_compute. discriminate.
  - vm_compute. reflexivity.
  - vm_compute. reflexivity.
  - vm_compute. reflexivity.
  - vm_compute. reflexivity.
  - vm_compute. reflexivity.
  - vm_compute. reflexivity.
  - vm_compute. reflexivity.
  - vm_compute. reflexivity.
  - constructor; [apply (wire_bulk MAX_FRAME_DEPTH [65])|constructor].
  - constructor; [vm_compute; discriminate|constructor].
  - vm_compute. discriminate.
  - vm_compute. reflexivity.
  - repeat constructor; discriminate.
Defined.

Definition late_close : list event :=
  [ESend [GET "keyA"] 0; EReady 1; EDestroyed; ESend [GET "keyB"] 1; EFailed 1 ConnectionClosed 2;
   EReady 2; EData 2 (framed 36 (z_text 1) (utf8 "B" ++ CRLF)) 3].

Definition late_close_state : state := default initial (run latin1 sample_options late_close initial).

(** The promise of [replies_in_order] needs its condition: when the server closes the connection
    under a command and another command comes before the close is reported, the old failure is taken
    for a stale one, the first command stays in the queue of the new connection, and it is answered
    with the reply of the second. *)
Theorem late_close_crosses_replies :
  ∃ evs s,
    run latin1 sample_options evs initial = Some s
    ∧ writes s = [(1, 0%nat, GET "keyA"); (2, 1%nat, GET "keyB")]
    ∧ received s = [(2, framed 36 (z_text 1) (utf8 "B" ++ CRLF))]
    ∧ settled s = [(0%nat, Returns (RBulk (utf8 "B")))]
    ∧ queue_ids s = [1%nat].
Proof.
  exists late_close, late_close_state. split_and!; vm_compute; reflexivity.
Qed.

End RespClientFacts.
