(* ===== verification/Gates.v ===== *)
(** * The gates of a cutover (src/src/cutover/gates.ts)

    What a new build must show before traffic moves to it, and the temporary autoscaler bounds it
    warms up under; and the gate of a rollback.  A gate that refuses restores the edge and throws.
    Messages and console output are left out; in the documents kubectl prints, a field whose type is
    not the one the code declares is read as absent. *)
From Stdlib Require Import Ascii String.
From S2P Require Import Prelude JsString Json JsonParse K8sNames PlanParse Effects ServiceSelector Traffic.
From S2P Require Import StablePools ReleaseNames Gc Resp.
Import K8sNames ServiceSelector Traffic ReleaseNames.
Local Open Scope stdpp_scope.
Local Open Scope js_scope.
Local Open Scope Z_scope.

Module Gates.

(** ** Budgets *)

Definition TERMINATION_GRACE_SECONDS : Z := 210.
Definition MIN_READY_SECONDS : Z := 30.
Definition READINESS_PROBE_PERIOD_SECONDS : Z := 5.
Definition READINESS_PROBE_FAILURE_THRESHOLD : Z := 3.
Definition STARTUP_PROBE_BUDGET_SECONDS : Z := 150.
Definition EXEC_TIMEOUT_ROLLOUT : Z := 15 * 60 * 1000.

Definition ROLLOUT_TIMEOUT_FLOOR_SECONDS : Z := 600.
Definition ROLLOUT_TIMEOUT_CEILING_SECONDS : Z := 1800.

Definition ROLLOUT_SURGE_STEP_SECONDS : Z :=
  READINESS_PROBE_PERIOD_SECONDS * READINESS_PROBE_FAILURE_THRESHOLD + 30 + MIN_READY_SECONDS
  + TERMINATION_GRACE_SECONDS.

Definition POOL_POD_AVAILABLE_BUDGET_SECONDS : Z :=
  STARTUP_PROBE_BUDGET_SECONDS + READINESS_PROBE_PERIOD_SECONDS * READINESS_PROBE_FAILURE_THRESHOLD
  + MIN_READY_SECONDS.

Record RolloutWaitBudget := mkBudget { arg : string; seconds : Z; execTimeoutMs : Z }.

Definition rolloutWaitBudget (seconds : Z) : RolloutWaitBudget :=
  mkBudget ("--timeout=" +:+ z_text seconds +:+ "s") seconds (Z.max EXEC_TIMEOUT_ROLLOUT (seconds * 1000 + 60000)).

(** [None] is a count that is not a number. *)
Definition deriveRolloutWaitBudget (replicas : option Z) : RolloutWaitBudget :=
  let safeReplicas := match replicas with Some n => Z.max 1 n | None => 1 end in
  rolloutWaitBudget (Z.min ROLLOUT_TIMEOUT_CEILING_SECONDS
    (Z.max ROLLOUT_TIMEOUT_FLOOR_SECONDS (safeReplicas * ROLLOUT_SURGE_STEP_SECONDS))).

Definition poolRolloutWaitBudget : RolloutWaitBudget := rolloutWaitBudget ROLLOUT_TIMEOUT_FLOOR_SECONDS.

(** ** Documents and listings *)

(** s.includes(t) *)
Fixpoint includes_text (t s : string) : bool :=
  starts_with t s || match s with String _ s' => includes_text t s' | EmptyString => false end.

Definition array_items (v : option json) : list json := match v with Some (JArr l) => l | _ => [] end.
Definition integer_of (v : option json) : option Z := match v with Some (JNum (NInt n)) => Some n | _ => None end.

(** The Accepted condition of the policy's own ancestor. *)
Definition accepted_condition (doc : json) : option json :=
  let ancestors := array_items (jget (jget (Some doc) "status") "ancestors") in
  let envoy a := match jget (Some a) "controllerName" with
                 | Some (JStr n) => includes_text "gateway.envoyproxy.io" n
                 | _ => false
                 end in
  mine ← match List.find envoy ancestors with Some a => Some a | None => head ancestors end;
  List.find (λ c, PlanParse.is_text (jget (Some c) "type") "Accepted") (array_items (jget (Some mine) "conditions")).

(** Its status, when it is about the current generation of the policy. *)
Definition policy_status (doc : json) : option string :=
  cond ← accepted_condition doc;
  let current := match integer_of (jget (jget (Some doc) "metadata") "generation"),
                       integer_of (jget (Some cond) "observedGeneration") with
                 | Some generation, Some observed => generation <=? observed
                 | _, _ => true
                 end in
  if current then Some match jget (Some cond) "status" with Some (JStr s) => s | _ => "" end else None.

(** Maps from pool names to counts, in insertion order. *)
Abbreviation counts := (list (string * Z)).

Definition computeCapacityTargets (pools : list string) (previousReplicasByPool : counts) : counts :=
  foldl (λ targets f, match look targets f.1 with Some _ => assign targets f.1 f.2 | None => targets end)
    (foldl (λ targets pool, assign targets pool 1) [] pools) previousReplicasByPool.

(** What one listing of the new build's pods says. *)
Record census := mkCensus { allHealthy : bool; checkedCount : Z; readyByPool : counts }.

Definition fields (line : string) (i : nat) : string := default "" (split_on "|" line !! i).

Definition count_pod (c : census) (line : string) : census :=
  if is_empty (fields line 0) then c
  else if negb (String.eqb (fields line 1) "True")
  then mkCensus false (checkedCount c + 1) (readyByPool c)
  else mkCensus (allHealthy c) (checkedCount c + 1)
         (let component := fields line 2 in
          if is_empty component then readyByPool c
          else assign (readyByPool c) component (default 0 (look (readyByPool c) component) + 1)).

Definition count_pods (listing : ExecCaptureResult) : census :=
  if exitCode listing =? 0
  then foldl count_pod (mkCensus true 0 []) (Gc.lines (stdout listing))
  else mkCensus true 0 [].

Definition capacity_met (targets : counts) (c : census) : bool :=
  allHealthy c && (0 <? checkedCount c)
  && forallb (λ t, t.2 <=? default 0 (look (readyByPool c) t.1)) targets.

(** ** The gates *)

Record GateContext := mkContext {
  releaseName : string; namespace : string; buildId : string; safeBuildId : string;
  previousBuildId : option string; poolRolloutWait : RolloutWaitBudget
}.

Section Gates.
Context {W : Type} `{!Exec W} `{!Surroundings W} `{!Collaborators W}.

Abbreviation cutover := (io W cutover_error).

Definition kubectl (args : list string) : cutover ExecCaptureResult := plainly (execCapture "kubectl" args).

Definition pause (ms : Z) : cutover unit := λ w, (Returns tt, sleep ms w).

(** The abort of a gate. *)
Definition refuse {A} (message : string) : cutover A :=
  do! _ := plainly restoreEdgeToPreviousBuild in throw (PlainError message).

Fixpoint each {A} (f : A → cutover unit) (l : list A) : cutover unit :=
  match l with
  | [] => ret tt
  | x :: l => do! _ := f x in each f l
  end.

Definition names_path : string :=
  "jsonpath={range .items[*]}{.metadata.name}{" +:+ in_quotes "\n" +:+ "}{end}".

Definition list_build_args (resource namespace selector path : string) : list string :=
  ["get"; resource; "-n"; namespace; "-l"; selector; "-o"; path].

Definition rollout_args (deployment namespace timeout : string) : list string :=
  ["rollout"; "status"; "deployment/" +:+ deployment; "-n"; namespace; timeout].

(** The Deployments a listing names, without the routing service. *)
Definition new_deployments (releaseName : string) (listing : ExecCaptureResult) : list string :=
  List.filter (λ n, negb (is_empty n) && negb (String.eqb n (routingServiceDeploymentName releaseName)))
    (Gc.lines (stdout listing)).

Definition waitPoolRollouts (ctx : GateContext) : cutover unit :=
  do! listing := kubectl (list_build_args "deployments" (namespace ctx)
    ("app.kubernetes.io/name=" +:+ releaseName ctx +:+ ",app.kubernetes.io/version=" +:+ safeBuildId ctx)
    names_path) in
  each (λ deployName,
    do! rollout := kubectl (rollout_args deployName (namespace ctx) (arg (poolRolloutWait ctx))) in
    if negb (exitCode rollout =? 0) then refuse "Deployment did not finish rolling out" else ret tt)
    (new_deployments (releaseName ctx) listing).

Definition waitRoutingRollout (ctx : GateContext) : cutover unit :=
  let routingDeploy := routingServiceDeploymentName (releaseName ctx) in
  do! rsExists := kubectl (Gc.get_path_args "deployment" routingDeploy (namespace ctx)
                             "{.metadata.name}|{.spec.replicas}") in
  if negb (exitCode rsExists =? 0) then refuse "Could not read expected routing service"
  else if is_empty (Gc.field (stdout rsExists) 0) then refuse "The routing service's Deployment is absent"
  else
    let rolloutWait := deriveRolloutWaitBudget (Gc.parse_int (Gc.field (stdout rsExists) 1)) in
    do! rsRollout := kubectl (rollout_args routingDeploy (namespace ctx) (arg rolloutWait)) in
    if negb (exitCode rsRollout =? 0) then refuse "Routing service did not become healthy" else ret tt.

Definition waitRouteExtJob (ctx : GateContext) (currentRouteExtJob : string) : cutover unit :=
  do! wait := kubectl ["wait"; "--for=condition=complete"; "job/" +:+ currentRouteExtJob; "-n"; namespace ctx;
                       "--timeout=600s"] in
  if negb (exitCode wait =? 0) then refuse "ext_proc registration job did not complete" else ret tt.

(** The polling loop; [status] is the last one read. *)
Fixpoint poll_policy (ctx : GateContext) (attempts : nat) (status : string) : cutover string :=
  match attempts with
  | O => ret status
  | S attempts =>
      do! read := kubectl ["get"; "envoyextensionpolicy"; releaseName ctx +:+ "-routing-extproc"; "-n";
                           namespace ctx; "-o"; "json"] in
      let found := if exitCode read =? 0
                   then match json_parse (stdout read) with Some doc => policy_status doc | None => None end
                   else None in
      let status := default status found in
      if match found with Some s => String.eqb s "True" || String.eqb s "False" | None => false end
      then ret status
      else do! _ := pause 2000 in poll_policy ctx attempts status
  end.

Definition waitPolicyAccepted (ctx : GateContext) : cutover unit :=
  do! status := poll_policy ctx 30 "" in
  if negb (String.eqb status "True") then refuse "ext_proc EnvoyExtensionPolicy is not Accepted" else ret tt.

(** ** Warming up *)

(** An autoscaler under temporary bounds, with those of the chart. *)
Record warmed := mkWarmed { w_name : string; w_min : Z; w_max : Z }.

Definition bounds_patch (min max : Z) : string :=
  stringify (JObj [("spec", JObj [("minReplicas", JNum (NInt min)); ("maxReplicas", JNum (NInt max))])]).

Definition patch_hpa_args (name namespace : string) (min max : Z) : list string :=
  ["patch"; "hpa"; name; "-n"; namespace; "--type=merge"; "--field-manager=helm"; "-p"; bounds_patch min max].

(** Up to three attempts; whether one succeeded. *)
Fixpoint restore_attempts (namespace : string) (h : warmed) (attempts : nat) : io W string bool :=
  match attempts with
  | O => ret false
  | S attempts =>
      do! restore := execCapture "kubectl" (patch_hpa_args (w_name h) namespace (w_min h) (w_max h)) in
      if exitCode restore =? 0 then ret true else restore_attempts namespace h attempts
  end.

(** [restored] are the names restored so far.  No path of the cutover runs the closure twice. *)
Fixpoint restore_warmed (namespace : string) (hpas : list warmed) (restored : list string) : io W string unit :=
  match hpas with
  | [] => ret tt
  | h :: hpas =>
      if bool_decide (w_name h ∈ restored) then restore_warmed namespace hpas restored
      else
        do! ok := restore_attempts namespace h 3 in
        restore_warmed namespace hpas (if ok then w_name h :: restored else restored)
  end.

Definition restoreWarmedHpas (namespace : string) (hpas : list warmed) : io W string unit :=
  restore_warmed namespace hpas [].

Definition abortWarmupSetup {A} (namespace : string) (hpas : list warmed) (message : string) : cutover A :=
  do! _ := plainly restoreEdgeToPreviousBuild in
  do! _ := plainly (restoreWarmedHpas namespace hpas) in
  throw (PlainError message).

(** The bounds an autoscaler has in the output of its read. *)
Definition read_bounds (out : string) : option (Z * Z) :=
  let number i := match split_on "|" (trim out) !! i with
                  | Some s => match Resp.js_number s with NInt n => Some n | _ => None end
                  | None => None
                  end in
  match number 1%nat, number 2%nat with
  | Some min, Some max => if (min <? 1) || (max <? min) then None else Some (min, max)
  | _, _ => None
  end.

(** Preparing the autoscalers; the result is those now under temporary bounds. *)
Fixpoint warm_pools (ctx : GateContext) (previousReplicasByPool : counts) (pools : list string)
    (hpas : list warmed) : cutover (list warmed) :=
  match pools with
  | [] => ret hpas
  | poolName :: pools =>
      let newHpaName := hpa (poolResourceNames (releaseName ctx) poolName (buildId ctx)) in
      do! hpaRead := kubectl (Gc.get_path_args "hpa" newHpaName (namespace ctx)
                                "{.metadata.name}|{.spec.minReplicas}|{.spec.maxReplicas}") in
      if negb (exitCode hpaRead =? 0) then abortWarmupSetup (namespace ctx) hpas "Could not read the HPA"
      else if is_empty (Gc.field (stdout hpaRead) 0)
      then abortWarmupSetup (namespace ctx) hpas "The expected HPA was not found"
      else
        match read_bounds (stdout hpaRead) with
        | None => abortWarmupSetup (namespace ctx) hpas "Could not parse the HPA's bounds"
        | Some (hpaMin, hpaMax) =>
            match look previousReplicasByPool poolName with
            | Some outgoing =>
                if hpaMin <? outgoing then
                  do! warm := kubectl (patch_hpa_args newHpaName (namespace ctx) outgoing (Z.max hpaMax outgoing)) in
                  if negb (exitCode warm =? 0)
                  then abortWarmupSetup (namespace ctx) hpas "Could not set temporary warm-up bounds"
                  else warm_pools ctx previousReplicasByPool pools (hpas ++ [mkWarmed newHpaName hpaMin hpaMax])
                else warm_pools ctx previousReplicasByPool pools hpas
            | None => warm_pools ctx previousReplicasByPool pools hpas
            end
        end
  end.

Definition scale_up (ctx : GateContext) (capacityTargets : counts) (pool : string * Z) : cutover unit :=
  let newDeployName := deployment (poolResourceNames (releaseName ctx) pool.1 (buildId ctx)) in
  let expected := default pool.2 (look capacityTargets pool.1) in
  do! cur := kubectl (Gc.get_path_args "deployment" newDeployName (namespace ctx)
                        "{.metadata.name}|{.spec.replicas}") in
  match exitCode cur =? 0, is_empty (Gc.field (stdout cur) 0), Gc.parse_int (Gc.field (stdout cur) 1) with
  | true, false, Some current =>
      if expected <=? current then ret tt
      else do! _ := kubectl (Gc.scale_args newDeployName (namespace ctx) expected) in ret tt
  | _, _, _ => ret tt
  end.

Definition warmUpHpas (ctx : GateContext) (pools : list string) (previousReplicasByPool : counts)
    : cutover (counts * list warmed) :=
  let capacityTargets := computeCapacityTargets pools previousReplicasByPool in
  do! hpas := warm_pools ctx previousReplicasByPool pools [] in
  do! _ := each (scale_up ctx capacityTargets) previousReplicasByPool in
  ret (capacityTargets, hpas).

(** ** The capacity gate *)

Definition pods_selector (releaseName version : string) : string :=
  "app.kubernetes.io/name=" +:+ releaseName +:+ ",app.kubernetes.io/version=" +:+ version
  +:+ ",app.kubernetes.io/component!=routing-service".

Definition ready_path : string :=
  "jsonpath={range .items[*]}{.metadata.name}|{.status.conditions[?(@.type==" +:+ in_quotes "Ready"
  +:+ ")].status}|{.metadata.labels.app\.kubernetes\.io/component}{" +:+ in_quotes "\n" +:+ "}{end}".

Definition phase_path : string :=
  "jsonpath={range .items[*]}{.metadata.name}|{.status.phase}{" +:+ in_quotes "\n" +:+ "}{end}".

(** Whether an attempt saw the capacity. *)
Fixpoint await_capacity (ctx : GateContext) (targets : counts) (attempts : nat) : cutover bool :=
  match attempts with
  | O => ret false
  | S attempts =>
      do! podsResult := kubectl (list_build_args "pods" (namespace ctx)
                                   (pods_selector (releaseName ctx) (safeBuildId ctx)) ready_path) in
      if capacity_met targets (count_pods podsResult) then ret true
      else
        do! _ := (match attempts with O => ret tt | S _ => pause 5000 end) in
        await_capacity ctx targets attempts
  end.

Definition READYZ_SNIPPET : string :=
  "const http=require(" +:+ in_quotes "http" +:+ ");http.get(" +:+ in_quotes "http://localhost:3000/readyz"
  +:+ ",r=>{let d=" +:+ in_quotes "" +:+ ";r.on(" +:+ in_quotes "data" +:+ ",c=>d+=c);r.on("
  +:+ in_quotes "end" +:+ ",()=>console.log(r.statusCode,d))}).on(" +:+ in_quotes "error"
  +:+ ",e=>console.log(" +:+ in_quotes "ERR" +:+ ",e.message))".

Definition exec_node_args (pod namespace snippet : string) : list string :=
  ["exec"; pod; "-n"; namespace; "--"; "node"; "-e"; snippet].

Definition diagnose_pod (ctx : GateContext) (line : string) : cutover unit :=
  let podName := fields line 0 in
  if is_empty podName then ret tt
  else
    do! _ := kubectl (exec_node_args podName (namespace ctx) READYZ_SNIPPET) in
    do! _ := kubectl ["logs"; podName; "-n"; namespace ctx; "--tail=20"] in
    ret tt.

Definition diagnose (ctx : GateContext) : cutover unit :=
  do! newPods := kubectl (list_build_args "pods" (namespace ctx)
                            (pods_selector (releaseName ctx) (safeBuildId ctx)) phase_path) in
  if (exitCode newPods =? 0) && negb (is_empty (trim (stdout newPods)))
  then each (diagnose_pod ctx) (Gc.lines (stdout newPods))
  else ret tt.

Definition maxHealthAttempts : nat := 24.

Definition waitReadyCapacity (ctx : GateContext) (capacityTargets : counts) (restore : io W string unit)
    : cutover unit :=
  do! newBuildHealthy := await_capacity ctx capacityTargets maxHealthAttempts in
  if newBuildHealthy : bool then ret tt
  else
    do! _ := plainly restoreEdgeToPreviousBuild in
    do! _ := plainly restore in
    do! _ := diagnose ctx in
    throw (CutoverExitError 1).

(** ** The gate of a rollback *)

Definition HEALTHZ_SNIPPET : string :=
  "const http=require(" +:+ in_quotes "http" +:+ ");http.get(" +:+ in_quotes "http://localhost:3000/healthz"
  +:+ ",r=>process.exit(r.statusCode===200?0:1)).on(" +:+ in_quotes "error" +:+ ",()=>process.exit(1))".

(** Whether one of the pods answers. *)
Fixpoint any_answers (namespace : string) (pods : list string) : cutover bool :=
  match pods with
  | [] => ret false
  | pod :: pods =>
      do! healthz := kubectl (exec_node_args pod namespace HEALTHZ_SNIPPET) in
      if exitCode healthz =? 0 then ret true else any_answers namespace pods
  end.

(** Whether every Deployment has a pod that answers. *)
Fixpoint all_serving (namespace : string) (pods : list string) (deploys : list Gc.PoolDeploy) : cutover bool :=
  match deploys with
  | [] => ret true
  | d :: deploys =>
      do! depServing := any_answers namespace (List.filter (starts_with (Gc.d_name d +:+ "-")) pods) in
      if depServing : bool then all_serving namespace pods deploys else ret false
  end.

Fixpoint await_serving (releaseName namespace safePreviousBuild : string) (deploys : list Gc.PoolDeploy)
    (attempts : nat) : cutover bool :=
  match attempts with
  | O => ret false
  | S attempts =>
      do! podsResult := kubectl (list_build_args "pods" namespace (pods_selector releaseName safePreviousBuild)
                                   names_path) in
      let pods := if exitCode podsResult =? 0
                  then List.filter (λ n, negb (is_empty n)) (Gc.lines (stdout podsResult)) else [] in
      do! serving := (if (length pods =? 0)%nat then ret false else all_serving namespace pods deploys) in
      if serving : bool then ret true
      else
        do! _ := (match attempts with O => ret tt | S _ => pause 5000 end) in
        await_serving releaseName namespace safePreviousBuild deploys attempts
  end.

Definition maxServeAttempts : nat := 24.

Definition waitPreviousBuildServing (releaseName namespace safePreviousBuild : string)
    (previousDeploys : list Gc.PoolDeploy) : cutover unit :=
  do! serving := await_serving releaseName namespace safePreviousBuild previousDeploys maxServeAttempts in
  if serving : bool then ret tt else throw (PlainError "Previous build did not pass /healthz").
End Gates.

End Gates.
