(* ===== verification/Retention.v ===== *)
(** * Retained builds

    Models src/src/retention.ts: the inventory of a build, the signed record that names the two
    builds in play, and the reader that decides which requests the other build answers; the standby
    cleanup of src/src/retention-expiry.ts; and the renewal of its marker in
    src/src/cutover/retention-expiry.ts.  HMAC-SHA256 and the URL parser are parameters. *)
From Stdlib Require Import Ascii String.
From S2P Require Import Prelude JsString Regex Json JsonParse K8sNames PlanParse Effects ServiceSelector.
From S2P Require Import ReleaseNames Gc Resp.
Import K8sNames ReleaseNames.
Local Open Scope stdpp_scope.
Local Open Scope js_scope.
Local Open Scope Z_scope.

Module Retention.

Definition RETENTION_MAX_BYTES : Z := 800000.
Definition INVENTORY_BUILD_RE : string := "^[a-zA-Z0-9_][a-zA-Z0-9._-]{0,62}$".
Definition INVENTORY_POOL_RE : string := "^[a-z0-9](?:[a-z0-9-]{0,61}[a-z0-9])?$".
Definition INVENTORY_ASSET_RE : string := "^(?:\/[^?#]*)?\/_next\/static\/immutable\/[^?#]+$".
Definition INVENTORY_ACTION_RE : string := "^[a-f0-9]{40,64}$".
Definition SIGNATURE_RE : string := "^[a-f0-9]{64}$".

(** a === b, where objects and arrays are never the same. *)
Definition strict_equal (v w : option json) : bool :=
  match v, w with
  | None, None | Some JNull, Some JNull => true
  | Some (JBool a), Some (JBool b) => Bool.eqb a b
  | Some (JNum a), Some (JNum b) => bool_decide (a = b)
  | Some (JStr a), Some (JStr b) => String.eqb a b
  | _, _ => false
  end.

(** String(v) *)
Definition text_of (v : option json) : string := match v with Some v => Gc.js_text v | None => "undefined" end.

(** ** The inventory *)

Definition text_such (p : string → bool) (v : option json) : bool :=
  match v with Some (JStr s) => p s | _ => false end.

Definition array_such (p : json → bool) (v : option json) : bool :=
  match v with Some (JArr l) => forallb p l | _ => false end.

Definition integer_within (lo hi : Z) (v : option json) : bool :=
  match v with Some (JNum (NInt n)) => (lo <=? n) && (n <=? hi) | _ => false end.

(** array.includes(s) *)
Definition includes (v : option json) (s : string) : bool :=
  match v with Some (JArr l) => existsb (λ x, PlanParse.is_text (Some x) s) l | _ => false end.

Definition validateInventory (value : json) : outcome string unit :=
  let get key := jget (Some value) key in
  if text_such (re_test INVENTORY_BUILD_RE) (get "buildId")
     && text_such (λ s, String.length s <=? 256)%nat (get "deploymentId")
     && text_such (λ d, re_test INVENTORY_POOL_RE d && includes (get "pools") d) (get "defaultPool")
     && array_such (λ p, text_such (re_test INVENTORY_POOL_RE) (Some p)) (get "pools")
     && integer_within 1 3600 (get "gracePeriodSeconds")
     && match get "responseHeadTimeoutMs" with None => true | v => integer_within 1 86400000 v end
     && array_such (λ p, text_such (λ s, (String.length s <? 2048)%nat && re_test INVENTORY_ASSET_RE s) (Some p))
          (get "assets")
     && array_such (λ p, text_such (re_test INVENTORY_ACTION_RE) (Some p)) (get "actions")
  then Returns tt else Throws "Invalid retained build inventory".

(** ** Signatures *)

Section Signatures.
(** The hexadecimal digest of createHmac("sha256", secret). *)
Variable hmac : string → string → string.

Definition inventorySignature (payload secret : string) : string :=
  hmac secret ("retention-inventory:v1" +:+ NUL +:+ payload).

Record Signed := mkSigned { payload : string; signature : string }.

Definition record_signature (payload secret : string) : string :=
  hmac secret ("retention:v1" +:+ NUL +:+ payload).

Definition signRetention (builds : list json) (secret : string) : Signed :=
  let payload := stringify (JArr builds) in mkSigned payload (record_signature payload secret).

Definition signed_json (s : Signed) : json :=
  JObj [("payload", JStr (payload s)); ("signature", JStr (signature s))].

(** ** The reader *)

(** The members of a parsed URL that are checked. *)
Record url := mkUrl {
  protocol : string; u_username : string; u_password : string;
  pathname : string; search : string; hash : string
}.

Variable parse_url : string → option url.

Definition plain_origin (build : json) : bool :=
  match parse_url (text_of (jget (Some build) "origin")) with
  | Some u => String.eqb (protocol u) "http:" && is_empty (u_username u) && is_empty (u_password u)
              && String.eqb (pathname u) "/" && is_empty (search u) && is_empty (hash u)
  | None => false
  end.

Definition expires_at (build : json) : option Z :=
  match jget (Some build) "expiresAt" with
  | Some (JNum (NInt n)) => if safe_integer n then Some n else None
  | _ => None
  end.

Definition is_build (buildId : string) (build : json) : bool :=
  PlanParse.is_text (jget (Some build) "buildId") buildId.

Definition retained_ok (build : json) : bool :=
  match validateInventory build with Returns _ => true | Throws _ => false end
  && plain_origin build && match expires_at build with Some _ => true | None => false end.

(** The builds of a projected file, if they can be verified; [None] is a file that cannot be read. *)
Definition verified (buildId secret : string) (file : option string) : list json :=
  match file with
  | None => []
  | Some raw =>
      if RETENTION_MAX_BYTES <? Resp.size (Resp.utf8 raw) then []
      else
        let record := jget (json_parse raw) buildId in
        match jget record "payload", jget record "signature" with
        | Some (JStr payload), Some (JStr signature) =>
            if negb (re_test SIGNATURE_RE signature)
               || negb (String.eqb (record_signature payload secret) signature) then []
            else
              match json_parse payload with
              | Some (JArr [a; b]) =>
                  if retained_ok a && retained_ok b
                     && (length (List.filter (is_build buildId) [a; b]) =? 1)%nat
                     && match jget (Some a) "buildId", jget (Some b) "buildId" with
                        | Some (JStr x), Some (JStr y) => negb (String.eqb x y)
                        | _, _ => false
                        end
                  then [a; b] else []
              | _ => []
              end
        | _, _ => []
        end
  end.

(** What a request says: its path, the dpl query parameter, the method, the deployment id header and
    the action id. *)
Record request := mkRequest {
  path : string; dpl : option string; method : string;
  deploymentId : option string; action : option string
}.

Definition truthy_text (v : option string) : option string :=
  match v with Some (String _ _ as s) => Some s | _ => None end.

(** The build that answers a request, from the verified builds. *)
Definition choose (buildId : string) (cached : list json) (now : Z) (q : request) : option json :=
  own ← List.find (is_build buildId) cached;
  peer ← List.find (λ b, negb (is_build buildId b)
                         && match expires_at b with Some t => now <? t | None => false end) cached;
  let hint := match truthy_text (deploymentId q) with Some d => Some d | None => dpl q end in
  let hint_is b := match hint with Some h => PlanParse.is_text (jget (Some b) "deploymentId") h | None => false end in
  let has b field v := includes (jget (Some b) field) v in
  let post := String.eqb (method q) "POST" in
  if hint_is own then None
  else if hint_is peer && post && match truthy_text (action q) with Some a => has peer "actions" a | None => false end
  then Some peer
  else if (String.eqb (method q) "GET" || String.eqb (method q) "HEAD")
          && negb (has own "assets" (path q)) && has peer "assets" (path q)
  then Some peer
  else if post && match truthy_text (action q) with
                  | Some a => negb (has own "actions" a) && has peer "actions" a
                  | None => false
                  end
  then Some peer
  else None.

(** The reader's memory. *)
Record reader := mkReader { cached : list json; refreshAt : Z }.

Definition new_reader : reader := mkReader [] 0.

(** One call: [file] is read when the memory is due at [now], the refresh ends at [refreshed], the
    choice is made at [chosen].  Calls that arrive during a refresh await the same one. *)
Definition read_retained (buildId secret : string) (file : option string) (now refreshed chosen : Z)
    (q : request) (r : reader) : option json * reader :=
  if is_empty secret then (None, r)
  else
    let r := if refreshAt r <=? now then mkReader (verified buildId secret file) (refreshed + 250) else r in
    (choose buildId (cached r) chosen q, r).
End Signatures.

(** ** The standby cleanup *)

Definition RETENTION_EXPIRY_ANNOTATION : string := "adapter-k8s.io/retention-expiry".

Record ExpiryMarker := mkMarker { m_build : string; m_expiresAt : Z }.

(** A build id that is not a string is tested as its text. *)
Definition parseExpiryMarker (raw : option string) : option ExpiryMarker :=
  match json_parse (default "null" raw) with
  | None | Some JNull => None
  | Some marker =>
      match assertSafeBuildId (text_of (jget (Some marker) "buildId")), jget (Some marker) "buildId", jget (Some marker) "expiresAt" with
      | Returns _, Some (JStr b), Some (JNum (NInt t)) =>
          if safe_integer t && (0 <? t) then Some (mkMarker b t) else None
      | _, _, _ => None
      end
  end.

(** Why a call fails: the status of the API's answer, if it has one. *)
Inductive api_error := ApiStatus (status : option Z) | CleanupError.

(** The client of the API server. *)
Class CleanupApi (W : Type) := {
  api_get : string → io W api_error json;
  api_patch : string → list json → io W api_error unit
}.

Section Cleanup.
Context {W : Type} `{!CleanupApi W} (encodeURIComponent : string → string).

Abbreviation cleanup := (io W api_error).

Definition checked {A} (m : outcome string A) : cleanup A :=
  match m with Returns a => ret a | Throws _ => throw CleanupError end.

Definition state_path (release namespace : string) : string :=
  "/api/v1/namespaces/" +:+ namespace +:+ "/configmaps/" +:+ release +:+ "-adapter-state".

Definition deployments_path (namespace : string) : string := "/apis/apps/v1/namespaces/" +:+ namespace +:+ "/deployments".

Definition list_objects (path : string) : cleanup (list json) :=
  do! result := api_get path in
  match jget (Some result) "items", jget (jget (Some result) "metadata") "continue" with
  | Some (JArr items), c =>
      if match c with Some v => PlanParse.truthy v | None => false end then throw CleanupError else ret items
  | _, _ => throw CleanupError
  end.

Definition name_of (o : json) : option json := jget (jget (Some o) "metadata") "name".
Definition meta (o : json) (key : string) : option json := jget (jget (Some o) "metadata") key.
Definition label_of (o : json) (key : string) : option json := jget (meta o "labels") key.
Definition selected_version (service : json) : option json :=
  jget (jget (jget (Some service) "spec") "selector") "app.kubernetes.io/version".

Definition find_named (name : string) (l : list json) : option json :=
  List.find (λ o, PlanParse.is_text (name_of o) name) l.

(** Whether every Service of the current build selects it. *)
Definition traffic_is_on (release activeVersion : string) (currentPools : list json) (services : list json) : bool :=
  forallb (λ pool, match find_named (sanitizeK8sName (release +:+ "-" +:+ Gc.js_text pool) "") services with
                   | Some s => PlanParse.is_text (selected_version s) activeVersion
                   | None => false
                   end) currentPools
  && match find_named (sanitizeK8sName (release +:+ "-origin") "") services with
     | Some o => PlanParse.is_text (selected_version o) activeVersion
     | None => true
     end.

Definition truthy_member (o : json) (key : string) : bool :=
  match meta o key with Some v => PlanParse.truthy v | None => false end.

(** A standby whose marker has expired: its name, when it may be parked. *)
Definition expired_standby (release : string) (previousBuildId : json) (previousPools : list json) (now : Z)
    (hpas : list json) (deployment : json) : option string :=
  let raw := match jget (meta deployment "annotations") RETENTION_EXPIRY_ANNOTATION with
             | Some (JStr s) => Some s | _ => None end in
  marker ← parseExpiryMarker raw;
  match label_of deployment "app.kubernetes.io/component", name_of deployment,
        jget (jget (Some deployment) "spec") "replicas" with
  | Some (JStr pool), Some (JStr name), Some (JNum (NInt replicas)) =>
      if PlanParse.is_text (Some previousBuildId) (m_build marker)
         && (m_expiresAt marker <=? now)
         && negb (truthy_member deployment "deletionTimestamp")
         && truthy_member deployment "resourceVersion" && truthy_member deployment "uid"
         && safe_integer replicas && (0 <? replicas)
         && PlanParse.is_text (label_of deployment "app.kubernetes.io/name") release
         && PlanParse.is_text (label_of deployment "app.kubernetes.io/version") (sanitizeK8sName (m_build marker) "")
         && includes (Some (JArr previousPools)) pool
         && String.eqb name (sanitizeK8sName (release +:+ "-" +:+ pool +:+ "-" +:+ m_build marker) "")
         && negb (existsb (λ h, PlanParse.is_text (jget (jget (jget (Some h) "spec") "scaleTargetRef") "name") name) hpas)
      then Some name else None
  | _, _, _ => None
  end.

Definition park_operations (deployment : json) : list json :=
  let test path key := JObj ([("op", JStr "test"); ("path", JStr path)]
                             ++ match meta deployment key with Some v => [("value", v)] | None => [] end) in
  [test "/metadata/uid" "uid"; test "/metadata/resourceVersion" "resourceVersion";
   JObj [("op", JStr "replace"); ("path", JStr "/spec/replicas"); ("value", JNum (NInt 0))]].

Definition stored_state (stateObject : json) : option json := jget (jget (Some stateObject) "data") "state.json".

Definition overtaken (status : option Z) : bool :=
  match status with Some s => (s =? 404) || (s =? 409) || (s =? 422) | None => false end.

(** The loop over the Deployments; the count of those parked. *)
Fixpoint park_expired (release namespace : string) (previousBuildId : json) (previousPools : list json) (now : Z)
    (hpas : list json) (stateRaw : option json) (deployments : list json) (scaled : Z) : cleanup Z :=
  match deployments with
  | [] => ret scaled
  | deployment :: deployments =>
      let next := park_expired release namespace previousBuildId previousPools now hpas stateRaw deployments in
      match expired_standby release previousBuildId previousPools now hpas deployment with
      | None => next scaled
      | Some name =>
          do! current := api_get (state_path release namespace) in
          if negb (strict_equal (stored_state current) stateRaw) then ret scaled
          else
            do! parked := catch
              (do! _ := api_patch (deployments_path namespace +:+ "/" +:+ name +:+ "/scale") (park_operations deployment) in
               ret true)
              (λ e, match e with
                    | ApiStatus s => if overtaken s then ret false else throw e
                    | CleanupError => throw e
                    end) in
            next (if parked : bool then scaled + 1 else scaled)
      end
  end.

(** poolTopologies[buildId], when it is an array that is not empty. *)
Definition pools_of (state : option json) (buildId : string) : option (list json) :=
  match jget (jget state "poolTopologies") buildId with
  | Some (JArr ((_ :: _) as l)) => Some l
  | _ => None
  end.

Definition checked_pools (l : list json) : outcome string (list unit) :=
  collect (map (λ v, assertSafePoolName (Gc.js_text v)) l).

Definition release_query (release : string) : string :=
  "?labelSelector=" +:+ encodeURIComponent ("app.kubernetes.io/name=" +:+ release) +:+ "&limit=500".

Definition cleanupExpiredRetention (release namespace : string) (now : Z) : cleanup Z :=
  do! _ := checked (assertSafeReleaseName release) in
  do! _ := checked (assertSafeNamespace (JStr namespace)) in
  do! stateObject := catch (do! o := api_get (state_path release namespace) in ret (Some o))
    (λ e, match e with ApiStatus (Some 404) => ret None | _ => throw e end) in
  match stateObject with
  | None => ret 0
  | Some stateObject =>
      let stateRaw := stored_state stateObject in
      match json_parse (match stateRaw with None | Some JNull => "null" | v => text_of v end) with
      | None => throw CleanupError
      | Some state =>
          let buildId := jget (Some state) "buildId" in
          let previous := jget (Some state) "previousBuildId" in
          if negb (match previous with Some v => PlanParse.truthy v | None => false end)
             || strict_equal buildId previous
          then ret 0
          else
            do! _ := checked (assertSafeBuildId (text_of buildId)) in
            do! _ := checked (assertSafeBuildId (text_of previous)) in
            match pools_of (Some state) (text_of buildId), pools_of (Some state) (text_of previous) with
            | Some currentPools, Some previousPools =>
                do! _ := checked (checked_pools (currentPools ++ previousPools)) in
                do! deployments := list_objects (deployments_path namespace +:+ release_query release) in
                do! services := list_objects ("/api/v1/namespaces/" +:+ namespace +:+ "/services"
                                              +:+ release_query release) in
                do! hpas := list_objects ("/apis/autoscaling/v2/namespaces/" +:+ namespace
                                          +:+ "/horizontalpodautoscalers?limit=500") in
                if traffic_is_on release (sanitizeK8sName (text_of buildId) "") currentPools services
                then park_expired release namespace (default JNull previous) previousPools now hpas stateRaw
                       deployments 0
                else ret 0
            | _, _ => ret 0
            end
      end
  end.
End Cleanup.

(** ** Renewing the marker *)

Section Renewal.
Context {W : Type} `{!Exec W} `{!ServiceSelector.Surroundings W}.

Definition marker_patch (buildId : string) (expiresAt : Z) : string :=
  stringify (JObj [("metadata", JObj [("annotations", JObj
    [(RETENTION_EXPIRY_ANNOTATION,
      JStr (stringify (JObj [("buildId", JStr buildId); ("expiresAt", JNum (NInt expiresAt))])))])])]).

Fixpoint arm_pools (release namespace buildId : string) (expiresAt : Z) (allowMissing : bool)
    (pools : list string) : io W string unit :=
  match pools with
  | [] => ret tt
  | pool :: pools =>
      do! _ := lift (assertSafePoolName pool) in
      let name := sanitizeK8sName (release +:+ "-" +:+ pool +:+ "-" +:+ buildId) "" in
      do! result := execCapture "kubectl"
        ["patch"; "deployment"; name; "-n"; namespace; "--type=merge"; "-p"; marker_patch buildId expiresAt] in
      if exitCode result =? 0 then arm_pools release namespace buildId expiresAt allowMissing pools
      else
        do! missing :=
          (if allowMissing then
             do! existing := execCapture "kubectl"
               ["get"; "deployment"; name; "-n"; namespace; "--ignore-not-found"; "-o"; "name"] in
             ret ((exitCode existing =? 0) && is_empty (trim (stdout existing)))
           else ret false) in
        if missing : bool then arm_pools release namespace buildId expiresAt allowMissing pools
        else throw ("Could not arm retention expiry for " +:+ name)
  end.

Definition setRetentionExpiry (release namespace buildId : string) (pools : list string) (expiresAt : Z)
    (allowMissing : bool) : io W string unit :=
  do! _ := lift (assertSafeReleaseName release) in
  do! _ := lift (assertSafeNamespace (JStr namespace)) in
  do! _ := lift (assertSafeBuildId buildId) in
  if negb (safe_integer expiresAt) || (expiresAt <=? 0) then throw "Invalid retention expiry"
  else arm_pools release namespace buildId expiresAt allowMissing pools.

Definition protectRetentionBuild (release namespace buildId : string) (pools : list string) : io W string unit :=
  do! t := ServiceSelector.sample ServiceSelector.now in
  setRetentionExpiry release namespace buildId pools (t + 3600000) true.
End Renewal.

End Retention.
