(* ===== verification/PrepareRetention.v ===== *)
(** * Registering the retained builds (src/src/cutover/retention.ts)

    Before a cutover, the two builds in play are signed into the release's retention index, and the
    cutover waits until the ready pods have it; once its state is committed, their deadline is
    published.  SHA-256, HMAC-SHA256 and the base64 decoder are parameters.  In the documents kubectl
    prints, a field whose type is not the one the code declares is read as absent. *)
From Stdlib Require Import Ascii String.
From S2P Require Import Prelude JsString Regex Json JsonParse K8sNames PlanParse PlanFingerprint Effects.
From S2P Require Import ServiceSelector ReleaseNames StablePools Gc Resp Retention.
Import K8sNames ReleaseNames Retention.
Local Open Scope stdpp_scope.
Local Open Scope js_scope.
Local Open Scope Z_scope.

Module PrepareRetention.

Definition PREPARATION_MS : Z := 3600000.
Definition PROPAGATION_MS : Z := 120000.
Definition POD_NAME_RE : string := "^[a-z0-9][a-z0-9.-]{0,252}$".
Definition MANAGED_BY : string := "app.kubernetes.io/managed-by".

Definition PROBE_SCRIPT : string :=
  "try { const b=require(" +:+ in_quotes "node:fs" +:+ ").readFileSync(" +:+ in_quotes "/retention/index.json"
  +:+ "); process.exit(require(" +:+ in_quotes "node:crypto" +:+ ").createHash(" +:+ in_quotes "sha256"
  +:+ ").update(b).digest(" +:+ in_quotes "hex" +:+ ") === process.argv[1] ? 0 : 1); } catch { process.exit(1); }".

(** A build with the document its inventory was read from. *)
Record registered := mkRegistered { g_build : string; g_fields : obj; g_payload : string; g_signature : option json }.

Definition pools_field (fields : obj) : list string :=
  match prop fields "pools" with
  | Some (JArr l) => flat_map (λ v, match v with JStr s => [s] | _ => [] end) l
  | _ => []
  end.

Definition text_field (fields : obj) (key : string) : string :=
  match prop fields key with Some (JStr s) => s | _ => "" end.

(** The builds as the index records them. *)
Definition with_deadline (expiresAt : Z) (r : registered) : json :=
  JObj (set_prop (g_fields r) "expiresAt" (JNum (NInt expiresAt))).

(** What complete() needs of a prepared retention. *)
Record prepared := mkPrepared {
  r_incoming : string; r_outgoing : string; r_builds : list registered;
  r_index : obj; r_json : string; r_secret : string
}.

Section Operations.
Context {W : Type} `{!Exec W} `{!ServiceSelector.Surroundings W}.
Context (sha256_hex : string → string) (hmac : string → string → string) (decode_base64 : string → string).
Context (releaseName namespace : string).

Abbreviation action := (io W string).

Definition clock : action Z := ServiceSelector.sample ServiceSelector.now.
Definition pause (ms : Z) : action unit := λ w, (Returns tt, ServiceSelector.sleep ms w).

Definition read_object (kind name : string) : action (option json) :=
  do! result := execCapture "kubectl" (StablePools.get_object_args kind name namespace) in
  if negb (exitCode result =? 0) then throw "Could not read the object for build retention"
  else if is_empty (trim (stdout result)) then ret None
  else match json_parse (stdout result) with Some v => ret (Some v) | None => throw "SyntaxError" end.

Definition build_origin (defaultPool buildId : string) : string :=
  "http://" +:+ sanitizeK8sName (releaseName +:+ "-" +:+ defaultPool +:+ "-" +:+ buildId) "" +:+ ":3000".

(** The inventory of a build; [None] when it has none. *)
Definition read_inventory (buildId : string) : action (option registered) :=
  do! name := lift (retentionName sha256_hex releaseName (Some buildId)) in
  do! object := read_object "configmap" name in
  match jget (jget object "data") "inventory.json" with
  | Some (JStr (String _ _ as text)) =>
      match json_parse text with
      | None => throw "SyntaxError"
      | Some inventory =>
          do! _ := lift (validateInventory inventory) in
          if negb (PlanParse.is_text (jget (Some inventory) "buildId") buildId)
             || negb (PlanParse.is_text (jget (jget object "metadata") "name") name)
             || negb (PlanParse.is_text (jget (jget (jget object "metadata") "labels") StablePools.NAME) releaseName)
          then throw "Retained inventory ownership mismatch"
          else
            let fields := match inventory with JObj fs => fs | _ => [] end in
            ret (Some (mkRegistered buildId
                   (set_prop (set_prop fields "origin" (JStr (build_origin (text_field fields "defaultPool") buildId)))
                      "expiresAt" (JNum (NInt 0)))
                   text (jget (jget object "data") "signature")))
      end
  | _ => ret None
  end.

(** The secret of a build, whose inventory it must have signed. *)
Definition read_secret (r : registered) : action string :=
  do! object := read_object "secret" (internalSecretName sha256_hex releaseName (g_build r)) in
  match jget (jget object "data") INTERNAL_SECRET_KEY with
  | Some (JStr encoded) =>
      let secret := decode_base64 encoded in
      if is_empty secret then throw "Retained build dispatch secret is empty"
      else if negb (PlanParse.is_text (g_signature r) (inventorySignature hmac (g_payload r) secret))
      then throw "Retained inventory signature is invalid"
      else ret secret
  | _ => throw "Retained build dispatch secret is unavailable"
  end.

(** The record of the outgoing build that is still its own, kept while the incoming one warms. *)
Definition prior_record (previousRecords : json) (buildId secret : string) : option json :=
  prior ← jget (Some previousRecords) buildId;
  match jget (Some prior) "payload" with
  | Some (JStr payload) =>
      builds ← json_parse payload;
      if PlanParse.is_text (jget (Some prior) "signature") (record_signature hmac (stringify builds) secret)
      then Some prior else None
  | _ => None
  end.

(** The index and the secret of the incoming build. *)
Fixpoint sign_builds (incoming outgoing : string) (builds : list json) (previousRecords : json)
    (rs : list registered) (index : obj) (incoming_secret : string) : action (obj * string) :=
  match rs with
  | [] => ret (index, incoming_secret)
  | r :: rs =>
      do! secret := read_secret r in
      if match previousRecords with JNull => true | _ => false end then throw "TypeError"
      else
        let record := match (if String.eqb (g_build r) outgoing
                             then prior_record previousRecords (g_build r) secret else None) with
                      | Some prior => prior
                      | None => signed_json (signRetention hmac builds secret)
                      end in
        sign_builds incoming outgoing builds previousRecords rs (set_prop index (g_build r) record)
          (if String.eqb (g_build r) incoming then secret else incoming_secret)
  end.

Definition index_map (name : string) (previousIndex : option json) (text : string) : json :=
  JObj [("apiVersion", JStr "v1"); ("kind", JStr "ConfigMap");
        ("metadata", JObj ([("name", JStr name); ("namespace", JStr namespace)]
           ++ match previousIndex with
              | Some v => match jget (jget (Some v) "metadata") "resourceVersion" with
                          | Some version => [("resourceVersion", version)]
                          | None => []
                          end
              | None => []
              end
           ++ [("labels", JObj [(StablePools.NAME, JStr releaseName);
                                (StablePools.COMPONENT, JStr "retention-index");
                                (MANAGED_BY, JStr "adapter-k8s")])]));
        ("data", JObj [("index.json", JStr text)])].

(** ** Waiting for the index *)

Definition is_ready (pod : json) : bool :=
  match jget (jget (Some pod) "status") "conditions" with
  | Some (JArr cs) => existsb ServiceSelector.is_condition cs
  | _ => false
  end.

Definition reader_container (pod : json) : option string :=
  match jget (jget (Some pod) "spec") "containers" with
  | Some (JArr cs) =>
      c ← List.find (λ c, PlanParse.is_text (jget (Some c) "name") "pool-server"
                          || PlanParse.is_text (jget (Some c) "name") "routing-service") cs;
      match jget (Some c) "name" with Some (JStr n) => Some n | _ => None end
  | _ => None
  end.

(** A pod whose copy of the index is checked: its name and its container. *)
Definition checked_pod (versions : list string) (pod : json) : option (string * string) :=
  let terminating := match Retention.meta pod "deletionTimestamp" with
                     | Some v => PlanParse.truthy v | None => false end in
  match label_of pod "app.kubernetes.io/version", name_of pod, reader_container pod with
  | Some (JStr version), Some (JStr name), Some container =>
      if bool_decide (version ∈ versions) && negb terminating && is_ready pod && re_test POD_NAME_RE name
      then Some (name, container) else None
  | _, _, _ => None
  end.

Definition probe_args (name container digest : string) : list string :=
  ["exec"; name; "-n"; namespace; "-c"; container; "--"; "node"; "-e"; PROBE_SCRIPT; digest].

(** How many pods were checked, and whether all of them have the index. *)
Fixpoint probe_pods (versions : list string) (digest : string) (deadline : Z) (pods : list json)
    (checked : Z) (ready : bool) : action (Z * bool) :=
  match pods with
  | [] => ret (checked, ready)
  | pod :: pods =>
      match checked_pod versions pod with
      | None => probe_pods versions digest deadline pods checked ready
      | Some (name, container) =>
          do! t := clock in
          if deadline <=? t then throw "Retention projection check exceeded its deadline"
          else
            do! probe := execCapture "kubectl" (probe_args name container digest) in
            probe_pods versions digest deadline pods (checked + 1) (ready && (exitCode probe =? 0))
      end
  end.

Definition propagation_pass (versions : list string) (digest : string) (deadline : Z) : action bool :=
  do! result := execCapture "kubectl"
    ["get"; "pods"; "-n"; namespace; "-l"; StablePools.NAME +:+ "=" +:+ releaseName; "-o"; "json"] in
  if negb (exitCode result =? 0) then throw "Could not verify retention index propagation"
  else
    match jget (json_parse (stdout result)) "items" with
    | Some (JArr pods) =>
        do! r := probe_pods versions digest deadline pods 0 true in
        ret ((0 <? r.1) && r.2)
    | _ => throw "TypeError"
    end.

(** The loop: every pass that is not the last sleeps two seconds. *)
Fixpoint propagation_loop (pass : action bool) (deadline : Z) (fuel : nat) : action unit :=
  match fuel with
  | O => throw "out of fuel"
  | S fuel =>
      do! done := pass in
      if done : bool then ret tt
      else
        do! t := clock in
        if deadline <=? t then throw "Retention index did not reach ready pods before cutover"
        else do! _ := pause 2000 in propagation_loop pass deadline fuel
  end.

Definition propagation_fuel : nat := 62.

Definition waitForIndex (builds : list string) (document : string) : action unit :=
  do! t := clock in
  let deadline := t + PROPAGATION_MS in
  do! _ := propagation_loop
    (propagation_pass (map (λ b, sanitizeK8sName b "") builds) (sha256_hex document) deadline) deadline
    propagation_fuel in
  pause 300.

(** ** Before and after the cutover *)

Definition same_pools (a b : registered) : bool :=
  bool_decide (PlanFingerprint.sort_keys (pools_field (g_fields a))
               = PlanFingerprint.sort_keys (pools_field (g_fields b))).

(** The index of two registered builds, published and seen by the pods. *)
Definition register (incoming outgoing : string) (a b : registered) : action prepared :=
  do! t := clock in
  let expiresAt := t + PREPARATION_MS in
  let rs := [a; b] in
  let builds := map (with_deadline expiresAt) rs in
  do! name := lift (retentionName sha256_hex releaseName None) in
  do! found := read_object "configmap" name in
  let previousIndex := match found with Some JNull => None | v => v end in
  if match previousIndex with
     | Some v => negb (PlanParse.is_text (jget (jget (jget (Some v) "metadata") "labels") MANAGED_BY) "adapter-k8s")
     | None => false
     end
  then throw "Refusing to replace an unowned retention index"
  else
    match json_parse (match jget (jget previousIndex "data") "index.json" with
                      | Some (JStr text) => text | _ => "{}" end) with
    | None => throw "SyntaxError"
    | Some previousRecords =>
        do! signed := sign_builds incoming outgoing builds previousRecords rs [] "" in
        let '(index, secret) := signed in
        let text := stringify (JObj index) in
        if RETENTION_MAX_BYTES <? Resp.size (Resp.utf8 text) then throw "Combined retention index exceeds 800KB"
        else
          do! applied := execCaptureStdin "kubectl"
            [match previousIndex with Some _ => "replace" | None => "create" end; "-f"; "-"]
            (stringify (index_map name previousIndex text)) in
          if negb (exitCode applied =? 0) then throw "Could not publish retained build index"
          else
            do! _ := waitForIndex [incoming; outgoing] text in
            do! _ := setRetentionExpiry releaseName namespace outgoing (pools_field (g_fields b)) expiresAt false in
            ret (mkPrepared incoming outgoing rs index text secret)
    end.

Definition prepareRetention (incoming : string) (outgoing : option string) : action (option prepared) :=
  do! _ := lift (assertSafeReleaseName releaseName) in
  do! _ := lift (assertSafeNamespace (JStr namespace)) in
  do! _ := lift (assertSafeBuildId incoming) in
  match outgoing with
  | Some (String _ _ as outgoing) =>
      do! _ := lift (assertSafeBuildId outgoing) in
      do! first := read_inventory incoming in
      match first with
      | None => ret None
      | Some a =>
          do! second := read_inventory outgoing in
          match second with
          | None => ret None
          | Some b =>
              if same_pools a b then do! r := register incoming outgoing a b in ret (Some r) else ret None
          end
      end
  | _ => ret None
  end.

Definition set_data (object : json) (key : string) (v : json) : json :=
  match object with
  | JObj fs => JObj (set_prop fs "data" (match prop fs "data" with
                                         | Some (JObj data) => JObj (set_prop data key v)
                                         | d => default JNull d
                                         end))
  | _ => object
  end.

Definition grace_seconds (fields : obj) : Z :=
  match prop fields "gracePeriodSeconds" with Some (JNum (NInt n)) => n | _ => 0 end.

Definition publish_deadline (p : prepared) : action unit :=
  do! name := lift (retentionName sha256_hex releaseName None) in
  do! current := read_object "configmap" name in
  match r_builds p, current with
  | [a; b], Some object =>
      if negb (PlanParse.is_text (jget (jget (Some object) "data") "index.json") (r_json p))
      then throw "A newer promotion replaced the retention index"
      else
        do! t := clock in
        let finalExpiresAt := t + (grace_seconds (g_fields a) + 120) * 1000 in
        let index := set_prop (r_index p) (r_incoming p)
          (signed_json (signRetention hmac (map (with_deadline finalExpiresAt) (r_builds p)) (r_secret p))) in
        let text := stringify (JObj index) in
        do! updated := execCaptureStdin "kubectl" ["replace"; "-f"; "-"]
          (stringify (set_data object "index.json" (JStr text))) in
        if negb (exitCode updated =? 0) then throw "Could not finalize retention deadline"
        else
          do! _ := waitForIndex [r_incoming p; r_outgoing p] text in
          setRetentionExpiry releaseName namespace (r_outgoing p) (pools_field (g_fields b)) finalExpiresAt false
  | _, _ => throw "A newer promotion replaced the retention index"
  end.

(** complete(): no failure escapes. *)
Definition complete (p : prepared) : action unit := Gc.ignore (publish_deadline p).
End Operations.

End PrepareRetention.
