(* ===== verification/RetentionFacts.v ===== *)
(** * Properties of the retained builds

    The reader of src/src/retention.ts answers only from records that were signed for its build and
    whose deadline has not passed; what src/src/cutover/retention.ts publishes is read back by that
    reader; the wait for the pods ends; and the cleanup of src/src/retention-expiry.ts parks expired
    standbys only. *)
From Stdlib Require Import Ascii String.
From S2P Require Import Prelude JsString Regex Json JsonParse K8sNames PlanParse Effects ServiceSelector.
From S2P Require Import ReleaseNames StablePools Gc Resp Retention PrepareRetention.
Import K8sNames ReleaseNames Retention PrepareRetention.
Local Open Scope stdpp_scope.
Local Open Scope js_scope.
Local Open Scope Z_scope.

Module RetentionFacts.

(** ** The reader *)

Section Reader.
Context (hmac : string → string → string) (parse_url : string → option url) (buildId secret : string).

(** One call of the reader, with what it finds when its memory is due. *)
Record call := mkCall {
  file : option string; arrived : Z; refreshed : Z; chosen : Z; asked : request
}.

(** The answers of a reader to a sequence of calls. *)
Fixpoint answers (r : reader) (ks : list call) : list (option json) :=
  match ks with
  | [] => []
  | k :: ks =>
      let '(answer, r') := read_retained hmac parse_url buildId secret (file k) (arrived k) (refreshed k)
                             (chosen k) (asked k) r in
      answer :: answers r' ks
  end.

(** A projected file carries a record, signed for this build, of exactly [own] and [peer]. *)
Definition vouches (f : option string) (own peer : json) : Prop :=
  ∃ raw payload builds,
    f = Some raw
    ∧ jget (jget (json_parse raw) buildId) "payload" = Some (JStr payload)
    ∧ jget (jget (json_parse raw) buildId) "signature" = Some (JStr (record_signature hmac payload secret))
    ∧ json_parse payload = Some (JArr builds) ∧ builds ≡ₚ [own; peer]
    ∧ is_build buildId own = true ∧ is_build buildId peer = false ∧ retained_ok parse_url peer = true.

(** The deployment a request asks for. *)
Definition hinted (q : request) (b : json) : bool :=
  match (match truthy_text (deploymentId q) with Some d => Some d | None => dpl q end) with
  | Some h => PlanParse.is_text (jget (Some b) "deploymentId") h
  | None => false
  end.

(** A resource of the request that a build lists. *)
Definition lists_resource (q : request) (b : json) : Prop :=
  ((method q = "GET" ∨ method q = "HEAD") ∧ includes (jget (Some b) "assets") (path q) = true)
  ∨ (method q = "POST" ∧ ∃ a, action q = Some a ∧ includes (jget (Some b) "actions") a = true).

(** The builds a file vouches for, when the reader accepts it. *)
Definition trusted (f : option string) (l : list json) : Prop :=
  l = [] ∨ ∃ own peer, vouches f own peer ∧ l ≡ₚ [own; peer].

Lemma verified_trusted f : trusted f (verified hmac parse_url buildId secret f).
Proof.
  unfold trusted, verified. destruct f as [raw|]; [|by left].
  destruct (RETENTION_MAX_BYTES <? _); [by left|].
  destruct (jget (jget (json_parse raw) buildId) "payload") as [[]|] eqn:Hp; auto.
  destruct (jget (jget (json_parse raw) buildId) "signature") as [[]|] eqn:Hs; auto.
  destruct (negb _ || _) eqn:Hsig; [by left|]. apply orb_false_iff in Hsig as [_ Hsig].
  apply negb_false_iff, String.eqb_eq in Hsig as <-.
  destruct (json_parse s) as [[| | | |[|a [|b []]]|]|] eqn:Hl; auto.
  destruct (_ && _) eqn:Hok; [|by left]. b2p.
  match goal with H : length _ = 1%nat |- _ => rename H into Hone end.
  match goal with H : retained_ok _ a = true |- _ => rename H into Ha end.
  match goal with H : retained_ok _ b = true |- _ => rename H into Hb end.
  cbn in Hone. right.
  destruct (is_build buildId a) eqn:Ia, (is_build buildId b) eqn:Ib; cbn in Hone; try done.
  - exists a, b. split; [|done]. by exists raw, s, [a; b].
  - exists b, a. split; [|by constructor]. exists raw, s, [a; b]. repeat split; try done. constructor.
Qed.

Lemma find_perm (p : json → bool) l own peer x :
  l ≡ₚ [own; peer] → List.find p l = Some x → (x = own ∨ x = peer) ∧ p x = true.
Proof.
  intros Hl [Hx%list_elem_of_In Hp]%find_some. split; [|done]. rewrite Hl in Hx. set_solver.
Qed.

(** What an answer of the memory says. *)
Lemma choose_sound f l now q b :
  trusted f l → choose buildId l now q = Some b →
  ∃ own t, vouches f own b ∧ is_build buildId b = false
    ∧ expires_at b = Some t ∧ now < t ∧ hinted q own = false ∧ lists_resource q b.
Proof.
  intros [->|(own & peer & Hv & Hl)]; [done|]. unfold choose.
  pose proof Hv as (raw & payload & builds & _ & _ & _ & _ & _ & Io & Ip & _).
  destruct (List.find (is_build buildId) l) as [o|] eqn:Ho; [|done]. cbn [mbind option_bind].
  apply (find_perm _ _ _ _ _ Hl) in Ho as [[->| ->] Ho]; [|congruence].
  destruct (List.find _ l) as [p|] eqn:Hp; [|done]. cbn [mbind option_bind].
  apply (find_perm _ _ _ _ _ Hl) in Hp as [Hp Hlive].
  apply andb_true_iff in Hlive as [Hn Hlive]. apply negb_true_iff in Hn.
  destruct Hp as [->| ->]; [congruence|].
  destruct (expires_at peer) as [t|] eqn:Ht; [|done]. apply Z.ltb_lt in Hlive.
  cbv zeta beta. fold (hinted q own). fold (hinted q peer).
  destruct (hinted q own) eqn:Hh; [done|].
  intros H. enough (b = peer ∧ lists_resource q peer) as [-> ?] by (by exists own, t).
  unfold lists_resource. destruct (action q) as [[|c a]|] eqn:Ha; cbn in H;
    repeat match type of H with (if ?c then _ else _) = _ => destruct c eqn:? end; simplify_eq; b2p;
    repeat match goal with H : (_ =? _)%string = true |- _ => apply String.eqb_eq in H end;
    repeat match goal with H : (_ || _) = true |- _ => apply orb_true_iff in H as [H|H];
                             apply String.eqb_eq in H end; naive_solver.
Qed.

(** The memory comes from one file, read at most a quarter of a second before the next read is due. *)
Definition remembers (ks : list call) (r : reader) : Prop :=
  cached r = [] ∨ ∃ k, k ∈ ks ∧ trusted (file k) (cached r) ∧ refreshAt r = refreshed k + 250.

Lemma answers_sound past r ks i k b :
  remembers past r → ks !! i = Some k → answers r ks !! i = Some (Some b) →
  ∃ k' own t, (k' ∈ past ∨ k' ∈ take (S i) ks)
    ∧ (k' = k ∨ arrived k < refreshed k' + 250)
    ∧ vouches (file k') own b ∧ is_build buildId b = false
    ∧ expires_at b = Some t ∧ chosen k < t ∧ hinted (asked k) own = false ∧ lists_resource (asked k) b.
Proof.
  revert past r i. induction ks as [|k0 ks IH]; intros past r i Hr; [done|].
  cbn [answers]. unfold read_retained at 1. destruct (is_empty secret) eqn:He.
  - destruct i as [|i]; cbn; [done|]. intros Hk Hb. destruct (IH past r i Hr Hk Hb) as (k' & own & t & Hin & H).
    exists k', own, t. split; [|exact H]. set_solver.
  - set (r1 := if refreshAt r <=? arrived k0 then _ else r).
    assert ((k0 ∈ k0 :: past → remembers (k0 :: past) r1)
            ∧ (cached r1 = [] ∨ ∃ k', (k' = k0 ∨ k' ∈ past ∧ arrived k0 < refreshed k' + 250)
                                ∧ trusted (file k') (cached r1))) as [Hr1 Hnow].
    { subst r1. destruct (refreshAt r <=? arrived k0) eqn:Hd; b2p.
      - split; [|right; exists k0; split; [by left|apply verified_trusted]].
        intros _. right. exists k0. split; [by left|]. split; [apply verified_trusted|done].
      - destruct Hr as [Hr|(k' & Hin & Ht & Hat)]; [split; [intros _|]; by left|].
        split; [intros _; right; exists k'; split; [by right|done]|].
        right. exists k'. split; [right; split; [done|lia]|done]. }
    destruct i as [|i]; cbn.
    + intros [= ->] [= Hb]. destruct Hnow as [Hn|(k' & Hk' & Ht)]; [by rewrite Hn in Hb|].
      destruct (choose_sound _ _ _ _ _ Ht Hb) as (own & t & H). exists k', own, t.
      destruct Hk' as [->|[Hk' Hlt]].
      * split; [right; left|]. split; [by left|exact H].
      * split; [by left|]. split; [by right|exact H].
    + intros Hk Hb. destruct (IH (k0 :: past) r1 i) as (k' & own & t & Hin & H); [apply Hr1; left|done|done|].
      exists k', own, t. split; [|exact H]. set_solver.
Qed.

(** C12. Whatever the files and the requests, a retained build answers a request only if a file read by
    this call, or less than 250 ms after an earlier read, carries a record signed for the reader's
    build that lists exactly these two builds, the deadline of the other has not passed when the
    choice is made, the request does not ask for the reader's own deployment, and the other build
    lists the asset or the action asked for. *)
Theorem retained_answers_vouched ks i k b :
  ks !! i = Some k → answers new_reader ks !! i = Some (Some b) →
  ∃ k' own t, k' ∈ take (S i) ks
    ∧ (k' = k ∨ arrived k < refreshed k' + 250)
    ∧ vouches (file k') own b ∧ is_build buildId b = false
    ∧ expires_at b = Some t ∧ chosen k < t ∧ hinted (asked k) own = false ∧ lists_resource (asked k) b.
Proof.
  intros Hk Hb. destruct (answers_sound [] new_reader ks i k b) as (k' & own & t & [Hin|Hin] & H);
    [by left|done|done|set_solver|]. by exists k', own, t.
Qed.
End Reader.

(** ** What is published is read back *)

Section Publication.
Context {W : Type} {Hexec : Exec W} {Hsur : ServiceSelector.Surroundings W}.
Context (sha256_hex : string → string) (hmac : string → string → string) (decode_base64 : string → string).
Context (parse_url : string → option url) (releaseName namespace : string).

(** A build as the index records it: valid, under its own id, at its own origin. *)
Definition sound_build (r : registered) : Prop :=
  valid_json (JObj (g_fields r)) ∧ validateInventory (JObj (g_fields r)) = Returns tt
  ∧ prop (g_fields r) "buildId" = Some (JStr (g_build r))
  ∧ ∃ pool, prop (g_fields r) "origin" = Some (JStr (build_origin releaseName pool (g_build r))).

Lemma validate_set_prop fs key v :
  key = "origin" ∨ key = "expiresAt" →
  validateInventory (JObj (set_prop fs key v)) = validateInventory (JObj fs).
Proof.
  intros Hk. unfold validateInventory. cbn [jget]. rewrite !prop_set_prop.
  destruct Hk as [-> | ->]; reflexivity.
Qed.

Lemma validate_object v : validateInventory v = Returns tt → ∃ fs, v = JObj fs.
Proof. destruct v; cbn; try discriminate. eauto. Qed.

Lemma is_text_elim v s : PlanParse.is_text v s = true → v = Some (JStr s).
Proof. destruct v as [[]|]; try discriminate. by intros ->%String.eqb_eq. Qed.

Lemma read_inventory_sound buildId r w w' :
  read_inventory sha256_hex releaseName namespace buildId w = (Returns (Some r), w') →
  g_build r = buildId ∧ sound_build r.
Proof.
  unfold read_inventory. intros Hr. run_back. simplify_eq. split; [done|].
  match goal with H : json_parse _ = Some ?v |- _ => rename v into inventory, H into Hp end.
  match goal with H : validateInventory _ = Returns ?x |- _ => rename H into Hv; destruct x end.
  destruct (validate_object _ Hv) as [fs ->].
  match goal with H : negb _ || _ || _ = false |- _ => apply orb_false_iff in H as [[Hid _]%orb_false_iff _] end.
  apply negb_false_iff, is_text_elim in Hid. cbn [jget] in Hid. apply json_parse_valid in Hp.
  unfold sound_build. cbn [g_fields g_build]. rewrite !validate_set_prop by auto.
  refine (conj _ (conj Hv (conj _ _))); [|by rewrite !prop_set_prop|eexists; by rewrite !prop_set_prop].
  by repeat apply valid_set_prop.
Qed.
Lemma valid_prop fs k v : valid_json (JObj fs) → prop fs k = Some v → valid_json v.
Proof.
  intros [Hw Hc] Hp. split; [by eapply wf_prop|]. apply prop_Some_elem in Hp.
  cbn in Hc. rewrite forallb_In in Hc. exact (Hc _ Hp).
Qed.

Lemma valid_signed s : valid_json (signed_json s).
Proof. split; [|done]. by apply wf_check_sound. Qed.

Lemma prior_record_valid v buildId secret prior :
  valid_json v → prior_record hmac v buildId secret = Some prior → valid_json prior.
Proof.
  intros Hv. unfold prior_record. destruct (jget (Some v) buildId) as [p|] eqn:Hp; [|done].
  cbn [mbind option_bind]. intros H. enough (p = prior) as <-.
  - destruct v; try done. by eapply valid_prop.
  - destruct (jget (Some p) "payload") as [[| | |s| |]|]; try done.
    destruct (json_parse s); [|done]. cbn [mbind option_bind] in H.
    destruct (PlanParse.is_text _ _); congruence.
Qed.

Lemma read_secret_nonempty r w secret w' :
  read_secret sha256_hex hmac decode_base64 releaseName namespace r w = (Returns secret, w') → secret ≠ "".
Proof.
  unfold read_secret. intros Hs. run_back. intros He.
  match goal with E : is_empty _ = false |- _ => by rewrite He in E end.
Qed.

(** The index of two builds: the incoming one's record is signed with its own secret. *)
Lemma sign_builds_sound incoming outgoing builds v a b index secret w w' :
  g_build a = incoming → g_build b = outgoing → incoming ≠ outgoing → valid_json v →
  sign_builds sha256_hex hmac decode_base64 releaseName namespace incoming outgoing builds v [a; b] [] "" w
  = (Returns (index, secret), w') →
  valid_json (JObj index) ∧ secret ≠ ""
  ∧ prop index incoming = Some (signed_json (signRetention hmac builds secret)).
Proof.
  intros <- <- Hne Hv. cbn [sign_builds]. intros Hs.
  apply ibind_Returns in Hs as (sa & w1 & Ha & Hs).
  destruct (match v with JNull => true | _ => false end); [discriminate|].
  apply ibind_Returns in Hs as (sb & w2 & _ & Hs). rewrite !String.eqb_refl in Hs.
  rewrite !(proj2 (String.eqb_neq _ _)) in Hs by congruence. injection Hs as <- <- _.
  destruct (String.eqb_spec (g_build a) (g_build b)) as [|_]; [done|]. apply read_secret_nonempty in Ha.
  set (rb := match prior_record hmac v (g_build b) sb with Some prior => prior | None => _ end).
  assert (valid_json rb) as Hrb.
  { subst rb. destruct (prior_record _ _ _ _) eqn:Hp; [by eapply prior_record_valid|apply valid_signed]. }
  refine (conj (conj _ _) (conj Ha _)); [| |cbn; by rewrite String.eqb_refl].
  - apply wf_obj. split; [repeat constructor; set_solver|].
    constructor; [apply valid_signed|]. constructor; [apply Hrb|done].
  - cbn. by rewrite (proj2 Hrb).
Qed.

Lemma starts_with_longer p s s' : starts_with p s = true → starts_with p (s +:+ s') = true.
Proof.
  revert s. induction p as [|c p IH]; intros [|d s]; try done. cbn.
  intros [? ?]%andb_true_iff. apply andb_true_iff. auto.
Qed.

(** The host of a retained origin, as the URL parser of the platform reads it. *)
Definition reads_hosts : Prop := ∀ host,
  re_test DNS_1035_LABEL_RE host = true → starts_with "xn--" host = false →
  parse_url ("http://" +:+ host +:+ ":3000") = Some (mkUrl "http:" "" "" "/" "" "").

Lemma with_deadline_sound t r :
  reads_hosts → sound_build r → starts_with "http://xn--" (text_field (g_fields r) "origin") = false →
  0 ≤ t ≤ 9007199254740991 →
  valid_json (with_deadline t r) ∧ retained_ok parse_url (with_deadline t r) = true
  ∧ jget (Some (with_deadline t r)) "buildId" = Some (JStr (g_build r)).
Proof.
  intros Hurl (Hv & Hok & Hid & pool & Ho) Hx Ht.
  assert (safe_integer t = true) as Hsafe by (unfold safe_integer; lia).
  unfold with_deadline, retained_ok. rewrite validate_set_prop, Hok by auto. cbn [jget].
  split_and!.
  - apply valid_set_prop; [done|]. split; [done|by apply canonical_int].
  - unfold plain_origin, expires_at. cbn [jget]. rewrite !prop_set_prop, Ho. cbn [String.eqb].
    unfold text_field in Hx. rewrite Ho in Hx. change (text_of _) with (build_origin releaseName pool (g_build r)).
    unfold build_origin in *. rewrite Hurl; [cbn; by rewrite Hsafe|by apply sanitize_is_label|].
    destruct (starts_with "xn--" _) eqn:Hh; [|done]. rewrite <- Hx. symmetry. exact (starts_with_longer _ _ _ Hh).
  - by rewrite prop_set_prop.
Qed.

Lemma register_index incoming outgoing a b w p w' :
  g_build a = incoming → g_build b = outgoing → incoming ≠ outgoing →
  register sha256_hex hmac decode_base64 releaseName namespace incoming outgoing a b w = (Returns p, w') →
  ∃ t w1 index, clock (W := W) w = (Returns t, w1)
    ∧ r_builds p = [a; b] ∧ r_json p = stringify (JObj index) ∧ valid_json (JObj index) ∧ r_secret p ≠ ""
    ∧ Resp.size (Resp.utf8 (r_json p)) ≤ RETENTION_MAX_BYTES
    ∧ prop index incoming
      = Some (signed_json (signRetention hmac (map (with_deadline (t + PREPARATION_MS)) [a; b]) (r_secret p))).
Proof.
  intros Ha Hb Hne. unfold register. intros Hr. run_back.
  match goal with E : sign_builds _ _ _ _ _ _ _ _ _ _ _ _ _ = _ |- _ => apply sign_builds_sound in E as (Hv & Hs & Hp) end;
    [|done..|by eapply json_parse_valid].
  match goal with E : clock w = (Returns ?t, ?w1) |- _ => exists t, w1, l end.
  refine (conj _ (conj eq_refl (conj eq_refl (conj Hv (conj Hs (conj _ Hp)))))); [done|].
  match goal with E : (RETENTION_MAX_BYTES <? _) = false |- _ => exact (proj1 (Z.ltb_ge _ _) E) end.
Qed.

(** A record of two valid builds is accepted by the reader of the first one. *)
Lemma signed_pair_verified index buildId other secret a b :
  (∀ key text, re_test SIGNATURE_RE (hmac key text) = true) → buildId ≠ other →
  valid_json (JObj index) → Resp.size (Resp.utf8 (stringify (JObj index))) ≤ RETENTION_MAX_BYTES →
  prop index buildId = Some (signed_json (signRetention hmac [a; b] secret)) →
  valid_json a → retained_ok parse_url a = true → jget (Some a) "buildId" = Some (JStr buildId) →
  valid_json b → retained_ok parse_url b = true → jget (Some b) "buildId" = Some (JStr other) →
  verified hmac parse_url buildId secret (Some (stringify (JObj index))) = [a; b].
Proof.
  intros Hmac Hne Hv Hsize Hp Va Oa Ia Vb Ob Ib. unfold verified.
  rewrite (proj2 (Z.ltb_ge _ _) Hsize), parse_valid by done.
  change (jget (Some (JObj index)) buildId) with (prop index buildId). rewrite Hp.
  set (s := signRetention hmac [a; b] secret).
  change (jget (Some (signed_json s)) "payload") with (Some (JStr (stringify (JArr [a; b])))).
  change (jget (Some (signed_json s)) "signature")
    with (Some (JStr (record_signature hmac (stringify (JArr [a; b])) secret))).
  cbv zeta iota beta. rewrite String.eqb_refl.
  replace (re_test SIGNATURE_RE _) with true by (symmetry; apply Hmac). cbn [negb orb].
  rewrite parse_valid by (apply valid_arr; auto using Forall_cons_2, Forall_nil_2).
  rewrite Oa, Ob, Ia, Ib. cbn [List.filter]. unfold is_build. rewrite Ia, Ib. cbn [PlanParse.is_text].
  rewrite String.eqb_refl, (proj2 (String.eqb_neq other buildId)) by congruence. cbn [length andb].
  by rewrite (proj2 (String.eqb_neq buildId other)).
Qed.

(** C17. What a cutover publishes is what the pods read: when prepareRetention returns a registration, the
    reader of the incoming build, holding the secret the record was signed with, accepts the published
    index, and finds in it exactly the two builds, each at its own Service and with the deadline of
    one hour from the preparation. *)
Theorem published_index_accepted incoming outgoing w p w' :
  (∀ key text, re_test SIGNATURE_RE (hmac key text) = true) → reads_hosts →
  (∀ w : W, 0 ≤ (ServiceSelector.now w).1 ≤ 8640000000000000) → incoming ≠ outgoing →
  prepareRetention sha256_hex hmac decode_base64 releaseName namespace incoming (Some outgoing) w
  = (Returns (Some p), w') →
  (∀ r, r ∈ r_builds p → starts_with "http://xn--" (text_field (g_fields r) "origin") = false) →
  ∃ a b t, r_builds p = [a; b] ∧ g_build a = incoming ∧ g_build b = outgoing
    ∧ sound_build a ∧ sound_build b ∧ (∃ w1 : W, t = (ServiceSelector.now w1).1)
    ∧ verified hmac parse_url incoming (r_secret p) (Some (r_json p))
      = [with_deadline (t + PREPARATION_MS) a; with_deadline (t + PREPARATION_MS) b].
Proof.
  intros Hmac Hurl Hclock Hne Hr Hxn. unfold prepareRetention in Hr. run_back. simplify_eq.
  match goal with E : register _ _ _ _ _ _ _ ?a ?b _ = _ |- _ => rename a into ra, b into rb, E into Hr end.
  repeat match goal with E : read_inventory _ _ _ _ _ = (Returns (Some _), _) |- _ =>
    apply read_inventory_sound in E as [? ?] end.
  match goal with E : g_build ra = _ |- _ => rename E into Ha end.
  match goal with E : g_build rb = _ |- _ => rename E into Hb end.
  match goal with E : sound_build ra |- _ => rename E into Sa end.
  match goal with E : sound_build rb |- _ => rename E into Sb end.
  apply register_index in Hr as (t & w1 & index & Ht & Hbs & -> & Hv & Hs & Hsize & Hp); [|done..].
  assert (t = (ServiceSelector.now x7).1) as Hnow.
  { unfold clock, ServiceSelector.sample in Ht. destruct (ServiceSelector.now x7). by injection Ht. }
  assert (0 ≤ t + PREPARATION_MS ≤ 9007199254740991).
  { specialize (Hclock x7). unfold PREPARATION_MS. lia. }
  rewrite Hbs in Hxn.
  destruct (with_deadline_sound (t + PREPARATION_MS) ra) as (Va & Oa & Ia); [done|done|apply Hxn; set_solver|done|].
  destruct (with_deadline_sound (t + PREPARATION_MS) rb) as (Vb & Ob & Ib); [done|done|apply Hxn; set_solver|done|].
  exists ra, rb, t. repeat (split; [eauto|]).
  apply (signed_pair_verified _ _ (g_build rb)); try done; congruence.
Qed.
End Publication.

(** ** The wait for the pods ends *)

Section Propagation.
Context {W : Type} {Hexec : Exec W} {Hsur : ServiceSelector.Surroundings W} (time : W → Z).
Hypothesis now_tells : ∀ w, (ServiceSelector.now w).1 = time w.
Hypothesis now_passes : ∀ w, time w ≤ time (ServiceSelector.now w).2.
Hypothesis sleep_passes : ∀ d w, time w + d ≤ time (ServiceSelector.sleep d w).
Hypothesis exec_passes : ∀ cmd args w, time w ≤ time (execCapture cmd args w).2.
Context (sha256_hex : string → string) (releaseName namespace : string).

(** A computation does not turn the clock back. *)
Definition forward {A} (m : io W string A) : Prop := ∀ w, time w ≤ time (m w).2.

Lemma forward_bind {A B} (m : io W string A) (f : A → io W string B) :
  forward m → (∀ a, forward (f a)) → forward (ibind m f).
Proof.
  intros Hm Hf w. unfold ibind. specialize (Hm w). destruct (m w) as [[a|e] w1]; [|done].
  specialize (Hf a w1). cbn in *. lia.
Qed.

Lemma forward_clock : forward clock.
Proof.
  intros w. unfold clock, ServiceSelector.sample. specialize (now_passes w). by destruct (ServiceSelector.now w).
Qed.

Lemma forward_pods versions digest deadline pods checked ready :
  forward (probe_pods namespace versions digest deadline pods checked ready).
Proof.
  revert checked ready. induction pods as [|pod pods IH]; intros checked ready; cbn [probe_pods]; [intros w; cbn; lia|].
  destruct (checked_pod versions pod) as [[name container]|]; [|apply IH].
  apply forward_bind; [apply forward_clock|]. intros t.
  destruct (deadline <=? t); [intros w; cbn; lia|]. apply forward_bind; [intros w; apply exec_passes|]. auto.
Qed.

Lemma forward_pass versions digest deadline :
  forward (propagation_pass releaseName namespace versions digest deadline).
Proof.
  apply forward_bind; [intros w; apply exec_passes|]. intros result.
  destruct (negb _); [intros w; cbn; lia|].
  destruct (jget (json_parse (stdout result)) "items") as [[]|]; try (intros w; cbn; lia).
  apply forward_bind; [apply forward_pods|]. intros r w. cbn. lia.
Qed.

End Propagation.

(** ** The cleanup parks expired standbys only *)

(** What the cleanup asked of the API server, and the answers of its reads. *)
Inductive api_event := Got (path : string) (answer : json) | Patched (path : string) (operations : list json).

Section CleanupSafety.
Context {W : Type} {Hapi : CleanupApi W} (history : W → list api_event).
Hypothesis get_recorded : ∀ path w, ∃ r w', api_get path w = (r, w') ∧
  history w' = history w ++ match r with Returns v => [Got path v] | Throws _ => [] end.
Hypothesis patch_recorded : ∀ path ops w, ∃ r w', api_patch path ops w = (r, w') ∧
  history w' = history w ++ [Patched path ops].
Context (encodeURIComponent : string → string) (release namespace : string) (now : Z).

Definition items_of (v : json) : list json := match jget (Some v) "items" with Some (JArr l) => l | _ => [] end.

(** What was read before a Deployment is parked: the state, the Services on the build it makes current, no
    autoscaler for the Deployment, a standby of the other build whose marker has expired, and, as the
    last read, the same state again. *)
Definition justified (before : list api_event) (path : string) (ops : list json) : Prop :=
  ∃ first current state build pools servicePools d name marker,
    head before = Some (Got (state_path release namespace) first)
    ∧ last before = Some (Got (state_path release namespace) current)
    ∧ strict_equal (stored_state current) (stored_state first) = true
    ∧ json_parse (text_of (stored_state first)) = Some state
    ∧ jget (Some state) "previousBuildId" = Some (JStr build)
    ∧ strict_equal (jget (Some state) "buildId") (Some (JStr build)) = false
    ∧ pools_of (Some state) build = Some pools
    ∧ pools_of (Some state) (text_of (jget (Some state) "buildId")) = Some servicePools
    ∧ (∃ v, Got ("/api/v1/namespaces/" +:+ namespace +:+ "/services" +:+ release_query encodeURIComponent release) v ∈ before
        ∧ traffic_is_on release (sanitizeK8sName (text_of (jget (Some state) "buildId")) "") servicePools (items_of v) = true)
    ∧ (∃ v, Got ("/apis/autoscaling/v2/namespaces/" +:+ namespace +:+ "/horizontalpodautoscalers?limit=500") v ∈ before
        ∧ ∀ h, h ∈ items_of v → PlanParse.is_text (jget (jget (jget (Some h) "spec") "scaleTargetRef") "name") name = false)
    ∧ (∃ v, Got (deployments_path namespace +:+ release_query encodeURIComponent release) v ∈ before ∧ d ∈ items_of v)
    ∧ name_of d = Some (JStr name)
    ∧ (∃ pool, includes (Some (JArr pools)) pool = true
        ∧ name = sanitizeK8sName (release +:+ "-" +:+ pool +:+ "-" +:+ build) "")
    ∧ (∃ raw, jget (meta d "annotations") RETENTION_EXPIRY_ANNOTATION = Some (JStr raw)
        ∧ parseExpiryMarker (Some raw) = Some marker)
    ∧ m_build marker = build ∧ m_expiresAt marker ≤ now
    ∧ path = deployments_path namespace +:+ "/" +:+ name +:+ "/scale" ∧ ops = park_operations d.

(** Every patch of a sequence of requests is justified by those before it. *)
Definition all_justified (l : list api_event) : Prop :=
  ∀ before path ops after, l = before ++ Patched path ops :: after → justified before path ops.

Lemma all_justified_got l path v : all_justified l → all_justified (l ++ [Got path v]).
Proof.
  intros Hl before p ops after H. destruct after as [|e after _] using rev_ind.
  - by apply app_inj_tail in H as [_ [=]].
  - rewrite app_comm_cons, app_assoc in H. apply app_inj_tail in H as [-> _]. by eapply Hl.
Qed.

Lemma all_justified_patched l path ops :
  all_justified l → justified l path ops → all_justified (l ++ [Patched path ops]).
Proof.
  intros Hl Hj before p o after H. destruct after as [|e after _] using rev_ind.
  - by apply app_inj_tail in H as [-> [= -> ->]].
  - rewrite app_comm_cons, app_assoc in H. apply app_inj_tail in H as [-> _]. by eapply Hl.
Qed.

(** The requests since [h0] satisfy P, and every patch among them is justified. *)
Definition since (h0 : list api_event) (P : list api_event → Prop) (w : W) : Prop :=
  ∃ l, history w = h0 ++ l ∧ all_justified l ∧ P l.

Lemma since_weaken h0 P Q w : (∀ l, P l → Q l) → since h0 P w → since h0 Q w.
Proof. intros H (l & Hl & Hj & HP). exists l. auto. Qed.

Abbreviation done_since h0 := (since h0 (λ _, True)).

Lemma triple_get h0 P path :
  triple (since h0 P) (api_get path)
    (λ v, since h0 (λ l, ∃ l', l = l' ++ [Got path v] ∧ P l')) (λ _, done_since h0).
Proof.
  intros w (l & Hl & Hj & HP). destruct (get_recorded path w) as (r & w' & -> & Hh).
  rewrite Hl in Hh. destruct r as [v|e].
  - exists (l ++ [Got path v]). rewrite app_assoc. split; [done|]. split; [by apply all_justified_got|eauto].
  - rewrite app_nil_r in Hh. by exists l.
Qed.

Lemma triple_patch h0 P path ops :
  (∀ l, P l → justified l path ops) →
  triple (since h0 P) (api_patch path ops)
    (λ _, since h0 (λ l, ∃ l', l = l' ++ [Patched path ops] ∧ P l'))
    (λ _, since h0 (λ l, ∃ l', l = l' ++ [Patched path ops] ∧ P l')).
Proof.
  intros HP w (l & Hl & Hj & Hp). destruct (patch_recorded path ops w) as (r & w' & -> & Hh).
  rewrite Hl in Hh. assert (since h0 (λ l, ∃ l', l = l' ++ [Patched path ops] ∧ P l') w') as H.
  { exists (l ++ [Patched path ops]). rewrite app_assoc. split; [done|].
    split; [by apply all_justified_patched; auto|eauto]. }
  by destruct r.
Qed.
Lemma expired_standby_inv previous pools hpas d name :
  expired_standby release previous pools now hpas d = Some name →
  ∃ raw marker pool, jget (meta d "annotations") RETENTION_EXPIRY_ANNOTATION = Some (JStr raw)
    ∧ parseExpiryMarker (Some raw) = Some marker
    ∧ previous = JStr (m_build marker) ∧ m_expiresAt marker ≤ now
    ∧ includes (Some (JArr pools)) pool = true
    ∧ name_of d = Some (JStr name) ∧ name = sanitizeK8sName (release +:+ "-" +:+ pool +:+ "-" +:+ m_build marker) ""
    ∧ ∀ h, h ∈ hpas → PlanParse.is_text (jget (jget (jget (Some h) "spec") "scaleTargetRef") "name") name = false.
Proof.
  unfold expired_standby.
  destruct (jget (meta d "annotations") RETENTION_EXPIRY_ANNOTATION) as [[| | |raw| |]|]; try done.
  destruct (parseExpiryMarker (Some raw)) as [marker|] eqn:Hm; [|done]. cbn [mbind option_bind].
  destruct (label_of d "app.kubernetes.io/component") as [[| | |pool| |]|]; try done.
  destruct (name_of d) as [[| | |n| |]|]; try done.
  destruct (jget (jget (Some d) "spec") "replicas") as [[| |[]| | |]|]; try done.
  destruct (_ && _) eqn:Hc; [|done]. intros [= ->]. b2p.
  match goal with E : PlanParse.is_text (Some previous) _ = true |- _ => apply is_text_elim in E as [= ->] end.
  match goal with E : (_ =? _)%string = true |- _ => apply String.eqb_eq in E end.
  exists raw, marker, pool. repeat (split; [done|]).
  match goal with E : existsb _ _ = false |- _ => exact (proj1 (existsb_false_In _ _) E) end.
Qed.

(** The reads before the loop. *)
Definition listed (first sv hv dv : json) (l : list api_event) : Prop :=
  head l = Some (Got (state_path release namespace) first)
  ∧ Got ("/api/v1/namespaces/" +:+ namespace +:+ "/services" +:+ release_query encodeURIComponent release) sv ∈ l
  ∧ Got ("/apis/autoscaling/v2/namespaces/" +:+ namespace +:+ "/horizontalpodautoscalers?limit=500") hv ∈ l
  ∧ Got (deployments_path namespace +:+ release_query encodeURIComponent release) dv ∈ l.

Lemma listed_app first sv hv dv l m : listed first sv hv dv l → listed first sv hv dv (l ++ m).
Proof.
  intros (Hh & Hs & Ha & Hd). unfold listed. rewrite !elem_of_app. split; [by destruct l|]. auto.
Qed.

Lemma strict_equal_trans a b : strict_equal a b = true → a = b.
Proof.
  destruct a as [[| | | | |]|], b as [[| | | | |]|]; cbn; try done.
  - intros H. do 2 f_equal. by destruct b, b0.
  - by intros ->%bool_decide_eq_true.
  - by intros ->%String.eqb_eq.
Qed.

Section Loop.
Context (h0 : list api_event) (first sv hv dv state previous : json) (pools servicePools : list json).
Hypothesis Hstate : json_parse (text_of (stored_state first)) = Some state.
Hypothesis Hprevious : jget (Some state) "previousBuildId" = Some previous.
Hypothesis Hdiffers : strict_equal (jget (Some state) "buildId") (Some previous) = false.
Hypothesis Hpools : pools_of (Some state) (text_of (Some previous)) = Some pools.
Hypothesis Hcurrent : pools_of (Some state) (text_of (jget (Some state) "buildId")) = Some servicePools.
Hypothesis Htraffic : traffic_is_on release (sanitizeK8sName (text_of (jget (Some state) "buildId")) "")
  servicePools (items_of sv) = true.

Lemma park_justified d name current l :
  d ∈ items_of dv → expired_standby release previous pools now (items_of hv) d = Some name →
  strict_equal (stored_state current) (stored_state first) = true → listed first sv hv dv l →
  justified (l ++ [Got (state_path release namespace) current])
    (deployments_path namespace +:+ "/" +:+ name +:+ "/scale") (park_operations d).
Proof.
  intros Hd Hexp Hsame Hl.
  apply expired_standby_inv in Hexp as (raw & marker & pool & Hraw & Hm & Hp & Hlate & Hpool & Hn & Hname & Hhpa).
  rewrite Hp in *.
  exists first, current, state, (m_build marker), pools, servicePools, d, name, marker.
  apply (listed_app _ _ _ _ _ [Got (state_path release namespace) current]) in Hl as (Hh & Hs & Ha & Hdep).
  rewrite last_snoc.
  refine (conj Hh (conj eq_refl (conj Hsame (conj Hstate (conj Hprevious (conj Hdiffers (conj Hpools (conj Hcurrent _)))))))).
  split; [by exists sv|]. split; [by exists hv|]. split; [by exists dv|].
  split; [done|]. split; [by exists pool|]. split; [by exists raw|]. done.
Qed.

Lemma park_triple deployments scaled :
  (∀ d, d ∈ deployments → d ∈ items_of dv) →
  triple (since h0 (listed first sv hv dv))
    (park_expired release namespace previous pools now (items_of hv) (stored_state first) deployments scaled)
    (λ _, done_since h0) (λ _, done_since h0).
Proof.
  revert scaled. induction deployments as [|d ds IH]; intros scaled Hds; cbn [park_expired].
  - apply triple_ret. intros w. by apply since_weaken.
  - assert (∀ n, triple (since h0 (listed first sv hv dv)) (park_expired release namespace previous pools now
      (items_of hv) (stored_state first) ds n) (λ _, done_since h0) (λ _, done_since h0)) as Hnext.
    { intros n. apply IH. intros d' Hd'. apply Hds. by right. }
    destruct (expired_standby _ _ _ _ _ d) as [name|] eqn:Hexp; [|apply Hnext].
    eapply triple_bind; [apply triple_get|]. intros current. cbv beta.
    destruct (strict_equal (stored_state current) (stored_state first)) eqn:Hsame;
      [|apply triple_ret; intros w; by apply since_weaken].
    set (path := deployments_path namespace +:+ "/" +:+ name +:+ "/scale").
    assert (∀ w, since h0 (λ l, ∃ l', l = l' ++ [Patched path (park_operations d)]
      ∧ ∃ l'', l' = l'' ++ [Got (state_path release namespace) current] ∧ listed first sv hv dv l'') w
      → since h0 (listed first sv hv dv) w) as Hgo.
    { intros w. apply since_weaken. intros l (l' & -> & l'' & -> & Hl). by do 2 apply listed_app. }
    eapply triple_bind with (R := λ _, since h0 (listed first sv hv dv)); [|intros parked; apply Hnext].
    eapply triple_catch.
    + eapply triple_bind; [apply triple_patch|intros u; apply triple_ret; exact Hgo].
      intros l (l' & -> & Hl). apply park_justified; auto. apply Hds. left.
    + intros [s|]; [destruct (overtaken s)|];
        [apply triple_ret; exact Hgo| |];
        apply triple_throw; intros w Hw; apply Hgo in Hw; by eapply since_weaken; [|exact Hw].
Qed.
End Loop.

Lemma triple_keep {A} h0 P (m : outcome string A) :
  triple (since h0 P) (checked (W := W) m) (λ _, since h0 P) (λ _, done_since h0).
Proof. destruct m; [by apply triple_ret|apply triple_throw; intros w; by apply since_weaken]. Qed.

Lemma triple_list h0 P path :
  triple (since h0 P) (list_objects path)
    (λ items, since h0 (λ l, ∃ l' v, l = l' ++ [Got path v] ∧ items = items_of v ∧ P l')) (λ _, done_since h0).
Proof.
  eapply triple_bind; [apply triple_get|]. intros v. cbv beta.
  destruct (jget (Some v) "items") as [[| | | |items|]|] eqn:Hi;
    try (apply triple_throw; intros w; by apply since_weaken).
  destruct (match _ with Some _ => _ | None => _ end).
  - apply triple_throw. intros w. by apply since_weaken.
  - apply triple_ret. intros w. apply since_weaken. intros l (l' & -> & Hl). exists l', v.
    unfold items_of. by rewrite Hi.
Qed.

(** From the state on. *)
Lemma cleanup_body h0 first :
  triple (since h0 (λ l, l = [Got (state_path release namespace) first]))
    (let stateRaw := stored_state first in
     match json_parse (match stateRaw with None | Some JNull => "null" | v => text_of v end) with
     | None => throw CleanupError
     | Some state =>
         let buildId := jget (Some state) "buildId" in
         let previous := jget (Some state) "previousBuildId" in
         if negb (match previous with Some v => PlanParse.truthy v | None => false end)
            || strict_equal buildId previous
         then ret 0
         else
           do! _ := checked (assertSafeBuildId (text_of buildId)) in
           do! _ := checked (assertSafeBuildId (text_of previous)) in
           match pools_of (Some state) (text_of buildId), pools_of (Some state) (text_of previous) with
           | Some currentPools, Some previousPools =>
               do! _ := checked (checked_pools (currentPools ++ previousPools)) in
               do! deployments := list_objects (deployments_path namespace
                                                +:+ release_query encodeURIComponent release) in
               do! services := list_objects ("/api/v1/namespaces/" +:+ namespace +:+ "/services"
                                             +:+ release_query encodeURIComponent release) in
               do! hpas := list_objects ("/apis/autoscaling/v2/namespaces/" +:+ namespace
                                         +:+ "/horizontalpodautoscalers?limit=500") in
               if traffic_is_on release (sanitizeK8sName (text_of buildId) "") currentPools services
               then park_expired release namespace (default JNull previous) previousPools now hpas
                      stateRaw deployments 0
               else ret 0
           | _, _ => ret 0
           end
     end : io W api_error Z)
    (λ _, done_since h0) (λ _, done_since h0).
Proof.
  assert (∀ P, triple (W := W) (E := api_error) (since h0 P) (ret 0) (λ _, done_since h0) (λ _, done_since h0)) as Hstop.
  { intros P. apply triple_ret. intros w. by apply since_weaken. }
  cbv zeta. destruct (json_parse _) as [state|] eqn:Hs; [|apply triple_throw; intros w; by apply since_weaken].
  destruct (jget (Some state) "previousBuildId") as [previous|] eqn:Hp; [|apply Hstop].
  destruct (negb _ || _) eqn:Hd; [apply Hstop|]. apply orb_false_iff in Hd as [_ Hd].
  assert (json_parse (text_of (stored_state first)) = Some state) as Hstate.
  { destruct (stored_state first) as [[]|]; try exact Hs. injection Hs as <-. discriminate Hp. }
  eapply triple_bind; [apply triple_keep|]. intros ?. eapply triple_bind; [apply triple_keep|]. intros ?.
  destruct (pools_of (Some state) (text_of (jget (Some state) "buildId"))) as [current|] eqn:Hc; [|apply Hstop].
  destruct (pools_of (Some state) (text_of (Some previous))) as [pools|] eqn:Hq; [|apply Hstop].
  eapply triple_bind; [apply triple_keep|]. intros ?.
  eapply triple_bind; [apply triple_list|]. intros deployments.
  eapply triple_bind; [apply triple_list|]. intros services.
  eapply triple_bind; [apply triple_list|]. intros hpas. cbv beta.
  destruct (traffic_is_on _ _ _ _) eqn:Ht; [|apply Hstop].
  intros w (l & Hl & Hj & lh & hv & -> & -> & ls & sv & -> & -> & ld & dv & -> & -> & ->).
  refine (park_triple h0 first sv hv dv state previous pools current Hstate Hp Hd Hq Hc Ht
    (items_of dv) 0 (λ d H, H) w _).
  eexists. split; [exact Hl|]. split; [exact Hj|]. unfold listed. split; [done|].
  rewrite !elem_of_app, !list_elem_of_singleton. auto 10.
Qed.

(** C22. The cleanup parks nothing but expired standbys: however the API server answers, each patch it sends
    scales a Deployment to zero, with preconditions on its identity and version, that was listed with
    the expired marker of the previous build, under the name of one of that build's pools, while no
    listed autoscaler targets it, every Service of the current build was seen on the current build,
    and the state, read again right before the patch, is still the one the cleanup started from. *)
Theorem cleanup_parks_expired w r w' :
  cleanupExpiredRetention encodeURIComponent release namespace now w = (r, w') →
  ∃ l, history w' = history w ++ l ∧ all_justified l.
Proof.
  intros Hr. set (h0 := history w).
  assert (triple (since h0 (λ l, l = [])) (cleanupExpiredRetention encodeURIComponent release namespace now)
            (λ _, done_since h0) (λ _, done_since h0)) as Ht.
  { unfold cleanupExpiredRetention.
    eapply triple_bind; [apply triple_keep|]. intros ?.
    eapply triple_bind; [apply triple_keep|]. intros ?.
    eapply triple_bind with (R := λ o, since h0 (λ l,
      match o with Some first => l = [Got (state_path release namespace) first] | None => True end)).
    { eapply triple_catch with (R := λ _, done_since h0).
      - eapply triple_bind; [apply triple_get|]. intros v. apply triple_ret. intros w1. apply since_weaken.
        by intros l (l' & -> & ->).
      - intros e. repeat case_match; by first [apply triple_ret | apply triple_throw]. }
    intros [first|]; [exact (cleanup_body h0 first)|apply triple_ret; intros w1; by apply since_weaken]. }
  assert (since h0 (λ l, l = []) w) as H0.
  { exists []. rewrite app_nil_r. split; [done|]. split; [|done]. intros [] ? ? ? [=]. }
  apply (triple_run _ _ _ _ _ _ _ Ht H0) in Hr. by destruct r, Hr as (l & ? & ? & _); exists l.
Qed.
End CleanupSafety.

(** ** A release with two builds *)

Fixpoint repeated (n : nat) (c : ascii) : string :=
  match n with O => EmptyString | S n => String c (repeated n c) end.

(** A digest that depends on the lengths of its arguments. *)
Definition sample_hmac (key text : string) : string :=
  repeated 64 (hex_digit ((7 * String.length key + String.length text) mod 16)).

Lemma sample_hmac_signature key text : re_test SIGNATURE_RE (sample_hmac key text) = true.
Proof.
  unfold sample_hmac. generalize (7 * String.length key + String.length text)%nat. intros n.
  pose proof (Nat.mod_upper_bound n 16 ltac:(lia)) as Hn. revert Hn. generalize (n mod 16)%nat. clear n. intros n Hn.
  do 16 (destruct n as [|n]; [vm_compute; reflexivity|]). lia.
Qed.

(** A parser of http origins. *)
Definition sample_url (text : string) : option url :=
  if starts_with "http://" text then Some (mkUrl "http:" "" "" "/" "" "") else None.

Lemma sample_reads_hosts : reads_hosts sample_url.
Proof. intros host _ _. reflexivity. Qed.

Definition sample_inventory (buildId deployment : string) : json :=
  JObj [("buildId", JStr buildId); ("deploymentId", JStr deployment); ("defaultPool", JStr "web");
        ("pools", JArr [JStr "web"]); ("gracePeriodSeconds", JNum (NInt 600));
        ("assets", JArr [JStr ("/_next/static/immutable/" +:+ buildId +:+ ".js")]); ("actions", JArr [])].

(** kubectl, with the objects of the release and a pod that has the index. *)
Definition sample_object (kind name : string) : string :=
  let named data := stringify (JObj [("metadata", JObj [("name", JStr name);
    ("labels", JObj [(StablePools.NAME, JStr "shop")])]); ("data", JObj data)]) in
  let holds b := match retentionName (sample_hmac "k") "shop" (Some b) with
                 | Returns n => String.eqb n name | _ => false end in
  let inventory b d := let text := stringify (sample_inventory b d) in
    named [("inventory.json", JStr text); ("signature", JStr (inventorySignature sample_hmac text "s3cret"))] in
  if String.eqb kind "secret" then named [(INTERNAL_SECRET_KEY, JStr "s3cret")]
  else if holds "build-10" then inventory "build-10" "dpl-10"
  else if holds "build-9" then inventory "build-9" "dpl-9"
  else "".

Definition sample_pods : string :=
  stringify (JObj [("items", JArr [JObj
    [("metadata", JObj [("name", JStr "shop-web-1"); ("labels", JObj [("app.kubernetes.io/version", JStr "build-10")])]);
     ("spec", JObj [("containers", JArr [JObj [("name", JStr "pool-server")]])]);
     ("status", JObj [("conditions", JArr [JObj [("type", JStr "Ready"); ("status", JStr "True")]])])]])]).

#[local] Instance sample_kubectl : Exec Z := {|
  execCapture cmd args w :=
    (Returns (mkResult 0 (match args with
                          | ["get"; "pods"; _; _; _; _; _; _] => sample_pods
                          | "get" :: kind :: name :: _ => sample_object kind name
                          | _ => ""
                          end) "" false), w);
  execCaptureStdin cmd args text w := (Returns (mkResult 0 "" "" false), w)
|}.

(** A clock of the range of dates. *)
#[local] Instance sample_dates : ServiceSelector.Surroundings Z := {|
  ServiceSelector.now w := (Z.max 0 (Z.min 8640000000000000 w), w);
  ServiceSelector.sleep d w := w + d;
  ServiceSelector.randomUUID w := ("3f0c", w);
  ServiceSelector.discover project neg := ret [];
  ServiceSelector.healthy project ref neg := ret []
|}.

Definition sample_registration : outcome string (option prepared) * Z :=
  prepareRetention (sample_hmac "k") sample_hmac (λ s, s) "shop" "default" "build-10" (Some "build-9") 1000.

Definition sample_prepared : prepared :=
  match sample_registration.1 with Returns (Some p) => p | _ => mkPrepared "" "" [] [] "" "" end.

Lemma published_index_accepted_witness :
  ∃ a b t, r_builds sample_prepared = [a; b] ∧ g_build a = "build-10" ∧ g_build b = "build-9"
    ∧ sound_build "shop" a ∧ sound_build "shop" b ∧ (∃ w1 : Z, t = (ServiceSelector.now w1).1)
    ∧ verified sample_hmac sample_url "build-10" (r_secret sample_prepared) (Some (r_json sample_prepared))
      = [with_deadline (t + PREPARATION_MS) a; with_deadline (t + PREPARATION_MS) b].
Proof.
  apply (published_index_accepted (sample_hmac "k") sample_hmac (λ s, s) sample_url "shop" "default"
           "build-10" "build-9" 1000 sample_prepared sample_registration.2).
  - apply sample_hmac_signature.
  - apply sample_reads_hosts.
  - intros w. cbn. lia.
  - discriminate.
  - vm_compute. reflexivity.
  - apply Forall_forall. apply (bool_decide_unpack _). vm_compute. exact I.
Defined.

(** A request for an asset of the outgoing build, while its deadline has not passed. *)
Definition sample_call : call :=
  mkCall (Some (r_json sample_prepared)) 2000 2005 2006
    (mkRequest "/_next/static/immutable/build-9.js" None "GET" None None).

Definition sample_answers : list (option json) :=
  answers sample_hmac sample_url "build-10" "s3cret" new_reader [sample_call].

Definition sample_answer : json := match sample_answers with [Some b] => b | _ => JNull end.

Lemma retained_answers_vouched_witness :
  is_build "build-9" sample_answer = true
  ∧ ∃ k' own t, k' ∈ [sample_call]
    ∧ (k' = sample_call ∨ arrived sample_call < refreshed k' + 250)
    ∧ vouches sample_hmac sample_url "build-10" "s3cret" (file k') own sample_answer
    ∧ is_build "build-10" sample_answer = false
    ∧ expires_at sample_answer = Some t ∧ chosen sample_call < t ∧ hinted (asked sample_call) own = false
    ∧ lists_resource (asked sample_call) sample_answer.
Proof.
  split; [vm_compute; reflexivity|].
  apply (retained_answers_vouched sample_hmac sample_url "build-10" "s3cret" [sample_call] 0 sample_call sample_answer);
    [reflexivity|vm_compute; reflexivity].
Defined.

(** A clock that nothing bounds. *)
#[local] Instance sample_clock : ServiceSelector.Surroundings Z := {|
  ServiceSelector.now w := (w, w);
  ServiceSelector.sleep d w := w + d;
  ServiceSelector.randomUUID w := ("3f0c", w);
  ServiceSelector.discover project neg := ret [];
  ServiceSelector.healthy project ref neg := ret []
|}.


(** An API server with one expired standby, and what it was asked. *)
Definition sample_state : json :=
  JObj [("data", JObj [("state.json", JStr (stringify (JObj
    [("buildId", JStr "v2"); ("previousBuildId", JStr "v1");
     ("poolTopologies", JObj [("v2", JArr [JStr "web"]); ("v1", JArr [JStr "web"])])])))])].

Definition sample_standby : json :=
  JObj [("metadata", JObj
          [("name", JStr "shop-web-v1"); ("uid", JStr "u1"); ("resourceVersion", JStr "7");
           ("labels", JObj [("app.kubernetes.io/name", JStr "shop"); ("app.kubernetes.io/version", JStr "v1");
                            ("app.kubernetes.io/component", JStr "web")]);
           ("annotations", JObj [(RETENTION_EXPIRY_ANNOTATION,
              JStr (stringify (JObj [("buildId", JStr "v1"); ("expiresAt", JNum (NInt 100))])))])]);
        ("spec", JObj [("replicas", JNum (NInt 1))])].

Definition sample_service : json :=
  JObj [("metadata", JObj [("name", JStr "shop-web")]);
        ("spec", JObj [("selector", JObj [("app.kubernetes.io/version", JStr "v2")])])].

Definition listing (l : list json) : json := JObj [("metadata", JObj []); ("items", JArr l)].

Definition sample_answer_to (path : string) : json :=
  if String.eqb path (state_path "shop" "default") then sample_state
  else if starts_with (deployments_path "default") path then listing [sample_standby]
  else if starts_with "/api/v1/namespaces/default/services" path then listing [sample_service]
  else listing [].

#[local] Instance sample_server : CleanupApi (list api_event) := {|
  api_get path w := (Returns (sample_answer_to path), w ++ [Got path (sample_answer_to path)]);
  api_patch path ops w := (Returns tt, w ++ [Patched path ops])
|}.

Definition sample_cleanup (now : Z) : outcome api_error Z * list api_event :=
  cleanupExpiredRetention (λ s, s) "shop" "default" now [].

(** At the deadline the standby is parked; before it, nothing is. *)
Lemma cleanup_parks_expired_witness :
  (sample_cleanup 99).1 = Returns 0 ∧ (sample_cleanup 100).1 = Returns 1
  ∧ ∃ l, (sample_cleanup 100).2 = [] ++ l ∧ all_justified (λ s, s) "shop" "default" 100 l.
Proof.
  split; [vm_compute; reflexivity|]. split; [vm_compute; reflexivity|].
  apply (cleanup_parks_expired (λ w : list api_event, w)) with (w := []) (r := (sample_cleanup 100).1).
  - intros path w. by eexists _, _.
  - intros path ops w. by eexists _, _.
  - apply surjective_pairing.
Defined.

End RetentionFacts.
