(* ===== verification/Cutover.v ===== *)
(** * The cutover and the rollback (src/src/cutover/run.ts)

    The order of a promotion: the gates, the state read once more, the retention prepared, the traffic
    switched, the state committed, and what follows; and the order of a rollback.  The machine is the
    [host] of the deploy state: its disk and the cluster its commands reach.  The readiness of a
    composition plan and the CDN's invalidation are collaborators, as is the routing edge.  Messages
    are left out. *)
From Stdlib Require Import Ascii String.
From S2P Require Import Prelude JsString Json JsonParse K8sNames PlanParse Effects CacheControl DeployState.
From S2P Require Import ServiceSelector Traffic ReleaseNames Gc Gates Retention PrepareRetention.
Import K8sNames DeployState ServiceSelector Traffic ReleaseNames.
Local Open Scope stdpp_scope.
Local Open Scope js_scope.
Local Open Scope Z_scope.

Module Cutover.

(** A command runs against the cluster of the host. *)
#[global] Instance host_exec {C} `{!Exec C} : Exec (host C) := {
  execCapture command args := remote (execCapture command args);
  execCaptureStdin command args text := remote (execCaptureStdin command args text)
}.

Class RunCollaborators (W : Type) := {
  waitForCompositionPlanReadiness : json → io W string unit;
  invalidateCdnBuildTag : option string → option json → io W string unit
}.

Record LoadedCompositionPlan := mkLoaded { digest : string; targetFingerprint : json; loaded_plan : json }.

Record CutoverInputs := mkInputs {
  skipCleanup : bool; clusterOnly : bool;
  releaseName : string; namespace : string; buildId : string; previousBuildId : option string;
  pools : list string; previousPools : list string; defaultPool : string;
  hasPortableOrigin : bool; hasRoutingTier : bool; hasHealthCheckPolicy : bool;
  previousReplicasByPool : Gates.counts;
  state : option AdapterState;
  compositionSnapshot : option LoadedCompositionPlan;
  routingServiceDigest : option string;
  builtTargetPlatform : json;
  unretainedManifestBuild : option string;
  projectId : option string;
  hasRouteExtJob : bool; hasEnvoyExtensionPolicy : bool; cdnEnabled : bool
}.

(** ** What is committed *)

Definition truthy_text (v : option string) : option string :=
  match v with Some (String _ _ as s) => Some s | _ => None end.

(** state?.[field]?.[build], when it is truthy. *)
Definition recorded (state : option AdapterState) (field build : string) : option json :=
  v ← jget (jget (JObj <$> state) field) build;
  if PlanParse.truthy v then Some v else None.

(** The value recorded for the outgoing build, then the one of the new build. *)
Definition carried (i : CutoverInputs) (field : string) (own : option json) : obj :=
  let previous := match truthy_text (previousBuildId i) with
                  | Some p => match recorded (state i) field p with Some v => [(p, v)] | None => [] end
                  | None => []
                  end in
  match own with Some v => set_prop previous (buildId i) v | None => previous end.

Definition when_any (key : string) (fields : obj) : obj :=
  match fields with [] => [] | _ => [(key, JObj fields)] end.

Definition strings (l : list string) : json := JArr (map JStr l).

Definition recordable (i : CutoverInputs) : option string :=
  match previousPools i with [] => None | _ => truthy_text (previousBuildId i) end.

Definition pool_topologies (i : CutoverInputs) : obj :=
  set_prop (match recordable i with Some p => [(p, strings (previousPools i))] | None => [] end)
    (buildId i) (strings (pools i)).

(** v ?? w *)
Definition nullish (v : option json) (w : json) : json := match v with None | Some JNull => w | Some v => v end.

Definition truthy_field (s : option AdapterState) (key : string) : bool :=
  match jget (JObj <$> s) key with Some v => PlanParse.truthy v | None => false end.

Definition default_pools (i : CutoverInputs) : obj :=
  if hasPortableOrigin i || truthy_field (state i) "defaultPools" then
    [("defaultPools", JObj (set_prop
       (match recordable i with
        | Some p => [(p, nullish (jget (jget (JObj <$> state i) "defaultPools") p)
                           (JStr (default "" (head (previousPools i)))))]
        | None => []
        end) (buildId i) (JStr (defaultPool i))))]
  else [].

Definition unretained (i : CutoverInputs) : list string :=
  let previous := match jget (JObj <$> state i) "unretainedManifestBuilds" with
                  | Some (JArr l) => flat_map (λ v, match v with
                      | JStr b => if bool_decide (Some b = previousBuildId i) then [b] else []
                      | _ => []
                      end) l
                  | _ => []
                  end in
  js_set (previous ++ match truthy_text (unretainedManifestBuild i) with Some b => [b] | None => [] end).

Definition committed_state (sha256_hex : string → string) (i : CutoverInputs) : obj :=
  [("buildId", JStr (buildId i));
   ("previousBuildId", match previousBuildId i with Some p => JStr p | None => JNull end);
   ("cdnTags", JObj (carried i "cdnTags" (Some (JStr (CachePolicy.cdnTagForBuildId sha256_hex (buildId i))))))]
  ++ when_any "routingImageDigests" (carried i "routingImageDigests" (JStr <$> truthy_text (routingServiceDigest i)))
  ++ [("poolTopologies", JObj (pool_topologies i))]
  ++ default_pools i
  ++ [("targetPlatforms", JObj (carried i "targetPlatforms" (Some (builtTargetPlatform i))))]
  ++ when_any "compositionPlans" (carried i "compositionPlans"
       ((λ c, JObj [("digest", JStr (digest c)); ("targetFingerprint", targetFingerprint c)])
        <$> compositionSnapshot i))
  ++ [("readinessPathSupported", JBool true)]
  ++ match unretained i with [] => [] | l => [("unretainedManifestBuilds", strings l)] end.

(** state?.generation ?? null, where null is [None]. *)
Definition based_on (s : option AdapterState) : option json :=
  match jget (JObj <$> s) "generation" with Some JNull => None | v => v end.

Definition same_generation (a b : AdapterState) : bool :=
  Retention.strict_equal (Some (nullish (prop a "generation") (JNum (NInt 0))))
    (Some (nullish (prop b "generation") (JNum (NInt 0)))).

(** The committed state is not the one the cutover started from. *)
Definition changed (expected latest : option AdapterState) : bool :=
  match expected, latest with
  | Some s, Some l => negb (bool_decide (buildId_of l = buildId_of s)) || negb (same_generation l s)
  | Some _, None => true
  | None, l => match l with Some _ => true | None => false end
  end.

Section Run.
Context {C : Type} `{!Exec C} `{!Surroundings (host C)} `{!Collaborators (host C)} `{!RunCollaborators (host C)}.
Context (isIP : string → Z) (sha256_hex : string → string) (hmac : string → string → string).
Context (decode_base64 : string → string) (toISOString : Z → string).

Abbreviation cutover := (io (host C) cutover_error).

Definition restore_edge : cutover unit := plainly restoreEdgeToPreviousBuild.

(** try { m } catch (e) { cleanup; throw e } *)
Definition cleaning {A} (m : cutover A) (cleanup : cutover unit) : cutover A :=
  catch m (λ e, do! _ := cleanup in throw e).

Definition context (i : CutoverInputs) : Gates.GateContext :=
  Gates.mkContext (releaseName i) (namespace i) (buildId i) (sanitizeK8sName (buildId i) "")
    (previousBuildId i) Gates.poolRolloutWaitBudget.

Definition when (b : bool) (m : cutover unit) : cutover unit := if b then m else ret tt.

(** D1-D5: what must hold of the new build before it is warmed up. *)
Definition readiness_gates (i : CutoverInputs) : cutover unit :=
  let ctx := context i in
  do! _ := Gates.waitPoolRollouts ctx in
  do! _ := when (hasRoutingTier i) (Gates.waitRoutingRollout ctx) in
  do! _ := when (hasRouteExtJob i)
             (Gates.waitRouteExtJob ctx (routeExtJobName sha256_hex (releaseName i) (buildId i))) in
  do! _ := when (hasEnvoyExtensionPolicy i) (Gates.waitPolicyAccepted ctx) in
  match compositionSnapshot i with
  | Some c =>
      catch (plainly (waitForCompositionPlanReadiness (loaded_plan c)))
        (λ _, do! _ := restore_edge in throw (PlainError "Composition-plan readiness failed"))
  | None => ret tt
  end.

Definition restore_hpas (i : CutoverInputs) (hpas : list Gates.warmed) : io (host C) string unit :=
  Gates.restoreWarmedHpas (namespace i) hpas.

(** The state read at the last moment before traffic moves. *)
Definition read_again (i : CutoverInputs) : io (host C) (option state_error) unit :=
  do! latest := catch (readState (Some (releaseName i)) false (clusterOnly i) (Some (namespace i)))
                      (λ e, throw (Some e)) in
  if changed (state i) latest then throw None else ret tt.

Definition revalidate (i : CutoverInputs) (hpas : list Gates.warmed) : cutover unit :=
  catch (read_again i) (λ e,
    match e, state i, truthy_text (previousBuildId i) with
    | Some e, None, Some _ =>
        if is_unavailable e then ret tt
        else do! _ := restore_edge in do! _ := plainly (restore_hpas i hpas) in
             throw (PlainError "Committed deploy state could not be revalidated")
    | _, _, _ =>
        do! _ := restore_edge in do! _ := plainly (restore_hpas i hpas) in
        throw (PlainError "Committed deploy state could not be revalidated")
    end).

(** Everything before the switch; the autoscalers under temporary bounds, and the retention. *)
Definition prepare (i : CutoverInputs) : cutover (list Gates.warmed * option PrepareRetention.prepared) :=
  let ctx := context i in
  do! _ := cleaning (plainly (Retention.protectRetentionBuild (releaseName i) (namespace i) (buildId i) (pools i)))
             restore_edge in
  do! _ := readiness_gates i in
  do! warm := Gates.warmUpHpas ctx (pools i) (previousReplicasByPool i) in
  let '(capacityTargets, hpas) := warm in
  do! _ := Gates.waitReadyCapacity ctx capacityTargets (restore_hpas i hpas) in
  do! _ := revalidate i hpas in
  do! retainPrevious := cleaning
    (plainly (PrepareRetention.prepareRetention sha256_hex hmac decode_base64 (releaseName i) (namespace i)
                (buildId i) (previousBuildId i)))
    (do! _ := restore_edge in plainly (restore_hpas i hpas)) in
  ret (hpas, retainPrevious).

Definition switch (i : CutoverInputs) (hpas : list Gates.warmed) : cutover unit :=
  switchTrafficToNewBuild isIP (releaseName i) (namespace i) (projectId i) (restore_hpas i hpas)
    (sanitizeK8sName (buildId i) "") (previousBuildId i) (pools i) (hasPortableOrigin i) (defaultPool i).

(** The commit of the promoted build. *)
Definition commit (i : CutoverInputs) (hpas : list Gates.warmed) : cutover unit :=
  do! t := sample ServiceSelector.now in
  catch (writeState (toISOString t) (committed_state sha256_hex i) (based_on (state i)) (Some (releaseName i))
           (Some (namespace i)) (clusterOnly i))
    (λ _, do! _ := plainly (restore_hpas i hpas) in throw (CutoverExitError 1)).

Definition complete (r n : string) (retained : option PrepareRetention.prepared) : cutover unit :=
  match retained with
  | Some p => plainly (PrepareRetention.complete sha256_hex hmac r n p)
  | None => ret tt
  end.

Definition standby_replicas (retained : option PrepareRetention.prepared) : Z :=
  match retained with Some _ => 1 | None => 0 end.

Definition gc_plan (i : CutoverInputs) : Gc.plan :=
  Gc.mkPlan (releaseName i) (namespace i) (buildId i) (previousBuildId i) (pools i) (previousPools i)
    (hasPortableOrigin i) (hasHealthCheckPolicy i).

(** What follows the commit. *)
Definition finish (i : CutoverInputs) (hpas : list Gates.warmed) (retained : option PrepareRetention.prepared)
    : cutover unit :=
  do! _ := plainly (restore_hpas i hpas) in
  do! _ := complete (releaseName i) (namespace i) retained in
  do! _ := when (negb (match compositionSnapshot i with Some _ => true | None => false end) && cdnEnabled i
                 && match truthy_text (projectId i) with Some _ => true | None => false end)
             (plainly (Gc.ignore (invalidateCdnBuildTag (previousBuildId i)
                (match truthy_text (previousBuildId i) with
                 | Some p => jget (jget (JObj <$> state i) "cdnTags") p
                 | None => None
                 end)))) in
  if skipCleanup i then ret tt
  else
    do! _ := plainly (Gc.scaleDownPreviousBuild (releaseName i) (namespace i) (buildId i) (previousBuildId i)
                        (previousPools i) (standby_replicas retained)) in
    plainly (Gc.gcSupersededResources sha256_hex (gc_plan i)).

Definition runCutover (i : CutoverInputs) : cutover unit :=
  do! ready := prepare i in
  let '(hpas, retained) := ready in
  do! _ := switch i hpas in
  do! _ := commit i hpas in
  finish i hpas retained.

(** ** The rollback *)

Record RevertInputs := mkRevertInputs {
  rv_skipCleanup : bool; rv_release : string; rv_namespace : string;
  currentBuildId : string; rv_previous : string;
  poolNames : list string; currentPoolNames : list string;
  previousDeploys : list Gc.PoolDeploy; currentDeploys : list Gc.PoolDeploy;
  scalingByPool : list (string * Gc.scaling); rv_state : AdapterState;
  targetComposition : option LoadedCompositionPlan; registry : option string;
  rv_project : option string; rv_cdnEnabled : bool
}.

Definition scaling_of (i : RevertInputs) (pool : string) : Gc.scaling :=
  default (Gc.mkScaling 1 3 80) (look (scalingByPool i) pool).

(** Scale every previous Deployment up; the capacity planned for each pool. *)
Fixpoint scale_up_previous (i : RevertInputs) (deploys : list Gc.PoolDeploy)
    (capacityByPool : list (string * Gc.capacity)) : cutover (list (string * Gc.capacity)) :=
  match deploys with
  | [] => ret capacityByPool
  | d :: deploys =>
      do! live := plainly (Gc.readLiveCapacity (rv_release i) (Gc.d_pool d) (currentBuildId i) (rv_namespace i)) in
      let plan := Gc.planRollbackCapacity live.1 (scaling_of i (Gc.d_pool d)) in
      do! _ := plainly (execOrThrow "kubectl" (Gc.scale_args (Gc.d_name d) (rv_namespace i) (Gc.replicas plan))) in
      scale_up_previous i deploys (assign capacityByPool (Gc.d_pool d) plan)
  end.

Definition autoscale_args (d : Gc.PoolDeploy) (namespace : string) (plan : Gc.capacity) (s : Gc.scaling) : list string :=
  ["autoscale"; "deployment"; Gc.d_name d; "-n"; namespace; "--name=" +:+ Gc.d_hpa d;
   "--min=" +:+ z_text (Gc.c_min plan); "--max=" +:+ z_text (Gc.c_max plan);
   "--cpu=" +:+ z_text (Gc.targetCPU s) +:+ "%"].

Definition autoscale_previous (i : RevertInputs) (capacityByPool : list (string * Gc.capacity))
    (d : Gc.PoolDeploy) : cutover unit :=
  let s := scaling_of i (Gc.d_pool d) in
  let plan := default (Gc.mkCapacity Gc.ROLLBACK_MIN_REPLICAS (Gc.s_min s) (Gc.s_max s))
                (look capacityByPool (Gc.d_pool d)) in
  do! hpa := Gates.kubectl ["get"; "hpa"; Gc.d_hpa d; "-n"; rv_namespace i; "--ignore-not-found"; "-o"; "name"] in
  if is_empty (trim (stdout hpa))
  then plainly (execOrThrow "kubectl" (autoscale_args d (rv_namespace i) plan s))
  else
    do! _ := Gates.kubectl (Gates.patch_hpa_args (Gc.d_hpa d) (rv_namespace i) (Gc.c_min plan) (Gc.c_max plan)) in
    ret tt.

(** The rollback target, ready to receive traffic. *)
Definition warm_previous (i : RevertInputs) : cutover unit :=
  do! _ := plainly (Retention.protectRetentionBuild (rv_release i) (rv_namespace i) (rv_previous i) (poolNames i)) in
  do! capacityByPool := scale_up_previous i (previousDeploys i) [] in
  do! _ := Gates.each (autoscale_previous i capacityByPool) (previousDeploys i) in
  do! _ := Gates.each (λ d, plainly (execOrThrow "kubectl"
             (Gates.rollout_args (Gc.d_name d) (rv_namespace i) "--timeout=120s"))) (previousDeploys i) in
  do! _ := Gates.waitPreviousBuildServing (rv_release i) (rv_namespace i) (sanitizeK8sName (rv_previous i) "")
             (previousDeploys i) in
  match targetComposition i with
  | Some c => plainly (waitForCompositionPlanReadiness (loaded_plan c))
  | None => ret tt
  end.

(** The state still names the two builds, at the generation the rollback started from. *)
Definition still_current (i : RevertInputs) (latest : option AdapterState) : bool :=
  match latest with
  | Some l => bool_decide (buildId_of l = Some (currentBuildId i))
              && bool_decide (previous_of l = Some (rv_previous i))
              && same_generation l (rv_state i)
  | None => false
  end.

Definition check_current (i : RevertInputs) : cutover unit :=
  do! latest := catch (readState (Some (rv_release i)) false false (Some (rv_namespace i)))
                      (λ _, throw (PlainError "Deploy state unavailable")) in
  if still_current i latest then ret tt else throw (PlainError "Committed deploy state changed").

Definition in_play_entries (i : RevertInputs) (key : string) : obj :=
  match prop (rv_state i) key with
  | Some (JObj fs) =>
      [(key, JObj (List.filter (λ f, bool_decide (f.1 ∈ [currentBuildId i; rv_previous i])) fs))]
  | _ => []
  end.

(** The state with the two builds exchanged. *)
Definition reverted_state (i : RevertInputs) : obj :=
  let durable := without (without (without (rv_state i) "generation") "updatedAt") "readinessPathSupported" in
  foldl (λ fs f, set_prop fs f.1 f.2) durable
    ([("buildId", JStr (rv_previous i)); ("previousBuildId", JStr (currentBuildId i));
      ("poolTopologies", JObj (set_prop [(rv_previous i, strings (poolNames i))] (currentBuildId i)
                                 (strings (currentPoolNames i))))]
     ++ in_play_entries i "defaultPools" ++ in_play_entries i "targetPlatforms").

Definition commit_revert (i : RevertInputs) : cutover unit :=
  do! t := sample ServiceSelector.now in
  catch (writeState (toISOString t) (reverted_state i) (based_on (Some (rv_state i))) (Some (rv_release i))
           (Some (rv_namespace i)) false)
    (λ _, throw (CutoverExitError 1)).

Definition finish_revert (i : RevertInputs) (retained : option PrepareRetention.prepared) : cutover unit :=
  do! _ := complete (rv_release i) (rv_namespace i) retained in
  do! _ := when (rv_cdnEnabled i && match truthy_text (rv_project i) with Some _ => true | None => false end)
             (plainly (Gc.ignore (invalidateCdnBuildTag (Some (currentBuildId i))
                (jget (prop (rv_state i) "cdnTags") (currentBuildId i))))) in
  if rv_skipCleanup i then ret tt
  else plainly (Gc.scaleDownCurrentBuild (rv_namespace i) (currentDeploys i) (standby_replicas retained)).

Definition runRevert (i : RevertInputs) : cutover unit :=
  do! _ := warm_previous i in
  do! plan := snapshotRevertSelectors (rv_release i) (rv_namespace i) (poolNames i) (currentPoolNames i)
                (rv_previous i) (parse_selector (prop (rv_state i) "defaultPools")) in
  do! _ := check_current i in
  do! retainCurrent := plainly (PrepareRetention.prepareRetention sha256_hex hmac decode_base64 (rv_release i)
                         (rv_namespace i) (rv_previous i) (Some (currentBuildId i))) in
  do! _ := plainly (lift (assertSafeBuildId (rv_previous i))) in
  do! _ := plainly (lift (match truthy_text (registry i) with Some r => assertSafeImageRegistry r | None => accept end)) in
  do! _ := plainly (revertRoutingServiceToBuild (rv_previous i)) in
  do! _ := flipSelectorsToPreviousBuild isIP (rv_release i) (rv_namespace i) (rv_project i) (currentBuildId i)
             (sanitizeK8sName (rv_previous i) "") plan in
  do! _ := commit_revert i in
  finish_revert i retainCurrent.
End Run.

End Cutover.
