(* ===== verification/Commands.v ===== *)
(** * What the commands of a program touch

    The objects a command can change, by its arguments, and programs that run only commands of given
    kinds: such a program keeps every property of the surroundings that these commands keep.  The
    rules are structural, and [walk] applies them to a program's text. *)
From Stdlib Require Import String.
From S2P Require Import Prelude JsString Json JsonParse Effects DeployState ServiceSelector Traffic Cutover.
Import DeployState ServiceSelector Traffic Cutover.
Local Open Scope stdpp_scope.
Local Open Scope js_scope.

Module Commands.

(** ** Programs under laws *)

(** A program keeps every invariant that satisfies the laws. *)
Definition under {W E A} (laws : (W → Prop) → Prop) (m : io W E A) : Prop :=
  ∀ I, laws I → invariant I m.

Section Under.
Context {W : Type} (laws : (W → Prop) → Prop).

Lemma under_weaken {E A} (laws' : (W → Prop) → Prop) (m : io W E A) :
  under laws' m → (∀ I, laws I → laws' I) → under laws m.
Proof. intros Hm Hl I HI. by apply Hm, Hl. Qed.

Lemma under_ret {E A} (a : A) : under (E := E) laws (ret a).
Proof. intros I _. apply invariant_ret. Qed.

Lemma under_throw {E A} (e : E) : under (A := A) laws (throw e).
Proof. intros I _. apply invariant_throw. Qed.

Lemma under_lift {E A} (m : outcome E A) : under laws (lift m).
Proof. intros I _. apply invariant_lift. Qed.

Lemma under_bind {E A B} (m : io W E A) (f : A → io W E B) :
  under laws m → (∀ a, under laws (f a)) → under laws (ibind m f).
Proof. intros Hm Hf I HI. apply invariant_bind; [by apply Hm|]. intros a. by apply Hf. Qed.

Lemma under_catch {E E' A} (m : io W E' A) (h : E' → io W E A) :
  under laws m → (∀ e, under laws (h e)) → under laws (catch m h).
Proof. intros Hm Hh I HI. apply invariant_catch; [by apply Hm|]. intros e. by apply Hh. Qed.

Lemma under_plainly {A} (m : io W string A) : under laws m → under laws (plainly m).
Proof. intros Hm. apply under_catch; [done|]. intros e. apply under_throw. Qed.

Lemma under_ignore {E A} (m : io W E A) :
  under laws m → under (E := E) laws (catch (do! _ := m in ret tt) (λ _, ret tt)).
Proof.
  intros Hm. apply under_catch; [apply under_bind; [done|]|]; intros; apply under_ret.
Qed.
End Under.

(** ** The objects of a command *)

(** [Routing] is the collaborator that sends the routing edge to a build. *)
Inductive effect := Reads | Workloads | Autoscalers | Pods | Services | Deletes | Routing | Unknown.

#[global] Instance effect_eq_dec : EqDecision effect.
Proof. solve_decision. Defined.

(** What a kubectl command can change: by its verb, and for a patch by the kind of its object. *)
Definition patch_effect (kind : string) : effect :=
  if String.eqb kind "deployment" then Workloads
  else if String.eqb kind "hpa" then Autoscalers
  else if String.eqb kind "pod" then Pods
  else if String.eqb kind "service" then Services
  else Unknown.

Definition effect_of (args : list string) : effect :=
  match args with
  | verb :: rest =>
      if existsb (String.eqb verb) ["get"; "rollout"; "wait"; "exec"; "logs"] then Reads
      else if existsb (String.eqb verb) ["scale"; "autoscale"] then Workloads
      else if String.eqb verb "delete" then Deletes
      else if String.eqb verb "patch" then match rest with kind :: _ => patch_effect kind | [] => Unknown end
      else Unknown
  | [] => Unknown
  end.

(** The invariants that the commands of some kinds keep, and with them the documents sent to kubectl,
    the clock, the disk and the collaborators. *)
Record respects {C} `{!Exec C} `{!Surroundings (host C)} `{!Collaborators (host C)}
    `{!RunCollaborators (host C)} (kinds : list effect) (I : host C → Prop) : Prop := mkRespects {
  on_command : ∀ cmd args, effect_of args ∈ kinds → invariant I (execCapture cmd args);
  on_document : ∀ cmd args text, invariant I (execCaptureStdin cmd args text);
  on_now : ∀ w, I w → I (now w).2;
  on_sleep : ∀ ms w, I w → I (sleep ms w);
  on_random : ∀ w, I w → I (randomUUID w).2;
  on_discover : ∀ project neg, invariant I (discover project neg);
  on_healthy : ∀ project ref neg, invariant I (healthy project ref neg);
  on_disk_change : ∀ w d, I w → I (mkHost d (cluster w));
  on_edge : invariant I restoreEdgeToPreviousBuild;
  on_edge_build : ∀ b, Routing ∈ kinds → invariant I (revertRoutingServiceToBuild b);
  on_readiness : ∀ plan, invariant I (waitForCompositionPlanReadiness plan);
  on_cdn : ∀ build tag, invariant I (invalidateCdnBuildTag build tag)
}.

(** A program that runs only commands of these kinds. *)
Abbreviation issues kinds m := (under (respects kinds) m).

Section Issues.
Context {C : Type} `{!Exec C} `{!Surroundings (host C)} `{!Collaborators (host C)}
  `{!RunCollaborators (host C)}.

Lemma issues_command kinds cmd args : effect_of args ∈ kinds → issues kinds (execCapture cmd args).
Proof. intros Ha I HI. by apply (on_command kinds I HI). Qed.

Lemma issues_or_throw kinds cmd args : effect_of args ∈ kinds → issues kinds (execOrThrow cmd args).
Proof.
  intros Ha. apply under_bind; [by apply issues_command|]. intros r.
  destruct (negb _); [apply under_throw|apply under_ret].
Qed.

Lemma issues_document kinds cmd args text : issues kinds (execCaptureStdin cmd args text).
Proof. intros I HI. by apply (on_document kinds I HI). Qed.

Lemma issues_now {E} kinds : issues kinds (sample (E := E) now).
Proof. intros I HI w Hw. unfold sample. pose proof (on_now kinds I HI w Hw). by destruct (now w). Qed.

Lemma issues_random {E} kinds : issues kinds (sample (E := E) randomUUID).
Proof. intros I HI w Hw. unfold sample. pose proof (on_random kinds I HI w Hw). by destruct (randomUUID w). Qed.

Lemma issues_sleep {E} kinds ms : issues kinds ((λ w, (Returns tt, sleep ms w)) : io (host C) E unit).
Proof. intros I HI w Hw. by apply (on_sleep kinds I HI). Qed.

Lemma issues_discover kinds project neg : issues kinds (discover project neg).
Proof. intros I HI. by apply (on_discover kinds I HI). Qed.

Lemma issues_healthy kinds project ref neg : issues kinds (healthy project ref neg).
Proof. intros I HI. by apply (on_healthy kinds I HI). Qed.

Lemma issues_remote kinds cmd args :
  effect_of args ∈ kinds → issues kinds (remote (execCapture cmd args)).
Proof. apply issues_command. Qed.

Lemma issues_remote_document kinds cmd args text : issues kinds (remote (execCaptureStdin cmd args text)).
Proof. apply issues_document. Qed.

Lemma issues_on_disk {A} kinds (f : disk → outcome state_error A * disk) : issues kinds (on_disk f).
Proof.
  intros I HI w Hw. unfold on_disk. destruct (f (local w)) as [[a|e] d]; by apply (on_disk_change kinds I HI).
Qed.

Lemma issues_edge kinds : issues kinds restoreEdgeToPreviousBuild.
Proof. intros I HI. by apply (on_edge kinds I HI). Qed.

Lemma issues_edge_build kinds b : Routing ∈ kinds → issues kinds (revertRoutingServiceToBuild b).
Proof. intros Hk I HI. by apply (on_edge_build kinds I HI). Qed.

Lemma issues_readiness kinds plan : issues kinds (waitForCompositionPlanReadiness plan).
Proof. intros I HI. by apply (on_readiness kinds I HI). Qed.

Lemma issues_cdn kinds build tag : issues kinds (invalidateCdnBuildTag build tag).
Proof. intros I HI. by apply (on_cdn kinds I HI). Qed.

Lemma issues_more {E A} kinds kinds' (m : io (host C) E A) :
  issues kinds m → forallb (λ k, bool_decide (k ∈ kinds')) kinds = true → issues kinds' m.
Proof.
  intros Hm Hk. rewrite forallb_In in Hk.
  assert (∀ k, k ∈ kinds → k ∈ kinds') as Hsub by (intros k H; by eapply bool_decide_eq_true_1, Hk).
  eapply under_weaken; [exact Hm|]. intros I []. split; auto.
Qed.
End Issues.

End Commands.

Create HintDb issues.
#[export] Hint Resolve Commands.under_ret Commands.under_throw Commands.under_lift Commands.issues_now
  Commands.issues_random Commands.issues_sleep Commands.issues_discover Commands.issues_healthy
  Commands.issues_document Commands.issues_remote_document Commands.issues_on_disk Commands.issues_edge
  Commands.issues_readiness Commands.issues_cdn : issues.

(** A kind that is among those listed. *)
Ltac by_kind := apply (bool_decide_unpack _); reflexivity.

(** One step of a walk over a program's text. *)
Ltac walk_step :=
  first
    [ solve [eauto 2 with issues]
    | lazymatch goal with
      | |- Commands.under _ (plainly _) => apply Commands.under_plainly
      | |- _ (execCapture _ _) => apply Commands.issues_command; by_kind
      | |- _ (remote (execCapture _ _)) => apply Commands.issues_remote; by_kind
      | |- _ (revertRoutingServiceToBuild _) => apply Commands.issues_edge_build; by_kind
      | |- _ (execOrThrow _ _) => apply Commands.issues_or_throw; by_kind
      | |- _ (ibind _ _) => apply Commands.under_bind; [|intros ?]
      | |- _ (catch _ _) => apply Commands.under_catch; [|intros ?]
      | |- _ (match ?x with _ => _ end) => destruct x
      | |- _ (let '_ := ?x in _) => destruct x
      end ].
Ltac walk := repeat (cbv zeta; walk_step).
