(* ===== verification/CutoverCommands.v ===== *)
(** * The commands of the cutover

    For each program of a cutover, the kinds of object its commands can change. *)
From Stdlib Require Import String.
From S2P Require Import Prelude JsString Json JsonParse K8sNames Effects DeployState ServiceSelector Traffic.
From S2P Require Import StablePools ReleaseNames Gc Gates Retention PrepareRetention Cutover Commands.
Import DeployState ServiceSelector Traffic Cutover Commands.
Local Open Scope stdpp_scope.
Local Open Scope js_scope.

Module CutoverCommands.

Section Programs.
Set Default Proof Using "Type".
Context {C : Type} `{!Exec C} `{!Surroundings (host C)} `{!Collaborators (host C)}
  `{!RunCollaborators (host C)}.
Context (isIP : string → Z) (sha256_hex : string → string) (hmac : string → string → string).
Context (decode_base64 : string → string) (toISOString : Z → string).

Abbreviation W := (host C).
Abbreviation quiet := [Reads; Workloads].

(** ** The retention *)

Lemma arm_pools_issues release namespace build expiresAt allowMissing pools :
  issues quiet (Retention.arm_pools (W := W) release namespace build expiresAt allowMissing pools).
Proof. induction pools; cbn [Retention.arm_pools]; walk. Qed.
#[local] Hint Resolve arm_pools_issues : issues.

Lemma set_expiry_issues release namespace build pools expiresAt allowMissing :
  issues quiet (Retention.setRetentionExpiry (W := W) release namespace build pools expiresAt allowMissing).
Proof. unfold Retention.setRetentionExpiry. walk. Qed.
#[local] Hint Resolve set_expiry_issues : issues.

Lemma protect_issues release namespace build pools :
  issues quiet (Retention.protectRetentionBuild (W := W) release namespace build pools).
Proof. unfold Retention.protectRetentionBuild. walk. Qed.
#[local] Hint Resolve protect_issues : issues.

Lemma read_object_issues namespace kind name :
  issues quiet (PrepareRetention.read_object (W := W) namespace kind name).
Proof. unfold PrepareRetention.read_object. walk. Qed.
#[local] Hint Resolve read_object_issues : issues.

Lemma read_inventory_issues release namespace build :
  issues quiet (PrepareRetention.read_inventory (W := W) sha256_hex release namespace build).
Proof. unfold PrepareRetention.read_inventory. walk. Qed.
#[local] Hint Resolve read_inventory_issues : issues.

Lemma read_secret_issues release namespace r :
  issues quiet (PrepareRetention.read_secret (W := W) sha256_hex hmac decode_base64 release namespace r).
Proof. unfold PrepareRetention.read_secret. walk. Qed.
#[local] Hint Resolve read_secret_issues : issues.

Lemma sign_builds_issues release namespace incoming outgoing builds records rs index secret :
  issues quiet (PrepareRetention.sign_builds (W := W) sha256_hex hmac decode_base64 release namespace
                  incoming outgoing builds records rs index secret).
Proof. revert index secret. induction rs; intros; cbn [PrepareRetention.sign_builds]; walk. Qed.
#[local] Hint Resolve sign_builds_issues : issues.

Lemma probe_pods_issues namespace versions digest deadline pods checked ready :
  issues quiet (PrepareRetention.probe_pods (W := W) namespace versions digest deadline pods checked ready).
Proof.
  revert checked ready. induction pods; intros; cbn [PrepareRetention.probe_pods]; unfold PrepareRetention.clock; walk.
Qed.
#[local] Hint Resolve probe_pods_issues : issues.

Lemma propagation_pass_issues release namespace versions digest deadline :
  issues quiet (PrepareRetention.propagation_pass (W := W) release namespace versions digest deadline).
Proof. unfold PrepareRetention.propagation_pass. walk. Qed.
#[local] Hint Resolve propagation_pass_issues : issues.

Lemma propagation_loop_issues pass deadline fuel :
  issues quiet pass → issues quiet (PrepareRetention.propagation_loop (W := W) pass deadline fuel).
Proof.
  intros Hp. induction fuel; cbn [PrepareRetention.propagation_loop];
    unfold PrepareRetention.clock, PrepareRetention.pause; walk.
Qed.
#[local] Hint Resolve propagation_loop_issues : issues.

Lemma wait_for_index_issues release namespace builds document :
  issues quiet (PrepareRetention.waitForIndex (W := W) sha256_hex release namespace builds document).
Proof.
  unfold PrepareRetention.waitForIndex, PrepareRetention.clock, PrepareRetention.pause. walk.
Qed.
#[local] Hint Resolve wait_for_index_issues : issues.

Lemma register_issues release namespace incoming outgoing a b :
  issues quiet (PrepareRetention.register (W := W) sha256_hex hmac decode_base64 release namespace
                  incoming outgoing a b).
Proof. unfold PrepareRetention.register, PrepareRetention.clock. walk. Qed.
#[local] Hint Resolve register_issues : issues.

Lemma prepare_retention_issues release namespace incoming outgoing :
  issues quiet (PrepareRetention.prepareRetention (W := W) sha256_hex hmac decode_base64 release namespace
                  incoming outgoing).
Proof. unfold PrepareRetention.prepareRetention. walk. Qed.
#[local] Hint Resolve prepare_retention_issues : issues.

Lemma complete_issues release namespace retained :
  issues quiet (Cutover.complete sha256_hex hmac release namespace retained).
Proof.
  unfold Cutover.complete, PrepareRetention.complete, PrepareRetention.publish_deadline, Gc.ignore,
    PrepareRetention.clock. walk.
Qed.
#[local] Hint Resolve complete_issues : issues.

(** ** The gates *)

Lemma kubectl_issues kinds args : effect_of args ∈ kinds → issues kinds (Gates.kubectl (W := W) args).
Proof. intros Ha. apply under_plainly, issues_command, Ha. Qed.

Lemma pause_issues kinds ms : issues kinds (Gates.pause (W := W) ms).
Proof. unfold Gates.pause. walk. Qed.
#[local] Hint Resolve pause_issues : issues.

Lemma refuse_issues {A} kinds message : issues kinds (Gates.refuse (W := W) (A := A) message).
Proof. unfold Gates.refuse. walk. Qed.
#[local] Hint Resolve refuse_issues : issues.

Lemma each_issues {A} kinds (f : A → io W cutover_error unit) l :
  (∀ x, issues kinds (f x)) → issues kinds (Gates.each f l).
Proof. intros Hf. induction l; cbn [Gates.each]; walk. Qed.

Ltac gate := repeat (cbv zeta; first
  [ walk_step | apply kubectl_issues; by_kind | apply each_issues; intros ? ]).

Lemma rollouts_issues ctx : issues [Reads] (Gates.waitPoolRollouts (W := W) ctx).
Proof. unfold Gates.waitPoolRollouts. gate. Qed.

Lemma routing_issues ctx : issues [Reads] (Gates.waitRoutingRollout (W := W) ctx).
Proof. unfold Gates.waitRoutingRollout. gate. Qed.

Lemma job_issues ctx job : issues [Reads] (Gates.waitRouteExtJob (W := W) ctx job).
Proof. unfold Gates.waitRouteExtJob. gate. Qed.

Lemma policy_issues ctx : issues [Reads] (Gates.waitPolicyAccepted (W := W) ctx).
Proof.
  unfold Gates.waitPolicyAccepted. apply under_bind; [|intros; gate]. generalize 30%nat "". intros n.
  induction n; intros; cbn [Gates.poll_policy]; gate.
Qed.
#[local] Hint Resolve rollouts_issues routing_issues job_issues policy_issues : issues.

Lemma gates_issues i : issues [Reads] (readiness_gates sha256_hex i).
Proof. unfold readiness_gates, Cutover.when, restore_edge. gate. Qed.

Lemma restore_hpas_issues namespace hpas : issues [Autoscalers] (Gates.restoreWarmedHpas (W := W) namespace hpas).
Proof.
  unfold Gates.restoreWarmedHpas. generalize (@nil string). induction hpas as [|h hpas IH]; intros l;
    cbn [Gates.restore_warmed]; [walk|]. destruct (bool_decide _); [apply IH|].
  apply under_bind; [|intros; apply IH]. generalize 3%nat. intros n.
  induction n; cbn [Gates.restore_attempts]; walk.
Qed.

#[local] Hint Resolve restore_hpas_issues : issues.

(** A program of fewer kinds. *)
Ltac fewer H := eapply issues_more; [apply H|reflexivity].

Lemma restore_issues kinds namespace hpas :
  Autoscalers ∈ kinds → issues kinds (Gates.restoreWarmedHpas (W := W) namespace hpas).
Proof.
  intros Hk. eapply issues_more; [apply restore_hpas_issues|]. cbn. by rewrite bool_decide_eq_true_2.
Qed.

Lemma abort_issues {A} namespace hpas message :
  issues [Reads; Autoscalers] (Gates.abortWarmupSetup (W := W) (A := A) namespace hpas message).
Proof. unfold Gates.abortWarmupSetup. gate. apply restore_issues; by_kind. Qed.
#[local] Hint Resolve abort_issues : issues.

Lemma warm_pools_issues ctx previous pools hpas :
  issues [Reads; Autoscalers] (Gates.warm_pools (W := W) ctx previous pools hpas).
Proof. revert hpas. induction pools; intros; cbn [Gates.warm_pools]; gate. Qed.

Lemma scale_up_issues ctx targets pool : issues quiet (Gates.scale_up (W := W) ctx targets pool).
Proof. unfold Gates.scale_up. gate. Qed.

Lemma warm_up_issues ctx pools previous :
  issues [Reads; Workloads; Autoscalers] (Gates.warmUpHpas (W := W) ctx pools previous).
Proof.
  unfold Gates.warmUpHpas. cbv zeta. apply under_bind; [fewer warm_pools_issues|]. intros hpas.
  apply under_bind; [|intros; walk]. apply each_issues. intros pool. fewer scale_up_issues.
Qed.

Lemma await_capacity_issues ctx targets attempts :
  issues [Reads] (Gates.await_capacity (W := W) ctx targets attempts).
Proof. induction attempts; cbn [Gates.await_capacity]; gate. Qed.
#[local] Hint Resolve await_capacity_issues : issues.

Lemma diagnose_issues ctx : issues [Reads] (Gates.diagnose (W := W) ctx).
Proof. unfold Gates.diagnose, Gates.diagnose_pod. gate. Qed.

Lemma ready_capacity_issues ctx targets namespace hpas :
  issues [Reads; Autoscalers]
    (Gates.waitReadyCapacity (W := W) ctx targets (Gates.restoreWarmedHpas namespace hpas)).
Proof.
  unfold Gates.waitReadyCapacity. apply under_bind; [fewer await_capacity_issues|]. intros ok.
  destruct ok; [walk|]. gate; [apply restore_issues; by_kind|fewer diagnose_issues].
Qed.

Lemma read_state_issues release localOnly clusterOnly namespace :
  issues [Reads] (readState (C := C) release localOnly clusterOnly namespace).
Proof.
  unfold readState, readClusterState, get_state_map. walk.
Qed.
#[local] Hint Resolve read_state_issues : issues.

Lemma revalidate_issues i hpas : issues [Reads; Autoscalers] (revalidate i hpas).
Proof.
  unfold revalidate, restore_edge, restore_hpas. apply under_catch.
  - unfold read_again. apply under_bind; [|intros; walk]. apply under_catch; [fewer read_state_issues|].
    intros; walk.
  - intros e. walk; apply restore_issues; by_kind.
Qed.

Lemma prepare_issues i :
  issues [Reads; Workloads; Autoscalers] (prepare sha256_hex hmac decode_base64 i).
Proof.
  unfold prepare, cleaning, restore_edge, restore_hpas. cbv zeta. apply under_bind.
  { apply under_catch; [|intros; walk]. apply under_plainly. fewer protect_issues. }
  intros _. apply under_bind; [fewer gates_issues|]. intros _. apply under_bind; [apply warm_up_issues|].
  intros [targets hpas]. apply under_bind; [fewer ready_capacity_issues|]. intros _.
  apply under_bind; [fewer revalidate_issues|]. intros _. apply under_bind; [|intros; walk].
  apply under_catch; [apply under_plainly; fewer prepare_retention_issues|]. intros e. walk.
  apply restore_issues; by_kind.
Qed.

(** ** The switch *)

Abbreviation moving := [Reads; Pods; Services].

Lemma replace_issues namespace service from to extra :
  issues moving (replace (W := W) namespace service from to extra).
Proof. unfold replace, patch_service_args. walk. Qed.
#[local] Hint Resolve replace_issues : issues.

Lemma list_pods_issues namespace service selector :
  issues moving (list_pods (W := W) namespace service selector).
Proof. unfold list_pods. walk. Qed.
#[local] Hint Resolve list_pods_issues : issues.

Lemma cleanup_issues namespace path pods : issues moving (cleanup (W := W) namespace path pods).
Proof. induction pods; cbn [cleanup]; unfold unlabel_pod, patch_pod_args; walk. Qed.
#[local] Hint Resolve cleanup_issues : issues.

Lemma all_healthy_issues project neg incoming refs :
  issues moving (all_healthy (W := W) project neg incoming refs).
Proof. induction refs; cbn [all_healthy]; walk. Qed.
#[local] Hint Resolve all_healthy_issues : issues.

Lemma warm_pass_issues namespace service project neg path overlap next clear incoming labelled refs since :
  issues moving (warm_pass (W := W) namespace service project neg path overlap next clear incoming labelled
                   refs since).
Proof. unfold warm_pass. walk. Qed.
#[local] Hint Resolve warm_pass_issues : issues.

Lemma warm_loop_issues pass service deadline fuel since :
  (∀ t, issues moving (pass t)) → issues moving (warm_loop (W := W) pass service deadline fuel since).
Proof.
  intros Hp. revert since. induction fuel; intros; cbn [warm_loop]; walk.
Qed.

Lemma label_pods_issues namespace path done pods :
  issues moving (label_pods (W := W) isIP namespace path done pods).
Proof.
  revert done. induction pods; intros; cbn [label_pods]; unfold during_try, patch_pod_args; walk.
Qed.
#[local] Hint Resolve label_pods_issues : issues.

Lemma overlap_issues namespace service original next annots project key path recovery clear :
  issues moving (overlap_cutover (W := W) isIP namespace service original next annots project key path
                   recovery clear).
Proof.
  unfold overlap_cutover, during_try. walk. apply warm_loop_issues. intros. walk.
Qed.
#[local] Hint Resolve overlap_issues : issues.

Lemma restore_overlap_issues namespace service original next overlap clear :
  issues moving (restore_overlap (W := W) namespace service original next overlap clear).
Proof. unfold restore_overlap, get_service_args, patch_service_args. walk. Qed.
#[local] Hint Resolve restore_overlap_issues : issues.

Lemma replace_selector_issues namespace service original next annots project :
  issues moving (replaceServiceSelector (W := W) isIP namespace service original next annots project).
Proof. unfold replaceServiceSelector. walk. Qed.
#[local] Hint Resolve replace_selector_issues : issues.

Lemma patch_services_issues release namespace project s version log ds :
  issues moving (patch_services (W := W) isIP release namespace project s version log ds).
Proof. revert log. induction ds; intros; cbn [patch_services]; unfold swap; walk. Qed.
#[local] Hint Resolve patch_services_issues : issues.

Lemma restore_services_issues namespace project s patched :
  issues moving (restore_services (W := W) isIP namespace project s patched).
Proof. induction patched; cbn [restore_services]; unfold swap; walk. Qed.
#[local] Hint Resolve restore_services_issues : issues.

Lemma snapshot_services_issues release namespace expected s ds :
  issues [Reads] (snapshot_services (W := W) release namespace expected s ds).
Proof. revert s. induction ds; intros; cbn [snapshot_services]; unfold get_service_args; walk. Qed.

Lemma switch_issues i hpas : issues [Reads; Autoscalers; Pods; Services] (switch isIP i hpas).
Proof.
  unfold switch, switchTrafficToNewBuild. cbv zeta. apply under_bind; [fewer snapshot_services_issues|].
  intros s. apply under_bind.
  { destruct (_ =? 0)%nat; [fewer patch_services_issues|walk]. }
  intros [patched failed]. destruct (0 <? _)%nat; [|walk].
  apply under_bind; [fewer restore_services_issues|]. intros _. walk. apply restore_issues; by_kind.
Qed.

(** ** The commit and what follows *)

Lemma write_state_issues t body based release namespace clusterOnly :
  issues [Reads] (writeState (C := C) t body based release namespace clusterOnly).
Proof.
  unfold writeState, read_existing, readClusterStateForWrite, writeClusterState, currentResourceVersion,
    get_state_map. walk.
Qed.
#[local] Hint Resolve write_state_issues : issues.

Lemma commit_issues i hpas : issues [Reads; Autoscalers] (commit sha256_hex toISOString i hpas).
Proof.
  unfold commit. apply under_bind; [walk|]. intros t. apply under_catch; [fewer write_state_issues|].
  intros e. walk. apply restore_issues; by_kind.
Qed.

Abbreviation tidying := [Reads; Workloads; Deletes].

Lemma park_issues release namespace build replicas pools :
  issues tidying (Gc.park_pools (W := W) release namespace build replicas pools).
Proof.
  induction pools; cbn [Gc.park_pools]; unfold Gc.scale_args, StablePools.delete_args; walk.
Qed.
#[local] Hint Resolve park_issues : issues.

Lemma scale_down_issues release namespace build previous pools replicas :
  issues tidying (Gc.scaleDownPreviousBuild (W := W) release namespace build previous pools replicas).
Proof. unfold Gc.scaleDownPreviousBuild. walk. Qed.

Lemma each_plain_issues {A} kinds (f : A → io W string unit) l :
  (∀ x, issues kinds (f x)) → issues kinds (Gc.each f l).
Proof. intros Hf. induction l; cbn [Gc.each]; walk. Qed.

Lemma companion_issues kind name namespace release pool build service :
  issues tidying (Gc.deleteOwnedVersionedCompanion (W := W) kind name namespace release pool build service).
Proof.
  unfold Gc.deleteOwnedVersionedCompanion, StablePools.get_object_args, StablePools.delete_args.
  apply under_ignore. walk.
Qed.
#[local] Hint Resolve companion_issues : issues.

Lemma collect_deployment_issues p d : issues tidying (Gc.collect_deployment (W := W) p d).
Proof. unfold Gc.collect_deployment, Gc.delete_plain_args. walk. Qed.
#[local] Hint Resolve collect_deployment_issues : issues.

Lemma sweep_issues p resource kind component keep :
  issues tidying (Gc.sweep (W := W) p resource kind component keep).
Proof.
  unfold Gc.sweep, Gc.list_names_args, Gc.sweep_one, Gc.delete_plain_args. walk.
  apply each_plain_issues. intros x. walk.
Qed.
#[local] Hint Resolve sweep_issues : issues.

Lemma list_kinds_issues release namespace keep kinds found :
  issues tidying (StablePools.list_kinds (W := W) release namespace keep kinds found).
Proof.
  revert found. induction kinds; intros; cbn [StablePools.list_kinds];
    unfold StablePools.list_retained_args; walk.
Qed.
#[local] Hint Resolve list_kinds_issues : issues.

Lemma delete_bucket_issues namespace failed l result :
  issues tidying (StablePools.delete_bucket (W := W) namespace failed l result).
Proof.
  revert failed result. induction l; intros; cbn [StablePools.delete_bucket];
    unfold StablePools.delete_args; walk.
Qed.
#[local] Hint Resolve delete_bucket_issues : issues.

Lemma delete_buckets_issues namespace b result :
  issues tidying (StablePools.delete_buckets (W := W) namespace b result).
Proof. revert result. induction b; intros; cbn [StablePools.delete_buckets]; walk. Qed.
#[local] Hint Resolve delete_buckets_issues : issues.

Lemma stable_cleanup_issues release keep namespace crd :
  issues tidying (StablePools.cleanupRetainedStablePoolResources (W := W) release keep namespace crd).
Proof. unfold StablePools.cleanupRetainedStablePoolResources. walk. Qed.
#[local] Hint Resolve stable_cleanup_issues : issues.

Lemma collection_issues p : issues tidying (Gc.gcSupersededResources (W := W) sha256_hex p).
Proof.
  unfold Gc.gcSupersededResources, Gc.collect_deployments, Gc.list_deployments_args, Gc.collect_configmaps,
    Gc.collect_inventories, Gc.list_inventories_args, Gc.collect_secrets, Gc.ignore, Gc.delete_plain_args.
  walk.
  - apply each_plain_issues. intros. walk.
  - apply each_plain_issues. intros. walk.
Qed.

Lemma finish_issues i hpas retained :
  issues [Reads; Workloads; Autoscalers; Deletes] (finish sha256_hex hmac i hpas retained).
Proof.
  unfold finish, Cutover.when, restore_hpas, Gc.ignore.
  apply under_bind; [apply under_plainly, restore_issues; by_kind|]. intros _.
  apply under_bind; [fewer complete_issues|]. intros _. apply under_bind; [walk|]. intros _.
  destruct (skipCleanup i); [walk|]. apply under_bind; [|intros _]; apply under_plainly.
  - fewer scale_down_issues.
  - fewer collection_issues.
Qed.

(** ** The rollback *)

Lemma scale_up_previous_issues i deploys caps :
  issues quiet (scale_up_previous (C := C) i deploys caps).
Proof.
  revert caps. induction deploys; intros; cbn [scale_up_previous]; unfold Gc.readLiveCapacity, Gc.scale_args,
    Gc.get_path_args; walk.
Qed.

Lemma autoscale_previous_issues i caps d :
  issues [Reads; Workloads; Autoscalers] (autoscale_previous (C := C) i caps d).
Proof. unfold autoscale_previous, autoscale_args, Gates.patch_hpa_args. gate. Qed.

Lemma any_answers_issues namespace pods : issues [Reads] (Gates.any_answers (W := W) namespace pods).
Proof. induction pods; cbn [Gates.any_answers]; unfold Gates.exec_node_args; gate. Qed.
#[local] Hint Resolve any_answers_issues : issues.

Lemma all_serving_issues namespace pods deploys :
  issues [Reads] (Gates.all_serving (W := W) namespace pods deploys).
Proof. induction deploys; cbn [Gates.all_serving]; gate. Qed.
#[local] Hint Resolve all_serving_issues : issues.

Lemma serving_issues release namespace build deploys :
  issues [Reads] (Gates.waitPreviousBuildServing (W := W) release namespace build deploys).
Proof.
  unfold Gates.waitPreviousBuildServing. apply under_bind; [|intros; gate].
  generalize Gates.maxServeAttempts. intros n. induction n; cbn [Gates.await_serving];
    unfold Gates.list_build_args; gate.
Qed.

Lemma warm_previous_issues i : issues [Reads; Workloads; Autoscalers] (warm_previous (C := C) i).
Proof.
  unfold warm_previous. apply under_bind; [apply under_plainly; fewer protect_issues|]. intros _.
  apply under_bind; [fewer scale_up_previous_issues|]. intros caps.
  apply under_bind; [apply each_issues; intros; apply autoscale_previous_issues|]. intros _.
  apply under_bind; [apply each_issues; intros; unfold Gates.rollout_args; walk|]. intros _.
  apply under_bind; [fewer serving_issues|]. intros _. walk.
Qed.

Lemma snapshot_revert_issues release namespace s ds :
  issues [Reads] (snapshot_revert (W := W) release namespace s ds).
Proof. revert s. induction ds; intros; cbn [snapshot_revert]; unfold get_service_args; walk. Qed.
#[local] Hint Resolve snapshot_revert_issues : issues.

Lemma revert_snapshot_issues release namespace pools current previous defaults :
  issues [Reads] (snapshotRevertSelectors (W := W) release namespace pools current previous defaults).
Proof. unfold snapshotRevertSelectors. walk. Qed.

Lemma check_current_issues i : issues [Reads] (check_current (C := C) i).
Proof. unfold check_current. walk. Qed.

Lemma flip_issues release namespace project current previous plan :
  issues (Routing :: moving)
    (flipSelectorsToPreviousBuild (W := W) isIP release namespace project current previous plan).
Proof.
  unfold flipSelectorsToPreviousBuild. cbv zeta. apply under_bind; [fewer patch_services_issues|].
  intros [patched failed]. destruct (0 <? _)%nat; [|walk].
  apply under_bind; [fewer restore_services_issues|]. intros _. walk.
Qed.

Lemma commit_revert_issues i : issues [Reads] (commit_revert (C := C) toISOString i).
Proof. unfold commit_revert. walk. Qed.

Lemma finish_revert_issues i retained : issues tidying (finish_revert sha256_hex hmac i retained).
Proof.
  unfold finish_revert, Cutover.when, Gc.ignore, Gc.scaleDownCurrentBuild, Gc.scale_args, StablePools.delete_args.
  apply under_bind; [fewer complete_issues|]. intros _. walk. apply each_plain_issues. intros. walk.
Qed.

End Programs.
End CutoverCommands.
