(* ===== verification/Site.v ===== *)
(** * A site

    A concrete machine for the theorems about whole runs: the Services of [TrafficFacts.cluster], the
    deploy state of [DeployStateFacts.server], autoscalers with their bounds, the side the routing
    edge is on, scripted answers for every other command, and the commands that were run. *)
From Stdlib Require Import Ascii String Decimal DecimalString DecimalZ.
From S2P Require Import Prelude JsString Json JsonParse K8sNames Effects DeployState DeployStateFacts.
From S2P Require Import ServiceSelector Traffic TrafficFacts StablePools ReleaseNames Gc Gates Cutover.
From S2P Require Import Commands.
Import DeployStateFacts TrafficFacts DeployState ReleaseNames ServiceSelector Traffic Cutover Commands.
Local Open Scope stdpp_scope.
Local Open Scope js_scope.
Local Open Scope Z_scope.

Module Site.

Record site := mkSite {
  shop : TrafficFacts.cluster;
  store : server;
  scalers : list (string * (Z * Z));
  on_previous : bool;
  ran : list (list string * ExecCaptureResult);
  script : list (list string * (Z * string))
}.

Definition with_shop (s : site) c := mkSite c (store s) (scalers s) (on_previous s) (ran s) (script s).
Definition with_store (s : site) c := mkSite (shop s) c (scalers s) (on_previous s) (ran s) (script s).
Definition with_scalers (s : site) l := mkSite (shop s) (store s) l (on_previous s) (ran s) (script s).
Definition with_edge (s : site) b := mkSite (shop s) (store s) (scalers s) b (ran s) (script s).
Definition with_ran (s : site) l := mkSite (shop s) (store s) (scalers s) (on_previous s) l (script s).

(** The read of an autoscaler's bounds. *)
Definition bounds_args (name : string) : list string :=
  Gc.get_path_args "hpa" name "default" "{.metadata.name}|{.spec.minReplicas}|{.spec.maxReplicas}".

Definition bounds_text (name : string) (b : Z * Z) : string :=
  name +:+ "|" +:+ z_text b.1 +:+ "|" +:+ z_text b.2.

(** The integer a text denotes, of any size. *)
Definition z_of_text (s : string) : option Z := Z.of_int <$> NilZero.int_of_string s.

Lemma z_of_text_of n : z_of_text (z_text n) = Some n.
Proof.
  unfold z_of_text, z_text. destruct (to_int_not_nil n). rewrite NilZero.isi by done. cbn.
  by rewrite DecimalZ.of_to.
Qed.

(** The bounds of a patch: the numbers after its second and its third colon. *)
Definition patched_bounds (text : string) : option (Z * Z) :=
  let after c s := default "" (cut_first c s).2 in
  let min := after ":"%char (after ":"%char text) in
  lo ← z_of_text (cut_first ","%char min).1;
  hi ← z_of_text (cut_first "}"%char (after ":"%char min)).1;
  Some (lo, hi).

Fixpoint scripted (l : list (list string * (Z * string))) (args : list string) : Z * string :=
  match l with
  | [] => (0, "")
  | (a, x) :: l => if bool_decide (a = args) then x else scripted l args
  end.

Definition answer (args : list string) (s : site) : outcome string ExecCaptureResult * site :=
  if bool_decide (effect_of args = Services) || bool_decide (args = get_service_args "default" (nth 2 args ""))
  then let '(r, c) := execCapture "kubectl" args (shop s) in (r, with_shop s c)
  else if bool_decide (args = STATE_GET_ARGS sample_map "default")
  then let '(r, c) := execCapture "kubectl" args (store s) in (r, with_store s c)
  else if bool_decide (effect_of args = Autoscalers)
  then
    match patched_bounds (List.last args "") with
    | Some b => (answers 0 "", with_scalers s (assign (scalers s) (nth 2 args "") b))
    | None => (answers 1 "", s)
    end
  else if bool_decide (args = bounds_args (nth 2 args ""))
  then
    match look (scalers s) (nth 2 args "") with
    | Some b =>
        let out := bounds_text (nth 2 args "") b in
        (if bool_decide (Gates.read_bounds out = Some b) then answers 0 out else answers 1 "", s)
    | None => (answers 0 "", s)
    end
  else (let '(code, out) := scripted (script s) args in answers code out, s).

#[global] Instance site_exec : Exec site := {
  execCapture cmd args s :=
    let '(r, s') := answer args s in
    (r, with_ran s' (ran s' ++ match r with Returns x => [(args, x)] | Throws _ => [] end));
  execCaptureStdin cmd args text s :=
    if bool_decide (args ∈ [["create"; "-n"; "default"; "-f"; "-"]; ["replace"; "-n"; "default"; "-f"; "-"]])
    then let '(r, c) := execCaptureStdin cmd args text (store s) in (r, with_store s c)
    else (answers 0 "", s)
}.

Definition on_site {A} (f : TrafficFacts.cluster → A * TrafficFacts.cluster) (w : host site) : A * host site :=
  let '(a, c) := f (shop (cluster w)) in (a, mkHost (local w) (with_shop (cluster w) c)).

#[global] Instance site_surroundings : Surroundings (host site) := {
  now := on_site now;
  sleep ms w := (on_site (λ c, (tt, sleep ms c)) w).2;
  randomUUID := on_site randomUUID;
  discover project neg := ret [];
  healthy project ref neg := ret []
}.

#[global] Instance site_collaborators : Collaborators (host site) := {
  restoreEdgeToPreviousBuild w := (Returns tt, mkHost (local w) (with_edge (cluster w) true));
  revertRoutingServiceToBuild b := ret tt
}.

#[global] Instance site_run : RunCollaborators (host site) := {
  waitForCompositionPlanReadiness plan := ret tt;
  invalidateCdnBuildTag build tag := ret tt
}.

Lemma z_text_without n c :
  digit_or_sign c = false → all_chars (λ d, negb (Ascii.eqb d c)) (z_text n) = true.
Proof.
  intros Hc. eapply all_chars_impl; [|apply z_text_chars].
  intros d Hd. apply negb_true_iff, Ascii.eqb_neq. intros ->. by rewrite Hc in Hd.
Qed.

Lemma bounds_patch_text a b :
  Gates.bounds_patch a b
  = ("{" +:+ in_quotes "spec") +:+ String ":" (("{" +:+ in_quotes "minReplicas") +:+ String ":" (z_text a
     +:+ String "," (in_quotes "maxReplicas" +:+ String ":" (z_text b +:+ "}}")))).
Proof.
  unfold Gates.bounds_patch. cbn -[z_text escape_char]. generalize (z_text a) (z_text b). intros s t.
  cbv -[String.append]. cbn [String.append]. rewrite ?append_assoc. cbn [String.append]. reflexivity.
Qed.

Lemma patched_bounds_of a b : patched_bounds (Gates.bounds_patch a b) = Some (a, b).
Proof.
  unfold patched_bounds. cbv beta zeta. rewrite bounds_patch_text, cut_first_app by done. cbn [snd from_option].
  unfold id. rewrite cut_first_app by done. cbn [snd from_option].
  rewrite cut_first_app by (by apply z_text_without). cbn [fst]. rewrite z_of_text_of. cbn [mbind option_bind].
  set (q := in_quotes "maxReplicas"). set (r := String ":" _).
  replace (z_text a +:+ String "," (q +:+ r)) with ((z_text a +:+ String "," q) +:+ r) by apply append_assoc. unfold r.
  rewrite cut_first_app; [|rewrite all_chars_append, z_text_without by done; done]. cbn [snd from_option].
  change "}}" with (String "}" "}"). rewrite cut_first_app by (by apply z_text_without). cbn [fst].
  by rewrite z_of_text_of.
Qed.

Ltac cases := repeat match goal with
  | |- context [match ?x with _ => _ end] => lazymatch x with context [match _ with _ => _ end] => fail | _ => destruct x end
  end.

(** A command of the site always answers. *)
Lemma cluster_returns args (c : TrafficFacts.cluster) : ∃ x c', execCapture "kubectl" args c = (Returns x, c').
Proof. cbn. unfold run_patch, answers. cases; eauto. Qed.

Lemma server_returns args (c : server) : ∃ x c', execCapture "kubectl" args c = (Returns x, c').
Proof. cbn. unfold exits. cases; eauto. Qed.

Lemma answer_returns args s : ∃ x s', answer args s = (Returns x, s').
Proof.
  destruct (cluster_returns args (shop s)) as (x1 & c1 & H1), (server_returns args (store s)) as (x2 & c2 & H2).
  unfold answer. rewrite H1, H2. unfold answers. cases; eauto.
Qed.

(** Only a patch of an autoscaler changes the bounds. *)
Lemma answer_bounds args s : effect_of args ≠ Autoscalers → scalers (answer args s).2 = scalers s.
Proof.
  intros Ha. unfold answer. rewrite (bool_decide_eq_false_2 (effect_of args = Autoscalers)) by done.
  repeat match goal with |- context [match ?x with _ => _ end] => destruct x end; done.
Qed.

Lemma answer_edge args s : on_previous (answer args s).2 = on_previous s.
Proof.
  unfold answer. cases; done.
Qed.

(** A second build of one pool, ready to take the traffic of the first. *)
Definition sample_state : AdapterState :=
  [("buildId", JStr "v1"); ("previousBuildId", JNull); ("generation", JNum (NInt 1));
   ("updatedAt", JStr "t1")].

Definition some_hash (_ : string) : string := "0a1b2c3d4e5f60718293a4b5c6d7e8f90a1b2c3d4e5f60718293a4b5c6d7e8f9".
Definition some_mac (_ _ : string) : string := "aa".
Definition some_text (s : string) : string := s.
Definition some_time (_ : Z) : string := "t2".

Definition sample_inputs : CutoverInputs := {|
  skipCleanup := false; clusterOnly := true; releaseName := "shop"; namespace := "default";
  buildId := "v2"; previousBuildId := Some "v1"; pools := ["web"]; previousPools := ["web"];
  defaultPool := "web"; hasPortableOrigin := false; hasRoutingTier := true; hasHealthCheckPolicy := false;
  previousReplicasByPool := [("web", 3)]; state := Some sample_state; compositionSnapshot := None;
  routingServiceDigest := None; builtTargetPlatform := JStr "linux/amd64"; unretainedManifestBuild := None;
  projectId := None; hasRouteExtJob := true; hasEnvoyExtensionPolicy := false; cdnEnabled := false |}.

Definition newline : string := String "010" "".

Definition sample_script : list (list string * (Z * string)) :=
  let ctx := context sample_inputs in
  [(Gates.list_build_args "deployments" "default"
      "app.kubernetes.io/name=shop,app.kubernetes.io/version=v2" Gates.names_path, (0, "shop-web-v2" +:+ newline));
   (Gc.get_path_args "deployment" (routingServiceDeploymentName "shop") "default"
      "{.metadata.name}|{.spec.replicas}", (0, "shop-routing-service|2"));
   (Gc.get_path_args "deployment" "shop-web-v2" "default" "{.metadata.name}|{.spec.replicas}",
      (0, "shop-web-v2|1"));
   (Gates.list_build_args "pods" "default" (Gates.pods_selector "shop" "v2") Gates.ready_path,
      (0, "web-1|True|web" +:+ newline +:+ "web-2|True|web" +:+ newline +:+ "web-3|True|web"))].

Definition first_state : server := mkServer true (Some (1%nat, stringify (JObj sample_state))).

Definition before : host site :=
  mkHost clean_disk
    (mkSite (mkCluster [("shop-web", selects "web" "v1"); ("shop-routing-service", selects "routing-service" "v1")] 0)
       first_state [("shop-web-v2-hpa", (1, 5))] false [] sample_script).

Definition four (_ : string) : Z := 4.

Definition cutover_of (i : CutoverInputs) (w : host site) :=
  runCutover four some_hash some_mac some_text some_time i w.

Definition after : host site := (cutover_of sample_inputs before).2.

(** The rollback from the second build to the first. *)
Definition sample_revert : RevertInputs := {|
  rv_skipCleanup := false; rv_release := "shop"; rv_namespace := "default"; currentBuildId := "v2";
  rv_previous := "v1"; poolNames := ["web"]; currentPoolNames := ["web"];
  previousDeploys := [Gc.mkDeploy "web" "shop-web-v1" "shop-web-v1-hpa"];
  currentDeploys := [Gc.mkDeploy "web" "shop-web-v2" "shop-web-v2-hpa"];
  scalingByPool := [("web", Gc.mkScaling 1 3 80)];
  rv_state := match readState (Some "shop") false true (Some "default") after with
              | (Returns (Some s), _) => s | _ => [] end;
  targetComposition := None; registry := None; rv_project := None; rv_cdnEnabled := false |}.

Definition revert_script : list (list string * (Z * string)) :=
  [(Gates.list_build_args "pods" "default" (Gates.pods_selector "shop" "v1") Gates.names_path,
      (0, "shop-web-v1-7d9c"))].

Definition before_revert : host site :=
  mkHost (local after)
    (mkSite (shop (cluster after)) (store (cluster after)) [] false [] revert_script).

Definition revert_of (i : RevertInputs) (w : host site) :=
  runRevert four some_hash some_mac some_text some_time i w.

Definition after_revert : host site := (revert_of sample_revert before_revert).2.

End Site.
