(* ===== verification/CutoverOrder.v ===== *)
(** * The order of a cutover and of a rollback

    The commands a machine has run, with their answers, are the class [Traced].  In a cutover, the
    first patch of a Service comes after the answers that open every gate; in a rollback, after the
    answers that show the target serving. *)
From Stdlib Require Import String.
From S2P Require Import Prelude JsString Json JsonParse K8sNames Effects DeployState ServiceSelector Traffic.
From S2P Require Import StablePools ReleaseNames Gc Gates Retention PrepareRetention Cutover Commands.
From S2P Require Import CutoverCommands DeployStateFacts Site.
Import DeployState ServiceSelector Traffic ReleaseNames Cutover Commands CutoverCommands.
Local Open Scope stdpp_scope.
Local Open Scope js_scope.
Local Open Scope Z_scope.

Module CutoverOrder.

Abbreviation event := (list string * ExecCaptureResult)%type.

(** The trace is of the program's own commands; those of the collaborators are not in it. *)
Class Traced (C : Type) `{!Exec C} `{!Surroundings (host C)} `{!Collaborators (host C)}
    `{!RunCollaborators (host C)} := {
  trace : host C → list event;
  trace_command : ∀ cmd args w r w', execCapture cmd args w = (r, w') →
    trace w' = trace w ++ match r with Returns x => [(args, x)] | Throws _ => [] end;
  trace_document : ∀ cmd args text w, trace (execCaptureStdin cmd args text w).2 = trace w;
  trace_now : ∀ w, trace (now w).2 = trace w;
  trace_sleep : ∀ ms w, trace (sleep ms w) = trace w;
  trace_random : ∀ w, trace (randomUUID w).2 = trace w;
  trace_discover : ∀ project neg w, trace (discover project neg w).2 = trace w;
  trace_healthy : ∀ project ref neg w, trace (healthy project ref neg w).2 = trace w;
  trace_disk : ∀ d w, trace (mkHost d (cluster w)) = trace w;
  trace_edge : ∀ w, trace (restoreEdgeToPreviousBuild w).2 = trace w;
  trace_edge_build : ∀ b w, trace (revertRoutingServiceToBuild b w).2 = trace w;
  trace_readiness : ∀ plan w, trace (waitForCompositionPlanReadiness plan w).2 = trace w;
  trace_cdn : ∀ build tag w, trace (invalidateCdnBuildTag build tag w).2 = trace w
}.

Section Order.
Context {C : Type} `{!Exec C} `{!Surroundings (host C)} `{!Collaborators (host C)}
  `{!RunCollaborators (host C)} `{!Traced C}.

Abbreviation W := (host C).

(** No Service is changed. *)
Definition calm (h : list event) : Prop := Forall (λ e, effect_of e.1 ≠ Services) h.

Definition since (t : list event) (φ : list event → Prop) (w : W) : Prop := ∃ h, trace w = t ++ h ∧ φ h.

(** A program that changes no Service; a return leaves φ of the commands it ran. *)
Definition leaves {E A} (m : io W E A) (φ : A → list event → Prop) : Prop :=
  ∀ t, triple (λ w, trace w = t) m (λ a, since t (λ h, calm h ∧ φ a h)) (λ _, since t calm).

Lemma leaves_weaken {E A} (m : io W E A) (φ ψ : A → list event → Prop) :
  leaves m φ → (∀ a h, φ a h → ψ a h) → leaves m ψ.
Proof.
  intros Hm Hw t. eapply triple_weaken; [apply (Hm t)|auto| |auto].
  intros a w (h & Ht & Hc & Hh). exists h. auto.
Qed.

Lemma leaves_ret {E A} (a : A) (φ : A → list event → Prop) : φ a [] → leaves (E := E) (ret a) φ.
Proof. intros H t w <-. exists []. rewrite app_nil_r. split_and!; [done|constructor|done]. Qed.

Lemma leaves_throw {E A} (e : E) (φ : A → list event → Prop) : leaves (throw e) φ.
Proof. intros t w <-. exists []. rewrite app_nil_r. split; [done|constructor]. Qed.

Lemma leaves_bind {E A B} (m : io W E A) (f : A → io W E B) φ ψ :
  leaves m φ → (∀ a, leaves (f a) (ψ a)) →
  leaves (ibind m f) (λ b h, ∃ a h1 h2, h = h1 ++ h2 ∧ φ a h1 ∧ ψ a b h2).
Proof.
  intros Hm Hf t w Hw. unfold ibind. specialize (Hm t w Hw). destruct (m w) as [[a|e] w1]; [|done].
  destruct Hm as (h1 & Ht1 & Hc1 & H1). specialize (Hf a (t ++ h1) w1 Ht1).
  destruct (f a w1) as [[b|e] w2].
  - destruct Hf as (h2 & Ht2 & Hc2 & H2). exists (h1 ++ h2). rewrite app_assoc.
    split_and!; [done|by apply Forall_app|]. by exists a, h1, h2.
  - destruct Hf as (h2 & Ht2 & Hc2). exists (h1 ++ h2). rewrite app_assoc.
    split; [done|by apply Forall_app].
Qed.

Lemma leaves_plainly {A} (m : io W string A) φ : leaves m φ → leaves (plainly m) φ.
Proof.
  intros Hm t w Hw. unfold plainly, catch. specialize (Hm t w Hw). by destruct (m w) as [[a|e] w1].
Qed.

Lemma leaves_command cmd args :
  effect_of args ≠ Services → leaves (execCapture cmd args) (λ x h, h = [(args, x)]).
Proof.
  intros Ha t w <-. destruct (execCapture cmd args w) as [r w1] eqn:Hr.
  apply trace_command in Hr. destruct r as [x|e].
  - exists [(args, x)]. split_and!; [done| |done]. by apply Forall_singleton.
  - exists []. split; [done|constructor].
Qed.

Lemma leaves_kubectl args :
  effect_of args ≠ Services → leaves (Gates.kubectl args) (λ x h, h = [(args, x)]).
Proof. intros Ha. by apply leaves_plainly, leaves_command. Qed.

Lemma since_respects kinds t (φ : list event → Prop) :
  (∀ h args x, effect_of args ∈ kinds → φ h → φ (h ++ [(args, x)])) → respects kinds (since t φ).
Proof.
  intros Hφ.
  assert (∀ w w', trace w' = trace w → since t φ w → since t φ w') as Hsame.
  { intros w w' Hw (h & Ht & Hh). exists h. by rewrite Hw. }
  assert (∀ E A (m : io W E A), (∀ w, trace (m w).2 = trace w) → invariant (since t φ) m) as Hinv.
  { intros E A m Hm w Hw. specialize (Hm w). destruct (m w) as [[a|e] w']; by eapply Hsame. }
  split; intros; try (by apply Hinv; auto using trace_document, trace_discover, trace_healthy, trace_edge,
    trace_edge_build, trace_readiness, trace_cdn).
  - intros w (h & Ht & Hh). destruct (execCapture cmd args w) as [r w1] eqn:Hr.
    apply trace_command in Hr. rewrite Ht in Hr. destruct r as [x|e].
    + exists (h ++ [(args, x)]). rewrite app_assoc. auto.
    + exists h. by rewrite app_nil_r in Hr.
  - eapply Hsame; [apply trace_now|done].
  - eapply Hsame; [apply trace_sleep|done].
  - eapply Hsame; [apply trace_random|done].
  - eapply Hsame; [apply trace_disk|done].
Qed.

Lemma leaves_calm {E A} kinds (m : io W E A) :
  issues kinds m → Services ∉ kinds → leaves m (λ _ _, True).
Proof.
  intros Hm Hk t w <-.
  assert (respects kinds (since (trace w) calm)) as HI.
  { apply since_respects. intros h args x Ha Hh. apply Forall_app. split; [done|].
    apply Forall_singleton. intros He. cbn in He. by rewrite He in Ha. }
  assert (since (trace w) calm w) as Hw by (exists []; rewrite app_nil_r; split; [done|constructor]).
  specialize (Hm _ HI w Hw). destruct (m w) as [[a|e] w1]; [|done].
  destruct Hm as (h & Ht & Hh). by exists h.
Qed.

(** Every program only appends to the trace. *)
Lemma trace_grows {E A} kinds (m : io W E A) w r w' :
  issues kinds m → m w = (r, w') → ∃ h, trace w' = trace w ++ h.
Proof.
  intros Hm Hr. assert (respects kinds (since (trace w) (λ _, True))) as HI by (by apply since_respects).
  assert (since (trace w) (λ _, True) w) as Hw by (exists []; by rewrite app_nil_r).
  destruct (invariant_run _ _ _ _ _ (Hm _ HI) Hw Hr) as (h & Ht & _). by exists h.
Qed.

Lemma leaves_bind_weak {E A B} (m : io W E A) (f : A → io W E B) φ ψ (χ : B → list event → Prop) :
  leaves m φ → (∀ a, leaves (f a) (ψ a)) →
  (∀ a b h1 h2, φ a h1 → ψ a b h2 → χ b (h1 ++ h2)) → leaves (ibind m f) χ.
Proof.
  intros Hm Hf Hx. eapply leaves_weaken; [by eapply leaves_bind|].
  intros b h (a & h1 & h2 & -> & H1 & H2). eauto.
Qed.

(** A first part that changes no Service, and evidence that stays when commands come before it. *)
Lemma leaves_then {E A B} kinds (m : io W E A) (f : A → io W E B) (χ : B → list event → Prop) :
  issues kinds m → Services ∉ kinds → (∀ b h1 h2, χ b h2 → χ b (h1 ++ h2)) →
  (∀ a, leaves (f a) χ) → leaves (ibind m f) χ.
Proof.
  intros Hm Hk Hx Hf. eapply leaves_bind_weak; [by apply (leaves_calm kinds)|intros a; apply Hf|].
  intros a b h1 h2 _. apply Hx.
Qed.

(** Evidence that commands before or after it do not take away. *)
Definition kept (φ : list event → Prop) : Prop := ∀ h1 h2, φ h1 ∨ φ h2 → φ (h1 ++ h2).

Lemma kept_and φ ψ : kept φ → kept ψ → kept (λ h, φ h ∧ ψ h).
Proof. intros H1 H2 a b [[]|[]]; split; auto. Qed.

Lemma kept_when (b : bool) φ : kept φ → kept (λ h, b = true → φ h).
Proof. intros H h1 h2 [Hb|Hb] E; apply H; auto. Qed.

Lemma kept_right φ : kept φ → ∀ h1 h2, φ h2 → φ (h1 ++ h2).
Proof. intros H h1 h2 H2. apply H. by right. Qed.

(** Two parts, each with its evidence. *)
Lemma leaves_seq {E A B} (m : io W E A) (f : A → io W E B) φ ψ :
  leaves m (λ _, φ) → (∀ a, leaves (f a) (λ _, ψ)) → kept φ → kept ψ →
  leaves (ibind m f) (λ _ h, φ h ∧ ψ h).
Proof.
  intros Hm Hf Hφ Hψ. eapply leaves_bind_weak; [apply Hm|apply Hf|].
  intros a b h1 h2 H1 H2. split; [apply Hφ; by left|apply Hψ; by right].
Qed.

(** An abort leaves anything. *)
Lemma leaves_never {E A} (m : io W E A) (φ : A → list event → Prop) : leaves m (λ _ _, False) → leaves m φ.
Proof. intros H. by eapply leaves_weaken. Qed.

Lemma leaves_refuse {A} message (φ : A → list event → Prop) : leaves (Gates.refuse message) φ.
Proof.
  apply leaves_never, (leaves_then []); [walk|set_solver|done|]. intros _. apply leaves_throw.
Qed.

(** The command was run and answered 0. *)
Definition succeeded (args : list string) (h : list event) : Prop :=
  ∃ x, (args, x) ∈ h ∧ exitCode x = 0.

Lemma succeeded_app args : kept (succeeded args).
Proof. intros h1 h2 [(x & Hx & H0)|(x & Hx & H0)]; exists x; rewrite elem_of_app; auto. Qed.

Lemma succeeded_in args x : exitCode x = 0 → succeeded args [(args, x)].
Proof. intros H. exists x. split; [set_solver|done]. Qed.

(** A command whose failure is refused. *)
Lemma leaves_required args message :
  effect_of args ≠ Services →
  leaves (do! x := Gates.kubectl args in
          if negb (exitCode x =? 0) then Gates.refuse message else ret tt) (λ _, succeeded args).
Proof.
  intros Ha. eapply leaves_bind_weak; [by apply leaves_kubectl| |].
  - intros x. instantiate (1 := λ x _ _, exitCode x = 0). cbv beta.
    destruct (exitCode x =? 0) eqn:H0; cbn [negb]; [|apply leaves_refuse].
    by apply leaves_ret, Z.eqb_eq.
  - intros x [] h1 h2 -> H0. apply succeeded_app. left. by apply succeeded_in.
Qed.

Lemma leaves_each {A} (f : A → io W cutover_error unit) (φ : A → list event → Prop) l :
  (∀ x, kept (φ x)) → (∀ x, leaves (f x) (λ _, φ x)) →
  leaves (Gates.each f l) (λ _ h, ∀ x, x ∈ l → φ x h).
Proof.
  intros Happ Hf. induction l as [|y l IH]; cbn [Gates.each]; [apply leaves_ret; set_solver|].
  eapply leaves_bind_weak; [apply Hf|intros ?; apply IH|]. intros [] [] h1 h2 H1 H2 x [->|Hx]%elem_of_cons; apply Happ; auto.
Qed.

(** ** The gates *)

Definition list_deployments (ctx : Gates.GateContext) : list string :=
  Gates.list_build_args "deployments" (Gates.namespace ctx)
    ("app.kubernetes.io/name=" +:+ Gates.releaseName ctx +:+ ",app.kubernetes.io/version="
     +:+ Gates.safeBuildId ctx) Gates.names_path.

Definition rollouts_seen (ctx : Gates.GateContext) (h : list event) : Prop :=
  ∃ listing, (list_deployments ctx, listing) ∈ h
  ∧ ∀ d, d ∈ Gates.new_deployments (Gates.releaseName ctx) listing →
    succeeded (Gates.rollout_args d (Gates.namespace ctx) (Gates.arg (Gates.poolRolloutWait ctx))) h.

Lemma rollouts_leave ctx : leaves (Gates.waitPoolRollouts ctx) (λ _, rollouts_seen ctx).
Proof.
  eapply leaves_bind_weak; [by apply leaves_kubectl| |].
  - intros listing. apply (leaves_each _ (λ d, succeeded (Gates.rollout_args d (Gates.namespace ctx)
      (Gates.arg (Gates.poolRolloutWait ctx))))); [intros d; apply succeeded_app|].
    intros d. by apply leaves_required.
  - intros listing [] h1 h2 -> H2. exists listing. split; [set_solver|].
    intros d Hd. apply succeeded_app. right. by apply H2.
Qed.

Definition routing_seen (ctx : Gates.GateContext) (h : list event) : Prop :=
  ∃ timeout, succeeded (Gates.rollout_args (routingServiceDeploymentName (Gates.releaseName ctx))
                          (Gates.namespace ctx) timeout) h.

Lemma routing_leaves ctx : leaves (Gates.waitRoutingRollout ctx) (λ _, routing_seen ctx).
Proof.
  unfold Gates.waitRoutingRollout. cbv zeta. eapply leaves_bind_weak; [by apply leaves_kubectl| |].
  - intros x. instantiate (1 := λ _ _, routing_seen ctx). cbv beta.
    destruct (negb _); [apply leaves_refuse|]. destruct (is_empty _); [apply leaves_refuse|].
    eapply leaves_weaken; [by apply leaves_required|]. intros [] h H. by eexists.
  - intros x [] h1 h2 _ [timeout H]. exists timeout. apply succeeded_app. by right.
Qed.

Definition policy_args (ctx : Gates.GateContext) : list string :=
  ["get"; "envoyextensionpolicy"; Gates.releaseName ctx +:+ "-routing-extproc"; "-n"; Gates.namespace ctx;
   "-o"; "json"].

Definition policy_seen (ctx : Gates.GateContext) (h : list event) : Prop :=
  ∃ x doc, (policy_args ctx, x) ∈ h ∧ exitCode x = 0 ∧ json_parse (stdout x) = Some doc
  ∧ Gates.policy_status doc = Some "True".

Lemma policy_seen_app ctx : kept (policy_seen ctx).
Proof. intros h1 h2 [(x & d & ? & ?)|(x & d & ? & ?)]; exists x, d; rewrite elem_of_app; auto. Qed.

Lemma poll_leaves ctx attempts status :
  leaves (Gates.poll_policy ctx attempts status)
    (λ s h, s = "True" → status = "True" ∨ policy_seen ctx h).
Proof.
  revert status. induction attempts as [|n IH]; intros status; cbn [Gates.poll_policy].
  { apply leaves_ret. auto. }
  set (found x := if exitCode x =? 0
                  then match json_parse (stdout x) with Some doc => Gates.policy_status doc | None => None end
                  else None).
  assert (∀ x, found x = Some "True" → policy_seen ctx [(policy_args ctx, x)]) as Hfound.
  { intros x Hx. unfold found in Hx. destruct (exitCode x =? 0) eqn:H0; [|done].
    destruct (json_parse (stdout x)) as [doc|] eqn:Hd; [|done].
    exists x, doc. split_and!; [set_solver|by apply Z.eqb_eq|done|done]. }
  eapply leaves_bind_weak; [by apply leaves_kubectl| |].
  - intros x. cbv zeta. change (if exitCode x =? 0 then _ else None) with (found x).
    instantiate (1 := λ x s h, s = "True" → default status (found x) = "True" ∨ policy_seen ctx h). cbv beta.
    destruct (match found x with Some _ => _ | None => _ end) eqn:Hd; [apply leaves_ret; auto|].
    eapply leaves_bind_weak; [apply (leaves_calm []); [walk; apply pause_issues|set_solver]|intros ?; apply IH|].
    intros [] s h1 h2 _ H Hs. destruct (H Hs) as [|Hp]; [by left|right]. apply policy_seen_app. by right.
  - intros x s h1 h2 -> H Hs. destruct (H Hs) as [Hx|Hp]; [|right; apply policy_seen_app; by right].
    destruct (found x) as [v|] eqn:Hf; [|by left]. cbn in Hx. subst v.
    right. apply policy_seen_app. left. by apply Hfound.
Qed.

Lemma policy_leaves ctx : leaves (Gates.waitPolicyAccepted ctx) (λ _, policy_seen ctx).
Proof.
  unfold Gates.waitPolicyAccepted. eapply leaves_bind_weak; [apply poll_leaves| |].
  - intros s. instantiate (1 := λ s _ _, s = "True"). cbv beta.
    destruct (String.eqb_spec s "True"); cbn [negb]; [by apply leaves_ret|apply leaves_refuse].
  - intros s [] h1 h2 H Hs. destruct (H Hs) as [|Hp]; [done|]. apply policy_seen_app. by left.
Qed.

Definition list_pods_of (ctx : Gates.GateContext) : list string :=
  Gates.list_build_args "pods" (Gates.namespace ctx)
    (Gates.pods_selector (Gates.releaseName ctx) (Gates.safeBuildId ctx)) Gates.ready_path.

(** ** What the capacity gate counts *)

(** The pods of a listing: the lines with a name. *)
Definition named (l : list string) : list string := List.filter (λ line, negb (is_empty (Gates.fields line 0))) l.

(** The pods of one pool. *)
Definition pods_of_pool (p : string) (l : list string) : list string :=
  List.filter (λ line, String.eqb (Gates.fields line 2) p) (named l).

Lemma count_pod_unready c line : Gates.allHealthy c = false → Gates.allHealthy (Gates.count_pod c line) = false.
Proof. intros H. unfold Gates.count_pod. repeat case_match; done. Qed.

Lemma count_pods_unready ls c : Gates.allHealthy c = false → Gates.allHealthy (foldl Gates.count_pod c ls) = false.
Proof. revert c. induction ls; intros c H; cbn; [done|]. auto using count_pod_unready. Qed.

(** A count that found every pod ready has counted the pods, and the pods of each pool. *)
Lemma count_pods_sound ls c :
  Gates.allHealthy (foldl Gates.count_pod c ls) = true →
  Gates.checkedCount (foldl Gates.count_pod c ls) = Gates.checkedCount c + Z.of_nat (length (named ls))
  ∧ (∀ line, line ∈ named ls → Gates.fields line 1 = "True")
  ∧ ∀ p, default 0 (look (Gates.readyByPool (foldl Gates.count_pod c ls)) p)
         ≤ default 0 (look (Gates.readyByPool c) p) + Z.of_nat (length (pods_of_pool p ls)).
Proof.
  revert c. induction ls as [|line ls IH]; intros c; cbn [foldl].
  { intros _. split; [cbn; lia|]. split; [set_solver|]. intros p. cbn. lia. }
  intros H. destruct (IH _ H) as (Hc & Hr & Hp). unfold pods_of_pool, named in *. cbn [List.filter].
  destruct (Gates.allHealthy (Gates.count_pod c line)) eqn:Hh; [|rewrite count_pods_unready in H by done; done].
  unfold Gates.count_pod in *. destruct (is_empty (Gates.fields line 0)); cbn [negb] in *; [done|].
  destruct (String.eqb_spec (Gates.fields line 1) "True") as [Hready|]; cbn [negb] in *; [|done].
  cbn [Gates.checkedCount Gates.readyByPool List.filter length] in *.
  split; [lia|]. split; [intros l [->|Hl]%elem_of_cons; auto|].
  intros p. specialize (Hp p). destruct (is_empty (Gates.fields line 2)) eqn:He.
  - destruct (String.eqb _ p); cbn [length]; lia.
  - rewrite TrafficFacts.TrafficFacts.look_assign in Hp.
    destruct (String.eqb_spec (Gates.fields line 2) p) as [->|]; cbn [length from_option id] in *; lia.
Qed.

(** A listing that shows at least one pod, every pod ready, and as many of each pool as the target. *)
Definition shows_capacity (targets : Gates.counts) (x : ExecCaptureResult) : Prop :=
  exitCode x = 0 ∧ named (Gc.lines (stdout x)) ≠ []
  ∧ (∀ line, line ∈ named (Gc.lines (stdout x)) → Gates.fields line 1 = "True")
  ∧ ∀ p n, (p, n) ∈ targets → n ≤ Z.of_nat (length (pods_of_pool p (Gc.lines (stdout x)))).

Lemma capacity_met_sound targets x :
  Gates.capacity_met targets (Gates.count_pods x) = true → shows_capacity targets x.
Proof.
  unfold Gates.capacity_met, Gates.count_pods. destruct (Z.eqb_spec (exitCode x) 0) as [He|]; [|done].
  intros [[Hh Hn]%andb_true_iff Ht]%andb_true_iff. apply Z.ltb_lt in Hn.
  apply count_pods_sound in Hh as (Hc & Hr & Hp). rewrite Hc in Hn. cbn in Hn.
  split; [done|]. split; [by intros E; rewrite E in Hn|]. split; [done|].
  intros p n Hpn. rewrite forallb_In in Ht. specialize (Ht _ Hpn). apply Z.leb_le in Ht. specialize (Hp p).
  cbn in Hp, Ht. lia.
Qed.

(** Such a listing of the new build's pods. *)
Definition capacity_seen (ctx : Gates.GateContext) (targets : Gates.counts) (h : list event) : Prop :=
  ∃ x, (list_pods_of ctx, x) ∈ h ∧ shows_capacity targets x.

Lemma capacity_seen_app ctx targets : kept (capacity_seen ctx targets).
Proof. intros h1 h2 [(x & ? & ?)|(x & ? & ?)]; exists x; rewrite elem_of_app; auto. Qed.

Lemma await_leaves ctx targets attempts :
  leaves (Gates.await_capacity ctx targets attempts) (λ ok h, ok = true → capacity_seen ctx targets h).
Proof.
  induction attempts as [|n IH]; cbn [Gates.await_capacity]; [by apply leaves_ret|].
  eapply leaves_bind_weak; [by apply leaves_kubectl| |].
  - intros x. instantiate (1 := λ x ok h, ok = true →
      Gates.capacity_met targets (Gates.count_pods x) = true ∨ capacity_seen ctx targets h). cbv beta.
    destruct (Gates.capacity_met _ _); [apply leaves_ret; auto|].
    eapply leaves_bind_weak; [apply (leaves_calm []); [|set_solver]|intros ?; apply IH|].
    + destruct n; walk.
    + intros [] ok h1 h2 _ H Hok. right. apply capacity_seen_app. auto.
  - intros x ok h1 h2 -> H Hok. apply capacity_seen_app.
    destruct (H Hok) as [Hx|]; [left; exists x; split; [apply list_elem_of_singleton|]|]; auto using capacity_met_sound.
Qed.

Lemma capacity_leaves ctx targets namespace hpas :
  leaves (Gates.waitReadyCapacity ctx targets (Gates.restoreWarmedHpas namespace hpas))
    (λ _, capacity_seen ctx targets).
Proof.
  unfold Gates.waitReadyCapacity. eapply leaves_bind_weak; [apply await_leaves| |].
  - intros ok. instantiate (1 := λ ok _ _, ok = true). cbv beta. destruct ok; [by apply leaves_ret|].
    apply leaves_never. apply (leaves_then []); [walk|set_solver|done|]. intros _.
    apply (leaves_then [Autoscalers]); [apply under_plainly, restore_hpas_issues|set_solver|done|]. intros _.
    apply (leaves_then [Reads]); [apply diagnose_issues|set_solver|done|]. intros _. apply leaves_throw.
  - intros ok [] h1 h2 H Hok. apply capacity_seen_app. auto.
Qed.

(** The capacity the gate asks for is the one computed from the outgoing build. *)
Lemma warm_up_leaves ctx pools previous :
  leaves (Gates.warmUpHpas ctx pools previous) (λ r _, r.1 = Gates.computeCapacityTargets pools previous).
Proof.
  unfold Gates.warmUpHpas. cbv zeta.
  apply (leaves_then [Reads; Autoscalers]); [apply warm_pools_issues|set_solver|done|]. intros hpas.
  apply (leaves_then [Reads; Workloads]); [|set_solver|done|]; [apply each_issues; intros; apply scale_up_issues|].
  intros _. by apply leaves_ret.
Qed.

(** ** The cutover *)

Section Cutover.
Context (sha256_hex : string → string) (i : CutoverInputs).

Abbreviation ctx := (context i).

Definition job_args : list string :=
  ["wait"; "--for=condition=complete"; "job/" +:+ routeExtJobName sha256_hex (releaseName i) (buildId i);
   "-n"; namespace i; "--timeout=600s"].

(** The answers that open every gate. *)
Inductive gates_seen (h : list event) : Prop := mkGatesSeen {
  seen_rollouts : rollouts_seen ctx h;
  seen_routing : hasRoutingTier i = true → routing_seen ctx h;
  seen_job : hasRouteExtJob i = true →
    succeeded job_args h;
  seen_policy : hasEnvoyExtensionPolicy i = true → policy_seen ctx h;
  seen_capacity :
    capacity_seen ctx (Gates.computeCapacityTargets (pools i) (previousReplicasByPool i)) h
}.

Lemma rollouts_seen_app : kept (rollouts_seen ctx).
Proof.
  intros h1 h2 [(l & Hl & Hd)|(l & Hl & Hd)]; exists l; rewrite elem_of_app; split; auto;
    intros d Hx; apply succeeded_app; auto.
Qed.

Lemma routing_seen_app : kept (routing_seen ctx).
Proof. intros h1 h2 [[t H]|[t H]]; exists t; apply succeeded_app; auto. Qed.

Lemma leaves_when (b : bool) (m : io W cutover_error unit) (φ : list event → Prop) :
  leaves m (λ _, φ) → leaves (Cutover.when b m) (λ _ h, b = true → φ h).
Proof.
  intros Hm. destruct b; cbn [Cutover.when]; [|by apply leaves_ret]. by eapply leaves_weaken.
Qed.

Ltac keeping := repeat first
  [ apply rollouts_seen_app | apply routing_seen_app | apply succeeded_app | apply policy_seen_app
  | apply capacity_seen_app | apply kept_and | apply kept_when | done ].

Lemma readiness_leaves : leaves (readiness_gates sha256_hex i) (λ _ h,
  rollouts_seen ctx h ∧ (hasRoutingTier i = true → routing_seen ctx h)
  ∧ (hasRouteExtJob i = true → succeeded job_args h) ∧ (hasEnvoyExtensionPolicy i = true → policy_seen ctx h)
  ∧ True).
Proof.
  unfold readiness_gates. cbv zeta. assert (kept (λ _, True)) as HT by done.
  apply leaves_seq; [apply rollouts_leave| |keeping..]. intros _.
  apply leaves_seq; [apply leaves_when, routing_leaves| |keeping..]. intros _.
  apply leaves_seq; [by apply leaves_when, leaves_required| |keeping..]. intros _.
  apply leaves_seq; [apply leaves_when, policy_leaves| |keeping..]. intros _.
  apply (leaves_calm []); [|set_solver]. unfold restore_edge. walk.
Qed.

Context (isIP : string → Z) (hmac : string → string → string) (decode_base64 : string → string).

Lemma gates_leave : leaves (prepare sha256_hex hmac decode_base64 i) (λ _, gates_seen).
Proof.
  eapply (leaves_weaken _ (λ _ h, (rollouts_seen ctx h ∧ (hasRoutingTier i = true → routing_seen ctx h)
    ∧ (hasRouteExtJob i = true → succeeded job_args h) ∧ (hasEnvoyExtensionPolicy i = true → policy_seen ctx h)
    ∧ True) ∧ capacity_seen ctx (Gates.computeCapacityTargets (pools i) (previousReplicasByPool i)) h)).
  2: { intros a h ((H1 & H2 & H3 & H4 & _) & H5). by split. }
  unfold prepare. cbv zeta. apply (leaves_then [Reads; Workloads]); [|set_solver| |].
  { apply under_catch; [apply under_plainly, protect_issues|]. intros e. unfold restore_edge. walk. }
  { intros _. apply kept_right. keeping. }
  intros _. apply leaves_seq; [apply readiness_leaves| |keeping..]. intros _.
  eapply leaves_bind_weak; [apply warm_up_leaves| |].
  { intros [targets hpas]. instantiate (1 := λ w _ h, capacity_seen ctx w.1 h).
    eapply leaves_bind_weak; [apply capacity_leaves| |].
    { intros ?. apply (leaves_calm [Reads; Workloads; Autoscalers]); [|set_solver].
      apply under_bind; [eapply issues_more; [apply revalidate_issues|reflexivity]|]. intros _.
      apply under_bind; [|intros; walk]. unfold cleaning.
      apply under_catch; [apply under_plainly; eapply issues_more; [apply prepare_retention_issues|reflexivity]|].
      intros e. unfold restore_edge, restore_hpas. walk. apply restore_issues. set_solver. }
    intros [] r h1 h2 H _. apply capacity_seen_app. by left. }
  intros [targets hpas] r h1 h2 Ht H. cbn in Ht, H. subst targets. apply capacity_seen_app. by right.
Qed.

Lemma gates_seen_app h1 h2 : gates_seen h1 → gates_seen (h1 ++ h2).
Proof.
  intros [H1 H2 H3 H4 H5]. split; [by apply rollouts_seen_app; left| | | |by apply capacity_seen_app; left];
    intros E; [apply routing_seen_app|apply succeeded_app|apply policy_seen_app]; left; auto.
Qed.
End Cutover.

(** ** The rollback *)

Lemma leaves_or_throw args :
  effect_of args ≠ Services → leaves (plainly (execOrThrow "kubectl" args)) (λ _, succeeded args).
Proof.
  intros Ha. apply leaves_plainly. eapply leaves_bind_weak; [by apply leaves_command| |].
  - intros x. instantiate (1 := λ x _ _, exitCode x = 0). cbv beta.
    destruct (exitCode x =? 0) eqn:H0; cbn [negb]; [by apply leaves_ret, Z.eqb_eq|apply leaves_throw].
  - intros x [] h1 h2 -> H0. apply succeeded_app. left. by apply succeeded_in.
Qed.

Section Serving.
Context (ns : string).

Abbreviation healthz pod := (Gates.exec_node_args pod ns Gates.HEALTHZ_SNIPPET).

Lemma any_answers_leaves pods :
  leaves (Gates.any_answers ns pods)
    (λ ok h, ok = true → ∃ pod, pod ∈ pods ∧ succeeded (healthz pod) h).
Proof.
  induction pods as [|pod pods IH]; cbn [Gates.any_answers]; [by apply leaves_ret|].
  eapply leaves_bind_weak; [by apply leaves_kubectl| |].
  - intros x. instantiate (1 := λ x ok h, ok = true →
      exitCode x = 0 ∨ ∃ p, p ∈ pods ∧ succeeded (healthz p) h). cbv beta.
    destruct (exitCode x =? 0) eqn:H0; [apply leaves_ret; left; by apply Z.eqb_eq|].
    eapply leaves_weaken; [apply IH|]. auto.
  - intros x ok h1 h2 -> H Hok. destruct (H Hok) as [H0|(p & Hp & Hs)].
    + exists pod. split; [set_solver|]. apply succeeded_app. left. by apply succeeded_in.
    + exists p. split; [set_solver|]. apply succeeded_app. by right.
Qed.

(** Every Deployment has a pod that answers. *)
Definition answering (pods : list string) (deploys : list Gc.PoolDeploy) (h : list event) : Prop :=
  ∀ d, d ∈ deploys → ∃ pod, pod ∈ pods ∧ starts_with (Gc.d_name d +:+ "-") pod = true
                            ∧ succeeded (healthz pod) h.

Lemma answering_app pods deploys : kept (answering pods deploys).
Proof.
  intros h1 h2 [H|H] d Hd; destruct (H d Hd) as (p & ? & ? & ?); exists p;
    (split_and!; [done..|apply succeeded_app; auto]).
Qed.

Lemma all_serving_leaves pods deploys :
  leaves (Gates.all_serving ns pods deploys) (λ ok h, ok = true → answering pods deploys h).
Proof.
  induction deploys as [|d deploys IH]; cbn [Gates.all_serving]; [apply leaves_ret; intros _ d; set_solver|].
  eapply leaves_bind_weak; [apply any_answers_leaves| |].
  - intros b. instantiate (1 := λ b ok h, ok = true → b = true ∧ answering pods deploys h). cbv beta.
    destruct b; [|by apply leaves_ret]. eapply leaves_weaken; [apply IH|]. auto.
  - intros b ok h1 h2 H1 H2 Hok. destruct (H2 Hok) as [Hb Hd].
    intros d' [->|Hd']%elem_of_cons.
    + destruct (H1 Hb) as (p & Hp & Hs). apply list_elem_of_In, filter_In in Hp as [Hp%list_elem_of_In ?].
      exists p. split_and!; [done..|]. apply succeeded_app. by left.
    + apply (answering_app pods deploys h1 h2 (or_intror Hd) d' Hd').
Qed.

Definition list_target (release build : string) : list string :=
  Gates.list_build_args "pods" ns (Gates.pods_selector release build) Gates.names_path.

Definition serving_seen (release build : string) (deploys : list Gc.PoolDeploy) (h : list event) : Prop :=
  ∃ x, (list_target release build, x) ∈ h ∧ exitCode x = 0 ∧ answering (Gc.lines (stdout x)) deploys h.

Lemma serving_seen_app release build deploys : kept (serving_seen release build deploys).
Proof.
  intros h1 h2 [(x & Hx & H0 & Hd)|(x & Hx & H0 & Hd)]; exists x;
    (split_and!; [set_solver|done|apply answering_app; auto]).
Qed.

Lemma await_serving_leaves release build deploys attempts :
  leaves (Gates.await_serving release ns build deploys attempts)
    (λ ok h, ok = true → serving_seen release build deploys h).
Proof.
  induction attempts as [|n IH]; cbn [Gates.await_serving]; [by apply leaves_ret|].
  eapply leaves_bind_weak; [by apply leaves_kubectl| |].
  - intros x. cbv zeta. instantiate (1 := λ x ok h, ok = true →
      (exitCode x = 0 ∧ answering (Gc.lines (stdout x)) deploys h) ∨ serving_seen release build deploys h).
    cbv beta. set (pods := if exitCode x =? 0 then _ else []).
    eapply leaves_bind_weak.
    { instantiate (1 := λ ok h, ok = true → exitCode x = 0 ∧ answering (Gc.lines (stdout x)) deploys h).
      destruct (length pods =? 0)%nat eqn:Hl; [by apply leaves_ret|].
      eapply leaves_weaken; [apply all_serving_leaves|]. cbv beta. intros ok h H Hok.
      subst pods. destruct (exitCode x =? 0) eqn:H0; [|done]. split; [by apply Z.eqb_eq|].
      intros d Hd. destruct (H Hok d Hd) as (p & Hp & Hr). apply list_elem_of_In, filter_In in Hp as [Hp%list_elem_of_In _].
      by exists p. }
    { intros b. instantiate (1 := λ b ok h, ok = true → b = true ∨ serving_seen release build deploys h).
      cbv beta. destruct b; [by apply leaves_ret; auto|].
      eapply leaves_bind_weak; [apply (leaves_calm []); [|set_solver]|intros ?; apply IH|].
      - destruct n; walk.
      - intros [] ok h1 h2 _ H Hok. right. apply serving_seen_app. auto. }
    intros b ok h1 h2 H1 H2 Hok. destruct (H2 Hok) as [Hb|Hs]; [left|right; apply serving_seen_app; auto].
    destruct (H1 Hb) as [H0 Ha]. split; [done|]. apply answering_app. by left.
  - intros x ok h1 h2 -> H Hok. destruct (H Hok) as [[H0 Ha]|Hs]; [|apply serving_seen_app; auto].
    exists x. split_and!; [set_solver|done|]. apply answering_app. by right.
Qed.

Lemma serving_leaves release build deploys :
  leaves (Gates.waitPreviousBuildServing release ns build deploys) (λ _, serving_seen release build deploys).
Proof.
  unfold Gates.waitPreviousBuildServing. eapply leaves_bind_weak; [apply await_serving_leaves| |].
  - intros ok. instantiate (1 := λ ok _ _, ok = true). cbv beta.
    destruct ok; [by apply leaves_ret|apply leaves_throw].
  - intros ok [] h1 h2 H Hok. apply serving_seen_app. auto.
Qed.
End Serving.

(** The answers that show the target of a rollback serving. *)
Definition target_seen (i : RevertInputs) (h : list event) : Prop :=
  (∀ d, d ∈ previousDeploys i →
     succeeded (Gates.rollout_args (Gc.d_name d) (rv_namespace i) "--timeout=120s") h)
  ∧ serving_seen (rv_namespace i) (rv_release i) (K8sNames.sanitizeK8sName (rv_previous i) "")
      (previousDeploys i) h.

Lemma target_seen_app i : kept (target_seen i).
Proof.
  apply kept_and; [|apply serving_seen_app].
  intros h1 h2 [H|H] d Hd; apply succeeded_app; auto.
Qed.

Lemma target_leaves i : leaves (warm_previous i) (λ _, target_seen i).
Proof.
  unfold warm_previous, target_seen.
  apply (leaves_then [Reads; Workloads]); [apply under_plainly, protect_issues|set_solver| |].
  { intros _. apply kept_right, target_seen_app. }
  intros _. apply (leaves_then [Reads; Workloads]); [apply scale_up_previous_issues|set_solver| |].
  { intros _. apply kept_right, target_seen_app. }
  intros caps. apply (leaves_then [Reads; Workloads; Autoscalers]);
    [apply each_issues; intros; apply autoscale_previous_issues|set_solver| |].
  { intros _. apply kept_right, target_seen_app. }
  intros _. apply leaves_seq.
  - apply (leaves_each _ (λ d, succeeded (Gates.rollout_args (Gc.d_name d) (rv_namespace i) "--timeout=120s"))).
    + intros d. apply succeeded_app.
    + intros d. by apply leaves_or_throw.
  - intros _. eapply leaves_bind_weak; [apply serving_leaves| |].
    + intros ?. apply (leaves_calm []); [walk|set_solver].
    + intros [] b h1 h2 H _. apply serving_seen_app. by left.
  - intros h1 h2 [H|H] d Hd; apply succeeded_app; auto.
  - apply serving_seen_app.
Qed.

(** ** The whole run *)

(** A first part that changes no Service, then anything: what the first part leaves comes before the
    first change of a Service. *)
Lemma before_services {A B} kinds (m : io W cutover_error A) (f : A → io W cutover_error B)
    (φ : list event → Prop) w r w' :
  leaves m (λ _, φ) → (∀ a, issues kinds (f a)) → (∀ h1 h2, φ h1 → φ (h1 ++ h2)) →
  ibind m f w = (r, w') →
  ∃ h, trace w' = trace w ++ h
  ∧ ∀ h1 args x h2, h = h1 ++ (args, x) :: h2 → effect_of args = Services → φ h1.
Proof.
  intros Hm Hf Hφ Hrun. unfold ibind in Hrun. specialize (Hm _ w eq_refl).
  assert (∀ h h1 args x h2, calm h → h = h1 ++ (args, x) :: h2 → effect_of args = Services → False) as Hno.
  { intros h h1 args x h2 Hc -> He. apply Forall_app in Hc as [_ [Hc _]%Forall_cons]. done. }
  destruct (m w) as [[a|e] w1].
  2: { injection Hrun as <- <-. destruct Hm as (h & Ht & Hc). exists h. split; [done|].
       intros h1 args x h2 Hh He. exfalso. by eapply Hno. }
  destruct Hm as (h0 & Ht0 & Hc & H0). destruct (trace_grows _ _ _ _ _ (Hf a) Hrun) as [hr Htr].
  exists (h0 ++ hr). split; [by rewrite Htr, Ht0, app_assoc|]. intros h1 args x h2 Hh He.
  apply app_eq_inv in Hh as [(k & -> & Hk)|(k & -> & Hk)]; [|by apply Hφ].
  destruct k as [|e k]; [by rewrite app_nil_r in H0|]. injection Hk as <- Hk.
  exfalso. eapply (Hno (h1 ++ (args, x) :: k)); [exact Hc|done|done].
Qed.
End Order.

(** ** The site records its commands *)

#[global] Instance site_traced : Traced Site.site.
Proof.
  refine {| trace := λ w, Site.ran (cluster w) |}; try done.
  - intros cmd args w r w' Hr. cbn in Hr. unfold remote in Hr. cbn in Hr.
    assert ((Site.answer args (cluster w)).2 = Site.with_ran (Site.answer args (cluster w)).2 (Site.ran (cluster w))) as Hran.
    { unfold Site.answer.
      repeat match goal with |- context [match ?x with _ => _ end] => destruct x end; by destruct (cluster w). }
    destruct (Site.answer args (cluster w)) as [r1 s1]. injection Hr as <- <-. cbn in Hran |- *.
    by rewrite Hran.
  - intros cmd args text w. cbn. unfold remote. cbn. destruct (bool_decide _); [|done].
    by destruct (_ && _); [destruct (DeployStateFacts.DeployStateFacts.server_write _ _)|].
Defined.

(** C1. Traffic waits for the gates.  However a cutover runs and ends, the first command that changes a
    Service comes after the answers that open every gate: the roll-outs of the new build's
    Deployments, of the routing service, the registration Job and the extension policy where the
    build has them, and a listing of pods that shows every pod ready and each pool at its capacity. *)
Theorem traffic_waits_for_gates {C} `{!Exec C} `{!Surroundings (host C)} `{!Collaborators (host C)}
    `{!RunCollaborators (host C)} `{!Traced C} isIP sha256_hex hmac decode_base64 toISOString
    (i : CutoverInputs) (w w' : host C) r :
  runCutover isIP sha256_hex hmac decode_base64 toISOString i w = (r, w') →
  ∃ h, trace w' = trace w ++ h
  ∧ ∀ h1 args x h2, h = h1 ++ (args, x) :: h2 → effect_of args = Services → gates_seen sha256_hex i h1.
Proof.
  intros Hrun.
  eapply (before_services [Reads; Workloads; Autoscalers; Pods; Services; Deletes] (prepare sha256_hex hmac decode_base64 i)
    (λ ready, let '(hpas, retained) := ready in
       do! _ := switch isIP i hpas in do! _ := commit sha256_hex toISOString i hpas in
       finish sha256_hex hmac i hpas retained)); [apply gates_leave| |apply gates_seen_app|exact Hrun].
  intros [hpas retained].
  apply under_bind; [eapply issues_more; [apply switch_issues|reflexivity]|]. intros _.
  apply under_bind; [eapply issues_more; [apply commit_issues|reflexivity]|]. intros _.
  eapply issues_more; [apply finish_issues|reflexivity].
Qed.

Lemma traffic_waits_for_gates_witness :
  ∃ h, trace Site.after = trace Site.before ++ h
  ∧ ∀ h1 args x h2, h = h1 ++ (args, x) :: h2 → effect_of args = Services →
      gates_seen Site.some_hash Site.sample_inputs h1.
Proof.
  apply (traffic_waits_for_gates Site.four Site.some_hash Site.some_mac Site.some_text Site.some_time
    Site.sample_inputs Site.before Site.after (Returns tt)).
  vm_compute. reflexivity.
Defined.

(** C23. A rollback waits for its target.  However a rollback runs and ends, the first command that
    changes a Service comes after every Deployment of the target has rolled out and, in a listing of
    its pods, each Deployment has a pod that answered its health check. *)
Theorem rollback_waits_for_target {C} `{!Exec C} `{!Surroundings (host C)} `{!Collaborators (host C)}
    `{!RunCollaborators (host C)} `{!Traced C} isIP sha256_hex hmac decode_base64 toISOString
    (i : RevertInputs) (w w' : host C) r :
  runRevert isIP sha256_hex hmac decode_base64 toISOString i w = (r, w') →
  ∃ h, trace w' = trace w ++ h
  ∧ ∀ h1 args x h2, h = h1 ++ (args, x) :: h2 → effect_of args = Services → target_seen i h1.
Proof.
  intros Hrun. unfold runRevert in Hrun.
  eapply (before_services [Reads; Workloads; Pods; Services; Deletes; Routing]); [apply target_leaves| | |exact Hrun].
  - intros ?. apply under_bind; [eapply issues_more; [apply revert_snapshot_issues|reflexivity]|]. intros plan.
    apply under_bind; [eapply issues_more; [apply check_current_issues|reflexivity]|]. intros _.
    apply under_bind; [apply under_plainly; eapply issues_more; [apply prepare_retention_issues|reflexivity]|].
    intros retained. do 3 (apply under_bind; [walk|intros _]).
    apply under_bind; [eapply issues_more; [apply flip_issues|reflexivity]|]. intros _.
    apply under_bind; [eapply issues_more; [apply commit_revert_issues|reflexivity]|]. intros _.
    eapply issues_more; [apply finish_revert_issues|reflexivity].
  - intros h1 h2 H. apply target_seen_app. by left.
Qed.

Lemma rollback_waits_for_target_witness :
  ∃ h, trace Site.after_revert = trace Site.before_revert ++ h
  ∧ ∀ h1 args x h2, h = h1 ++ (args, x) :: h2 → effect_of args = Services →
      target_seen Site.sample_revert h1.
Proof.
  apply (rollback_waits_for_target Site.four Site.some_hash Site.some_mac Site.some_text Site.some_time
    Site.sample_revert Site.before_revert Site.after_revert (Returns tt)).
  vm_compute. reflexivity.
Defined.
End CutoverOrder.
