(* ===== verification/CutoverAborts.v ===== *)
(** * What an aborted cutover leaves

    The bounds of the autoscalers and the side the routing edge is on are the class [Placement].
    Every end of a cutover before traffic moves puts the edge back, and every end puts the
    autoscalers' bounds back. *)
From Stdlib Require Import String.
From S2P Require Import Prelude JsString Json JsonParse K8sNames Effects DeployState DeployStateFacts.
From S2P Require Import ServiceSelector Traffic StablePools ReleaseNames Gc Gates Retention PrepareRetention.
From S2P Require Import Cutover Commands CutoverCommands Site.
Import DeployState K8sNames ServiceSelector Traffic ReleaseNames Cutover Commands CutoverCommands.
Local Open Scope stdpp_scope.
Local Open Scope js_scope.
Local Open Scope Z_scope.

Module CutoverAborts.

(** The kinds of command that leave the autoscalers alone. *)
Abbreviation others := [Reads; Workloads; Pods; Services].

Definition hpa_args (n ns : string) : list string :=
  Gc.get_path_args "hpa" n ns "{.metadata.name}|{.spec.minReplicas}|{.spec.maxReplicas}".

Class Placement (C : Type) `{!Exec C} `{!Surroundings (host C)} `{!Collaborators (host C)}
    `{!RunCollaborators (host C)} (ns : string) := {
  bounds : host C → string → option (Z * Z);
  on_previous : host C → Prop;
  bounds_shown : ∀ n w x w' b,
    execCapture "kubectl" (hpa_args n ns) w = (Returns x, w') → exitCode x = 0 →
    is_empty (Gc.field (stdout x) 0) = false → Gates.read_bounds (stdout x) = Some b → bounds w n = Some b;
  bounds_patched : ∀ n a b w x w',
    execCapture "kubectl" (Gates.patch_hpa_args n ns a b) w = (Returns x, w') →
    (∀ o, o ≠ n → bounds w' o = bounds w o)
    ∧ bounds w' n = if exitCode x =? 0 then Some (a, b) else bounds w n;
  bounds_kept : ∀ f, respects others (λ w, ∀ n, bounds w n = f n);
  bounds_deleted : ∀ cmd args w r w',
    execCapture cmd args w = (r, w') → effect_of args = Deletes →
    ∀ n, bounds w' n = bounds w n ∨ bounds w' n = None;
  edge_kept : respects [Reads; Workloads; Autoscalers; Pods; Services; Deletes] on_previous;
  edge_back : ∀ w r w', restoreEdgeToPreviousBuild w = (r, w') → on_previous w'
}.

Section Aborts.
Context {C : Type} `{!Exec C} `{!Surroundings (host C)} `{!Collaborators (host C)}
  `{!RunCollaborators (host C)} {ns : string} `{!Placement C ns}.

Abbreviation W := (host C).

(** Commands can be spawned, and putting the edge back does not throw. *)
Hypothesis spawns : ∀ cmd args (w : W), ∃ x w', execCapture cmd args w = (Returns x, w').
Hypothesis edge_returns : ∀ w : W, ∃ w', restoreEdgeToPreviousBuild w = (Returns tt, w').

(** ** The edge *)

(** A failure leaves the edge on the previous build. *)
Definition puts_back {E A} (m : io W E A) : Prop :=
  triple (λ _, True) m (λ _ _, True) (λ _, on_previous).

Lemma puts_back_ret {E A} (a : A) : puts_back (E := E) (ret a).
Proof. by apply triple_ret. Qed.

Lemma puts_back_bind {E A B} (m : io W E A) (f : A → io W E B) :
  puts_back m → (∀ a, puts_back (f a)) → puts_back (ibind m f).
Proof. intros Hm Hf. by eapply triple_bind; [exact Hm|]. Qed.

Lemma puts_back_command args : puts_back (Gates.kubectl args).
Proof.
  intros w _. unfold Gates.kubectl, plainly, catch. by destruct (spawns "kubectl" args w) as (x & w' & ->).
Qed.

Lemma puts_back_pause ms : puts_back (Gates.pause ms).
Proof. by intros w _. Qed.

(** Once the edge is back, the rest of an abort keeps it there. *)
Lemma puts_back_then {E A} (m : io W E A) :
  issues [Reads; Workloads; Autoscalers; Pods; Services; Deletes] m →
  triple on_previous m (λ _, on_previous) (λ _, on_previous).
Proof. intros Hm. apply (Hm _ edge_kept). Qed.

Lemma puts_back_edge {A} (m : io W cutover_error A) :
  issues [Reads; Workloads; Autoscalers; Pods; Services; Deletes] m →
  puts_back (do! _ := plainly restoreEdgeToPreviousBuild in m).
Proof.
  intros Hm w _. unfold ibind, plainly, catch. destruct (restoreEdgeToPreviousBuild w) as [r w1] eqn:He.
  apply edge_back in He as Hb. destruct (edge_returns w) as [w2 Hw2]. rewrite He in Hw2.
  injection Hw2 as -> ->. specialize (puts_back_then m Hm w2 Hb). destruct (m w2) as [[]]; done.
Qed.

Lemma puts_back_refuse {A} message : puts_back (A := A) (Gates.refuse message).
Proof. apply puts_back_edge. walk. Qed.

Lemma puts_back_abort {A} n hpas message : puts_back (A := A) (Gates.abortWarmupSetup n hpas message).
Proof. apply puts_back_edge. walk. apply restore_issues. by_kind. Qed.

Lemma puts_back_each {A} (f : A → io W cutover_error unit) l :
  (∀ x, puts_back (f x)) → puts_back (Gates.each f l).
Proof.
  intros Hf. induction l; cbn [Gates.each]; [apply puts_back_ret|]. apply puts_back_bind; auto.
Qed.

(** A failed attempt whose handler puts the edge back. *)
Lemma puts_back_catch {E A} (m : io W E A) (h : E → io W cutover_error A) :
  (∀ e, puts_back (h e)) → puts_back (catch m h).
Proof.
  intros Hh w _. unfold catch. destruct (m w) as [[a|e] w1]; [done|]. by apply (Hh e w1).
Qed.

Ltac backs := repeat (cbv zeta; first
  [ solve [auto] | apply puts_back_ret | apply puts_back_command | apply puts_back_pause | apply puts_back_refuse
  | apply puts_back_abort | apply puts_back_each; intros ? | apply puts_back_bind; [|intros ?]
  | match goal with |- puts_back (match ?x with _ => _ end) => destruct x end ]).

Lemma puts_back_poll ctx attempts status : puts_back (Gates.poll_policy ctx attempts status).
Proof. revert status. induction attempts; intros; cbn [Gates.poll_policy]; backs. Qed.
#[local] Hint Resolve puts_back_poll : core.

Lemma puts_back_await ctx targets attempts : puts_back (Gates.await_capacity ctx targets attempts).
Proof. induction attempts; cbn [Gates.await_capacity]; backs. Qed.

Lemma puts_back_readiness sha256_hex i : puts_back (readiness_gates sha256_hex i).
Proof.
  unfold readiness_gates, Cutover.when, Gates.waitPolicyAccepted.
  backs. apply puts_back_catch. intros e. apply puts_back_edge. walk.
Qed.

Lemma puts_back_warm ctx pools previous : puts_back (Gates.warmUpHpas ctx pools previous).
Proof.
  unfold Gates.warmUpHpas. cbv zeta. apply puts_back_bind.
  - generalize (@nil Gates.warmed). induction pools; intros; cbn [Gates.warm_pools]; backs.
  - intros hpas. unfold Gates.scale_up. backs.
Qed.

Lemma puts_back_capacity ctx targets n hpas :
  puts_back (Gates.waitReadyCapacity ctx targets (Gates.restoreWarmedHpas n hpas)).
Proof.
  unfold Gates.waitReadyCapacity. apply puts_back_bind; [apply puts_back_await|]. intros [|]; [backs|].
  apply puts_back_edge. walk; [apply restore_issues; by_kind|].
  eapply issues_more; [apply diagnose_issues|reflexivity].
Qed.

Lemma puts_back_revalidate i hpas : puts_back (revalidate i hpas).
Proof.
  apply puts_back_catch. intros e.
  assert (puts_back (A := unit) (do! _ := restore_edge in do! _ := plainly (restore_hpas i hpas) in
    throw (PlainError "Committed deploy state could not be revalidated"))) as Hback.
  { apply puts_back_edge. walk. apply restore_issues. by_kind. }
  destruct e as [e|]; [|done]. destruct (state i); [done|]. destruct (truthy_text _); [|done].
  destruct (is_unavailable e); [backs|done].
Qed.

Lemma puts_back_prepare sha256_hex hmac decode_base64 i : puts_back (prepare sha256_hex hmac decode_base64 i).
Proof.
  unfold prepare, cleaning. cbv zeta. apply puts_back_bind.
  { apply puts_back_catch. intros e. apply puts_back_edge. walk. }
  intros _. apply puts_back_bind; [apply puts_back_readiness|]. intros _.
  apply puts_back_bind; [apply puts_back_warm|]. intros [targets hpas].
  apply puts_back_bind; [apply puts_back_capacity|]. intros _.
  apply puts_back_bind; [apply puts_back_revalidate|]. intros _.
  apply puts_back_bind; [|intros; backs]. apply puts_back_catch. intros e w _.
  pose proof (puts_back_edge (A := option PrepareRetention.prepared)
    (do! _ := plainly (restore_hpas i hpas) in throw e)) as H.
  assert (issues [Reads; Workloads; Autoscalers; Pods; Services; Deletes]
    (do! _ := plainly (restore_hpas i hpas) in throw (A := option PrepareRetention.prepared) e)) as Hi.
  { walk. apply restore_issues. by_kind. }
  specialize (H Hi w I). unfold ibind, restore_edge in *. destruct (plainly restoreEdgeToPreviousBuild w) as [[]]; done.
Qed.

(** ** The switch *)

(** The switch gives up with an exit code only at its end; any other error is one it passes on. *)
Definition passed_on (e : cutover_error) : Prop := ∃ message, e = PlainError message.
Definition passes {A} (m : io W cutover_error A) : Prop := ∀ w e w', m w = (Throws e, w') → passed_on e.

Lemma passes_ret {A} (a : A) : passes (ret a).
Proof. by intros w e w' [=]. Qed.

Lemma passes_plainly {A} (m : io W string A) : passes (plainly m).
Proof. intros w e w'. unfold plainly, catch. destruct (m w) as [[a|x] w1]; [done|]. intros [= <- <-]. by eexists. Qed.

Lemma passes_bind {A B} (m : io W cutover_error A) (f : A → io W cutover_error B) :
  passes m → (∀ a, passes (f a)) → passes (ibind m f).
Proof. intros Hm Hf w e w' [Hr|(a & w1 & _ & Hr)]%ibind_Throws; [by eapply Hm|by eapply Hf]. Qed.

Ltac passing := repeat (cbv zeta; first
  [ solve [auto] | apply passes_ret | apply passes_plainly | apply passes_bind; [|intros ?]
  | match goal with |- passes (match ?x with _ => _ end) => destruct x end ]).

Lemma passes_snapshot release n expected s ds : passes (snapshot_services release n expected s ds).
Proof. revert s. induction ds; intros; cbn [snapshot_services]; passing. Qed.

Lemma passes_patch isIP release n project s version log ds :
  passes (patch_services isIP release n project s version log ds).
Proof. revert log. induction ds; intros; cbn [patch_services]; unfold swap; passing. Qed.

Lemma passes_restore isIP n project s patched : passes (restore_services isIP n project s patched).
Proof. induction patched; cbn [restore_services]; unfold swap; passing. Qed.

(** A switch that gives up has put the edge back. *)
Lemma switch_edge isIP i hpas :
  triple (λ _, True) (switch isIP i hpas) (λ _ _, True) (λ e w, passed_on e ∨ on_previous w).
Proof.
  unfold switch, switchTrafficToNewBuild, restore_hpas. cbv zeta.
  assert (∀ A B (m : io W cutover_error A) (f : A → io W cutover_error B), passes m →
    (∀ a, triple (λ _, True) (f a) (λ _ _, True) (λ e w, passed_on e ∨ on_previous w)) →
    triple (λ _, True) (ibind m f) (λ _ _, True) (λ e w, passed_on e ∨ on_previous w)) as Hbind.
  { intros A B m f Hm Hf w _. unfold ibind. destruct (m w) as [[a|e] w1] eqn:Hr; [by apply Hf|].
    left. by eapply Hm. }
  apply Hbind; [apply passes_snapshot|]. intros s. apply Hbind.
  { destruct (_ =? 0)%nat; [apply passes_patch|apply passes_ret]. }
  intros [patched failed]. destruct (0 <? _)%nat; [|by apply triple_ret].
  apply Hbind; [apply passes_restore|]. intros ?.
  eapply triple_weaken; [apply puts_back_edge|done|done|by right].
  walk. apply restore_issues. by_kind.
Qed.

(** ** The autoscalers *)

(** What holds of a state holds of another with the same bounds. *)
Definition of_bounds (P : W → Prop) : Prop := ∀ w w', (∀ n, bounds w' n = bounds w n) → P w → P w'.

Lemma steady {E A} kinds (m : io W E A) (P : W → Prop) :
  issues kinds m → forallb (λ k, bool_decide (k ∈ others)) kinds = true → of_bounds P →
  triple P m (λ _, P) (λ _, P).
Proof.
  intros Hm Hk HP w Hw. pose proof (issues_more _ _ m Hm Hk _ (bounds_kept (bounds w)) w (λ n, eq_refl)) as H.
  destruct (m w) as [[a|e] w1]; by apply (HP w).
Qed.

Lemma respects_of_bounds (P : W → Prop) : of_bounds P → respects others P.
Proof.
  intros HP.
  assert (∀ E A (m : io W E A), (∀ f, invariant (λ w, ∀ n, bounds w n = f n) m) → invariant P m) as Hm.
  { intros E A m H w Hw. specialize (H (bounds w) w (λ n, eq_refl)).
    destruct (m w) as [[a|e] w1]; by apply (HP w). }
  assert (∀ g : W → W, (∀ f w, (∀ n, bounds w n = f n) → ∀ n, bounds (g w) n = f n) → ∀ w, P w → P (g w)) as Hg.
  { intros g H w Hw. apply (HP w); [|done]. by apply H. }
  split.
  - intros cmd args Ha. apply Hm. intros f. by apply (on_command _ _ (bounds_kept f)).
  - intros cmd args text. apply Hm. intros f. apply (on_document _ _ (bounds_kept f)).
  - apply (Hg (λ w, (now w).2)). intros f. apply (on_now _ _ (bounds_kept f)).
  - intros ms. apply (Hg (sleep ms)). intros f. apply (on_sleep _ _ (bounds_kept f)).
  - apply (Hg (λ w, (randomUUID w).2)). intros f. apply (on_random _ _ (bounds_kept f)).
  - intros. apply Hm. intros f. apply (on_discover _ _ (bounds_kept f)).
  - intros. apply Hm. intros f. apply (on_healthy _ _ (bounds_kept f)).
  - intros w d. apply (Hg (λ w, mkHost d (cluster w))). intros f w'. apply (on_disk_change _ _ (bounds_kept f)).
  - apply Hm. intros f. apply (on_edge _ _ (bounds_kept f)).
  - intros b Hb. exfalso. set_solver.
  - intros. apply Hm. intros f. apply (on_readiness _ _ (bounds_kept f)).
  - intros. apply Hm. intros f. apply (on_cdn _ _ (bounds_kept f)).
Qed.

(** A program that keeps the bounds and does not throw. *)
Definition silent {E A} (m : io W E A) : Prop := ∀ P, of_bounds P → triple P m (λ _, P) (λ _ _, False).

Lemma silent_ret {E A} (a : A) : silent (E := E) (ret a).
Proof. intros P HP. by apply triple_ret. Qed.

Lemma silent_bind {E A B} (m : io W E A) (f : A → io W E B) :
  silent m → (∀ a, silent (f a)) → silent (ibind m f).
Proof. intros Hm Hf P HP. eapply triple_bind; [by apply Hm|]. intros a. by apply Hf. Qed.

Lemma silent_kubectl args : effect_of args ∈ others → silent (Gates.kubectl args).
Proof.
  intros Ha P HP w Hw. unfold Gates.kubectl, plainly, catch.
  destruct (spawns "kubectl" args w) as (x & w' & Hx). rewrite Hx. apply (HP w); [|done].
  pose proof (on_command _ _ (bounds_kept (bounds w)) "kubectl" args Ha w (λ n, eq_refl)) as H.
  by rewrite Hx in H.
Qed.

Lemma silent_pause ms : silent (Gates.pause ms).
Proof.
  intros P HP w Hw. apply (HP w); [|done]. intros n.
  exact (on_sleep _ _ (bounds_kept (bounds w)) ms w (λ n, eq_refl) n).
Qed.

Lemma silent_now {E} : silent (E := E) (sample now).
Proof.
  intros P HP w Hw. unfold sample.
  pose proof (on_now _ _ (bounds_kept (bounds w)) w (λ n, eq_refl)) as H.
  destruct (now w) as [t w']. by apply (HP w).
Qed.

Ltac silence := repeat (cbv zeta; first
  [ solve [auto] | apply silent_ret | apply silent_kubectl; by_kind | apply silent_pause
  | apply silent_bind; [|intros ?] | match goal with |- silent (match ?x with _ => _ end) => destruct x end ]).

Lemma silent_await ctx targets attempts : silent (Gates.await_capacity ctx targets attempts).
Proof. induction attempts; cbn [Gates.await_capacity]; silence. Qed.

Lemma silent_scale ctx targets l : silent (Gates.each (Gates.scale_up ctx targets) l).
Proof. induction l; cbn [Gates.each]; unfold Gates.scale_up; silence. Qed.

Section Bounds.
Context (start : string → option (Z * Z)).

Definition restored (w : W) : Prop := ∀ n, bounds w n = start n.

(** Every autoscaler whose bounds are not the chart's is recorded with the chart's. *)
Definition warmed_up (hpas : list Gates.warmed) (w : W) : Prop :=
  (∀ h, h ∈ hpas → start (Gates.w_name h) = Some (Gates.w_min h, Gates.w_max h))
  ∧ ∀ n, bounds w n = start n ∨ n ∈ map Gates.w_name hpas.

Lemma restored_of_bounds : of_bounds restored.
Proof. intros w w' Hb Hw n. by rewrite Hb. Qed.

Lemma warmed_of_bounds hpas : of_bounds (warmed_up hpas).
Proof. intros w w' Hb [H1 H2]. split; [done|]. intros n. rewrite Hb. apply H2. Qed.

Lemma restored_warmed w : restored w ↔ warmed_up [] w.
Proof. split; [intros H; split; [set_solver|by left; apply H]|intros [_ H] n; destruct (H n); set_solver]. Qed.

(** An attempt to restore is accepted within three. *)
Hypothesis accepted : ∀ h (w : W), ∃ w', Gates.restore_attempts ns h 3 w = (Returns true, w').

Lemma restore_attempts_at h k w w' :
  Gates.restore_attempts ns h k w = (Returns true, w') →
  (∀ o, o ≠ Gates.w_name h → bounds w' o = bounds w o)
  ∧ bounds w' (Gates.w_name h) = Some (Gates.w_min h, Gates.w_max h).
Proof.
  revert w. induction k as [|k IH]; intros w; cbn [Gates.restore_attempts]; [done|]. unfold ibind.
  destruct (execCapture "kubectl" _ w) as [[x|e] w1] eqn:Hx; [|done].
  apply bounds_patched in Hx as [Ho Hn]. destruct (exitCode x =? 0).
  - intros [= <-]. done.
  - intros Hr. destruct (IH _ Hr) as [Ho' Hn']. split; [|done]. intros o Hne. by rewrite Ho', Ho.
Qed.

Lemma restore_at hpas : triple (warmed_up hpas) (Gates.restoreWarmedHpas ns hpas) (λ _, restored) (λ _ _, False).
Proof.
  unfold Gates.restoreWarmedHpas.
  enough (∀ done, triple (λ w, warmed_up hpas w ∧ ∀ n, n ∈ done → bounds w n = start n)
    (Gates.restore_warmed ns hpas done) (λ _, restored) (λ _ _, False)) as H.
  { eapply triple_weaken; [apply (H [])| |done|done]. intros w Hw. split; [done|set_solver]. }
  induction hpas as [|h hpas IH]; intros done; cbn [Gates.restore_warmed].
  { apply triple_ret. intros w [Hw _]. by apply restored_warmed. }
  destruct (bool_decide _) eqn:Hd.
  - apply bool_decide_eq_true in Hd. eapply triple_weaken; [apply (IH done)| |done|done].
    intros w [[H1 H2] H3]. split; [split; [set_solver|]|done]. intros n.
    destruct (H2 n) as [|[->|]%elem_of_cons]; auto.
  - eapply (triple_bind _ _ _ (λ ok w, ok = true ∧ warmed_up hpas w
      ∧ ∀ n, n ∈ Gates.w_name h :: done → bounds w n = start n)).
    + intros w [[H1 H2] H3]. destruct (accepted h w) as [w' Hr]. rewrite Hr.
      apply restore_attempts_at in Hr as [Ho Hn]. assert (bounds w' (Gates.w_name h) = start (Gates.w_name h)) as Hh.
      { rewrite Hn. symmetry. apply H1. set_solver. }
      split_and!; [done|split; [set_solver|]|].
      * intros n. destruct (decide (n = Gates.w_name h)) as [->|Hne]; [by left|]. rewrite Ho by done.
        destruct (H2 n) as [|Hm]; [by left|]. cbn in Hm. apply elem_of_cons in Hm as [|]; [done|by right].
      * intros n Hn'. destruct (decide (n = Gates.w_name h)) as [->|Hne]; [done|]. rewrite Ho by done.
        apply elem_of_cons in Hn' as [|]; [done|auto].
    + intros ok. apply triple_pure. intros ->. apply IH.
Qed.
Lemma silent_edge : silent (plainly restoreEdgeToPreviousBuild).
Proof.
  intros P HP w Hw. unfold plainly, catch. destruct (edge_returns w) as [w' He]. rewrite He.
  apply (HP w); [|done]. pose proof (on_edge _ _ (bounds_kept (bounds w)) w (λ n, eq_refl)) as H.
  by rewrite He in H.
Qed.

Lemma restore_plainly hpas :
  triple (warmed_up hpas) (plainly (Gates.restoreWarmedHpas ns hpas)) (λ _, restored) (λ _ _, False).
Proof. eapply triple_catch; [apply restore_at|]. intros e w []. Qed.

Lemma no_throw {E A} P (m : io W E A) Q X : triple P m Q (λ _ _, False) → triple P m Q X.
Proof. intros Hm. by eapply triple_weaken; [exact Hm| | |]. Qed.

(** An abort: the edge, the autoscalers, then the rest. *)
Lemma give_back {A} hpas (m : io W cutover_error A) Q :
  triple restored m Q (λ _, restored) →
  triple (warmed_up hpas) (do! _ := plainly restoreEdgeToPreviousBuild in
                           do! _ := plainly (Gates.restoreWarmedHpas ns hpas) in m) Q (λ _, restored).
Proof.
  intros Hm.
  eapply triple_bind; [apply no_throw, (silent_edge _ (warmed_of_bounds hpas))|]. intros ?.
  eapply triple_bind; [apply no_throw, (restore_plainly hpas)|]. intros ?. exact Hm.
Qed.

Lemma gives_up {A} e (Q : A → W → Prop) : triple restored (throw e : io W cutover_error A) Q (λ _, restored).
Proof. by apply triple_throw. Qed.

(** A silent first part. *)
Lemma silent_then {E A B} (m : io W E A) (f : A → io W E B) P Q X :
  silent m → of_bounds P → (∀ a, triple P (f a) Q X) → triple P (ibind m f) Q X.
Proof.
  intros Hm HP Hf. eapply triple_bind; [apply no_throw, (Hm _ HP)|]. exact Hf.
Qed.

Abbreviation hpa_of ctx pool := (hpa (poolResourceNames (Gates.releaseName ctx) pool (Gates.buildId ctx))).

(** One autoscaler under temporary bounds. *)
Lemma warm_one ctx n hpas b min max :
  Gates.namespace ctx = ns → n ∉ map Gates.w_name hpas → start n = Some b →
  triple (warmed_up hpas) (Gates.kubectl (Gates.patch_hpa_args n ns min max))
    (λ x w, if exitCode x =? 0 then warmed_up (hpas ++ [Gates.mkWarmed n b.1 b.2]) w else warmed_up hpas w)
    (λ _ _, False).
Proof.
  intros Hns Hn Hb w [H1 H2]. unfold Gates.kubectl, plainly, catch.
  destruct (spawns "kubectl" (Gates.patch_hpa_args n ns min max) w) as (x & w' & Hx). rewrite Hx.
  apply bounds_patched in Hx as [Ho Hp]. destruct (exitCode x =? 0).
  - split.
    + intros h [Hh|Hh]%elem_of_app; [auto|]. apply list_elem_of_singleton in Hh as ->. cbn. by rewrite Hb, <- surjective_pairing.
    + intros n'. rewrite map_app, elem_of_app. destruct (decide (n' = n)) as [->|Hne]; [right; right; set_solver|].
      rewrite Ho by done. destruct (H2 n'); auto.
  - apply (warmed_of_bounds hpas w); [|done]. intros n'. destruct (decide (n' = n)) as [->|]; auto.
Qed.

Lemma read_shows ctx n hpas :
  Gates.namespace ctx = ns → n ∉ map Gates.w_name hpas →
  triple (warmed_up hpas) (Gates.kubectl (hpa_args n ns))
    (λ x w, (exitCode x = 0 → is_empty (Gc.field (stdout x) 0) = false →
             ∀ b, Gates.read_bounds (stdout x) = Some b → start n = Some b)
            ∧ warmed_up hpas w)
    (λ _ _, False).
Proof.
  intros Hns Hn w Hw. pose proof (silent_kubectl (hpa_args n ns) ltac:(by_kind) _ (warmed_of_bounds hpas) w Hw) as H.
  unfold Gates.kubectl, plainly, catch in *.
  destruct (spawns "kubectl" (hpa_args n ns) w) as (x & w' & Hx). rewrite Hx in H |- *.
  split; [|done]. intros H0 He b Hb. pose proof (bounds_shown _ _ _ _ _ Hx H0 He Hb) as Hs.
  destruct Hw as [_ Hw]. destruct (Hw n); [congruence|done].
Qed.

Lemma warm_pools_at ctx prev pools hpas :
  Gates.namespace ctx = ns → NoDup (map (λ p, hpa_of ctx p) pools) →
  (∀ p, p ∈ pools → hpa_of ctx p ∉ map Gates.w_name hpas) →
  triple (warmed_up hpas) (Gates.warm_pools ctx prev pools hpas) (λ hp, warmed_up hp) (λ _, restored).
Proof.
  intros Hns. revert hpas. induction pools as [|pool pools IH]; intros hpas Hnd Hout; cbn [Gates.warm_pools].
  { by apply triple_ret. }
  cbv zeta. apply NoDup_cons in Hnd as [Hfresh Hnd]. rewrite Hns.
  assert (hpa_of ctx pool ∉ map Gates.w_name hpas) as Hn by (apply Hout; set_solver).
  assert (∀ p, p ∈ pools → hpa_of ctx p ∉ map Gates.w_name hpas) as Hout' by (intros; apply Hout; set_solver).
  eapply triple_bind; [apply no_throw, (read_shows ctx _ hpas Hns Hn)|].
  intros x. cbv beta.
  apply triple_pure. intros Hshown.
  destruct (exitCode x =? 0) eqn:H0; cbn [negb]; [|apply give_back, gives_up].
  destruct (is_empty _); [apply give_back, gives_up|]. apply Z.eqb_eq in H0.
  destruct (Gates.read_bounds _) as [[lo hi]|]; [|apply give_back, gives_up].
  specialize (Hshown H0 eq_refl _ eq_refl). destruct (look prev pool) as [outgoing|]; [|by apply IH].
  destruct (lo <? outgoing); [|by apply IH].
  eapply triple_bind; [apply no_throw, (warm_one ctx _ hpas _ outgoing (Z.max hi outgoing) Hns Hn Hshown)|].
  intros y. cbv beta. destruct (exitCode y =? 0); cbn [negb]; [|apply give_back, gives_up].
  apply IH; [done|]. intros p Hp. rewrite map_app, elem_of_app. intros [|Hin]; [by eapply Hout'|].
  apply list_elem_of_singleton in Hin.
  change (hpa_of ctx p = hpa_of ctx pool) in Hin. apply Hfresh. rewrite <- Hin.
  by apply (list_elem_of_fmap_2 (λ p, hpa_of ctx p)).
Qed.

Lemma warm_up_at ctx pools prev :
  Gates.namespace ctx = ns → NoDup (map (λ p, hpa_of ctx p) pools) →
  triple restored (Gates.warmUpHpas ctx pools prev) (λ r, warmed_up r.2) (λ _, restored).
Proof.
  intros Hns Hnd. unfold Gates.warmUpHpas. cbv zeta. eapply triple_bind.
  { eapply triple_weaken; [apply (warm_pools_at ctx prev pools []); [done|done|set_solver]| |intros r w H; exact H|auto].
    intros w. apply restored_warmed. }
  intros hpas. apply (silent_then _ _ _ _ _ (silent_scale ctx _ prev) (warmed_of_bounds hpas)).
  intros ?. by apply triple_ret.
Qed.

Lemma capacity_at ctx targets hpas :
  triple (warmed_up hpas) (Gates.waitReadyCapacity ctx targets (Gates.restoreWarmedHpas ns hpas))
    (λ _, warmed_up hpas) (λ _, restored).
Proof.
  unfold Gates.waitReadyCapacity. apply (silent_then _ _ _ _ _ (silent_await ctx targets _) (warmed_of_bounds hpas)).
  intros [|]; [by apply triple_ret|]. apply give_back.
  eapply triple_bind; [apply (steady [Reads] _ restored (diagnose_issues ctx)); [done|apply restored_of_bounds]|].
  intros ?. apply gives_up.
Qed.

Lemma revalidate_at i hpas :
  namespace i = ns →
  triple (warmed_up hpas) (revalidate i hpas) (λ _, warmed_up hpas) (λ _, restored).
Proof.
  intros Hns. unfold revalidate, restore_hpas. rewrite Hns. eapply triple_catch.
  - apply (steady [Reads]); [|done|apply warmed_of_bounds]. unfold read_again. walk.
    apply read_state_issues.
  - intros e. destruct e as [e|]; [|apply give_back, gives_up].
    destruct (state i); [apply give_back, gives_up|]. destruct (truthy_text _); [|apply give_back, gives_up].
    destruct (is_unavailable e); [by apply triple_ret|apply give_back, gives_up].
Qed.

Context (isIP : string → Z) (sha256_hex : string → string) (hmac : string → string → string).
Context (decode_base64 : string → string) (toISOString : Z → string).

Lemma prepare_at i :
  namespace i = ns → NoDup (map (λ p, hpa_of (context i) p) (pools i)) →
  triple restored (prepare sha256_hex hmac decode_base64 i) (λ r, warmed_up r.1) (λ _, restored).
Proof.
  intros Hns Hnd. unfold prepare, cleaning. cbv zeta. unfold restore_hpas. rewrite Hns.
  eapply triple_bind.
  { apply (steady [Reads; Workloads] _ restored); [|done|apply restored_of_bounds].
    apply under_catch; [apply under_plainly, protect_issues|]. intros e. unfold restore_edge. walk. }
  intros ?. eapply triple_bind.
  { apply (steady [Reads] _ restored (gates_issues sha256_hex i)); [done|apply restored_of_bounds]. }
  intros ?. eapply triple_bind; [by apply (warm_up_at (context i))|]. intros [targets hpas].
  eapply triple_bind; [apply capacity_at|]. intros ?. eapply triple_bind; [by apply revalidate_at|].
  intros ?. apply (triple_bind _ _ _ (λ _, warmed_up hpas)); [|intros ?; by apply triple_ret].
  eapply triple_catch.
  - apply (steady [Reads; Workloads] _ (warmed_up hpas)); [|done|apply warmed_of_bounds].
    apply under_plainly, prepare_retention_issues.
  - intros e w Hw. pose proof (give_back hpas (throw e : io W cutover_error (option PrepareRetention.prepared))
      _ (gives_up e (λ _, warmed_up hpas)) w Hw) as H.
    unfold ibind, restore_edge in *. destruct (plainly restoreEdgeToPreviousBuild w) as [[]]; [|done].
    by destruct (plainly _ _) as [[]].
Qed.

(** ** The switch, the commit and what follows *)

Lemma steady_passes {A} kinds (m : io W cutover_error A) P X :
  issues kinds m → forallb (λ k, bool_decide (k ∈ others)) kinds = true → of_bounds P → passes m →
  (∀ e w, passed_on e → X e w) → triple P m (λ _, P) X.
Proof.
  intros Hm Hk HP Hp HX w Hw. pose proof (steady kinds m P Hm Hk HP w Hw) as H.
  destruct (m w) as [[a|e] w1] eqn:Hr; [done|]. by eapply HX, Hp.
Qed.

(** The end of a switch that gives up. *)
Lemma switch_at i hpas :
  namespace i = ns →
  triple (warmed_up hpas) (switch isIP i hpas) (λ _, warmed_up hpas)
    (λ e w, passed_on e ∨ restored w ∧ on_previous w).
Proof.
  intros Hns. unfold switch, switchTrafficToNewBuild, restore_hpas. cbv zeta. rewrite Hns. eapply triple_bind.
  { eapply (steady_passes [Reads]); [apply snapshot_services_issues|done|apply warmed_of_bounds|apply passes_snapshot|by left]. }
  intros s. eapply triple_bind.
  { eapply (steady_passes [Reads; Pods; Services]); [|done|apply warmed_of_bounds| |by left].
    - destruct (_ =? 0)%nat; [apply patch_services_issues|walk].
    - destruct (_ =? 0)%nat; [apply passes_patch|apply passes_ret]. }
  intros [patched failed]. destruct (0 <? _)%nat; [|by apply triple_ret]. eapply triple_bind.
  { eapply (steady_passes [Reads; Pods; Services]); [apply restore_services_issues|done|apply warmed_of_bounds|apply passes_restore|by left]. }
  intros ? w Hw.
  assert (issues [Reads; Workloads; Autoscalers; Pods; Services; Deletes]
    (do! _ := plainly (Gates.restoreWarmedHpas (W := W) ns hpas) in throw (A := unit) (CutoverExitError 1))) as Hi.
  { walk. apply restore_issues. by_kind. }
  pose proof (puts_back_edge _ Hi w I) as He.
  pose proof (give_back (A := unit) hpas _ (λ _, warmed_up hpas) (gives_up (CutoverExitError 1) _) w Hw) as Hb.
  destruct (ibind (plainly restoreEdgeToPreviousBuild) _ w) as [[]]; [exact Hb|right; split; [exact Hb|exact He]].
Qed.

Lemma commit_at i hpas :
  namespace i = ns →
  triple (warmed_up hpas) (commit sha256_hex toISOString i hpas) (λ _, warmed_up hpas) (λ _, restored).
Proof.
  intros Hns. unfold commit, restore_hpas. rewrite Hns.
  apply (silent_then _ _ _ _ _ silent_now (warmed_of_bounds hpas)). intros t. eapply triple_catch.
  - apply (steady [Reads] _ (warmed_up hpas)); [apply write_state_issues|done|apply warmed_of_bounds].
  - intros e. eapply triple_bind; [apply no_throw, (restore_plainly hpas)|]. intros ?. by apply triple_throw.
Qed.

(** The chart's bounds, but for the autoscalers that were deleted. *)
Definition restored_or_deleted (w : W) : Prop := ∀ n, bounds w n = start n ∨ bounds w n = None.

Lemma tidying_keeps : respects [Reads; Workloads; Deletes] restored_or_deleted.
Proof.
  assert (of_bounds restored_or_deleted) as Hsame.
  { intros w w' Hb Hw n. rewrite Hb. apply Hw. }
  pose proof (respects_of_bounds _ Hsame) as Hk.
  destruct (Hk) as [Hc]. split; try assumption; [|intros b Hb; destruct (bool_decide_pack _ Hb)].
  intros cmd args Ha. destruct (decide (effect_of args = Deletes)) as [Hd|Hd]; [|].
  2: { apply Hc. rewrite !elem_of_cons, elem_of_nil in Ha. rewrite !elem_of_cons.
       clear -Ha Hd. tauto. }
  intros w Hw. destruct (execCapture cmd args w) as [r w'] eqn:Hr.
  assert (restored_or_deleted w') as Hw'.
  { intros n. destruct (bounds_deleted _ _ _ _ _ Hr Hd n) as [->| ->]; [apply Hw|by right]. }
  by destruct r.
Qed.

Lemma finish_at i hpas retained :
  namespace i = ns →
  triple (warmed_up hpas) (finish sha256_hex hmac i hpas retained) (λ _, restored_or_deleted)
    (λ _, restored_or_deleted).
Proof.
  intros Hns. unfold finish, restore_hpas. rewrite Hns.
  eapply triple_bind; [apply no_throw, (restore_plainly hpas)|]. intros ?.
  eapply (triple_weaken _ restored_or_deleted); [|intros w Hw n; by left|intros ? w H; exact H|intros ? w H; exact H].
  assert (∀ m : io W cutover_error unit, issues [Reads; Workloads; Deletes] m →
    triple restored_or_deleted m (λ _, restored_or_deleted) (λ _, restored_or_deleted)) as Ht
    by (intros m Hm; exact (Hm _ tidying_keeps)). apply Ht.
  apply under_bind; [eapply issues_more; [apply complete_issues|reflexivity]|]. intros _.
  unfold Cutover.when, Gc.ignore. apply under_bind; [walk|]. intros _. destruct (skipCleanup i); [walk|].
  apply under_bind; [apply under_plainly, scale_down_issues|]. intros _. apply under_plainly, collection_issues.
Qed.
End Bounds.
End Aborts.

(** ** The site *)

Lemma site_capture cmd args w :
  execCapture cmd args w
  = let '(r, s) := Site.answer args (cluster w) in
    (r, mkHost (local w) (Site.with_ran s (Site.ran s ++ match r with Returns x => [(args, x)] | Throws _ => [] end))).
Proof. cbn. unfold remote. cbn. by destruct (Site.answer args (cluster w)). Qed.

Lemma site_scalers cmd args w r w' :
  execCapture cmd args w = (r, w') → Site.scalers (cluster w') = Site.scalers (Site.answer args (cluster w)).2
  ∧ Site.on_previous (cluster w') = Site.on_previous (cluster w).
Proof.
  rewrite site_capture. pose proof (Site.answer_edge args (cluster w)) as He.
  destruct (Site.answer args (cluster w)) as [r1 s1]. intros [= <- <-]. by split.
Qed.

Lemma site_patch n a b w x w' :
  execCapture "kubectl" (Gates.patch_hpa_args n "default" a b) w = (Returns x, w') →
  exitCode x = 0 ∧ Site.scalers (cluster w') = assign (Site.scalers (cluster w)) n (a, b).
Proof.
  intros Hr. pose proof (site_scalers _ _ _ _ _ Hr) as [Hs _]. rewrite site_capture in Hr.
  assert (Site.answer (Gates.patch_hpa_args n "default" a b) (cluster w)
    = (TrafficFacts.TrafficFacts.answers 0 "",
       Site.with_scalers (cluster w) (assign (Site.scalers (cluster w)) n (a, b)))) as Ha.
  { unfold Site.answer.
    rewrite (bool_decide_eq_false_2 (effect_of _ = Services)) by done.
    rewrite (bool_decide_eq_false_2 (_ = get_service_args _ _)) by done.
    rewrite (bool_decide_eq_false_2 (_ = STATE_GET_ARGS _ _)) by done.
    rewrite (bool_decide_eq_true_2 (effect_of _ = Autoscalers)) by done. cbn [orb].
    change (List.last (Gates.patch_hpa_args n "default" a b) "") with (Gates.bounds_patch a b).
    by rewrite Site.patched_bounds_of. }
  rewrite Ha in Hs, Hr. injection Hr as <- _. done.
Qed.

Lemma site_bounds n w x w' b :
  execCapture "kubectl" (hpa_args n "default") w = (Returns x, w') → exitCode x = 0 →
  is_empty (Gc.field (stdout x) 0) = false → Gates.read_bounds (stdout x) = Some b →
  look (Site.scalers (cluster w)) n = Some b.
Proof.
  rewrite site_capture. unfold Site.answer.
  rewrite (bool_decide_eq_false_2 (effect_of _ = Services)) by done.
  rewrite (bool_decide_eq_false_2 (_ = get_service_args _ _)) by done.
  rewrite (bool_decide_eq_false_2 (_ = STATE_GET_ARGS _ _)) by done.
  rewrite (bool_decide_eq_false_2 (effect_of _ = Autoscalers)) by done. cbn [orb].
  change (nth 2 (hpa_args n "default") "") with n.
  rewrite (bool_decide_eq_true_2 (_ = Site.bounds_args n)) by done.
  unfold TrafficFacts.TrafficFacts.answers.
  destruct (look _ _) as [b'|]; [|intros [= <- _]; done].
  destruct (bool_decide _) eqn:Hb'; intros [= <- _]; [|done]. apply bool_decide_eq_true in Hb'.
  cbn [stdout]. rewrite Hb'. by intros _ _ [= ->].
Qed.

(** What leaves the site's autoscalers alone. *)
Lemma site_respects kinds (I : host Site.site → Prop) :
  (∀ w w', Site.scalers (cluster w') = Site.scalers (cluster w) → Site.on_previous (cluster w') = Site.on_previous (cluster w)
     → I w → I w') →
  (∀ w, I w → I (mkHost (local w) (Site.with_edge (cluster w) true))) →
  (∀ cmd args, effect_of args ∈ kinds → effect_of args = Autoscalers → invariant I (execCapture cmd args)) →
  respects kinds I.
Proof.
  intros Hsame Hedge Hscale. split; try (by intros; apply (Hsame w)); try by intros; apply invariant_ret.
  - intros cmd args Ha. destruct (decide (effect_of args = Autoscalers)) as [He|He]; [by apply Hscale|].
    intros w Hw. destruct (execCapture cmd args w) as [r w'] eqn:Hr.
    apply site_scalers in Hr as [Hs Hp]. rewrite Site.answer_bounds in Hs by done.
    assert (I w') by by apply (Hsame w). by destruct r.
  - intros cmd args text w Hw. cbn. unfold remote. cbn.
    destruct (bool_decide (args ∈ _)); [|by apply (Hsame w)].
    destruct (_ && _); [destruct (DeployStateFacts.DeployStateFacts.server_write _ _)|]; by apply (Hsame w).
  - intros w Hw. by apply Hedge.
Qed.

#[global] Instance site_placement : Placement Site.site "default".
Proof.
  refine {| bounds := λ w n, look (Site.scalers (cluster w)) n;
            on_previous := λ w, Site.on_previous (cluster w) = true |}.
  - apply site_bounds.
  - intros n a b w x w' [H0 Hs]%site_patch. rewrite H0, Hs. split.
    + intros o Ho. rewrite TrafficFacts.TrafficFacts.look_assign. by rewrite (proj2 (String.eqb_neq n o)).
    + by rewrite TrafficFacts.TrafficFacts.look_assign, String.eqb_refl.
  - intros f. apply site_respects.
    + intros w w' Hs _ Hw n. by rewrite Hs.
    + done.
    + intros cmd args Ha He. rewrite He in Ha. by apply (bool_decide_pack _) in Ha.
  - intros cmd args w r w' [Hs _]%site_scalers Hd n. rewrite Hs, Site.answer_bounds by congruence. by left.
  - apply site_respects; [congruence|done|].
    intros cmd args _ _ w Hw. destruct (execCapture cmd args w) as [r w'] eqn:Hr.
    apply site_scalers in Hr as [_ Hp]. rewrite <- Hp in Hw. by destruct r.
  - intros w r w' Hr. cbn in Hr. by injection Hr as _ <-.
Defined.

Lemma site_spawns cmd args (w : host Site.site) : ∃ x w', execCapture cmd args w = (Returns x, w').
Proof.
  rewrite site_capture. destruct (Site.answer_returns args (cluster w)) as (x & s & ->). eauto.
Qed.

Lemma site_edge (w : host Site.site) : ∃ w', restoreEdgeToPreviousBuild w = (Returns tt, w').
Proof. cbn. eauto. Qed.

Lemma site_accepts h (w : host Site.site) : ∃ w', Gates.restore_attempts "default" h 3 w = (Returns true, w').
Proof.
  cbn [Gates.restore_attempts]. unfold ibind at 1.
  destruct (site_spawns "kubectl" (Gates.patch_hpa_args (Gates.w_name h) "default" (Gates.w_min h) (Gates.w_max h)) w)
    as (x & w' & Hx). rewrite Hx. apply site_patch in Hx as [-> _]. by exists w'.
Qed.

(** ** The ends of a cutover *)


(** A site whose new build's pods are not ready. *)
Definition not_ready : host Site.site :=
  mkHost (local Site.before)
    (Site.mkSite (Site.shop (cluster Site.before)) (Site.store (cluster Site.before))
       (Site.scalers (cluster Site.before)) false [] (firstn 3 Site.sample_script)).

Definition not_ready_end : host Site.site := (Site.cutover_of Site.sample_inputs not_ready).2.



End CutoverAborts.
