(* ===== verification/CutoverFacts.v ===== *)
(** * What a cutover records and leaves

    The states that a cutover and a rollback commit are valid, and a cutover that returns has
    switched every Service and then committed the new build. *)
From Stdlib Require Import Ascii String.
From S2P Require Import Prelude JsString Regex Json JsonParse K8sNames PlanParse Effects CacheControl.
From S2P Require Import DeployState DeployStateFacts ServiceSelector Traffic TrafficFacts ReleaseNames Gc.
From S2P Require Import Gates Retention PrepareRetention Cutover Commands CutoverCommands Site.
Import TrafficFacts DeployStateFacts DeployState K8sNames ServiceSelector Traffic Cutover Commands CutoverCommands.
Local Open Scope stdpp_scope.
Local Open Scope js_scope.
Local Open Scope Z_scope.

Module CutoverFacts.

(** ** The committed states *)

Definition digest_value (v : json) : bool := match v with JStr d => re_test DIGEST_RE d | _ => false end.

Lemma digest_entry_iff f : digest_entry f = re_test BUILD_ID_RE f.1 && digest_value f.2.
Proof. done. Qed.

Lemma prop_app fs gs k : prop (fs ++ gs) k = match prop fs k with Some v => Some v | None => prop gs k end.
Proof.
  induction fs as [|[k' v] fs IH]; [done|]. cbn. by destruct (String.eqb k' k).
Qed.

Lemma prop_when_any key fs k : k ≠ key → prop (when_any key fs) k = None.
Proof. intros Hk. destruct fs; [done|]. cbn. by rewrite (proj2 (String.eqb_neq key k)). Qed.

Section Committed.
Context (sha256_hex : string → string) (i : CutoverInputs).

Lemma committed_build : prop (committed_state sha256_hex i) "buildId" = Some (JStr (buildId i)).
Proof. done. Qed.

Lemma committed_previous : prop (committed_state sha256_hex i) "previousBuildId"
  = Some (match previousBuildId i with Some p => JStr p | None => JNull end).
Proof. done. Qed.

Lemma committed_digests :
  prop (committed_state sha256_hex i) "routingImageDigests"
  = match carried i "routingImageDigests" (JStr <$> truthy_text (routingServiceDigest i)) with
    | [] => None
    | fs => Some (JObj fs)
    end.
Proof.
  unfold committed_state. rewrite prop_app. cbn [prop String.eqb Ascii.eqb Bool.eqb].
  rewrite prop_app. destruct (carried i "routingImageDigests" _) as [|f fs]; [|done]. cbn [when_any].
  rewrite !prop_app, prop_when_any by done. unfold default_pools.
  destruct (hasPortableOrigin i || _), (unretained i); done.
Qed.
End Committed.

Lemma state_digests s d :
  isAdapterState (JObj s) = true → prop s "routingImageDigests" = Some d →
  ∃ ds, d = JObj ds ∧ ∀ f, f ∈ ds → digest_entry f = true.
Proof.
  unfold isAdapterState. intros Hs Hd. rewrite Hd in Hs. apply andb_true_iff in Hs as [_ Hs].
  destruct d as [| | | | |ds]; try discriminate Hs. exists ds. split; [reflexivity|]. by apply forallb_In.
Qed.

(** The record carried for the outgoing build. *)
Lemma recorded_digest s p v :
  isAdapterState (JObj s) = true → recorded (Some s) "routingImageDigests" p = Some v → digest_entry (p, v) = true.
Proof.
  unfold recorded. cbn [fmap option_fmap option_map jget]. intros Hs Hr.
  destruct (prop s "routingImageDigests") as [d|] eqn:Hd; [|discriminate Hr].
  destruct (state_digests s d Hs Hd) as (ds & -> & Hds). clear Hs. cbn [jget] in Hr.
  destruct (prop ds p) as [v'|] eqn:Hp; cbn [mbind option_bind] in Hr; [|discriminate Hr].
  destruct (PlanParse.truthy v'); [|discriminate Hr]. injection Hr as <-. by apply Hds, prop_Some_elem.
Qed.

Lemma carried_digests i :
  re_test BUILD_ID_RE (buildId i) = true →
  (∀ s, state i = Some s → isAdapterState (JObj s) = true) →
  (∀ d, truthy_text (routingServiceDigest i) = Some d → re_test DIGEST_RE d = true) →
  forallb digest_entry (carried i "routingImageDigests" (JStr <$> truthy_text (routingServiceDigest i))) = true.
Proof.
  intros Hb Hs Hd. apply forallb_In. intros f Hf. unfold carried in Hf.
  set (previous := match truthy_text (previousBuildId i) with Some _ => _ | None => [] end) in Hf.
  assert (∀ f, f ∈ previous → digest_entry f = true) as Hprev.
  { intros g Hg. subst previous. destruct (truthy_text (previousBuildId i)) as [p|]; [|by apply not_elem_of_nil in Hg].
    destruct (recorded (state i) "routingImageDigests" p) as [v|] eqn:Hr; [|by apply not_elem_of_nil in Hg].
    apply list_elem_of_singleton in Hg as ->. destruct (state i) as [s|] eqn:Hst; [|discriminate Hr].
    eapply recorded_digest; [by apply Hs|exact Hr]. }
  destruct (truthy_text (routingServiceDigest i)) as [d|] eqn:Ht; cbn in Hf; [|by apply Hprev].
  apply set_prop_elem in Hf as [Hf| ->]; [by apply Hprev|]. rewrite digest_entry_iff.
  cbn [fst snd digest_value]. rewrite Hb. exact (Hd d eq_refl).
Qed.

Lemma build_id_not_empty b : re_test BUILD_ID_RE b = true → String.eqb b "" = false.
Proof. intros H. apply String.eqb_neq. by intros ->. Qed.

Lemma prop_without (fs : obj) k k' : k ≠ k' → prop (without fs k) k' = prop fs k'.
Proof.
  intros Hk. induction fs as [|[n v] fs IH]; [done|].
  change (without ((n, v) :: fs) k) with (if negb (String.eqb n k) then (n, v) :: without fs k else without fs k).
  destruct (String.eqb_spec n k) as [->|Hn]; cbn [negb prop]; [by rewrite IH, (proj2 (String.eqb_neq k k'))|].
  by rewrite IH.
Qed.

Abbreviation write_all := (foldl (λ fs f, set_prop fs f.1 f.2)).

Lemma prop_write_all fs (l : obj) k : k ∉ l.*1 → prop (write_all fs l) k = prop fs k.
Proof.
  revert fs. induction l as [|[k' v] l IH]; intros fs Hk; [done|]. cbn [foldl]. rewrite IH by set_solver.
  rewrite prop_set_prop. cbn. destruct (String.eqb_spec k' k) as [->|]; [set_solver|done].
Qed.

Lemma in_play_keys v key k : k ∈ (in_play_entries v key).*1 → k = key.
Proof. unfold in_play_entries. destruct (prop _ _) as [[]|]; set_solver. Qed.

(** The fields a rollback changes, and those it keeps. *)
Lemma reverted_prop v k :
  k ∉ ["generation"; "updatedAt"; "readinessPathSupported"; "poolTopologies"; "defaultPools"; "targetPlatforms"] →
  prop (reverted_state v) k
  = if String.eqb "buildId" k then Some (JStr (rv_previous v))
    else if String.eqb "previousBuildId" k then Some (JStr (currentBuildId v)) else prop (rv_state v) k.
Proof.
  intros Hk. unfold reverted_state. cbv zeta. rewrite !foldl_app.
  rewrite !prop_write_all by (intros ->%in_play_keys; set_solver). cbn [foldl fst snd].
  rewrite !prop_set_prop. rewrite (proj2 (String.eqb_neq "poolTopologies" k)) by set_solver.
  rewrite !prop_without by set_solver.
  destruct (String.eqb_spec "previousBuildId" k) as [<-|]; [done|]. done.
Qed.

(** What a cutover and a rollback record is a deploy state: from a valid state, a safe build id and
    a well-formed image digest, the committed state passes the check that every later read applies,
    and it names the new build and the one it replaces. *)
Theorem recorded_states_valid sha256_hex (i : CutoverInputs) (v : RevertInputs) :
  re_test BUILD_ID_RE (buildId i) = true →
  (∀ s, state i = Some s → isAdapterState (JObj s) = true) →
  (∀ d, truthy_text (routingServiceDigest i) = Some d → re_test DIGEST_RE d = true) →
  re_test BUILD_ID_RE (rv_previous v) = true → isAdapterState (JObj (rv_state v)) = true →
  (isAdapterState (JObj (committed_state sha256_hex i)) = true
   ∧ buildId_of (committed_state sha256_hex i) = Some (buildId i)
   ∧ previous_of (committed_state sha256_hex i) = previousBuildId i)
  ∧ (isAdapterState (JObj (reverted_state v)) = true
     ∧ buildId_of (reverted_state v) = Some (rv_previous v)
     ∧ previous_of (reverted_state v) = Some (currentBuildId v)).
Proof.
  intros Hb Hs Hd Hp Hv. split.
  - split_and!; [|done|unfold previous_of; rewrite committed_previous; by destruct (previousBuildId i)].
    cbn [isAdapterState]. rewrite committed_build, committed_previous, committed_digests, build_id_not_empty by done.
    pose proof (carried_digests i Hb Hs Hd) as Hc. destruct (previousBuildId i); destruct (carried _ _ _); exact Hc.
  - split_and!; [|by unfold buildId_of; rewrite reverted_prop by set_solver
                 |by unfold previous_of; rewrite reverted_prop by set_solver].
    cbn [isAdapterState]. rewrite !reverted_prop by set_solver. cbn [String.eqb Ascii.eqb Bool.eqb].
    rewrite build_id_not_empty by done. unfold isAdapterState in Hv.
    apply andb_true_iff in Hv as [_ Hv]. exact Hv.
Qed.

(** An input with an image digest. *)
Definition digested : CutoverInputs :=
  let i := Site.sample_inputs in
  mkInputs (skipCleanup i) (clusterOnly i) (releaseName i) (namespace i) (buildId i) (previousBuildId i)
    (pools i) (previousPools i) (defaultPool i) (hasPortableOrigin i) (hasRoutingTier i) (hasHealthCheckPolicy i)
    (previousReplicasByPool i) (state i) (compositionSnapshot i)
    (Some ("sha256:" +:+ Site.some_hash "")) (builtTargetPlatform i) (unretainedManifestBuild i) (projectId i)
    (hasRouteExtJob i) (hasEnvoyExtensionPolicy i) (cdnEnabled i).

Lemma recorded_states_valid_witness :
  (isAdapterState (JObj (committed_state Site.some_hash digested)) = true
   ∧ buildId_of (committed_state Site.some_hash digested) = Some "v2"
   ∧ previous_of (committed_state Site.some_hash digested) = Some "v1")
  ∧ (isAdapterState (JObj (reverted_state Site.sample_revert)) = true
     ∧ buildId_of (reverted_state Site.sample_revert) = Some "v1"
     ∧ previous_of (reverted_state Site.sample_revert) = Some "v2").
Proof.
  apply (recorded_states_valid Site.some_hash digested Site.sample_revert).
  - vm_compute. reflexivity.
  - intros s [= <-]. vm_compute. reflexivity.
  - intros d Hd. injection Hd as <-. vm_compute. reflexivity.
  - vm_compute. reflexivity.
  - vm_compute. reflexivity.
Defined.

(** ** A cutover that returns *)

Section Returns.
Context {C : Type} `{!Exec C} `{!Surroundings (host C)} `{!Collaborators (host C)}
  `{!RunCollaborators (host C)}.
Context (isIP : string → Z) (sha256_hex : string → string) (hmac : string → string → string).
Context (decode_base64 : string → string) (toISOString : Z → string) (i : CutoverInputs).
Context `{!ServiceApi (host C) (namespace i)} {cm : string} `{!StateApi C cm (namespace i)}.

Abbreviation W := (host C).
Abbreviation ds := (switch_destinations (pools i) (hasPortableOrigin i) (defaultPool i)).
Abbreviation name_of d := (service_name (releaseName i) (servicePool d)).

(** Only commands for Services change their selectors. *)
Hypothesis services_kept :
  ∀ f : string → option labels, respects [Reads; Workloads; Autoscalers; Pods] (λ w : W, ∀ n, live w n = f n).

Lemma live_kept {E A} kinds (m : io W E A) w r w' :
  issues kinds m → forallb (λ k, bool_decide (k ∈ [Reads; Workloads; Autoscalers; Pods])) kinds = true →
  m w = (r, w') → ∀ n, live w' n = live w n.
Proof.
  intros Hm Hk Hr. apply (invariant_run (λ v, ∀ n, live v n = live w n) m w r w'); [|done|done].
  eapply issues_more; [exact Hm|exact Hk|apply services_kept].
Qed.

(** The Services and the state that a cutover leaves when it commits. *)
Definition promoted (w w2 : W) : Prop :=
  (∀ d, d ∈ ds → ∃ m, live w (name_of d) = Some m
     ∧ (∀ b, previousBuildId i = Some b → b ≠ "" → m !! VERSION = Some (sanitizeK8sName b ""))
     ∧ live w2 (name_of d) = Some (retargeted (sanitizeK8sName (buildId i) "") d m))
  ∧ ∀ n, n ∉ map (λ d, name_of d) ds → live w2 n = live w n.

Definition recorded_between (w2 w3 : W) : Prop :=
  ∃ c1 c2 v state,
    later (cluster w2) c1 ∧ adjacent stored later c1 c2 ∧ later c2 (cluster w3)
    ∧ stored c2 = Some (v, Some (stringify (JObj state)))
    ∧ buildId_of state = Some (buildId i) ∧ previous_of state = previousBuildId i
    ∧ generation_in (stored c1) < generationOf state.

Lemma commit_records hpas w2 w3 :
  configMapName (releaseName i) = cm → no_release (Some (releaseName i)) = false →
  namespace_of (Some (namespace i)) = Returns (namespace i) →
  commit sha256_hex toISOString i hpas w2 = (Returns tt, w3) →
  ∃ v2, (∀ n, live v2 n = live w2 n) ∧ recorded_between v2 w3.
Proof.
  intros Hcm Hr Hns Hc. unfold commit, ibind at 1, sample in Hc.
  pose proof (now_keeps w2) as Hnow. destruct (now w2) as [t v2]. exists v2. split; [exact Hnow|].
  unfold catch in Hc. destruct (writeState _ _ _ _ _ _ v2) as [[[]|e] v3] eqn:Hw.
  2: { apply ibind_Returns in Hc as (u & v4 & _ & Hc). discriminate Hc. }
  injection Hc as <-. apply (write_state_ends _ _ Hcm Hr Hns) in Hw.
  inversion Hw as [| |now' g c1 c2 v Hl H1 H2 H3 Hg Hs Hb Hst]; subst.
  exists c1, c2, v, (stamp (committed_state sha256_hex i) g now'). rewrite generation_stamp.
  split_and!; try done. unfold previous_of, stamp. rewrite !prop_set_prop. cbn.
  by destruct (previousBuildId i).
Qed.
End Returns.

(** C2. A cutover that returns has promoted the build, in this order: every Service of the topology,
    which selected the previous build, was sent to its pool of the new build, and no other Service
    changed; then a state that names the new build and the one it replaces was committed, above the
    generation of the state it replaced; only then the retention, the CDN and the superseded objects
    were dealt with. *)
Theorem cutover_promotes {C} `{!Exec C} `{!Surroundings (host C)} `{!Collaborators (host C)}
    `{!RunCollaborators (host C)} isIP sha256_hex hmac decode_base64 toISOString (i : CutoverInputs)
    `{!ServiceApi (host C) (namespace i)} {cm} `{!StateApi C cm (namespace i)} (w w' : host C) :
  (∀ f : string → option labels,
     respects [Reads; Workloads; Autoscalers; Pods] (λ w : host C, ∀ n, live w n = f n)) →
  configMapName (releaseName i) = cm → no_release (Some (releaseName i)) = false →
  namespace_of (Some (namespace i)) = Returns (namespace i) →
  NoDup (map (λ d, service_name (releaseName i) (servicePool d))
           (switch_destinations (pools i) (hasPortableOrigin i) (defaultPool i))) →
  runCutover isIP sha256_hex hmac decode_base64 toISOString i w = (Returns tt, w') →
  ∃ hpas retained w2 w3,
    promoted i w w2 ∧ recorded_between i w2 w3 ∧ (∀ n, live w3 n = live w2 n)
    ∧ finish sha256_hex hmac i hpas retained w3 = (Returns tt, w').
Proof.
  intros Hk Hcm Hr Hns Hnd Hrun.
  apply ibind_Returns in Hrun as ([hpas retained] & w1 & Hp & Hrun).
  apply ibind_Returns in Hrun as ([] & w2 & Hsw & Hrun).
  apply ibind_Returns in Hrun as ([] & w3 & Hc & Hf).
  assert (∀ n, live w1 n = live w n) as H1.
  { eapply (live_kept i Hk); [apply prepare_issues|reflexivity|exact Hp]. }
  assert (∀ (v : host C) s, live (restoreEdgeToPreviousBuild v).2 s = live v s) as He.
  { intros v s. destruct (restoreEdgeToPreviousBuild v) as [r v'] eqn:Hr'.
    revert s. eapply (live_kept i Hk []); [apply issues_edge|reflexivity|exact Hr']. }
  assert (∀ (v : host C) s, live (restore_hpas i hpas v).2 s = live v s) as Hh.
  { intros v s. destruct (restore_hpas i hpas v) as [r v'] eqn:Hr'.
    revert s. eapply (live_kept i Hk); [apply restore_hpas_issues|reflexivity|exact Hr']. }
  unfold switch in Hsw.
  destruct (switch_all isIP (releaseName i) (projectId i) (restore_hpas i hpas) He Hh _ _ _ _ _ Hnd w1 w2 Hsw)
    as [Hall Hothers].
  destruct (commit_records sha256_hex toISOString i hpas w2 w3 Hcm Hr Hns Hc) as (v2 & Hv2 & Hrec).
  exists hpas, retained, v2, w3. split_and!; [split|done| |done].
  - intros d Hd. destruct (Hall d Hd) as (m & Hm & Hb & Hl). exists m. by rewrite <- H1, Hv2.
  - intros n Hn. by rewrite Hv2, Hothers.
  - intros n. rewrite Hv2. revert n. eapply (live_kept i Hk); [apply commit_issues|reflexivity|exact Hc].
Qed.

(** ** The site *)

Lemma site_shop args s : effect_of args ≠ Services → Site.shop (Site.answer args s).2 = Site.shop s.
Proof.
  intros Ha. unfold Site.answer. rewrite (bool_decide_eq_false_2 (effect_of args = Services)) by done.
  cbn [orb]. destruct (bool_decide _) eqn:Hg; [|Site.cases; done].
  apply bool_decide_eq_true in Hg. rewrite Hg. by rewrite get_runs.
Qed.

Lemma site_store args s : Site.store (Site.answer args s).2 = Site.store s.
Proof.
  unfold Site.answer. destruct (bool_decide (effect_of args = Services) || _).
  { by destruct (execCapture "kubectl" args (Site.shop s)). }
  destruct (bool_decide (args = STATE_GET_ARGS _ _)); [done|]. Site.cases; done.
Qed.

Lemma site_runs cmd args (w : host Site.site) r w' :
  execCapture cmd args w = (r, w') →
  r = (Site.answer args (cluster w)).1
  ∧ Site.shop (cluster w') = Site.shop (Site.answer args (cluster w)).2
  ∧ Site.store (cluster w') = Site.store (cluster w).
Proof.
  cbn. unfold remote. cbn. pose proof (site_store args (cluster w)) as Hs.
  destruct (Site.answer args (cluster w)) as [r1 s1]. cbn in *. intros [= <- <-]. by cbn.
Qed.

Lemma services_answer args s :
  effect_of args = Services ∨ args = get_service_args "default" (nth 2 args "") →
  Site.answer args s = let '(r, c) := execCapture "kubectl" args (Site.shop s) in (r, Site.with_shop s c).
Proof.
  intros Ha. unfold Site.answer.
  assert (bool_decide (effect_of args = Services) || bool_decide (args = get_service_args "default" (nth 2 args "")) = true) as ->.
  { apply orb_true_iff. destruct Ha; [left|right]; by apply bool_decide_eq_true. }
  done.
Qed.

Lemma site_document cmd args text (w : host Site.site) :
  Site.shop (cluster (execCaptureStdin cmd args text w).2) = Site.shop (cluster w).
Proof.
  cbn. unfold remote. cbn. destruct (bool_decide (args ∈ _)); [|done].
  by destruct (_ && _); [destruct (server_write _ _)|].
Qed.

Lemma services_patch args : effect_of args = Services → ∃ rest, args = "patch" :: "service" :: rest.
Proof.
  destruct args as [|verb rest]; [done|]. unfold effect_of.
  destruct (existsb _ _); [done|]. destruct (existsb _ _); [done|]. destruct (String.eqb verb "delete"); [done|].
  destruct (String.eqb_spec verb "patch") as [->|]; [|done]. destruct rest as [|kind rest]; [done|].
  unfold patch_effect. destruct (String.eqb kind "deployment"); [done|]. destruct (String.eqb kind "hpa"); [done|].
  destruct (String.eqb kind "pod"); [done|]. destruct (String.eqb_spec kind "service") as [->|]; [|done]. eauto.
Qed.

#[global] Instance site_services : ServiceApi (host Site.site) "default".
Proof.
  refine {| live := λ w n, look (services (Site.shop (cluster w))) n |}; try done.
  - intros service w r w' sel Hr. apply site_runs in Hr as [Hr _].
    rewrite services_answer in Hr by (by right).
    destruct (execCapture "kubectl" (get_service_args "default" service) (Site.shop (cluster w))) as [r1 c] eqn:Hc.
    cbn in Hr. subst r1. intros H0 Hsel. exact (get_shows (W := TrafficFacts.cluster) _ _ _ _ _ Hc H0 Hsel).
  - intros service from to extra w r w' Hr. apply site_runs in Hr as (Hr & Hs & _). rewrite Hs. clear Hs.
    rewrite services_answer in Hr |- * by (by left).
    destruct (execCapture "kubectl" (patch_service_args "default" service (swap_ops from to extra))
                (Site.shop (cluster w))) as [r1 c] eqn:Hc. cbn in Hr |- *. subst r1.
    intros Hf Ht Hx.
    exact (patch_swaps (W := TrafficFacts.cluster) (ns := "default") _ _ _ _ _ _ _ Hc Hf Ht Hx).
  - intros cmd args w r w' Hr Ha s. apply site_runs in Hr as (_ & -> & _). rewrite site_shop; [done|].
    by intros (rest & ->)%services_patch.
Defined.

#[global] Instance site_states : StateApi Site.site sample_map "default".
Proof.
  assert (∀ cmd args (c : Site.site) r c', execCapture cmd args c = (r, c') →
    r = (Site.answer args c).1 ∧ Site.store c' = Site.store c) as Hrun.
  { intros cmd args c r c'. cbn. pose proof (site_store args c) as Hs.
    destruct (Site.answer args c) as [r1 s1]. intros [= <- <-]. done. }
  assert (∀ cmd v text (c : Site.site) r c', v = "create" ∨ v = "replace" →
    execCaptureStdin cmd [v; "-n"; "default"; "-f"; "-"] text c = (r, c') →
    execCaptureStdin cmd [v; "-n"; "default"; "-f"; "-"] text (Site.store c) = (r, Site.store c')) as Hdoc.
  { intros cmd v text c r c' Hv. cbn -[execCaptureStdin]. unfold execCaptureStdin at 1, Site.site_exec.
    rewrite bool_decide_eq_true_2 by (destruct Hv as [->| ->]; set_solver).
    destruct (execCaptureStdin cmd _ text (Site.store c)) as [r1 c1]. by intros [= <- <-]. }
  refine {| stored := λ c, server_stored (Site.store c);
            later := λ c c', server_later (Site.store c) (Site.store c') |}.
  - split; [intros c; done|intros a b c; apply server_order].
  - intros c c' v d d' Hl. exact (version_names_object (C := server) (Site.store c) (Site.store c') v d d' Hl).
  - intros c v d. exact (version_not_empty (C := server) (Site.store c) v d).
  - intros cmd args c r c' Hr. apply Hrun in Hr as [_ ->]. done.
  - intros cmd args text c r c' Hr. unfold execCaptureStdin, Site.site_exec in Hr.
    destruct (bool_decide _); [|by injection Hr as _ <-].
    destruct (execCaptureStdin cmd args text (Site.store c)) as [r1 c1] eqn:Hc. injection Hr as _ <-.
    exact (exec_stdin_later (C := server) _ _ _ _ _ _ Hc).
  - intros c r c' Hr H0. apply Hrun in Hr as [Hr Hs].
    assert (Site.answer (STATE_GET_ARGS sample_map "default") c
      = let '(r, s) := execCapture "kubectl" (STATE_GET_ARGS sample_map "default") (Site.store c) in
        (r, Site.with_store c s)) as Ha by done.
    rewrite Ha in Hr. destruct (execCapture "kubectl" _ (Site.store c)) as [r1 s1] eqn:Hc. cbn in Hr. subst r1.
    destruct (get_describes (C := server) _ _ _ Hc H0) as (c1 & H1 & H2 & Hd).
    exists (Site.with_store c c1). rewrite Hs. cbn [Site.store Site.with_store]. split_and!; [done| |done].
    cbn in Hc. injection Hc as _ <-. done.
  - intros text v body c r c' Hr H0 Hq. apply Hdoc in Hr; [|by right].
    destruct (replace_swaps (C := server) _ _ _ _ _ _ Hr H0 Hq) as (c1 & c2 & d & v' & H1 & H2 & H3 & H4 & H5).
    exists (Site.with_store c c1), (Site.with_store c c2), d, v'. split_and!; try done.
    destruct H2 as [H2 Hbetween]. split; [done|]. intros k Hk1 Hk2. by apply Hbetween.
  - intros text body c r c' Hr H0 Hq. apply Hdoc in Hr; [|by left].
    destruct (create_needs_absence (C := server) _ _ _ _ _ Hr H0 Hq) as (c1 & c2 & v' & H1 & H2 & H3 & H4 & H5).
    exists (Site.with_store c c1), (Site.with_store c c2), v'. split_and!; try done.
    destruct H2 as [H2 Hbetween]. split; [done|]. intros k Hk1 Hk2. by apply Hbetween.
Defined.

Lemma site_services_kept (f : string → option labels) :
  respects [Reads; Workloads; Autoscalers; Pods] (λ w : host Site.site, ∀ n, live w n = f n).
Proof.
  split; try done; try by intros; apply invariant_ret.
  - intros cmd args Ha w Hw. destruct (execCapture cmd args w) as [r w'] eqn:Hr.
    apply site_runs in Hr as (_ & Hs & _). rewrite site_shop in Hs.
    2: { intros He. rewrite He in Ha. by apply (bool_decide_pack _) in Ha. }
    assert (∀ n, live w' n = f n) by (intros n; rewrite <- Hw; cbn; by rewrite Hs). by destruct r.
  - intros cmd args text w Hw. pose proof (site_document cmd args text w) as Hs.
    destruct (execCaptureStdin cmd args text w) as [r w']. cbn in Hs.
    assert (∀ n, live w' n = f n) by (intros n; rewrite <- Hw; cbn; by rewrite Hs). by destruct r.
  - intros w Hw. exact Hw.
Qed.

Lemma cutover_promotes_witness :
  ∃ hpas retained w2 w3,
    promoted Site.sample_inputs Site.before w2 ∧ recorded_between (cm := sample_map) Site.sample_inputs w2 w3
    ∧ (∀ n, live (ns := "default") w3 n = live (ns := "default") w2 n)
    ∧ finish Site.some_hash Site.some_mac Site.sample_inputs hpas retained w3 = (Returns tt, Site.after).
Proof.
  apply (cutover_promotes Site.four Site.some_hash Site.some_mac Site.some_text Site.some_time
    Site.sample_inputs Site.before Site.after).
  - exact site_services_kept.
  - reflexivity.
  - reflexivity.
  - reflexivity.
  - apply NoDup_singleton.
  - vm_compute. reflexivity.
Defined.
End CutoverFacts.
