(* ===== verification/DispatchProof.v ===== *)
(** * The dispatch proof

    Models the credential part of src/src/routing-common.ts: the dispatch vocabulary, the header
    names a build's proof covers, the octets both tiers read off the wire, and the credential that
    the routing tier mints for one request and the pool verifies.  A Buffer is a list of bytes.
    createHmac and createHash are the parameters [hmac] and [sha256], from bytes to bytes; what is
    fed to an Hmac object is the list of bytes given so far.  A header record is a finite map, so
    names that Object.prototype defines are out of the model; a clock reading is an integer; the
    overrides read from the environment are below 2^53. *)
From Stdlib Require Import Ascii String.
From stdpp Require Import gmap strings.
From S2P Require Import Prelude JsString Regex CacheControl Json Resp PlanFingerprint Gc.
Import Resp.
Import CachePolicy(hvalue(..)).
Local Open Scope stdpp_scope.
Local Open Scope js_scope.
Local Open Scope Z_scope.

Module DispatchProof.

(** ** The vocabulary *)

Definition INTERNAL_DISPATCH_HEADERS : list string :=
  ["x-output-id"; "x-matched-pathname"; "x-route-matches"; "x-upstream-pool"; "x-nextjs-ppr";
   "x-resolved-headers"; "x-mw-response-status"; "x-mw-evaluated"; "x-invoke-path";
   "x-invoke-query"; "x-external-rewrite-url"; "x-adapter-k8s-execution-deadline";
   "x-mw-request-headers"].

Definition UNTRUSTED_NEXT_REQUEST_HEADERS : list string :=
  ["x-middleware-rewrite"; "x-middleware-redirect"; "x-middleware-set-cookie"; "x-middleware-skip";
   "x-middleware-override-headers"; "x-middleware-next"; "x-now-route-matches"; "x-matched-path";
   "x-nextjs-data"; "next-resume"; "x-next-resume-state-length"].

Definition MW_EVALUATED_TRUSTED : list string := ["ran"; "skip-nomatch"; "none"].

Definition POOL_MAX_HEADER_BYTES : Z := 16 * 1024.
Definition POOL_HEADER_BUDGET_RESERVE_BYTES : Z := 2 * 1024.

Definition headerBlockBytes (entries : list (string * string)) : Z :=
  foldl (λ total e, total + (size (utf8 e.1) + size (utf8 e.2) + 4)) 0 entries.

Definition fitsPoolHeaderBudget (bytes : Z) : bool :=
  bytes <=? POOL_MAX_HEADER_BYTES - POOL_HEADER_BUDGET_RESERVE_BYTES.

Definition INTERNAL_SECRET_HEADER : string := "x-internal-secret".
Definition INTERNAL_DISPATCH_PROOF_HEADER : string := "x-internal-dispatch-proof".

(** timingSafeEqual on buffers of one length compares their bytes. *)
Definition timingSafeStringEqual (a b : string) : bool :=
  let ab := utf8 a in
  let bb := utf8 b in
  if negb (size ab =? size bb) then false else bool_decide (ab = bb).

Definition PROOF_COVERED_CONTEXT_HEADERS : list string := ["x-forwarded-proto"; "x-forwarded-host"].

Definition PROOF_EXCLUDED_MATCHER_HEADERS : list string :=
  js_set (INTERNAL_DISPATCH_HEADERS ++ UNTRUSTED_NEXT_REQUEST_HEADERS
          ++ [INTERNAL_SECRET_HEADER; INTERNAL_DISPATCH_PROOF_HEADER; "host"; "traceparent"; "tracestate"]).

(** ** The names a build's proof covers *)

Inductive HasType := HasHeader | HasCookie | HasQuery | HasHost.

#[export] Instance HasType_eq_dec : EqDecision HasType.
Proof. solve_decision. Defined.

Record RouteHasCondition := mkCondition { c_type : HasType; c_key : option string; c_value : option string }.

Record MiddlewareMatcher := mkMatcher {
  m_regexp : string;
  m_has : option (list RouteHasCondition);
  m_missing : option (list RouteHasCondition);
  m_originalSource : option string;
}.

(** The two fields that name request headers; a value that is not a string reads as absent. *)
Record RscConfig := mkRsc { rsc_header : option string; rsc_prefetchSegmentHeader : option string }.

(** What the derivation reads of the routing manifest. *)
Record ProofManifest := mkManifest { pm_matchers : option (list MiddlewareMatcher); pm_rsc : option RscConfig }.

(** The header a condition reads off the request. *)
Definition condition_name (cond : RouteHasCondition) : option string :=
  match c_type cond, c_key cond with
  | HasCookie, _ => Some "cookie"
  | HasHeader, Some key => if is_empty key then None else Some (to_lower key)
  | _, _ => None
  end.

Definition conditions (m : MiddlewareMatcher) : list RouteHasCondition :=
  default [] (m_has m) ++ default [] (m_missing m).

Definition excluded (name : string) : bool := bool_decide (name ∈ PROOF_EXCLUDED_MATCHER_HEADERS).

Definition matcherProofHeaderNames (matchers : option (list MiddlewareMatcher)) : list string :=
  match matchers with
  | None | Some [] => []
  | Some ms =>
      let names := js_set (omap condition_name (ms ≫= conditions)) in
      PlanFingerprint.sort_keys (filter (λ n, excluded n = false) names)
  end.

Definition rscProofHeaderNames (rsc : option RscConfig) : list string :=
  match rsc with
  | None => []
  | Some r =>
      let names := omap (λ n : option string, n ≫= λ s, if is_empty s then None else Some s)
                        [rsc_header r; rsc_prefetchSegmentHeader r] in
      PlanFingerprint.sort_keys (js_set (filter (λ n, excluded n = false) (map to_lower names)))
  end.

Definition getRscConfig (m : ProofManifest) : option RscConfig := pm_rsc m.

Definition buildProofHeaderNames (m : ProofManifest) : list string :=
  PlanFingerprint.sort_keys (js_set (matcherProofHeaderNames (pm_matchers m) ++ rscProofHeaderNames (getRscConfig m))).

Definition proofCoveredHeaderNames (buildHeaderNames : option (list string)) : list string :=
  PlanFingerprint.sort_keys (js_set (INTERNAL_DISPATCH_HEADERS ++ PROOF_COVERED_CONTEXT_HEADERS
                     ++ default [] buildHeaderNames)).

(** ** Wire octets *)

Definition NODE_SINGLETON_REQUEST_HEADERS : list string :=
  ["age"; "authorization"; "content-length"; "content-type"; "etag"; "expires"; "from"; "host";
   "if-modified-since"; "if-unmodified-since"; "last-modified"; "location"; "max-forwards";
   "proxy-authorization"; "referer"; "retry-after"; "server"; "user-agent"].

(** Buffer.from(s, latin1) and its inverse toString(latin1). *)
Fixpoint latin1 (s : string) : bytes :=
  match s with EmptyString => [] | String c s' => Z.of_nat (code c) :: latin1 s' end.

Fixpoint of_latin1 (b : bytes) : string :=
  match b with [] => EmptyString | x :: b' => String (ascii_of_nat (Z.to_nat x)) (of_latin1 b') end.

Fixpoint join_bytes (sep : bytes) (l : list bytes) : bytes :=
  match l with [] => [] | [b] => b | b :: l' => b ++ sep ++ join_bytes sep l' end.

Definition coalesceWireHeaderBytes (name : string) (values : list bytes) : option bytes :=
  match values with
  | [] => None
  | [first] => Some first
  | first :: _ =>
      let lower := to_lower name in
      if bool_decide (lower ∈ NODE_SINGLETON_REQUEST_HEADERS) then Some first
      else
        let separator := latin1 (if String.eqb lower "cookie" then "; " else ", ") in
        Some (join_bytes separator values)
  end.

(** A Node header record; of parsed headers [set-cookie] alone has an array. *)
Abbreviation headers := (gmap string hvalue).

Definition wireHeaderBytes (name : string) (value : option hvalue) : option bytes :=
  match value with
  | None => None
  | Some (HStr s) => Some (latin1 s)
  | Some (HArr l) => coalesceWireHeaderBytes name (map latin1 l)
  end.

Definition encodeNodeOutgoingDispatchHeader (value : string) : string := of_latin1 (utf8 value).

Definition encode_value (v : hvalue) : hvalue :=
  match v with
  | HStr s => HStr (encodeNodeOutgoingDispatchHeader s)
  | HArr l => HArr (map encodeNodeOutgoingDispatchHeader l)
  end.

Definition encodeNodeOutgoingDispatchHeaders (h : headers) : headers :=
  foldl (λ h header, match h !! header with
                     | Some v => <[header := encode_value v]> h
                     | None => h
                     end) h INTERNAL_DISPATCH_HEADERS.

(** ** Proof inputs *)

Inductive ProofFieldValue := PBuffer (b : bytes) | PString (s : string) | PAbsent.

Record DispatchProofInputs := mkInputs {
  i_method : string;
  i_target : ProofFieldValue;
  i_authority : ProofFieldValue;
  i_headers : gmap string ProofFieldValue;
  i_proofHeaderNames : option (list string);
  i_issuedAtMs : Z;
  i_bodyDigest : option bytes;
}.

Definition of_octets (b : option bytes) : ProofFieldValue :=
  match b with Some b => PBuffer b | None => PAbsent end.

(** The octets a field stands for. *)
Definition octets (v : ProofFieldValue) : option bytes :=
  match v with PBuffer b => Some b | PString s => Some (utf8 s) | PAbsent => None end.

Section Crypto.
Context (hmac : string → bytes → bytes) (sha256 : bytes → bytes) (env : string → option string).

Definition dispatchBodyDigest (body : bytes) : bytes := sha256 body.

Definition positiveEnvMs (name : string) : option Z :=
  match Gc.parse_int (default "" (env name)) with
  | Some n => if 0 <? n then Some n else None
  | None => None
  end.

Definition HANDLER_HEAD_BUDGET_MS : Z := default 60000 (positiveEnvMs "ADAPTER_K8S_HANDLER_TIMEOUT_MS").

Definition DISPATCH_PROOF_MAX_AGE_MS : Z :=
  Z.max 1000 (default (Z.max 120000 (2 * HANDLER_HEAD_BUDGET_MS))
                      (positiveEnvMs "ADAPTER_K8S_DISPATCH_PROOF_MAX_AGE_MS")).

Definition DISPATCH_PROOF_MAX_SKEW_MS : Z := DISPATCH_PROOF_MAX_AGE_MS.

(** ** The credential *)

Definition DISPATCH_PROOF_PREFIX : string := "v3".
Definition ABSENT_BODY_DIGEST : string := "-".

Fixpoint hex (b : bytes) : string :=
  match b with
  | [] => EmptyString
  | x :: b' => String (hex_digit (Z.to_nat (x / 16))) (String (hex_digit (Z.to_nat (x mod 16))) (hex b'))
  end.

(** Buffer.from(s, hex) of a string of lower-case digits. *)
Fixpoint unhex_bytes (s : string) : bytes :=
  match s with
  | String h (String l s') =>
      Z.of_nat (16 * PlanFingerprint.unhex h + PlanFingerprint.unhex l) :: unhex_bytes s'
  | _ => []
  end.

Record ParsedDispatchProof := mkParsed { p_issuedAtMs : Z; p_bodyDigest : option bytes }.

Definition ISSUED_AT_RE : string := "^\d{1,15}$".
Definition DIGEST_RE : string := "^[0-9a-f]{64}$".

Definition parseDispatchProof (credential : string) : option ParsedDispatchProof :=
  match split_on "." credential with
  | [prefix; issuedAt; digest; mac] =>
      if negb (String.eqb prefix DISPATCH_PROOF_PREFIX) then None
      else if negb (re_test ISSUED_AT_RE issuedAt) then None
      else if negb (re_test DIGEST_RE mac) then None
      else if negb (String.eqb digest ABSENT_BODY_DIGEST) && negb (re_test DIGEST_RE digest) then None
      else Some (mkParsed (digits_value 0 issuedAt)
                   (if String.eqb digest ABSENT_BODY_DIGEST then None else Some (unhex_bytes digest)))
  | _ => None
  end.

Definition dispatchProofBodyMatches (declared : option bytes) (body : option bytes) : bool :=
  match declared with
  | None => true
  | Some d =>
      let actual := dispatchBodyDigest (default [] body) in
      (size d =? size actual) && bool_decide (d = actual)
  end.

Definition updateProofField (fed : bytes) (value : ProofFieldValue) : bytes :=
  match octets value with
  | None => fed ++ utf8 ("-" +:+ newline)
  | Some b => (fed ++ utf8 ("+" +:+ z_text (size b) +:+ newline)) ++ b
  end.

Definition lower_byte (b : Z) : Z := if (65 <=? b) && (b <=? 90) then b + 32 else b.

Definition asciiLowerBytes (value : ProofFieldValue) : ProofFieldValue :=
  match octets value with None => PAbsent | Some b => PBuffer (map lower_byte b) end.

(** toUpperCase of a method token, which is ASCII. *)
Definition upper_char (c : ascii) : ascii :=
  let n := code c in if (97 <=? n)%nat && (n <=? 122)%nat then ascii_of_nat (n - 32) else c.

Definition to_upper : string → string := map_string upper_char.

(** What the Hmac object has been fed when its digest is taken. *)
Definition transcript (inputs : DispatchProofInputs) : bytes :=
  let names := proofCoveredHeaderNames (i_proofHeaderNames inputs) in
  let h := utf8 ("adapter-k8s-dispatch-v3" +:+ newline) in
  let h := updateProofField h (PString (to_upper (i_method inputs))) in
  let h := updateProofField h (i_target inputs) in
  let h := updateProofField h (asciiLowerBytes (i_authority inputs)) in
  let h := updateProofField h (PString (z_text (i_issuedAtMs inputs))) in
  let h := updateProofField h (of_octets (i_bodyDigest inputs)) in
  let h := updateProofField h (PString (z_text (Z.of_nat (length names)))) in
  foldl (λ h name, updateProofField (updateProofField h (PString name))
                     (default PAbsent (i_headers inputs !! name))) h names.

Definition computeDispatchProof (secret : string) (inputs : DispatchProofInputs) : string :=
  let issuedAt := z_text (i_issuedAtMs inputs) in
  let digest := match i_bodyDigest inputs with Some b => hex b | None => ABSENT_BODY_DIGEST end in
  DISPATCH_PROOF_PREFIX +:+ "." +:+ issuedAt +:+ "." +:+ digest +:+ "."
  +:+ hex (hmac secret (transcript inputs)).

(** ** Verification *)

Record NodeDispatchProofRequest := mkNodeRequest {
  n_method : option string;
  n_target : option string;
  n_headers : headers;
  n_proofHeaderNames : option (list string);
}.

(** [issuedAtMs] is the caller's mint time, or the clock's reading when it gives none. *)
Definition dispatchProofInputsFromRequest (request : NodeDispatchProofRequest) (issuedAtMs : Z)
    (body : option bytes) : DispatchProofInputs :=
  mkInputs (default "GET" (n_method request))
    (PBuffer (latin1 (default "/" (n_target request))))
    (of_octets (wireHeaderBytes "host" (n_headers request !! "host")))
    (list_to_map (map (λ name, (name, of_octets (wireHeaderBytes name (n_headers request !! name))))
                      (proofCoveredHeaderNames (n_proofHeaderNames request))))
    (n_proofHeaderNames request) issuedAtMs (dispatchBodyDigest <$> body).

Inductive DispatchProofRejection := Malformed | Mismatch | Stale | Premature | BodyUnexpected.

Inductive DispatchProofVerdict :=
| Trusted (bodyDigest : option bytes)
| Rejected (reason : DispatchProofRejection).

Definition with_digest (i : DispatchProofInputs) (digest : option bytes) : DispatchProofInputs :=
  mkInputs (i_method i) (i_target i) (i_authority i) (i_headers i) (i_proofHeaderNames i)
    (i_issuedAtMs i) digest.

Definition verifyDispatchProof (secret : string) (request : NodeDispatchProofRequest)
    (presentedProof : string) (nowMs : Z) : DispatchProofVerdict :=
  match parseDispatchProof presentedProof with
  | None => Rejected Malformed
  | Some parsed =>
      let expected := computeDispatchProof secret
        (with_digest (dispatchProofInputsFromRequest request (p_issuedAtMs parsed) None)
           (p_bodyDigest parsed)) in
      if negb (timingSafeStringEqual presentedProof expected) then Rejected Mismatch
      else
        let method := to_upper (default "GET" (n_method request)) in
        if (if p_bodyDigest parsed then String.eqb method "GET" || String.eqb method "HEAD" else false)
        then Rejected BodyUnexpected
        else
          let age := nowMs - p_issuedAtMs parsed in
          if DISPATCH_PROOF_MAX_AGE_MS <? age then Rejected Stale
          else if age <? - DISPATCH_PROOF_MAX_SKEW_MS then Rejected Premature
          else Trusted (p_bodyDigest parsed)
  end.

End Crypto.

End DispatchProof.
