(* ===== verification/DispatchProofFacts.v ===== *)
(** * The dispatch proof: facts

    The frames of the transcript are prefix-free, so a transcript determines every routing input it
    covers; a credential is parsed back into what it carries.  The theorems: what an accepted
    credential binds, and that a credential is accepted for the request it was minted for. *)
From Stdlib Require Import Ascii String DecimalString DecimalFacts DecimalPos DecimalZ.
From stdpp Require Import gmap strings.
From S2P Require Import Prelude JsString CacheControl Regex Json JsonParse Resp RespFacts PlanFingerprint Gc DispatchProof.
Import Resp RespFacts DispatchProof.
Import CachePolicy(hvalue(..)).
Local Open Scope stdpp_scope.
Local Open Scope js_scope.
Local Open Scope Z_scope.

Module DispatchProofFacts.

Abbreviation latin1 := DispatchProof.latin1.

(** ** Encodings *)

Lemma utf8_inj s t : utf8 s = utf8 t → s = t.
Proof. intros H. apply (f_equal RespFacts.latin1) in H. by rewrite !latin1_utf8 in H. Qed.

Lemma timingSafe_eq a b : timingSafeStringEqual a b = true ↔ a = b.
Proof.
  unfold timingSafeStringEqual. split.
  - destruct (negb _); [done|]. intros H%bool_decide_eq_true. by apply utf8_inj.
  - intros ->. by rewrite Z.eqb_refl, bool_decide_true.
Qed.

Definition octet (b : Z) : Prop := 0 ≤ b < 256.

Lemma utf8_octets s : Forall octet (utf8 s).
Proof.
  induction s as [|c s IH]; [constructor|]. cbn [utf8]. apply Forall_app. split; [|done].
  destruct c as [[] [] [] [] [] [] [] []]; repeat constructor; vm_compute; done.
Qed.

Lemma latin1_of_latin1 b : Forall octet b → latin1 (of_latin1 b) = b.
Proof.
  induction 1 as [|x b [Hx Hx'] _ IH]; cbn; [done|]. rewrite IH. unfold code.
  rewrite Ascii.nat_ascii_embedding by lia. f_equal. lia.
Qed.

Lemma of_latin1_latin1 s : of_latin1 (latin1 s) = s.
Proof. induction s as [|c s IH]; cbn; [done|]. by rewrite IH, Nat2Z.id, ascii_nat_embedding. Qed.

Lemma latin1_inj s t : latin1 s = latin1 t → s = t.
Proof. intros H. apply (f_equal of_latin1) in H. by rewrite !of_latin1_latin1 in H. Qed.

(** The value a hop writes carries the UTF-8 octets of the value it authored. *)
Lemma wire_encoded name v :
  wireHeaderBytes name (Some (HStr (encodeNodeOutgoingDispatchHeader v))) = Some (utf8 v).
Proof. unfold wireHeaderBytes, encodeNodeOutgoingDispatchHeader. by rewrite latin1_of_latin1 by apply utf8_octets. Qed.

(** The digits of a numeral denote its number. *)
Lemma digits_value_acc d p :
  digits_value (Z.pos p) (NilEmpty.string_of_uint d) = Z.pos (Pos.of_uint_acc d p).
Proof.
  revert p. induction d; intros p; [done|..];
    cbn [NilEmpty.string_of_uint digits_value Pos.of_uint_acc]; rewrite <- IHd; f_equal; unfold code;
    match goal with |- context [nat_of_ascii ?c] =>
      let v := eval vm_compute in (nat_of_ascii c) in change (nat_of_ascii c) with v end; lia.
Qed.

Lemma digits_value_uint d : digits_value 0 (NilEmpty.string_of_uint d) = Z.of_N (Pos.of_uint d).
Proof.
  induction d; [done|done|..]; cbn [NilEmpty.string_of_uint digits_value Pos.of_uint Z.of_N];
    rewrite <- digits_value_acc; f_equal.
Qed.

Lemma digits_value_z_text n : 0 ≤ n → digits_value 0 (z_text n) = n.
Proof.
  intros Hn. rewrite <- (DecimalZ.of_to n) at 2. unfold z_text.
  destruct n as [|p|p]; [done| |done]. cbn [Z.to_int NilZero.string_of_int Z.of_int Z.of_uint].
  unfold Z.of_uint. rewrite <- digits_value_uint.
  unfold NilZero.string_of_uint. by destruct (Pos.to_uint p).
Qed.

Lemma z_text_digits n : 0 ≤ n → all_chars is_digit (z_text n) = true ∧ z_text n ≠ "".
Proof.
  intros Hn. split; [|apply z_text_chars].
  destruct (z_text_shape n) as (sign & d & Heq & [-> | ->] & Hd & _); rewrite Heq; [done|].
  pose proof (integer_z_text n) as Hi. rewrite Heq in Hi.
  destruct n as [|p|p]; [done| |lia]. exfalso. unfold z_text in Heq.
  cbn [Z.to_int NilZero.string_of_int] in Heq.
  pose proof (digits_of_uint (Pos.to_uint p)) as Hu. unfold NilZero.string_of_uint in Heq.
  destruct (Pos.to_uint p) eqn:Ep; cbn [NilEmpty.string_of_uint] in *; try discriminate; by rewrite Heq in Hu.
Qed.

(** ** Frames *)

Definition frame (v : option bytes) : bytes :=
  match v with
  | None => utf8 ("-" +:+ newline)
  | Some b => utf8 ("+" +:+ z_text (size b) +:+ newline) ++ b
  end.

Lemma update_frame fed v : updateProofField fed v = fed ++ frame (octets v).
Proof. unfold updateProofField, frame. destruct (octets v); [|done]. by rewrite <- app_assoc. Qed.

Lemma utf8_digit c s : is_digit c = true → utf8 (String c s) = Z.of_nat (code c) :: utf8 s.
Proof. destruct c as [[] [] [] [] [] [] [] []]; done. Qed.

Lemma line_inj a b r r' :
  all_chars is_digit a = true → all_chars is_digit b = true →
  utf8 (a +:+ newline) ++ r = utf8 (b +:+ newline) ++ r' → a = b ∧ r = r'.
Proof.
  revert b. induction a as [|c a IH]; intros [|d b] Ha Hb H; cbn [String.append all_chars] in *; b2p.
  - by injection H.
  - rewrite utf8_digit in H by done. injection H as H _. destruct d as [[] [] [] [] [] [] [] []]; done.
  - rewrite utf8_digit in H by done. injection H as H _. destruct c as [[] [] [] [] [] [] [] []]; done.
  - rewrite !utf8_digit in H by done. injection H as Hc H.
    assert (c = d) as ->.
    { apply Nat2Z.inj, (f_equal ascii_of_nat) in Hc. unfold code in Hc. by rewrite !ascii_nat_embedding in Hc. }
    destruct (IH b) as [-> ->]; done.
Qed.

Lemma frame_inj u v r r' : frame u ++ r = frame v ++ r' → u = v ∧ r = r'.
Proof.
  destruct u as [b|], v as [b'|]; unfold frame; [|discriminate..|].
  - rewrite <- !app_assoc. cbn [String.append]. intros H.
    change (utf8 (String "+" ?s)) with (43 :: utf8 s) in H. cbn [app] in H. injection H as H.
    assert (∀ x : bytes, 0 ≤ size x) as Hs by (intros; unfold size; lia).
    apply line_inj in H as [Hl H]; [|apply z_text_digits, Hs..].
    apply z_text_inj in Hl. unfold size in Hl. apply app_inj_1 in H as [-> ->]; [done|lia].
  - cbn. by intros [= ->].
Qed.

Definition frames (l : list (option bytes)) : bytes := concat (map frame l).

Lemma frames_inj l l' r r' : length l = length l' → frames l ++ r = frames l' ++ r' → l = l' ∧ r = r'.
Proof.
  revert l'. induction l as [|u l IH]; intros [|v l'] Hn H; try done.
  unfold frames in *. cbn [map concat] in H. rewrite <- !app_assoc in H.
  apply frame_inj in H as [-> H]. apply IH in H as [-> ->]; [done|]. by injection Hn.
Qed.

(** ** Transcripts *)

Definition covered (i : DispatchProofInputs) : list string := proofCoveredHeaderNames (i_proofHeaderNames i).

Definition header_octets (i : DispatchProofInputs) (name : string) : option bytes :=
  octets (default PAbsent (i_headers i !! name)).

(** An authority up to the case of its ASCII letters. *)
Definition folded_authority (i : DispatchProofInputs) : option bytes := map lower_byte <$> octets (i_authority i).

Lemma authority_folded i : octets (asciiLowerBytes (i_authority i)) = folded_authority i.
Proof. unfold asciiLowerBytes, folded_authority. by destruct (octets (i_authority i)). Qed.

(** Two sets of inputs describe one request: the routing inputs that the transcript covers. *)
Record same_request (i j : DispatchProofInputs) : Prop := {
  same_method : to_upper (i_method i) = to_upper (i_method j);
  same_target : octets (i_target i) = octets (i_target j);
  same_authority : folded_authority i = folded_authority j;
  same_issued : i_issuedAtMs i = i_issuedAtMs j;
  same_digest : i_bodyDigest i = i_bodyDigest j;
  same_names : covered i = covered j;
  same_headers : ∀ name, name ∈ covered i → header_octets i name = header_octets j name;
}.

Definition fixed_fields (i : DispatchProofInputs) : list (option bytes) :=
  [Some (utf8 (to_upper (i_method i))); octets (i_target i); folded_authority i;
   Some (utf8 (z_text (i_issuedAtMs i))); i_bodyDigest i;
   Some (utf8 (z_text (Z.of_nat (length (covered i)))))].

Definition header_fields (i : DispatchProofInputs) : list (option bytes) :=
  flat_map (λ name, [Some (utf8 name); header_octets i name]) (covered i).

Lemma transcript_frames i :
  transcript i = utf8 ("adapter-k8s-dispatch-v3" +:+ newline) ++ frames (fixed_fields i) ++ frames (header_fields i).
Proof.
  assert (∀ names h,
    foldl (λ h name, updateProofField (updateProofField h (PString name))
                       (default PAbsent (i_headers i !! name))) h names
    = h ++ frames (flat_map (λ name, [Some (utf8 name); header_octets i name]) names)) as Hf.
  { induction names as [|n names IH]; intros h; cbn [foldl flat_map].
    - by rewrite app_nil_r.
    - rewrite IH, !update_frame. unfold frames. cbn [map concat app]. by rewrite <- !app_assoc. }
  assert (octets (of_octets (i_bodyDigest i)) = i_bodyDigest i) as Hd by by destruct (i_bodyDigest i).
  unfold transcript. cbv zeta. rewrite Hf, !update_frame, Hd, authority_folded.
  unfold header_fields, fixed_fields, frames, covered. cbn [map concat octets].
  rewrite app_nil_r. by rewrite <- !app_assoc.
Qed.

Lemma flat_fields_inj i j names names' :
  length names = length names' →
  flat_map (λ name, [Some (utf8 name); header_octets i name]) names
  = flat_map (λ name, [Some (utf8 name); header_octets j name]) names' →
  names = names' ∧ ∀ name, name ∈ names → header_octets i name = header_octets j name.
Proof.
  revert names'. induction names as [|n l IH]; intros [|n' l'] Hn H; try done.
  - split; [done|]. by intros ? ?%elem_of_nil.
  - cbn [flat_map app] in H. injection H as H1 H2 H. apply utf8_inj in H1 as <-.
    destruct (IH l') as [<- Hl]; [by injection Hn|done|]. split; [done|].
    intros name [-> | Hin]%elem_of_cons; auto.
Qed.

#[local] Opaque proofCoveredHeaderNames utf8.

Lemma list6_inj {A} (a b c d e f a' b' c' d' e' f' : A) :
  [a; b; c; d; e; f] = [a'; b'; c'; d'; e'; f'] → a = a' ∧ b = b' ∧ c = c' ∧ d = d' ∧ e = e' ∧ f = f'.
Proof. by intros [= -> -> -> -> -> ->]. Qed.

Lemma transcript_inj i j : transcript i = transcript j → same_request i j.
Proof.
  rewrite !transcript_frames. intros H%app_inv_head. apply frames_inj in H as [Hf H]; [|done].
  apply list6_inj in Hf as (Hm & Ht & Ha & Hi & Hd & Hn).
  apply (inj Some), utf8_inj in Hm, Hi, Hn. apply z_text_inj in Hi, Hn. apply Nat2Z.inj in Hn.
  rewrite <- (app_nil_r (frames (header_fields i))), <- (app_nil_r (frames (header_fields j))) in H.
  apply frames_inj in H as [H _].
  - apply flat_fields_inj in H as [Hc Hh]; [|done]. by constructor.
  - assert (∀ k, length (header_fields k) = (2 * length (covered k))%nat) as Hl.
    { intros k. unfold header_fields. induction (covered k); cbn [flat_map length app] in *; lia. }
    by rewrite !Hl, Hn.
Qed.

Lemma same_request_transcript i j : same_request i j → transcript i = transcript j.
Proof.
  intros [Hm Ht Ha Hi Hd Hc Hh].
  assert (fixed_fields i = fixed_fields j) as Hfixed by (unfold fixed_fields; congruence).
  assert (header_fields i = header_fields j) as Hheaders.
  { unfold header_fields. rewrite <- Hc, !flat_map_concat_map. f_equal.
    apply map_ext_in. intros n Hn%list_elem_of_In. by rewrite Hh. }
  by rewrite !transcript_frames, Hfixed, Hheaders.
Qed.

(** ** Hexadecimal texts *)

Definition hex_char (c : ascii) : bool := is_digit c || (97 <=? code c)%nat && (code c <=? 102)%nat.

Lemma octet_ascii x : octet x → ∃ c, x = Z.of_nat (code c).
Proof. intros [H1 H2]. exists (ascii_of_nat (Z.to_nat x)). unfold code. rewrite Ascii.nat_ascii_embedding; lia. Qed.

Lemma hex_cons x b : octet x →
  ∃ h l, hex (x :: b) = String h (String l (hex b)) ∧ hex_char h = true ∧ hex_char l = true
         ∧ Z.of_nat (16 * PlanFingerprint.unhex h + PlanFingerprint.unhex l) = x.
Proof.
  intros [c ->]%octet_ascii. eexists _, _. split; [reflexivity|].
  destruct c as [[] [] [] [] [] [] [] []]; vm_compute; done.
Qed.

Lemma hex_text b : Forall octet b →
  all_chars hex_char (hex b) = true ∧ String.length (hex b) = (2 * length b)%nat ∧ unhex_bytes (hex b) = b.
Proof.
  induction 1 as [|x b Hx _ (IHc & IHl & IHu)]; [done|].
  destruct (hex_cons x b Hx) as (h & l & -> & Hh & Hl & Hv).
  cbn [all_chars String.length length unhex_bytes]. rewrite Hh, Hl, IHc, IHl, IHu, Hv. split_and!; [done|lia|done].
Qed.

Lemma hex_inj b b' : Forall octet b → Forall octet b' → hex b = hex b' → b = b'.
Proof.
  intros (_ & _ & Hb)%hex_text (_ & _ & Hb')%hex_text H. apply (f_equal unhex_bytes) in H. by rewrite Hb, Hb' in H.
Qed.

(** A counted class: its matches are the texts of its characters with a length in the bounds. *)
Lemma matches_repeat m n neg rs s :
  all_chars (in_class neg rs) s = true → (m ≤ String.length s ≤ n)%nat → matches (RRep m n (RCls neg rs)) s.
Proof.
  revert m n. induction s as [|c s IH]; intros m n Hs Hn; cbn [all_chars String.length] in *; b2p.
  - replace m with 0%nat by lia. constructor.
  - destruct n as [|n]; [lia|]. change (String c s) with (String c "" +:+ s).
    apply MRepS; [by apply MCls|]. apply IH; [done|lia].
Qed.

Lemma matches_repeat_inv m n neg rs s :
  matches (RRep m n (RCls neg rs)) s →
  all_chars (in_class neg rs) s = true ∧ (m ≤ String.length s ≤ n ∨ n < m)%nat.
Proof.
  revert m s. induction n as [|n IH]; intros m s H; inversion H; subst; [split; [done|cbn; lia]..|].
  match goal with H : matches (RCls _ _) _ |- _ => inversion H; subst end.
  match goal with H : matches (RRep _ _ _) _ |- _ => apply IH in H as [Ht Hl] end.
  cbn [String.append all_chars String.length]. split; [by apply andb_true_iff|lia].
Qed.

Lemma digest_text b : Forall octet b → length b = 32%nat → re_test DIGEST_RE (hex b) = true.
Proof.
  intros Hb Hl. destruct (hex_text b Hb) as (Hc & Hn & _). apply re_test_spec.
  change (compiled DIGEST_RE) with (RRep 64 64 (RCls false [("0", "9"); ("a", "f")]%char)).
  apply matches_repeat; [|lia]. eapply all_chars_impl; [|exact Hc].
  intros c. destruct c as [[] [] [] [] [] [] [] []]; done.
Qed.

(** A text of decimal digits that starts with no zero is as long as its number is large. *)
Lemma digits_value_lower d p :
  Z.pos p * 10 ^ Z.of_nat (Decimal.nb_digits d) ≤ digits_value (Z.pos p) (NilEmpty.string_of_uint d).
Proof.
  rewrite digits_value_acc. revert p.
  induction d; intros p; [cbn; lia|..]; cbn [Decimal.nb_digits Pos.of_uint_acc];
    rewrite Nat2Z.inj_succ, Z.pow_succ_r by lia; (etrans; [|apply IHd]);
    rewrite Z.mul_assoc; apply Z.mul_le_mono_nonneg_r; lia.
Qed.

Lemma to_uint_head p d : Pos.to_uint p ≠ Decimal.D0 d.
Proof.
  intros H. pose proof (DecimalPos.Unsigned.to_of (Pos.to_uint p)) as Hn.
  rewrite DecimalPos.Unsigned.of_to in Hn. cbn [N.to_uint] in Hn. rewrite H in Hn. unfold Decimal.unorm in Hn.
  destruct (Decimal.nzhead (Decimal.D0 d)) eqn:Hz; try discriminate.
  - injection Hn as ->. pose proof (DecimalPos.Unsigned.of_to p) as Hp. by rewrite H in Hp.
  - by apply nzhead_nonzero in Hz.
Qed.

Lemma z_text_width n k : 0 ≤ n < 10 ^ Z.of_nat (S k) → (String.length (z_text n) ≤ S k)%nat.
Proof.
  intros [Hn Hk]. destruct n as [|p|p]; [cbn; lia| |lia].
  unfold z_text. cbn [Z.to_int NilZero.string_of_int].
  pose proof (digits_value_uint (Pos.to_uint p)) as Hv. rewrite DecimalPos.Unsigned.of_to in Hv.
  pose proof (to_uint_head p) as Hh.
  assert (NilZero.string_of_uint (Pos.to_uint p) = NilEmpty.string_of_uint (Pos.to_uint p)
          ∨ Pos.to_uint p = Decimal.Nil) as [-> | Hnil] by (destruct (Pos.to_uint p); auto);
    [|by apply DecimalPos.Unsigned.to_uint_nonnil in Hnil].
  rewrite length_string_of_uint.
  assert (∀ q d, digits_value (Z.pos q) (NilEmpty.string_of_uint d) = Z.pos p → (Decimal.nb_digits d ≤ k)%nat) as Hw.
  { intros q d Hq. pose proof (digits_value_lower d q) as Hlow. rewrite Hq in Hlow.
    apply Nat2Z.inj_le, Z.lt_succ_r. apply (Z.pow_lt_mono_r_iff 10); [lia|lia|].
    rewrite Nat2Z.inj_succ in Hk. nia. }
  destruct (Pos.to_uint p) as [|d|d|d|d|d|d|d|d|d|d]; cbn [Decimal.nb_digits] in *; [lia|by destruct (Hh d)|..];
    apply le_n_S; cbn [NilEmpty.string_of_uint digits_value] in Hv; (eapply Hw; exact Hv).
Qed.

Lemma issued_text n : 0 ≤ n < 10 ^ 15 → re_test ISSUED_AT_RE (z_text n) = true.
Proof.
  intros Hn. destruct (z_text_digits n) as [Hd Hne]; [lia|]. apply re_test_spec.
  change (compiled ISSUED_AT_RE) with (RRep 1 15 (RCls false digit_range)).
  apply matches_repeat.
  - eapply all_chars_impl; [|exact Hd]. intros c. destruct c as [[] [] [] [] [] [] [] []]; done.
  - split; [destruct (z_text n); [done|cbn; lia]|]. by apply z_text_width.
Qed.

(** ** Credentials *)

Definition without (c : ascii) (s : string) : Prop := all_chars (λ d, negb (Ascii.eqb d c)) s = true.

Lemma split_on_cut c a b : without c a → split_on c (a +:+ String c b) = a :: split_on c b.
Proof. intros H. by rewrite split_on_app, split_on_absent. Qed.

(** Thirty-two octets, as SHA-256 and its HMAC give. *)
Definition digest_ok (b : bytes) : Prop := Forall octet b ∧ length b = 32%nat.

Definition declared_ok (d : option bytes) : Prop := ∀ b, d = Some b → digest_ok b.

Definition digest_part (d : option bytes) : string := match d with Some b => hex b | None => ABSENT_BODY_DIGEST end.

Lemma hex_without b : Forall octet b → without "." (hex b).
Proof.
  intros (H & _)%hex_text. eapply all_chars_impl; [|exact H].
  intros c. destruct c as [[] [] [] [] [] [] [] []]; done.
Qed.

Lemma z_text_without_dot n : without "." (z_text n).
Proof.
  destruct (z_text_chars n) as [H _]. eapply all_chars_impl; [|exact H].
  intros c. destruct c as [[] [] [] [] [] [] [] []]; done.
Qed.

Lemma digest_part_without d : declared_ok d → without "." (digest_part d).
Proof. intros H. destruct d as [b|]; [|done]. by apply hex_without, H. Qed.

Definition credential (t : Z) (d : option bytes) (mac : bytes) : string :=
  DISPATCH_PROOF_PREFIX +:+ "." +:+ z_text t +:+ "." +:+ digest_part d +:+ "." +:+ hex mac.

Lemma split_credential t d mac : declared_ok d → Forall octet mac →
  split_on "." (credential t d mac) = ["v3"; z_text t; digest_part d; hex mac].
Proof.
  intros Hd Hm.
  change (credential t d mac)
    with ("v3" +:+ String "." (z_text t +:+ String "." (digest_part d +:+ String "." (hex mac)))).
  rewrite split_on_cut, split_on_cut, split_on_cut, split_on_absent;
    [done|by apply hex_without|by apply digest_part_without|apply z_text_without_dot|done].
Qed.

Lemma digest_part_absent d : declared_ok d → String.eqb (digest_part d) ABSENT_BODY_DIGEST = true ↔ d = None.
Proof.
  intros H. destruct d as [b|]; cbn; [|done]. split; [|done]. intros Heq%String.eqb_eq.
  destruct (H b eq_refl) as [(_ & Hl & _)%hex_text H32]. rewrite Heq, H32 in Hl. done.
Qed.

Lemma parse_credential t d mac : 0 ≤ t < 10 ^ 15 → declared_ok d → digest_ok mac →
  parseDispatchProof (credential t d mac) = Some (mkParsed t d).
Proof.
  intros Ht Hd [Hm Hl]. unfold parseDispatchProof. rewrite split_credential by done. cbn [String.eqb].
  change (String.eqb "v3" DISPATCH_PROOF_PREFIX) with true.
  rewrite issued_text, digest_text, digits_value_z_text by (done || lia). cbn [negb].
  destruct d as [b|]; cbn [digest_part].
  - destruct (Hd b eq_refl) as [Hb Hlb]. rewrite digest_text by done. rewrite andb_false_r.
    assert (String.eqb (hex b) ABSENT_BODY_DIGEST = false) as ->.
    { destruct (String.eqb (hex b) _) eqn:E; [|done]. by apply (digest_part_absent (Some b) Hd) in E. }
    by destruct (hex_text b Hb) as (_ & _ & ->).
  - done.
Qed.

Lemma unhex_octet h l : hex_char h = true → hex_char l = true →
  octet (Z.of_nat (16 * PlanFingerprint.unhex h + PlanFingerprint.unhex l)).
Proof.
  assert (∀ c, hex_char c = true → (PlanFingerprint.unhex c ≤ 15)%nat) as Hu.
  { intros c. destruct c as [[] [] [] [] [] [] [] []]; vm_compute; intros H; try discriminate H; lia. }
  intros Hh%Hu Hl%Hu. unfold octet. lia.
Qed.

Lemma unhex_bytes_octets n s : all_chars hex_char s = true → String.length s = (2 * n)%nat →
  Forall octet (unhex_bytes s) ∧ length (unhex_bytes s) = n.
Proof.
  revert s. induction n as [|n IH]; intros s Hs Hl; [by destruct s|].
  destruct s as [|h [|l s]]; [done|cbn in Hl; lia|]. cbn [all_chars unhex_bytes String.length] in *. b2p.
  destruct (IH s) as [Ho Hn]; [done|lia|]. split; [constructor; [by apply unhex_octet|done]|]. cbn. by rewrite Hn.
Qed.

(** A parsed digest has thirty-two octets. *)
Lemma parsed_digest c t b : parseDispatchProof c = Some (mkParsed t (Some b)) → digest_ok b.
Proof.
  unfold parseDispatchProof. destruct (split_on "." c) as [|a [|i [|g [|m [|]]]]]; try done.
  destruct (negb _); [done|]. destruct (negb _); [done|]. destruct (negb _); [done|].
  destruct (String.eqb g ABSENT_BODY_DIGEST); [done|]. cbn [negb andb].
  destruct (re_test DIGEST_RE g) eqn:Hg; [|done]. intros [= _ <-].
  apply re_test_spec in Hg.
  change (compiled DIGEST_RE) with (RRep 64 64 (RCls false [("0", "9"); ("a", "f")]%char)) in Hg.
  apply matches_repeat_inv in Hg as [Hg Hl].
  apply unhex_bytes_octets; [|lia]. eapply all_chars_impl; [|exact Hg].
  intros x. destruct x as [[] [] [] [] [] [] [] []]; done.
Qed.

Lemma credential_inj t t' d d' m m' :
  declared_ok d → declared_ok d' → Forall octet m → Forall octet m' →
  credential t d m = credential t' d' m' → t = t' ∧ d = d' ∧ m = m'.
Proof.
  intros Hd Hd' Hm Hm' H. apply (f_equal (split_on ".")) in H. rewrite !split_credential in H by done.
  injection H as Ht%z_text_inj Hdd Hmm. apply hex_inj in Hmm; [|done..]. split_and!; [done| |done].
  destruct d as [b|], d' as [b'|]; [| | |done].
  - f_equal. apply hex_inj; [apply Hd|apply Hd'|]; done.
  - by apply (digest_part_absent (Some b) Hd), String.eqb_eq.
  - symmetry. by apply (digest_part_absent (Some b') Hd'), String.eqb_eq.
Qed.

(** ** Theorems *)

Section Binding.
Context (hmac : string → bytes → bytes) (sha256 : bytes → bytes) (env : string → option string).

(** The inputs the verifier rebuilds from the request and from what the credential carries. *)
Definition seen (q : NodeDispatchProofRequest) (t : Z) (d : option bytes) : DispatchProofInputs :=
  with_digest (dispatchProofInputsFromRequest sha256 q t None) d.

(** The window around the mint time, and the rule that a bodyless method declares no digest. *)
Definition timely (q : NodeDispatchProofRequest) (t now : Z) (d : option bytes) : Prop :=
  - DISPATCH_PROOF_MAX_SKEW_MS env ≤ now - t ≤ DISPATCH_PROOF_MAX_AGE_MS env
  ∧ (d ≠ None → to_upper (default "GET" (n_method q)) ≠ "GET" ∧ to_upper (default "GET" (n_method q)) ≠ "HEAD").

Lemma compute_credential secret i :
  computeDispatchProof hmac secret i
  = credential (i_issuedAtMs i) (i_bodyDigest i) (hmac secret (transcript i)).
Proof. done. Qed.

(** A presented text is accepted exactly when it is the credential of the request it came with. *)
Lemma verify_accepts secret q c now d :
  verifyDispatchProof hmac sha256 env secret q c now = Trusted d ↔
  ∃ t, parseDispatchProof c = Some (mkParsed t d) ∧ c = computeDispatchProof hmac secret (seen q t d)
       ∧ timely q t now d.
Proof.
  unfold verifyDispatchProof, timely, seen. destruct (parseDispatchProof c) as [[t d']|]; cbn [p_issuedAtMs p_bodyDigest].
  2:{ split; [done|]. by intros (t & ? & _). }
  set (expected := computeDispatchProof _ _ _). split.
  - destruct (timingSafeStringEqual c expected) eqn:Hc; [|done]. apply timingSafe_eq in Hc. cbn [negb].
    destruct (if d' then _ else _) eqn:Hb; [done|].
    destruct (DISPATCH_PROOF_MAX_AGE_MS env <? now - t) eqn:H1; [done|].
    destruct (now - t <? - DISPATCH_PROOF_MAX_SKEW_MS env) eqn:H2; [done|]. intros [= <-].
    apply Z.ltb_ge in H1, H2. exists t. split_and!; [done|done|lia|lia|].
    intros Hd. destruct d'; [|done]. apply orb_false_iff in Hb as [H3%String.eqb_neq H4%String.eqb_neq]. done.
  - intros (t' & [= -> ->] & Hc & [H1 H2] & Hb). rewrite (proj2 (timingSafe_eq c expected) Hc). cbn [negb].
    replace (if d then _ else _) with false.
    + rewrite (proj2 (Z.ltb_ge _ _) H2), (proj2 (Z.ltb_ge _ _) H1). done.
    + destruct d; [|done]. destruct Hb as [H3 H4]; [done|]. symmetry. apply orb_false_iff.
      split; by apply String.eqb_neq.
Qed.

(** What the transcript of the request says, against what the signer signed. *)
Definition binds (i : DispatchProofInputs) (q : NodeDispatchProofRequest) : Prop :=
  same_request i (seen q (i_issuedAtMs i) (i_bodyDigest i)).

Definition mac_of_sha256 : Prop := ∀ key message, digest_ok (hmac key message).

(** A trusted request is the one that was signed, or the MAC collides on the two transcripts. *)
Lemma trusted_binds secret i q now d :
  mac_of_sha256 → declared_ok (i_bodyDigest i) →
  verifyDispatchProof hmac sha256 env secret q (computeDispatchProof hmac secret i) now = Trusted d →
  d = i_bodyDigest i ∧ timely q (i_issuedAtMs i) now d
  ∧ (binds i q
     ∨ let other := transcript (seen q (i_issuedAtMs i) d) in
       transcript i ≠ other ∧ hmac secret (transcript i) = hmac secret other).
Proof.
  intros Hmac Hd (t & Hp & Hc & Ht)%verify_accepts. rewrite !compute_credential in Hc.
  change (i_issuedAtMs (seen q t d)) with t in Hc. change (i_bodyDigest (seen q t d)) with d in Hc.
  assert (declared_ok d) as Hd' by (intros b ->; by eapply parsed_digest).
  apply credential_inj in Hc as (<- & Heq & Hm); [|done|done|apply Hmac..].
  split_and!; [done|done|]. unfold binds. rewrite Heq.
  destruct (decide (transcript i = transcript (seen q (i_issuedAtMs i) d))) as [He|He];
    [left; by apply transcript_inj|by right].
Qed.

(** C7. What an accepted credential says.  When the pool accepts the credential minted for some
    inputs, the digest it reports is the one the signer declared, the request is inside the window
    around the mint time, and the request is the signer's own: method, target, authority, every
    covered header and the list of covered names.  The only escape is a collision of the MAC between
    the two transcripts. *)
Theorem accepted_proof_binds secret i q now d :
  mac_of_sha256 → declared_ok (i_bodyDigest i) →
  verifyDispatchProof hmac sha256 env secret q (computeDispatchProof hmac secret i) now = Trusted d →
  d = i_bodyDigest i ∧ timely q (i_issuedAtMs i) now d
  ∧ (binds i q
     ∨ let other := transcript (seen q (i_issuedAtMs i) d) in
       transcript i ≠ other ∧ hmac secret (transcript i) = hmac secret other).
Proof. intros Hmac Hd H. by apply trusted_binds. Qed.

(** The pool accepts the credential minted for the request it receives, within the window, and
    reports the digest the signer declared: neither tier's own encoding of the request is in the
    way. *)
Theorem minted_proof_accepted secret i q now :
  mac_of_sha256 → declared_ok (i_bodyDigest i) → 0 ≤ i_issuedAtMs i < 10 ^ 15 →
  binds i q → timely q (i_issuedAtMs i) now (i_bodyDigest i) →
  verifyDispatchProof hmac sha256 env secret q (computeDispatchProof hmac secret i) now = Trusted (i_bodyDigest i).
Proof.
  intros Hmac Hd Ht Hb Hn. apply verify_accepts. exists (i_issuedAtMs i). split_and!; [| |done].
  - by apply parse_credential; [| |apply Hmac].
  - unfold computeDispatchProof. by rewrite (same_request_transcript _ _ Hb).
Qed.

End Binding.

(** ** Witnesses *)

(** A stand-in for the MAC and the digest: thirty-two octets, the first a checksum of the message. *)
Definition checksum (message : bytes) : bytes :=
  foldl (λ acc x, (31 * acc + x) mod 256) 7 message :: replicate 31 0.

Lemma checksum_ok message : digest_ok (checksum message).
Proof.
  split; [|done]. constructor.
  - unfold octet. destruct message as [|x m] using rev_ind; [vm_compute; done|].
    rewrite foldl_snoc. apply Z.mod_pos_bound. lia.
  - by apply Forall_replicate.
Qed.

Definition no_env (_ : string) : option string := None.

(** A POST to a shop: the edge signs what Envoy shows it, the pool reads what Node shows it. *)
Definition sample_names : list string := ["cookie"; "rsc"].

Definition sample_request : NodeDispatchProofRequest :=
  mkNodeRequest (Some "POST") (Some "/cart?item=1")
    (list_to_map [("host", HStr "Shop.Example"); ("cookie", HStr "a=1; b=2");
                  ("x-forwarded-proto", HStr "https"); ("x-output-id", HStr "/cart");
                  ("x-mw-evaluated", HStr "ran"); ("x-client", HStr "kept out of the proof")])
    (Some sample_names).

Definition sample_signed : DispatchProofInputs :=
  mkInputs "post" (PString "/cart?item=1") (PString "shop.example")
    (list_to_map [("cookie", PBuffer (DispatchProof.latin1 "a=1; b=2")); ("x-forwarded-proto", PString "https");
                  ("x-output-id", PString "/cart"); ("x-mw-evaluated", PString "ran")])
    (Some sample_names) 1700000000000 (Some (checksum [1; 2; 3])).

Lemma sample_binds : binds checksum sample_signed sample_request.
Proof.
  constructor; [vm_compute; reflexivity..|].
  set (j := seen _ _ _ _).
  assert (forallb (λ name, bool_decide (header_octets sample_signed name = header_octets j name))
            (covered sample_signed) = true) as H by (vm_compute; reflexivity).
  intros name Hn. by apply (proj1 (forallb_In _ _) H name), bool_decide_eq_true in Hn.
Qed.

Lemma sample_timely : timely no_env sample_request 1700000000000 1700000060000 (Some (checksum [1; 2; 3])).
Proof. split; [split; vm_compute; discriminate|]. intros _. split; vm_compute; discriminate. Qed.

Lemma sample_declared : declared_ok (i_bodyDigest sample_signed).
Proof. intros b [= <-]. apply checksum_ok. Qed.

Lemma accepted_proof_binds_witness :
  ∃ d, verifyDispatchProof (λ _, checksum) checksum no_env "key" sample_request
         (computeDispatchProof (λ _, checksum) "key" sample_signed) 1700000060000 = Trusted d
  ∧ d = i_bodyDigest sample_signed ∧ timely no_env sample_request 1700000000000 1700000060000 d
  ∧ (binds checksum sample_signed sample_request
     ∨ let other := transcript (seen checksum sample_request 1700000000000 d) in
       transcript sample_signed ≠ other ∧ checksum (transcript sample_signed) = checksum other).
Proof.
  exists (Some (checksum [1; 2; 3])). split; [vm_compute; reflexivity|].
  apply (accepted_proof_binds (λ _, checksum) checksum no_env "key" sample_signed sample_request 1700000060000).
  - intros ? ?. apply checksum_ok.
  - exact sample_declared.
  - vm_compute. reflexivity.
Defined.

Lemma minted_proof_accepted_witness :
  verifyDispatchProof (λ _, checksum) checksum no_env "key" sample_request
    (computeDispatchProof (λ _, checksum) "key" sample_signed) 1700000060000
  = Trusted (i_bodyDigest sample_signed).
Proof.
  apply (minted_proof_accepted (λ _, checksum) checksum no_env "key" sample_signed sample_request 1700000060000).
  - intros ? ?. apply checksum_ok.
  - exact sample_declared.
  - vm_compute. split; [discriminate|reflexivity].
  - exact sample_binds.
  - exact sample_timely.
Defined.

(** The same credential on another host, or a minute after the window, is refused. *)
Example other_host_refused :
  verifyDispatchProof (λ _, checksum) checksum no_env "key"
    (mkNodeRequest (Some "POST") (Some "/cart?item=1")
       (<["host" := HStr "evil.example"]> (n_headers sample_request)) (Some sample_names))
    (computeDispatchProof (λ _, checksum) "key" sample_signed) 1700000060000 = Rejected Mismatch.
Proof. vm_compute. reflexivity. Qed.

Example late_refused :
  verifyDispatchProof (λ _, checksum) checksum no_env "key" sample_request
    (computeDispatchProof (λ _, checksum) "key" sample_signed) 1700000180000 = Rejected Stale.
Proof. vm_compute. reflexivity. Qed.

End DispatchProofFacts.
