(* ===== verification/TrustBoundary.v ===== *)
(** * The trust boundary of a pool

    Models src/src/pool-server/server.ts up to its HTTP server, the cross-pool hop of
    src/src/pool-server/dispatch.ts and src/src/pool-server/middle-cache.ts: which request headers a
    pool believes, what it strips, how a hop to a sibling pool authors and signs its own dispatch
    headers, and which response headers never leave.  A request is the part of IncomingMessage the
    boundary reads and writes, the body digest it parks on the request included.
    Buffer.prototype.toString of UTF-8 is the parameter [decode]; clock readings are arguments. *)
From Stdlib Require Import Ascii String.
From stdpp Require Import gmap strings.
From S2P Require Import Prelude JsString CacheControl Json Resp DispatchProof.
Import Resp DispatchProof.
Import CachePolicy(hvalue(..)).
Local Open Scope stdpp_scope.
Local Open Scope js_scope.
Local Open Scope Z_scope.

Module TrustBoundary.

(** ** Reporting a rejection *)

Definition DISPATCH_PROOF_LOG_INTERVAL_MS : Z := 60000.

Inductive DispatchProofRejectionReason := Verdict (r : DispatchProofRejection) | InvalidUtf8 | BodyMismatch.

Definition reason_text (r : DispatchProofRejectionReason) : string :=
  match r with
  | Verdict Malformed => "malformed"
  | Verdict Mismatch => "mismatch"
  | Verdict Stale => "stale"
  | Verdict Premature => "premature"
  | Verdict BodyUnexpected => "body-unexpected"
  | InvalidUtf8 => "invalid-utf8"
  | BodyMismatch => "body-mismatch"
  end.

(** The throttle's map, the reasons the metric counted and the log lines written, oldest first. *)
Record Reports := mkReports {
  dispatchProofLoggedAt : gmap string Z;
  counted : list string;
  warned : list (string * Z);
}.

Definition reportDispatchProofRejected (reason : DispatchProofRejectionReason) (now : Z) (s : Reports) : Reports :=
  let key := reason_text reason in
  let counted' := counted s ++ [key] in
  let quiet := match dispatchProofLoggedAt s !! key with
               | Some last => now - last <? DISPATCH_PROOF_LOG_INTERVAL_MS
               | None => false
               end in
  if quiet then mkReports (dispatchProofLoggedAt s) counted' (warned s)
  else mkReports (<[key := now]> (dispatchProofLoggedAt s)) counted' (warned s ++ [(key, now)]).

(** ** The request *)

Record IncomingMessage := mkMessage {
  q_method : option string;
  q_url : option string;
  q_headers : headers;
  q_bodyDigest : option bytes;
  q_middleCache : bool;
}.

Definition with_headers (h : headers) (q : IncomingMessage) : IncomingMessage :=
  mkMessage (q_method q) (q_url q) h (q_bodyDigest q) (q_middleCache q).

Definition park (d : option bytes) (q : IncomingMessage) : IncomingMessage :=
  mkMessage (q_method q) (q_url q) (q_headers q) d (q_middleCache q).

Definition delete_headers (names : list string) (h : headers) : headers := foldl (λ h n, delete n h) h names.

(** isUtf8: well-formed UTF-8, without over-long forms, surrogates and code points past 10FFFF. *)
Definition between (lo hi x : Z) : bool := (lo <=? x) && (x <=? hi).
Definition continuation (x : Z) : bool := between 128 191 x.

Fixpoint isUtf8 (b : bytes) : bool :=
  match b with
  | [] => true
  | x :: r =>
      if x <? 128 then isUtf8 r
      else if between 194 223 x then
        match r with y :: r' => continuation y && isUtf8 r' | _ => false end
      else if between 224 239 x then
        match r with
        | y :: z :: r' =>
            between (if x =? 224 then 160 else 128) (if x =? 237 then 159 else 191) y
            && continuation z && isUtf8 r'
        | _ => false
        end
      else if between 240 244 x then
        match r with
        | y :: z :: w :: r' =>
            between (if x =? 240 then 144 else 128) (if x =? 244 then 143 else 191) y
            && continuation z && continuation w && isUtf8 r'
        | _ => false
        end
      else false
  end.

Section Boundary.
Context (hmac : string → bytes → bytes) (sha256 : bytes → bytes) (env : string → option string)
  (decode : bytes → string).

(** The decoded form of one value, unless its octets are not UTF-8. *)
Definition decode_item (item : string) : option string :=
  let b := latin1 item in if isUtf8 b then Some (decode b) else None.

Definition decode_value (v : hvalue) : option hvalue :=
  match v with
  | HStr s => HStr <$> decode_item s
  | HArr l => HArr <$> mapM decode_item l
  end.

(** The loop over the vocabulary: the headers as they are when it stops, and whether it finished. *)
Fixpoint decode_names (names : list string) (h : headers) : bool * headers :=
  match names with
  | [] => (true, h)
  | n :: names =>
      match h !! n with
      | None => decode_names names h
      | Some v =>
          match decode_value v with
          | Some v' => decode_names names (<[n := v']> h)
          | None => (false, h)
          end
      end
  end.

Definition decodeAuthenticatedDispatchHeaders (q : IncomingMessage) : bool * IncomingMessage :=
  let '(ok, h) := decode_names INTERNAL_DISPATCH_HEADERS (q_headers q) in (ok, with_headers h q).

Definition enforceDispatchBodyBinding (q : IncomingMessage) (body : option bytes) (now : Z) (s : Reports)
    : bool * IncomingMessage * Reports :=
  match q_bodyDigest q with
  | None => (true, q, s)
  | Some declared =>
      let q' := park None q in
      if dispatchProofBodyMatches sha256 (Some declared) body then (true, q', s)
      else (false, with_headers (delete_headers INTERNAL_DISPATCH_HEADERS (q_headers q')) q',
            reportDispatchProofRejected BodyMismatch now s)
  end.

Record RequestTrustOptions := mkOptions {
  internalSecret : option string;
  trustInternalHeaders : bool;
  proofHeaderNames : option (list string);
}.

Definition PUBLIC_MIDDLEWARE_REQUEST_HEADERS : list string := ["x-middleware-prefetch"].

(** A middleware control header that is not part of the public protocol. *)
Definition private_control (n : string) : bool :=
  starts_with "x-middleware-" n && negb (bool_decide (n ∈ PUBLIC_MIDDLEWARE_REQUEST_HEADERS)).

Definition node_request (o : RequestTrustOptions) (q : IncomingMessage) : NodeDispatchProofRequest :=
  mkNodeRequest (q_method q) (q_url q) (q_headers q) (proofHeaderNames o).

(** The trust decision, with the request as decoding and parking leave it. *)
Definition decide_trust (o : RequestTrustOptions) (q : IncomingMessage) (now : Z) (s : Reports)
    : bool * IncomingMessage * Reports :=
  let presentedProof := q_headers q !! INTERNAL_DISPATCH_PROOF_HEADER in
  let q := park None q in
  let secret := match internalSecret o with Some k => if is_empty k then None else Some k | None => None end in
  match secret, presentedProof with
  | None, _ => (trustInternalHeaders o, q, s)
  | Some k, Some (HStr proof) =>
      match verifyDispatchProof hmac sha256 env k (node_request o q) proof now with
      | Trusted bodyDigest =>
          let '(ok, q) := decodeAuthenticatedDispatchHeaders q in
          if ok then (true, park bodyDigest q, s)
          else (false, q, reportDispatchProofRejected InvalidUtf8 now s)
      | Rejected reason => (false, q, reportDispatchProofRejected (Verdict reason) now s)
      end
  | Some k, _ => (false, q, s)
  end.

(** The deletions that follow the decision. *)
Definition strip_headers (trusted : bool) (h : headers) : headers :=
  let h := delete_headers [INTERNAL_SECRET_HEADER; INTERNAL_DISPATCH_PROOF_HEADER] h in
  let h := delete_headers UNTRUSTED_NEXT_REQUEST_HEADERS h in
  let h := if trusted then h else delete_headers INTERNAL_DISPATCH_HEADERS h in
  filter (λ kv : string * hvalue, private_control kv.1 = false) h.

Definition applyIncomingRequestTrustBoundary (o : RequestTrustOptions) (q : IncomingMessage) (now : Z)
    (s : Reports) : bool * IncomingMessage * Reports :=
  let '(trusted, q, s) := decide_trust o q now s in
  (trusted, with_headers (strip_headers trusted (q_headers q)) q, s).

(** ** The response side *)

Definition MIDDLE_CACHE_REQUEST_HEADER : string := "x-adapter-middle-cache".
Definition MIDDLE_CACHE_ASSET_HEADER : string := "x-adapter-asset".

Definition acceptMiddleCacheRequest (q : IncomingMessage) : IncomingMessage :=
  let enabled := bool_decide (env "ADAPTER_K8S_MIDDLE_CACHE" = Some "1") in
  let asked := match q_headers q !! MIDDLE_CACHE_REQUEST_HEADER with
               | Some (HStr v) => String.eqb v "1"
               | _ => false
               end in
  mkMessage (q_method q) (q_url q)
    (delete_headers [MIDDLE_CACHE_REQUEST_HEADER; MIDDLE_CACHE_ASSET_HEADER] (q_headers q))
    (q_bodyDigest q) (q_middleCache q || enabled && asked).

Definition INTERNAL_RESPONSE_HEADERS : list string :=
  ["x-middleware-next"; "x-middleware-rewrite"; "x-middleware-refresh"; "x-middleware-override-headers";
   "x-middleware-set-cookie"].
Definition PUBLIC_MIDDLEWARE_RESPONSE_HEADERS : list string := ["x-middleware-skip"].

Definition isInternalResponseHeader (name : string) : bool :=
  let lower := to_lower name in
  if bool_decide (lower ∈ PUBLIC_MIDDLEWARE_RESPONSE_HEADERS) then false
  else String.eqb lower MIDDLE_CACHE_ASSET_HEADER || String.eqb lower MIDDLE_CACHE_REQUEST_HEADER
       || bool_decide (lower ∈ INTERNAL_RESPONSE_HEADERS)
       || starts_with "x-middleware-request-" lower || starts_with "x-middleware-" lower.

(** What the wrapped writeHead passes on: the map and the argument. *)
Definition guarded_writeHead (handoff : option string) (statusCode : Z) (set : CachePolicy.header_map)
    (arg : option CachePolicy.headers_arg) : CachePolicy.header_map * option CachePolicy.headers_arg :=
  let set := filter (λ kv : string * hvalue, isInternalResponseHeader kv.1 = false) set in
  let arg := (λ a, CachePolicy.filterWriteHeadHeadersArg a isInternalResponseHeader) <$> arg in
  match handoff with
  | Some asset =>
      if statusCode =? 200 then
        (<["content-length" := HStr "0"]> (<[MIDDLE_CACHE_ASSET_HEADER := HStr asset]> set),
         (λ a, CachePolicy.filterWriteHeadHeadersArg a (λ n, String.eqb (to_lower n) "content-length")) <$> arg)
      else (set, arg)
  | None => (set, arg)
  end.

(** What handing an asset to the sidecar depends on, and the id it is given. *)
Record StaticAsset := mkAsset { a_filePath : string; a_prerender : bool; a_status : option Z }.

Definition handOffStaticAsset (q : IncomingMessage) (asset : StaticAsset) : option string :=
  let method := default "" (q_method q) in
  if negb (bool_decide (env "ADAPTER_K8S_MIDDLE_CACHE" = Some "1")) || negb (q_middleCache q)
     || negb (String.eqb method "GET") && negb (String.eqb method "HEAD")
     || a_prerender asset
     || match a_status asset with Some st => negb (st =? 200) | None => false end
  then None
  else Some (hex (sha256 (utf8 (a_filePath asset)))).

(** ** The hop to a sibling pool *)

Definition HOP_BY_HOP_HEADERS : list string :=
  ["connection"; "transfer-encoding"; "keep-alive"; "te"; "trailer"; "upgrade"].

Definition header_strings (v : option hvalue) : list string :=
  match v with
  | Some (HArr l) => l
  | Some (HStr s) => if is_empty s then [] else [s]
  | None => []
  end.

(** The names that the Connection header nominates. *)
Definition nominated (h : headers) : list string :=
  filter (λ n, is_empty n = false)
    (map (λ token, to_lower (trim token)) (header_strings (h !! "connection") ≫= split_on ",")).

Definition stripRequestHopByHopHeaders (h : headers) : headers :=
  filter (λ kv : string * hvalue,
            to_lower kv.1 ∉ HOP_BY_HOP_HEADERS ∧ to_lower kv.1 ∉ nominated h) h.

Definition restateFramingHeaders (h : headers) (bufferedBody : option bytes) (method : option string)
    (setExplicitEmpty : bool) : headers :=
  let h := filter (λ kv : string * hvalue,
                     to_lower kv.1 ≠ "content-length" ∧ to_lower kv.1 ≠ "transfer-encoding") h in
  let len := match bufferedBody with Some b => size b | None => 0 end in
  if 0 <? len then <["content-length" := HStr (z_text len)]> h
  else if setExplicitEmpty && negb (bool_decide (method = Some "GET")) && negb (bool_decide (method = Some "HEAD"))
  then <["content-length" := HStr "0"]> h
  else h.

(** What the hop reads of the resolution of the request. *)
Record ResolvedRoute := mkRoute {
  matchedPathname : string;
  routeMatches : option json;
  responseStatus : option Z;
  invokePath : option string;
  invocationQuery : option json;
}.

Definition ASSERTED_BY_THIS_HOP : list string :=
  ["x-output-id"; "x-matched-pathname"; "x-route-matches"; "x-mw-evaluated"; "x-invoke-path";
   "x-mw-response-status"; "x-invoke-query"; "x-adapter-k8s-execution-deadline";
   INTERNAL_DISPATCH_PROOF_HEADER].

Definition insert_text (n : string) (v : option string) (h : headers) : headers :=
  match v with Some s => <[n := HStr s]> h | None => h end.

(** The assignments that follow the spread of the client's headers. *)
Definition assertions (r : ResolvedRoute) (executionDeadlineAt : option Z) : list (string * option string) :=
  [("x-output-id", Some (matchedPathname r));
   ("x-matched-pathname", Some (matchedPathname r));
   ("x-route-matches", Some (match routeMatches r with Some m => stringify m | None => "" end));
   ("x-mw-response-status", z_text <$> responseStatus r);
   ("x-invoke-path", invokePath r ≫= λ p, if is_empty p then None else Some p);
   ("x-invoke-query", stringify <$> invocationQuery r);
   ("x-adapter-k8s-execution-deadline", z_text <$> executionDeadlineAt);
   ("x-mw-evaluated", Some "ran")].

Definition evicted : list string :=
  filter (λ n, n ∉ ASSERTED_BY_THIS_HOP)
    (INTERNAL_DISPATCH_HEADERS ++ [INTERNAL_SECRET_HEADER; INTERNAL_DISPATCH_PROOF_HEADER]).

(** The outgoing headers as the hop authors them, before their values are encoded. *)
Definition authored_headers (q : IncomingMessage) (r : ResolvedRoute) (bufferedBody : option bytes)
    (executionDeadlineAt : option Z) : headers :=
  let h := stripRequestHopByHopHeaders (q_headers q) in
  let h := foldl (λ h a, insert_text a.1 a.2 h) h (assertions r executionDeadlineAt) in
  let h := delete_headers evicted h in
  restateFramingHeaders h bufferedBody (q_method q) false.

Definition forwardHeaders (q : IncomingMessage) (r : ResolvedRoute) (bufferedBody : option bytes)
    (executionDeadlineAt : option Z) (secret : option string) (names : option (list string)) (now : Z) : headers :=
  let h := encodeNodeOutgoingDispatchHeaders (authored_headers q r bufferedBody executionDeadlineAt) in
  match secret with
  | Some k =>
      if is_empty k then h
      else
        <[INTERNAL_DISPATCH_PROOF_HEADER :=
            HStr (computeDispatchProof hmac k
              (dispatchProofInputsFromRequest sha256
                 (mkNodeRequest (q_method q) (q_url q) h names) now bufferedBody))]> h
  | None => h
  end.

End Boundary.

End TrustBoundary.
