(* ===== verification/TrustBoundaryFacts.v ===== *)
(** * The trust boundary of a pool: facts

    What survives the boundary and on whose authority, the hop from one pool to a sibling, the check
    of the body, and the response headers that never leave. *)
From Stdlib Require Import Ascii String.
From stdpp Require Import gmap strings.
From S2P Require Import Prelude JsString CacheControl Json Resp RespFacts PlanFingerprint DispatchProof DispatchProofFacts TrustBoundary.
Import Resp DispatchProof DispatchProofFacts TrustBoundary.
Import CachePolicy(hvalue(..)).
Local Open Scope stdpp_scope.
Local Open Scope js_scope.
Local Open Scope Z_scope.

Module TrustBoundaryFacts.

(** ** Header maps *)

Lemma lookup_delete_headers names (h : headers) n :
  delete_headers names h !! n = if bool_decide (n ∈ names) then None else h !! n.
Proof.
  unfold delete_headers. revert h. induction names as [|m names IH]; intros h; [done|].
  cbn [foldl]. rewrite IH. cbn beta. case_bool_decide as H1; case_bool_decide as H2; try done.
  - destruct H2. by apply list_elem_of_further.
  - apply elem_of_cons in H2 as [-> | ?]; [|done]. by rewrite lookup_delete_eq.
  - apply not_elem_of_cons in H2 as [H2 _]. by rewrite lookup_delete_ne.
Qed.

Lemma lookup_filter_private (h : headers) n :
  filter (λ kv : string * hvalue, private_control kv.1 = false) h !! n
  = if private_control n then None else h !! n.
Proof.
  rewrite map_lookup_filter. destruct (h !! n) as [v|]; cbn; [|by destruct (private_control n)].
  destruct (private_control n) eqn:E; case_guard; done.
Qed.

(** ** The hop's own headers *)

Lemma vocabulary_nodup : NoDup INTERNAL_DISPATCH_HEADERS.
Proof. apply (bool_decide_unpack _). vm_compute. exact I. Qed.

Lemma lookup_encoded (h : headers) n :
  encodeNodeOutgoingDispatchHeaders h !! n
  = if bool_decide (n ∈ INTERNAL_DISPATCH_HEADERS) then encode_value <$> h !! n else h !! n.
Proof.
  unfold encodeNodeOutgoingDispatchHeaders. generalize vocabulary_nodup.
  generalize INTERNAL_DISPATCH_HEADERS as names. intros names Hnd. revert h.
  induction Hnd as [|m names Hm Hnd IH]; intros h; [done|]. cbn [foldl]. rewrite IH.
  assert (n ≠ m → match h !! m with Some v => <[m := encode_value v]> h | None => h end !! n = h !! n) as Hne.
  { intros Hne. destruct (h !! m); [by rewrite lookup_insert_ne|done]. }
  case_bool_decide as H1; case_bool_decide as H2.
  - by rewrite Hne by (intros ->; done).
  - by destruct H2; apply list_elem_of_further.
  - apply elem_of_cons in H2 as [-> | ?]; [|done]. destruct (h !! m) eqn:E; cbn.
    + apply lookup_insert_eq.
    + done.
  - apply not_elem_of_cons in H2 as [H2 _]. by apply Hne.
Qed.

Lemma lookup_inserted (l : list (string * option string)) (h : headers) n v :
  NoDup l.*1 → (n, Some v) ∈ l → foldl (λ h a, insert_text a.1 a.2 h) h l !! n = Some (HStr v).
Proof.
  revert h. induction l as [|[m x] l IH]; intros h Hnd Hin; [by apply elem_of_nil in Hin|].
  apply NoDup_cons in Hnd as [Hm Hnd]. cbn [foldl fst snd] in *.
  apply elem_of_cons in Hin as [[= <- <-] | Hin]; [|by apply IH]. cbn [insert_text].
  assert (∀ l' (h' : headers), n ∉ l'.*1 → foldl (λ h a, insert_text a.1 a.2 h) h' l' !! n = h' !! n) as Hout.
  { clear. induction l' as [|[k [y|]] l' IH]; intros h' Hn; cbn [foldl fst snd insert_text] in *; [done|..];
      apply not_elem_of_cons in Hn as [Hne Hn]; rewrite IH by done; [|done].
    by rewrite lookup_insert_ne. }
  rewrite Hout by done. apply lookup_insert_eq.
Qed.

Lemma lookup_restated (h : headers) body method n :
  to_lower n ≠ "content-length" → to_lower n ≠ "transfer-encoding" →
  restateFramingHeaders h body method false !! n = h !! n.
Proof.
  intros H1 H2. unfold restateFramingHeaders. cbn [andb].
  assert (filter (λ kv : string * hvalue, to_lower kv.1 ≠ "content-length" ∧ to_lower kv.1 ≠ "transfer-encoding") h !! n
          = h !! n) as Hf.
  { rewrite map_lookup_filter. destruct (h !! n); cbn; [|done]. case_guard as Hg; [done|]. by destruct Hg. }
  split_ifs; [|done]. rewrite lookup_insert_ne; [done|]. by intros <-.
Qed.

Lemma authored_assertion q r body dl n v :
  (n, Some v) ∈ assertions r dl → authored_headers q r body dl !! n = Some (HStr v).
Proof.
  intros Hin. unfold authored_headers.
  assert (n ∈ (assertions r dl).*1) as Hn by by apply (list_elem_of_fmap_2 fst _ _ Hin).
  assert ((assertions r dl).*1
    = ["x-output-id"; "x-matched-pathname"; "x-route-matches"; "x-mw-response-status"; "x-invoke-path";
       "x-invoke-query"; "x-adapter-k8s-execution-deadline"; "x-mw-evaluated"]) as Hnames by done.
  assert (forallb (λ n, negb (String.eqb (to_lower n) "content-length")
                        && negb (String.eqb (to_lower n) "transfer-encoding")
                        && negb (bool_decide (n ∈ evicted))) (assertions r dl).*1 = true) as Hok.
  { rewrite Hnames. vm_compute. reflexivity. }
  apply (proj1 (forallb_In _ _) Hok) in Hn. apply andb_true_iff in Hn as [[H1 H2]%andb_true_iff H3].
  apply negb_true_iff, String.eqb_neq in H1, H2. apply negb_true_iff in H3.
  rewrite lookup_restated, lookup_delete_headers, H3 by done.
  apply lookup_inserted; [|done]. rewrite Hnames. apply (bool_decide_unpack _). vm_compute. exact I.
Qed.

Lemma authored_evicted q r body dl n : n ∈ evicted → authored_headers q r body dl !! n = None.
Proof.
  intros Hn. unfold authored_headers.
  assert (forallb (λ n, negb (String.eqb (to_lower n) "content-length")
                        && negb (String.eqb (to_lower n) "transfer-encoding")) evicted = true) as Hok
    by (vm_compute; reflexivity).
  pose proof (proj1 (forallb_In _ _) Hok n Hn) as H. apply andb_true_iff in H as [H1 H2].
  apply negb_true_iff, String.eqb_neq in H1, H2.
  by rewrite lookup_restated, lookup_delete_headers, bool_decide_true by done.
Qed.

(** The UTF-8 form of a text is well formed, so an encoded value decodes to the authored one. *)
Lemma isUtf8_utf8 s : isUtf8 (utf8 s) = true.
Proof.
  induction s as [|c s IH]; [done|]. rewrite <- IH.
  destruct c as [[] [] [] [] [] [] [] []]; reflexivity.
Qed.

Lemma decode_encoded decode v : (∀ s, decode (utf8 s) = s) → decode_value decode (encode_value v) = Some v.
Proof.
  intros Hdec. assert (∀ s, decode_item decode (encodeNodeOutgoingDispatchHeader s) = Some s) as Hi.
  { intros s. unfold decode_item, encodeNodeOutgoingDispatchHeader.
    rewrite latin1_of_latin1 by apply utf8_octets. by rewrite isUtf8_utf8, Hdec. }
  destruct v as [s|l]; cbn [encode_value decode_value]; [by rewrite Hi|].
  assert (mapM (decode_item decode) (map encodeNodeOutgoingDispatchHeader l) = Some l) as ->; [|done].
  induction l as [|s l IH]; [done|]. cbn [map mapM]. rewrite Hi. cbn. by rewrite IH.
Qed.

Lemma decode_names_encoded decode names (h g : headers) :
  (∀ s, decode (utf8 s) = s) → NoDup names → (∀ n, n ∈ names → h !! n = encode_value <$> g !! n) →
  ∃ h', decode_names decode names h = (true, h').
Proof.
  intros Hdec Hnd. revert h. induction Hnd as [|m names Hm Hnd IH]; intros h Hg; cbn [decode_names]; [eauto|].
  rewrite (Hg m) by by left. destruct (g !! m) as [v|]; cbn [fmap option_fmap option_map].
  - rewrite decode_encoded by done. apply IH. intros n Hn.
    rewrite lookup_insert_ne by (intros ->; done). apply Hg. by right.
  - apply IH. intros n Hn. apply Hg. by right.
Qed.

Section Boundary.
Context (hmac : string → bytes → bytes) (sha256 : bytes → bytes) (env : string → option string)
  (decode : bytes → string).

Abbreviation boundary := (applyIncomingRequestTrustBoundary hmac sha256 env decode).

(** The decoding of a vocabulary without repetition, read header by header. *)
Lemma decode_names_lookup names h h' :
  NoDup names → decode_names decode names h = (true, h') →
  ∀ n, if bool_decide (n ∈ names) then h' !! n = h !! n ≫= decode_value decode ∧ (h' !! n = None → h !! n = None)
       else h' !! n = h !! n.
Proof.
  intros Hnd. revert h. induction Hnd as [|m names Hm Hnd IH]; intros h H n; cbn [decode_names] in H.
  - by injection H as <-.
  - assert (∀ g, decode_names decode names g = (true, h') → g !! m = h !! m ≫= decode_value decode →
      (g !! m = None → h !! m = None) → (∀ k, k ≠ m → g !! k = h !! k) →
      if bool_decide (n ∈ m :: names)
      then h' !! n = h !! n ≫= decode_value decode ∧ (h' !! n = None → h !! n = None) else h' !! n = h !! n) as Hg.
    { intros g Hd Hgm Hgn Hk. specialize (IH g Hd n). case_bool_decide as H1; case_bool_decide as H2.
      - by rewrite Hk in IH by (intros ->; done).
      - by destruct H2; apply list_elem_of_further.
      - apply elem_of_cons in H2 as [-> | ?]; [|done]. rewrite IH. by split.
      - apply not_elem_of_cons in H2 as [H2 _]. by rewrite IH, Hk. }
    destruct (h !! m) as [v|] eqn:Ev.
    + destruct (decode_value decode v) as [v'|] eqn:Ed; [|done].
      apply (Hg _ H); [by rewrite lookup_insert_eq|by rewrite lookup_insert_eq|].
      intros k Hne. by rewrite lookup_insert_ne.
    + apply (Hg _ H); [by rewrite Ev|done|done].
Qed.

(** What the boundary always removes. *)
Definition never_kept (n : string) : bool :=
  bool_decide (n ∈ INTERNAL_SECRET_HEADER :: INTERNAL_DISPATCH_PROOF_HEADER :: UNTRUSTED_NEXT_REQUEST_HEADERS)
  || private_control n.

Lemma strip_lookup trusted h n :
  strip_headers trusted h !! n
  = if never_kept n || negb trusted && bool_decide (n ∈ INTERNAL_DISPATCH_HEADERS) then None else h !! n.
Proof.
  unfold strip_headers, never_kept. rewrite lookup_filter_private.
  assert (∀ names h, (if trusted then h else delete_headers names h) !! n
          = if negb trusted && bool_decide (n ∈ names) then None else h !! n) as Hif.
  { intros names h'. destruct trusted; [done|]. apply lookup_delete_headers. }
  rewrite Hif, !lookup_delete_headers.
  assert (∀ x l, bool_decide (n ∈ x :: l) = bool_decide (n = x) || bool_decide (n ∈ l)) as Hcons.
  { intros x l. rewrite <- bool_decide_or. by apply bool_decide_ext, elem_of_cons. }
  rewrite !Hcons. change (bool_decide (n ∈ [])) with false.
  destruct (private_control n), (bool_decide (n = INTERNAL_SECRET_HEADER)),
    (bool_decide (n = INTERNAL_DISPATCH_PROOF_HEADER)), (bool_decide (n ∈ UNTRUSTED_NEXT_REQUEST_HEADERS)),
    trusted, (bool_decide (n ∈ INTERNAL_DISPATCH_HEADERS)); reflexivity.
Qed.

Lemma boundary_inv o q now s trusted q' s' :
  boundary o q now s = (trusted, q', s') →
  ∃ q1, decide_trust hmac sha256 env decode o q now s = (trusted, q1, s')
        ∧ q' = with_headers (strip_headers trusted (q_headers q1)) q1.
Proof.
  unfold applyIncomingRequestTrustBoundary.
  destruct (decide_trust _ _ _ _ o q now s) as [[t q1] s1]. intros H.
  apply pair_equal_spec in H as [H <-]. apply pair_equal_spec in H as [<- <-]. by exists q1.
Qed.

(** A pool with a secret trusts a request only on its credential. *)
Lemma decided_trusted o q now s q1 s' k :
  internalSecret o = Some k → k ≠ "" →
  decide_trust hmac sha256 env decode o q now s = (true, q1, s') →
  ∃ proof d, q_headers q !! INTERNAL_DISPATCH_PROOF_HEADER = Some (HStr proof)
  ∧ verifyDispatchProof hmac sha256 env k (node_request o (park None q)) proof now = Trusted d
  ∧ q_bodyDigest q1 = d ∧ s' = s
  ∧ decode_names decode INTERNAL_DISPATCH_HEADERS (q_headers q) = (true, q_headers q1).
Proof.
  intros Hs Hk. unfold decide_trust. rewrite Hs. destruct k as [|c k]; [done|]. cbn [is_empty].
  destruct (q_headers q !! _) as [[proof|l]|] eqn:Hp; [|done..].
  destruct (verifyDispatchProof _ _ _ _ _ _ _) as [d|r] eqn:Hv; [|done].
  unfold decodeAuthenticatedDispatchHeaders. cbn [q_headers park].
  destruct (decode_names _ _ _) as [[|] h] eqn:Hd; [|done].
  intros H. apply pair_equal_spec in H as [H <-]. apply pair_equal_spec in H as [_ <-].
  by exists proof, d.
Qed.

Lemma enforced o q body now s ok q' s' n v :
  enforceDispatchBodyBinding sha256 q body now s = (ok, q', s') →
  q_headers q' !! n = Some v → n ∈ o → o = INTERNAL_DISPATCH_HEADERS →
  q_headers q !! n = Some v ∧ ∀ d, q_bodyDigest q = Some d → sha256 (default [] body) = d.
Proof.
  intros H Hn Hin ->. unfold enforceDispatchBodyBinding in H.
  destruct (q_bodyDigest q) as [d|] eqn:Hd.
  - destruct (dispatchProofBodyMatches _ _ _) eqn:Hm.
    + injection H as _ <- _. split; [done|]. intros ? [= <-].
      unfold dispatchProofBodyMatches in Hm. by b2p.
    + apply pair_equal_spec in H as [H _]. apply pair_equal_spec in H as [_ <-].
      cbn [q_headers with_headers] in Hn. rewrite lookup_delete_headers, bool_decide_true in Hn by done. done.
  - injection H as _ <- _. done.
Qed.

Lemma seen_header q t d n : n ∈ proofCoveredHeaderNames (n_proofHeaderNames q) →
  header_octets (seen sha256 q t d) n = wireHeaderBytes n (n_headers q !! n).
Proof.
  intros Hn. unfold header_octets, seen. cbn [i_headers with_digest dispatchProofInputsFromRequest].
  assert (∀ (f : string → ProofFieldValue) l, n ∈ l →
    (list_to_map (map (λ name, (name, f name)) l) : gmap string ProofFieldValue) !! n = Some (f n)) as Hf.
  { intros f. induction l as [|m l IH]; [by intros ?%elem_of_nil|].
    cbn [map list_to_map foldr uncurry fst snd]. destruct (decide (n = m)) as [<-|Hne].
    - intros _. apply lookup_insert_eq.
    - intros [?|?]%elem_of_cons; [done|]. rewrite lookup_insert_ne by done. by apply IH. }
  rewrite Hf by done. cbn. by destruct (wireHeaderBytes _ _).
Qed.

Lemma vocabulary_covered names n : n ∈ INTERNAL_DISPATCH_HEADERS → n ∈ proofCoveredHeaderNames names.
Proof.
  intros Hn. apply PlanFingerprint.elem_of_sort_keys, js_set_elem, elem_of_app. by left.
Qed.

(** C3. On whose authority a dispatch header survives.  Behind the boundary of a pool with a secret,
    and behind the check of the body, a header of the dispatch vocabulary is left only when the
    request carries the credential that the holder of the secret computes over this very request:
    the transcript covers the octets of that header's value, the request is inside the window, the
    body is the one the signer declared, if it declared one, and the value is their decoding. *)
Theorem surviving_headers_vouched o k q body now now' s t q1 s1 ok q2 s2 n v :
  internalSecret o = Some k → k ≠ "" →
  boundary o q now s = (t, q1, s1) →
  enforceDispatchBodyBinding sha256 q1 body now' s1 = (ok, q2, s2) →
  n ∈ INTERNAL_DISPATCH_HEADERS → q_headers q2 !! n = Some v →
  ∃ minted d w,
    let vouched := seen sha256 (node_request o (park None q)) minted d in
    q_headers q !! INTERNAL_DISPATCH_PROOF_HEADER = Some (HStr (computeDispatchProof hmac k vouched))
    ∧ timely env (node_request o q) minted now d
    ∧ (∀ b, d = Some b → sha256 (default [] body) = b)
    ∧ q_headers q !! n = Some w ∧ header_octets vouched n = wireHeaderBytes n (Some w)
    ∧ decode_value decode w = Some v.
Proof.
  intros Hs Hk (qd & Hd & ->)%boundary_inv He Hn Hv.
  destruct (enforced _ _ _ _ _ _ _ _ _ _ He Hv Hn eq_refl) as [Hv1 Hbody].
  cbn [q_headers with_headers q_bodyDigest] in Hv1, Hbody. rewrite strip_lookup in Hv1.
  destruct t; cbn [negb andb] in Hv1.
  2:{ rewrite (bool_decide_true (n ∈ _) Hn), orb_true_r in Hv1. done. }
  destruct (decided_trusted _ _ _ _ _ _ _ Hs Hk Hd) as (proof & d & Hp & Hver & Hbd & _ & Hdec).
  apply verify_accepts in Hver as (minted & _ & -> & Ht).
  pose proof (decode_names_lookup _ _ _ vocabulary_nodup Hdec n) as Hl.
  rewrite bool_decide_true in Hl by done. destruct Hl as [Hl _].
  rewrite orb_false_r in Hv1. destruct (never_kept n); [done|]. rewrite Hv1 in Hl.
  destruct (q_headers q !! n) as [w|] eqn:Hw; [|done].
  exists minted, d, w. split_and!; [done|done|by rewrite <- Hbd|done| |done].
  rewrite seen_header by by apply vocabulary_covered. cbn [n_headers node_request park q_headers]. by rewrite Hw.
Qed.

(** What the wire keeps of an outgoing header record: the names a proof reads, and the credential. *)
Definition delivers (names : option (list string)) (h h' : headers) : Prop :=
  ∀ n, n ∈ "host" :: INTERNAL_DISPATCH_PROOF_HEADER :: proofCoveredHeaderNames names → h' !! n = h !! n.

Lemma build_names_exclude m n : n ∈ buildProofHeaderNames m → excluded n = false.
Proof.
  intros Hn. apply PlanFingerprint.elem_of_sort_keys, js_set_elem, elem_of_app in Hn as [Hn|Hn].
  - unfold matcherProofHeaderNames in Hn. destruct (pm_matchers m) as [[|x ms]|]; [by apply elem_of_nil in Hn| |by apply elem_of_nil in Hn].
    by apply PlanFingerprint.elem_of_sort_keys, list_elem_of_filter in Hn as [? _].
  - unfold rscProofHeaderNames in Hn. destruct (getRscConfig m); [|by apply elem_of_nil in Hn].
    by apply PlanFingerprint.elem_of_sort_keys, js_set_elem, list_elem_of_filter in Hn as [? _].
Qed.

Lemma default_Some {A} (x y : A) : default x (Some y) = y.
Proof. done. Qed.

#[local] Opaque buildProofHeaderNames.

Lemma credential_outside_vocabulary : INTERNAL_DISPATCH_PROOF_HEADER ∉ INTERNAL_DISPATCH_HEADERS.
Proof. apply (bool_decide_eq_false_1 _). vm_compute. reflexivity. Qed.

Lemma credential_outside_context : INTERNAL_DISPATCH_PROOF_HEADER ∉ PROOF_COVERED_CONTEXT_HEADERS.
Proof. apply (bool_decide_eq_false_1 _). vm_compute. reflexivity. Qed.

Lemma credential_excluded : excluded INTERNAL_DISPATCH_PROOF_HEADER = true.
Proof. vm_compute. reflexivity. Qed.

Lemma covered_inv names n : n ∈ proofCoveredHeaderNames names →
  n ∈ INTERNAL_DISPATCH_HEADERS ∨ n ∈ PROOF_COVERED_CONTEXT_HEADERS ∨ n ∈ default [] names.
Proof.
  unfold proofCoveredHeaderNames. rewrite PlanFingerprint.elem_of_sort_keys, js_set_elem, !elem_of_app. tauto.
Qed.

Lemma proof_header_uncovered m :
  INTERNAL_DISPATCH_PROOF_HEADER ∉ "host" :: proofCoveredHeaderNames (Some (buildProofHeaderNames m)).
Proof.
  intros [H|H%covered_inv]%elem_of_cons; [by apply String.eqb_eq in H|].
  rewrite default_Some in H. destruct H as [H|[H|H%build_names_exclude]].
  - exact (credential_outside_vocabulary H).
  - exact (credential_outside_context H).
  - exact (eq_true_false_abs _ credential_excluded H).
Qed.

#[local] Opaque proofCoveredHeaderNames.

(** The transcript depends only on the headers a proof reads. *)
Lemma seen_delivered (q q' : NodeDispatchProofRequest) t d :
  n_method q = n_method q' → n_target q = n_target q' → n_proofHeaderNames q = n_proofHeaderNames q' →
  (∀ n, n ∈ "host" :: proofCoveredHeaderNames (n_proofHeaderNames q) → n_headers q' !! n = n_headers q !! n) →
  same_request (seen sha256 q t d) (seen sha256 q' t d).
Proof.
  intros Hm Ht Hn Hh. constructor.
  - cbn. by rewrite Hm.
  - cbn. by rewrite Ht.
  - unfold folded_authority, seen. cbn [i_authority with_digest dispatchProofInputsFromRequest]. by rewrite (Hh "host") by by left.
  - done.
  - done.
  - change (proofCoveredHeaderNames (n_proofHeaderNames q) = proofCoveredHeaderNames (n_proofHeaderNames q')).
    by rewrite Hn.
  - intros n Hin. change (covered _) with (proofCoveredHeaderNames (n_proofHeaderNames q)) in Hin.
    rewrite !seen_header; [|by rewrite <- Hn|done]. by rewrite Hh by by right.
Qed.

Lemma inputs_seen q t body : dispatchProofInputsFromRequest sha256 q t body = seen sha256 q t (sha256 <$> body).
Proof. reflexivity. Qed.

#[local] Opaque encodeNodeOutgoingDispatchHeaders authored_headers computeDispatchProof.

Lemma forward_signed q r body dl k names t : k ≠ "" →
  forwardHeaders hmac sha256 q r body dl (Some k) names t
  = let h := encodeNodeOutgoingDispatchHeaders (authored_headers q r body dl) in
    <[INTERNAL_DISPATCH_PROOF_HEADER :=
        HStr (computeDispatchProof hmac k (seen sha256 (mkNodeRequest (q_method q) (q_url q) h names) t (sha256 <$> body)))]> h.
Proof. intros Hk. unfold forwardHeaders. destruct k as [|c k]; [by destruct Hk|]. reflexivity. Qed.

(** A credential computed over a header record is accepted with any request that has its covered headers. *)
Lemma signed_accepted o k q q' (h : headers) names t now digest :
  mac_of_sha256 hmac → declared_ok digest → 0 ≤ t < 10 ^ 15 →
  proofHeaderNames o = names → q_method q' = q_method q → q_url q' = q_url q →
  (∀ n, n ∈ "host" :: proofCoveredHeaderNames names → q_headers q' !! n = h !! n) →
  timely env (node_request o q') t now digest →
  verifyDispatchProof hmac sha256 env k (node_request o (park None q'))
    (computeDispatchProof hmac k (seen sha256 (mkNodeRequest (q_method q) (q_url q) h names) t digest)) now
  = Trusted digest.
Proof.
  intros Hmac Hd Ht Hn Hm Hu Hh Htime. apply verify_accepts. exists t. split_and!; [| |exact Htime].
  - rewrite compute_credential. apply parse_credential; [exact Ht|exact Hd|apply Hmac].
  - rewrite !compute_credential. f_equal. f_equal. apply same_request_transcript, seen_delivered.
    + exact (eq_sym Hm).
    + exact (eq_sym Hu).
    + exact (eq_sym Hn).
    + exact Hh.
Qed.

(** What the boundary makes of a request it accepts, when every dispatch value was encoded by a hop. *)
Lemma accepted_hop o k q' (h : headers) proof digest now s :
  internalSecret o = Some k → k ≠ "" → (∀ text, decode (utf8 text) = text) →
  q_headers q' !! INTERNAL_DISPATCH_PROOF_HEADER = Some (HStr proof) →
  verifyDispatchProof hmac sha256 env k (node_request o (park None q')) proof now = Trusted digest →
  (∀ n, n ∈ INTERNAL_DISPATCH_HEADERS → q_headers q' !! n = encode_value <$> h !! n) →
  ∃ q1, boundary o q' now s = (true, q1, s) ∧ q_bodyDigest q1 = digest
        ∧ ∀ n, n ∈ INTERNAL_DISPATCH_HEADERS → q_headers q1 !! n = h !! n.
Proof.
  intros Hs Hk Hdec Hp Hv Henc.
  destruct (decode_names_encoded decode INTERNAL_DISPATCH_HEADERS (q_headers q') h Hdec vocabulary_nodup Henc) as [h' Hh'].
  exists (with_headers (strip_headers true h') (park digest q')). split_and!; [|reflexivity|].
  - unfold applyIncomingRequestTrustBoundary, decide_trust. rewrite Hs, Hp.
    destruct k as [|c k]; [by destruct Hk|]. cbn [is_empty]. rewrite Hv.
    unfold decodeAuthenticatedDispatchHeaders. cbn [q_headers park]. rewrite Hh'. reflexivity.
  - intros n Hn. cbn [q_headers with_headers]. rewrite strip_lookup. cbn [negb andb]. rewrite orb_false_r.
    replace (never_kept n) with false.
    + pose proof (decode_names_lookup _ _ _ vocabulary_nodup Hh' n) as Hl. rewrite bool_decide_true in Hl by exact Hn.
      destruct Hl as [Hl Hl']. rewrite Henc in Hl by exact Hn. destruct (h !! n) as [v|]; cbn in Hl; [|exact Hl].
      by rewrite decode_encoded in Hl by exact Hdec.
    + symmetry. apply negb_true_iff. revert n Hn. apply (proj1 (forallb_In _ _)). vm_compute. reflexivity.
Qed.

Lemma delivered_covered m (h h' : headers) proof :
  (∀ n, n ∈ "host" :: INTERNAL_DISPATCH_PROOF_HEADER :: proofCoveredHeaderNames (Some (buildProofHeaderNames m)) →
     h' !! n = <[INTERNAL_DISPATCH_PROOF_HEADER := proof]> h !! n) →
  ∀ n, n ∈ "host" :: proofCoveredHeaderNames (Some (buildProofHeaderNames m)) → h' !! n = h !! n.
Proof.
  intros Hw n Hin. rewrite Hw.
  - apply lookup_insert_ne. intros <-. exact (proof_header_uncovered m Hin).
  - apply elem_of_cons in Hin as [-> | Hin]; [apply list_elem_of_here|].
    apply list_elem_of_further, list_elem_of_further, Hin.
Qed.

Lemma enforced_own q body now s :
  q_bodyDigest q = sha256 <$> body → enforceDispatchBodyBinding sha256 q body now s = (true, park None q, s).
Proof.
  intros Hd. unfold enforceDispatchBodyBinding. rewrite Hd. destruct body as [b|]; cbn [fmap option_fmap option_map].
  - unfold dispatchProofBodyMatches, dispatchBodyDigest. cbn [default from_option id].
    by rewrite Z.eqb_refl, bool_decide_true.
  - destruct q as [? ? ? d ?]. cbn in Hd. by subst d.
Qed.

Lemma assertion_vocabulary r dl n v : (n, Some v) ∈ assertions r dl → n ∈ INTERNAL_DISPATCH_HEADERS.
Proof.
  intros Hin. apply (list_elem_of_fmap_2 fst) in Hin. cbn [fst] in Hin.
  assert (forallb (λ n, bool_decide (n ∈ INTERNAL_DISPATCH_HEADERS)) (assertions r dl).*1 = true) as Hall.
  { change (assertions r dl).*1
      with ["x-output-id"; "x-matched-pathname"; "x-route-matches"; "x-mw-response-status"; "x-invoke-path";
            "x-invoke-query"; "x-adapter-k8s-execution-deadline"; "x-mw-evaluated"]. vm_compute. reflexivity. }
  by apply (proj1 (forallb_In _ _) Hall), bool_decide_eq_true in Hin.
Qed.


(** The boundary run again on its own result believes nothing: the credential is gone. *)
Lemma second_pass_revokes o k q now s t q1 s1 now' :
  internalSecret o = Some k → k ≠ "" → boundary o q now s = (t, q1, s1) →
  ∃ q2, boundary o q1 now' s1 = (false, q2, s1)
        ∧ ∀ n, n ∈ INTERNAL_DISPATCH_HEADERS → q_headers q2 !! n = None.
Proof.
  intros Hs Hk (qd & _ & ->)%boundary_inv. unfold applyIncomingRequestTrustBoundary at 1, decide_trust.
  rewrite Hs. destruct k as [|c k]; [by destruct Hk|]. cbn [is_empty q_headers with_headers].
  rewrite strip_lookup. change (never_kept INTERNAL_DISPATCH_PROOF_HEADER) with true. cbn [orb].
  eexists. split; [reflexivity|]. intros n Hn. cbn [q_headers with_headers]. rewrite strip_lookup.
  by rewrite (bool_decide_true (n ∈ _) Hn), orb_true_r.
Qed.

End Boundary.

(** ** The response side *)

(** Internal response headers never leave.  Of the headers set on a response the wrapped
    writeHead keeps exactly those that are not internal, and so it does with the fields of its
    argument, in all three shapes; the one internal name it can send is the asset id that the file
    branch handed off with a 200, and then every content-length of the application gives way. *)
Theorem internal_headers_never_leave handoff statusCode set arg n :
  let '(set', arg') := guarded_writeHead handoff statusCode set arg in
  let handed := match handoff with Some a => if statusCode =? 200 then Some a else None | None => None end in
  set' !! n
  = match handed with
    | Some a => if bool_decide (n = "content-length") then Some (HStr "0")
                else if bool_decide (n = MIDDLE_CACHE_ASSET_HEADER) then Some (HStr a)
                else if isInternalResponseHeader n then None else set !! n
    | None => if isInternalResponseHeader n then None else set !! n
    end
  ∧ CachePolicy.arg_entries <$> arg'
    = filter (λ e, isInternalResponseHeader e.1 = false
                   ∧ (handed = None ∨ to_lower e.1 ≠ "content-length")) ∘ CachePolicy.arg_entries <$> arg.
Proof.
  assert (∀ m : gmap string hvalue,
    filter (λ kv : string * hvalue, isInternalResponseHeader kv.1 = false) m !! n
    = if isInternalResponseHeader n then None else m !! n) as Hset.
  { intros m. rewrite map_lookup_filter. destruct (m !! n); cbn; [|by destruct (isInternalResponseHeader n)].
    destruct (isInternalResponseHeader n) eqn:E; case_guard; done. }
  unfold guarded_writeHead. destruct handoff as [a|]; [destruct (statusCode =? 200)|].
  - split.
    + case_bool_decide as H1; [subst; apply lookup_insert_eq|]. rewrite lookup_insert_ne by done.
      case_bool_decide as H2; [subst; apply lookup_insert_eq|]. by rewrite lookup_insert_ne.
    + destruct arg as [arg|]; [|done]. cbn. f_equal. rewrite !CachePolicy.arg_entries_filter, list_filter_filter.
      apply list_filter_iff. intros e. rewrite <- String.eqb_neq. naive_solver.
  - split; [apply Hset|]. destruct arg as [arg|]; [|done]. cbn. f_equal. rewrite CachePolicy.arg_entries_filter.
    apply list_filter_iff. naive_solver.
  - split; [apply Hset|]. destruct arg as [arg|]; [|done]. cbn. f_equal. rewrite CachePolicy.arg_entries_filter.
    apply list_filter_iff. naive_solver.
Qed.

(** ** Witnesses *)

Definition sample_manifest : ProofManifest :=
  mkManifest (Some [mkMatcher "^/cart$" (Some [mkCondition HasCookie (Some "session") None]) None None])
    (Some (mkRsc (Some "RSC") None)).

Definition sample_options : RequestTrustOptions :=
  mkOptions (Some "key") false (Some (buildProofHeaderNames sample_manifest)).

(** A request as the first pool holds it after its own routing: some of its headers must not travel. *)
Definition sample_message : IncomingMessage :=
  mkMessage (Some "POST") (Some "/cart?item=1")
    (list_to_map [("host", HStr "shop.example"); ("cookie", HStr "session=1"); ("rsc", HStr "1");
                  ("connection", HStr "keep-alive, x-hop"); ("x-hop", HStr "dropped");
                  ("content-length", HStr "999"); ("x-resolved-headers", HStr "forged")])
    None false.

Definition sample_route : ResolvedRoute :=
  mkRoute ("/caf" +:+ String (ascii_of_nat 233) "") None (Some 404) (Some "/cart?x=1") None.

Definition sample_body : bytes := [1; 2; 3].

Definition sample_hop : headers :=
  forwardHeaders (λ _, checksum) checksum sample_message sample_route (Some sample_body) None
    (internalSecret sample_options) (proofHeaderNames sample_options) 1700000000000.

Definition sample_arrived : IncomingMessage :=
  mkMessage (Some "POST") (Some "/cart?item=1") (<["x-added" := HStr "by the wire"]> sample_hop) None false.

Definition no_reports : Reports := mkReports ∅ [] [].

Definition sample_boundary := applyIncomingRequestTrustBoundary (λ _, checksum) checksum no_env RespFacts.latin1
  sample_options sample_arrived 1700000000200 no_reports.

Definition sample_enforced := enforceDispatchBodyBinding checksum (sample_boundary.1.2) (Some sample_body)
  1700000000300 (sample_boundary.2).

#[local] Opaque applyIncomingRequestTrustBoundary enforceDispatchBodyBinding.

Lemma triple_eta {A B C} (p : A * B * C) : p = (p.1.1, p.1.2, p.2).
Proof. by destruct p as [[? ?] ?]. Qed.

Lemma surviving_headers_vouched_witness :
  q_headers sample_enforced.1.2 !! "x-output-id" = Some (HStr (matchedPathname sample_route))
  ∧ ∃ minted d w,
    let vouched := seen checksum (node_request sample_options (park None sample_arrived)) minted d in
    q_headers sample_arrived !! INTERNAL_DISPATCH_PROOF_HEADER
      = Some (HStr (computeDispatchProof (λ _, checksum) "key" vouched))
    ∧ timely no_env (node_request sample_options sample_arrived) minted 1700000000200 d
    ∧ (∀ b, d = Some b → checksum (default [] (Some sample_body)) = b)
    ∧ q_headers sample_arrived !! "x-output-id" = Some w
    ∧ header_octets vouched "x-output-id" = wireHeaderBytes "x-output-id" (Some w)
    ∧ decode_value RespFacts.latin1 w = Some (HStr (matchedPathname sample_route)).
Proof.
  split; [vm_compute; reflexivity|].
  apply (surviving_headers_vouched (λ _, checksum) checksum no_env RespFacts.latin1 sample_options "key"
           sample_arrived (Some sample_body) 1700000000200 1700000000300 no_reports
           sample_boundary.1.1 sample_boundary.1.2 sample_boundary.2
           sample_enforced.1.1 sample_enforced.1.2 sample_enforced.2).
  - reflexivity.
  - discriminate.
  - exact (triple_eta sample_boundary).
  - exact (triple_eta sample_enforced).
  - apply (bool_decide_unpack _). vm_compute. exact I.
  - vm_compute. reflexivity.
Defined.


(** What the first pool strips does not travel, what it asserts does, and a field the resolution
    leaves out is not evicted when the request already has it. *)
Example hop_headers :
  (λ n, sample_hop !! n) <$> ["x-hop"; "content-length"; "x-resolved-headers"; "x-mw-evaluated"]
  = [None; Some (HStr "3"); None; Some (HStr "ran")].
Proof. vm_compute. reflexivity. Qed.

Example unasserted_name_travels :
  authored_headers (mkMessage (Some "GET") None {["x-invoke-path" := HStr "/from-the-request"]} None false)
    (mkRoute "/cart" None None None None) None None !! "x-invoke-path" = Some (HStr "/from-the-request").
Proof. vm_compute. reflexivity. Qed.

End TrustBoundaryFacts.
