(* ===== verification/Drain.v ===== *)
(** * The shutdown of a pool server

    Models the connection tracking and the drain of src/src/pool-server/server.ts
    (createPoolServer).  The server is a state machine: requests, upgrades, handler writes, peer
    departures and relayed chunks are events that run between the awaits of stop(), whose
    synchronous stretches are one step each.  activeResponses and upgradedSockets are lists by
    connection number in insertion order; a response that settled is no longer in the list, so its
    settled flag is its absence.  Probes, telemetry, logging and the listening socket are left out. *)
From Stdlib Require Import Ascii String.
From S2P Require Import Prelude JsString CacheControl Regex DispatchProof FrameCursor.
Import DispatchProof FrameCursor.
Import CachePolicy(hvalue(..)).
Local Open Scope stdpp_scope.
Local Open Scope Z_scope.

Module Drain.

(** ** Tracked connections *)

(** /^\s*text\/event-stream(?:\s*;|\s*$)/i *)
Definition is_event_stream (text : string) : bool :=
  let t := to_lower (trim_start text) in
  let rest := trim_start (drop_string 17 t) in
  starts_with "text/event-stream" t && (is_empty rest || starts_with ";" rest).

Definition isEventStreamContentType (value : option hvalue) : bool :=
  match value with
  | None => is_event_stream ""
  | Some (HStr s) => is_event_stream s
  | Some (HArr l) => is_event_stream (CachePolicy.join_with "," l)
  end.

Inductive Terminal := EndSse | ForceClose.

#[export] Instance Terminal_eq_dec : EqDecision Terminal.
Proof. solve_decision. Defined.

(** ActiveResponseState, with what the drain reads of the ServerResponse. *)
Record Response := mkResponse {
  eventStream : bool;
  terminalAction : option Terminal;
  writableEnded : bool;
  r_destroyed : bool;
}.

Inductive Ownership := Handshake | Local | TunnelEnd.

#[export] Instance Ownership_eq_dec : EqDecision Ownership.
Proof. solve_decision. Defined.

(** An upgraded socket: its state, whether the promise of onUpgrade is settled, whether it is
    destroyed or its writable side ended, and the frames the server wrote to the client; a tunnel's
    are in the stream of its cursor. *)
Record Socket := mkSocket {
  ownership : Ownership;
  serverSignalled : bool;
  s_resolved : bool;
  s_destroyed : bool;
  s_ended : bool;
  s_written : list (list Z);
  s_tunnel : tunnel;
}.

Record DrainMetrics := mkMetrics {
  httpAtStart : Z;
  httpCompleted : Z;
  httpClientClosed : Z;
  sseEnded : Z;
  sseForced : Z;
  httpForceClosed : Z;
  webSocketsAtStart : Z;
  webSocketsPeerClosed : Z;
  webSocketsSignalled : Z;
  webSocketsTunnelled : Z;
  webSocketsForceClosed : Z;
}.

(** Where stop() is: not called, in its polling loop, in the flush window, or past it. *)
Inductive Phase := Serving | Polling | Flushing | Stopped.

#[export] Instance Phase_eq_dec : EqDecision Phase.
Proof. solve_decision. Defined.

Record Server := mkServer {
  activeResponses : list (nat * Response);
  upgradedSockets : list (nat * Socket);
  drainMetrics : option DrainMetrics;
  phase : Phase;
}.

Definition draining (s : Server) : bool := negb (bool_decide (phase s = Serving)).

Definition start : Server := mkServer [] [] None Serving.

(** The entry of a connection, and its update. *)
Fixpoint entry {A} (l : list (nat * A)) (id : nat) : option A :=
  match l with
  | [] => None
  | (k, x) :: l' => if (k =? id)%nat then Some x else entry l' id
  end.

Fixpoint update {A} (l : list (nat * A)) (id : nat) (f : A → A) : list (nat * A) :=
  match l with
  | [] => []
  | (k, x) :: l' => if (k =? id)%nat then (k, f x) :: l' else (k, x) :: update l' id f
  end.

Fixpoint remove_entry {A} (l : list (nat * A)) (id : nat) : list (nat * A) :=
  match l with
  | [] => []
  | (k, x) :: l' => if (k =? id)%nat then l' else (k, x) :: remove_entry l' id
  end.

(** ** Counters *)

Definition count_completed (m : DrainMetrics) : DrainMetrics :=
  mkMetrics (httpAtStart m) (httpCompleted m + 1) (httpClientClosed m) (sseEnded m) (sseForced m)
    (httpForceClosed m) (webSocketsAtStart m) (webSocketsPeerClosed m) (webSocketsSignalled m)
    (webSocketsTunnelled m) (webSocketsForceClosed m).

Definition count_client_closed (m : DrainMetrics) : DrainMetrics :=
  mkMetrics (httpAtStart m) (httpCompleted m) (httpClientClosed m + 1) (sseEnded m) (sseForced m)
    (httpForceClosed m) (webSocketsAtStart m) (webSocketsPeerClosed m) (webSocketsSignalled m)
    (webSocketsTunnelled m) (webSocketsForceClosed m).

Definition count_sse_ended (m : DrainMetrics) : DrainMetrics :=
  mkMetrics (httpAtStart m) (httpCompleted m) (httpClientClosed m) (sseEnded m + 1) (sseForced m)
    (httpForceClosed m) (webSocketsAtStart m) (webSocketsPeerClosed m) (webSocketsSignalled m)
    (webSocketsTunnelled m) (webSocketsForceClosed m).

Definition count_sse_forced (m : DrainMetrics) : DrainMetrics :=
  mkMetrics (httpAtStart m) (httpCompleted m) (httpClientClosed m) (sseEnded m) (sseForced m + 1)
    (httpForceClosed m) (webSocketsAtStart m) (webSocketsPeerClosed m) (webSocketsSignalled m)
    (webSocketsTunnelled m) (webSocketsForceClosed m).

Definition count_force_closed (m : DrainMetrics) : DrainMetrics :=
  mkMetrics (httpAtStart m) (httpCompleted m) (httpClientClosed m) (sseEnded m) (sseForced m)
    (httpForceClosed m + 1) (webSocketsAtStart m) (webSocketsPeerClosed m) (webSocketsSignalled m)
    (webSocketsTunnelled m) (webSocketsForceClosed m).

Definition count_peer_closed (m : DrainMetrics) : DrainMetrics :=
  mkMetrics (httpAtStart m) (httpCompleted m) (httpClientClosed m) (sseEnded m) (sseForced m)
    (httpForceClosed m) (webSocketsAtStart m) (webSocketsPeerClosed m + 1) (webSocketsSignalled m)
    (webSocketsTunnelled m) (webSocketsForceClosed m).

Definition count_signalled (m : DrainMetrics) : DrainMetrics :=
  mkMetrics (httpAtStart m) (httpCompleted m) (httpClientClosed m) (sseEnded m) (sseForced m)
    (httpForceClosed m) (webSocketsAtStart m) (webSocketsPeerClosed m) (webSocketsSignalled m + 1)
    (webSocketsTunnelled m) (webSocketsForceClosed m).

Definition count_tunnelled (m : DrainMetrics) : DrainMetrics :=
  mkMetrics (httpAtStart m) (httpCompleted m) (httpClientClosed m) (sseEnded m) (sseForced m)
    (httpForceClosed m) (webSocketsAtStart m) (webSocketsPeerClosed m) (webSocketsSignalled m)
    (webSocketsTunnelled m + 1) (webSocketsForceClosed m).

Definition count_ws_forced (m : DrainMetrics) : DrainMetrics :=
  mkMetrics (httpAtStart m) (httpCompleted m) (httpClientClosed m) (sseEnded m) (sseForced m)
    (httpForceClosed m) (webSocketsAtStart m) (webSocketsPeerClosed m) (webSocketsSignalled m)
    (webSocketsTunnelled m) (webSocketsForceClosed m + 1).

Definition with_responses (l : list (nat * Response)) (s : Server) : Server :=
  mkServer l (upgradedSockets s) (drainMetrics s) (phase s).

Definition with_sockets (l : list (nat * Socket)) (s : Server) : Server :=
  mkServer (activeResponses s) l (drainMetrics s) (phase s).

Definition with_metrics (f : DrainMetrics → DrainMetrics) (s : Server) : Server :=
  mkServer (activeResponses s) (upgradedSockets s) (f <$> drainMetrics s) (phase s).

(** ** Requests and responses *)

(** The request callback past the probes: refused with a 503 while draining, else tracked. *)
Definition on_request (id : nat) (s : Server) : Server :=
  if draining s then s
  else with_responses (activeResponses s ++ [(id, mkResponse false None false false)]) s.

Definition set_event_stream (value : bool) (r : Response) : Response :=
  mkResponse value (terminalAction r) (writableEnded r) (r_destroyed r).

(** setHeader and writeHead of a content type, and removeHeader. *)
Definition on_content_type (id : nat) (value : option hvalue) (s : Server) : Server :=
  with_responses (update (activeResponses s) id (set_event_stream (isEventStreamContentType value))) s.

Definition on_content_type_removed (id : nat) (s : Server) : Server :=
  with_responses (update (activeResponses s) id (set_event_stream false)) s.

(** The handler ends its response; the peer's departure destroys it. *)
Definition on_end (id : nat) (s : Server) : Server :=
  with_responses (update (activeResponses s) id
    (λ r, mkResponse (eventStream r) (terminalAction r) true (r_destroyed r))) s.

Definition on_response_destroyed (id : nat) (s : Server) : Server :=
  with_responses (update (activeResponses s) id
    (λ r, mkResponse (eventStream r) (terminalAction r) (writableEnded r) true)) s.

(** The finish and close events; [finished] is the disjunction the counter tests. *)
Definition settleResponse (id : nat) (finished : bool) (s : Server) : Server :=
  match entry (activeResponses s) id with
  | None => s
  | Some r =>
      let s := with_responses (remove_entry (activeResponses s) id) s in
      match terminalAction r with
      | Some EndSse => with_metrics count_sse_ended s
      | Some ForceClose => s
      | None => with_metrics (if finished then count_completed else count_client_closed) s
      end
  end.

(** ** Upgrades *)

Definition on_upgrade (id : nat) (t : tunnel) (s : Server) : Server :=
  if draining s then s
  else with_sockets (upgradedSockets s ++ [(id, mkSocket Handshake false false false false [] t)]) s.

Inductive Disposition := AcceptedLocal | AcceptedTunnel | RejectedUpgrade.

Definition own (o : Ownership) (k : Socket) : Socket :=
  mkSocket o (serverSignalled k) true (s_destroyed k) (s_ended k) (s_written k) (s_tunnel k).

Definition on_disposition (id : nat) (d : Disposition) (s : Server) : Server :=
  with_sockets (update (upgradedSockets s) id (λ k,
    match d with
    | AcceptedLocal => own Local k
    | AcceptedTunnel => own TunnelEnd k
    | RejectedUpgrade =>
        if s_destroyed k || s_ended k then own (ownership k) k
        else mkSocket (ownership k) true true (s_destroyed k) true (s_written k) (s_tunnel k)
    end)) s.

Definition on_socket_close (id : nat) (s : Server) : Server :=
  match entry (upgradedSockets s) id with
  | None => s
  | Some k =>
      let s := with_sockets (remove_entry (upgradedSockets s) id) s in
      if serverSignalled k then s else with_metrics count_peer_closed s
  end.

Definition on_socket_destroyed (id : nat) (s : Server) : Server :=
  with_sockets (update (upgradedSockets s) id
    (λ k, mkSocket (ownership k) (serverSignalled k) (s_resolved k) true (s_ended k) (s_written k) (s_tunnel k))) s.

(** The application or the peer's departure ends the writable side. *)
Definition on_socket_end (id : nat) (s : Server) : Server :=
  with_sockets (update (upgradedSockets s) id
    (λ k, mkSocket (ownership k) (serverSignalled k) (s_resolved k) (s_destroyed k) true (s_written k) (s_tunnel k))) s.

(** A chunk of the sibling pool reaches the client's end of a tunnel. *)
Definition on_relay (id : nat) (chunk : list Z) (s : Server) : Server :=
  with_sockets (update (upgradedSockets s) id
    (λ k, mkSocket (ownership k) (serverSignalled k) (s_resolved k) (s_destroyed k) (s_ended k) (s_written k)
            (pool_data (s_tunnel k) chunk))) s.

(** ** stop() *)

Definition goingAway : list Z := [136; 2; 3; 233].

Definition begin_stop (s : Server) : Server :=
  match phase s with
  | Serving =>
      mkServer (activeResponses s) (upgradedSockets s)
        (Some (mkMetrics (Z.of_nat (length (activeResponses s))) 0 0 0 0 0
                 (Z.of_nat (length (upgradedSockets s))) 0 0 0 0))
        Polling
  | _ => s
  end.

(** One survivor of the polling loop in the terminal loop over the responses. *)
Definition terminal_response (r : Response) : Response * (DrainMetrics → DrainMetrics) * bool :=
  if writableEnded r || r_destroyed r then (r, id, false)
  else if eventStream r then (mkResponse (eventStream r) (Some EndSse) true (r_destroyed r), id, true)
  else (mkResponse (eventStream r) (Some ForceClose) (writableEnded r) true, count_force_closed, false).

Definition terminal_socket (k : Socket) : Socket * (DrainMetrics → DrainMetrics) * bool :=
  if s_destroyed k then (k, id, false)
  else
    match ownership k with
    | Local => (mkSocket Local true (s_resolved k) false (s_ended k) (s_written k ++ [goingAway]) (s_tunnel k), count_signalled, true)
    | TunnelEnd =>
        let '(t, injected) := injectTunnelCloseFrame (s_tunnel k) goingAway in
        (mkSocket TunnelEnd true (s_resolved k) false (s_ended k) (s_written k) t,
         if injected then count_signalled else count_tunnelled, true)
    | Handshake => (mkSocket Handshake true (s_resolved k) false true (s_written k) (s_tunnel k), id, true)
    end.

(** The last loops: what outlives the flush window is destroyed. *)
Definition final_socket (k : Socket) : Socket * (DrainMetrics → DrainMetrics) * bool :=
  if s_destroyed k then (k, id, false)
  else (mkSocket (ownership k) true (s_resolved k) true (s_ended k) (s_written k) (s_tunnel k), count_ws_forced, false).

Definition final_response (r : Response) : Response * (DrainMetrics → DrainMetrics) * bool :=
  if r_destroyed r then (r, id, false)
  else
    (mkResponse (eventStream r) (Some ForceClose) (writableEnded r) true,
     match terminalAction r with
     | Some ForceClose => id
     | Some EndSse => count_sse_forced
     | None => count_force_closed
     end, false).

(** A loop over the entries, with the counters and the flush flag it leaves. *)
Fixpoint sweep {A} (f : A → A * (DrainMetrics → DrainMetrics) * bool) (l : list (nat * A)) (m : DrainMetrics)
    : list (nat * A) * DrainMetrics * bool :=
  match l with
  | [] => ([], m, false)
  | (k, x) :: l' =>
      let '(x', count, flush) := f x in
      let '(rest, m', flush') := sweep f l' (count m) in
      ((k, x') :: rest, m', flush || flush')
  end.

Definition final_phase (s : Server) : Server :=
  match drainMetrics s with
  | None => s
  | Some m =>
      let '(sockets, m, _) := sweep final_socket (upgradedSockets s) m in
      let '(responses, m, _) := sweep final_response (activeResponses s) m in
      mkServer responses sockets (Some m) Stopped
  end.

(** From the end of the polling loop to the next await: the flush window when bytes were queued,
    else the last loops at once. *)
Definition terminal_phase (s : Server) : Server :=
  match drainMetrics s with
  | None => s
  | Some m =>
      let '(responses, m, flush) := sweep terminal_response (activeResponses s) m in
      let '(sockets, m, flush') := sweep terminal_socket (upgradedSockets s) m in
      let s := mkServer responses sockets (Some m) Flushing in
      if flush || flush' then s else final_phase s
  end.

(** ** Interleavings *)

Inductive event : Server → Server → Prop :=
| ev_request s id : entry (activeResponses s) id = None → event s (on_request id s)
| ev_content_type s id v : event s (on_content_type id v s)
| ev_content_type_removed s id : event s (on_content_type_removed id s)
| ev_end s id : event s (on_end id s)
| ev_response_destroyed s id : event s (on_response_destroyed id s)
| ev_settle s id finished : event s (settleResponse id finished s)
| ev_upgrade s id head :
    entry (upgradedSockets s) id = None → Forall (λ b, 0 ≤ b < 256) head →
    event s (on_upgrade id (trackTunnelFraming head) s)
| ev_disposition s id d :
    (∀ k, entry (upgradedSockets s) id = Some k → s_resolved k = false) → event s (on_disposition id d s)
| ev_socket_close s id : event s (on_socket_close id s)
| ev_socket_destroyed s id : event s (on_socket_destroyed id s)
| ev_socket_end s id : event s (on_socket_end id s)
| ev_relay s id chunk : Forall (λ b, 0 ≤ b < 256) chunk → event s (on_relay id chunk s)
| ev_stop s : event s (begin_stop s)
| ev_terminal s : phase s = Polling → event s (terminal_phase s)
| ev_final s : phase s = Flushing → event s (final_phase s).

Inductive reachable : Server → Prop :=
| reach_start : reachable start
| reach_step s s' : reachable s → event s s' → reachable s'.

(** ** The polling loop *)

(** [clock] reads Date.now and [idle] is the early-exit test at each pass; the result is the pass
    at which the loop is left. *)
Fixpoint poll (fuel : nat) (clock : nat → Z) (idle : nat → bool) (deadline : Z) (pass : nat) : option nat :=
  match fuel with
  | O => None
  | S fuel' =>
      if clock pass <? deadline then
        if idle pass then Some pass else poll fuel' clock idle deadline (S pass)
      else Some pass
  end.

(** The delay before the next pass: delay() waits at least a millisecond. *)
Definition poll_delay (now deadline : Z) : Z := Z.max 1 (Z.min 25 (Z.max 1 (deadline - now))).

Definition grace (graceMs : option Z) : Z := Z.max 1 (default 60000 graceMs).

(** ** The accounts *)

Definition uncounted (r : Response) : bool := negb (bool_decide (terminalAction r = Some ForceClose)).

Fixpoint count {A} (p : A → bool) (l : list (nat * A)) : Z :=
  match l with [] => 0 | (_, x) :: l' => (if p x then 1 else 0) + count p l' end.

Definition http_counted (m : DrainMetrics) : Z :=
  httpCompleted m + httpClientClosed m + sseEnded m + sseForced m + httpForceClosed m.

Definition ws_counted (m : DrainMetrics) : Z :=
  webSocketsPeerClosed m + webSocketsSignalled m + webSocketsTunnelled m.

End Drain.
