(* ===== verification/DrainFacts.v ===== *)
(** * The shutdown of a pool server: facts

    The counters of a drain account for every connection it started with, whatever runs in between;
    when stop() is past its last loops nothing it tracked is open, and no client read a close frame
    inside another frame; the polling loop ends. *)
From Stdlib Require Import Ascii String.
From S2P Require Import Prelude JsString CacheControl Regex DispatchProof FrameCursor Drain.
Import DispatchProof FrameCursor Drain.
Import CachePolicy(hvalue(..)).
Local Open Scope stdpp_scope.
Local Open Scope Z_scope.

Module DrainFacts.

(** ** Entries *)

Section Entries.
Context {A : Type}.
Implicit Types (l : list (nat * A)) (p : A → bool).

Lemma count_nonneg p l : 0 ≤ count p l.
Proof. induction l as [|[k x] l IH]; cbn; [done|]. destruct (p x); lia. Qed.

Lemma count_app p l l' : count p (l ++ l') = count p l + count p l'.
Proof. induction l as [|[k x] l IH]; cbn; [done|]. rewrite IH. lia. Qed.

Lemma count_update p l id f : (∀ x, p (f x) = p x) → count p (update l id f) = count p l.
Proof.
  intros Hf. induction l as [|[k x] l IH]; cbn; [done|].
  destruct (k =? id)%nat; cbn; [by rewrite Hf|by rewrite IH].
Qed.

Lemma count_update_le p l id f : (∀ x, p (f x) = true → p x = true) → count p (update l id f) ≤ count p l.
Proof.
  intros Hf. induction l as [|[k x] l IH]; cbn; [done|]. specialize (Hf x).
  destruct (k =? id)%nat; cbn; destruct (p x); try destruct (p (f x)); naive_solver lia.
Qed.

Lemma count_remove p l id x : entry l id = Some x →
  count p (remove_entry l id) + (if p x then 1 else 0) = count p l.
Proof.
  induction l as [|[k y] l IH]; cbn; [done|]. destruct (k =? id)%nat; [intros [= ->]; lia|].
  intros H. cbn. rewrite <- (IH H). lia.
Qed.

Lemma count_length l : count (λ _ : A, true) l = Z.of_nat (length l).
Proof. induction l as [|[k x] l IH]; cbn [count length]; [done|]. rewrite IH. lia. Qed.

Lemma count_ext p q l : Forall (λ e, p e.2 = q e.2) l → count p l = count q l.
Proof. induction 1 as [|[k x] l Hx _ IH]; cbn in *; [done|]. by rewrite Hx, IH. Qed.

Lemma Forall_update (P : A → Prop) l id f :
  (∀ x, P x → P (f x)) → Forall (λ e, P e.2) l → Forall (λ e, P e.2) (update l id f).
Proof.
  intros Hf. induction 1 as [|[k x] l Hx Hl IH]; cbn; [constructor|].
  destruct (k =? id)%nat; constructor; cbn in *; auto.
Qed.

Lemma Forall_update_entry (P : A → Prop) l id f :
  (∀ x, entry l id = Some x → P x → P (f x)) → Forall (λ e, P e.2) l → Forall (λ e, P e.2) (update l id f).
Proof.
  intros Hf Hl. induction Hl as [|[k x] l Hx Hl IH]; cbn in *; [constructor|].
  destruct (k =? id)%nat; constructor; cbn in *; auto.
Qed.

Lemma Forall_remove (P : A → Prop) l id : Forall (λ e, P e.2) l → Forall (λ e, P e.2) (remove_entry l id).
Proof.
  induction 1 as [|[k x] l Hx Hl IH]; cbn; [constructor|].
  destruct (k =? id)%nat; [done|]. by constructor.
Qed.

Lemma entry_Forall (P : A → Prop) l id x : Forall (λ e, P e.2) l → entry l id = Some x → P x.
Proof.
  induction 1 as [|[k y] l Hy Hl IH]; cbn; [done|]. destruct (k =? id)%nat; [by intros [= <-]|done].
Qed.

(** What a loop over the entries does to the counters and to the entries. *)
Lemma sweep_le (f : A → A * (DrainMetrics → DrainMetrics) * bool) (g : DrainMetrics → Z) (c c' : A → Z)
    (P : A → Prop) l m l' m' flush :
  (∀ x k x' b m, P x → f x = (x', k, b) → g (k m) + c' x' ≤ g m + c x) →
  Forall (λ e, P e.2) l → sweep f l m = (l', m', flush) →
  g m' + foldr (λ e acc, c' e.2 + acc) 0 l' ≤ g m + foldr (λ e acc, c e.2 + acc) 0 l.
Proof.
  intros Hf Hl. revert m l' m' flush. induction Hl as [|[k x] l Hx Hl IH]; intros m l' m' flush H; cbn in *.
  - injection H as <- <- _. cbn. lia.
  - destruct (f x) as [[x' cnt] b] eqn:Hfx. destruct (sweep f l (cnt m)) as [[rest m1] b'] eqn:Hr.
    injection H as <- <- _. cbn. specialize (IH _ _ _ _ Hr). specialize (Hf x cnt x' b m Hx Hfx). lia.
Qed.

Lemma sweep_Forall (f : A → A * (DrainMetrics → DrainMetrics) * bool) (P Q : A → Prop) l m l' m' flush :
  (∀ x, P x → Q (f x).1.1) → Forall (λ e, P e.2) l → sweep f l m = (l', m', flush) → Forall (λ e, Q e.2) l'.
Proof.
  intros Hf Hl. revert m l' m' flush. induction Hl as [|[k x] l Hx Hl IH]; intros m l' m' flush H; cbn in *.
  - by injection H as <- _ _.
  - specialize (Hf x Hx). destruct (f x) as [[x' cnt] b].
    destruct (sweep f l (cnt m)) as [[rest m1] b'] eqn:Hr. injection H as <- _ _. constructor; [done|]. by eapply IH.
Qed.

Lemma count_foldr p l : count p l = foldr (λ e acc, (if p e.2 then 1 else 0) + acc) 0 l.
Proof. induction l as [|[k x] l IH]; cbn; [done|]. by rewrite IH. Qed.

End Entries.

(** ** The invariant *)

Definition unsignalled (k : Socket) : bool := negb (serverSignalled k).

(** The frames the server wrote on a socket: at most one, none before the terminal loop; until then
    only a refused handshake is signalled. *)
Definition socket_ok (early : bool) (k : Socket) : Prop :=
  (if early then s_written k = [] ∧ (serverSignalled k = true → ownership k = Handshake ∧ s_resolved k = true)
   else s_written k = [] ∨ s_written k = [goingAway])
  ∧ (s_resolved k = false → ownership k = Handshake)
  ∧ ∃ injected, tunnel_inv goingAway injected (s_tunnel k).

Definition early (s : Server) : bool := bool_decide (phase s = Serving ∨ phase s = Polling).

Record inv (s : Server) : Prop := {
  inv_phase : drainMetrics s = None ↔ phase s = Serving;
  inv_fresh : early s = true → Forall (λ e, terminalAction e.2 = None) (activeResponses s);
  inv_http : ∀ m, drainMetrics s = Some m → http_counted m + count uncounted (activeResponses s) = httpAtStart m;
  inv_ws : ∀ m, drainMetrics s = Some m → ws_counted m + count unsignalled (upgradedSockets s) ≤ webSocketsAtStart m;
  inv_sockets : Forall (λ e, socket_ok (early s) e.2) (upgradedSockets s);
  inv_stopped : phase s = Stopped →
    Forall (λ e, r_destroyed e.2 = true) (activeResponses s)
    ∧ Forall (λ e, s_destroyed e.2 = true) (upgradedSockets s);
}.

(** An event that changes the responses and the counters only. *)
Lemma inv_responses s l f :
  inv s → (early s = true → Forall (λ e, terminalAction e.2 = None) l) →
  (∀ m, drainMetrics s = Some m →
     http_counted (f m) + count uncounted l = http_counted m + count uncounted (activeResponses s)
     ∧ httpAtStart (f m) = httpAtStart m ∧ ws_counted (f m) = ws_counted m
     ∧ webSocketsAtStart (f m) = webSocketsAtStart m) →
  (phase s = Stopped → Forall (λ e, r_destroyed e.2 = true) (activeResponses s) → Forall (λ e, r_destroyed e.2 = true) l) →
  inv (with_metrics f (with_responses l s)).
Proof.
  intros [Hp Hf Hh Hw Hs Hd] Hl Hm Hst. constructor; cbn [drainMetrics phase activeResponses upgradedSockets with_metrics with_responses].
  - rewrite fmap_None. exact Hp.
  - exact Hl.
  - intros m (m0 & Hm0 & ->)%fmap_Some. destruct (Hm m0 Hm0) as (H1 & H2 & _ & _). rewrite H2, <- (Hh m0 Hm0). lia.
  - intros m (m0 & Hm0 & ->)%fmap_Some. destruct (Hm m0 Hm0) as (_ & _ & H3 & H4). rewrite H3, H4. by apply Hw.
  - exact Hs.
  - intros Hph. destruct (Hd Hph) as [H1 H2]. auto.
Qed.

Lemma inv_upgrades s l f :
  inv s → Forall (λ e, socket_ok (early s) e.2) l →
  (∀ m, drainMetrics s = Some m →
     ws_counted (f m) + count unsignalled l ≤ ws_counted m + count unsignalled (upgradedSockets s)
     ∧ http_counted (f m) = http_counted m ∧ httpAtStart (f m) = httpAtStart m
     ∧ webSocketsAtStart (f m) = webSocketsAtStart m) →
  (phase s = Stopped → Forall (λ e, s_destroyed e.2 = true) (upgradedSockets s) → Forall (λ e, s_destroyed e.2 = true) l) →
  inv (with_metrics f (with_sockets l s)).
Proof.
  intros [Hp Hf Hh Hw Hs Hd] Hl Hm Hst. constructor; cbn [drainMetrics phase activeResponses upgradedSockets with_metrics with_sockets].
  - rewrite fmap_None. exact Hp.
  - exact Hf.
  - intros m (m0 & Hm0 & ->)%fmap_Some. destruct (Hm m0 Hm0) as (_ & H2 & H3 & _). rewrite H2, H3. by apply Hh.
  - intros m (m0 & Hm0 & ->)%fmap_Some. destruct (Hm m0 Hm0) as (H1 & _ & _ & H4). specialize (Hw m0 Hm0). lia.
  - exact Hl.
  - intros Hph. destruct (Hd Hph) as [H1 H2]. auto.
Qed.

Lemma with_metrics_id s : with_metrics id s = s.
Proof. destruct s. unfold with_metrics. cbn. by rewrite option_fmap_id. Qed.

Lemma inv_update_response s id f :
  (∀ r, terminalAction (f r) = terminalAction r) → (∀ r, r_destroyed r = true → r_destroyed (f r) = true) →
  inv s → inv (with_responses (update (activeResponses s) id f) s).
Proof.
  intros Ht Hd Hinv. rewrite <- (with_metrics_id (with_responses _ _)). apply inv_responses; [done| | |].
  - intros He. apply (Forall_update (λ r, terminalAction r = None)); [|by apply inv_fresh].
    intros r. by rewrite Ht.
  - intros m _. rewrite count_update; [done|]. intros r. unfold uncounted. by rewrite Ht.
  - intros _. by apply (Forall_update (λ r, r_destroyed r = true)).
Qed.

Lemma inv_update_socket s id f :
  (∀ k, serverSignalled k = true → serverSignalled (f k) = true) →
  (∀ k, s_destroyed k = true → s_destroyed (f k) = true) →
  (∀ e k, entry (upgradedSockets s) id = Some k → socket_ok e k → socket_ok e (f k)) →
  inv s → inv (with_sockets (update (upgradedSockets s) id f) s).
Proof.
  intros Hs Hd Ho Hinv. rewrite <- (with_metrics_id (with_sockets _ _)). apply inv_upgrades; [done| | |].
  - apply (Forall_update_entry (socket_ok (early s))); [intros k; apply Ho|by apply inv_sockets].
  - intros m _. split; [|done]. apply Z.add_le_mono_l, count_update_le.
    intros k Hk. unfold unsignalled in *. specialize (Hs k). destruct (serverSignalled k); [|done].
    by rewrite Hs in Hk.
  - intros _. by apply (Forall_update (λ k, s_destroyed k = true)).
Qed.

Lemma inv_request s id : inv s → inv (on_request id s).
Proof.
  intros Hinv. unfold on_request. destruct (draining s) eqn:Hd; [done|].
  unfold draining in Hd. apply negb_false_iff, bool_decide_eq_true in Hd.
  pose proof (proj2 (inv_phase s Hinv) Hd) as Hm.
  rewrite <- (with_metrics_id (with_responses _ _)). apply inv_responses; [done| | |].
  - intros He. apply Forall_app. split; [by apply inv_fresh|by repeat constructor].
  - intros m Hm'. congruence.
  - intros Hst. congruence.
Qed.

Lemma uncounted_spec r :
  uncounted r = match terminalAction r with Some ForceClose => false | _ => true end.
Proof. unfold uncounted. by destruct (terminalAction r) as [[|]|]. Qed.

Lemma inv_settle s id finished : inv s → inv (settleResponse id finished s).
Proof.
  intros Hinv. unfold settleResponse. destruct (entry (activeResponses s) id) as [r|] eqn:Hr; [|done].
  pose proof (count_remove uncounted _ _ _ Hr) as Hc. unfold uncounted at 2 in Hc.
  assert (∀ f, (∀ m, http_counted (f m) = http_counted m + (if uncounted r then 1 else 0)
                     ∧ httpAtStart (f m) = httpAtStart m ∧ ws_counted (f m) = ws_counted m
                     ∧ webSocketsAtStart (f m) = webSocketsAtStart m) →
               inv (with_metrics f (with_responses (remove_entry (activeResponses s) id) s))) as H.
  { intros f Hf. apply inv_responses; [done| | |].
    - intros He. apply (Forall_remove (λ r, terminalAction r = None)). by apply inv_fresh.
    - intros m _. destruct (Hf m) as (H1 & H2 & H3 & H4). split_and!; [|done..]. rewrite H1. unfold uncounted at 1. lia.
    - intros _. by apply (Forall_remove (λ r, r_destroyed r = true)). }
  unfold http_counted, ws_counted in H.
  rewrite uncounted_spec in H. destruct (terminalAction r) as [[|]|].
  - apply H. intros m. cbn. lia.
  - rewrite <- (with_metrics_id (with_responses _ _)). apply H. intros m. cbn. lia.
  - apply H. intros m. destruct finished; cbn; lia.
Qed.

Lemma inv_upgrade s id head : Forall (λ b, 0 ≤ b < 256) head → inv s → inv (on_upgrade id (trackTunnelFraming head) s).
Proof.
  intros Hh Hinv. unfold on_upgrade. destruct (draining s) eqn:Hd; [done|].
  unfold draining in Hd. apply negb_false_iff, bool_decide_eq_true in Hd.
  pose proof (proj2 (inv_phase s Hinv) Hd) as Hm.
  rewrite <- (with_metrics_id (with_sockets _ _)). apply inv_upgrades; [done| | |].
  - apply Forall_app. split; [by apply inv_sockets|]. repeat constructor; cbn.
    + destruct (early s); auto.
    + exists false. by apply track_inv.
  - intros m Hm'. congruence.
  - intros Hst. congruence.
Qed.

Lemma inv_socket_close s id : inv s → inv (on_socket_close id s).
Proof.
  intros Hinv. unfold on_socket_close. destruct (entry (upgradedSockets s) id) as [k|] eqn:Hk; [|done].
  pose proof (count_remove unsignalled _ _ _ Hk) as Hc. unfold unsignalled at 2 in Hc.
  assert (∀ f, (∀ m, ws_counted (f m) = ws_counted m + (if serverSignalled k then 0 else 1)
                     ∧ http_counted (f m) = http_counted m ∧ httpAtStart (f m) = httpAtStart m
                     ∧ webSocketsAtStart (f m) = webSocketsAtStart m) →
               inv (with_metrics f (with_sockets (remove_entry (upgradedSockets s) id) s))) as H.
  { intros f Hf. apply inv_upgrades; [done| | |].
    - apply (Forall_remove (socket_ok (early s))). by apply inv_sockets.
    - intros m _. destruct (Hf m) as (H1 & H2 & H3 & H4). split_and!; [|done..]. rewrite H1.
      destruct (serverSignalled k); cbn in Hc; lia.
    - intros _. by apply (Forall_remove (λ k, s_destroyed k = true)). }
  unfold http_counted, ws_counted in H. destruct (serverSignalled k).
  - rewrite <- (with_metrics_id (with_sockets _ _)). apply H. intros m. cbn. lia.
  - apply H. intros m. cbn. lia.
Qed.

Lemma inv_begin_stop s : inv s → inv (begin_stop s).
Proof.
  intros Hinv. unfold begin_stop. destruct (phase s) eqn:Hp; [|done..].
  pose proof (inv_fresh s Hinv) as Hf. pose proof (inv_sockets s Hinv) as Hs.
  unfold early in Hf, Hs. rewrite Hp, bool_decide_true in Hf, Hs by auto.
  constructor; cbn [drainMetrics phase activeResponses upgradedSockets early].
  - done.
  - auto.
  - intros m [= <-]. unfold http_counted. cbn. rewrite <- count_length. apply count_ext.
    eapply Forall_impl; [by apply Hf|]. intros e He. unfold uncounted. by rewrite He.
  - intros m [= <-]. unfold ws_counted. cbn [webSocketsPeerClosed webSocketsSignalled webSocketsTunnelled webSocketsAtStart].
    rewrite <- count_length. clear. induction (upgradedSockets s) as [|[k x] l IH]; cbn in *; [done|].
    destruct (unsignalled x); lia.
  - exact Hs.
  - done.
Qed.

(** ** The loops of stop() *)

(** The balances of the counters against the connections at the start. *)
Definition http_gap (m : DrainMetrics) : Z := http_counted m - httpAtStart m.
Definition ws_gap (m : DrainMetrics) : Z := ws_counted m - webSocketsAtStart m.

(** A loop that keeps the balance of the responses exactly, and the sockets' from growing. *)
Definition keeps {A} (f : A → A * (DrainMetrics → DrainMetrics) * bool) (P : A → Prop) (http ws : A → bool) : Prop :=
  ∀ x k x' b m, P x → f x = (x', k, b) →
    http_gap (k m) + (if http x' then 1 else 0) = http_gap m + (if http x then 1 else 0)
    ∧ ws_gap (k m) + (if ws x' then 1 else 0) ≤ ws_gap m + (if ws x then 1 else 0).

Lemma sweep_keeps {A} (f : A → A * (DrainMetrics → DrainMetrics) * bool) P http ws l m l' m' flush :
  keeps f P http ws → Forall (λ e, P e.2) l → sweep f l m = (l', m', flush) →
  http_gap m' + count http l' = http_gap m + count http l
  ∧ ws_gap m' + count ws l' ≤ ws_gap m + count ws l.
Proof.
  intros Hk Hl Hs. rewrite !count_foldr. split.
  - apply Z.le_antisymm.
    + apply (sweep_le f http_gap (λ x, if http x then 1 else 0) (λ x, if http x then 1 else 0) P l m l' m' flush);
        [|done|done]. intros x k x' b n Hx Hf. destruct (Hk x k x' b n Hx Hf). lia.
    + pose proof (sweep_le f (λ m, - http_gap m) (λ x, - (if http x then 1 else 0))
                    (λ x, - (if http x then 1 else 0)) P l m l' m' flush) as H.
      assert (∀ l : list (nat * A), foldr (λ e acc, - (if http e.2 then 1 else 0) + acc) 0 l
              = - foldr (λ e acc, (if http e.2 then 1 else 0) + acc) 0 l) as Hneg.
      { clear. induction l as [|e l IH]; cbn; [done|]. rewrite IH. lia. }
      rewrite !Hneg in H. cbn beta in H. enough (- http_gap m' + - foldr (λ e acc, (if http e.2 then 1 else 0) + acc) 0 l'
        ≤ - http_gap m + - foldr (λ e acc, (if http e.2 then 1 else 0) + acc) 0 l) by lia.
      apply H; [|done|done]. intros x k x' b n Hx Hf. destruct (Hk x k x' b n Hx Hf). lia.
  - apply (sweep_le f ws_gap (λ x, if ws x then 1 else 0) (λ x, if ws x then 1 else 0) P l m l' m' flush); [|done|done].
    intros x k x' b n Hx Hf. destruct (Hk x k x' b n Hx Hf). lia.
Qed.

(** Decides one entry's balance by cases on everything the entry's step tests. *)
Ltac balance := rewrite ?uncounted_spec; unfold http_gap, ws_gap, http_counted, ws_counted; cbn; lia.

Definition no_one {A} (_ : A) : bool := false.

Lemma terminal_response_keeps : keeps terminal_response (λ r, terminalAction r = None) uncounted no_one.
Proof.
  intros [es ta we de] k x' b m Ht H. cbn in Ht. subst ta. unfold terminal_response in H. cbn in H.
  destruct (we || de); [injection H as <- <- _; balance|].
  destruct es; injection H as <- <- _; balance.
Qed.

Lemma terminal_socket_keeps : keeps terminal_socket (socket_ok true) no_one unsignalled.
Proof.
  intros [o g re d e w t] k x' b m [[_ Hg] _] H. unfold terminal_socket in H. cbn in H, Hg.
  destruct d; [injection H as <- <- _; balance|].
  assert (g = true → o = Handshake) as Ho by tauto.
  destruct o; [injection H as <- <- _|injection H as <- <- _|destruct (injectTunnelCloseFrame t goingAway) as [t' []]; injection H as <- <- _];
    unfold unsignalled; cbn; destruct g; try discriminate (Ho eq_refl); balance.
Qed.

Lemma final_socket_keeps : keeps final_socket (λ _, True) no_one unsignalled.
Proof.
  intros [o g re d e w t] k x' b m _ H. unfold final_socket in H. cbn in H.
  destruct d; injection H as <- <- _; unfold unsignalled; cbn; destruct g; balance.
Qed.

Lemma final_response_keeps : keeps final_response (λ _, True) uncounted no_one.
Proof.
  intros [es ta we de] k x' b m _ H. unfold final_response in H. cbn in H.
  destruct de; [injection H as <- <- _; balance|].
  destruct ta as [[|]|]; injection H as <- <- _; balance.
Qed.

Lemma count_no_one {A} (l : list (nat * A)) : count no_one l = 0.
Proof. induction l as [|[k x] l IH]; cbn; [done|]. by rewrite IH. Qed.

Lemma socket_ok_late e k : socket_ok e k → socket_ok false k.
Proof. intros [Hw Ht]. split; [|done]. destruct e; [left; by destruct Hw|done]. Qed.

Lemma terminal_socket_ok k : socket_ok true k → socket_ok false (terminal_socket k).1.1.
Proof.
  intros ([Hw _] & Hr & inj & Ht). unfold terminal_socket. destruct (s_destroyed k); [split_and!; eauto|].
  destruct (ownership k).
  - split_and!; cbn; eauto.
  - split_and!; cbn; [rewrite Hw; eauto|intros H; by apply Hr in H|eauto].
  - destruct (injectTunnelCloseFrame (s_tunnel k) goingAway) as [t ok] eqn:Hi.
    pose proof (tunnel_step_inv _ _ _ _ _ Ht (step_inject _ _ _ _ Hi)) as [Ht' _].
    destruct ok; split_and!; cbn; eauto; intros H; by apply Hr in H.
Qed.

(** Putting the results of two loops back into the invariant. *)
Lemma inv_after s responses sockets m m0 p :
  inv s → drainMetrics s = Some m0 → p ≠ Serving → p ≠ Polling →
  http_gap m + count uncounted responses = http_gap m0 + count uncounted (activeResponses s) →
  ws_gap m + count unsignalled sockets ≤ ws_gap m0 + count unsignalled (upgradedSockets s) →
  Forall (λ e, socket_ok false e.2) sockets →
  (p = Stopped → Forall (λ e, r_destroyed e.2 = true) responses ∧ Forall (λ e, s_destroyed e.2 = true) sockets) →
  inv (mkServer responses sockets (Some m) p).
Proof.
  intros Hinv Hm Hp Hp' Hh Hw Hs Hd.
  assert (early (mkServer responses sockets (Some m) p) = false) as He.
  { unfold early. apply bool_decide_eq_false. cbn. tauto. }
  constructor; rewrite ?He; cbn [drainMetrics phase activeResponses upgradedSockets].
  - done.
  - done.
  - intros n [= <-]. pose proof (inv_http s Hinv m0 Hm). unfold http_gap in Hh. lia.
  - intros n [= <-]. pose proof (inv_ws s Hinv m0 Hm). unfold ws_gap in Hw. lia.
  - done.
  - exact Hd.
Qed.

Lemma inv_final s : inv s → phase s = Flushing → inv (final_phase s).
Proof.
  intros Hinv Hp. unfold final_phase. destruct (drainMetrics s) as [m|] eqn:Hm; [|done].
  destruct (sweep final_socket _ m) as [[sockets m1] fl1] eqn:H1.
  destruct (sweep final_response _ m1) as [[responses m2] fl2] eqn:H2.
  pose proof (sweep_keeps _ _ _ _ _ _ _ _ _ final_socket_keeps ltac:(by apply Forall_true) H1) as [G1 G2].
  pose proof (sweep_keeps _ _ _ _ _ _ _ _ _ final_response_keeps ltac:(by apply Forall_true) H2) as [G3 G4].
  rewrite !count_no_one in *.
  assert (∀ k, socket_ok (early s) k → socket_ok false (final_socket k).1.1) as Hok.
  { intros k Hk. apply (socket_ok_late (early s)). unfold final_socket. destruct (s_destroyed k); [done|].
    destruct Hk as (Hw & Hr & Ht). split_and!; [|exact Hr|exact Ht].
    destruct (early s) eqn:He; [|exact Hw]. unfold early in He. apply bool_decide_eq_true in He.
    rewrite Hp in He. by destruct He. }
  apply (inv_after s _ _ _ m); [done|done|done|done|lia|lia| |].
  - apply (sweep_Forall _ _ (socket_ok false) _ _ _ _ _ Hok (inv_sockets s Hinv) H1).
  - intros _. split.
    + refine (sweep_Forall _ (λ _, True) (λ r, r_destroyed r = true) _ _ _ _ _ _ _ H2); [|by apply Forall_true].
      intros r _. unfold final_response. by destruct (r_destroyed r) eqn:?.
    + refine (sweep_Forall _ (λ _, True) (λ k, s_destroyed k = true) _ _ _ _ _ _ _ H1); [|by apply Forall_true].
      intros k _. unfold final_socket. by destruct (s_destroyed k) eqn:?.
Qed.

Lemma inv_terminal s : inv s → phase s = Polling → inv (terminal_phase s).
Proof.
  intros Hinv Hp. unfold terminal_phase. destruct (drainMetrics s) as [m|] eqn:Hm; [|done].
  destruct (sweep terminal_response _ m) as [[responses m1] fl1] eqn:H1.
  destruct (sweep terminal_socket _ m1) as [[sockets m2] fl2] eqn:H2.
  assert (early s = true) as He by (unfold early; rewrite Hp; by apply bool_decide_eq_true; auto).
  pose proof (inv_sockets s Hinv) as Hs. rewrite He in Hs.
  pose proof (sweep_keeps _ _ _ _ _ _ _ _ _ terminal_response_keeps (inv_fresh s Hinv He) H1) as [G1 G2].
  pose proof (sweep_keeps _ _ _ _ _ _ _ _ _ terminal_socket_keeps Hs H2) as [G3 G4].
  rewrite !count_no_one in *.
  assert (inv (mkServer responses sockets (Some m2) Flushing)) as Hi.
  { apply (inv_after s _ _ _ m); [done|done|done|done|lia|lia| |done].
    apply (sweep_Forall _ _ _ _ _ _ _ _ terminal_socket_ok Hs H2). }
  destruct (fl1 || fl2); [done|]. by apply inv_final.
Qed.

Lemma event_inv s s' : inv s → event s s' → inv s'.
Proof.
  intros Hinv Hev. destruct Hev as [s id _|s id v|s id|s id|s id|s id fin|s id head _ Hh|s id d Hd|s id|s id|s id|s id chunk Hc|s|s Hp|s Hp].
  - by apply inv_request.
  - by apply inv_update_response.
  - by apply inv_update_response.
  - by apply inv_update_response.
  - by apply inv_update_response.
  - by apply inv_settle.
  - by apply inv_upgrade.
  - apply inv_update_socket; [|by destruct d as [| |]; intros k Hk; try destruct (s_destroyed k || s_ended k)| |done].
    + intros k Hk. destruct d; [done..|]. by destruct (s_destroyed k || s_ended k).
    + intros e k Hk (Hw & Hr & Ht). specialize (Hd k Hk). specialize (Hr Hd).
      assert (e = true → serverSignalled k = false) as Hs.
      { intros ->. destruct Hw as [_ Hw]. destruct (serverSignalled k); [|done].
        destruct Hw as [_ Hw]; [done|]. congruence. }
      destruct d; [| |destruct (s_destroyed k || s_ended k)]; split_and!; cbn; try done;
        destruct e; try exact Hw; destruct Hw as [Hw _]; split; auto; intros H; rewrite Hs in H; done.
  - by apply inv_socket_close.
  - by apply inv_update_socket.
  - by apply inv_update_socket.
  - apply inv_update_socket; [done|done| |done]. intros e k _ (Hw & Hr & inj & Ht). split_and!; [done|done|].
    exists (inj || false). by apply (tunnel_step_inv _ _ _ _ _ Ht), step_data.
  - by apply inv_begin_stop.
  - by apply inv_terminal.
  - by apply inv_final.
Qed.

Lemma server_inv s : reachable s → inv s.
Proof.
  induction 1 as [|s s' _ IH Hev]; [|by eapply event_inv].
  constructor; cbn; try done; try (intros; constructor).
Qed.

(** ** Theorems *)

(** C10. The drain accounts for every response it started with.  In any interleaving of requests,
    handlers, departures and the steps of stop(), the five categories count disjoint sets of
    responses: together with the responses not yet decided they are exactly the number active when
    the drain began; and no more sockets are counted as left, signalled or tunnelled than there were. *)
Theorem drain_accounts s m :
  reachable s → drainMetrics s = Some m →
  http_counted m + count uncounted (activeResponses s) = httpAtStart m
  ∧ ws_counted m + count unsignalled (upgradedSockets s) ≤ webSocketsAtStart m.
Proof. intros H%server_inv Hm. split; [by apply inv_http|by apply inv_ws]. Qed.

(** When stop() is past its last loops nothing it tracked is open, and a client was told at most
    once that the server goes away: on a socket of the pod by one close frame, on a tunnel by a close
    frame that follows complete frames and ends the stream, or by nothing while its relay is attached. *)
Theorem drain_closes_everything s :
  reachable s → phase s = Stopped →
  (∀ id r, (id, r) ∈ activeResponses s → r_destroyed r = true)
  ∧ ∀ id k, (id, k) ∈ upgradedSockets s →
      s_destroyed k = true ∧ (s_written k = [] ∨ s_written k = [goingAway])
      ∧ (piped (s_tunnel k) = true ∨ ∃ pre, between_frames pre ∧ client_stream (s_tunnel k) = pre ++ goingAway).
Proof.
  intros H%server_inv Hp. destruct (inv_stopped s H Hp) as [Hr Hs].
  rewrite Forall_forall in Hr. rewrite Forall_forall in Hs.
  pose proof (inv_sockets s H) as Hok. unfold early in Hok.
  rewrite Hp, bool_decide_false in Hok by naive_solver. rewrite Forall_forall in Hok.
  split; [intros id r Hin; apply (Hr _ Hin)|]. intros id k Hin.
  destruct (Hok _ Hin) as (Hw & _ & inj & Ht). split_and!; [apply (Hs _ Hin)|exact Hw|].
  destruct inj; [right; apply Ht|left; apply Ht].
Qed.

Lemma poll_bound clock idle deadline n pass :
  (∀ k, clock k + poll_delay (clock k) deadline ≤ clock (S k)) → deadline - clock pass ≤ Z.of_nat n →
  ∃ k, poll (S n) clock idle deadline pass = Some k ∧ (pass ≤ k ≤ pass + n)%nat.
Proof.
  intros Hc. revert pass. induction n as [|n IH]; intros pass Hn; cbn [poll].
  - rewrite (proj2 (Z.ltb_ge _ _)) by lia. exists pass. split; [done|lia].
  - destruct (clock pass <? deadline) eqn:E; [|exists pass; split; [done|lia]].
    destruct (idle pass); [exists pass; split; [done|lia]|].
    destruct (IH (S pass)) as (k & Hk & Hle).
    { specialize (Hc pass). unfold poll_delay in Hc. lia. }
    exists k. split; [exact Hk|lia].
Qed.

(** stop() settles: the polling loop is left after at most one pass per millisecond of grace,
    whatever the clients do; from there the terminal loops reach the end at once or through the
    flush window, whose end is the end of the drain. *)
Theorem stop_settles clock idle graceMs s :
  (∀ k, clock k + poll_delay (clock k) (clock 0%nat + grace graceMs) ≤ clock (S k)) → reachable s →
  (∃ n, poll (S (Z.to_nat (grace graceMs))) clock idle (clock 0%nat + grace graceMs) 0 = Some n
        ∧ Z.of_nat n ≤ grace graceMs)
  ∧ (phase s = Polling → phase (terminal_phase s) = Flushing ∨ phase (terminal_phase s) = Stopped)
  ∧ (phase s = Flushing → phase (final_phase s) = Stopped).
Proof.
  intros Hc H%server_inv. assert (1 ≤ grace graceMs) as Hg by (unfold grace; lia). split_and!.
  - destruct (poll_bound clock idle (clock 0%nat + grace graceMs) (Z.to_nat (grace graceMs)) 0 Hc) as (n & Hn & Hle); [lia|].
    exists n. split; [exact Hn|lia].
  - intros Hp. unfold terminal_phase. destruct (drainMetrics s) as [m|] eqn:Hm.
    2:{ apply (inv_phase s H) in Hm. congruence. }
    destruct (sweep terminal_response _ m) as [[a b] c]. destruct (sweep terminal_socket _ b) as [[d e] f].
    destruct (c || f); [by left|right]. unfold final_phase. cbn [drainMetrics upgradedSockets activeResponses].
    destruct (sweep final_socket d e) as [[? e'] ?]. by destruct (sweep final_response a e') as [[? ?] ?].
  - intros Hp. unfold final_phase. destruct (drainMetrics s) as [m|] eqn:Hm.
    2:{ apply (inv_phase s H) in Hm. congruence. }
    destruct (sweep final_socket _ m) as [[? e'] ?]. by destruct (sweep final_response _ e') as [[? ?] ?].
Qed.

(** ** Witnesses *)

(** An event stream, a slow page, a page that ends in time, a socket of the pod, a tunnel in the
    middle of a frame and a handshake that never settles. *)
Definition sample_events : list (Server → Server) :=
  [on_request 1; on_request 2; on_request 3; on_content_type 1 (Some (HStr "text/event-stream; charset=utf-8"));
   on_upgrade 1 (trackTunnelFraming []); on_upgrade 2 (trackTunnelFraming []); on_upgrade 3 (trackTunnelFraming []);
   on_disposition 1 AcceptedLocal; on_disposition 2 AcceptedTunnel; on_relay 2 [129; 5; 104];
   begin_stop; on_end 3; settleResponse 3 true; terminal_phase; settleResponse 1 true; final_phase].

Definition sample_drained : Server := foldl (λ s f, f s) start sample_events.

Lemma sample_reachable : reachable sample_drained.
Proof.
  unfold sample_drained, sample_events. cbn [foldl].
  eapply reach_step; [|apply ev_final; vm_compute; reflexivity].
  eapply reach_step; [|apply ev_settle].
  eapply reach_step; [|apply ev_terminal; vm_compute; reflexivity].
  eapply reach_step; [|apply ev_settle].
  eapply reach_step; [|apply ev_end].
  eapply reach_step; [|apply ev_stop].
  eapply reach_step; [|apply ev_relay; repeat constructor; lia].
  eapply reach_step; [|apply ev_disposition; intros k Hk; vm_compute in Hk; by injection Hk as <-].
  eapply reach_step; [|apply ev_disposition; intros k Hk; vm_compute in Hk; by injection Hk as <-].
  do 3 (eapply reach_step; [|apply ev_upgrade; [vm_compute; reflexivity|constructor]]).
  eapply reach_step; [|apply ev_content_type].
  do 3 (eapply reach_step; [|apply ev_request; vm_compute; reflexivity]).
  exact reach_start.
Qed.

(** The counters of the sample, in the order they are declared. *)
Example sample_counters :
  drainMetrics sample_drained = Some (mkMetrics 3 1 0 1 0 1 3 0 1 1 3).
Proof. vm_compute. reflexivity. Qed.

Lemma drain_accounts_witness :
  http_counted (mkMetrics 3 1 0 1 0 1 3 0 1 1 3) + count uncounted (activeResponses sample_drained) = 3
  ∧ ws_counted (mkMetrics 3 1 0 1 0 1 3 0 1 1 3) + count unsignalled (upgradedSockets sample_drained) ≤ 3.
Proof. apply (drain_accounts sample_drained (mkMetrics 3 1 0 1 0 1 3 0 1 1 3) sample_reachable). vm_compute. reflexivity. Defined.

Lemma drain_closes_everything_witness :
  (∀ id r, (id, r) ∈ activeResponses sample_drained → r_destroyed r = true)
  ∧ ∀ id k, (id, k) ∈ upgradedSockets sample_drained →
      s_destroyed k = true ∧ (s_written k = [] ∨ s_written k = [goingAway])
      ∧ (piped (s_tunnel k) = true ∨ ∃ pre, between_frames pre ∧ client_stream (s_tunnel k) = pre ++ goingAway).
Proof. apply (drain_closes_everything sample_drained sample_reachable). vm_compute. reflexivity. Defined.

Lemma stop_settles_witness :
  (∃ n, poll 31 (λ k, 25 * Z.of_nat k) (λ _, false) (0 + grace (Some 30)) 0 = Some n ∧ Z.of_nat n ≤ grace (Some 30))
  ∧ (phase sample_drained = Polling → phase (terminal_phase sample_drained) = Flushing
                                      ∨ phase (terminal_phase sample_drained) = Stopped)
  ∧ (phase sample_drained = Flushing → phase (final_phase sample_drained) = Stopped).
Proof.
  apply (stop_settles (λ k, 25 * Z.of_nat k) (λ _, false) (Some 30) sample_drained).
  - intros k. unfold poll_delay. lia.
  - exact sample_reachable.
Defined.

End DrainFacts.
