(* ===== verification/Matchers.v ===== *)
(** * Middleware matchers and path lookups

    Models src/src/routing-common.ts from conditionPresent to lookupPool: the has and missing
    conditions of a middleware matcher, the guard that refuses to run patterns which can backtrack,
    the two caches of compiled expressions, the decision to run middleware and the decision that a
    path may be covered; then the segment-wise helpers on paths and the choice of a pool.

    RegExp, decodeURIComponent and the analyzer of the redos-detector package are parameters: the
    patterns are the application's.  A matcher object is a number, its fields are read off a heap
    that is never written; console warnings are logged in the state. *)
From Stdlib Require Import Ascii String.
From stdpp Require Import gmap strings sorting.
From S2P Require Import Prelude JsString Json CacheControl Regex DispatchProof.
Import DispatchProof.
Local Open Scope stdpp_scope.
Local Open Scope js_scope.

Module Matchers.

(** ** The shape of a pattern *)

Inductive Hazard := NestedQuantifier | Alternation.

#[export] Instance Hazard_eq_dec : EqDecision Hazard.
Proof. solve_decision. Defined.

Record Group := mkGroup { openIndex : nat; containsAlternation : bool; containsQuantifier : bool }.

Definition is_quantifier (c : ascii) : bool :=
  Ascii.eqb c "+" || Ascii.eqb c "*" || Ascii.eqb c "?" || Ascii.eqb c "{".

Definition is_repetition (c : ascii) : bool := Ascii.eqb c "+" || Ascii.eqb c "*" || Ascii.eqb c "{".

(** value[i + 1], at the head of the rest. *)
Definition next_is (p : ascii → bool) (s : string) : bool :=
  match s with String c _ => p c | EmptyString => false end.

(** Closing a group: what its parent, if any, inherits. *)
Definition inherit (group : Group) (quantified : bool) (groups : list Group) : list Group :=
  match groups with
  | [] => []
  | parent :: groups =>
      mkGroup (openIndex parent) (containsAlternation parent || containsAlternation group)
        (containsQuantifier parent || (containsQuantifier group || quantified)) :: groups
  end.

(** The loop of quantifiedGroupHazard at index [i]; the innermost group comes first. *)
Fixpoint hazard_scan (s : string) (i : nat) (inCharacterClass : bool) (groups : list Group) : option Hazard :=
  match s with
  | EmptyString => None
  | String ch s' =>
      if Ascii.eqb ch backslash
      then match s' with EmptyString => None | String _ s'' => hazard_scan s'' (S (S i)) inCharacterClass groups end
      else if inCharacterClass then hazard_scan s' (S i) (negb (Ascii.eqb ch "]")) groups
      else if Ascii.eqb ch "[" then hazard_scan s' (S i) true groups
      else if Ascii.eqb ch "(" then hazard_scan s' (S i) false (mkGroup i false false :: groups)
      else
        match groups with
        | [] => hazard_scan s' (S i) false []
        | group :: outer =>
            if Ascii.eqb ch "|"
            then hazard_scan s' (S i) false (mkGroup (openIndex group) true (containsQuantifier group) :: outer)
            else if is_quantifier ch && negb (Ascii.eqb ch "?" && (S (openIndex group) =? i)%nat)
            then hazard_scan s' (S i) false (mkGroup (openIndex group) (containsAlternation group) true :: outer)
            else if negb (Ascii.eqb ch ")") then hazard_scan s' (S i) false groups
            else if next_is is_repetition s' && containsQuantifier group then Some NestedQuantifier
            else if next_is is_repetition s' && containsAlternation group then Some Alternation
            else hazard_scan s' (S i) false (inherit group (next_is is_quantifier s') outer)
        end
  end.

Definition quantifiedGroupHazard (value : string) : option Hazard := hazard_scan value 0 false [].

(** /\\k</.test(value) *)
Fixpoint has_named_backreference (s : string) : bool :=
  starts_with (String backslash "k<") s
  || match s with EmptyString => false | String _ s' => has_named_backreference s' end.

Definition group_name_start (c : ascii) : bool := in_class false [("$", "$"); ("A", "Z"); ("_", "_"); ("a", "z")]%char c.
Definition group_name_part (c : ascii) : bool :=
  in_class false [("$", "$"); ("0", "9"); ("A", "Z"); ("_", "_"); ("a", "z")]%char c.

(** The rest after a run of name characters and a closing angle bracket. *)
Fixpoint after_name (s : string) : option string :=
  match s with
  | EmptyString => None
  | String c s' => if Ascii.eqb c ">" then Some s' else if group_name_part c then after_name s' else None
  end.

(** The rest after a match of /\(\?<[$A-Z_a-z][$\w]*>/ at the head. *)
Definition named_group (s : string) : option string :=
  if starts_with "(?<" s
  then match drop_string 3 s with
       | String c s' => if group_name_start c then after_name s' else None
       | EmptyString => None
       end
  else None.

(** .replace(.., the opening parenthesis), one match after the other; [fuel] bounds the length. *)
Fixpoint drop_group_names (fuel : nat) (s : string) : string :=
  match fuel, s with
  | S fuel, String c s' =>
      match named_group s with
      | Some rest => String "(" (drop_group_names fuel rest)
      | None => String c (drop_group_names fuel s')
      end
  | _, _ => s
  end.

Definition analyzableValue (value : string) : string := drop_group_names (String.length value) value.

Inductive Unsafe := TooLong | UnsafeShape (h : Hazard) | NamedBackreference | Ambiguous | Unparsed.

Definition anchored (value : string) : string := "^" +:+ value +:+ "$".

(** ** Requests *)

(** What the matchers read of a URL; the parameters are in their order. *)
Record URL := mkUrl { pathname : string; hostname : string; searchParams : list (string * string) }.

(** Headers, by lower-case name. *)
Abbreviation Headers := (gmap string string).

(** headers.get throws on a name that is no token. *)
Definition headers_get (h : Headers) (name : string) : outcome string (option string) :=
  if CacheControl.CACHE_CONTROL_TOKEN_RE name then Returns (h !! to_lower name) else Throws "TypeError".

Definition ends_with_quote (s : string) : bool :=
  match cut_last dquote s with Some (_, EmptyString) => true | _ => false end.

Definition starts_with_quote (s : string) : bool := next_is (λ c, Ascii.eqb c dquote) s.

(** slice(1, -1) *)
Definition inner (s : string) : string := take_string (String.length s - 2) (drop_string 1 s).

Definition given (s : option string) : option string := s ≫= λ s, if is_empty s then None else Some s.

Section Matching.
(** new RegExp, None where it throws, and test; isSafePattern, None where it throws. *)
Context {regexp : Type} (new_RegExp : string → option regexp) (test : regexp → string → bool).
Variable isSafePattern : string → option bool.
Variable decodeURIComponent : string → option string.
(** The matcher objects. *)
Variable heap : nat → MiddlewareMatcher.

Definition unsafeConditionPattern (value : string) : option Unsafe :=
  if (4096 <? String.length value)%nat then Some TooLong
  else match quantifiedGroupHazard value with
       | Some hazard => Some (UnsafeShape hazard)
       | None =>
           if has_named_backreference value then Some NamedBackreference
           else match isSafePattern (anchored (analyzableValue value)) with
                | Some true => None
                | Some false => Some Ambiguous
                | None => Some Unparsed
                end
       end.

(** ** The caches *)

(** The two caches, the patterns of warned matchers and the warnings of refused conditions. *)
Record Caches := mkCaches {
  conditionRegexCache : gmap string (option regexp);
  matcherRegexCache : gmap nat (option regexp);
  warnedUncompilableMatchers : list string;
  refusedConditions : list string;
}.

Definition M (A : Type) : Type := Caches → outcome string A * Caches.

Definition ret {A} (a : A) : M A := λ s, (Returns a, s).
Definition lift {A} (m : outcome string A) : M A := λ s, (m, s).
Definition bind {A B} (m : M A) (f : A → M B) : M B :=
  λ s, match m s with (Returns a, s) => f a s | (Throws e, s) => (Throws e, s) end.
Local Notation "x ← m ; k" := (bind m (λ x, k)) (at level 20, m at level 100, k at level 200).

Definition conditionRegex (value : string) : M (option regexp) := λ s,
  match conditionRegexCache s !! value with
  | Some cached => (Returns cached, s)
  | None =>
      let '(compiled, warnings) :=
        match unsafeConditionPattern value with
        | Some _ => (None, refusedConditions s ++ [value])
        | None => (new_RegExp (anchored value), refusedConditions s)
        end in
      (Returns compiled,
       mkCaches (<[value := compiled]> (conditionRegexCache s)) (matcherRegexCache s)
         (warnedUncompilableMatchers s) warnings)
  end.

Definition compileMatcherRegex (m : nat) : M (option regexp) := λ s,
  match matcherRegexCache s !! m with
  | Some re => (Returns re, s)
  | None =>
      let pattern := m_regexp (heap m) in
      let re := new_RegExp pattern in
      let warned := warnedUncompilableMatchers s in
      (Returns re,
       mkCaches (conditionRegexCache s) (<[m := re]> (matcherRegexCache s))
         (if re then warned else if bool_decide (pattern ∈ warned) then warned else warned ++ [pattern])
         (refusedConditions s))
  end.

(** ** Conditions *)

(** The value of the first cookie pair whose name is the key. *)
Fixpoint cookie_value (key : string) (parts : list string) : option string :=
  match parts with
  | [] => None
  | part :: parts =>
      match split_on "=" (trim part) with
      | k :: v =>
          if String.eqb k key
          then let value := trim (join "=" v) in
               let value := if starts_with_quote value && ends_with_quote value then inner value else value in
               Some (default value (decodeURIComponent value))
          else cookie_value key parts
      | [] => cookie_value key parts
      end
  end.

Definition actual_value (cond : RouteHasCondition) (headers : Headers) (url : URL) : outcome string (option string) :=
  match c_type cond with
  | HasHeader => match given (c_key cond) with Some key => headers_get headers key | None => Returns None end
  | HasQuery =>
      Returns (match given (c_key cond) with
               | Some key => last (filter (λ p, p.1 = key) (searchParams url)).*2
               | None => None
               end)
  | HasCookie =>
      let! cookie := headers_get headers "cookie" in
      Returns (match given cookie, given (c_key cond) with
               | Some cookie, Some key => cookie_value key (split_on ";" cookie)
               | _, _ => None
               end)
  | HasHost => Returns (Some (hostname url))
  end.

Definition conditionPresent (cond : RouteHasCondition) (headers : Headers) (url : URL) : M bool :=
  actual ← lift (actual_value cond headers url);
  match given actual, given (c_value cond) with
  | None, _ => ret false
  | Some _, None => ret true
  | Some actual, Some value =>
      re ← conditionRegex value;
      ret (match re with None => String.eqb value actual | Some re => test re actual end)
  end.

(** Array.prototype.every *)
Fixpoint every {A} (f : A → M bool) (l : list A) : M bool :=
  match l with
  | [] => ret true
  | x :: l => ok ← f x; if ok then every f l else ret false
  end.

(** ** The two decisions *)

(** The raw pathname, and its decoded form where that differs. *)
Definition match_paths (url : URL) : list string :=
  pathname url ::
    match decodeURIComponent (pathname url) with
    | Some decoded => if String.eqb decoded (pathname url) then [] else [decoded]
    | None => []
    end.

(** re && !paths.some((p) => re.test(p)) *)
Definition path_fails (re : option regexp) (paths : list string) : bool :=
  match re with Some re => negb (existsb (test re) paths) | None => false end.

Fixpoint matches_loop (paths : list string) (url : URL) (headers : Headers) (matchers : list nat) : M bool :=
  match matchers with
  | [] => ret false
  | m :: matchers =>
      re ← compileMatcherRegex m;
      if path_fails re paths then matches_loop paths url headers matchers
      else
        hasOk ← every (λ c, conditionPresent c headers url) (default [] (m_has (heap m)));
        missingOk ← every (λ c, present ← conditionPresent c headers url; ret (negb present))
                          (default [] (m_missing (heap m)));
        if hasOk && missingOk then ret true else matches_loop paths url headers matchers
  end.

Definition matchesMiddleware (matchers : option (list nat)) (url : URL) (headers : Headers) : M bool :=
  match matchers with
  | None | Some [] => ret true
  | Some ms => matches_loop (match_paths url) url headers ms
  end.

Fixpoint covers_loop (paths : list string) (matchers : list nat) : M bool :=
  match matchers with
  | [] => ret false
  | m :: matchers =>
      re ← compileMatcherRegex m;
      if path_fails re paths then covers_loop paths matchers else ret true
  end.

Definition middlewareMayCoverPath (matchers : option (list nat)) (url : URL) : M bool :=
  match matchers with
  | None | Some [] => ret true
  | Some ms => covers_loop (match_paths url) ms
  end.

End Matching.

End Matchers.
