(* ===== verification/MatchersFacts.v ===== *)
(** * Middleware matchers: facts

    The caches never change a decision; a path that middleware can cover is never judged uncovered;
    the decision depends on the request only through what the dispatch proof binds; and the guard on
    patterns is exact on every pattern of the expression grammar. *)
From Stdlib Require Import Ascii String.
From stdpp Require Import gmap strings sorting.
From S2P Require Import Prelude JsString Json CacheControl Regex Resp PlanFingerprint DispatchProof DispatchProofFacts Matchers.
Import Resp PlanFingerprint DispatchProof DispatchProofFacts Matchers.
Local Open Scope stdpp_scope.
Local Open Scope js_scope.

Module MatchersFacts.

Section Decisions.
Context {regexp : Type} (new_RegExp : string → option regexp) (test : regexp → string → bool).
Variable isSafePattern : string → option bool.
Variable decodeURIComponent : string → option string.

(** ** The specification: decisions without caches *)

Definition condition_regexp (value : string) : option regexp :=
  match unsafeConditionPattern isSafePattern value with Some _ => None | None => new_RegExp (anchored value) end.

Definition condition_holds (cond : RouteHasCondition) (h : Headers) (url : URL) : outcome string bool :=
  let! actual := actual_value decodeURIComponent cond h url in
  Returns (match given actual, given (c_value cond) with
           | None, _ => false
           | Some _, None => true
           | Some actual, Some value =>
               match condition_regexp value with None => String.eqb value actual | Some re => test re actual end
           end).

Fixpoint all_hold (want : bool) (h : Headers) (url : URL) (l : list RouteHasCondition) : outcome string bool :=
  match l with
  | [] => Returns true
  | c :: l => let! b := condition_holds c h url in if Bool.eqb b want then all_hold want h url l else Returns false
  end.

Definition source_matches (url : URL) (m : MiddlewareMatcher) : bool :=
  negb (path_fails test (new_RegExp (m_regexp m)) (match_paths decodeURIComponent url)).

Fixpoint some_matches (h : Headers) (url : URL) (ms : list MiddlewareMatcher) : outcome string bool :=
  match ms with
  | [] => Returns false
  | m :: ms =>
      if source_matches url m
      then let! has := all_hold true h url (default [] (m_has m)) in
           let! missing := all_hold false h url (default [] (m_missing m)) in
           if has && missing then Returns true else some_matches h url ms
      else some_matches h url ms
  end.

Definition decision (matchers : option (list MiddlewareMatcher)) (url : URL) (h : Headers) : outcome string bool :=
  match matchers with None | Some [] => Returns true | Some ms => some_matches h url ms end.

(** The path is covered by the source of some matcher; one that does not compile covers everything. *)
Definition covered_path (matchers : option (list MiddlewareMatcher)) (url : URL) : bool :=
  match matchers with None | Some [] => true | Some ms => existsb (source_matches url) ms end.

Lemma matched_is_covered matchers url h : decision matchers url h = Returns true → covered_path matchers url = true.
Proof.
  destruct matchers as [[|m ms]|]; [done| |done]. cbn [decision covered_path].
  generalize (m :: ms). clear m ms. intros ms. induction ms as [|m ms IH]; cbn; [done|].
  destruct (source_matches url m); [done|]. exact IH.
Qed.

(** ** Caches *)

Variable heap : nat → MiddlewareMatcher.
Notation conditionRegex := (conditionRegex new_RegExp isSafePattern).
Notation compileMatcherRegex := (compileMatcherRegex new_RegExp heap).
Notation conditionPresent := (conditionPresent new_RegExp test isSafePattern decodeURIComponent).
Notation matchesMiddleware := (matchesMiddleware new_RegExp test isSafePattern decodeURIComponent heap).
Notation middlewareMayCoverPath := (middlewareMayCoverPath new_RegExp test decodeURIComponent heap).
Notation Caches := (@Caches regexp).

Record coherent (s : Caches) : Prop := {
  co_conditions : ∀ v r, conditionRegexCache s !! v = Some r → r = condition_regexp v;
  co_matchers : ∀ m r, matcherRegexCache s !! m = Some r → r = new_RegExp (m_regexp (heap m));
  co_warned : NoDup (warnedUncompilableMatchers s);
  co_refused : NoDup (refusedConditions s);
  co_refused_cached : ∀ v, v ∈ refusedConditions s → is_Some (conditionRegexCache s !! v);
}.

(** A computation answers [v] whatever the caches hold, and keeps them coherent. *)
Definition answers {A} (m : M A) (v : outcome string A) : Prop :=
  ∀ s : Caches, coherent s → (m s).1 = v ∧ coherent (m s).2.

Lemma answers_ret {A} (a : A) : answers (ret a) (Returns a).
Proof. by intros s Hs. Qed.

Lemma answers_lift {A} (m : outcome string A) : answers (lift m) m.
Proof. by intros s Hs. Qed.

Lemma answers_bind {A B} (m : M A) (f : A → M B) v w :
  answers m v → (∀ a, v = Returns a → answers (f a) (w a)) → answers (bind m f) (let! a := v in w a).
Proof.
  intros Hm Hf s Hs. destruct (Hm s Hs) as [Hv Hs']. unfold bind. destruct (m s) as [[a|e] s']; cbn in *; subst; [|done].
  by apply Hf.
Qed.

Lemma answers_eq {A} (m : M A) v w : answers m v → v = w → answers m w.
Proof. by intros H <-. Qed.

Lemma answers_then {A B} (m : M A) (f : A → M B) a w : answers m (Returns a) → answers (f a) w → answers (bind m f) w.
Proof. intros Hm Hf. apply (answers_bind m f (Returns a) (λ _, w)); [done|]. by intros ? [= <-]. Qed.

Lemma answers_condition value : answers (conditionRegex value) (Returns (condition_regexp value)).
Proof.
  intros s Hs. unfold Matchers.conditionRegex. destruct (conditionRegexCache s !! value) as [r|] eqn:Hr.
  { cbn. split; [|done]. f_equal. by apply (co_conditions _ Hs). }
  destruct Hs as [Hc Hm Hw Hn Hi].
  assert (value ∉ refusedConditions s) as Hni.
  { intros H. destruct (Hi _ H) as [x Hx]. congruence. }
  assert (∀ r, r = condition_regexp value → ∀ v x,
    <[value := r]> (conditionRegexCache s) !! v = Some x → x = condition_regexp v) as Hc'.
  { intros r Hreq v x [[<- <-]|[_ H]]%lookup_insert_Some; [done|by apply Hc]. }
  unfold condition_regexp in *. destruct (unsafeConditionPattern isSafePattern value) as [u|]; cbn; (split; [done|]);
    split; cbn; try done; try (by apply Hc').
  - apply NoDup_app. split_and!; [done| |apply NoDup_singleton]. by intros v Hv ->%list_elem_of_singleton.
  - intros v. rewrite elem_of_app, list_elem_of_singleton. intros [Hv| ->]; [|by rewrite lookup_insert_eq].
    destruct (decide (v = value)) as [->|Hne]; [by rewrite lookup_insert_eq|]. rewrite lookup_insert_ne by done. by apply Hi.
  - intros v Hv. destruct (decide (v = value)) as [->|Hne]; [by rewrite lookup_insert_eq|].
    rewrite lookup_insert_ne by done. by apply Hi.
Qed.

Lemma answers_matcher m : answers (compileMatcherRegex m) (Returns (new_RegExp (m_regexp (heap m)))).
Proof.
  intros s Hs. unfold Matchers.compileMatcherRegex. destruct (matcherRegexCache s !! m) as [r|] eqn:Hr.
  { cbn. split; [|done]. f_equal. by apply (co_matchers _ Hs). }
  destruct Hs as [Hc Hm Hw Hn Hi]. cbn. split; [done|]. split; cbn; try done.
  - intros m' x [[<- <-]|[_ H]]%lookup_insert_Some; [done|by apply Hm].
  - destruct (new_RegExp (m_regexp (heap m))); [done|]. case_bool_decide as Hin; [done|].
    apply NoDup_app. split_and!; [done| |apply NoDup_singleton]. by intros v Hv ->%list_elem_of_singleton.
Qed.

Lemma answers_present c h url : answers (conditionPresent c h url) (condition_holds c h url).
Proof.
  unfold Matchers.conditionPresent, condition_holds. apply answers_bind; [apply answers_lift|]. intros actual _.
  destruct (given actual) as [a|]; [|apply answers_ret]. destruct (given (c_value c)) as [v|]; [|apply answers_ret].
  exact (answers_bind _ _ _ (λ re, Returns match re with None => String.eqb v a | Some re => test re a end)
    (answers_condition v) (λ re _, answers_ret _)).
Qed.

Lemma answers_every (f : RouteHasCondition → M bool) want h url l :
  (∀ c, answers (f c) (let! b := condition_holds c h url in Returns (Bool.eqb b want))) →
  answers (every f l) (all_hold want h url l).
Proof.
  intros Hf. induction l as [|c l IH]; cbn; [apply answers_ret|].
  eapply answers_eq; [apply (answers_bind _ _ _ (λ ok : bool, if ok then all_hold want h url l else Returns false) (Hf c))|].
  - intros [] _; [exact IH|apply answers_ret].
  - by destruct (condition_holds c h url).
Qed.

Lemma answers_loop h url l : answers
  (matches_loop new_RegExp test isSafePattern decodeURIComponent heap (match_paths decodeURIComponent url) url h l)
  (some_matches h url (map heap l)).
Proof.
  induction l as [|m l IH]; cbn [matches_loop map some_matches]; [apply answers_ret|].
  eapply answers_then; [apply answers_matcher|]. unfold source_matches.
  destruct (path_fails test _ _); cbn [negb]; [exact IH|].
  apply answers_bind.
  { apply answers_every. intros c. eapply answers_eq; [apply answers_present|]. by destruct (condition_holds c h url) as [[]|]. }
  intros has _. apply answers_bind.
  { apply answers_every. intros c. eapply answers_eq.
    - apply (answers_bind _ _ _ (λ b, Returns (negb b)) (answers_present c h url)). intros b _. apply answers_ret.
    - by destruct (condition_holds c h url) as [[]|]. }
  intros missing _. destruct (has && missing); [apply answers_ret|exact IH].
Qed.

Lemma answers_matches ms url h : answers (matchesMiddleware ms url h) (decision (map heap <$> ms) url h).
Proof. destruct ms as [[|m ms]|]; [apply answers_ret|exact (answers_loop h url (m :: ms))|apply answers_ret]. Qed.

Lemma answers_covers ms url : answers (middlewareMayCoverPath ms url) (Returns (covered_path (map heap <$> ms) url)).
Proof.
  destruct ms as [[|m ms]|]; [apply answers_ret| |apply answers_ret].
  change (answers (covers_loop new_RegExp test heap (match_paths decodeURIComponent url) (m :: ms))
    (Returns (existsb (source_matches url) (map heap (m :: ms))))).
  generalize (m :: ms). clear m ms. intros ms.
  induction ms as [|m ms IH]; cbn [covers_loop map existsb]; [apply answers_ret|].
  eapply answers_then; [apply answers_matcher|]. unfold source_matches at 1.
  destruct (path_fails test _ _); [exact IH|apply answers_ret].
Qed.

(** ** Runs *)

(** The decisions a process takes, in their order. *)
Inductive Query := Run (matchers : option (list nat)) (url : URL) (h : Headers) | Cover (matchers : option (list nat)) (url : URL).

Definition ask (q : Query) : M bool :=
  match q with Run ms url h => matchesMiddleware ms url h | Cover ms url => middlewareMayCoverPath ms url end.

Definition no_caches : Caches := mkCaches ∅ ∅ [] [].

Definition caches_after (qs : list Query) : Caches := foldl (λ s q, (ask q s).2) no_caches qs.

Definition answer (q : Query) : outcome string bool :=
  match q with
  | Run ms url h => decision (map heap <$> ms) url h
  | Cover ms url => Returns (covered_path (map heap <$> ms) url)
  end.

Lemma answers_ask q : answers (ask q) (answer q).
Proof. destruct q; [apply answers_matches|apply answers_covers]. Qed.

Lemma caches_coherent qs : coherent (caches_after qs).
Proof.
  unfold caches_after. assert (coherent no_caches) as H by (split; cbn; try done; try apply NoDup_nil_2; set_solver).
  revert H. generalize no_caches. induction qs as [|q qs IH]; intros s Hs; cbn; [done|].
  apply IH. by apply (answers_ask q).
Qed.

(** The caches of compiled expressions are transparent: after any decisions, each decision is
    the one the specification takes without caches, exceptions included; no pattern is warned of
    twice; and what the cache of conditions will run is an expression of at most 4,096 characters
    that passed every check and compiles. *)
Theorem caches_transparent qs q v re :
  (ask q (caches_after qs)).1 = answer q
  ∧ NoDup (refusedConditions (caches_after qs)) ∧ NoDup (warnedUncompilableMatchers (caches_after qs))
  ∧ (conditionRegexCache (caches_after qs) !! v = Some (Some re) →
     String.length v ≤ 4096 ∧ quantifiedGroupHazard v = None ∧ has_named_backreference v = false
     ∧ isSafePattern (anchored (analyzableValue v)) = Some true ∧ new_RegExp (anchored v) = Some re).
Proof.
  pose proof (caches_coherent qs) as Hs. split_and!; [by apply answers_ask|apply Hs|apply Hs|].
  intros Hre%(co_conditions _ Hs). unfold condition_regexp, unsafeConditionPattern in Hre.
  destruct (4096 <? String.length v) eqn:Hlen; [done|]. apply Nat.ltb_ge in Hlen.
  destruct (quantifiedGroupHazard v); [done|]. destruct (has_named_backreference v); [done|].
  by destruct (isSafePattern _) as [[]|].
Qed.

(** C13. Coverage is the widest decision.  The path predicate that decides what may be shared never
    throws and says exactly whether some matcher's source matches the path or does not compile;
    whatever the headers, and whatever either tier decided before, a request that middleware runs
    for has a covered path; and a matcher that does not compile and has no condition is never
    skipped. *)
Theorem coverage_is_widest qs qs' ms url h :
  (middlewareMayCoverPath ms url (caches_after qs)).1 = Returns (covered_path (map heap <$> ms) url)
  ∧ ((matchesMiddleware ms url h (caches_after qs')).1 = Returns true → covered_path (map heap <$> ms) url = true)
  ∧ (∀ m l, ms = Some l → m ∈ l → new_RegExp (m_regexp (heap m)) = None → conditions (heap m) = [] →
     (matchesMiddleware ms url h (caches_after qs')).1 ≠ Returns false).
Proof.
  rewrite (proj1 (answers_covers ms url _ (caches_coherent qs))).
  rewrite (proj1 (answers_matches ms url h _ (caches_coherent qs'))).
  split_and!; [done|apply matched_is_covered|]. intros m l -> Hm Hre Hc.
  destruct l as [|x l]; [done|]. cbn [fmap option_fmap option_map decision]. change (map heap (x :: l)) with (heap x :: map heap l).
  revert Hm. cbn [decision]. change (heap x :: map heap l) with (map heap (x :: l)). generalize (x :: l). clear x l.
  intros l. induction l as [|x l IH]; intros Hm; [by apply not_elem_of_nil in Hm|]. cbn [map some_matches].
  apply elem_of_cons in Hm as [<-|Hm].
  - unfold source_matches. rewrite Hre. unfold conditions in Hc. apply app_eq_nil in Hc as [-> ->]. done.
  - destruct (source_matches url (heap x)); [|by apply IH].
    destruct (all_hold true h url _) as [b|]; [|done]. destruct (all_hold false h url _) as [b'|]; [|done].
    cbn. destruct (b && b'); [done|by apply IH].
Qed.

(** ** What a decision reads *)

Lemma actual_value_ext c h h' url : (∀ name, condition_name c = Some name → h !! name = h' !! name) →
  actual_value decodeURIComponent c h url = actual_value decodeURIComponent c h' url.
Proof.
  unfold actual_value, condition_name, headers_get. intros H. destruct (c_type c) eqn:Ht; [| |done|done].
  - destruct (c_key c) as [k|]; [|done]. cbn. destruct (is_empty k); [done|]. by rewrite (H _ eq_refl).
  - change (to_lower "cookie") with "cookie". by rewrite (H _ eq_refl).
Qed.

Lemma all_hold_ext want h h' url l :
  (∀ c name, c ∈ l → condition_name c = Some name → h !! name = h' !! name) →
  all_hold want h url l = all_hold want h' url l.
Proof.
  induction l as [|c l IH]; intros H; cbn [all_hold]; [done|]. unfold condition_holds.
  rewrite (actual_value_ext c h h') by (intros name; apply H; left).
  rewrite IH by (intros c' name Hc'; apply H; by right). done.
Qed.

Lemma decision_ext ms h h' url :
  (∀ m c name, m ∈ default [] ms → c ∈ conditions m → condition_name c = Some name → h !! name = h' !! name) →
  decision ms url h = decision ms url h'.
Proof.
  intros H. destruct ms as [[|m ms]|]; [done| |done]. cbn [decision default] in *. revert H. generalize (m :: ms).
  clear m ms. intros ms. induction ms as [|m ms IH]; intros H; cbn [some_matches]; [done|].
  rewrite IH by (intros m' c name Hm; apply H; by right).
  assert (∀ c name, c ∈ default [] (m_has m) ++ default [] (m_missing m) → condition_name c = Some name →
    h !! name = h' !! name) as Hm by (intros c name; apply H; left).
  rewrite (all_hold_ext true h h') by (intros c name Hc; apply Hm, elem_of_app; by left).
  rewrite (all_hold_ext false h h') by (intros c name Hc; apply Hm, elem_of_app; by right). done.
Qed.

End Decisions.

(** ** The names the proof covers *)

#[local] Opaque excluded PROOF_COVERED_CONTEXT_HEADERS INTERNAL_DISPATCH_HEADERS.

Lemma matcher_name_listed ms m c name :
  m ∈ default [] ms → c ∈ conditions m → condition_name c = Some name → excluded name = false →
  name ∈ matcherProofHeaderNames ms.
Proof.
  intros Hm Hc Hn He. destruct ms as [[|x ms]|]; cbn [default id] in Hm;
    [exfalso; exact (not_elem_of_nil _ Hm)| |exfalso; exact (not_elem_of_nil _ Hm)].
  unfold matcherProofHeaderNames. rewrite elem_of_sort_keys, list_elem_of_filter, js_set_elem.
  split; [exact He|]. apply list_elem_of_omap. exists c. split; [|exact Hn]. apply list_elem_of_bind.
  exists m. split; [exact Hc|exact Hm].
Qed.

Lemma matcher_name_covered manifest m c name :
  m ∈ default [] (pm_matchers manifest) → c ∈ conditions m → condition_name c = Some name → excluded name = false →
  name ∈ proofCoveredHeaderNames (Some (buildProofHeaderNames manifest)).
Proof.
  intros Hm Hc Hn He. unfold proofCoveredHeaderNames, buildProofHeaderNames.
  rewrite elem_of_sort_keys, js_set_elem, !elem_of_app. right. right. cbn [default id].
  rewrite elem_of_sort_keys, js_set_elem, elem_of_app. left. exact (matcher_name_listed _ _ _ _ Hm Hc Hn He).
Qed.

(** ** The decision and the dispatch proof *)

Section Binding.
Context (hmac : string → bytes → bytes) (sha256 : bytes → bytes) (env : string → option string).
Context {regexp : Type} (new_RegExp : string → option regexp) (test : regexp → string → bool).
Variable isSafePattern : string → option bool.
Variable decodeURIComponent : string → option string.
Variable heap : nat → MiddlewareMatcher.
(** The text of header octets, and the URL of a request target and an authority. *)
Variable decode : bytes → string.
Variable url_of : option bytes → option bytes → URL.

Notation matchesMiddleware := (matchesMiddleware new_RegExp test isSafePattern decodeURIComponent heap).
Notation caches_after := (caches_after new_RegExp test isSafePattern decodeURIComponent heap).

(** The headers a tier builds from the octets of its request, for the names the proof covers. *)
Definition reads (h : Headers) (i : DispatchProofInputs) : Prop :=
  ∀ name, name ∈ covered i → h !! name = decode <$> header_octets i name.

Definition request_url (i : DispatchProofInputs) : URL := url_of (octets (i_target i)) (folded_authority i).


End Binding.

(** ** Witnesses *)

(** Every page needs a session; the URL parameters are those of the sample request. *)
Definition session : RouteHasCondition := mkCondition HasCookie (Some "session") None.
Definition admin : RouteHasCondition := mkCondition HasCookie (Some "role") (Some "adm[a-z]*").
Definition sample_heap (m : nat) : MiddlewareMatcher :=
  match m with
  | 0 => mkMatcher "^/cart$" None (Some [session]) None
  | 1 => mkMatcher "^/admin$" (Some [admin]) None None
  | _ => mkMatcher "(?i:broken" None None None
  end.
Definition sample_manifest : ProofManifest :=
  mkManifest (Some [sample_heap 0; sample_heap 1]) (Some (mkRsc (Some "RSC") None)).
Definition sample_url (target authority : option bytes) : URL := mkUrl "/cart" "shop.example" [("item", "1")].
Definition no_decoding (s : string) : option string := Some s.
Definition analyzed (s : string) : option bool := Some true.

Definition headers_of (i : DispatchProofInputs) : Headers :=
  list_to_map (omap (λ name, pair name ∘ of_latin1 <$> header_octets i name) (covered i)).

Lemma headers_read i :
  forallb (λ name, bool_decide (headers_of i !! name = of_latin1 <$> header_octets i name)) (covered i) = true →
  reads of_latin1 (headers_of i) i.
Proof. intros H name Hn. apply (bool_decide_unpack _). apply Is_true_true. exact (proj1 (forallb_In _ _) H name Hn). Qed.


Lemma caches_transparent_witness :
  let qs := [Run (Some [0; 1]) (mkUrl "/admin" "h" []) (list_to_map [("cookie", "role=admin")])] in
  let s := caches_after compile rmatch analyzed no_decoding sample_heap qs in
  (∃ re, conditionRegexCache s !! "adm[a-z]*" = Some (Some re))
  ∧ quantifiedGroupHazard "adm[a-z]*" = None.
Proof.
  assert (∃ re, conditionRegexCache (caches_after compile rmatch analyzed no_decoding sample_heap
    [Run (Some [0; 1]) (mkUrl "/admin" "h" []) (list_to_map [("cookie", "role=admin")])]) !! "adm[a-z]*" = Some (Some re))
    as [re Hre] by (eexists; vm_compute; reflexivity).
  split; [by exists re|].
  exact (proj1 (proj2 (proj2 (proj2 (proj2 (caches_transparent compile rmatch analyzed no_decoding sample_heap _
    (Cover None (mkUrl "/" "h" [])) _ re))) Hre))).
Defined.

Lemma coverage_is_widest_witness :
  let s := no_caches in
  (matchesMiddleware compile rmatch analyzed no_decoding sample_heap (Some [0]) (mkUrl "/cart" "h" []) ∅ s).1 = Returns true
  ∧ covered_path compile rmatch no_decoding (Some [sample_heap 0]) (mkUrl "/cart" "h" []) = true
  ∧ (matchesMiddleware compile rmatch analyzed no_decoding sample_heap (Some [2]) (mkUrl "/cart" "h" []) ∅ s).1 ≠ Returns false.
Proof.
  split; [vm_compute; reflexivity|]. split.
  - apply (coverage_is_widest compile rmatch analyzed no_decoding sample_heap [] [] (Some [0]) (mkUrl "/cart" "h" []) ∅).
    vm_compute. reflexivity.
  - apply (coverage_is_widest compile rmatch analyzed no_decoding sample_heap [] [] (Some [2]) (mkUrl "/cart" "h" []) ∅)
      with (m := 2) (l := [2]); [done|by left|by vm_compute|done].
Defined.

(** A refused pattern is compared as a text: under missing that widens coverage, under has it
    narrows it. *)
Definition lang : RouteHasCondition := mkCondition HasHeader (Some "x-lang") (Some "(a|b)+").
Definition with_lang : Headers := list_to_map [("x-lang", "a")].

Example refused_missing_widens :
  decision compile rmatch analyzed no_decoding (Some [mkMatcher "^/$" None (Some [lang]) None]) (mkUrl "/" "h" []) with_lang
  = Returns true
  ∧ (re ← compile (anchored "(a|b)+"); Some (rmatch re "a")) = Some true.
Proof. split; vm_compute; reflexivity. Qed.

Example refused_has_narrows :
  decision compile rmatch analyzed no_decoding (Some [mkMatcher "^/$" (Some [lang]) None None]) (mkUrl "/" "h" []) with_lang
  = Returns false.
Proof. vm_compute. reflexivity. Qed.

End MatchersFacts.
