(* ===== verification/PatternFacts.v ===== *)
(** * The shape check on patterns: facts

    quantifiedGroupHazard of src/src/routing-common.ts walks over the text of a pattern.  Here is a
    grammar of regular expressions with its printer, and the theorem that the walk finds exactly the
    repeated groups of the expression that hold a quantifier or an alternation. *)
From Stdlib Require Import Ascii String.
From S2P Require Import Prelude JsString Regex Matchers.
Import Matchers.
Local Open Scope stdpp_scope.

Module PatternFacts.

(** ** Expressions *)

(** A sequence of quantified atoms, and a choice between sequences.  The quantifier of an atom is the
    text that follows it, empty for none; an escape is the character after the backslash; a class is
    its text between the brackets; a prefix is what follows the parenthesis of a group, such as a
    question mark and a colon. *)
Inductive sequence :=
  | Done
  | Char (c : ascii) (q : string) (rest : sequence)
  | Escape (c : ascii) (q : string) (rest : sequence)
  | Class (body : string) (q : string) (rest : sequence)
  | Parens (prefix : string) (body : choice) (q : string) (rest : sequence)
with choice :=
  | One (b : sequence)
  | Or (b : sequence) (rest : choice).

Scheme sequence_mut := Induction for sequence Sort Prop
  with choice_mut := Induction for choice Sort Prop.
Combined Scheme expression_ind from sequence_mut, choice_mut.

Fixpoint print (b : sequence) : string :=
  match b with
  | Done => ""
  | Char c q rest => String c (q +:+ print rest)
  | Escape c q rest => String backslash (String c (q +:+ print rest))
  | Class body q rest => String "[" (body +:+ String "]" (q +:+ print rest))
  | Parens prefix body q rest => String "(" (prefix +:+ (print_choice body +:+ String ")" (q +:+ print rest)))
  end
with print_choice (a : choice) : string :=
  match a with One b => print b | Or b rest => print b +:+ String "|" (print_choice rest) end.

(** *** What makes an expression well formed *)

(** A character that means itself outside classes. *)
Definition plain (c : ascii) : bool :=
  negb (Ascii.eqb c backslash) && negb (Ascii.eqb c "[") && negb (Ascii.eqb c "(") && negb (Ascii.eqb c ")")
  && negb (Ascii.eqb c "|") && negb (is_quantifier c).

(** A quantifier: one of the four characters, and plain ones or the mark of a lazy quantifier. *)
Definition quantifier_ok (q : string) : bool :=
  match q with
  | EmptyString => true
  | String c q => is_quantifier c && all_chars (λ c, plain c || Ascii.eqb c "?") q
  end.

Definition prefix_ok (p : string) : bool :=
  match p with EmptyString => true | String c p => Ascii.eqb c "?" && all_chars plain p end.

(** The text of a class: no closing bracket but an escaped one. *)
Fixpoint class_ok (s : string) : bool :=
  match s with
  | EmptyString => true
  | String c s' =>
      if Ascii.eqb c backslash then match s' with EmptyString => false | String _ s'' => class_ok s'' end
      else negb (Ascii.eqb c "]") && class_ok s'
  end.

Fixpoint sequence_ok (b : sequence) : bool :=
  match b with
  | Done => true
  | Char c q rest => plain c && quantifier_ok q && sequence_ok rest
  | Escape _ q rest => quantifier_ok q && sequence_ok rest
  | Class body q rest => class_ok body && quantifier_ok q && sequence_ok rest
  | Parens prefix body q rest => prefix_ok prefix && choice_ok body && quantifier_ok q && sequence_ok rest
  end
with choice_ok (a : choice) : bool :=
  match a with One b => sequence_ok b | Or b rest => sequence_ok b && choice_ok rest end.

(** *** What an expression holds, at any depth *)

Definition quantified (q : string) : bool := negb (is_empty q).

Fixpoint has_quantifier (b : sequence) : bool :=
  match b with
  | Done => false
  | Char _ q rest | Escape _ q rest | Class _ q rest => quantified q || has_quantifier rest
  | Parens _ body q rest => choice_has_quantifier body || quantified q || has_quantifier rest
  end
with choice_has_quantifier (a : choice) : bool :=
  match a with One b => has_quantifier b | Or b rest => has_quantifier b || choice_has_quantifier rest end.

Fixpoint has_alternation (b : sequence) : bool :=
  match b with
  | Done => false
  | Char _ _ rest | Escape _ _ rest | Class _ _ rest => has_alternation rest
  | Parens _ body _ rest => choice_has_alternation body || has_alternation rest
  end
with choice_has_alternation (a : choice) : bool :=
  match a with One b => has_alternation b | Or _ _ => true end.

(** A group that may be matched more than once. *)
Definition repeated (q : string) : bool := next_is is_repetition q.

Definition own_hazard (body : choice) (q : string) : option Hazard :=
  if repeated q && choice_has_quantifier body then Some NestedQuantifier
  else if repeated q && choice_has_alternation body then Some Alternation
  else None.

Definition first_of (a b : option Hazard) : option Hazard := match a with Some h => Some h | None => b end.

(** The first repeated group, in the order of closing parentheses, that holds one or the other. *)
Fixpoint hazard (b : sequence) : option Hazard :=
  match b with
  | Done => None
  | Char _ _ rest | Escape _ _ rest | Class _ _ rest => hazard rest
  | Parens _ body q rest => first_of (choice_hazard body) (first_of (own_hazard body q) (hazard rest))
  end
with choice_hazard (a : choice) : option Hazard :=
  match a with One b => hazard b | Or b rest => first_of (hazard b) (choice_hazard rest) end.

(** ** The walk *)

(** What a stretch of text adds to the innermost group. *)
Definition mark (alternation quantifier : bool) (groups : list Group) : list Group :=
  match groups with
  | [] => []
  | g :: outer =>
      mkGroup (openIndex g) (containsAlternation g || alternation) (containsQuantifier g || quantifier) :: outer
  end.

Lemma mark_mark a q a' q' groups : mark a' q' (mark a q groups) = mark (a || a') (q || q') groups.
Proof. destruct groups as [|g outer]; cbn; [done|]. by rewrite !orb_assoc. Qed.

Lemma mark_nothing groups : mark false false groups = groups.
Proof. destruct groups as [|[i a q] outer]; cbn; [done|]. by rewrite !orb_false_r. Qed.

(** The innermost group was opened before the index. *)
Definition before (i : nat) (groups : list Group) : Prop :=
  match groups with [] => True | g :: _ => openIndex g < i end.

Lemma before_mark i a q groups : before i (mark a q groups) ↔ before i groups.
Proof. by destruct groups. Qed.

Lemma before_le i j groups : i ≤ j → before i groups → before j groups.
Proof. destruct groups; cbn; lia. Qed.

Lemma next_is_app p a b : next_is p (a +:+ b) = if is_empty a then next_is p b else next_is p a.
Proof. by destruct a. Qed.

Lemma scan_plain c s i groups : plain c = true → hazard_scan (String c s) i false groups = hazard_scan s (S i) false groups.
Proof.
  unfold plain. intros H. repeat (apply andb_true_iff in H as [H ?]). repeat match goal with H : negb _ = true |- _ => apply negb_true_iff in H end.
  cbn [hazard_scan]. repeat match goal with H : _ = false |- _ => rewrite H; clear H end. by destruct groups.
Qed.

Lemma scan_all_plain t s i groups : all_chars plain t = true →
  hazard_scan (t +:+ s) i false groups = hazard_scan s (String.length t + i) false groups.
Proof.
  revert i. induction t as [|c t IH]; intros i H; [done|]. cbn in H. apply andb_true_iff in H as [Hc Ht].
  cbn [String.append]. rewrite scan_plain by done. rewrite IH by done. cbn. f_equal. lia.
Qed.

Lemma quantifier_cases c : is_quantifier c = true → c = "+"%char ∨ c = "*"%char ∨ c = "?"%char ∨ c = "{"%char.
Proof. unfold is_quantifier. rewrite !orb_true_iff, !Ascii.eqb_eq. tauto. Qed.

Lemma scan_quantifier c s i groups : is_quantifier c = true → before i groups →
  hazard_scan (String c s) (S i) false groups = hazard_scan s (S (S i)) false (mark false true groups).
Proof.
  intros Hc Hb. destruct groups as [|[o a q] outer].
  - by destruct (quantifier_cases c Hc) as [->|[->|[->| ->]]].
  - cbn in Hb. replace (mark false true (mkGroup o a q :: outer)) with (mkGroup o a true :: outer)
      by (cbn; by rewrite orb_false_r, orb_true_r).
    destruct (quantifier_cases c Hc) as [->|[->|[->| ->]]]; try done.
    cbn. by rewrite (proj2 (Nat.eqb_neq o i)) by lia.
Qed.

Lemma scan_quantifier_rest t s i groups : all_chars (λ c, plain c || Ascii.eqb c "?") t = true → before i groups →
  hazard_scan (t +:+ s) (S i) false (mark false true groups)
  = hazard_scan s (String.length t + S i) false (mark false true groups).
Proof.
  revert i. induction t as [|c t IH]; intros i H Hb; [done|]. cbn in H. apply andb_true_iff in H as [Hc Ht].
  cbn [String.append]. assert (hazard_scan (String c (t +:+ s)) (S i) false (mark false true groups)
    = hazard_scan (t +:+ s) (S (S i)) false (mark false true groups)) as ->.
  { apply orb_true_iff in Hc as [Hc|Hc]; [by apply scan_plain|]. apply Ascii.eqb_eq in Hc as ->.
    rewrite scan_quantifier; [|done|by apply before_mark]. by rewrite mark_mark. }
  rewrite IH; [|done|by eapply before_le, Hb; lia]. cbn. f_equal. lia.
Qed.

Lemma scan_suffix q s i groups : quantifier_ok q = true → before i groups →
  hazard_scan (q +:+ s) (S i) false groups
  = hazard_scan s (String.length q + S i) false (mark false (quantified q) groups).
Proof.
  intros Hq Hb. destruct q as [|c q]; [by rewrite mark_nothing|]. cbn in Hq. apply andb_true_iff in Hq as [Hc Hq].
  cbn [String.append]. rewrite scan_quantifier by done.
  rewrite scan_quantifier_rest; [|done|by eapply before_le, Hb; lia]. cbn. f_equal. lia.
Qed.

Lemma scan_class body s groups : ∀ i, class_ok body = true →
  hazard_scan (body +:+ String "]" s) i true groups = hazard_scan s (String.length body + S i) false groups.
Proof.
  enough (∀ n body i, String.length body ≤ n → class_ok body = true →
    hazard_scan (body +:+ String "]" s) i true groups = hazard_scan s (String.length body + S i) false groups) as H
    by (intros i; by apply (H (String.length body))).
  clear body. induction n as [|n IH]; intros [|c body] i Hl Hok; cbn in Hl; try lia; [done|done|].
  cbn in Hok. cbn [String.append hazard_scan]. destruct (Ascii.eqb c backslash).
  - destruct body as [|d body]; [done|]. cbn in Hl. cbn [String.append]. rewrite IH by (done || lia). cbn. f_equal. lia.
  - apply andb_true_iff in Hok as [Hc Hok]. rewrite Hc, IH by (done || lia). cbn. f_equal. lia.
Qed.

Lemma scan_group_prefix p s i groups : prefix_ok p = true →
  hazard_scan (p +:+ s) (S i) false (mkGroup i false false :: groups)
  = hazard_scan s (String.length p + S i) false (mkGroup i false false :: groups).
Proof.
  destruct p as [|c p]; [done|]. cbn [prefix_ok]. intros [->%Ascii.eqb_eq Hp]%andb_true_iff.
  cbn [String.append]. cbn [hazard_scan]. cbn. rewrite Nat.eqb_refl. cbn. rewrite scan_all_plain by done. f_equal. lia.
Qed.

(** *** What follows an atom is no quantifier of its own *)

Definition calm (s : string) : Prop := next_is is_quantifier s = false.

Lemma calm_print b s : sequence_ok b = true → calm s → calm (print b +:+ s).
Proof.
  intros Hok Hs. destruct b as [|c q rest|c q rest|body q rest|prefix body q rest]; [done| |done..].
  cbn in *. unfold plain in Hok. unfold calm. cbn. destruct (is_quantifier c); [|done]. by rewrite andb_false_r in Hok.
Qed.

Lemma next_suffix p q s : quantifier_ok q = true → calm s → (∀ c, p c = true → is_quantifier c = true) →
  next_is p (q +:+ s) = next_is p q.
Proof.
  intros Hq Hs Hp. rewrite next_is_app. destruct q; [|done]. cbn. unfold calm in Hs. destruct s as [|c s]; [done|].
  cbn in *. destruct (p c) eqn:Hc; [|done]. by rewrite (Hp c Hc) in Hs.
Qed.

Lemma next_quantified q s : quantifier_ok q = true → calm s → next_is is_quantifier (q +:+ s) = quantified q.
Proof. intros Hq Hs. rewrite next_suffix by done. destruct q; [done|]. cbn in *. by apply andb_true_iff in Hq as [-> _]. Qed.

Lemma next_repeated q s : quantifier_ok q = true → calm s → next_is is_repetition (q +:+ s) = repeated q.
Proof.
  intros Hq Hs. apply next_suffix; [done|done|]. intros c. unfold is_repetition, is_quantifier.
  rewrite !orb_true_iff. tauto.
Qed.

(** Closing the innermost group. *)
Lemma scan_close body q s i o a k groups : quantifier_ok q = true → calm s →
  a = choice_has_alternation body → k = choice_has_quantifier body →
  hazard_scan (String ")" (q +:+ s)) i false (mkGroup o a k :: groups)
  = match own_hazard body q with
    | Some h => Some h
    | None => hazard_scan (q +:+ s) (S i) false (mark a (k || quantified q) groups)
    end.
Proof.
  intros Hq Hs -> ->. cbn [hazard_scan]. change (Ascii.eqb ")" backslash) with false.
  change (Ascii.eqb ")" "[") with false. change (Ascii.eqb ")" "(") with false. change (Ascii.eqb ")" "|") with false.
  change (is_quantifier ")") with false. change (Ascii.eqb ")" ")") with true. cbn [andb negb].
  rewrite next_repeated, next_quantified by done. unfold own_hazard. cbn [containsQuantifier containsAlternation].
  destruct (repeated q && choice_has_quantifier body); [done|]. destruct (repeated q && choice_has_alternation body); [done|].
  by destruct groups.
Qed.

(** The walk over an expression: it stops at the first hazard, or leaves its marks. *)
Definition walked (h : option Hazard) (text s : string) (i : nat) (a k : bool) (groups : list Group) : option Hazard :=
  match h with
  | Some h => Some h
  | None => hazard_scan s (String.length text + i) false (mark a k groups)
  end.

Lemma walked_index h t t' s i i' a k groups : String.length t + i = String.length t' + i' →
  walked h t s i a k groups = walked h t' s i' a k groups.
Proof. unfold walked. by intros ->. Qed.

Lemma walked_first h h' t s i a k groups :
  match h with Some h => Some h | None => walked h' t s i a k groups end = walked (first_of h h') t s i a k groups.
Proof. by destruct h. Qed.

Definition walks (b : sequence) : Prop := ∀ s i groups, sequence_ok b = true → calm s → before i groups →
  hazard_scan (print b +:+ s) i false groups
  = walked (hazard b) (print b) s i (has_alternation b) (has_quantifier b) groups.

Definition walks_choice (x : choice) : Prop := ∀ s i groups, choice_ok x = true → calm s → before i groups →
  hazard_scan (print_choice x +:+ s) i false groups
  = walked (choice_hazard x) (print_choice x) s i (choice_has_alternation x) (choice_has_quantifier x) groups.

(** A quantifier, then the rest of the sequence. *)
Lemma walk_rest q rest s i a k groups :
  walks rest → quantifier_ok q = true → sequence_ok rest = true → calm s → before i groups →
  hazard_scan (q +:+ (print rest +:+ s)) (S i) false (mark a k groups)
  = walked (hazard rest) (q +:+ print rest) s (S i) (a || has_alternation rest)
      (k || quantified q || has_quantifier rest) groups.
Proof.
  intros IH Hq Hr Hs Hb. rewrite scan_suffix by (done || by apply before_mark).
  rewrite mark_mark, orb_false_r, IH; [|done|done|].
  - unfold walked. rewrite length_append, mark_mark. destruct (hazard rest); [done|]. f_equal. lia.
  - apply before_mark. eapply before_le; [|exact Hb]. lia.
Qed.

Lemma walk_atom q rest s i groups :
  walks rest → quantifier_ok q = true → sequence_ok rest = true → calm s → before i groups →
  hazard_scan (q +:+ (print rest +:+ s)) (S i) false groups
  = walked (hazard rest) (q +:+ print rest) s (S i) (has_alternation rest) (quantified q || has_quantifier rest) groups.
Proof. intros. rewrite <- (mark_nothing groups) at 1. by rewrite (walk_rest q rest). Qed.

Lemma walk_group prefix body q rest : walks_choice body → walks rest → walks (Parens prefix body q rest).
Proof.
  intros IHb IHr s i groups Hok Hs Hb. cbn in Hok. repeat (apply andb_true_iff in Hok as [Hok ?]).
  cbn [print String.append]. rewrite !append_assoc. cbn [String.append]. rewrite !append_assoc.
  change (hazard_scan (String "(" ?t) i false groups) with (hazard_scan t (S i) false (mkGroup i false false :: groups)).
  rewrite scan_group_prefix by done.
  rewrite IHb; [|done|done|cbn; lia]. unfold walked at 1. cbn [mark orb hazard openIndex containsAlternation containsQuantifier].
  destruct (choice_hazard body) as [h|]; [done|]. cbn [first_of].
  rewrite (scan_close body) by (done || by apply calm_print).
  destruct (own_hazard body q) as [h|]; [done|]. cbn [first_of].
  set (j := String.length (print_choice body) + _).
  rewrite (walk_rest q rest s j); [|done..|eapply before_le; [|exact Hb]; lia].
  unfold walked. destruct (hazard rest); [done|]. f_equal.
  - cbn. rewrite !length_append. cbn. rewrite !length_append. lia.
  - f_equal. cbn. by destruct (choice_has_quantifier body), (quantified q).
Qed.

Lemma walk_all : (∀ b, walks b) ∧ (∀ x, walks_choice x).
Proof.
  apply expression_ind.
  - intros s i groups _ _ _. cbn. by rewrite mark_nothing.
  - intros c q rest IH s i groups Hok Hs Hb. cbn [sequence_ok] in Hok. apply andb_true_iff in Hok as [[Hc Hq]%andb_true_iff Hr].
    cbn [print String.append]. rewrite append_assoc, scan_plain, walk_atom by done.
    apply walked_index. cbn. lia.
  - intros c q rest IH s i groups Hok Hs Hb. cbn in Hok. apply andb_true_iff in Hok as [Hq Hr].
    cbn [print String.append]. rewrite append_assoc.
    change (hazard_scan (String backslash (String c ?t)) i false groups) with (hazard_scan t (S (S i)) false groups).
    rewrite walk_atom; [|done..|eapply before_le; [|exact Hb]; lia]. apply walked_index. cbn. lia.
  - intros body q rest IH s i groups Hok Hs Hb. cbn in Hok. repeat (apply andb_true_iff in Hok as [Hok ?]).
    cbn [print String.append]. rewrite append_assoc. cbn [String.append]. rewrite append_assoc.
    change (hazard_scan (String "[" ?t) i false groups) with (hazard_scan t (S i) true groups).
    rewrite scan_class by done. rewrite Nat.add_succ_r.
    rewrite walk_atom; [|done..|eapply before_le; [|exact Hb]; lia]. apply walked_index.
    cbn. rewrite !length_append. cbn. rewrite length_append. lia.
  - intros prefix body IHb q rest IHr. by apply walk_group.
  - intros b IH s i groups Hok Hs Hb. by apply IH.
  - intros b IH x IHx s i groups Hok Hs Hb. cbn in Hok. apply andb_true_iff in Hok as [Hok Hx].
    cbn [print_choice]. rewrite append_assoc. cbn [String.append]. rewrite IH by done.
    unfold walked at 1. cbn [choice_hazard]. destruct (hazard b) as [h|]; [done|]. cbn [first_of].
    set (j := String.length (print b) + i).
    assert (∀ t, hazard_scan (String "|" t) j false (mark (has_alternation b) (has_quantifier b) groups)
      = hazard_scan t (S j) false (mark true (has_quantifier b) groups)) as Hbar.
    { intros t. destruct groups as [|g outer]; [done|]. cbn. by rewrite orb_true_r. }
    rewrite Hbar, IHx; [|done|done|apply before_mark; eapply before_le; [|exact Hb]; lia].
    unfold walked. destruct (choice_hazard x); [done|]. rewrite mark_mark. cbn [choice_has_alternation choice_has_quantifier orb].
    f_equal. cbn. rewrite length_append. cbn. lia.
Qed.

(** C31. The shape check is exact on the expression grammar: on the text of any well-formed
    expression, with escapes, classes, group prefixes and nesting, it reports the first group, in the
    order of closing parentheses, that may repeat and holds a quantifier or, failing that, an
    alternation at any depth; and nothing when there is none. *)
Theorem shape_check_exact x : choice_ok x = true → quantifiedGroupHazard (print_choice x) = choice_hazard x.
Proof.
  intros Hx. unfold quantifiedGroupHazard. rewrite <- (append_nil_r (print_choice x)).
  rewrite (proj2 walk_all x) by done. unfold walked. by destruct (choice_hazard x).
Qed.

(** (?:a[)|]\+|b?)+ *)
Definition nested : choice :=
  One (Parens "?:" (Or (Char "a" "" (Class ")|" "" (Escape "+" "" Done))) (One (Char "b" "?" Done))) "+" Done).

Lemma shape_check_exact_witness :
  print_choice nested = "(?:a[)|]\+|b?)+" ∧ quantifiedGroupHazard (print_choice nested) = Some NestedQuantifier.
Proof. split; [reflexivity|]. rewrite (shape_check_exact nested); reflexivity. Defined.

(** The mark of an optional group is not a repetition, and escaped parentheses group nothing. *)
Example optional_group : quantifiedGroupHazard "(a|b)?" = None.
Proof. reflexivity. Qed.

Example escaped_group : quantifiedGroupHazard "\(a+\)+" = None.
Proof. reflexivity. Qed.

End PatternFacts.
