(* ===== verification/RscBusting.v ===== *)
(** * The cache-busting parameter of flight requests

    Models the _rsc part of src/src/routing-common.ts: the input hashed from the four headers that
    vary a flight response, the modern parameter (SHA-256 truncated to 96 bits, in base64url), the
    legacy one (a 32-bit hash in base 36) and the verdict of both tiers.  SHA-256 is a parameter;
    the lookup of a header may throw, as Headers.get does on a name that is no token. *)
From Stdlib Require Import Ascii String.
From S2P Require Import Prelude JsString Json CacheControl Resp DispatchProof.
Import Resp DispatchProof.
Import CachePolicy(hvalue(..)).
Local Open Scope stdpp_scope.
Local Open Scope js_scope.
Local Open Scope Z_scope.

Module RscBusting.

Definition RSC_CACHE_BUSTING_QUERY : string := "_rsc".
Definition RSC_REQUEST_HEADER : string := "rsc".
Definition RSC_ROUTER_PREFETCH_HEADER : string := "next-router-prefetch".
Definition RSC_ROUTER_SEGMENT_PREFETCH_HEADER : string := "next-router-segment-prefetch".
Definition RSC_ROUTER_STATE_TREE_HEADER : string := "next-router-state-tree".
Definition RSC_NEXT_URL_HEADER : string := "next-url".

(** undefined is None; a repeated header is an array. *)
Abbreviation RscHeaderValue := (option hvalue).

Definition normalizeRscPrefetchHeader (value : RscHeaderValue) : option string :=
  match value with
  | Some (HStr s) => if String.eqb s "1" || String.eqb s "2" || String.eqb s "3" then Some s else None
  | _ => None
  end.

Definition normalizeRscCacheBustingInput (value : RscHeaderValue) : string :=
  match value with
  | None => "0"
  | Some (HArr l) => CachePolicy.join_with "," l
  | Some (HStr s) => s
  end.

Definition absent {A} (value : option A) : bool := match value with None => true | Some _ => false end.

Definition rscCacheBustingInput (prefetch : option string) (segmentPrefetch stateTree nextUrl : RscHeaderValue)
    : option string :=
  if (match prefetch with None => true | Some p => String.eqb p "0" end)
     && absent segmentPrefetch && absent stateTree && absent nextUrl
  then None
  else Some (CachePolicy.join_with ","
         [default "0" prefetch; normalizeRscCacheBustingInput segmentPrefetch;
          normalizeRscCacheBustingInput stateTree; normalizeRscCacheBustingInput nextUrl]).

(** ** Encodings *)

Definition base64url_char (n : Z) : ascii :=
  ascii_of_nat (Z.to_nat
    (if n <? 26 then 65 + n else if n <? 52 then 71 + n else if n <? 62 then n - 4 else if n =? 62 then 45 else 95)).

(** toString(base64url): no padding. *)
Fixpoint base64url (b : bytes) : string :=
  match b with
  | x :: y :: z :: b' =>
      String (base64url_char (x / 4))
        (String (base64url_char (x mod 4 * 16 + y / 16))
           (String (base64url_char (y mod 16 * 4 + z / 64)) (String (base64url_char (z mod 64)) (base64url b'))))
  | [x; y] =>
      String (base64url_char (x / 4))
        (String (base64url_char (x mod 4 * 16 + y / 16)) (String (base64url_char (y mod 16 * 4)) EmptyString))
  | [x] => String (base64url_char (x / 4)) (String (base64url_char (x mod 4 * 16)) EmptyString)
  | [] => EmptyString
  end.

(** ToInt32 and ToUint32 of an integer. *)
Definition to_int32 (z : Z) : Z := (z + 2 ^ 31) mod 2 ^ 32 - 2 ^ 31.
Definition to_uint32 (z : Z) : Z := z mod 2 ^ 32.

(** a << n *)
Definition shift_left (a n : Z) : Z := to_int32 (Z.shiftl (to_int32 a) n).

(** The loop of the legacy hash; & 0xffffffff keeps the 32 bits of its left side. *)
Fixpoint hash_loop (hash : Z) (input : string) : Z :=
  match input with
  | EmptyString => hash
  | String c input => hash_loop (to_int32 (shift_left hash 5 + hash + Z.of_nat (code c))) input
  end.

Definition base36_char (n : Z) : ascii := ascii_of_nat (Z.to_nat (if n <? 10 then 48 + n else 87 + n)).

(** toString(36) of a natural number; seven digits hold 32 bits. *)
Fixpoint base36_digits (fuel : nat) (n : Z) (acc : string) : string :=
  match fuel with
  | O => acc
  | S fuel =>
      let acc := String (base36_char (n mod 36)) acc in
      if n <? 36 then acc else base36_digits fuel (n / 36) acc
  end.

Definition base36 (n : Z) : string := base36_digits 7 n "".

Definition computeLegacyRscCacheBustingParam (prefetch : option string)
    (segmentPrefetch stateTree nextUrl : RscHeaderValue) : string :=
  match rscCacheBustingInput prefetch segmentPrefetch stateTree nextUrl with
  | None => ""
  | Some input => take_string 5 (base36 (to_uint32 (hash_loop 5381 input)))
  end.

Section Digest.
Variable sha256 : bytes → bytes.

Definition computeRscCacheBustingParam (prefetch : option string)
    (segmentPrefetch stateTree nextUrl : RscHeaderValue) : string :=
  match rscCacheBustingInput prefetch segmentPrefetch stateTree nextUrl with
  | None => ""
  | Some input => base64url (take 12 (sha256 (utf8 input)))
  end.

(** ** The verdict *)

Record RscCacheBustingVerdict := mkVerdict { isRscRequest : bool; validated : bool; expected : string }.

(** [searchParams] are the parameters of the public URL, in their order. *)
Record RscArgs := mkArgs {
  header : string → outcome string RscHeaderValue;
  searchParams : list (string * string);
  rsc : option RscConfig;
}.

(** URLSearchParams.get *)
Definition search_get (params : list (string * string)) (name : string) : option string :=
  snd <$> head (filter (λ p, p.1 = name) params).

(** || undefined: an empty string is absent, an array is not. *)
Definition or_undefined (value : RscHeaderValue) : RscHeaderValue :=
  match value with Some (HStr s) => if is_empty s then None else value | _ => value end.

Definition rsc_name (args : RscArgs) : string :=
  to_lower (default RSC_REQUEST_HEADER (rsc args ≫= rsc_header)).

Definition segment_name (args : RscArgs) : string :=
  to_lower (default RSC_ROUTER_SEGMENT_PREFETCH_HEADER (rsc args ≫= rsc_prefetchSegmentHeader)).

Definition is_one (value : RscHeaderValue) : bool :=
  match value with Some (HStr s) => String.eqb s "1" | _ => false end.

Definition validateRscCacheBustingParam (args : RscArgs) : outcome string RscCacheBustingVerdict :=
  let! rscHeader := header args (rsc_name args) in
  if negb (is_one rscHeader) then Returns (mkVerdict false true "")
  else
    let! prefetch := header args RSC_ROUTER_PREFETCH_HEADER in
    let prefetch := normalizeRscPrefetchHeader prefetch in
    let! segmentPrefetch := header args (segment_name args) in
    let segmentPrefetch := or_undefined segmentPrefetch in
    let! stateTree := header args RSC_ROUTER_STATE_TREE_HEADER in
    let! nextUrl := header args RSC_NEXT_URL_HEADER in
    let expected := computeRscCacheBustingParam prefetch segmentPrefetch stateTree nextUrl in
    let actual := search_get (searchParams args) RSC_CACHE_BUSTING_QUERY in
    let validated := bool_decide (Some expected = actual) in
    let validated :=
      match actual with
      | Some actual =>
          validated || String.eqb (computeLegacyRscCacheBustingParam prefetch segmentPrefetch stateTree nextUrl) actual
      | None => validated
      end in
    Returns (mkVerdict true validated expected).

Definition rscCacheBustingUnvalidated (args : RscArgs) : bool :=
  match validateRscCacheBustingParam args with
  | Returns verdict => isRscRequest verdict && negb (validated verdict)
  | Throws _ => true
  end.

End Digest.

End RscBusting.
