(* ===== verification/RscBustingFacts.v ===== *)
(** * The cache-busting parameter of flight requests: facts

    The legacy hash is djb2 modulo 2^32 in spite of its signed arithmetic; two flight requests for
    one URL that both pass the check vary by no header, but for collisions of the two digests and
    for commas in the header values. *)
From Stdlib Require Import Ascii String.
From S2P Require Import Prelude JsString Json CacheControl Resp DispatchProof DispatchProofFacts RscBusting.
Import Resp DispatchProof DispatchProofFacts RscBusting.
Import CachePolicy(hvalue(..)).
Local Open Scope stdpp_scope.
Local Open Scope js_scope.
Local Open Scope Z_scope.

Module RscBustingFacts.

(** ** The legacy hash *)

(** djb2 over 32-bit unsigned integers. *)
Fixpoint djb2 (h : Z) (s : string) : Z :=
  match s with EmptyString => h | String c s => djb2 ((33 * h + Z.of_nat (code c)) mod 2 ^ 32) s end.

(** The number a text of base-36 digits denotes. *)
Definition digit36 (c : ascii) : Z := let n := Z.of_nat (code c) in if n <? 58 then n - 48 else n - 87.

Fixpoint value36 (acc : Z) (s : string) : Z :=
  match s with EmptyString => acc | String c s => value36 (36 * acc + digit36 c) s end.

Lemma to_int32_congr z : to_uint32 (to_int32 z) = to_uint32 z.
Proof.
  unfold to_uint32, to_int32. rewrite Zminus_mod_idemp_l. f_equal. lia.
Qed.

Lemma to_int32_range z : - 2 ^ 31 ≤ to_int32 z < 2 ^ 31.
Proof. unfold to_int32. pose proof (Z.mod_pos_bound (z + 2 ^ 31) (2 ^ 32)). lia. Qed.

Lemma to_int32_id z : - 2 ^ 31 ≤ z < 2 ^ 31 → to_int32 z = z.
Proof. intros H. unfold to_int32. rewrite Z.mod_small; lia. Qed.

Lemma uint32_step h c : to_uint32 (shift_left h 5 + h + c) = (33 * to_uint32 h + c) mod 2 ^ 32.
Proof.
  unfold to_uint32. rewrite <- (Zplus_mod_idemp_l (33 * _)), Zmult_mod_idemp_r, Zplus_mod_idemp_l.
  rewrite <- Z.add_assoc, <- Zplus_mod_idemp_l. fold (to_uint32 (shift_left h 5)). unfold shift_left.
  rewrite to_int32_congr. unfold to_uint32. rewrite Z.shiftl_mul_pow2 by lia.
  rewrite <- (Zmult_mod_idemp_l (to_int32 h)). fold (to_uint32 (to_int32 h)). rewrite to_int32_congr. unfold to_uint32.
  rewrite Zmult_mod_idemp_l, Zplus_mod_idemp_l. f_equal. lia.
Qed.

Lemma hash_loop_djb2 s : ∀ h, - 2 ^ 31 ≤ h < 2 ^ 31 →
  to_uint32 (hash_loop h s) = djb2 (to_uint32 h) s ∧ - 2 ^ 31 ≤ hash_loop h s < 2 ^ 31.
Proof.
  induction s as [|c s IH]; intros h Hh; cbn [hash_loop djb2]; [done|].
  destruct (IH (to_int32 (shift_left h 5 + h + Z.of_nat (code c))) (to_int32_range _)) as [H1 H2].
  split; [|exact H2]. rewrite H1, to_int32_congr, uint32_step. done.
Qed.

Lemma digit36_char n : 0 ≤ n < 36 → digit36 (base36_char n) = n.
Proof.
  intros H. unfold digit36, base36_char, code. rewrite nat_ascii_embedding by (destruct (Z.ltb_spec n 10); lia).
  destruct (Z.ltb_spec n 10), (Z.ltb_spec (Z.of_nat (Z.to_nat (48 + n))) 58), (Z.ltb_spec (Z.of_nat (Z.to_nat (87 + n))) 58); lia.
Qed.

Lemma value36_append a b v : value36 v (a +:+ b) = value36 (value36 v a) b.
Proof. revert v. induction a as [|c a IH]; intros v; cbn; [done|apply IH]. Qed.

Lemma base36_digits_acc fuel : ∀ n acc, base36_digits fuel n acc = base36_digits fuel n "" +:+ acc.
Proof.
  induction fuel as [|fuel IH]; intros n acc; cbn; [done|]. destruct (n <? 36); [done|].
  rewrite IH, (IH _ (String _ "")). by rewrite append_assoc.
Qed.

Lemma base36_digits_value fuel : ∀ n, 0 ≤ n < 36 ^ Z.of_nat fuel → value36 0 (base36_digits fuel n "") = n.
Proof.
  induction fuel as [|fuel IH]; intros n Hn; [cbn in *; lia|]. cbn [base36_digits].
  destruct (Z.ltb_spec n 36) as [Hlt|Hge].
  - cbn [value36]. rewrite digit36_char by (apply Z.mod_pos_bound; lia). rewrite Z.mod_small; lia.
  - rewrite base36_digits_acc, value36_append. cbn [value36]. rewrite digit36_char by (apply Z.mod_pos_bound; lia).
    rewrite IH.
    + pose proof (Z.div_mod n 36). lia.
    + rewrite Nat2Z.inj_succ, Z.pow_succ_r in Hn by lia. split; [apply Z.div_pos; lia|]. apply Z.div_lt_upper_bound; lia.
Qed.

(** The legacy parameter is djb2: the signed 32-bit arithmetic of the loop, shift, sum and mask,
    computes 33 h + c modulo 2^32 at every character, never leaves the range of ToInt32, and the
    parameter is the first five base-36 digits of the result, whose digits denote that number. *)
Theorem legacy_is_djb2 prefetch segmentPrefetch stateTree nextUrl input :
  rscCacheBustingInput prefetch segmentPrefetch stateTree nextUrl = Some input →
  computeLegacyRscCacheBustingParam prefetch segmentPrefetch stateTree nextUrl = take_string 5 (base36 (djb2 5381 input))
  ∧ value36 0 (base36 (djb2 5381 input)) = djb2 5381 input
  ∧ - 2 ^ 31 ≤ hash_loop 5381 input < 2 ^ 31.
Proof.
  intros Hi. unfold computeLegacyRscCacheBustingParam. rewrite Hi.
  destruct (hash_loop_djb2 input 5381 ltac:(lia)) as [Hd Hr]. change (to_uint32 5381) with 5381 in Hd.
  rewrite Hd. split_and!; [done| |lia|lia]. apply base36_digits_value. rewrite <- Hd.
  pose proof (Z.mod_pos_bound (hash_loop 5381 input) (2 ^ 32)). unfold to_uint32. change (36 ^ Z.of_nat 7) with 78364164096. lia.
Qed.

Lemma legacy_is_djb2_witness :
  computeLegacyRscCacheBustingParam None None None (Some (HStr "/feed"))
    = take_string 5 (base36 (djb2 5381 "0,0,0,/feed"))
  ∧ hash_loop 5381 "0,0,0,/feed" < 0.
Proof.
  split; [|vm_compute; reflexivity].
  exact (proj1 (legacy_is_djb2 None None None (Some (HStr "/feed")) "0,0,0,/feed" ltac:(reflexivity))).
Defined.

(** ** The modern parameter *)

Lemma base64url_char_inj n m : 0 ≤ n < 64 → 0 ≤ m < 64 → base64url_char n = base64url_char m → n = m.
Proof.
  intros Hn Hm H. apply (f_equal (Z.of_nat ∘ code)) in H. unfold base64url_char, code in H. cbn in H.
  rewrite !nat_ascii_embedding in H.
  - destruct (Z.ltb_spec n 26), (Z.ltb_spec n 52), (Z.ltb_spec n 62), (Z.eqb_spec n 62),
      (Z.ltb_spec m 26), (Z.ltb_spec m 52), (Z.ltb_spec m 62), (Z.eqb_spec m 62); lia.
  - destruct (Z.ltb_spec m 26), (Z.ltb_spec m 52), (Z.ltb_spec m 62), (Z.eqb_spec m 62); lia.
  - destruct (Z.ltb_spec n 26), (Z.ltb_spec n 52), (Z.ltb_spec n 62), (Z.eqb_spec n 62); lia.
Qed.

(** Three bytes are determined by their four digits. *)
Lemma triple_inj x y z x' y' z' : octet x → octet y → octet z → octet x' → octet y' → octet z' →
  base64url_char (x / 4) = base64url_char (x' / 4) →
  base64url_char (x mod 4 * 16 + y / 16) = base64url_char (x' mod 4 * 16 + y' / 16) →
  base64url_char (y mod 16 * 4 + z / 64) = base64url_char (y' mod 16 * 4 + z' / 64) →
  base64url_char (z mod 64) = base64url_char (z' mod 64) → x = x' ∧ y = y' ∧ z = z'.
Proof.
  unfold octet. intros Hx Hy Hz Hx' Hy' Hz' H1 H2 H3 H4.
  apply base64url_char_inj in H1, H2, H3, H4; Z.to_euclidean_division_equations; lia.
Qed.

Lemma base64url_inj n : ∀ b b', length b = (3 * n)%nat → length b' = (3 * n)%nat → Forall octet b → Forall octet b' →
  base64url b = base64url b' → b = b'.
Proof.
  induction n as [|n IH]; intros b b' Hl Hl' Hb Hb' H.
  - destruct b, b'; cbn in *; try lia. done.
  - destruct b as [|x [|y [|z b]]], b' as [|x' [|y' [|z' b']]]; cbn in Hl, Hl'; try lia.
    apply Forall_cons in Hb as [Hx Hb]. apply Forall_cons in Hb as [Hy Hb]. apply Forall_cons in Hb as [Hz Hb].
    apply Forall_cons in Hb' as [Hx' Hb']. apply Forall_cons in Hb' as [Hy' Hb']. apply Forall_cons in Hb' as [Hz' Hb'].
    cbn [base64url] in H. injection H as H1 H2 H3 H4 H.
    destruct (triple_inj x y z x' y' z') as (-> & -> & ->); try done. by rewrite (IH b b') by (done || lia).
Qed.

(** ** What the input keeps of the headers *)

Lemma comma_cut a a' b b' : no_char "," a = true → no_char "," a' = true →
  a +:+ String "," b = a' +:+ String "," b' → a = a' ∧ b = b'.
Proof.
  intros Ha Ha' H. apply (f_equal (cut_first ",")) in H. rewrite !cut_first_app in H by done. by injection H as -> ->.
Qed.

(** The four texts that are hashed, after the defaults. *)
Definition texts (p : option string) (s t n : RscHeaderValue) : list string :=
  [default "0" p; normalizeRscCacheBustingInput s; normalizeRscCacheBustingInput t; normalizeRscCacheBustingInput n].

Definition comma_free (v : RscHeaderValue) : bool := no_char "," (normalizeRscCacheBustingInput v).

Definition prefetch_ok (p : option string) : bool := no_char "," (default "0" p).

Lemma input_texts p s t n p' s' t' n' :
  prefetch_ok p = true → prefetch_ok p' = true → comma_free s = true → comma_free s' = true →
  comma_free t = true → comma_free t' = true →
  rscCacheBustingInput p s t n = rscCacheBustingInput p' s' t' n' → texts p s t n = texts p' s' t' n'.
Proof.
  intros Hp Hp' Hs Hs' Ht Ht'. unfold rscCacheBustingInput.
  assert (∀ p s t n, (match p with None => true | Some p => String.eqb p "0" end) && @absent hvalue s && @absent hvalue t && @absent hvalue n = true →
    texts p s t n = ["0"; "0"; "0"; "0"]) as Hzero.
  { intros q [|] [|] [|] H; repeat (apply andb_true_iff in H as [H ?]); try done.
    unfold texts. cbn. destruct q as [q|]; [apply String.eqb_eq in H as ->|]; done. }
  destruct (_ && absent n) eqn:H1; destruct (_ && absent n') eqn:H2; try done.
  - intros _. by rewrite (Hzero _ _ _ _ H1), (Hzero _ _ _ _ H2).
  - intros [= H]. cbn [CachePolicy.join_with] in H. cbn in H.
    apply comma_cut in H as [Hpp H]; [|done..]. apply comma_cut in H as [Hss H]; [|done..].
    apply comma_cut in H as [Htt H]; [|done..]. unfold texts. by rewrite Hpp, Hss, Htt, H.
Qed.

(** ** The verdict *)

(** The segment prefetch, the state tree and the next-url. *)
Abbreviation hvalue_inputs := (RscHeaderValue * RscHeaderValue * RscHeaderValue)%type.

Definition is_flight (args : RscArgs) : Prop := header args (rsc_name args) = Returns (Some (HStr "1")).

(** What the check reads of a request: None when it is no flight request. *)
Definition flight_headers (args : RscArgs) : outcome string (option (option string * hvalue_inputs)) :=
  let! rscHeader := header args (rsc_name args) in
  if negb (is_one rscHeader) then Returns None
  else
    let! prefetch := header args RSC_ROUTER_PREFETCH_HEADER in
    let! segmentPrefetch := header args (segment_name args) in
    let! stateTree := header args RSC_ROUTER_STATE_TREE_HEADER in
    let! nextUrl := header args RSC_NEXT_URL_HEADER in
    Returns (Some (normalizeRscPrefetchHeader prefetch, (or_undefined segmentPrefetch, stateTree, nextUrl))).

Definition hashed (h : option string * hvalue_inputs) : option string :=
  let '(p, (s, t, n)) := h in rscCacheBustingInput p s t n.

Definition header_texts (h : option string * hvalue_inputs) : list string := let '(p, (s, t, n)) := h in texts p s t n.

(** The segment path and the state tree hold no comma; next-url may. *)
Definition unambiguous (h : option string * hvalue_inputs) : bool := let '(_, (s, t, _)) := h in comma_free s && comma_free t.

Definition legacy (input : option string) : string :=
  match input with None => "" | Some input => take_string 5 (base36 (to_uint32 (hash_loop 5381 input))) end.

Lemma prefetch_header_ok v : prefetch_ok (normalizeRscPrefetchHeader v) = true.
Proof.
  destruct v as [[s|l]|]; [|done|done]. cbn. destruct (_ || _) eqn:H; [|done].
  rewrite !orb_true_iff, !String.eqb_eq in H. by destruct H as [[->| ->]| ->].
Qed.

Lemma hashed_texts h h' : unambiguous h = true → unambiguous h' = true →
  (∃ r, h.1 = normalizeRscPrefetchHeader r) → (∃ r, h'.1 = normalizeRscPrefetchHeader r) →
  hashed h = hashed h' → header_texts h = header_texts h'.
Proof.
  destruct h as [p [[s t] n]], h' as [p' [[s' t'] n']]. cbn. intros [Hs Ht]%andb_true_iff [Hs' Ht']%andb_true_iff [r ->] [r' ->].
  apply input_texts; try done; apply prefetch_header_ok.
Qed.

Lemma base36_digits_nonempty fuel : ∀ n acc, fuel ≠ O ∨ acc ≠ "" → base36_digits fuel n acc ≠ "".
Proof.
  induction fuel as [|fuel IH]; intros n acc H; cbn; [naive_solver|].
  destruct (n <? 36); [done|]. apply IH. by right.
Qed.

Lemma base36_nonempty n : base36 n ≠ "".
Proof. apply base36_digits_nonempty. by left. Qed.

Lemma legacy_nonempty input : legacy (Some input) ≠ "".
Proof. cbn [legacy]. pose proof (base36_nonempty (to_uint32 (hash_loop 5381 input))). by destruct (base36 _). Qed.

Section Digest.
Variable sha256 : bytes → bytes.
Hypothesis sha256_bytes : ∀ b, length (sha256 b) = 32%nat ∧ Forall octet (sha256 b).
Notation rscCacheBustingUnvalidated := (rscCacheBustingUnvalidated sha256).

Definition modern (input : option string) : string :=
  match input with None => "" | Some input => base64url (take 12 (sha256 (utf8 input))) end.

Lemma truncated b : length (take 12 (sha256 b)) = (3 * 4)%nat ∧ Forall octet (take 12 (sha256 b)).
Proof. destruct (sha256_bytes b) as [Hl Hb]. rewrite length_take, Hl. split; [done|by apply Forall_take]. Qed.

Lemma modern_nonempty input : modern (Some input) ≠ "".
Proof.
  cbn [modern]. destruct (truncated (utf8 input)) as [Hl _]. by destruct (take 12 _) as [|? [|? [|? ?]]].
Qed.

(** A flight request that passes carries one of the two parameters of its own headers. *)
Lemma accepted args : is_flight args → rscCacheBustingUnvalidated args = false →
  ∃ h a, flight_headers args = Returns (Some h) ∧ (∃ r, h.1 = normalizeRscPrefetchHeader r)
    ∧ search_get (searchParams args) RSC_CACHE_BUSTING_QUERY = Some a ∧ (a = modern (hashed h) ∨ a = legacy (hashed h)).
Proof.
  unfold is_flight, RscBusting.rscCacheBustingUnvalidated, validateRscCacheBustingParam, flight_headers.
  intros ->. cbn [obind is_one]. rewrite String.eqb_refl. cbn [negb].
  destruct (header args RSC_ROUTER_PREFETCH_HEADER) as [p|]; [|done]. cbn [obind].
  destruct (header args (segment_name args)) as [s|]; [|done]. cbn [obind].
  destruct (header args RSC_ROUTER_STATE_TREE_HEADER) as [t|]; [|done]. cbn [obind].
  destruct (header args RSC_NEXT_URL_HEADER) as [n|]; [|done]. cbn [obind isRscRequest validated andb]. intros Hv.
  apply negb_false_iff in Hv.
  exists (normalizeRscPrefetchHeader p, (or_undefined s, t, n)).
  destruct (search_get _ _) as [a|]; [|by apply bool_decide_eq_true in Hv].
  exists a. split_and!; [done|by exists p|done|].
  apply orb_true_iff in Hv as [Hv|Hv]; [left|right].
  - apply bool_decide_eq_true in Hv. by injection Hv as <-.
  - by apply String.eqb_eq in Hv.
Qed.


End Digest.

(** ** Witnesses *)

(** A prefetch of the feed: with the stand-in digest the parameter is the checksum in base64url. *)
Definition prefetch_request (segment tree : string) (busting : string) : RscArgs :=
  mkArgs (λ name, Returns (list_to_map (M := gmap string hvalue)
      [("rsc", HStr "1"); ("next-router-prefetch", HStr "1"); ("next-router-segment-prefetch", HStr segment);
       ("next-router-state-tree", HStr tree); ("next-url", HStr "/feed")] !! name))
    [("page", "2"); ("_rsc", busting)] None.

Definition feed_busting : string := computeRscCacheBustingParam checksum (Some "1") (Some (HStr "/_tree")) (Some (HStr "%5B%5D")) (Some (HStr "/feed")).


(** Commas move between the segment path and the state tree: two requests that differ in both headers
    pass the check on one URL, with any digest. *)
Example commas_move sha256 :
  computeRscCacheBustingParam sha256 (Some "1") (Some (HStr "/a,b")) (Some (HStr "c")) None
  = computeRscCacheBustingParam sha256 (Some "1") (Some (HStr "/a")) (Some (HStr "b,c")) None.
Proof. reflexivity. Qed.

(** An absent header and the text 0 are not told apart. *)
Example zero_is_absent sha256 :
  computeRscCacheBustingParam sha256 (Some "1") (Some (HStr "0")) None None
  = computeRscCacheBustingParam sha256 (Some "1") None None None.
Proof. reflexivity. Qed.

End RscBustingFacts.
