(* ===== verification/RouteOutputs.v ===== *)
(** * Outputs, pools and queries of a resolved route

    Models the path helpers of src/src/routing-common.ts: the base path and the added locale, the
    pool of a pathname, the output a completed resolution dispatches (the same function in both
    tiers), its flight variants and their parents, and the queries a rewrite hands to the handler.
    A record of strings is a list of members in insertion order; the reordering of integer-like keys
    and the key __proto__ are out of the model, the other members every object inherits are in it.
    decodeURIComponent is a parameter. *)
From Stdlib Require Import Ascii String.
From stdpp Require Import gmap strings.
From S2P Require Import Prelude JsString Json Regex CacheControl DispatchProof PlanFingerprint Matchers.
Import DispatchProof PlanFingerprint Matchers.
Local Open Scope stdpp_scope.
Local Open Scope js_scope.

Module RouteOutputs.

(** ** Texts *)

Definition ends_with (suffix s : string) : bool :=
  (String.length suffix <=? String.length s)
  && String.eqb (drop_string (String.length s - String.length suffix) s) suffix.

(** slice(0, -n) of a text of n characters at least. *)
Definition drop_last (n : nat) (s : string) : string := take_string (String.length s - n) s.

(** a || b on strings *)
Definition or_else (a b : string) : string := if is_empty a then b else a.

(** The text before the first occurrence of [sub]: indexOf and slice. *)
Fixpoint before_first (sub s : string) : option string :=
  if starts_with sub s then Some ""
  else match s with EmptyString => None | String c s' => String c <$> before_first sub s' end.

Definition includes (sub s : string) : bool := match before_first sub s with Some _ => true | None => false end.

(** ** Paths *)

Definition stripBasePath (pathname basePath : string) : string :=
  if is_empty basePath then pathname
  else if String.eqb pathname basePath then "/"
  else if starts_with (basePath +:+ "/") pathname then drop_string (String.length basePath) pathname
  else pathname.

Definition trailingSlashVariants (pathname : string) : list string :=
  if String.eqb pathname "/" then ["/"]
  else
    let withSlash := if ends_with "/" pathname then pathname else pathname +:+ "/" in
    let withoutSlash := if ends_with "/" pathname then drop_last 1 pathname else pathname in
    [pathname; withoutSlash; withSlash].

Definition stripAddedLocale (pathname : string) (addedLocale : option string) : string :=
  match given addedLocale with
  | None => pathname
  | Some locale =>
      let pfx := "/" +:+ locale in
      if String.eqb pathname pfx then "/"
      else if starts_with (pfx +:+ "/") pathname then drop_string (String.length pfx) pathname
      else pathname
  end.

(** path === prefix or below it *)
Definition at_or_below (locale path : string) : bool :=
  String.eqb path ("/" +:+ locale) || starts_with ("/" +:+ locale +:+ "/") path.

Definition localeAlignedRouteParamPathname (concretePathname handlerPathname : string) (i18nLocales : list string)
    : string :=
  match given (head (filter (λ l, at_or_below l concretePathname = true) i18nLocales)) with
  | None => concretePathname
  | Some locale =>
      if at_or_below locale handlerPathname then concretePathname
      else or_else (drop_string (String.length locale + 1) concretePathname) "/"
  end.

(** ** Templates *)

Definition OPTIONAL_CATCH_ALL : string := "^\[\[\.\.\..+\]\]$".
Definition CATCH_ALL : string := "^\[\.\.\..+\]$".
Definition DYNAMIC_SEGMENT : string := "^\[.+\]$".

(** .replace(/[.*+?^${}()|\]/g, the character after a backslash) *)
Fixpoint escape_literal (s : string) : string :=
  match s with
  | EmptyString => EmptyString
  | String c s' =>
      if includes_char c ".*+?^${}()|\" then String backslash (String c (escape_literal s')) else String c (escape_literal s')
  end.

(** The pattern of one segment; None for a template that names part of a segment. *)
Definition segment_pattern (seg : string) : option string :=
  if re_test OPTIONAL_CATCH_ALL seg then Some "(?:/.+)?"
  else if re_test CATCH_ALL seg then Some "/.+"
  else if re_test DYNAMIC_SEGMENT seg then Some "/[^/]+"
  else if includes_char "[" seg then None
  else Some ("/" +:+ escape_literal seg).

Fixpoint template_pattern (segs : list string) : option string :=
  match segs with
  | [] => Some ""
  | seg :: segs => p ← segment_pattern seg; rest ← template_pattern segs; Some (p +:+ rest)
  end.

Fixpoint count_brackets (s : string) : nat :=
  match s with EmptyString => 0 | String c s' => (if Ascii.eqb c "[" then 1 else 0) + count_brackets s' end.

Definition weight (id : string) : nat := count_brackets id + (if includes "..." id then 10 else 0).

Definition literalSegments (id : string) : nat :=
  length (filter (λ seg, is_empty seg = false ∧ includes_char "[" seg = false) (split_on "/" id)).

(** The comparator gives at most 0: the weight first, then the number of literal segments, most first. *)
Definition template_le (a b : string) : Prop :=
  weight a < weight b ∨ weight a = weight b ∧ literalSegments b ≤ literalSegments a.

#[export] Instance template_le_dec : RelDecision template_le.
Proof. intros a b. unfold template_le. apply _. Defined.

(** sort is stable: an element goes before the first one that it does not exceed. *)
Fixpoint insert_template (id : string) (l : list string) : list string :=
  match l with
  | [] => [id]
  | x :: l' => if decide (template_le id x) then id :: l else x :: insert_template id l'
  end.

Definition sort_templates (l : list string) : list string := foldr insert_template [] l.

Section Templates.
Context {regexp : Type} (new_RegExp : string → option regexp) (test : regexp → string → bool).
Variable decodeURIComponent : string → option string.

(** Whether one of the paths matches; None where new RegExp throws. *)
Definition template_matches (paths : list string) (id : string) : option bool :=
  if negb (includes_char "[" id) then Some false
  else match template_pattern (tail (split_on "/" id)) with
       | None => Some false
       | Some pattern => re ← new_RegExp ("^" +:+ pattern +:+ "/?$"); Some (existsb (test re) paths)
       end.

Fixpoint matching_templates (paths outputIds : list string) : option (list string) :=
  match outputIds with
  | [] => Some []
  | id :: ids => b ← template_matches paths id; l ← matching_templates paths ids; Some (if b : bool then id :: l else l)
  end.

Definition templateOutputCandidates (pathname : string) (outputIds : list string) : option (list string) :=
  let decoded := default pathname (decodeURIComponent pathname) in
  let paths := if String.eqb decoded pathname then [pathname] else [pathname; decoded] in
  sort_templates <$> matching_templates paths outputIds.

End Templates.

(** ** Pools and outputs *)

(** The members of poolAssignments. *)
Abbreviation Assignments := (list (string * string)).

(** poolAssignments[key], where it is truthy. *)
Definition assigned (poolAssignments : Assignments) (key : string) : option string := given (assoc poolAssignments key).

Definition is_assigned (poolAssignments : Assignments) (key : string) : bool :=
  match assigned poolAssignments key with Some _ => true | None => false end.

Definition first_assigned (poolAssignments : Assignments) (candidates : list string) : option string :=
  head (filter (λ c, is_assigned poolAssignments c = true) candidates).

(** The candidates without a locale prefix. *)
Definition locale_candidates (locales : list string) (c : string) : list string :=
  locales ≫= λ locale,
    let prefix := "/" +:+ locale in
    if starts_with (prefix +:+ "/") c || String.eqb c prefix
    then trailingSlashVariants (or_else (drop_string (String.length prefix) c) "/") else [].

Definition pool_candidates (resolvedPathname : option string) (matchedPathname : string)
    (i18nLocales : option (list string)) : list string :=
  let candidates :=
    match given resolvedPathname with Some p => trailingSlashVariants p | None => [] end
    ++ trailingSlashVariants matchedPathname in
  candidates ++ (candidates ≫= locale_candidates (default [] i18nLocales)).

Definition lookupPool (poolAssignments : Assignments) (resolvedPathname : option string) (matchedPathname : string)
    (i18nLocales : option (list string)) : option string :=
  match omap (assigned poolAssignments) (pool_candidates resolvedPathname matchedPathname i18nLocales) with
  | pool :: _ => Some pool
  | [] =>
      match assoc poolAssignments "default" with
      | Some pool => Some pool
      | None => snd <$> head poolAssignments
      end
  end.

Definition normalizeMatchedPathname (pathname : string) (poolAssignments : Assignments) : string :=
  if is_assigned poolAssignments pathname then pathname
  else
    match first_assigned poolAssignments (trailingSlashVariants pathname) with
    | Some v => v
    | None => if String.eqb pathname "/" && is_assigned poolAssignments "/index" then "/index" else pathname
    end.

Section Outputs.
Variable decodeURIComponent : string → option string.

Definition concrete_candidates (requestPathname : string) : list string :=
  trailingSlashVariants requestPathname
  ++ match decodeURIComponent requestPathname with
     | Some decoded => if String.eqb decoded requestPathname then [] else trailingSlashVariants decoded
     | None => []
     end.

Definition preferConcreteOutput (requestPathname resolvedPathname : string) (poolAssignments : Assignments)
    : option string :=
  if is_assigned poolAssignments resolvedPathname && negb (includes_char "[" resolvedPathname) then None
  else
    head (filter (λ c, c ≠ resolvedPathname ∧ is_assigned poolAssignments c = true)
            (js_set (concrete_candidates requestPathname))).

Record OutputArgs := mkOutputArgs {
  requestPathname : string;
  resolvedPathname : option string;
  invocationTargetPathname : option string;
  poolAssignments : Assignments;
}.

Definition resolveOutputPathname (args : OutputArgs) : string :=
  let matchedPathname := default (requestPathname args) (invocationTargetPathname args) in
  let base := normalizeMatchedPathname (default matchedPathname (resolvedPathname args)) (poolAssignments args) in
  match preferConcreteOutput matchedPathname base (poolAssignments args) with
  | Some output => output
  | None =>
      if negb (String.eqb matchedPathname (requestPathname args)) then base
      else default base (preferConcreteOutput (requestPathname args) base (poolAssignments args))
  end.

End Outputs.

(** ** Flight outputs *)

Record RscOutputConfig := mkRscOutput {
  ro_header : string;
  ro_suffix : string;
  ro_prefetchSegmentHeader : option string;
  ro_prefetchSegmentDirSuffix : option string;
  ro_prefetchSegmentSuffix : option string;
}.

Definition parents_of (base : string) : list string := if String.eqb base "/index" then ["/"; base] else [base].

Definition rscParentCandidates (pathname : string) (rsc : option RscOutputConfig) : list string :=
  match rsc with
  | None => []
  | Some rsc =>
      match given (ro_prefetchSegmentDirSuffix rsc) ≫= λ dir, before_first (dir +:+ "/") pathname with
      | Some before => parents_of (or_else before "/")
      | None =>
          if negb (is_empty (ro_suffix rsc)) && ends_with (ro_suffix rsc) pathname
          then parents_of (or_else (drop_last (String.length (ro_suffix rsc)) pathname) "/") else []
      end
  end.

Definition isRscRequest (headers : Headers) (rscConfig : option RscOutputConfig) : outcome string bool :=
  match rscConfig with
  | None => Returns false
  | Some rsc => let! v := headers_get headers (ro_header rsc) in Returns (bool_decide (v = Some "1"))
  end.

(** .replace(/^\/+/, empty) *)
Fixpoint drop_slashes (s : string) : string :=
  match s with String c s' => if Ascii.eqb c "/" then drop_slashes s' else s | EmptyString => EmptyString end.

Definition segment_candidate (basePath : string) (rsc : RscOutputConfig) (segmentPrefetch : string) : string :=
  basePath +:+ default "" (ro_prefetchSegmentDirSuffix rsc) +:+ "/" +:+ drop_slashes segmentPrefetch
  +:+ default "" (ro_prefetchSegmentSuffix rsc).

Definition resolveRscOutput (matchedPathname : string) (headers : Headers) (rscConfig : option RscOutputConfig)
    (poolAssignments : Assignments) : outcome string string :=
  let! is_rsc := isRscRequest headers rscConfig in
  match rscConfig, is_rsc with
  | Some rsc, true =>
      let basePath := if String.eqb matchedPathname "/" then "/index" else matchedPathname in
      let! segmentPrefetch := match given (ro_prefetchSegmentHeader rsc) with
                              | Some name => headers_get headers name
                              | None => Returns None
                              end in
      let segment := segment_candidate basePath rsc <$> given segmentPrefetch in
      let rscCandidate := basePath +:+ ro_suffix rsc in
      Returns (match segment with
               | Some c => if is_assigned poolAssignments c then c
                           else if is_assigned poolAssignments rscCandidate then rscCandidate else matchedPathname
               | None => if is_assigned poolAssignments rscCandidate then rscCandidate else matchedPathname
               end)
  | _, _ => Returns matchedPathname
  end.

(** ** Queries *)

(** The elements of a query array: texts, and the function an object inherits under a name. *)
Inductive QueryItem := Text (s : string) | Inherited (name : string).
Inductive QueryValue := QOne (s : string) | QMany (l : list QueryItem).
Abbreviation Query := (list (string * QueryValue)).

(** The functions of Object.prototype by name, with the name in the text of the function. *)
Definition OBJECT_PROTOTYPE : list (string * string) :=
  [("constructor", "Object"); ("__defineGetter__", "__defineGetter__"); ("__defineSetter__", "__defineSetter__");
   ("hasOwnProperty", "hasOwnProperty"); ("__lookupGetter__", "__lookupGetter__");
   ("__lookupSetter__", "__lookupSetter__"); ("isPrototypeOf", "isPrototypeOf");
   ("propertyIsEnumerable", "propertyIsEnumerable"); ("toString", "toString"); ("valueOf", "valueOf");
   ("toLocaleString", "toLocaleString")].

Definition inherited (key : string) : bool := match assoc OBJECT_PROTOTYPE key with Some _ => true | None => false end.

(** query[key] = value *)
Fixpoint set_member {A} (l : list (string * A)) (key : string) (value : A) : list (string * A) :=
  match l with
  | [] => [(key, value)]
  | (k, v) :: l => if String.eqb k key then (k, value) :: l else (k, v) :: set_member l key value
  end.

(** One parameter: query[key] reads an own member or an inherited one. *)
Definition add_parameter (query : Query) (p : string * string) : Query :=
  let '(key, value) := p in
  set_member query key
    (match assoc query key with
     | Some (QMany l) => QMany (l ++ [Text value])
     | Some (QOne previous) => QMany [Text previous; Text value]
     | None => if inherited key then QMany [Inherited key; Text value] else QOne value
     end).

Definition queryFromUrl (searchParams : list (string * string)) : Query := foldl add_parameter [] searchParams.

(** String(v) *)
Definition item_text (i : QueryItem) : string :=
  match i with
  | Text s => s
  | Inherited name => "function " +:+ default "" (assoc OBJECT_PROTOTYPE name) +:+ "() { [native code] }"
  end.

(** The parameters appended by buildQueryString, before URLSearchParams serializes them. *)
Definition query_parameters (query : Query) : list (string * string) :=
  query ≫= λ m, match m.2 with QOne v => [(m.1, v)] | QMany l => map (λ i, (m.1, item_text i)) l end.

Section Serialized.
(** URLSearchParams.prototype.toString *)
Variable serialize : list (string * string) → string.

Definition buildQueryString (query : option Query) : string :=
  match query with
  | None => ""
  | Some query => let s := serialize (query_parameters query) in if is_empty s then "" else "?" +:+ s
  end.

End Serialized.

(** /^\$nxtP/.test(v), on the text of an element. *)
Definition is_sentinel (s : string) : bool := starts_with "$nxtP" s.

Definition values_of (v : QueryValue) : list string :=
  match v with QOne s => [s] | QMany l => map item_text l end.

Definition filterInternalQuery (query : option Query) : option Query :=
  (λ q, foldl (λ out m,
     let '(k, v) := m in
     if starts_with "nxtP" k || String.eqb k "_rsc" then out
     else if existsb is_sentinel (values_of v) then out
     else set_member out k v) [] q) <$> query.

Definition mergeInvocationQuery (resolvedQuery targetQuery : option Query) : option Query :=
  match resolvedQuery, targetQuery with
  | None, None => None
  | _, _ => filterInternalQuery (Some (foldl (λ out m, set_member out m.1 m.2) (default [] resolvedQuery) (default [] targetQuery)))
  end.

(** The values that are sentinels disappear with every alias. *)
Definition sanitizeRouteMatches (matches : option (list (string * string))) : option (list (string * string)) :=
  match matches with
  | None => None
  | Some ms =>
      let unresolved := filter (λ v, is_sentinel v = true) (map snd ms) in
      match unresolved with
      | [] => Some ms
      | _ => match filter (λ m, m.2 ∉ unresolved) ms with [] => None | sanitized => Some sanitized end
      end
  end.

End RouteOutputs.
