(* ===== verification/RouteOutputsFacts.v ===== *)
(** * Outputs, pools and queries of a resolved route: facts

    A rewrite is never undone by the public path and a template never shadows a concrete output; the
    parent of a flight output is found again; a query keeps the parameters of its URL, but for the
    names every object inherits. *)
From Stdlib Require Import Ascii String Sorted.
From stdpp Require Import gmap strings.
From S2P Require Import Prelude JsString Json Regex CacheControl DispatchProof PlanFingerprint Matchers RouteOutputs.
Import DispatchProof PlanFingerprint Matchers RouteOutputs.
Local Open Scope stdpp_scope.
Local Open Scope js_scope.

Module RouteOutputsFacts.

(** ** Outputs *)

Lemma head_filter {A} (P : A → Prop) `{∀ x, Decision (P x)} l :
  match head (filter P l) with Some x => x ∈ l ∧ P x | None => ∀ x, x ∈ l → ¬ P x end.
Proof.
  destruct (filter P l) as [|x l'] eqn:Hf; cbn.
  - intros x Hx Hp. assert (x ∈ filter P l) as Hin by by apply list_elem_of_filter. rewrite Hf in Hin.
    by apply not_elem_of_nil in Hin.
  - assert (x ∈ filter P l) as Hin by (rewrite Hf; left). apply list_elem_of_filter in Hin. tauto.
Qed.

Section Outputs.
Variable decodeURIComponent : string → option string.
Notation preferConcreteOutput := (preferConcreteOutput decodeURIComponent).
Notation concrete_candidates := (concrete_candidates decodeURIComponent).
Notation resolveOutputPathname := (resolveOutputPathname decodeURIComponent).

Lemma prefer_spec request base pa :
  match preferConcreteOutput request base pa with
  | Some c => c ∈ concrete_candidates request ∧ c ≠ base ∧ is_assigned pa c = true
  | None => is_assigned pa base = true ∧ includes_char "[" base = false
            ∨ ∀ c, c ∈ concrete_candidates request → c ≠ base → is_assigned pa c = false
  end.
Proof.
  unfold RouteOutputs.preferConcreteOutput. destruct (is_assigned pa base && _) eqn:Hb.
  - apply andb_true_iff in Hb as [Hb Hi]. apply negb_true_iff in Hi. by left.
  - pose proof (head_filter (λ c, c ≠ base ∧ is_assigned pa c = true) (js_set (concrete_candidates request))) as H.
    destruct (head _) as [c|].
    + destruct H as (Hc & Hne & Ha). by rewrite js_set_elem in Hc.
    + right. intros c Hc Hne. destruct (is_assigned pa c) eqn:Ha; [|done].
      destruct (H c); [by apply js_set_elem|done].
Qed.

Definition target_of (args : OutputArgs) : string := default (requestPathname args) (invocationTargetPathname args).

Lemma resolve_spec args : let out := resolveOutputPathname args in
  out ∈ concrete_candidates (target_of args) ∧ is_assigned (poolAssignments args) out = true
  ∨ is_assigned (poolAssignments args) out = true ∧ includes_char "[" out = false
  ∨ ∀ c, c ∈ concrete_candidates (target_of args) → c ≠ out → is_assigned (poolAssignments args) c = false.
Proof.
  unfold RouteOutputs.resolveOutputPathname. fold (target_of args). set (base := normalizeMatchedPathname _ _).
  pose proof (prefer_spec (target_of args) base (poolAssignments args)) as H.
  destruct (preferConcreteOutput (target_of args) base (poolAssignments args)) as [c|] eqn:Hc; [left; tauto|].
  right. destruct (String.eqb_spec (target_of args) (requestPathname args)) as [<-|Hne]; cbn [negb]; [|exact H].
  rewrite Hc. exact H.
Qed.

(** C32. The output of a completed resolution.  First: when the request was rewritten, the public path
    has no say, so no other public path than the target itself would give another output.  Second: the
    output is one that is assigned, unless no spelling of the target path is.  Third: a template that
    is no spelling of the target path is dispatched only when no spelling is assigned, so it never
    shadows a concrete output. *)
Theorem output_resolution args :
  let out := resolveOutputPathname args in
  (∀ target request', invocationTargetPathname args = Some target → requestPathname args ≠ target → request' ≠ target →
     resolveOutputPathname (mkOutputArgs request' (resolvedPathname args) (Some target) (poolAssignments args)) = out)
  ∧ (is_assigned (poolAssignments args) out = true
     ∨ ∀ c, c ∈ concrete_candidates (target_of args) → is_assigned (poolAssignments args) c = false)
  ∧ (includes_char "[" out = true → out ∉ concrete_candidates (target_of args) →
     ∀ c, c ∈ concrete_candidates (target_of args) → is_assigned (poolAssignments args) c = false).
Proof.
  intros out. pose proof (resolve_spec args) as H. cbv zeta in H. fold out in H. split_and!.
  - intros target request' Ht Hne Hne'. unfold out, RouteOutputs.resolveOutputPathname. cbn.
    rewrite Ht. cbn [default id]. rewrite !(proj2 (String.eqb_neq _ _)) by done. done.
  - destruct H as [[_ H]|[[H _]|H]]; [by left|by left|].
    destruct (is_assigned (poolAssignments args) out) eqn:Ha; [by left|]. right. intros c Hc.
    destruct (decide (c = out)) as [->|Hne]; [done|by apply H].
  - intros Hi Hni c Hc. destruct H as [[H _]|[[_ H]|H]]; [done|congruence|]. apply H; [done|]. by intros ->.
Qed.

End Outputs.

(** ** Templates *)

Lemma template_le_total a b : template_le a b ∨ template_le b a.
Proof. unfold template_le. lia. Qed.

Lemma template_le_trans a b c : template_le a b → template_le b c → template_le a c.
Proof. unfold template_le. lia. Qed.

Lemma insert_template_perm id l : insert_template id l ≡ₚ id :: l.
Proof.
  induction l as [|x l IH]; cbn; [done|]. case_decide; [done|]. rewrite IH. apply Permutation_swap.
Qed.

Lemma insert_template_sorted id l : StronglySorted template_le l → StronglySorted template_le (insert_template id l).
Proof.
  induction 1 as [|x l Hs IH Hx]; cbn; [repeat constructor|]. case_decide as Hle.
  - constructor; [by constructor|]. constructor; [done|]. eapply Forall_impl; [exact Hx|].
    intros y Hy. by eapply template_le_trans.
  - constructor; [done|]. rewrite insert_template_perm. constructor; [|done].
    by destruct (template_le_total id x).
Qed.

(** The candidates are the templates that match, the most specific first. *)
Lemma candidates_sorted {regexp} (new_RegExp : string → option regexp) test decode pathname ids l :
  templateOutputCandidates new_RegExp test decode pathname ids = Some l →
  StronglySorted template_le l
  ∧ ∃ m, matching_templates new_RegExp test
           (let decoded := default pathname (decode pathname) in
            if String.eqb decoded pathname then [pathname] else [pathname; decoded]) ids = Some m ∧ l ≡ₚ m.
Proof.
  unfold templateOutputCandidates. intros (m & Hm & ->)%fmap_Some. split.
  - clear Hm. unfold sort_templates. induction m as [|x m IH]; cbn; [constructor|]. by apply insert_template_sorted.
  - exists m. split; [exact Hm|]. clear Hm. unfold sort_templates. induction m as [|x m IH]; cbn; [done|].
    by rewrite insert_template_perm, IH.
Qed.

Example locale_template_first :
  templateOutputCandidates compile rmatch (λ s, Some s) "/en-US" ["/[[...slug]]"; "/en-US/[[...slug]]"; "/about"]
  = Some ["/en-US/[[...slug]]"; "/[[...slug]]"].
Proof. vm_compute. reflexivity. Qed.

(** ** Pools *)

(** The pool is the one of the first candidate that is assigned, then the default, then the first;
    there is one as soon as anything is assigned. *)
Lemma lookupPool_total pa resolved matched locales : pa ≠ [] → is_Some (lookupPool pa resolved matched locales).
Proof.
  intros H. unfold lookupPool. destruct (omap _ _); [|done]. destruct (assoc pa "default"); [done|].
  destruct pa; [done|]. by eexists.
Qed.

(** ** Flight outputs *)

Lemma starts_with_append a b : starts_with a (a +:+ b) = true.
Proof. induction a as [|c a IH]; cbn; [done|]. by rewrite Ascii.eqb_refl. Qed.

Lemma before_first_append sub a b : sub ≠ "" → before_first sub (a +:+ sub) = Some a →
  before_first sub (a +:+ (sub +:+ b)) = Some a.
Proof.
  intros Hs. induction a as [|c a IH]; intros H.
  - cbn [String.append]. destruct sub as [|d sub]; [done|]. cbn [before_first String.append].
    change (String d (sub +:+ b)) with (String d sub +:+ b). by rewrite starts_with_append.
  - cbn [String.append before_first] in *.
    destruct (starts_with sub (String c (a +:+ sub))) eqn:H1; [by injection H|].
    destruct (before_first sub (a +:+ sub)) as [x|] eqn:Hx; cbn in H; [|done]. injection H as ->.
    assert (starts_with sub (String c (a +:+ (sub +:+ b))) = false) as ->; [|by rewrite (IH eq_refl)].
    rewrite <- append_assoc. change (String c ((a +:+ sub) +:+ b)) with (String c (a +:+ sub) +:+ b).
    assert (∀ p s b, String.length p ≤ String.length s → starts_with p (s +:+ b) = starts_with p s) as Hpre.
    { clear. induction p as [|x p IH]; intros [|y s] b Hl; cbn in *; try done; [lia|]. by rewrite IH by lia. }
    rewrite Hpre; [done|]. cbn. rewrite length_append. lia.
Qed.

Lemma ends_with_append a b : ends_with b (a +:+ b) = true.
Proof.
  unfold ends_with. rewrite length_append. rewrite (proj2 (Nat.leb_le _ _)) by lia.
  replace (String.length a + String.length b - String.length b) with (String.length a) by lia.
  rewrite drop_string_append. apply String.eqb_refl.
Qed.

Lemma drop_last_append a b : drop_last (String.length b) (a +:+ b) = a.
Proof.
  unfold drop_last. rewrite length_append.
  replace (String.length a + String.length b - String.length b) with (String.length a) by lia. apply take_string_append.
Qed.

(** The page an output belongs to, as resolveRscOutput spells it. *)
Definition page_base (page : string) : string := if String.eqb page "/" then "/index" else page.

Lemma page_in_parents page : page ≠ "" → page ∈ parents_of (or_else (page_base page) "/").
Proof.
  intros Hne. unfold parents_of, or_else, page_base. destruct (String.eqb_spec page "/") as [->|H]; cbn; [left|].
  destruct page as [|c page]; [done|]. cbn [is_empty]. destruct (String.eqb _ "/index"); [right; left|left].
Qed.

(** rscParentCandidates inverts resolveRscOutput: whatever flight or segment output a page is
    resolved to, the page is among the parents of that output, where the build's suffixes are not
    empty and the page's own path does not hold the segments directory. *)
Theorem rsc_parent_found page headers rsc dir pa out :
  resolveRscOutput page headers (Some rsc) pa = Returns out → out ≠ page → page ≠ "" →
  ro_prefetchSegmentDirSuffix rsc = Some dir → dir ≠ "" → ro_suffix rsc ≠ "" →
  before_first (dir +:+ "/") (page_base page +:+ (dir +:+ "/")) = Some (page_base page) →
  before_first (dir +:+ "/") (page_base page +:+ ro_suffix rsc) = None →
  page ∈ rscParentCandidates out (Some rsc).
Proof.
  intros Hr Hne Hp Hdir Hd Hs Hfirst Hnone. unfold resolveRscOutput in Hr. fold (page_base page) in Hr.
  destruct (isRscRequest headers (Some rsc)) as [[]|]; cbn [obind] in Hr; [|congruence|done].
  destruct (match given _ with Some name => _ | None => _ end) as [segmentPrefetch|]; cbn [obind] in Hr; [|done].
  assert (page ∈ rscParentCandidates (page_base page +:+ ro_suffix rsc) (Some rsc)) as Hflight.
  { unfold rscParentCandidates. rewrite Hdir. cbn [given mbind option_bind]. destruct dir as [|d dir]; [done|].
    cbn [is_empty]. cbn [mbind option_bind]. rewrite Hnone. destruct (ro_suffix rsc) as [|x s] eqn:Hsuf; [done|].
    cbn [is_empty negb andb]. rewrite ends_with_append, drop_last_append. by apply page_in_parents. }
  assert (∀ seg, page ∈ rscParentCandidates (segment_candidate (page_base page) rsc seg) (Some rsc)) as Hsegment.
  { intros seg. unfold rscParentCandidates, segment_candidate. rewrite Hdir. destruct dir as [|d dir]; [done|].
    cbn [given mbind option_bind is_empty default id].
    rewrite <- (append_assoc (String d dir) "/"). rewrite before_first_append by done. by apply page_in_parents. }
  injection Hr as Hr. destruct (given segmentPrefetch) as [seg|]; cbn [fmap option_fmap option_map] in Hr.
  - destruct (is_assigned pa (segment_candidate _ _ _)); [by subst|]. destruct (is_assigned pa _); [by subst|congruence].
  - destruct (is_assigned pa _); [by subst|congruence].
Qed.

(** ** Queries *)

Definition get_all (params : list (string * string)) (key : string) : list string := (filter (λ p, p.1 = key) params).*2.

(** The texts of one member. *)
Definition member_texts (query : Query) (key : string) : list string :=
  match assoc query key with Some v => values_of v | None => [] end.

Lemma assoc_set_member {A} (l : list (string * A)) k k' v :
  assoc (set_member l k v) k' = if String.eqb k k' then Some v else assoc l k'.
Proof.
  induction l as [|[x w] l IH]; cbn; [done|]. destruct (String.eqb_spec x k) as [->|Hx]; cbn.
  - by destruct (String.eqb k k').
  - rewrite IH. destruct (String.eqb_spec x k') as [->|]; [|done]. by destruct (String.eqb_spec k k').
Qed.

Lemma set_member_keys {A} (l : list (string * A)) k v :
  (set_member l k v).*1 = if bool_decide (k ∈ l.*1) then l.*1 else l.*1 ++ [k].
Proof.
  induction l as [|[x w] l IH]; cbn; [by rewrite bool_decide_eq_false_2 by apply not_elem_of_nil|].
  destruct (String.eqb_spec x k) as [->|Hx]; cbn.
  - by rewrite bool_decide_eq_true_2 by left.
  - rewrite IH. case_bool_decide as H1; case_bool_decide as H2; try done.
    + destruct H2. by right.
    + apply elem_of_cons in H2 as [->|]; done.
Qed.

Lemma set_member_NoDup {A} (l : list (string * A)) k v : NoDup l.*1 → NoDup (set_member l k v).*1.
Proof.
  rewrite set_member_keys. intros H. case_bool_decide as Hk; [done|]. apply NoDup_app.
  split_and!; [done| |apply NoDup_singleton]. by intros x Hx ->%list_elem_of_singleton.
Qed.

Lemma get_all_app a b key : get_all (a ++ b) key = get_all a key ++ get_all b key.
Proof. unfold get_all. by rewrite filter_app, fmap_app. Qed.

Lemma get_all_cons k v params key : get_all ((k, v) :: params) key = (if String.eqb k key then [v] else []) ++ get_all params key.
Proof.
  unfold get_all. rewrite filter_cons. cbn.
  destruct (String.eqb_spec k key) as [->|]; [by rewrite decide_True|by rewrite decide_False].
Qed.

Lemma get_all_member k v key :
  get_all (match v with QOne v => [(k, v)] | QMany l => map (λ i, (k, item_text i)) l end) key
  = if String.eqb k key then values_of v else [].
Proof.
  destruct v as [s|l]; [rewrite get_all_cons; cbn; by destruct (String.eqb k key)|].
  induction l as [|i l IH]; cbn [map]; [by destruct (String.eqb k key)|].
  rewrite get_all_cons, IH. by destruct (String.eqb k key).
Qed.

Lemma query_parameters_cons k v q : query_parameters ((k, v) :: q)
  = match v with QOne v => [(k, v)] | QMany l => map (λ i, (k, item_text i)) l end ++ query_parameters q.
Proof. done. Qed.

Lemma get_all_absent query key : key ∉ query.*1 → get_all (query_parameters query) key = [].
Proof.
  induction query as [|[k v] q IH]; [done|]. rewrite fmap_cons, not_elem_of_cons. intros [Hne Hk].
  rewrite query_parameters_cons, get_all_app, get_all_member, (proj2 (String.eqb_neq k key)) by (intros ->; by apply Hne). by apply IH.
Qed.

Lemma get_all_texts query key : NoDup query.*1 → get_all (query_parameters query) key = member_texts query key.
Proof.
  unfold member_texts. induction query as [|[k v] q IH]; intros Hn; [done|]. apply NoDup_cons in Hn as [Hk Hn].
  rewrite query_parameters_cons, get_all_app, get_all_member. cbn [assoc]. destruct (String.eqb_spec k key) as [->|Hne]; [|by apply IH].
  rewrite get_all_absent by done. apply app_nil_r.
Qed.

(** What the members of a query become when a parameter is added. *)
Lemma add_parameter_texts query k v key :
  member_texts (add_parameter query (k, v)) key
  = if String.eqb k key
    then match assoc query k with
         | Some _ => member_texts query k ++ [v]
         | None => (if inherited k then [item_text (Inherited k)] else []) ++ [v]
         end
    else member_texts query key.
Proof.
  unfold member_texts, add_parameter. rewrite assoc_set_member. destruct (String.eqb_spec k key) as [->|]; [|done].
  destruct (assoc query key) as [[s|l]|]; [done| |by destruct (inherited key)]. cbn. by rewrite map_app.
Qed.

(** A query keeps the parameters of its URL: for every key, the parameters that buildQueryString
    serializes are those of the URL, repeated or not, in their order; except that a key every object
    inherits gets the text of the inherited function before its own values. *)
Theorem query_keeps_parameters params key :
  get_all (query_parameters (queryFromUrl params)) key
  = (if inherited key && bool_decide (key ∈ params.*1) then [item_text (Inherited key)] else []) ++ get_all params key.
Proof.
  assert (∀ q, NoDup q.*1 → NoDup (foldl add_parameter q params).*1) as Hnd.
  { induction params as [|[k v] params IH]; intros q Hq; cbn; [done|]. apply IH. by apply set_member_NoDup. }
  rewrite get_all_texts by (apply Hnd; apply NoDup_nil_2). clear Hnd. unfold queryFromUrl.
  assert (∀ q, member_texts (foldl add_parameter q params) key
    = match assoc q key with
      | Some v => values_of v ++ get_all params key
      | None => (if inherited key && bool_decide (key ∈ params.*1) then [item_text (Inherited key)] else []) ++ get_all params key
      end) as H; [|by rewrite H].
  induction params as [|[k v] params IH]; intros q.
  - cbn. unfold member_texts. destruct (assoc q key); [by rewrite app_nil_r|]. rewrite bool_decide_eq_false_2 by apply not_elem_of_nil.
    by rewrite andb_false_r.
  - cbn [foldl]. rewrite IH. pose proof (add_parameter_texts q k v key) as Ht. unfold member_texts in Ht.
    rewrite get_all_cons.
    assert (bool_decide (key ∈ ((k, v) :: params).*1) = String.eqb k key || bool_decide (key ∈ params.*1)) as ->.
    { cbn. destruct (String.eqb_spec k key) as [->|Hne]; cbn; [by rewrite bool_decide_eq_true_2 by left|].
      apply bool_decide_ext. rewrite elem_of_cons. naive_solver. }
    unfold add_parameter in *. rewrite assoc_set_member in *. destruct (String.eqb_spec k key) as [->|Hne]; cbn [orb app].
    + rewrite Ht. rewrite andb_true_r. destruct (assoc q key) as [w|]; by rewrite <- app_assoc.
    + done.
Qed.

(** A rewritten request with the parameter constructor hands the handler the text of a function. *)
Example constructor_parameter :
  get_all (query_parameters (queryFromUrl [("constructor", "1")])) "constructor" = ["function Object() { [native code] }"; "1"].
Proof. reflexivity. Qed.

(** ** Witnesses *)

Definition shop_outputs : list (string * string) := [("/cart", "shop"); ("/[slug]", "default"); ("/gssp", "pages"); ("/gssp.rsc", "pages")].

Lemma output_resolution_witness :
  let args := mkOutputArgs "/rewrite-1" (Some "/[slug]") (Some "/gssp") shop_outputs in
  resolveOutputPathname (λ s, Some s) args = "/gssp"
  ∧ resolveOutputPathname (λ s, Some s) (mkOutputArgs "/cart" (Some "/[slug]") (Some "/gssp") shop_outputs)
    = resolveOutputPathname (λ s, Some s) args.
Proof.
  split; [reflexivity|].
  by apply (output_resolution (λ s, Some s) (mkOutputArgs "/rewrite-1" (Some "/[slug]") (Some "/gssp") shop_outputs)).
Defined.

Definition shop_rsc : RscOutputConfig :=
  mkRscOutput "rsc" ".rsc" (Some "next-router-segment-prefetch") (Some ".segments") (Some ".segment.rsc").

Lemma rsc_parent_found_witness : "/gssp" ∈ rscParentCandidates "/gssp.rsc" (Some shop_rsc).
Proof.
  apply (rsc_parent_found "/gssp" (list_to_map [("rsc", "1")]) shop_rsc ".segments" shop_outputs "/gssp.rsc"); try done;
    vm_compute; reflexivity.
Defined.

End RouteOutputsFacts.
