(* ===== verification/SharedCache.v ===== *)
(** * The shared cache

    What the two cache handlers of src/src/pool-server/valkey-cache share: the tag budget and the build
    id of incremental-cache-handler.ts, the clock sample of valkey-clock.ts, the tag states they read,
    the stamping of a stored record by its Lua script, and the programs that model asynchronous
    methods.

    A time in the domain of this process is kept as twice its value, since the midpoint of two clock
    readings may end in half a millisecond; so are the server times compared with one.  Lifetimes
    are integers, or not finite ([None]). *)
From Stdlib Require Import Ascii String.
From S2P Require Import Prelude JsString Regex Json Resp TagManifest.
Local Open Scope stdpp_scope.
Local Open Scope Z_scope.

Module SharedCache.
Import Resp.Resp(utf8) TagManifest.TagManifest.

(** ** Tag budget and build id *)

Definition DURABLE_TTL_SECONDS : Z := 30 * 24 * 60 * 60.
Definition MAX_TAG_BYTES_PER_ENTRY : Z := 64 * 1024.
Definition MAX_ROOT_PARAM_TAGS : nat := 256.

Definition byteLength (s : string) : Z := Z.of_nat (length (utf8 s)).

Definition tagCostBytes (tag : string) : Z := byteLength tag + 1.

(** The first loop of capTags, with its count of root parameters. *)
Fixpoint well_formed (rootParamCount : nat) (raw : list string) : list string :=
  match raw with
  | [] => []
  | tag :: raw' =>
      if (String.length tag =? 0)%nat then well_formed rootParamCount raw'
      else if (maxTagLength tag <? String.length tag)%nat then well_formed rootParamCount raw'
      else if isRootParamTag tag
           then if (MAX_ROOT_PARAM_TAGS <? S rootParamCount)%nat
                then well_formed (S rootParamCount) raw'
                else tag :: well_formed (S rootParamCount) raw'
           else tag :: well_formed rootParamCount raw'
  end.

Definition reserved_bytes (tags : list string) : Z :=
  foldl (λ n tag, if isRootParamTag tag then n + tagCostBytes tag else n) 0 tags.

(** The last loop of capTags. *)
Fixpoint spend (budget : Z) (tags : list string) : list string :=
  match tags with
  | [] => []
  | tag :: tags' =>
      if isRootParamTag tag then tag :: spend budget tags'
      else let cost := tagCostBytes tag in
           if budget <? cost then spend budget tags' else tag :: spend (budget - cost) tags'
  end.

Definition capTags (raw : list string) : list string :=
  let wellFormed := well_formed 0 raw in
  let reservedBytes := reserved_bytes wellFormed in
  let budget := if MAX_TAG_BYTES_PER_ENTRY <? reservedBytes then reservedBytes else MAX_TAG_BYTES_PER_ENTRY in
  spend (budget - reservedBytes) wellFormed.

Definition SAFE_BUILD_ID : string := "^[A-Za-z0-9_.-]{1,128}$".

Definition assertSafeBuildId (buildId : string) : outcome string unit :=
  if re_test SAFE_BUILD_ID buildId then Returns tt
  else Throws "[valkey-cache] refusing to use an unsafe build id for the cache keyspace".

Definition prefix_of_build (buildId : string) : string := "k8s:" +:+ buildId +:+ ":".
Definition tagsKey (buildId : string) : string := prefix_of_build buildId +:+ "tags".

Definition SERVER_TIMESTAMP_MARKER : string := "__adapter_k8s_valkey_time__".

(** A record is stamped by replacing the marker that is the text of its first member. *)
Definition stamp_head (member : string) : string := "{" +:+ json_quote member +:+ ":".
Definition stamp_marker (member : string) : string := stamp_head member +:+ json_quote SERVER_TIMESTAMP_MARKER.

Definition marked (member payload : string) : bool :=
  String.eqb (take_string (String.length (stamp_marker member)) payload) (stamp_marker member).

(** [lua_number] is the concatenation of a number in a Lua script. *)
Definition stamped (lua_number : Z → string) (member payload : string) (timestamp : Z) : string :=
  stamp_head member +:+ lua_number timestamp +:+ drop_string (String.length (stamp_marker member)) payload.

(** ** Reading JSON *)

Definition finite_prop (fs : obj) (key : string) : option Z :=
  match prop fs key with Some (JNum (NInt n)) => Some n | _ => None end.

Definition string_of (j : json) : option string := match j with JStr s => Some s | _ => None end.

(** ** The store *)

(** A hash: its fields m and v and its remaining time to live. *)
Record stored := mkStored { s_m : option string; s_v : option string; s_ttl : option Z }.

(** Hashes, strings with their time to live, and the hash of the tag manifest. *)
Record server := mkServer { entries : gmap string stored; texts : gmap string (string * option Z); tagStore : store }.

(** ** Clocks *)

(** Milliseconds in the doubled unit, and a manifest in it. *)
Definition twice (t : Z) : Z := 2 * t.
Definition twice_state (s : TagState) : TagState :=
  mkTagState (twice <$> stale s) (twice <$> expired s) (twice <$> at_ s).
Definition twice_manifest (m : manifest) : manifest := twice_state <$> m.
Definition SECOND : Z := 2000.

Record ValkeyClockSample := mkSample { serverNow : Z; localNow : Z }.

Definition toLocal (c : ValkeyClockSample) (timestamp : Z) : Z := timestamp - (serverNow c - localNow c).

(** ** Values from outside *)

(** The entry Next renders: its lifetimes, its start and the stream of its value, which ends with
    an error or not. *)
Record RenderedEntry := mkRendered {
  r_tags : list string; r_stale : option Z; r_timestamp : Z; r_expire : option Z; r_revalidate : option Z;
  r_chunks : list string; r_fails : bool
}.

(** A member of an IncrementalCacheValue: JSON, a Buffer, or the Map of segments. *)
Inductive member :=
| MJson (j : json)
| MBuffer (b : list Z)
| MSegments (l : list (string * list Z)).

Abbreviation members := (list (string * member)).

Record SeedEntry := mkSeed { seed_lastModified : Z; seed_tags : list string; seed_value : members }.

(** What an awaited promise of another part settles to; [None] is a rejection. *)
Inductive input :=
| IRendered (e : option RenderedEntry)
| ISeed (e : option (option SeedEntry)).

(** ** Programs

    An asynchronous method is a tree: [Look] reads the clock and the state of the process, [Put]
    replaces that state, [Fork] starts a background task, and the other nodes are where the method
    can be suspended: a resolved await, the gate of a write with its timer, a command, a promise of
    another part. *)

Inductive command :=
| HGetAllBuffer (key : string)
| HmGet (names : list string)
| ReadTime
| EvalStore (key payload value : string) (ttlSeconds entryTimestamp clientNow : Z)
| EvalUpdate (pairs : list (string * field)) (ttlSeconds : Z)
| GetText (key : string)
| SetText (key value : string) (ttlSeconds : Z)
| EvalStoreText (key payload : string) (ttlSeconds clientNow : Z).

Inductive reply :=
| RHash (h : option stored)
| RFields (l : list (option field))
| RNumber (n : Z)
| RText (s : option string).

Section Programs.
Context {S W : Type}.

Inductive prog (A : Type) : Type :=
| Ret (a : A)
| Raise
| Look (k : Z → S → prog A)
| Put (h : S) (p : prog A)
| Fork (w : W) (p : prog A)
| Later (p : prog A)
| Gate (gate : Z) (p : prog A)
| Ask (c : command) (k : option reply → prog A)
| Env (k : input → prog A).

Arguments Ret {A} a.
Arguments Raise {A}.
Arguments Look {A} k.
Arguments Put {A} h p.
Arguments Fork {A} w p.
Arguments Later {A} p.
Arguments Gate {A} gate p.
Arguments Ask {A} c k.
Arguments Env {A} k.

Fixpoint bind {A B} (p : prog A) (f : A → prog B) : prog B :=
  match p with
  | Ret a => f a
  | Raise => Raise
  | Look k => Look (λ now h, bind (k now h) f)
  | Put h p => Put h (bind p f)
  | Fork w p => Fork w (bind p f)
  | Later p => Later (bind p f)
  | Gate g p => Gate g (bind p f)
  | Ask c k => Ask c (λ r, bind (k r) f)
  | Env k => Env (λ r, bind (k r) f)
  end.

(** try with a catch that does not use the error. *)
Fixpoint catch {A} (p q : prog A) : prog A :=
  match p with
  | Ret a => Ret a
  | Raise => q
  | Look k => Look (λ now h, catch (k now h) q)
  | Put h p => Put h (catch p q)
  | Fork w p => Fork w (catch p q)
  | Later p => Later (catch p q)
  | Gate g p => Gate g (catch p q)
  | Ask c k => Ask c (λ r, catch (k r) q)
  | Env k => Env (λ r, catch (k r) q)
  end.

(** await of an asynchronous method. *)
Definition await {A B} (p : prog A) (f : A → prog B) : prog B := bind p (λ a, Later (f a)).

(** await of a command: a rejection is thrown. *)
Definition ask {A} (c : command) (k : reply → prog A) : prog A :=
  Ask c (λ r, match r with Some r => k r | None => Raise end).

Definition modify {A} (f : S → S) (p : prog A) : prog A := Look (λ _ h, Put (f h) p).

(** ** Reads and updates of the manifest *)

Definition states_of (tags : list string) (values : list (option field)) : manifest :=
  foldl (λ m tv, match tv.2 with Some (FState s) => <[tv.1 := s]> m | _ => m end) ∅ (zip tags values).

Definition tagStates (tags : list string) : prog manifest :=
  match tags with
  | [] => Ret ∅
  | _ => ask (HmGet tags) (λ r, match r with RFields values => Ret (states_of tags values) | _ => Raise end)
  end.

Definition sampleValkeyClock : prog ValkeyClockSample :=
  Look (λ before _,
  ask ReadTime (λ r, match r with
    | RNumber n => Look (λ after _, Ret (mkSample (twice n) (before + after)))
    | _ => Raise
    end)).

Fixpoint send_updates (chunks : list (list string)) (now : Z) (d : option durations) : prog () :=
  match chunks with
  | [] => Ret tt
  | chunk :: chunks' =>
      ask (EvalUpdate (update_args chunk now d) TAG_MANIFEST_TTL_SECONDS) (λ _, send_updates chunks' now d)
  end.

End Programs.
Arguments prog : clear implicits.
Arguments Ret {S W A} a.
Arguments Raise {S W A}.
Arguments Look {S W A} k.
Arguments Put {S W A} h p.
Arguments Fork {S W A} w p.
Arguments Later {S W A} p.
Arguments Gate {S W A} gate p.
Arguments Ask {S W A} c k.
Arguments Env {S W A} k.

End SharedCache.
