(* ===== verification/UseCache.v ===== *)
(** * The use-cache handler

    Models src/src/pool-server/valkey-cache/use-cache-handler.ts and the drain of stream-codec.ts: the
    entries in Valkey, the local front a staged render reads without I/O, and the methods as programs
    of [SharedCache]. *)
From Stdlib Require Import Ascii String.
From S2P Require Import Prelude JsString Regex Json JsonParse TagManifest EtagCache SharedCache.
Local Open Scope stdpp_scope.
Local Open Scope Z_scope.

Module UseCache.
Import TagManifest.TagManifest EtagCache.EtagCache(map_get, map_set, map_delete, map_size) SharedCache.SharedCache.

Definition entryKey (buildId cacheKey : string) : string := prefix_of_build buildId +:+ "entry:" +:+ cacheKey.

(** ** What is stored *)

Record StoredMeta := mkStoredMeta {
  m_tags : list string; m_stale : Z; m_timestamp : Z; m_expire : Z; m_revalidate : Z
}.

Definition life_json (n : option Z) : json := match n with Some n => JNum (NInt n) | None => JNull end.

(** The meta object of set, with a given timestamp. *)
Definition meta_json (timestamp : json) (tags : list string) (stale expire revalidate : option Z) : json :=
  JObj [("timestamp", timestamp); ("tags", JArr (map JStr tags)); ("stale", life_json stale);
        ("expire", life_json expire); ("revalidate", life_json revalidate)].

Definition parseStoredMeta (raw : string) : option StoredMeta :=
  match json_parse raw with
  | Some (JObj m) =>
      match finite_prop m "timestamp", finite_prop m "expire", finite_prop m "revalidate",
            finite_prop m "stale", prop m "tags" with
      | Some timestamp, Some expire, Some revalidate, Some stale, Some (JArr l) =>
          (λ tags, mkStoredMeta tags stale timestamp expire revalidate) <$> mapM string_of l
      | _, _, _, _, _ => None
      end
  | _ => None
  end.

Section Script.
Variable lua_number : Z → string.

Definition STORE_USE_CACHE_ENTRY_SCRIPT (now : Z) (key payload value : string)
    (ttlSeconds entryTimestamp clientNow : Z) (s : server) : server * outcome unit Z :=
  if negb (marked "timestamp" payload)
  then (s, Throws tt)
  else
    let storedTimestamp := now + entryTimestamp - clientNow in
    let e := mkStored (Some (stamped lua_number "timestamp" payload storedTimestamp)) (Some value) (Some ttlSeconds) in
    (mkServer (<[key := e]> (entries s)) (texts s) (tagStore s),
     Returns (if MAX_CLOCK_SKEW_MS <? Z.abs (now - clientNow) then 1 else 0)).
End Script.

(** The earliest watermark newer than the entry; [None] is infinity. *)
Definition earlier (timestamp : Z) (_ : string) (s : TagState) (deadline : option Z) : option Z :=
  match expired s with
  | Some x => if timestamp <? x then Some (match deadline with Some d => Z.min d x | None => x end) else deadline
  | None => deadline
  end.

Definition nextTagExpiration (timestamp : Z) (m : manifest) : option Z := map_fold (earlier timestamp) None m.

(** ** The local front *)

Definition LOCAL_FRONT_MAX_BYTES : Z := 50 * 1024 * 1024.
Definition LOCAL_FRONT_MAX_ENTRIES : Z := 10000.
Definition LOCAL_FRONT_MAX_CONCURRENT_WARMS : nat := 64.
Definition LOCAL_ENTRY_OVERHEAD_BYTES : Z := 256.
Definition RETENTION_MARGIN_SECONDS : Z := 60.

Record LocalEntry := mkLocal {
  l_tagExpiresAt : option Z;
  l_tags : list string;
  l_verifiedSoftTags : list string;
  l_stale : option Z;
  l_timestamp : Z;
  l_expire : Z;
  l_revalidate : Z;
  l_value : string;
}.

(** What get resolves to; the value is the bytes of the stream. *)
Record CacheEntry := mkCacheEntry {
  c_value : string; c_tags : list string; c_stale : option Z; c_timestamp : Z; c_expire : Z; c_revalidate : Z
}.

Record PreparedInvocation := mkInvocation {
  i_epoch : option Z; i_softTagsByCacheKey : gmap string (list string)
}.

(** The fields of a handler, the invocation objects it made and the gates it released; a gate is
    the generation of the write that made it. *)
Record handler := mkHandler {
  localEntries : list (string * LocalEntry);
  localBytes : Z;
  manifestEpoch : option Z;
  backingAvailable : bool;
  warming : gset string;
  writeGeneration : Z;
  pendingSets : gmap string Z;
  released : gset Z;
  invocations : list PreparedInvocation;
}.

Definition new_handler : handler := mkHandler [] 0 None true ∅ 0 ∅ ∅ [].

Definition with_front (l : list (string * LocalEntry)) (n : Z) (h : handler) : handler :=
  mkHandler l n (manifestEpoch h) (backingAvailable h) (warming h) (writeGeneration h) (pendingSets h)
    (released h) (invocations h).
Definition with_epoch (e : option Z) (available : bool) (h : handler) : handler :=
  mkHandler (localEntries h) (localBytes h) e available (warming h) (writeGeneration h) (pendingSets h)
    (released h) (invocations h).
Definition with_warming (w : gset string) (h : handler) : handler :=
  mkHandler (localEntries h) (localBytes h) (manifestEpoch h) (backingAvailable h) w (writeGeneration h)
    (pendingSets h) (released h) (invocations h).
Definition with_writes (g : Z) (p : gmap string Z) (r : gset Z) (h : handler) : handler :=
  mkHandler (localEntries h) (localBytes h) (manifestEpoch h) (backingAvailable h) (warming h) g p r
    (invocations h).
Definition with_invocations (l : list PreparedInvocation) (h : handler) : handler :=
  mkHandler (localEntries h) (localBytes h) (manifestEpoch h) (backingAvailable h) (warming h)
    (writeGeneration h) (pendingSets h) (released h) l.

Definition clearLocalEntries : handler → handler := with_front [] 0.

Definition tags_size (tags : list string) : Z := foldl (λ size tag, size + (byteLength tag + 8)) 0 tags.

Definition localEntrySize (cacheKey : string) (e : LocalEntry) : Z :=
  LOCAL_ENTRY_OVERHEAD_BYTES + byteLength cacheKey + Z.of_nat (String.length (l_value e))
  + tags_size (l_tags e) + tags_size (l_verifiedSoftTags e).

Definition removeLocalEntry (cacheKey : string) (h : handler) : handler :=
  match map_get (localEntries h) cacheKey with
  | None => h
  | Some current =>
      with_front (map_delete (localEntries h) cacheKey) (localBytes h - localEntrySize cacheKey current) h
  end.

(** The loop of putLocalEntry: each pass removes the oldest key. *)
Fixpoint evict_front (fuel : nat) (h : handler) : handler :=
  match fuel with
  | O => h
  | S fuel =>
      if (LOCAL_FRONT_MAX_BYTES <? localBytes h) || (LOCAL_FRONT_MAX_ENTRIES <? map_size (localEntries h))
      then match localEntries h with
           | [] => h
           | (oldest, _) :: _ => evict_front fuel (removeLocalEntry oldest h)
           end
      else h
  end.

Definition putLocalEntry (cacheKey : string) (e : LocalEntry) (h : handler) : handler :=
  if match map_get (localEntries h) cacheKey with
     | Some current => l_timestamp e <? l_timestamp current
     | None => false
     end
  then h
  else
    let h := removeLocalEntry cacheKey h in
    let entrySize := localEntrySize cacheKey e in
    if LOCAL_FRONT_MAX_BYTES <? entrySize then h
    else
      let h := with_front (map_set (localEntries h) cacheKey e) (localBytes h + entrySize) h in
      evict_front (length (localEntries h)) h.

Definition past (deadline : option Z) (now : Z) : bool :=
  match deadline with Some d => d <=? now | None => false end.

(** readLocalEntry at the local time [now]: the hit and the handler it leaves. *)
Definition readLocalEntry (now : Z) (cacheKey : string) (softTags : list string) (h : handler)
    : option CacheEntry * handler :=
  match map_get (localEntries h) cacheKey with
  | None => (None, h)
  | Some e =>
      if existsb (λ tag, negb (bool_decide (tag ∈ l_verifiedSoftTags e))) softTags then (None, h)
      else
        let freshness :=
          evaluateIn SECOND (mkEntry (l_timestamp e) (l_revalidate e) (l_expire e) []) ∅ (twice now) in
        if past (l_tagExpiresAt e) (twice now) || bool_decide (freshness = Expired)
        then (None, removeLocalEntry cacheKey h)
        else
          (Some (mkCacheEntry (l_value e) (l_tags e) (l_stale e) (l_timestamp e) (l_expire e)
                   (match freshness with Fresh r => r | _ => -1 end)),
           with_front (map_set (map_delete (localEntries h) cacheKey) cacheKey e) (localBytes h) h)
  end.

(** What a background warm was started with. *)
Record warm := mkWarm { w_key : string; w_softTags : list string; w_epoch : option Z; w_generation : Z }.

Abbreviation method := (prog handler warm).

(** ** Reads *)

Record StoredRead := mkRead {
  sr_meta : StoredMeta; sr_localTimestamp : Z; sr_tagExpiresAt : option Z; sr_value : string; sr_freshness : Freshness
}.

(** The verdict on an entry stamped [timestamp] in the server's domain. *)
Definition judge (timestamp revalidate expire : Z) (tags : list string) (m : manifest) (clock : ValkeyClockSample)
    : Freshness :=
  evaluateIn SECOND (mkEntry timestamp revalidate expire tags) (twice_manifest m) (serverNow clock).

Definition local_deadline (timestamp : Z) (m : manifest) (clock : ValkeyClockSample) : option Z :=
  toLocal clock <$> nextTagExpiration timestamp (twice_manifest m).

Section Handler.
Variable buildId : string.

Definition readStored (cacheKey : string) (softTags : list string) : method (option StoredRead) :=
  ask (HGetAllBuffer (entryKey buildId cacheKey)) (λ r,
  match r with
  | RHash (Some (mkStored (Some m) (Some value) _)) =>
      match parseStoredMeta m with
      | None => Ret None
      | Some meta =>
          let tags := m_tags meta ++ softTags in
          await (tagStates tags) (λ manifest,
          await sampleValkeyClock (λ clock,
          let timestamp := twice (m_timestamp meta) in
          let freshness := judge timestamp (m_revalidate meta) (m_expire meta) tags manifest clock in
          if bool_decide (freshness = Expired) then Ret None
          else Ret (Some (mkRead meta (toLocal clock timestamp) (local_deadline timestamp manifest clock)
                            value freshness))))
      end
  | RHash _ => Ret None
  | _ => Raise
  end).

Definition cacheEntry (read : StoredRead) : CacheEntry :=
  let meta := sr_meta read in
  mkCacheEntry (sr_value read) (m_tags meta) (Some (m_stale meta)) (sr_localTimestamp read) (m_expire meta)
    (match sr_freshness read with Fresh r => r | _ => -1 end).

(** warmLocalEntry: whether it starts a warm. *)
Definition warms (epoch : option Z) (cacheKey : string) (h : handler) : bool :=
  negb (negb (bool_decide (epoch = manifestEpoch h))
        || negb (backingAvailable h)
        || bool_decide (is_Some (pendingSets h !! cacheKey))
        || bool_decide (cacheKey ∈ warming h)
        || (LOCAL_FRONT_MAX_CONCURRENT_WARMS <=? size (warming h))%nat).

Definition warmLocalEntry {A} (epoch : option Z) (cacheKey : string) (softTags : list string) (p : method A) : method A :=
  Look (λ _ h,
  if warms epoch cacheKey h
  then Put (with_warming ({[ cacheKey ]} ∪ warming h) h)
         (Fork (mkWarm cacheKey softTags epoch (writeGeneration h)) p)
  else p).

(** The entry a warm puts in the front. *)
Definition local_of_read (softTags : list string) (read : StoredRead) (revalidate : Z) : LocalEntry :=
  let meta := sr_meta read in
  mkLocal (sr_tagExpiresAt read) (m_tags meta) (capTags softTags) (Some (m_stale meta)) (sr_localTimestamp read)
    (m_expire meta) revalidate (sr_value read).

(** The promise chain of a warm. *)
Definition admit_read (w : warm) (read : option StoredRead) : method () :=
  Look (λ _ h,
  match read with
  | None => Ret tt
  | Some read =>
      match sr_freshness read with
      | Fresh revalidate =>
          if negb (bool_decide (manifestEpoch h = w_epoch w)) || negb (writeGeneration h =? w_generation w)
          then Ret tt
          else Put (putLocalEntry (w_key w) (local_of_read (w_softTags w) read revalidate) h) (Ret tt)
      | _ => Ret tt
      end
  end).

Definition warm_program (w : warm) : method () :=
  await (catch (await (readStored (w_key w) (w_softTags w)) (admit_read w)) (Ret tt)) (λ _,
  modify (λ h, with_warming (warming h ∖ {[ w_key w ]}) h) (Ret tt)).

(** ** Methods *)

(** The epoch field of a reply: absent is 0, and the pattern accepts a number without a sign. *)
Definition epoch_of_reply (l : list (option field)) : option Z :=
  match l with
  | [] | None :: _ => Some 0
  | Some (FInt n) :: _ => if 0 <=? n then Some n else None
  | Some _ :: _ => None
  end.

Definition take_epoch (epoch : Z) (h : handler) : handler :=
  let h := match manifestEpoch h with
           | Some e => if negb (epoch =? e) then clearLocalEntries h else h
           | None => h
           end in
  with_epoch (Some epoch) true h.

Definition lose_epoch (h : handler) : handler := with_epoch None false (clearLocalEntries h).

(** The try statement of prepareForInvocation: the epoch that was prepared. *)
Definition prepare_epoch : method (option Z) :=
  catch
    (ask (HmGet [TAG_MANIFEST_EPOCH_FIELD]) (λ r,
     match r with
     | RFields l => match epoch_of_reply l with
                    | Some epoch => modify (take_epoch epoch) (Ret (Some epoch))
                    | None => Raise
                    end
     | _ => Raise
     end))
    (modify lose_epoch (Ret None)).

(** prepareForInvocation; the runner it returns is the number of its invocation object. *)
Definition prepareForInvocation : method nat :=
  bind prepare_epoch (λ preparedEpoch,
  Look (λ _ h,
  Put (with_invocations (invocations h ++ [mkInvocation preparedEpoch ∅]) h) (Ret (length (invocations h))))).

Definition record_soft_tags (inv : nat) (cacheKey : string) (softTags : list string) (h : handler) : handler :=
  let record i :=
    let previous := default [] (i_softTagsByCacheKey i !! cacheKey) in
    mkInvocation (i_epoch i) (<[cacheKey := capTags (previous ++ softTags)]> (i_softTagsByCacheKey i)) in
  with_invocations (alter record inv (invocations h)) h.

Definition get_prepared (inv : nat) (cacheKey : string) (softTags : list string) : method (option CacheEntry) :=
  Look (λ now h,
  match invocations h !! inv with
  | None => Raise
  | Some i =>
      if negb (bool_decide (i_epoch i = manifestEpoch h)) then Ret None
      else
        let '(local, h) := readLocalEntry now cacheKey softTags (record_soft_tags inv cacheKey softTags h) in
        Put h (match local with
               | Some e => Ret (Some e)
               | None => warmLocalEntry (i_epoch i) cacheKey softTags (Ret None)
               end)
  end).

Definition get_unprepared (cacheKey : string) (softTags : list string) : method (option CacheEntry) :=
  Look (λ _ h,
  let read := catch (await (readStored cacheKey softTags) (λ read, Ret (cacheEntry <$> read))) (Ret None) in
  match pendingSets h !! cacheKey with
  | Some gate => Gate gate read
  | None => read
  end).

Definition get (store : option nat) (cacheKey : string) (softTags : list string) : method (option CacheEntry) :=
  match store with
  | Some inv => get_prepared inv cacheKey softTags
  | None => get_unprepared cacheKey softTags
  end.

Variable maxBytes : Z.

Fixpoint drain (total : Z) (drained : string) (chunks : list string) (fails : bool) : option string :=
  match chunks with
  | [] => if fails then None else Some drained
  | value :: chunks' =>
      let total := total + Z.of_nat (String.length value) in
      if maxBytes <? total then None else drain total (drained +:+ value) chunks' fails
  end.

Definition drainEntryValue (e : RenderedEntry) : option string := drain 0 "" (r_chunks e) (r_fails e).

(** Whether a write may still enter the front. *)
Definition current_write (epoch : option Z) (writeGeneration' : Z) (h : handler) : bool :=
  bool_decide (epoch = manifestEpoch h) && backingAvailable h && (writeGeneration h =? writeGeneration').

(** The admission of a stored write into the front. *)
Definition admit_write (store : option nat) (cacheKey : string) (generation : Z) (e : RenderedEntry)
    (expire revalidate : Z) (metaTags : list string) (buf : string) : method () :=
  Look (λ _ h,
  match store ≫= λ inv, invocations h !! inv with
  | None => Ret tt
  | Some i =>
      if negb (bool_decide (i_epoch i = manifestEpoch h) && backingAvailable h) then Ret tt
      else
        let softTags := default [] (i_softTagsByCacheKey i !! cacheKey) in
        let tags := metaTags ++ softTags in
        await (tagStates tags) (λ manifest,
        await sampleValkeyClock (λ clock,
        let serverTimestamp := twice (r_timestamp e) + serverNow clock - localNow clock in
        match judge serverTimestamp revalidate expire tags manifest clock with
        | Fresh _ =>
            Look (λ _ h,
            if current_write (i_epoch i) generation h
            then Put (putLocalEntry cacheKey
                   (mkLocal (local_deadline serverTimestamp manifest clock) metaTags softTags (r_stale e)
                      (twice (r_timestamp e)) expire revalidate buf) h) (Ret tt)
            else Ret tt)
        | _ => Ret tt
        end))
  end).

(** The try statement of set. *)
Definition set_body (store : option nat) (cacheKey : string) (generation : Z) : method () :=
  Env (λ rendered,
  match rendered with
  | IRendered (Some e) =>
      match r_expire e, r_revalidate e with
      | Some expire, Some revalidate =>
          if expire <=? 0 then Ret tt
          else
            Later (match drainEntryValue e with
            | None => Ret tt
            | Some buf =>
                let metaTags := capTags (r_tags e) in
                let meta := meta_json (JStr SERVER_TIMESTAMP_MARKER) metaTags (r_stale e) (Some expire) (Some revalidate) in
                let ttl := Z.min (Z.max (Z.max expire revalidate) 1 + RETENTION_MARGIN_SECONDS) DURABLE_TTL_SECONDS in
                Look (λ clientNow _,
                ask (EvalStore (entryKey buildId cacheKey) (stringify meta) buf ttl (r_timestamp e) clientNow) (λ _,
                admit_write store cacheKey generation e expire revalidate metaTags buf))
            end)
      | _, _ => Ret tt
      end
  | _ => Raise
  end).

Definition open_set (cacheKey : string) (h : handler) : handler :=
  let generation := writeGeneration h + 1 in
  let h := removeLocalEntry cacheKey h in
  with_writes generation (<[cacheKey := generation]> (pendingSets h)) (released h) h.

Definition close_set (cacheKey : string) (gate : Z) (h : handler) : handler :=
  let pending := if bool_decide (pendingSets h !! cacheKey = Some gate)
                 then delete cacheKey (pendingSets h) else pendingSets h in
  with_writes (writeGeneration h) pending ({[ gate ]} ∪ released h) h.

Definition set (store : option nat) (cacheKey : string) : method () :=
  Look (λ _ h,
  let generation := writeGeneration h + 1 in
  Put (open_set cacheKey h)
    (bind (catch (set_body store cacheKey generation) (Ret tt)) (λ _,
     modify (close_set cacheKey generation) (Ret tt)))).

(** getExpiration; [None] is infinity. *)
Definition getExpiration (store : option nat) (tags : list string) : method (option Z) :=
  match store with
  | Some _ => Ret None
  | None =>
      catch
        (await (tagStates tags) (λ manifest,
         let expiration := maxExpiration tags manifest in
         if expiration =? 0 then Ret (Some 0)
         else await sampleValkeyClock (λ clock, Ret (Some (toLocal clock (twice expiration))))))
        (Look (λ now _, Ret (Some (twice now))))
  end.

Definition forget_epoch (h : handler) : handler :=
  let h := clearLocalEntries h in with_epoch None (backingAvailable h) h.

Definition updateTags (tags : list string) (d : option durations) : method () :=
  let filtered := filterManifestTags tags in
  match filtered with
  | [] => Ret tt
  | _ => modify forget_epoch (catch (Look (λ now _, send_updates (chunkManifestTags filtered) now d)) (Ret tt))
  end.

Definition hasTagUpdates (tags : list string) : method bool :=
  catch
    (let filtered := filterManifestTags tags in
     match filtered with
     | [] => Ret false
     | _ => await (tagStates filtered) (λ manifest, Ret (0 <? size manifest)%nat)
     end)
    (Ret true).
End Handler.

End UseCache.
