(* ===== verification/IncrementalCache.v ===== *)
(** * The incremental cache handler

    Models src/src/pool-server/valkey-cache/incremental-cache-handler.ts, the handler of prerendered
    pages, routes, images and fetches, and the cache keys of next-runtime/pathname.ts.  It keeps no state
    of its own: its methods are programs of [SharedCache] over the store it shares with [UseCache]. *)
From Stdlib Require Import Ascii String.
From S2P Require Import Prelude JsString Json JsonParse TagManifest SharedCache UseCache.
Local Open Scope stdpp_scope.
Local Open Scope Z_scope.

Module IncrementalCache.
Import TagManifest.TagManifest SharedCache.SharedCache UseCache.UseCache(RETENTION_MARGIN_SECONDS).

(** ** Cache keys *)

(** The second alternative of the pattern, without its percent sign and in either case. *)
Definition encoded_delimiter (a b : ascii) : bool :=
  existsb (String.eqb (to_lower (String a (String b "")))) ["2f"; "23"; "3f"; "5c"].

(** .replace(/([/#?]|%(2f|23|3f|5c))/gi, encodeURIComponent) *)
Fixpoint reencode (s : string) : string :=
  match s with
  | EmptyString => ""
  | String c s' =>
      if Ascii.eqb c "/" then "%2F" +:+ reencode s'
      else if Ascii.eqb c "#" then "%23" +:+ reencode s'
      else if Ascii.eqb c "?" then "%3F" +:+ reencode s'
      else match s' with
           | String a (String b s'') =>
               if Ascii.eqb c "%" && encoded_delimiter a b
               then "%25" +:+ String a (String b (reencode s''))
               else String c (reencode s')
           | _ => String c (reencode s')
           end
  end.

(** ** Stored records *)

(** number | false *)
Inductive window (N : Type) := Never | Seconds (n : N).
Arguments Never {N}.
Arguments Seconds {N} n.

Record StoredEntry := mkStoredEntry {
  e_value : json;
  se_tags : list string;
  e_lastModified : Z;
  e_ttlSeconds : Z;
  e_revalidateSeconds : option (window Z);
  e_expireSeconds : option Z;
}.

(** What a method returns: JSON that is not an object, or an object. *)
Inductive cached := CPlain (j : json) | CMembers (m : members).

(** lastModified is a time of this process; isStale is absent or true. *)
Record CacheHandlerValue := mkValue { v_lastModified : Z; v_value : cached; v_isStale : bool }.

Record GetCtx := mkGetCtx {
  g_kind : option string; g_revalidate : option (window Z); g_softTags : option (list string); g_tags : option (list string)
}.

(** Numbers of a write may not be finite ([None]): plus infinity or NaN. *)
Record SetCtx := mkSetCtx {
  s_tags : option (list string);
  s_cacheRevalidate : option (window (option Z));
  s_cacheExpire : option (option Z);
  s_revalidate : option (window (option Z));
}.

Definition is_fetch (kind : option string) : bool := bool_decide (kind = Some "FETCH").

(** typeof x === "number" *)
Definition seconds_of {N} (w : option (window N)) : option N :=
  match w with Some (Seconds n) => Some n | _ => None end.

(** The time a stale reader is told, or -1; [now] is a local time. *)
Definition staleByTagLastModified (revalidateSeconds : option (window Z)) (expireSeconds : option Z) (now : Z)
    (currentRevalidate : option (window Z)) (allowNegative : bool) : Z :=
  let revalidate := match seconds_of currentRevalidate with Some n => Some n | None => seconds_of revalidateSeconds end in
  match revalidate with
  | None => twice (-1)
  | Some revalidate =>
      let shifted := now - revalidate * SECOND - SECOND in
      if (shifted <=? 0) && negb allowNegative then twice (-1)
      else match expireSeconds with
           | Some expire =>
               if negb allowNegative && (expire * SECOND + shifted <? now) then twice (-1) else shifted
           | None => shifted
           end
  end.

Definition parse_window (fs : obj) (key : string) : option (window Z) :=
  match prop fs key with
  | Some (JBool false) => Some Never
  | Some (JNum (NInt n)) => Some (Seconds n)
  | _ => None
  end.

Definition parseStoredEntry (raw : string) : option StoredEntry :=
  match json_parse raw with
  | Some (JObj e) =>
      match finite_prop e "lastModified", prop e "tags", finite_prop e "ttlSeconds", prop e "value" with
      | Some lastModified, Some (JArr l), Some ttlSeconds, Some value =>
          match mapM string_of l with
          | Some tags =>
              if ttlSeconds <=? 0 then None
              else Some (mkStoredEntry value tags lastModified ttlSeconds (parse_window e "revalidateSeconds")
                           (finite_prop e "expireSeconds"))
          | None => None
          end
      | _, _, _, _ => None
      end
  | _ => None
  end.

(** ** Binary members *)

Definition BINARY : list string := ["rscData"; "body"; "buffer"].
Definition is_binary (name : string) : bool := bool_decide (name ∈ BINARY).

Definition member_of (ms : members) (name : string) : option member :=
  snd <$> find (λ m, String.eqb m.1 name) ms.

Fixpoint set_member (ms : members) (name : string) (m : member) : members :=
  match ms with
  | [] => [(name, m)]
  | (n, m') :: ms' => if String.eqb n name then (n, m) :: ms' else (n, m') :: set_member ms' name m
  end.

Definition json_member (ms : members) (name : string) : option json :=
  match member_of ms name with Some (MJson j) => Some j | _ => None end.

Section Base64.
Variable to_base64 : list Z → string.
Variable from_base64 : string → list Z.

(** One member as JSON.stringify writes it after encodeValue.  A Buffer elsewhere is written by its own
    toJSON, a Map elsewhere as an empty object. *)
Definition encode_member (name : string) (m : member) : json :=
  match m with
  | MJson j => j
  | MBuffer b =>
      if is_binary name then JObj [("__b64", JStr (to_base64 b))]
      else JObj [("type", JStr "Buffer"); ("data", JArr (map (λ n, JNum (NInt n)) b))]
  | MSegments l =>
      if String.eqb name "segmentData"
      then JObj [("__segmap", JObj (map (λ s, (s.1, JStr (to_base64 s.2))) l))]
      else JObj []
  end.

Definition encodeValue (value : option members) : json :=
  match value with None => JNull | Some ms => JObj (map (λ m, (m.1, encode_member m.1 m.2)) ms) end.

(** Buffer.from of a member; [None] is an exception.  The handler writes a string there, and an array,
    which Buffer.from also takes, is left out. *)
Definition buffer_from (j : json) : option (list Z) :=
  match j with JStr s => Some (from_base64 s) | _ => None end.

Definition decode_segment (f : string * json) : option (string * list Z) := pair f.1 <$> buffer_from f.2.

Definition decode_member (name : string) (j : json) : option member :=
  match j with
  | JObj fs =>
      if is_binary name then
        match prop fs "__b64" with Some b => MBuffer <$> buffer_from b | None => Some (MJson j) end
      else if String.eqb name "segmentData" then
        match prop fs "__segmap" with
        | Some (JObj seg) => MSegments <$> mapM decode_segment seg
        | Some _ => None
        | None => Some (MJson j)
        end
      else Some (MJson j)
  | _ => Some (MJson j)
  end.

Definition decode_entry (f : string * json) : option (string * member) := pair f.1 <$> decode_member f.1 f.2.

(** decodeValue; an array is spread into an object. *)
Definition decodeValue (value : json) : option cached :=
  match value with
  | JObj fs => CMembers <$> mapM decode_entry fs
  | JArr l => Some (CMembers (imap (λ i j, (z_text (Z.of_nat i), MJson j)) l))
  | j => Some (CPlain j)
  end.

(** ** Tags *)

Definition NEXT_CACHE_TAGS_HEADER : string := "x-next-cache-tags".

Definition strings_in (l : list json) : list string := omap string_of l.

Definition tagsFromFetchValue (value : cached) : list string :=
  match value with
  | CMembers ms => match json_member ms "tags" with Some (JArr l) => capTags (strings_in l) | _ => [] end
  | CPlain _ => []
  end.

Definition split_tags (header : string) : list string :=
  filter (λ t, is_empty t = false) (map trim (split_on "," header)).

(** The tags of the response header; splitting an element that is not a string throws ([None]). *)
Definition header_tags (value : option members) : option (list string) :=
  match value ≫= λ ms, json_member ms "headers" with
  | Some (JObj headers) =>
      match prop headers NEXT_CACHE_TAGS_HEADER with
      | Some (JStr header) => Some (split_tags header)
      | Some (JArr l) => (λ l, concat (map split_tags l)) <$> mapM string_of l
      | _ => Some []
      end
  | _ => Some []
  end.

Definition extractTags (value : option members) (ctx : SetCtx) : option (list string) :=
  capTags <$> match s_tags ctx with Some (_ :: _ as tags) => Some tags | _ => header_tags value end.

(** ** Methods *)

Section Handler.
Context {S W : Type}.
Variable decodeURIComponent : string → option string.
Variable buildId : string.
Variable maxBytes : Z.
(** Whether the handler was made with a seedLookup. *)
Variable seeded : bool.

Abbreviation method := (prog S W).

Definition decodeNextPathname (pathname : string) : string :=
  match mapM decodeURIComponent (split_on "/" pathname) with
  | Some segments => join "/" (map reencode segments)
  | None => pathname
  end.

Definition canonicalPathCacheKey (cacheKey : string) : string :=
  if starts_with "/" cacheKey then decodeNextPathname cacheKey else cacheKey.

Definition incKey (cacheKey : string) : string := prefix_of_build buildId +:+ "inc:" +:+ cacheKey.
Definition fetchTagsKey (cacheKey : string) : string := prefix_of_build buildId +:+ "inc-fetch-tags:" +:+ cacheKey.

Definition tags_json (tags : list string) : json := JArr (map JStr tags).

(** The tags of a companion key. *)
Definition parse_tags (raw : string) : option (list string) :=
  match json_parse raw with Some (JArr l) => capTags <$> mapM string_of l | _ => None end.

Definition read_fetch_tags (cacheKey : string) (storedTags : list string) : method (list string) :=
  catch
    (ask (GetText (fetchTagsKey cacheKey)) (λ r,
     match r with
     | RText (Some raw) => Ret (if is_empty raw then storedTags else default storedTags (parse_tags raw))
     | RText None => Ret storedTags
     | _ => Raise
     end))
    (Ret storedTags).

Definition reconcileFetchTags (cacheKey : string) (value : cached) (fallbackTags : list string)
    (requestTags : option (list string)) (ttlSeconds : Z) : method cached :=
  match value with
  | CPlain _ => Ret value
  | CMembers ms =>
      let storedTags := match tagsFromFetchValue value with [] => fallbackTags | tags => tags end in
      bind (read_fetch_tags cacheKey storedTags) (λ storedTags,
      let result tags := Ret (CMembers (set_member ms "tags" (MJson (tags_json tags)))) in
      match capTags <$> requestTags with
      | Some currentTags =>
          if forallb (λ tag, bool_decide (tag ∈ storedTags)) currentTags then result storedTags
          else
            bind (catch (ask (SetText (fetchTagsKey cacheKey) (stringify (tags_json currentTags)) (Z.max 1 ttlSeconds))
                     (λ _, Ret tt)) (Ret tt)) (λ _, result currentTags)
      | None => result storedTags
      end)
  end.

(** The tags a read is judged by: those of the request for a FETCH entry, and otherwise those of the
    entry with those of the request. *)
Definition read_tags (ctx : GetCtx) (entryTags : list string) : list string :=
  if is_fetch (g_kind ctx) then capTags (default [] (g_tags ctx)) ++ capTags (default [] (g_softTags ctx))
  else entryTags ++ match g_softTags ctx with Some tags => tags | None => default [] (g_tags ctx) end.

Definition reconciled (cacheKey : string) (ctx : GetCtx) (value : cached) (fallbackTags : list string) (ttlSeconds : Z)
    : method cached :=
  if is_fetch (g_kind ctx)
  then await (reconcileFetchTags cacheKey value fallbackTags (g_tags ctx) ttlSeconds) Ret
  else Ret value.

(** The value a read returns once its staleness is known. *)
Definition answer (ctx : GetCtx) (peek : bool) (staleByTag staleByAge : bool) (lastModified now : Z)
    (revalidateSeconds : option (window Z)) (expireSeconds : option Z) (value : cached) : CacheHandlerValue :=
  if peek then mkValue lastModified value (staleByTag || staleByAge)
  else if staleByTag || (is_fetch (g_kind ctx) && staleByAge)
       then mkValue (staleByTagLastModified revalidateSeconds expireSeconds now (g_revalidate ctx)
                       (is_fetch (g_kind ctx))) value false
       else mkValue lastModified value false.

Definition fetch_revalidate (ctx : GetCtx) (own : option Z) : option Z :=
  if is_fetch (g_kind ctx) then match seconds_of (g_revalidate ctx) with Some n => Some n | None => own end else own.

Definition past_window (lastModified : Z) (revalidate : option Z) (now : Z) : bool :=
  match revalidate with Some n => lastModified + n * SECOND <=? now | None => false end.

(** typeof seed.value.revalidate === "number", of a FETCH seed *)
Definition seed_revalidate (ctx : GetCtx) (ms : members) : option Z :=
  if is_fetch (g_kind ctx) then
    match json_member ms "revalidate" with Some (JNum (NInt n)) => Some n | _ => None end
  else None.

Definition seedFallback (cacheKey : string) (ctx : GetCtx) (peek : bool) : method (option CacheHandlerValue) :=
  if negb seeded then Ret None
  else catch
    (Env (λ r,
     match r with
     | ISeed (Some None) => Ret None
     | ISeed (Some (Some seed)) =>
         bind (reconciled cacheKey ctx (CMembers (seed_value seed)) (seed_tags seed) DURABLE_TTL_SECONDS) (λ value,
         let tags := read_tags ctx (seed_tags seed) in
         await (tagStates tags) (λ manifest,
         await sampleValkeyClock (λ clock,
         if areTagsExpired tags 0 (twice_manifest manifest) (serverNow clock) then Ret None
         else
           let staleByTag := areTagsStale tags 0 (twice_manifest manifest) in
           let seedRevalidate := seed_revalidate ctx (seed_value seed) in
           let staleByAge := past_window (twice (seed_lastModified seed)) (fetch_revalidate ctx seedRevalidate) (localNow clock) in
           Ret (Some (answer ctx peek staleByTag staleByAge (twice (seed_lastModified seed)) (localNow clock)
                        (Seconds <$> seedRevalidate) None value)))))
     | _ => Raise
     end))
    (Ret None).

(** The read of a stored entry up to its verdict. *)
Definition stored_verdict (cacheKey : string) (ctx : GetCtx) (peek : bool) (entry : StoredEntry)
    : method (option CacheHandlerValue) :=
  match decodeValue (e_value entry) with
  | None => Raise
  | Some value =>
      bind (reconciled cacheKey ctx value (se_tags entry) (e_ttlSeconds entry)) (λ value,
      let tags := read_tags ctx (se_tags entry) in
      await (tagStates tags) (λ manifest,
      await sampleValkeyClock (λ clock,
      let lastModified := twice (e_lastModified entry) in
      if areTagsExpired tags lastModified (twice_manifest manifest) (serverNow clock) then Ret None
      else
        let staleByTag := areTagsStale tags lastModified (twice_manifest manifest) in
        let staleByAge :=
          past_window lastModified (fetch_revalidate ctx (seconds_of (e_revalidateSeconds entry))) (serverNow clock) in
        Ret (Some (answer ctx peek staleByTag staleByAge (toLocal clock lastModified) (localNow clock)
                     (e_revalidateSeconds entry) (e_expireSeconds entry) value)))))
  end.

Definition getImpl (cacheKey : string) (ctx : GetCtx) (skipSeed peek : bool) : method (option CacheHandlerValue) :=
  let miss := if skipSeed then Ret None else seedFallback cacheKey ctx peek in
  catch
    (ask (GetText (incKey cacheKey)) (λ r,
     match r with
     | RText (Some raw) =>
         if is_empty raw then miss
         else match parseStoredEntry raw with
              | None => miss
              | Some entry => stored_verdict cacheKey ctx peek entry
              end
     | RText None => miss
     | _ => Raise
     end))
    (Ret None).

(** getStored, getSeed, getPeek and get. *)
Inductive reader := GetStored | GetSeed | GetPeek | Get.

Definition read_program (m : reader) (cacheKey : string) (ctx : GetCtx) : method (option CacheHandlerValue) :=
  match m with
  | GetStored => getImpl cacheKey ctx true true
  | GetSeed => seedFallback cacheKey ctx true
  | GetPeek => getImpl cacheKey ctx false true
  | Get => getImpl (canonicalPathCacheKey cacheKey) ctx false false
  end.

(** ** Writes *)

(** Whether the data of a write is a FETCH record.  A lifetime of it that is not a whole number counts
    as not finite. *)
Definition fetch_data (data : option members) : bool :=
  bool_decide ((data ≫= λ ms, json_member ms "kind") = Some (JStr "FETCH")).

Definition data_revalidate (data : option members) : option (option Z) :=
  if fetch_data data then
    match data ≫= λ ms, json_member ms "revalidate" with
    | Some (JNum (NInt n)) => Some (Some n)
    | Some (JNum _) => Some None
    | _ => None
    end
  else None.

Definition write_revalidate (data : option members) (ctx : SetCtx) : option (option Z) :=
  match data_revalidate data with
  | Some n => Some n
  | None => match seconds_of (s_revalidate ctx) with
            | Some n => Some n
            | None => seconds_of (s_cacheRevalidate ctx)
            end
  end.

(** The retention of a write; [None] is not finite. *)
Definition write_ttl (revalidate expire : option (option Z)) : option Z :=
  match revalidate, expire with
  | None, None => Some DURABLE_TTL_SECONDS
  | _, _ =>
      match default (Some 0) revalidate, default (Some 0) expire with
      | Some r, Some e => Some (Z.max (Z.max r e) 1 + RETENTION_MARGIN_SECONDS)
      | _, _ => None
      end
  end.

Definition entry_json (lastModified : json) (data : option members) (tags : list string) (ttlSeconds : Z)
    (revalidate expire : option Z) : json :=
  JObj ([("lastModified", lastModified); ("value", encodeValue data); ("tags", tags_json tags);
         ("ttlSeconds", JNum (NInt ttlSeconds));
         ("revalidateSeconds", match revalidate with Some n => JNum (NInt n) | None => JBool false end)]
        ++ match expire with Some n => [("expireSeconds", JNum (NInt n))] | None => [] end).

Definition write_fetch_tags (cacheKey : string) (data : option members) (ctx : SetCtx) (tags : list string) (ttlSeconds : Z)
    : method () :=
  match data with
  | Some ms =>
      if fetch_data data then
        let valueTags := tagsFromFetchValue (CMembers ms) in
        let fetchTags := match s_tags ctx with
                         | Some tags => capTags tags
                         | None => match valueTags with [] => tags | _ => valueTags end
                         end in
        catch (ask (SetText (fetchTagsKey cacheKey) (stringify (tags_json fetchTags)) ttlSeconds) (λ _, Ret tt)) (Ret tt)
      else Ret tt
  | None => Ret tt
  end.

Definition set (key : string) (data : option members) (ctx : SetCtx) : method () :=
  let cacheKey := canonicalPathCacheKey key in
  match extractTags data ctx with
  | None => Ret tt
  | Some tags =>
      let revalidate := write_revalidate data ctx in
      match write_ttl revalidate (s_cacheExpire ctx) with
      | None => Ret tt
      | Some ttlSeconds =>
          Look (λ clientNow _,
          let serialized := stringify (entry_json (JStr SERVER_TIMESTAMP_MARKER) data tags ttlSeconds
                              (mjoin revalidate) (mjoin (s_cacheExpire ctx))) in
          if maxBytes <? byteLength serialized then Ret tt
          else
            catch (ask (EvalStoreText (incKey cacheKey) serialized ttlSeconds clientNow) (λ _,
                   write_fetch_tags cacheKey data ctx tags ttlSeconds)) (Ret tt))
      end
  end.

Definition revalidateTag (tags : list string) (d : option durations) : method () :=
  let list := filterManifestTags tags in
  match list with
  | [] => Ret tt
  | _ => catch (Look (λ now _, send_updates (chunkManifestTags list) now d)) (Ret tt)
  end.
End Handler.
End Base64.

(** ** The store script *)

Definition STORE_INCREMENTAL_ENTRY_SCRIPT (lua_number : Z → string) (now : Z) (key payload : string)
    (ttlSeconds clientNow : Z) (s : server) : server * outcome unit Z :=
  if negb (marked "lastModified" payload) then (s, Throws tt)
  else
    (mkServer (entries s) (<[key := (stamped lua_number "lastModified" payload now, Some ttlSeconds)]> (texts s)) (tagStore s),
     Returns (if MAX_CLOCK_SKEW_MS <? Z.abs (now - clientNow) then 1 else 0)).

End IncrementalCache.
