(* ===== verification/UseCacheFacts.v ===== *)
(** * The front and its verdicts

    Proves of [UseCache]: the front is bounded and its byte count exact under each operation; a hit
    needs no manifest, since one deadline stands for the tags; the tag budget; the stamp of the
    store script. *)
From Stdlib Require Import Ascii String.
From S2P Require Import Prelude JsString Regex Json JsonParse TagManifest EtagCache EtagCacheFacts SharedCache UseCache.
Local Open Scope stdpp_scope.
Local Open Scope Z_scope.

Module UseCacheFacts.
Import TagManifest.TagManifest EtagCache.EtagCache(map_get, map_set, map_delete, map_size)
  EtagCacheFacts.EtagCacheFacts SharedCache.SharedCache UseCache.UseCache.

(** ** Sizes *)

Definition front_size (l : list (string * LocalEntry)) : Z := foldr (λ e n, localEntrySize e.1 e.2 + n) 0 l.

Lemma byteLength_pos s : 0 ≤ byteLength s.
Proof. unfold byteLength. lia. Qed.

Lemma tags_size_pos l : 0 ≤ tags_size l.
Proof.
  unfold tags_size. assert (∀ l n, 0 ≤ n → 0 ≤ foldl (λ size tag, size + (byteLength tag + 8)) n l) as H; [|by apply H].
  clear l. induction l as [|t l IH]; intros n Hn; cbn; [done|]. apply IH. pose proof (byteLength_pos t). lia.
Qed.

Lemma entry_size_pos k e : 0 < localEntrySize k e.
Proof.
  unfold localEntrySize, LOCAL_ENTRY_OVERHEAD_BYTES.
  pose proof (byteLength_pos k). pose proof (tags_size_pos (l_tags e)). pose proof (tags_size_pos (l_verifiedSoftTags e)). lia.
Qed.

Lemma front_size_cons k e l : front_size ((k, e) :: l) = localEntrySize k e + front_size l.
Proof. done. Qed.

Lemma front_size_pos l : 0 ≤ front_size l.
Proof. induction l as [|[k e] l IH]; [done|]. rewrite front_size_cons. pose proof (entry_size_pos k e). lia. Qed.

Lemma front_size_app l l' : front_size (l ++ l') = front_size l + front_size l'.
Proof. induction l as [|[k e] l IH]; [done|]. cbn [app]. rewrite !front_size_cons, IH. lia. Qed.

Lemma front_size_delete l k e : map_get l k = Some e → front_size (map_delete l k) = front_size l - localEntrySize k e.
Proof.
  induction l as [|[k' e'] l IH]; [done|]. cbn [map_get map_delete]. rewrite front_size_cons.
  destruct (String.eqb_spec k' k) as [->|].
  - intros [= ->]. lia.
  - intros H. rewrite front_size_cons, IH by done. lia.
Qed.

Lemma map_size_delete {A} (l : list (string * A)) k e : map_get l k = Some e → map_size (map_delete l k) = map_size l - 1.
Proof.
  unfold map_size. induction l as [|[k' e'] l IH]; cbn; [done|]. destruct (String.eqb_spec k' k); [lia|].
  intros H. cbn [length]. specialize (IH H). lia.
Qed.

(** The bytes of a front, exactly, and its bounds. *)
Record counted (h : handler) : Prop := {
  counted_keys : NoDup (localEntries h).*1;
  counted_bytes : localBytes h = front_size (localEntries h);
}.

Record bounded (h : handler) : Prop := {
  bounded_counted : counted h;
  bounded_bytes : localBytes h ≤ LOCAL_FRONT_MAX_BYTES;
  bounded_entries : map_size (localEntries h) ≤ LOCAL_FRONT_MAX_ENTRIES;
  bounded_warms : (size (warming h) ≤ LOCAL_FRONT_MAX_CONCURRENT_WARMS)%nat;
}.

(** What the front's operations leave alone. *)
Record same_rest (h h' : handler) : Prop := {
  same_epoch : manifestEpoch h' = manifestEpoch h;
  same_backing : backingAvailable h' = backingAvailable h;
  same_warming : warming h' = warming h;
  same_invocations : invocations h' = invocations h;
}.

#[export] Instance same_rest_preorder : PreOrder same_rest.
Proof. split; [by intros ?|]. intros a b c [] []. split; congruence. Qed.

Lemma remove_counted k h : counted h → counted (removeLocalEntry k h).
Proof.
  intros [Hk Hb]. unfold removeLocalEntry. destruct (map_get (localEntries h) k) as [e|] eqn:Hg; [|done].
  split; cbn; [by apply map_delete_NoDup|]. by rewrite (front_size_delete _ _ e), Hb.
Qed.

Lemma remove_rest k h : same_rest h (removeLocalEntry k h).
Proof. unfold removeLocalEntry. by destruct (map_get (localEntries h) k). Qed.

Lemma remove_elem k h e : e ∈ localEntries (removeLocalEntry k h) → e ∈ localEntries h.
Proof. unfold removeLocalEntry. destruct (map_get _ k); [|done]. apply map_delete_elem. Qed.

Lemma remove_absent k h : NoDup (localEntries h).*1 → k ∉ (localEntries (removeLocalEntry k h)).*1.
Proof.
  intros Hk. unfold removeLocalEntry. destruct (map_get (localEntries h) k) as [e|] eqn:Hg.
  - by apply map_delete_NoDup.
  - by apply map_get_None.
Qed.

Lemma remove_bytes k h : counted h → localBytes (removeLocalEntry k h) ≤ localBytes h.
Proof.
  intros [Hk Hb]. unfold removeLocalEntry. destruct (map_get (localEntries h) k) as [e|] eqn:Hg; [|done].
  cbn. pose proof (entry_size_pos k e). lia.
Qed.

Lemma remove_size k h : map_size (localEntries (removeLocalEntry k h)) ≤ map_size (localEntries h).
Proof.
  unfold removeLocalEntry. destruct (map_get (localEntries h) k) as [e|] eqn:Hg; [|done].
  cbn. rewrite (map_size_delete _ _ e) by done. lia.
Qed.

Lemma remove_bounded k h : bounded h → bounded (removeLocalEntry k h).
Proof.
  intros [Hc Hb He Hw]. split.
  - by apply remove_counted.
  - etrans; [by apply remove_bytes|done].
  - etrans; [by apply remove_size|done].
  - by rewrite (same_warming _ _ (remove_rest k h)).
Qed.

(** ** Eviction *)

Lemma evict_spec fuel h : counted h → (length (localEntries h) ≤ fuel)%nat →
  let h' := evict_front fuel h in
  counted h' ∧ localBytes h' ≤ LOCAL_FRONT_MAX_BYTES ∧ map_size (localEntries h') ≤ LOCAL_FRONT_MAX_ENTRIES
  ∧ same_rest h h' ∧ ∃ gone, localEntries h = gone ++ localEntries h'.
Proof.
  revert h. induction fuel as [|fuel IH]; intros h Hc Hl; cbn [evict_front].
  - destruct (localEntries h) as [|] eqn:Hh; [|cbn in Hl; lia]. destruct Hc as [_ Hb]. rewrite Hh in Hb. cbn in Hb.
    rewrite Hb. split_and!; [|done|done|done|by exists []]. split; rewrite Hh; [constructor|done].
  - destruct (_ || _) eqn:Ho.
    + destruct (localEntries h) as [|[k e] l] eqn:Hh.
      * destruct Hc as [_ Hb]. rewrite Hh in Hb. cbn in Hb. rewrite Hb in Ho. done.
      * assert (localEntries (removeLocalEntry k h) = l) as Hr.
        { unfold removeLocalEntry. rewrite Hh. cbn. by rewrite String.eqb_refl. }
        destruct (IH (removeLocalEntry k h)) as (Hc' & Hb' & He' & Hs & gone & Hg).
        { by apply remove_counted. } { rewrite Hr. cbn in Hl. lia. }
        split_and!; [done|done|done|etrans; [apply remove_rest|done]|].
        exists ((k, e) :: gone). rewrite Hr in Hg. cbn. by rewrite <- Hg.
    + apply orb_false_iff in Ho as [Hb%Z.ltb_ge He%Z.ltb_ge].
      split_and!; [done|done|done|done|by exists []].
Qed.

Lemma put_spec k e h : bounded h →
  let h' := putLocalEntry k e h in
  bounded h' ∧ same_rest h h' ∧ ∀ x, x ∈ localEntries h' → x ∈ localEntries h ∨ x = (k, e).
Proof.
  intros Hb. unfold putLocalEntry. destruct (match map_get _ k with Some _ => _ | None => _ end).
  { split_and!; [done|done|by left]. }
  pose proof (remove_bounded k h Hb) as Hr. pose proof (remove_rest k h) as Hs.
  destruct (_ <? _) eqn:Hsize.
  { split_and!; [done|done|]. intros x Hx. left. by eapply remove_elem. }
  set (h1 := with_front _ _ _). assert (localEntries h1 = localEntries (removeLocalEntry k h) ++ [(k, e)]) as Hl.
  { cbn. apply map_set_new, remove_absent. by destruct Hb as [[]]. }
  destruct (evict_spec (length (localEntries h1)) h1) as (Hc' & Hb' & He' & Hs' & gone & Hg); [|done|].
  { destruct Hr as [[Hk Hbytes] _ _ _]. split.
    - rewrite Hl, fmap_app. apply NoDup_app. split_and!; [done| |apply NoDup_singleton].
      intros x Hx Hk'%list_elem_of_singleton. subst x. revert Hx. apply remove_absent. by destruct Hb as [[]].
    - rewrite Hl, front_size_app. cbn. rewrite Hbytes. lia. }
  split_and!.
  - split; [done|done|done|]. rewrite (same_warming _ _ Hs'). apply Hr.
  - etrans; [exact Hs|]. etrans; [|exact Hs']. done.
  - intros x Hx. assert (x ∈ localEntries h1) as Hx1 by (rewrite Hg; by apply elem_of_app; right).
    rewrite Hl in Hx1. apply elem_of_app in Hx1 as [Hx1|Hx1%list_elem_of_singleton]; [left; by eapply remove_elem|by right].
Qed.

Lemma readd_spec k e h : counted h → map_get (localEntries h) k = Some e →
  let l := map_set (map_delete (localEntries h) k) k e in
  NoDup l.*1 ∧ front_size l = front_size (localEntries h) ∧ map_size l = map_size (localEntries h)
  ∧ ∀ x, x ∈ l → x ∈ localEntries h.
Proof.
  intros [Hk Hb] Hg. destruct (map_delete_NoDup _ k Hk) as [Hd Hn]. cbv zeta. rewrite map_set_new by done. split_and!.
  - rewrite fmap_app. apply NoDup_app. split_and!; [done| |apply NoDup_singleton]. intros x Hx Hk'%list_elem_of_singleton. by subst x.
  - rewrite front_size_app, (front_size_delete _ _ e) by done. cbn. lia.
  - unfold map_size in *. rewrite length_app. cbn. pose proof (map_size_delete _ _ e Hg). unfold map_size in *. lia.
  - intros x [Hx%map_delete_elem|Hx%list_elem_of_singleton]%elem_of_app; [done|]. subst x. by apply map_get_elem.
Qed.

Lemma read_spec now k softs h : bounded h →
  let r := readLocalEntry now k softs h in
  bounded r.2 ∧ same_rest h r.2 ∧ (∀ x, x ∈ localEntries r.2 → x ∈ localEntries h).
Proof.
  intros Hb. unfold readLocalEntry. destruct (map_get (localEntries h) k) as [e|] eqn:Hg; [|done].
  destruct (existsb _ softs); [done|]. cbv zeta. destruct (_ || _).
  - split_and!; [by apply remove_bounded|apply remove_rest|apply remove_elem].
  - destruct Hb as [Hc Hb He Hw]. destruct (readd_spec k e h Hc Hg) as (Hn & Hf & Hs & Hx).
    destruct Hc as [Hk Hbytes]. cbn [snd]. split_and!; [|done|done].
    split; cbn [with_front localEntries localBytes warming]; [split; [done|by etrans]|done|by rewrite Hs|done].
Qed.

(** ** Verdicts *)

Definition offset (c : ValkeyClockSample) : Z := serverNow c - localNow c.

Lemma next_spec ts m :
  (∀ d, nextTagExpiration ts m = Some d → ∃ t s, m !! t = Some s ∧ expired s = Some d ∧ ts < d)
  ∧ (∀ t s x, m !! t = Some s → expired s = Some x → ts < x → ∃ d, nextTagExpiration ts m = Some d ∧ d ≤ x).
Proof.
  unfold nextTagExpiration. apply (map_fold_weak_ind (λ r m,
    (∀ d, r = Some d → ∃ t s, m !! t = Some s ∧ expired s = Some d ∧ ts < d)
    ∧ ∀ t s x, m !! t = Some s → expired s = Some x → ts < x → ∃ d, r = Some d ∧ d ≤ x)).
  { split; [done|]. intros t s x Ht. by rewrite lookup_empty in Ht. }
  intros i s m' r Hi [Hr1 Hr2].
  assert (∀ d, r = Some d → ∃ t s', <[i := s]> m' !! t = Some s' ∧ expired s' = Some d ∧ ts < d) as Hold.
  { intros d (t & s' & Ht & Hx)%Hr1. exists t, s'. split; [|done].
    rewrite lookup_insert_ne; [done|]. intros ->. congruence. }
  unfold earlier. destruct (expired s) as [x|] eqn:Hs; [destruct (Z.ltb_spec ts x) as [Hlt|Hge]|].
  - split.
    + intros d Hd. destruct r as [d'|].
      * destruct (Z.min_spec d' x) as [[_ Hm]|[_ Hm]]; rewrite Hm in Hd; injection Hd as <-; [auto|].
        exists i, s. by rewrite lookup_insert_eq.
      * injection Hd as <-. exists i, s. by rewrite lookup_insert_eq.
    + intros t s' y Ht Hy Hty. destruct (decide (i = t)) as [<-|Hne].
      * rewrite lookup_insert_eq in Ht. simplify_eq. destruct r as [d'|]; eexists; (split; [done|lia]).
      * rewrite lookup_insert_ne in Ht by done. destruct (Hr2 t s' y) as (d & -> & Hd); [done..|].
        eexists. split; [done|lia].
  - split; [done|]. intros t s' y Ht Hy Hty. destruct (decide (i = t)) as [<-|Hne]; [|rewrite lookup_insert_ne in Ht by done; eauto].
    rewrite lookup_insert_eq in Ht. simplify_eq. lia.
  - split; [done|]. intros t s' y Ht Hy Hty. destruct (decide (i = t)) as [<-|Hne]; [|rewrite lookup_insert_ne in Ht by done; eauto].
    rewrite lookup_insert_eq in Ht. by simplify_eq.
Qed.

Lemma evaluate_fresh second ts r ex tags m now r' :
  evaluateIn second (mkEntry ts r ex tags) m now = Fresh r' ↔
  r' = r ∧ now ≤ ts + ex * second ∧ now ≤ ts + r * second
  ∧ areTagsExpired tags ts m now = false ∧ areTagsStale tags ts m = false.
Proof.
  unfold evaluateIn. cbn [e_timestamp e_expire e_revalidate e_tags]. destruct (areTagsExpired _ _ _ _), (areTagsStale _ _ _), (Z.ltb_spec (ts + ex * second) now),
    (Z.ltb_spec (ts + r * second) now); split; try (by intros ?); try (by intros (?&?&?&?&?)); try lia.
  - by intros [= ->].
  - by intros [-> _].
Qed.

Lemma evaluate_expired second ts r ex tags m now : areTagsStale tags ts m = false →
  evaluateIn second (mkEntry ts r ex tags) m now = Expired ↔
  ts + ex * second < now ∨ ts + r * second < now ∨ areTagsExpired tags ts m now = true.
Proof.
  intros Hs. unfold evaluateIn. cbn [e_timestamp e_expire e_revalidate e_tags]. rewrite Hs. destruct (areTagsExpired _ _ _ _), (Z.ltb_spec (ts + ex * second) now),
    (Z.ltb_spec (ts + r * second) now); split; try (by intros ?); auto; intros [|[|]]; (done || lia).
Qed.

Lemma expired_agree tags ts m m' now : (∀ t, t ∈ tags → m !! t = m' !! t) →
  areTagsExpired tags ts m now = areTagsExpired tags ts m' now.
Proof.
  intros H. unfold areTagsExpired. induction tags as [|t tags IH]; cbn; [done|]. unfold tag_expires at 1 3.
  rewrite H by left. rewrite IH; [done|]. intros t' Ht. apply H. by right.
Qed.

Lemma stale_agree tags ts m m' : (∀ t, t ∈ tags → m !! t = m' !! t) → areTagsStale tags ts m = areTagsStale tags ts m'.
Proof.
  intros H. unfold areTagsStale. induction tags as [|t tags IH]; cbn; [done|].
  rewrite H by left. rewrite IH; [done|]. intros t' Ht. apply H. by right.
Qed.

Lemma evaluate_agree second ts r ex tags m m' now : (∀ t, t ∈ tags → m !! t = m' !! t) →
  evaluateIn second (mkEntry ts r ex tags) m now = evaluateIn second (mkEntry ts r ex tags) m' now.
Proof. intros H. unfold evaluateIn. cbn [e_timestamp e_expire e_revalidate e_tags]. by rewrite (expired_agree _ _ m m'), (stale_agree _ _ m m'). Qed.

Lemma fresh_subset second ts r ex tags tags' m now r' : (∀ t, t ∈ tags' → t ∈ tags) →
  evaluateIn second (mkEntry ts r ex tags) m now = Fresh r' → evaluateIn second (mkEntry ts r ex tags') m now = Fresh r'.
Proof.
  intros Hsub. rewrite !evaluate_fresh. intros (-> & He & Hr & Hx & Hs). split_and!; [done..| |].
  - apply existsb_false_In. intros t Ht. eapply existsb_false_In in Hx; [exact Hx|auto].
  - apply existsb_false_In. intros t Ht. eapply existsb_false_In in Hs; [exact Hs|auto].
Qed.

Lemma past_spec d now : past d now = true ↔ ∃ x, d = Some x ∧ x ≤ now.
Proof. destruct d as [d|]; cbn; [|split; [done|by intros (?&?&?)]]. rewrite Z.leb_le. naive_solver. Qed.

(** The deadline passes exactly when a tag of the manifest expires the entry, on the sampled clock. *)
Lemma deadline_spec ts tags m clock now : (∀ t, is_Some (m !! t) → t ∈ tags) →
  past (local_deadline ts m clock) (twice now) = areTagsExpired tags ts (twice_manifest m) (twice now + offset clock).
Proof.
  intros Hdom. destruct (next_spec ts (twice_manifest m)) as [Hn1 Hn2]. apply eq_true_iff_eq.
  unfold areTagsExpired. rewrite past_spec, existsb_In. unfold local_deadline, toLocal, offset. split.
  - intros (x & Hx & Hle). apply fmap_Some in Hx as (d & Hd & ->). destruct (Hn1 _ Hd) as (t & s & Ht & He & Hlt).
    exists t. split.
    + apply Hdom. unfold twice_manifest in Ht. rewrite lookup_fmap in Ht. apply fmap_Some in Ht as (? & -> & _). done.
    + unfold tag_expires. rewrite Ht. destruct s as [? e ?]. cbn in He. subst e. rewrite andb_true_iff, Z.leb_le, Z.ltb_lt. lia.
  - intros (t & Ht & He). unfold tag_expires in He. destruct (twice_manifest m !! t) as [[? [x|] ?]|] eqn:Hm; try done. b2p.
    destruct (Hn2 t _ x Hm eq_refl) as (d & -> & Hd); [done|]. eexists. split; [done|]. lia.
Qed.

(** A front entry that was admitted: [softs] were checked with its tags against [m]. *)
Record admitted (softs : list string) (m : manifest) (c : ValkeyClockSample) (e : LocalEntry) : Prop := {
  admitted_deadline : l_tagExpiresAt e = local_deadline (l_timestamp e + offset c) m c;
  admitted_softs : ∀ t, t ∈ l_verifiedSoftTags e → t ∈ softs;
  admitted_tags : ∀ t, is_Some (m !! t) → t ∈ l_tags e ++ softs;
  admitted_fresh : judge (l_timestamp e + offset c) (l_revalidate e) (l_expire e) (l_tags e ++ softs) m c
                   = Fresh (l_revalidate e);
}.

(** The verdict a front entry needs at local time [now], the clocks being apart as they were sampled. *)
Definition shared_verdict (softs : list string) (m : manifest) (c : ValkeyClockSample) (e : LocalEntry) (now : Z) : Freshness :=
  evaluateIn SECOND (mkEntry (l_timestamp e + offset c) (l_revalidate e) (l_expire e) (l_tags e ++ softs))
    (twice_manifest m) (twice now + offset c).

Lemma verdict_of_front softs m c e now : admitted softs m c e →
  let local := evaluateIn SECOND (mkEntry (l_timestamp e) (l_revalidate e) (l_expire e) []) ∅ (twice now) in
  shared_verdict softs m c e now
  = if past (l_tagExpiresAt e) (twice now) || bool_decide (local = Expired) then Expired else Fresh (l_revalidate e).
Proof.
  intros [Hd Hsub Hdom Hf]. cbv zeta. unfold judge in Hf. apply evaluate_fresh in Hf as (_ & _ & _ & _ & Hs).
  rewrite Hd, (deadline_spec _ _ _ _ _ Hdom). unfold shared_verdict, evaluateIn.
  cbn [e_timestamp e_expire e_revalidate e_tags]. rewrite Hs.
  change (areTagsExpired [] _ _ _) with false. change (areTagsStale [] _ _) with false. cbv iota.
  destruct (Z.ltb_spec (l_timestamp e + offset c + l_expire e * SECOND) (twice now + offset c)),
    (Z.ltb_spec (l_timestamp e + l_expire e * SECOND) (twice now)); try lia;
  destruct (Z.ltb_spec (l_timestamp e + offset c + l_revalidate e * SECOND) (twice now + offset c)),
    (Z.ltb_spec (l_timestamp e + l_revalidate e * SECOND) (twice now)); try lia;
  destruct (areTagsExpired _ _ _ _); cbn; done.
Qed.

Lemma read_hit now k soft h r : (readLocalEntry now k soft h).1 = Some r → ∃ e,
  map_get (localEntries h) k = Some e ∧ (∀ t, t ∈ soft → t ∈ l_verifiedSoftTags e)
  ∧ past (l_tagExpiresAt e) (twice now)
    || bool_decide (evaluateIn SECOND (mkEntry (l_timestamp e) (l_revalidate e) (l_expire e) []) ∅ (twice now) = Expired) = false
  ∧ r = mkCacheEntry (l_value e) (l_tags e) (l_stale e) (l_timestamp e) (l_expire e) (l_revalidate e).
Proof.
  unfold readLocalEntry. destruct (map_get (localEntries h) k) as [e|]; [|done].
  destruct (existsb _ soft) eqn:Hs; [done|]. cbv zeta. destruct (_ || _) eqn:Hp; [done|]. cbn [fst]. intros [= <-].
  exists e. split_and!; [done| |done|].
  - intros t Ht. eapply existsb_false_In in Hs; [|exact Ht]. by b2p.
  - apply orb_false_iff in Hp as [_ He]. f_equal. destruct (evaluateIn _ _ _ _) eqn:Hv; [by rewrite bool_decide_true in He| |].
    + revert Hv. unfold evaluateIn, areTagsExpired, areTagsStale. cbn [e_tags existsb]. by repeat destruct (_ <? _).
    + by apply evaluate_fresh in Hv as [-> _].
Qed.

(** C30. A front entry keeps one deadline and no manifest.  For an entry that was admitted, at every
    local time the front answers what the full freshness rule says of the entry, with its tags and the
    soft tags it was checked with, against the shared manifest and on the sampled clock: a miss
    exactly when it has expired, and otherwise a hit with the entry's own window. *)
Theorem front_answers_shared_verdict softs m c e k soft h now :
  admitted softs m c e → map_get (localEntries h) k = Some e → (∀ t, t ∈ soft → t ∈ l_verifiedSoftTags e) →
  match (readLocalEntry now k soft h).1 with
  | Some r => shared_verdict softs m c e now = Fresh (c_revalidate r)
  | None => shared_verdict softs m c e now = Expired
  end.
Proof.
  intros Ha Hg Hs. pose proof (verdict_of_front softs m c e now Ha) as Hv. cbv zeta in Hv.
  destruct (readLocalEntry now k soft h).1 as [r|] eqn:Hr.
  - apply read_hit in Hr as (e' & Hg' & _ & Hp & ->). rewrite Hg in Hg'. injection Hg' as <-. by rewrite Hp in Hv.
  - revert Hr. unfold readLocalEntry. rewrite Hg. destruct (existsb _ soft) eqn:Hb.
    + apply existsb_In in Hb as (t & Ht & Hn). b2p. by destruct Hn; apply Hs.
    + cbv zeta. by destruct (_ || _).
Qed.

(** An entry with a tag that a profile expires at 400, read at 150 and at 260 of a clock 100 behind. *)
Lemma front_answers_shared_verdict_witness :
  let m := {[ "t" := mkTagState None (Some 400) (Some 10) ]} in
  let c := mkSample (twice 200) (twice 100) in
  let e := mkLocal (Some (twice 300)) ["t"] ["s"] None (twice 50) 1000 1000 "body" in
  let h := with_front [("k", e)] 300 new_handler in
  (shared_verdict ["s"] m c e 150 = Fresh 1000) ∧ shared_verdict ["s"] m c e 310 = Expired.
Proof.
  cbv zeta. assert (admitted ["s"] {[ "t" := mkTagState None (Some 400) (Some 10) ]} (mkSample (twice 200) (twice 100))
    (mkLocal (Some (twice 300)) ["t"] ["s"] None (twice 50) 1000 1000 "body")) as Ha.
  { split; [by vm_compute|done| |by vm_compute]. intros t [s Ht]. apply lookup_singleton_Some in Ht as [<- _]. left. }
  pose proof (λ now, front_answers_shared_verdict _ _ _ _ "k" ["s"] (with_front [("k", _)] 300 new_handler) now Ha eq_refl (λ t H, H)) as H.
  split; [exact (H 150)|exact (H 310)].
Defined.

(** ** The tag budget *)

Definition tags_cost (tags : list string) : Z := foldr (λ t n, tagCostBytes t + n) 0 tags.

(** Tags that are not empty and within the limit Next applies to them. *)
Definition storable (tag : string) : bool :=
  negb (String.length tag =? 0)%nat && negb (maxTagLength tag <? String.length tag)%nat.

Lemma tag_cost_pos t : 0 < tagCostBytes t.
Proof. unfold tagCostBytes. pose proof (byteLength_pos t). lia. Qed.

Lemma reserved_bytes_cons t l :
  reserved_bytes (t :: l) = (if isRootParamTag t then tagCostBytes t else 0) + reserved_bytes l.
Proof.
  assert (∀ l n, foldl (λ n tag, if isRootParamTag tag then n + tagCostBytes tag else n) n l = n + reserved_bytes l) as H.
  { clear. unfold reserved_bytes. induction l as [|t l IH]; intros n; cbn [foldl]; [lia|].
    rewrite IH, (IH (if isRootParamTag t then 0 + tagCostBytes t else 0)). destruct (isRootParamTag t); lia. }
  unfold reserved_bytes at 1. cbn [foldl]. rewrite H. destruct (isRootParamTag t); lia.
Qed.

Lemma spend_spec budget l : 0 ≤ budget →
  tags_cost (spend budget l) ≤ budget + reserved_bytes l
  ∧ spend budget l `sublist_of` l
  ∧ filter (λ t, isRootParamTag t = true) (spend budget l) = filter (λ t, isRootParamTag t = true) l
  ∧ (tags_cost l ≤ budget + reserved_bytes l → spend budget l = l).
Proof.
  revert budget. induction l as [|t l IH]; intros budget Hb; [cbn; split_and!; [lia|constructor|done|done]|].
  cbn [spend]. rewrite reserved_bytes_cons. pose proof (tag_cost_pos t) as Hp. destruct (isRootParamTag t) eqn:Ht.
  - destruct (IH budget Hb) as (Hc & Hs & Hf & He). split_and!.
    + cbn [tags_cost foldr]. fold (tags_cost (spend budget l)). lia.
    + by constructor.
    + rewrite !filter_cons_True by done. by f_equal.
    + cbn [tags_cost foldr]. fold (tags_cost l). intros H. rewrite He; [done|lia].
  - destruct (Z.ltb_spec budget (tagCostBytes t)) as [Hlt|Hge].
    + destruct (IH budget Hb) as (Hc & Hs & Hf & He). split_and!; [lia|by constructor| |].
      * rewrite Hf. rewrite filter_cons_False; [done|]. by rewrite Ht.
      * cbn [tags_cost foldr]. fold (tags_cost l). assert (reserved_bytes l ≤ tags_cost l); [|lia].
        clear. induction l as [|t l IH]; [done|]. rewrite reserved_bytes_cons. cbn [tags_cost foldr]. fold (tags_cost l).
        pose proof (tag_cost_pos t). destruct (isRootParamTag t); lia.
    + destruct (IH (budget - tagCostBytes t)) as (Hc & Hs & Hf & He); [lia|]. split_and!.
      * cbn [tags_cost foldr]. fold (tags_cost (spend (budget - tagCostBytes t) l)). lia.
      * by constructor.
      * rewrite !filter_cons_False by (by rewrite Ht). done.
      * cbn [tags_cost foldr]. fold (tags_cost l). intros H. rewrite He; [done|lia].
Qed.

Lemma well_formed_spec n l :
  well_formed n l `sublist_of` l
  ∧ Forall (λ t, storable t = true) (well_formed n l)
  ∧ filter (λ t, isRootParamTag t = true) (well_formed n l)
    = take (MAX_ROOT_PARAM_TAGS - n) (filter (λ t, isRootParamTag t = true) (filter (λ t, storable t = true) l)).
Proof.
  revert n. induction l as [|t l IH]; intros n; [cbn; split_and!; [constructor|constructor|by rewrite take_nil]|].
  cbn [well_formed].
  assert (storable t = true → filter (λ t, storable t = true) (t :: l) = t :: filter (λ t, storable t = true) l) as Hin
    by (intros H; by rewrite filter_cons_True).
  assert (storable t = false → filter (λ t, storable t = true) (t :: l) = filter (λ t, storable t = true) l) as Hout
    by (intros H; rewrite filter_cons_False; [done|by rewrite H]).
  destruct (Nat.eqb_spec (String.length t) 0) as [H0|H0]; [|destruct (Nat.ltb_spec (maxTagLength t) (String.length t)) as [Hm|Hm]].
  - destruct (IH n) as (Hs & Hk & Hf). split_and!; [by constructor|done|]. rewrite Hout; [done|]. unfold storable. by rewrite H0.
  - destruct (IH n) as (Hs & Hk & Hf). split_and!; [by constructor|done|]. rewrite Hout; [done|].
    unfold storable. rewrite (proj2 (Nat.ltb_lt _ _) Hm). by rewrite andb_false_r.
  - assert (storable t = true) as Hst.
    { unfold storable. rewrite (proj2 (Nat.eqb_neq _ _) H0), (proj2 (Nat.ltb_ge _ _) Hm). done. }
    rewrite Hin by done. destruct (isRootParamTag t) eqn:Ht.
    + rewrite (filter_cons_True _ t (filter _ l)) by done.
      destruct (IH (S n)) as (Hs & Hk & Hf). destruct (Nat.ltb_spec MAX_ROOT_PARAM_TAGS (S n)) as [Hlt|Hge].
      * split_and!; [by constructor|done|]. rewrite Hf. replace (MAX_ROOT_PARAM_TAGS - S n)%nat with 0%nat by lia.
        by replace (MAX_ROOT_PARAM_TAGS - n)%nat with 0%nat by lia.
      * split_and!; [by constructor|by constructor|]. rewrite filter_cons_True by done. rewrite Hf.
        by replace (MAX_ROOT_PARAM_TAGS - n)%nat with (S (MAX_ROOT_PARAM_TAGS - S n)) by lia.
    + destruct (IH n) as (Hs & Hk & Hf). split_and!; [by constructor|by constructor|].
      rewrite !filter_cons_False by (by rewrite Ht). done.
Qed.

Lemma cap_sublist raw : capTags raw `sublist_of` raw.
Proof.
  unfold capTags. etrans; [|apply well_formed_spec]. eapply spend_spec.
  destruct (Z.ltb_spec MAX_TAG_BYTES_PER_ENTRY (reserved_bytes (well_formed 0 raw))); lia.
Qed.


(** ** Stamping a stored entry *)

(** The text of an object whose first member is [first]. *)
Lemma object_text first v rest : rest ≠ [] → stringify (JObj ((first, v) :: rest))
  = stamp_head first +:+ stringify v +:+ "," +:+ join "," (map (λ f, json_quote f.1 +:+ ":" +:+ stringify f.2) rest) +:+ "}".
Proof. intros H. destruct rest as [|r rest]; [done|]. unfold stamp_head. cbn [stringify map join fst snd]. by rewrite !append_assoc. Qed.

Lemma stamped_object lua first ts rest : rest ≠ [] → lua ts = z_text ts →
  let payload := stringify (JObj ((first, JStr SERVER_TIMESTAMP_MARKER) :: rest)) in
  marked first payload = true ∧ stamped lua first payload ts = stringify (JObj ((first, JNum (NInt ts)) :: rest)).
Proof.
  intros Hr Hlua. cbv zeta. rewrite !object_text by done.
  change (stringify (JStr SERVER_TIMESTAMP_MARKER)) with (json_quote SERVER_TIMESTAMP_MARKER).
  rewrite <- (append_assoc (stamp_head first) (json_quote _)). fold (stamp_marker first). unfold marked, stamped. split.
  - rewrite take_string_append. apply String.eqb_refl.
  - by rewrite drop_string_append, Hlua.
Qed.

Lemma meta_valid ts tags st ex rv : safe_integer ts = true → safe_integer st = true → safe_integer ex = true →
  safe_integer rv = true → valid_json (meta_json (JNum (NInt ts)) tags (Some st) (Some ex) (Some rv)).
Proof.
  intros Hts Hst Hex Hrv. assert (∀ n, safe_integer n = true → valid_json (JNum (NInt n))) as Hn.
  { intros n H. split; [done|by apply canonical_int]. }
  apply (valid_members [("timestamp", JNum (NInt ts)); ("tags", JArr (map JStr tags)); ("stale", JNum (NInt st));
    ("expire", JNum (NInt ex)); ("revalidate", JNum (NInt rv))]).
  repeat apply List.Forall_cons; cbn [snd]; try (by apply Hn); [|constructor].
  apply valid_arr. apply Forall_forall. intros j Hj. apply list_elem_of_In, in_map_iff in Hj as (t & <- & _). done.
Qed.

Lemma strings_of tags : mapM string_of (map JStr tags) = Some tags.
Proof. induction tags as [|t tags IH]; [done|]. cbn. by rewrite IH. Qed.

Lemma parse_meta ts tags st ex rv : safe_integer ts = true → safe_integer st = true → safe_integer ex = true →
  safe_integer rv = true →
  parseStoredMeta (stringify (meta_json (JNum (NInt ts)) tags (Some st) (Some ex) (Some rv)))
  = Some (mkStoredMeta tags st ts ex rv).
Proof.
  intros. unfold parseStoredMeta. rewrite parse_valid by (by apply meta_valid). unfold meta_json.
  unfold finite_prop. cbn [prop String.eqb Ascii.eqb Bool.eqb life_json]. by rewrite strings_of.
Qed.

(** The store script, given the meta that set sends, accepts it, whatever the tags say, and what a
    reader parses back is that meta with the start of the render in the server's domain: the time
    the render took is kept, and only the key that was written changes. *)
Theorem stored_meta_roundtrip lua now key value ttl entryTimestamp clientNow tags st ex rv s :
  let timestamp := now + entryTimestamp - clientNow in
  lua timestamp = z_text timestamp →
  safe_integer timestamp = true → safe_integer st = true → safe_integer ex = true → safe_integer rv = true →
  let payload := stringify (meta_json (JStr SERVER_TIMESTAMP_MARKER) tags (Some st) (Some ex) (Some rv)) in
  let r := STORE_USE_CACHE_ENTRY_SCRIPT lua now key payload value ttl entryTimestamp clientNow s in
  (∃ clamped, r.2 = Returns clamped)
  ∧ (∃ e m, entries r.1 !! key = Some e ∧ s_m e = Some m ∧ s_v e = Some value ∧ s_ttl e = Some ttl
      ∧ parseStoredMeta m = Some (mkStoredMeta tags st timestamp ex rv))
  ∧ (∀ key', key' ≠ key → entries r.1 !! key' = entries s !! key') ∧ tagStore r.1 = tagStore s.
Proof.
  cbv zeta. intros Hlua Hts Hst Hex Hrv. unfold STORE_USE_CACHE_ENTRY_SCRIPT.
  destruct (stamped_object lua "timestamp" (now + entryTimestamp - clientNow)
    [("tags", JArr (map JStr tags)); ("stale", life_json (Some st)); ("expire", life_json (Some ex));
     ("revalidate", life_json (Some rv))]) as [Hm Hst']; [done|done|]. unfold meta_json. rewrite Hm, Hst'.
  cbn [negb fst snd entries tagStore]. split_and!.
  - by eexists.
  - eexists _, _. rewrite lookup_insert_eq. split_and!; [done..|]. by apply parse_meta.
  - intros key' Hne. by rewrite lookup_insert_ne.
  - done.
Qed.

(** A tag that contains the marker's own text, on a client 50 ms ahead of the server. *)
Lemma stored_meta_roundtrip_witness :
  let tags := [stamp_marker "timestamp"; "post"] in
  let payload := stringify (meta_json (JStr SERVER_TIMESTAMP_MARKER) tags (Some 30) (Some 900) (Some 60)) in
  let r := STORE_USE_CACHE_ENTRY_SCRIPT z_text 1000 "k" payload "body" 960 1010 1050 (mkServer ∅ ∅ (mkStore ∅ None)) in
  ∃ e m, entries r.1 !! "k" = Some e ∧ s_m e = Some m ∧ s_v e = Some "body" ∧ s_ttl e = Some 960
    ∧ parseStoredMeta m = Some (mkStoredMeta tags 30 960 900 60).
Proof.
  cbv zeta. apply (stored_meta_roundtrip z_text 1000 "k" "body" 960 1010 1050 [stamp_marker "timestamp"; "post"] 30 900 60
    (mkServer ∅ ∅ (mkStore ∅ None))); done.
Defined.

(** ** Keys *)

Definition no_colon (c : ascii) : bool := negb (Ascii.eqb c ":").

Lemma safe_build_id b : assertSafeBuildId b = Returns tt → all_chars no_colon b = true.
Proof.
  unfold assertSafeBuildId. destruct (re_test SAFE_BUILD_ID b) eqn:H; [|done]. intros _.
  apply re_test_spec in H. eapply within_sound; [|exact H]. by vm_compute.
Qed.

Lemma prefix_inj b b' r r' : all_chars no_colon b = true → all_chars no_colon b' = true →
  prefix_of_build b +:+ r = prefix_of_build b' +:+ r' → b = b' ∧ r = r'.
Proof.
  unfold prefix_of_build. intros Hb Hb' H. rewrite !append_assoc in H. injection H as H.
  apply (f_equal (cut_first ":")) in H. change (":" +:+ r) with (String ":" r) in H. change (":" +:+ r') with (String ":" r') in H.
  rewrite !cut_first_app in H by done. by injection H.
Qed.

(** Builds with accepted ids share no key, and no entry's key is a manifest's. *)
Theorem keyspace_isolated b b' k k' :
  assertSafeBuildId b = Returns tt → assertSafeBuildId b' = Returns tt →
  (entryKey b k = entryKey b' k' → b = b' ∧ k = k') ∧ (tagsKey b = tagsKey b' → b = b') ∧ entryKey b k ≠ tagsKey b'.
Proof.
  intros Hb%safe_build_id Hb'%safe_build_id. unfold entryKey, tagsKey. split_and!.
  - intros [-> H]%prefix_inj; [|done..]. by injection H.
  - by intros [-> _]%prefix_inj.
  - intros [_ H]%prefix_inj; done.
Qed.

Lemma keyspace_isolated_witness : entryKey "a" "tags" ≠ tagsKey "a".
Proof. apply (keyspace_isolated "a" "a" "tags" "tags"); by vm_compute. Defined.

End UseCacheFacts.
