(* ===== verification/IncrementalFacts.v ===== *)
(** * Records of the incremental cache handler

    Proves of [IncrementalCache]: a record survives its store, stamped with the server's clock; what a
    stale reader is told; the delimiters of a decoded cache key. *)
From Stdlib Require Import Ascii String.
From S2P Require Import Prelude JsString Json JsonParse TagManifest SharedCache UseCache IncrementalCache UseCacheFacts.
Local Open Scope stdpp_scope.
Local Open Scope Z_scope.

Module IncrementalFacts.
Import TagManifest.TagManifest SharedCache.SharedCache UseCacheFacts.UseCacheFacts IncrementalCache.IncrementalCache.

(** ** Round trip of a record *)

(** The bytes of a Buffer, and the records Next hands over: Buffers and the Map where it keeps them, and JSON elsewhere, none of it
    in the shape the handler gives a Buffer or the Map. *)
Definition bytes (b : list Z) : Prop := Forall (λ n, 0 ≤ n < 256) b.

Definition plain_member (name : string) (m : member) : Prop :=
  match m with
  | MJson j =>
      valid_json j
      ∧ match j with
        | JObj fs => (is_binary name = true → prop fs "__b64" = None)
                     ∧ (name = "segmentData" → prop fs "__segmap" = None)
        | _ => True
        end
  | MBuffer b => is_binary name = true ∧ bytes b
  | MSegments l => name = "segmentData" ∧ NoDup l.*1 ∧ Forall bytes l.*2
  end.

Definition plain_data (data : option members) : Prop :=
  match data with None => True | Some ms => NoDup ms.*1 ∧ Forall (λ m, plain_member m.1 m.2) ms end.

(** What decodeValue makes of it. *)
Definition cached_data (data : option members) : cached :=
  match data with None => CPlain JNull | Some ms => CMembers ms end.

Lemma valid_object (fs : obj) : NoDup fs.*1 → Forall (λ f, valid_json f.2) fs → valid_json (JObj fs).
Proof. intros Hn Hv. rewrite <- (from_members_id fs Hn). by apply valid_members. Qed.

Lemma valid_int n : safe_integer n = true → valid_json (JNum (NInt n)).
Proof. intros H. split; [done|by apply canonical_int]. Qed.

Lemma valid_tags tags : valid_json (tags_json tags).
Proof. apply valid_arr, Forall_forall. intros j Hj. apply list_elem_of_In, in_map_iff in Hj as (t & <- & _). done. Qed.

Section RoundTrip.
Variable to_base64 : list Z → string.
Variable from_base64 : string → list Z.
Hypothesis base64_inverse : ∀ b, bytes b → from_base64 (to_base64 b) = b.

Lemma encode_valid name m : plain_member name m → valid_json (encode_member to_base64 name m).
Proof.
  destruct m as [j|b|l]; cbn [plain_member encode_member].
  - by intros [].
  - intros [-> _]. apply valid_object; [apply NoDup_singleton|]. by apply Forall_singleton.
  - intros (-> & Hn & _). change (String.eqb "segmentData" "segmentData") with true. cbv iota. apply valid_object; [apply NoDup_singleton|].
    apply Forall_singleton. cbn [snd]. apply valid_object.
    + replace (map (λ s, (s.1, JStr (to_base64 s.2))) l).*1 with l.*1; [done|]. induction l as [|x l IH]; [done|]. cbn. f_equal.
      apply IH. by apply NoDup_cons in Hn as [].
    + apply Forall_forall. intros f Hf. apply list_elem_of_In, in_map_iff in Hf as (s & <- & _). done.
Qed.

Lemma encode_value_valid data : plain_data data → valid_json (encodeValue to_base64 data).
Proof.
  destruct data as [ms|]; [|done]. intros [Hn Hp]. apply valid_object.
  - replace (map _ ms).*1 with ms.*1; [done|]. clear. induction ms as [|m ms IH]; [done|]. cbn. by f_equal.
  - apply Forall_forall. intros f Hf. apply list_elem_of_In, in_map_iff in Hf as (m & <- & Hm%list_elem_of_In). cbn.
    apply encode_valid. by eapply Forall_forall in Hp.
Qed.

Lemma segments_decode l : Forall bytes l.*2 → mapM (decode_segment from_base64) (map (λ s, (s.1, JStr (to_base64 s.2))) l) = Some l.
Proof.
  induction l as [|[k b] l IH]; [done|]. cbn [fmap list_fmap snd]. intros [Hb Hl]%Forall_cons. cbn [map mapM]. change (mapM _ (map _ l)) with (mapM (decode_segment from_base64) (map (λ s, (s.1, JStr (to_base64 s.2))) l)).
  rewrite IH by done. cbn. by rewrite base64_inverse.
Qed.

Lemma member_decodes name m : plain_member name m →
  decode_member from_base64 name (encode_member to_base64 name m) = Some m.
Proof.
  destruct m as [j|b|l]; cbn [plain_member encode_member].
  - intros [_ H]. destruct j as [| | | | |fs]; try done. destruct H as [Hb Hs]. unfold decode_member.
    destruct (is_binary name) eqn:Hn; [by rewrite Hb|]. destruct (String.eqb_spec name "segmentData") as [->|]; [by rewrite Hs|done].
  - intros [Hn Hb]. rewrite Hn. unfold decode_member. rewrite Hn. cbn. by rewrite base64_inverse.
  - intros (-> & _ & Hb). change (String.eqb "segmentData" "segmentData") with true. cbv iota. unfold decode_member.
    change (is_binary "segmentData") with false. cbn [prop String.eqb Ascii.eqb Bool.eqb]. by rewrite segments_decode.
Qed.

Lemma value_decodes data : plain_data data → decodeValue from_base64 (encodeValue to_base64 data) = Some (cached_data data).
Proof.
  destruct data as [ms|]; [|done]. intros [_ Hp]. cbn [encodeValue decodeValue cached_data].
  assert (mapM (decode_entry from_base64) (map (λ m, (m.1, encode_member to_base64 m.1 m.2)) ms) = Some ms) as ->; [|done].
  induction Hp as [|[name m] ms Hm Hp IH]; [done|]. cbn [map mapM fst snd] in *. rewrite IH. unfold decode_entry at 1. cbn [fst snd].
  by rewrite member_decodes.
Qed.

Lemma entry_parses now data tags ttl revalidate expire : plain_data data →
  safe_integer now = true → safe_integer ttl = true → 0 < ttl →
  (∀ n, revalidate = Some n → safe_integer n = true) → (∀ n, expire = Some n → safe_integer n = true) →
  parseStoredEntry (stringify (entry_json to_base64 (JNum (NInt now)) data tags ttl revalidate expire))
  = Some (mkStoredEntry (encodeValue to_base64 data) tags now ttl
            (Some (match revalidate with Some n => Seconds n | None => Never end)) expire).
Proof.
  intros Hd Hnow Httl Hpos Hr He. unfold parseStoredEntry. rewrite parse_valid.
  - unfold entry_json, parse_window, finite_prop, tags_json. cbn [app prop String.eqb Ascii.eqb Bool.eqb].
    rewrite strings_of, (proj2 (Z.leb_gt _ _) Hpos). by destruct revalidate, expire.
  - apply valid_object.
    + destruct expire; cbn; repeat (apply NoDup_cons; split; [set_solver|]); apply NoDup_nil_2.
    + repeat (apply List.Forall_cons; [cbn [snd]|]); [by apply valid_int|by apply encode_value_valid|apply valid_tags|by apply valid_int| |].
      * destruct revalidate; [apply valid_int; by apply Hr|done].
      * destruct expire; [apply Forall_singleton, valid_int; by apply He|constructor].
Qed.

(** C38. A record that is written is read back: the script accepts it whatever it contains, changes its
    own key only, and a reader decodes the same value, with the tags, the windows and the retention of
    the write, created at the server's time. *)
Theorem stored_entry_roundtrip lua now key data tags ttl clientNow revalidate expire s :
  plain_data data → lua now = z_text now → safe_integer now = true → safe_integer ttl = true → 0 < ttl →
  (∀ n, revalidate = Some n → safe_integer n = true) → (∀ n, expire = Some n → safe_integer n = true) →
  let payload := stringify (entry_json to_base64 (JStr SERVER_TIMESTAMP_MARKER) data tags ttl revalidate expire) in
  let r := STORE_INCREMENTAL_ENTRY_SCRIPT lua now key payload ttl clientNow s in
  (∃ clamped, r.2 = Returns clamped)
  ∧ (∃ raw entry, texts r.1 !! key = Some (raw, Some ttl) ∧ parseStoredEntry raw = Some entry
      ∧ decodeValue from_base64 (e_value entry) = Some (cached_data data) ∧ se_tags entry = tags ∧ e_lastModified entry = now
      ∧ e_ttlSeconds entry = ttl ∧ seconds_of (e_revalidateSeconds entry) = revalidate ∧ e_expireSeconds entry = expire)
  ∧ (∀ key', key' ≠ key → texts r.1 !! key' = texts s !! key') ∧ entries r.1 = entries s ∧ tagStore r.1 = tagStore s.
Proof.
  intros Hd Hlua Hnow Httl Hpos Hr He. cbv zeta. unfold STORE_INCREMENTAL_ENTRY_SCRIPT, entry_json. cbn [app].
  match goal with |- context [JObj ((_, JStr SERVER_TIMESTAMP_MARKER) :: ?rest)] =>
    destruct (stamped_object lua "lastModified" now rest) as [Hm Hst]; [done|done|] end.
  rewrite Hm, Hst. cbn [negb fst snd texts entries tagStore]. split_and!; [by eexists| |by intros; rewrite lookup_insert_ne|done|done].
  eexists _, _. rewrite lookup_insert_eq. split; [done|].
  split; [by apply (entry_parses now data tags ttl revalidate expire)|]. cbn [e_value se_tags e_lastModified e_ttlSeconds e_revalidateSeconds e_expireSeconds].
  rewrite value_decodes by done. by destruct revalidate.
Qed.
End RoundTrip.

(** A page with a flight payload and a segment, and base64 replaced by a code of one character per byte. *)
Definition demo_code (b : list Z) : string := foldr (λ n, String (ascii_of_nat (Z.to_nat n))) "" b.

Fixpoint demo_decode (s : string) : list Z :=
  match s with EmptyString => [] | String c s => Z.of_nat (nat_of_ascii c) :: demo_decode s end.

Lemma demo_inverse b : bytes b → demo_decode (demo_code b) = b.
Proof.
  induction 1 as [|n b Hn Hb IH]; [done|]. cbn [demo_code foldr demo_decode]. rewrite nat_ascii_embedding by lia.
  rewrite Z2Nat.id by lia. by f_equal.
Qed.

Definition demo_page : option members :=
  Some [("kind", MJson (JStr "APP_PAGE")); ("html", MJson (JStr "<p>")); ("rscData", MBuffer [0; 255]);
        ("segmentData", MSegments [("/_tree", [49])])].

Lemma stored_entry_roundtrip_witness :
  let r := STORE_INCREMENTAL_ENTRY_SCRIPT z_text 1000 "k8s:b:inc:/a"
             (stringify (entry_json demo_code (JStr SERVER_TIMESTAMP_MARKER) demo_page ["t"] 120 (Some 60) None)) 120 900
             (mkServer ∅ ∅ (mkStore ∅ None)) in
  ∃ raw entry, texts r.1 !! "k8s:b:inc:/a" = Some (raw, Some 120) ∧ parseStoredEntry raw = Some entry
    ∧ decodeValue demo_decode (e_value entry) = Some (cached_data demo_page) ∧ e_lastModified entry = 1000.
Proof.
  destruct (stored_entry_roundtrip demo_code demo_decode demo_inverse z_text 1000 "k8s:b:inc:/a" demo_page ["t"] 120 900
    (Some 60) None (mkServer ∅ ∅ (mkStore ∅ None))) as (_ & (raw & entry & H1 & H2 & H3 & H4 & H5 & _) & _); try done.
  - split.
    + repeat (apply NoDup_cons; split; [set_solver|]). apply NoDup_nil_2.
    + repeat (apply List.Forall_cons; [cbn|]); [done|done| | |constructor].
      * split; [done|]. by repeat (apply List.Forall_cons; [lia|]).
      * split_and!; [done|apply NoDup_singleton|]. apply Forall_singleton. by repeat (apply List.Forall_cons; [lia|]).
  - by intros n [= <-].
  - by exists raw, entry.
Defined.

(** ** What a stale reader is told *)

(** Where the window of a stale entry can say so, the reader is told a time one second past it, so
    Next revalidates behind the request, and that is still inside the entry's expiry; where it cannot,
    it is told -1, and Next renders first. *)
Theorem stale_reader_told revalidateSeconds expireSeconds now current allowNegative :
  let told := staleByTagLastModified revalidateSeconds expireSeconds now current allowNegative in
  let window := match seconds_of current with Some n => Some n | None => seconds_of revalidateSeconds end in
  match window with
  | None => told = twice (-1)
  | Some n =>
      if allowNegative || ((n + 1) * SECOND <? now) && match expireSeconds with Some e => n + 1 <=? e | None => true end
      then told + n * SECOND = now - SECOND
           ∧ (allowNegative = false → 0 < told ∧ ∀ e, expireSeconds = Some e → now ≤ told + e * SECOND)
      else told = twice (-1)
  end.
Proof.
  cbv zeta. unfold staleByTagLastModified. destruct (match seconds_of current with Some _ => _ | None => _ end) as [n|]; [|done].
  unfold SECOND, twice.
  destruct allowNegative; cbn [negb orb]; rewrite ?andb_false_r, ?andb_true_r.
  - destruct expireSeconds; cbn; (split; [lia|done]).
  - cbn [andb]. destruct (Z.leb_spec (now - n * 2000 - 2000) 0), (Z.ltb_spec ((n + 1) * 2000) now); try lia; cbn [andb]; [done|].
    destruct expireSeconds as [e|]; [|split; [lia|]; intros _; split; [lia|done]].
    destruct (Z.ltb_spec (e * 2000 + (now - n * 2000 - 2000)) now), (Z.leb_spec (n + 1) e); try lia.
    split; [lia|]. intros _. split; [lia|]. intros e' [= <-]. lia.
Qed.

(** ** Decoded cache keys *)

Definition delimiter (c : ascii) : bool := Ascii.eqb c "/" || Ascii.eqb c "#" || Ascii.eqb c "?".

Lemma reencode_delimiters s : all_chars (λ c, negb (delimiter c)) (reencode s) = true.
Proof.
  remember (String.length s) as n eqn:Hn. revert s Hn. induction n as [n IH] using lt_wf_ind. intros s ->. destruct s as [|c s]; [done|].
  assert (∀ s', (String.length s' < String.length (String c s))%nat → all_chars (λ c, negb (delimiter c)) (reencode s') = true) as IH' by (intros; by eapply IH).
  clear IH. cbn [reencode]. destruct (Ascii.eqb c "/") eqn:H1; [cbn; apply IH'; cbn; lia|].
  destruct (Ascii.eqb c "#") eqn:H2; [cbn; apply IH'; cbn; lia|]. destruct (Ascii.eqb c "?") eqn:H3; [cbn; apply IH'; cbn; lia|].
  assert (negb (delimiter c) = true) as Hc by (unfold delimiter; by rewrite H1, H2, H3).
  destruct s as [|a [|b s]]; [cbn; by rewrite Hc|cbn [all_chars]; rewrite Hc; apply IH'; cbn; lia|].
  destruct (Ascii.eqb c "%" && encoded_delimiter a b) eqn:Hd; [|cbn [all_chars]; rewrite Hc; apply IH'; cbn; lia].
  apply andb_true_iff in Hd as [_ Hd]. cbn [append all_chars]. change (negb (delimiter "%")) with true. change (negb (delimiter "2")) with true.
  change (negb (delimiter "5")) with true. cbn [andb]. rewrite (IH' s) by (cbn; lia). rewrite andb_true_r.
  unfold encoded_delimiter in Hd. apply existsb_In in Hd as (x & Hx & Hxe%String.eqb_eq). cbn [to_lower map_string] in Hxe. subst x.
  destruct (delimiter a) eqn:Ha; [|destruct (delimiter b) eqn:Hb; [|done]].
  - unfold delimiter in Ha. repeat (apply orb_true_iff in Ha as [Ha|Ha]); apply Ascii.eqb_eq in Ha; subst a;
      repeat (apply elem_of_cons in Hx as [Hx|Hx]; [by injection Hx|]); by apply not_elem_of_nil in Hx.
  - unfold delimiter in Hb. repeat (apply orb_true_iff in Hb as [Hb|Hb]); apply Ascii.eqb_eq in Hb; subst b;
      repeat (apply elem_of_cons in Hx as [Hx|Hx]; [by injection Hx|]); by apply not_elem_of_nil in Hx.
Qed.

(** Decoding a pathname keeps its segments apart: it has as many, and none of them holds a delimiter. *)
Lemma decoded_segments decodeURIComponent pathname segments :
  mapM decodeURIComponent (split_on "/" pathname) = Some segments →
  split_on "/" (decodeNextPathname decodeURIComponent pathname) = map reencode segments
  ∧ Forall (λ s, all_chars (λ c, negb (delimiter c)) s = true) (map reencode segments).
Proof.
  intros H. unfold decodeNextPathname. rewrite H. split.
  - assert (segments ≠ []) as Hne.
    { intros ->. apply mapM_Some in H. inversion H as [Hnil|]. by apply (split_on_nonempty "/" pathname). }
    clear H. induction segments as [|x [|y l] IH]; [done|cbn [map join]|].
    + apply split_on_absent. eapply all_chars_impl; [|apply reencode_delimiters]. intros c Hc. unfold delimiter in Hc.
      apply negb_true_iff, orb_false_iff in Hc as [[Hc _]%orb_false_iff _]. by rewrite Hc.
    + cbn [map join] in *. change ("/" +:+ ?r) with (String "/" r). rewrite split_on_app. rewrite IH by done. f_equal.
      rewrite split_on_absent; [done|]. eapply all_chars_impl; [|apply reencode_delimiters]. intros c Hc. unfold delimiter in Hc.
      apply negb_true_iff, orb_false_iff in Hc as [[Hc _]%orb_false_iff _]. by rewrite Hc.
  - apply Forall_forall. intros s Hs. apply list_elem_of_In, in_map_iff in Hs as (x & <- & _). apply reencode_delimiters.
Qed.

(** Two spellings of a segment, one encoded once more than the other, have one decoded form. *)
Example double_and_triple_encoding : reencode "%2F" = reencode "%252F".
Proof. reflexivity. Qed.

End IncrementalFacts.
