(* ===== verification/CacheMachine.v ===== *)
(** * A process over the shared cache

    The methods of [UseCache] and [IncrementalCache] in progress, the background warms, the shared store and the other
    processes as one machine, in which the segments of the methods interleave. *)
From Stdlib Require Import Ascii String.
From S2P Require Import Prelude JsString Json TagManifest SharedCache UseCache IncrementalCache.
Local Open Scope stdpp_scope.
Local Open Scope Z_scope.

Module CacheMachine.
Import TagManifest.TagManifest SharedCache.SharedCache UseCache.UseCache IncrementalCache.IncrementalCache(SetCtx, GetCtx,
  CacheHandlerValue, reader).

(** ** The machine

    The methods in progress and the warms are threads.  An event sets the clocks, calls a method,
    runs a thread up to where it is suspended, executes its command at the server or rejects it (after
    or without executing it), settles the promise it awaits, fires its timer, or is an act of another
    process on the shared store. *)

(** The run of a thread from where it resumed: the handler it leaves, the rest, the warms it starts. *)
Fixpoint segment {A} (now : Z) (h : handler) (p : method A) : handler * method A * list warm :=
  match p with
  | Look k => segment now h (k now h)
  | Put h' p => segment now h' p
  | Fork w p => let '(h', p', ws) := segment now h p in (h', p', w :: ws)
  | _ => (h, p, [])
  end.

(** What a thread that can run runs. *)
Definition runnable {A} (h : handler) (p : method A) : option (method A) :=
  match p with
  | Later p => Some p
  | Gate g p => if bool_decide (g ∈ released h) then Some p else None
  | Look _ | Put _ _ | Fork _ _ => Some p
  | _ => None
  end.

Inductive call :=
| CGet (store : option nat) (cacheKey : string) (softTags : list string)
| CSet (store : option nat) (cacheKey : string)
| CPrepare
| CGetExpiration (store : option nat) (tags : list string)
| CUpdateTags (tags : list string) (d : option durations)
| CHasTagUpdates (tags : list string)
| CRead (m : reader) (cacheKey : string) (ctx : GetCtx)
| CWrite (cacheKey : string) (data : option members) (ctx : SetCtx)
| CRevalidateTag (tags : list string) (d : option durations).

Inductive task := Called (c : call) | Warming (w : warm).

Inductive result :=
| RGot (e : option CacheEntry)
| RDone
| RPrepared (inv : nat)
| RExpiration (t : option Z)
| RUpdated (b : bool)
| RCached (v : option CacheHandlerValue).

Definition returns {A} (f : A → result) (p : method A) : method result := bind p (λ a, Ret (f a)).

Record machine := mkMachine {
  clock : Z; serverClock : Z; srv : server; hnd : handler; threads : list (task * method result)
}.

Inductive event :=
| SetClocks (local server : Z)
| Begin (c : call)
| Run (i : nat)
| Serve (i : nat)
| Reject (i : nat) (executed : bool)
| Settle (i : nat) (r : input)
| Timer (i : nat)
| PeerUpdate (tags : list string) (clientNow : Z) (d : option durations)
| PeerStore (key : string) (e : stored)
| PeerText (key value : string)
| DropKey (key : string).

Definition with_srv (s : server) (m : machine) : machine := mkMachine (clock m) (serverClock m) s (hnd m) (threads m).
Definition with_threads (l : list (task * method result)) (m : machine) : machine :=
  mkMachine (clock m) (serverClock m) (srv m) (hnd m) l.

(** What a process is configured with, and the library functions the model takes as parameters:
    decodeURIComponent, the base64 of a Buffer, and the number format of a Lua script. *)
Record config := mkConfig {
  buildId : string;
  maxBytes : Z;
  seeded : bool;
  decodeURIComponent : string → option string;
  to_base64 : list Z → string;
  from_base64 : string → list Z;
  lua_number : Z → string;
}.

Section Machine.
Variable env : config.

Definition serve (now : Z) (c : command) (s : server) : server * option reply :=
  match c with
  | HGetAllBuffer key => (s, Some (RHash (entries s !! key)))
  | HmGet names => (s, Some (RFields (map (λ f, fields (tagStore s) !! f) names)))
  | ReadTime => (s, Some (RNumber now))
  | EvalStore key payload value ttlSeconds entryTimestamp clientNow =>
      match STORE_USE_CACHE_ENTRY_SCRIPT (lua_number env) now key payload value ttlSeconds entryTimestamp clientNow s with
      | (s', Returns n) => (s', Some (RNumber n))
      | (s', Throws _) => (s', None)
      end
  | EvalUpdate pairs ttlSeconds =>
      match UPDATE_TAGS_SCRIPT now pairs ttlSeconds (tagStore s) with
      | (st, Returns n) => (mkServer (entries s) (texts s) st, Some (RNumber n))
      | (st, Throws _) => (mkServer (entries s) (texts s) st, None)
      end
  | GetText key => (s, Some (RText (fst <$> texts s !! key)))
  | SetText key value ttlSeconds =>
      (mkServer (entries s) (<[key := (value, Some ttlSeconds)]> (texts s)) (tagStore s), Some (RText (Some "OK")))
  | EvalStoreText key payload ttlSeconds clientNow =>
      match IncrementalCache.IncrementalCache.STORE_INCREMENTAL_ENTRY_SCRIPT (lua_number env) now key payload ttlSeconds clientNow s with
      | (s', Returns n) => (s', Some (RNumber n))
      | (s', Throws _) => (s', None)
      end
  end.

Definition program (c : call) : method result :=
  match c with
  | CGet store cacheKey softTags => returns RGot (get (buildId env) store cacheKey softTags)
  | CSet store cacheKey => returns (λ _, RDone) (set (buildId env) (maxBytes env) store cacheKey)
  | CPrepare => returns RPrepared prepareForInvocation
  | CGetExpiration store tags => returns RExpiration (getExpiration store tags)
  | CUpdateTags tags d => returns (λ _, RDone) (updateTags tags d)
  | CHasTagUpdates tags => returns RUpdated (hasTagUpdates tags)
  | CRead m cacheKey ctx =>
      returns RCached (IncrementalCache.IncrementalCache.read_program (from_base64 env) (decodeURIComponent env) (buildId env) (seeded env)
                         m cacheKey ctx)
  | CWrite cacheKey data ctx =>
      returns (λ _, RDone) (IncrementalCache.IncrementalCache.set (to_base64 env) (decodeURIComponent env) (buildId env) (maxBytes env)
                              cacheKey data ctx)
  | CRevalidateTag tags d => returns (λ _, RDone) (IncrementalCache.IncrementalCache.revalidateTag tags d)
  end.

Definition warm_thread (w : warm) : task * method result :=
  (Warming w, returns (λ _, RDone) (warm_program (buildId env) w)).

(** The program of thread [i] becomes [p]. *)
Definition set_thread (i : nat) (p : method result) (m : machine) : machine :=
  with_threads (alter (λ t, (t.1, p)) i (threads m)) m.

Definition run_segment (i : nat) (p : method result) (m : machine) : machine :=
  let '(h, p', ws) := segment (clock m) (hnd m) p in
  let m := set_thread i p' m in
  mkMachine (clock m) (serverClock m) (srv m) h (threads m ++ map warm_thread ws).

Definition thread (m : machine) (i : nat) : method result :=
  match threads m !! i with Some t => t.2 | None => Raise end.

Definition step (m : machine) (e : event) : machine :=
  match e with
  | SetClocks local server => mkMachine local server (srv m) (hnd m) (threads m)
  | Begin c => with_threads (threads m ++ [(Called c, program c)]) m
  | Run i =>
      match runnable (hnd m) (thread m i) with Some p => run_segment i p m | None => m end
  | Serve i =>
      match thread m i with
      | Ask c k => let '(s, r) := serve (serverClock m) c (srv m) in set_thread i (k r) (with_srv s m)
      | _ => m
      end
  | Reject i executed =>
      match thread m i with
      | Ask c k =>
          let s := if executed then (serve (serverClock m) c (srv m)).1 else srv m in
          set_thread i (k None) (with_srv s m)
      | _ => m
      end
  | Settle i r => match thread m i with Env k => set_thread i (k r) m | _ => m end
  | Timer i => match thread m i with Gate _ p => run_segment i p m | _ => m end
  | PeerUpdate tags clientNow d =>
      let pairs := update_args (filterManifestTags tags) clientNow d in
      with_srv (serve (serverClock m) (EvalUpdate pairs TAG_MANIFEST_TTL_SECONDS) (srv m)).1 m
  | PeerStore key e => with_srv (mkServer (<[key := e]> (entries (srv m))) (texts (srv m)) (tagStore (srv m))) m
  | PeerText key value => with_srv (mkServer (entries (srv m)) (<[key := (value, None)]> (texts (srv m))) (tagStore (srv m))) m
  | DropKey key => with_srv (mkServer (delete key (entries (srv m))) (delete key (texts (srv m))) (tagStore (srv m))) m
  end.

Definition run (m : machine) (es : list event) : machine := foldl step m es.

(** The states of a run, the first one included. *)
Fixpoint history (m : machine) (es : list event) : list machine :=
  match es with
  | [] => [m]
  | e :: es' => m :: history (step m e) es'
  end.
End Machine.

(** A new process over a server. *)
Definition boot (s : server) : machine := mkMachine 0 0 s new_handler [].

End CacheMachine.
