(* ===== verification/UseCacheLogic.v ===== *)
(** * A program logic for the methods of the use-cache handler

    Weakest preconditions of the programs of [UseCache], over the history of a run.  A precondition
    speaks of the history up to the segment that runs; where a program is suspended the handler must
    satisfy the shared invariant [kept], and the program must go on from every later history that is
    [good].  [run_adequate] is the adequacy of the logic for the machine. *)
From Stdlib Require Import Ascii String.
From S2P Require Import Prelude JsString TagManifest SharedCache UseCache IncrementalCache CacheMachine.
Local Open Scope stdpp_scope.
Local Open Scope Z_scope.

Module UseCacheLogic.
Import TagManifest.TagManifest SharedCache.SharedCache UseCache.UseCache CacheMachine.CacheMachine.

Abbreviation trace := (list machine).

Definition no_machine : machine := boot (mkServer ∅ ∅ (mkStore ∅ None)).

(** The last state of a history. *)
Definition latest (T : trace) : machine := default no_machine (last T).

Lemma latest_snoc T s : latest (T ++ [s]) = s.
Proof. unfold latest. by rewrite last_snoc. Qed.

Definition epoch_at (s : machine) : option Z := epoch_of (fields (tagStore (srv s))).

(** The commands of a handler leave the epoch field alone. *)
Definition fair (c : command) : Prop :=
  match c with EvalUpdate pairs _ => TAG_MANIFEST_EPOCH_FIELD ∉ pairs.*1 | _ => True end.

(** The epoch of the shared manifest only grows. *)
Definition grows (s s' : server) : Prop :=
  ∀ n, epoch_of (fields (tagStore s)) = Some n → ∃ n', epoch_of (fields (tagStore s')) = Some n' ∧ n ≤ n'.

Lemma script_loop_other now pairs h n f : f ∉ pairs.*1 → (script_loop now pairs h n).1 !! f = h !! f.
Proof.
  revert h n. induction pairs as [|[g v] pairs IH]; intros h n; [done|]. cbn [fmap list_fmap fst].
  intros [Hne Hf]%not_elem_of_cons. cbn [script_loop]. destruct (script_field now v (h !! g)) as [[w|] b].
  - rewrite IH by done. by rewrite lookup_insert_ne.
  - by rewrite IH.
Qed.

Section Logic.
Variable env : config.

Lemma serve_grows now c s : fair c → grows s (serve env now c s).1.
Proof.
  intros Hf n Hn. destruct c; cbn [serve]; try (by exists n).
  - unfold STORE_USE_CACHE_ENTRY_SCRIPT. destruct (negb _); by exists n.
  - unfold UPDATE_TAGS_SCRIPT. pose proof (script_loop_other now pairs (fields (tagStore s)) 0 _ Hf) as Hl.
    destruct (script_loop _ _ _ _) as [h clamped]. cbn in Hl. unfold epoch_of in Hn. rewrite <- Hl in Hn. unfold hincrby.
    destruct (h !! TAG_MANIFEST_EPOCH_FIELD) as [[|k|]|]; try discriminate Hn; injection Hn as <-; cbn;
      unfold epoch_of; rewrite lookup_insert_eq; eexists; (split; [done|lia]).
  - unfold IncrementalCache.IncrementalCache.STORE_INCREMENTAL_ENTRY_SCRIPT. destruct (negb _); by exists n.
Qed.

(** ** Weakest preconditions *)

Variable good : trace → Prop.
Variable kept : trace → handler → Prop.
Variable warm_ok : trace → warm → Prop.

(** [r] is a rejection, or the answer the server gave to [c] at a state after [T]. *)
Definition answered (T T' : trace) (c : command) (r : option reply) : Prop :=
  ∀ x, r = Some x →
  ∃ j s, (length T ≤ j)%nat ∧ T' !! j = Some s ∧ (serve env (serverClock s) c (srv s)).2 = Some x.

Fixpoint wp {A} (Q : trace → handler → A → Prop) (R : trace → handler → Prop) (T : trace) (h : handler) (p : method A)
    : Prop :=
  match p with
  | Ret a => Q T h a
  | Raise => R T h
  | Look k => wp Q R T h (k (clock (latest T)) h)
  | Put h' p => wp Q R T h' p
  | Fork w p => warm_ok T w ∧ wp Q R T h p
  | Later p | Gate _ p => kept T h ∧ ∀ T', good T' → T `prefix_of` T' → wp Q R T' (hnd (latest T')) p
  | Ask c k =>
      kept T h ∧ fair c
      ∧ ∀ T' r, good T' → T `prefix_of` T' → answered T T' c r → wp Q R T' (hnd (latest T')) (k r)
  | Env k => kept T h ∧ ∀ T' r, good T' → T `prefix_of` T' → wp Q R T' (hnd (latest T')) (k r)
  end.

Lemma wp_mono {A} (Q Q' : trace → handler → A → Prop) (R R' : trace → handler → Prop) T h p :
  (∀ T' h' a, T `prefix_of` T' → Q T' h' a → Q' T' h' a) → (∀ T' h', T `prefix_of` T' → R T' h' → R' T' h') →
  wp Q R T h p → wp Q' R' T h p.
Proof.
  revert T h. induction p as [a| |k IH|h' p IH|w p IH|p IH|g p IH|c k IH|k IH]; intros T h HQ HR; cbn [wp].
  - by apply HQ.
  - by apply HR.
  - by apply IH.
  - by apply IH.
  - intros [Hw Hp]. split; [done|]. by eapply IH.
  - intros [Hk Hp]. split; [done|]. intros T' Hg Hpre. eapply IH; [| |by apply Hp]; intros; [eapply HQ|eapply HR]; eauto; by etrans.
  - intros [Hk Hp]. split; [done|]. intros T' Hg Hpre. eapply IH; [| |by apply Hp]; intros; [eapply HQ|eapply HR]; eauto; by etrans.
  - intros (Hk & Hf & Hp). split_and!; [done..|]. intros T' r Hg Hpre Ha.
    eapply IH; [| |by apply Hp]; intros; [eapply HQ|eapply HR]; eauto; by etrans.
  - intros (Hk & Hp). split; [done|]. intros T' r Hg Hpre.
    eapply IH; [| |by apply Hp]; intros; [eapply HQ|eapply HR]; eauto; by etrans.
Qed.

Lemma wp_bind {A C} (Q : trace → handler → C → Prop) R T h (p : method A) f :
  wp (λ T h a, wp Q R T h (f a)) R T h p → wp Q R T h (bind p f).
Proof. revert T h. induction p; intros T ?; cbn [wp bind]; naive_solver. Qed.

Lemma wp_catch {A} (Q : trace → handler → A → Prop) R T h (p q : method A) :
  wp Q (λ T h, wp Q R T h q) T h p → wp Q R T h (catch p q).
Proof. revert T h. induction p; intros T ?; cbn [wp catch]; naive_solver. Qed.

Lemma wp_ask {A} (Q : trace → handler → A → Prop) R T h c (k : reply → method A) :
  kept T h → fair c →
  (∀ T', good T' → T `prefix_of` T' → R T' (hnd (latest T'))) →
  (∀ T' j s r, good T' → T `prefix_of` T' → (length T ≤ j)%nat → T' !! j = Some s →
    (serve env (serverClock s) c (srv s)).2 = Some r → wp Q R T' (hnd (latest T')) (k r)) →
  wp Q R T h (ask c k).
Proof.
  intros Hk Hf HR Hs. cbn. split_and!; [done..|]. intros T' [r|] Hg Hpre Ha; [|by apply HR].
  destruct (Ha r eq_refl) as (j & s & Hj & Hl & Hr). by eapply Hs.
Qed.

(** ** Adequacy *)

Variable post : trace → task → result → Prop.
Hypothesis good_kept : ∀ T, good T → kept T (hnd (latest T)).

Definition finish (t : task) (T : trace) (h : handler) (a : result) : Prop := kept T h ∧ post T t a.

Definition thread_wp (t : task) (T : trace) (p : method result) : Prop :=
  wp (finish t) kept T (hnd (latest T)) p.

(** What is known of a suspended thread, from the history at which it was suspended. *)
Definition parked (T : trace) (t : task) (p : method result) : Prop :=
  match p with
  | Ret a => post T t a
  | Raise => True
  | Ask c k => fair c ∧ ∀ T' r, good T' → T `prefix_of` T' → answered T T' c r → thread_wp t T' (k r)
  | Env k => ∀ T' r, good T' → T `prefix_of` T' → thread_wp t T' (k r)
  | Later q | Gate _ q => ∀ T', good T' → T `prefix_of` T' → thread_wp t T' q
  | _ => ∀ T', good T' → T `prefix_of` T' → thread_wp t T' p
  end.

Lemma segment_ok T t h p : wp (finish t) kept T h p →
  let '(h', p', ws) := segment (clock (latest T)) h p in kept T h' ∧ parked T t p' ∧ Forall (warm_ok T) ws.
Proof.
  revert h. induction p as [a| |k IH|h' p IH|w p IH|p IH|g p IH|c k IH|k IH]; intros h; cbn [wp segment parked].
  - intros [Hk Hp]. done.
  - done.
  - apply IH.
  - apply IH.
  - intros [Hw Hp]. specialize (IH h Hp). destruct (segment _ h p) as [[h' p'] ws]. destruct IH as (Hk & Hq & Hws).
    split_and!; [done..|]. by constructor.
  - intros [Hk Hp]. done.
  - intros [Hk Hp]. done.
  - intros (Hk & Hf & Hp). done.
  - intros [Hk Hp]. done.
Qed.

Lemma parked_of_wp T t p : good T →
  (∀ T', good T' → T `prefix_of` T' → thread_wp t T' p) → parked T t p.
Proof.
  intros Hg H. pose proof (H T Hg (reflexivity T)) as Hp. unfold thread_wp in *.
  destruct p; cbn [parked wp] in *; try done; try (by destruct Hp as (_ & ?)).
Qed.

Definition threads_ok (T : trace) : Prop :=
  ∀ i t p, threads (latest T) !! i = Some (t, p) →
  ∃ T0, T0 `prefix_of` T ∧ (length T0 < length T)%nat ∧ parked T0 t p.

Hypothesis good_extend : ∀ T s, good T → kept T (hnd s) → grows (srv (latest T)) (srv s) → good (T ++ [s]).
Hypothesis warm_mono : ∀ T T' w, T `prefix_of` T' → warm_ok T w → warm_ok T' w.
Hypothesis calls_ok : ∀ c T, good T → thread_wp (Called c) T (program env c).
Hypothesis warms_ok : ∀ w T, warm_ok T w → good T → thread_wp (Warming w) T (warm_thread env w).2.

Lemma extend T s : good T → threads_ok T → kept T (hnd s) → grows (srv (latest T)) (srv s) →
  (∀ i t p, threads s !! i = Some (t, p) → threads (latest T) !! i = Some (t, p) ∨ parked T t p) →
  good (T ++ [s]) ∧ threads_ok (T ++ [s]).
Proof.
  intros Hg Ht Hk Hs Hth. split; [by apply good_extend|]. intros i t p. rewrite latest_snoc.
  intros [(T0 & Hpre & Hl & Hp)%Ht|Hp]%Hth.
  - exists T0. rewrite length_app. split_and!; [by apply prefix_app_r|lia|done].
  - exists T. rewrite length_app. cbn. split_and!; [by exists [s]|lia|done].
Qed.

Lemma grows_refl s : grows s s.
Proof. intros n Hn. by exists n. Qed.

Lemma grows_same s s' : tagStore s' = tagStore s → grows s s'.
Proof. intros H n Hn. exists n. by rewrite H. Qed.

Lemma thread_lookup m i p : thread m i = p → p ≠ Raise → ∃ t, threads m !! i = Some (t, p).
Proof. unfold thread. destruct (threads m !! i) as [[t q]|]; [|by intros <-]. cbn. intros -> _. by exists t. Qed.

Lemma set_thread_lookup i q m j t p :
  threads (set_thread i q m) !! j = Some (t, p) →
  threads m !! j = Some (t, p) ∨ (j = i ∧ p = q ∧ ∃ p0, threads m !! i = Some (t, p0)).
Proof.
  unfold set_thread, with_threads. cbn [threads]. rewrite list_lookup_alter. case_decide as Hij; [|by left].
  subst j. intros H. apply fmap_Some in H as ([t0 p0] & Hl & [= -> ->]). right. eauto.
Qed.

Lemma run_segment_ok T i t p : good T → threads_ok T → threads (latest T) !! i = Some t →
  thread_wp t.1 T p →
  let s := run_segment env i p (latest T) in good (T ++ [s]) ∧ threads_ok (T ++ [s]).
Proof.
  intros Hg Ht Hi Hp. unfold run_segment. pose proof (segment_ok _ _ _ _ Hp) as Hs.
  destruct (segment _ _ p) as [[h p'] ws]. destruct Hs as (Hk & Hq & Hws). cbv zeta.
  apply extend; cbn [hnd srv threads]; [done..|apply grows_refl|].
  intros j u q [Hj|[_ Hj]]%lookup_app_Some.
  - apply set_thread_lookup in Hj as [|(-> & -> & p0 & Hl)]; [by left|]. right. rewrite Hi in Hl. by injection Hl as ->.
  - right. rewrite list_lookup_fmap in Hj. apply fmap_Some in Hj as (w & Hw & Heq). unfold warm_thread in Heq. injection Heq as -> ->.
    eapply Forall_lookup in Hw; [|exact Hws]. apply parked_of_wp; [done|]. intros T' Hg' Hpre.
    apply (warms_ok w T'); [by eapply warm_mono|done].
Qed.

Lemma runnable_ok T i q p : good T → threads_ok T → thread (latest T) i = q → runnable (hnd (latest T)) q = Some p →
  ∃ t, threads (latest T) !! i = Some (t, q) ∧ thread_wp t T p.
Proof.
  intros Hg Ht Hi Hr. destruct (thread_lookup _ _ _ Hi) as [t Hl]; [by intros ->|]. exists t. split; [done|].
  destruct (Ht _ _ _ Hl) as (T0 & Hpre & _ & Hp).
  destruct q; cbn in Hr; try done; [..|destruct (bool_decide _); [|done]]; injection Hr as <-; by apply Hp.
Qed.

Lemma latest_lookup T T' : T `prefix_of` T' → (0 < length T)%nat → T' !! (length T - 1)%nat = Some (latest T).
Proof.
  intros [l ->] Hl. rewrite lookup_app_l by lia. unfold latest. rewrite last_lookup.
  destruct (lookup_lt_is_Some_2 T (length T - 1)) as [s Hs]; [lia|]. replace (pred (length T)) with (length T - 1)%nat by lia.
  by rewrite Hs.
Qed.

(** The outcome [r] of the command of thread [i], the server moving to [s]. *)
Lemma deliver T i c k r s : good T → threads_ok T → thread (latest T) i = Ask c k →
  (∀ x, r = Some x → (serve env (serverClock (latest T)) c (srv (latest T))).2 = Some x) →
  s = srv (latest T) ∨ s = (serve env (serverClock (latest T)) c (srv (latest T))).1 →
  let m := set_thread i (k r) (with_srv s (latest T)) in good (T ++ [m]) ∧ threads_ok (T ++ [m]).
Proof.
  intros Hg Ht Hi Hr Hs. destruct (thread_lookup _ _ _ Hi) as [t Hl]; [done|].
  destruct (Ht _ _ _ Hl) as (T0 & Hpre & Hlen & Hf & Hp). cbv zeta. apply extend; [done..|by apply good_kept| |].
  - destruct Hs as [->| ->]; [apply grows_refl|by apply serve_grows].
  - intros j u q [|(-> & -> & p0 & Hj)]%set_thread_lookup; [by left|right]. cbn in Hj. rewrite Hl in Hj. injection Hj as <- <-.
    apply parked_of_wp; [done|]. intros T' Hg' Hpre'. apply Hp; [done|by etrans|]. intros x Hx.
    exists (length T - 1)%nat, (latest T). split_and!; [lia|apply latest_lookup; [done|lia]|by apply Hr].
Qed.

Lemma machine_step_ok T e : good T → threads_ok T →
  let s := step env (latest T) e in good (T ++ [s]) ∧ threads_ok (T ++ [s]).
Proof.
  intros Hg Ht. pose proof (good_kept T Hg) as Hk.
  assert (good (T ++ [latest T]) ∧ threads_ok (T ++ [latest T])) as Hsame.
  { apply extend; [done..|apply grows_refl|by left]. }
  destruct e as [local server|c|i|i|i executed|i r|i|tags clientNow d|key e|key v|key]; cbn [step].
  - apply extend; [done..|apply grows_refl|by left].
  - apply extend; [done..|apply grows_refl|]. cbn [with_threads threads]. intros i t p [Hi|[_ Hi]]%lookup_app_Some; [by left|right].
    destruct (i - _)%nat; [|done]. injection Hi as <- <-. apply parked_of_wp; [done|]. intros T' Hg' _. by apply calls_ok.
  - destruct (runnable _ _) as [p|] eqn:Hr; [|done].
    destruct (runnable_ok T i _ p Hg Ht eq_refl Hr) as (t & Hl & Hp). by eapply run_segment_ok.
  - destruct (thread (latest T) i) as [| | | | | | |c k|] eqn:Hi; try done.
    destruct (serve _ _ c _) as [s r] eqn:Hs. apply deliver with c; [done..| |by right; rewrite Hs].
    intros x ->. by rewrite Hs.
  - destruct (thread (latest T) i) as [| | | | | | |c k|] eqn:Hi; try done.
    apply deliver with c; [done..|]. destruct executed; [by right|by left].
  - destruct (thread (latest T) i) as [| | | | | | | |k] eqn:Hi; try done.
    destruct (thread_lookup _ _ _ Hi) as [t Hl]; [done|]. destruct (Ht _ _ _ Hl) as (T0 & Hpre & Hlen & Hp).
    apply extend; [done..|apply grows_refl|].
    intros j u q [|(-> & -> & p0 & Hj)]%set_thread_lookup; [by left|right]. rewrite Hl in Hj. injection Hj as <- <-.
    apply parked_of_wp; [done|]. intros T' Hg' Hpre'. apply Hp; [done|by etrans].
  - destruct (thread (latest T) i) as [| | | | | |g p| |] eqn:Hi; try done.
    destruct (thread_lookup _ _ _ Hi) as [t Hl]; [done|]. destruct (Ht _ _ _ Hl) as (T0 & Hpre & Hlen & Hp).
    eapply run_segment_ok; [done|done|exact Hl|by apply Hp].
  - apply extend; [done..| |by left]. apply serve_grows. cbn [fair].
    unfold update_args. intros H. apply list_elem_of_fmap in H as ([f v] & Hf & Hin). cbn in Hf. subst f.
    apply list_elem_of_In, in_map_iff in Hin as (t & [= -> _] & Hin%list_elem_of_In).
    by apply filtered_not_epoch in Hin as [].
  - apply extend; [done..|by apply grows_same|by left].
  - apply extend; [done..|by apply grows_same|by left].
  - apply extend; [done..|by apply grows_same|by left].
Qed.

(** ** Runs *)

Lemma history_snoc m es e :
  history env m (es ++ [e])
  = history env m es ++ [step env (run env m es) e].
Proof. revert m. induction es as [|e' es IH]; intros m; cbn; [done|]. by rewrite IH. Qed.

Lemma history_latest m es : latest (history env m es) = run env m es.
Proof.
  induction es as [|e es IH] using rev_ind; [done|]. rewrite history_snoc, latest_snoc. unfold run. by rewrite foldl_snoc.
Qed.

Lemma run_adequate s es : good [boot s] →
  let T := history env (boot s) es in good T ∧ threads_ok T.
Proof.
  intros Hg. cbv zeta. induction es as [|e es [IHg IHt]] using rev_ind.
  - split; [done|]. intros i t p. cbn. by rewrite lookup_nil.
  - rewrite history_snoc, <- history_latest. by apply machine_step_ok.
Qed.
End Logic.
End UseCacheLogic.
