(* ===== verification/UseCacheRuns.v ===== *)
(** * Runs of the use-cache handler

    The invariant of the local front over the histories of [CacheMachine], and a specification in the
    logic of [UseCacheLogic] for each method of [UseCache] that keeps it. *)
From Stdlib Require Import Ascii String.
From S2P Require Import Prelude JsString Json TagManifest EtagCache EtagCacheFacts SharedCache UseCache CacheMachine UseCacheFacts UseCacheLogic.
Local Open Scope stdpp_scope.
Local Open Scope Z_scope.

Module UseCacheRuns.
Import TagManifest.TagManifest EtagCache.EtagCache(map_get, map_set, map_delete, map_size)
  EtagCacheFacts.EtagCacheFacts SharedCache.SharedCache UseCache.UseCache CacheMachine.CacheMachine
  UseCacheFacts.UseCacheFacts UseCacheLogic.UseCacheLogic.

(** ** What a history shows *)

Definition epochs_rise (T : trace) : Prop :=
  ∀ i j s s', (i ≤ j)%nat → T !! i = Some s → T !! j = Some s' →
  ∃ n n', epoch_at s = Some n ∧ epoch_at s' = Some n' ∧ n ≤ n'.

(** Every invocation of the history was prepared against an answer of the shared store. *)
Definition known (l : list PreparedInvocation) : Prop := Forall (λ i, is_Some (i_epoch i)) l.
Definition all_known (T : trace) : Prop := Forall (λ s, known (invocations (hnd s))) T.

(** [E] was the shared epoch. *)
Definition was (T : trace) (E : Z) : Prop := ∃ p s, T !! p = Some s ∧ epoch_at s = Some E.

Definition shared (s : machine) : manifest := manifest_of (fields (tagStore (srv s))).

(** The clocks [c] were sampled after state [j] and up to state [k]: the process's before and after
    the server's. *)
Definition sampled (T : trace) (j k : nat) (c : ValkeyClockSample) : Prop :=
  ∃ b a d sb sa sd, (j ≤ b ≤ a)%nat ∧ (a ≤ d ≤ k)%nat ∧ T !! b = Some sb ∧ T !! a = Some sa ∧ T !! d = Some sd
  ∧ serverNow c = twice (serverClock sa) ∧ localNow c = clock sb + clock sd.

(** A front entry was checked, with its tags, against the manifest of a state whose epoch is at
    least [E]. *)
Definition checked (T : trace) (E : Z) (e : LocalEntry) : Prop :=
  ∃ j s n softs m c, T !! j = Some s ∧ epoch_at s = Some n ∧ E ≤ n ∧ sampled T j (length T) c
  ∧ (∀ t, t ∈ l_tags e ++ softs → m !! t = shared s !! t) ∧ admitted softs m c e.

Record front_ok (T : trace) (h : handler) : Prop := {
  front_was : ∀ E, manifestEpoch h = Some E → was T E;
  front_none : manifestEpoch h = None → localEntries h = [];
  front_checked : ∀ E k e, manifestEpoch h = Some E → (k, e) ∈ localEntries h → checked T E e;
  front_invocations : ∀ i E, i ∈ invocations h → i_epoch i = Some E → was T E;
}.

Definition kept (T : trace) (h : handler) : Prop :=
  bounded h ∧ (all_known T → known (invocations h) → front_ok T h).

Record good (T : trace) : Prop := {
  good_rise : epochs_rise T;
  good_start : (0 < length T)%nat;
  good_now : kept T (hnd (latest T));
}.

Definition warm_ok (T : trace) (w : warm) : Prop := all_known T → ∃ E, w_epoch w = Some E ∧ was T E.

(** A hit of invocation [inv]: the server's manifest at some state [s], whose epoch is at least the one
    the invocation was prepared at, judges the entry fresh with its tags and the tags of the read, at
    the time of the read on the clocks that were sampled in between. *)
Definition fresh_hit (T : trace) (inv : nat) (softTags : list string) (e : CacheEntry) : Prop :=
  ∃ k sk i E j s n c,
    T !! k = Some sk ∧ invocations (hnd sk) !! inv = Some i ∧ i_epoch i = Some E ∧ was T E
    ∧ T !! j = Some s ∧ epoch_at s = Some n ∧ E ≤ n ∧ sampled T j k c
    ∧ evaluateIn SECOND (mkEntry (c_timestamp e + offset c) (c_revalidate e) (c_expire e) (c_tags e ++ softTags))
        (twice_manifest (shared s)) (twice (clock sk) + offset c) = Fresh (c_revalidate e).

(** ** Growing histories *)

Lemma all_known_prefix T T' : T `prefix_of` T' → all_known T' → all_known T.
Proof. intros [l ->] H. by apply Forall_app in H as [H _]. Qed.

Lemma was_mono T T' E : T `prefix_of` T' → was T E → was T' E.
Proof. intros Hp (p & s & Hl & He). exists p, s. split; [by eapply prefix_lookup_Some|done]. Qed.

Lemma sampled_mono T T' j k k' c : T `prefix_of` T' → (k ≤ k')%nat → sampled T j k c → sampled T' j k' c.
Proof.
  intros Hp Hk (b & a & d & sb & sa & sd & ? & ? & Hb & Ha & Hd & ? & ?). exists b, a, d, sb, sa, sd.
  split_and!; [lia|lia|lia|lia|by eapply prefix_lookup_Some..|done|done].
Qed.

Lemma checked_mono T T' E e : T `prefix_of` T' → checked T E e → checked T' E e.
Proof.
  intros Hp (j & s & n & softs & m & c & Hj & Hn & HE & Hs & Hm & Ha). exists j, s, n, softs, m, c.
  split_and!; [by eapply prefix_lookup_Some|done|done| |done|done]. eapply sampled_mono; [done|by apply prefix_length|done].
Qed.

Lemma front_mono T T' h : T `prefix_of` T' → front_ok T h → front_ok T' h.
Proof.
  intros Hp [H1 H2 H3 H4]. split; [|done|..]; intros; [eapply was_mono|eapply checked_mono|eapply was_mono]; eauto.
Qed.

Lemma kept_mono T T' h : T `prefix_of` T' → kept T h → kept T' h.
Proof.
  intros Hp [Hb Hf]. split; [done|]. intros Hk Hi. eapply front_mono; [done|]. apply Hf; [|done]. by eapply all_known_prefix.
Qed.

Lemma warm_mono T T' w : T `prefix_of` T' → warm_ok T w → warm_ok T' w.
Proof.
  intros Hp Hw Hk. destruct Hw as (E & He & HE); [by eapply all_known_prefix|]. exists E. split; [done|]. by eapply was_mono.
Qed.

Lemma good_kept T : good T → kept T (hnd (latest T)).
Proof. by intros []. Qed.

Lemma good_latest T : good T → T !! (length T - 1)%nat = Some (latest T).
Proof. intros [_ Hl _]. by apply latest_lookup. Qed.

Lemma good_extend T s : good T → kept T (hnd s) → grows (srv (latest T)) (srv s) → good (T ++ [s]).
Proof.
  intros Hg Hk Hs. pose proof (good_latest T Hg) as Hl. destruct Hg as [Hr Hpos _].
  assert (T `prefix_of` T ++ [s]) as Hp by by exists [s]. split.
  - intros i j u v Hij Hi Hj. destruct (decide (j < length T)%nat) as [Hlt|Hge].
    + rewrite lookup_app_l in Hi, Hj by lia. exact (Hr i j u v Hij Hi Hj).
    + apply lookup_app_Some in Hj as [Hj|[_ Hj]]; [by apply lookup_lt_Some in Hj|].
      destruct (j - length T)%nat eqn:Hjl; [|done]. injection Hj as <-.
      assert (∃ n n', epoch_at (latest T) = Some n ∧ epoch_at s = Some n' ∧ n ≤ n') as (n & n' & Hn & Hn' & Hle).
      { destruct (Hr (length T - 1)%nat (length T - 1)%nat _ _ (le_n _) Hl Hl) as (n & _ & Hn & _). destruct (Hs n Hn) as (n' & ? & ?). by exists n, n'. }
      destruct (decide (i < length T)%nat) as [Hi'|Hi'].
      * rewrite lookup_app_l in Hi by done. destruct (Hr i (length T - 1)%nat u (latest T)) as (x & y & Hx & Hy & Hxy); [lia|done|done|].
        exists x, n'. rewrite Hn in Hy. injection Hy as <-. split_and!; [done..|lia].
      * apply lookup_app_Some in Hi as [Hi|[_ Hi]]; [by apply lookup_lt_Some in Hi|].
        destruct (i - length T)%nat; [|done]. injection Hi as <-. exists n', n'. done.
  - rewrite length_app. lia.
  - rewrite latest_snoc. by eapply kept_mono.
Qed.

(** The epoch of a state is at least any epoch the history had before. *)
Lemma was_before T T' E j s : good T' → T `prefix_of` T' → was T E → (length T - 1 ≤ j)%nat → T' !! j = Some s →
  ∃ n, epoch_at s = Some n ∧ E ≤ n.
Proof.
  intros Hg Hp (p & u & Hu & HE) Hj Hs. pose proof (lookup_lt_Some _ _ _ Hu).
  destruct (good_rise _ Hg p j u s) as (n & n' & Hn & Hn' & Hle); [lia|by eapply prefix_lookup_Some|done|].
  exists n'. split; [done|]. rewrite HE in Hn. by injection Hn as <-.
Qed.

(** ** Reads *)

Section Programs.
Variable env : config.

Abbreviation WP := (wp env good kept warm_ok).

Lemma kept_latest T T' : good T → T `prefix_of` T' → kept T' (hnd (latest T)).
Proof. intros Hg Hp. eapply kept_mono; [done|]. by apply good_kept. Qed.

(** await of a program that starts at the handler of the latest state. *)
Lemma wp_await {A C} (Q : trace → handler → C → Prop) R T h (p : method A) f :
  WP (λ T h a, kept T h ∧ ∀ T', good T' → T `prefix_of` T' → WP Q R T' (hnd (latest T')) (f a)) R T h p →
  WP Q R T h (await p f).
Proof. intros H. unfold await. apply wp_bind. exact H. Qed.

Definition lookups (tags : list string) (h : hash) : list (option field) := map (λ f, h !! f) tags.

Lemma states_of_spec tags h t :
  states_of tags (lookups tags h) !! t = if bool_decide (t ∈ tags) then manifest_of h !! t else None.
Proof.
  unfold states_of. assert (∀ m : manifest, foldl (λ m tv, match tv.2 with Some (FState s) => <[tv.1 := s]> m | _ => m end) m (zip tags (lookups tags h)) !! t
    = if bool_decide (t ∈ tags) then match manifest_of h !! t with Some s => Some s | None => m !! t end else m !! t) as H.
  { induction tags as [|x tags IH]; intros m; [done|]. cbn [lookups map zip zip_with foldl fst snd].
    change (map (λ f, h !! f) tags) with (lookups tags h). rewrite IH. rewrite lookup_manifest_of.
    destruct (decide (t = x)) as [->|Hne].
    - rewrite (bool_decide_true (x ∈ x :: tags)) by left. destruct (h !! x) as [[s| |]|] eqn:Hx; case_bool_decide; rewrite ?lookup_insert_eq; done.
    - rewrite (bool_decide_ext (t ∈ x :: tags) (t ∈ tags)) by (rewrite elem_of_cons; naive_solver).
      destruct (h !! x) as [[s| |]|]; rewrite ?lookup_insert_ne by done; done. }
  rewrite H, lookup_empty. case_bool_decide; [|done]. by destruct (manifest_of h !! t).
Qed.

(** A manifest read at state [s] for [tags]. *)
Definition read_at (s : machine) (tags : list string) (m : manifest) : Prop :=
  (∀ t, t ∈ tags → m !! t = shared s !! t) ∧ (∀ t, is_Some (m !! t) → t ∈ tags).

Lemma wp_tagStates (Q : trace → handler → manifest → Prop) R T tags : good T →
  (∀ T', good T' → T `prefix_of` T' → R T' (hnd (latest T'))) →
  (∀ T' j s m, good T' → T `prefix_of` T' → (length T - 1 ≤ j)%nat → T' !! j = Some s → read_at s tags m →
     Q T' (hnd (latest T')) m) →
  WP Q R T (hnd (latest T)) (tagStates tags).
Proof.
  intros Hg HR HQ. unfold tagStates. destruct tags as [|t tags].
  - cbn. eapply HQ; [done|done|done|by apply good_latest|]. split; intros x; [by intros ?%not_elem_of_nil|].
    rewrite lookup_empty. by intros [].
  - apply wp_ask; [by apply good_kept|done|done|]. intros T' j s r Hg' Hp Hj Hs Hr. cbn [serve] in Hr. injection Hr as <-. cbn [wp].
    eapply HQ; [done|done| |exact Hs|]; [lia|]. change (states_of (t :: tags) _) with (states_of (t :: tags) (lookups (t :: tags) (fields (tagStore (srv s))))).
    split; intros x; rewrite states_of_spec; by case_bool_decide.
Qed.

Lemma wp_sample (Q : trace → handler → ValkeyClockSample → Prop) R T j : good T → (j ≤ length T - 1)%nat →
  (∀ T', good T' → T `prefix_of` T' → R T' (hnd (latest T'))) →
  (∀ T' c, good T' → T `prefix_of` T' → sampled T' j (length T') c → Q T' (hnd (latest T')) c) →
  WP Q R T (hnd (latest T)) sampleValkeyClock.
Proof.
  intros Hg Hj HR HQ. unfold sampleValkeyClock. cbn [wp]. apply wp_ask; [by apply good_kept|done|done|].
  intros T' a s r Hg' Hp Ha Hs Hr. cbn [serve] in Hr. injection Hr as <-. cbn [wp]. apply HQ; [done..|].
  pose proof (good_latest T Hg) as Hb. pose proof (good_latest T' Hg') as Hd. pose proof (lookup_lt_Some _ _ _ Hs).
  exists (length T - 1)%nat, a, (length T' - 1)%nat, (latest T), s, (latest T').
  split_and!; [lia|lia|lia|lia|by eapply prefix_lookup_Some|done|done|done|done].
Qed.

(** What a read of the backing store was checked with. *)
Definition backed (T0 T : trace) (softTags : list string) (r : StoredRead) : Prop :=
  ∃ j s m c, (length T0 - 1 ≤ j)%nat ∧ T !! j = Some s ∧ sampled T j (length T) c
  ∧ read_at s (m_tags (sr_meta r) ++ softTags) m
  ∧ let ts := sr_localTimestamp r + offset c in
    sr_tagExpiresAt r = local_deadline ts m c
    ∧ sr_freshness r = judge ts (m_revalidate (sr_meta r)) (m_expire (sr_meta r)) (m_tags (sr_meta r) ++ softTags) m c.

Lemma wp_readStored (Q : trace → handler → option StoredRead → Prop) R T key softTags : good T →
  (∀ T', good T' → T `prefix_of` T' → R T' (hnd (latest T'))) →
  (∀ T' r, good T' → T `prefix_of` T' → (∀ x, r = Some x → backed T T' softTags x) → Q T' (hnd (latest T')) r) →
  WP Q R T (hnd (latest T)) (readStored (buildId env) key softTags).
Proof.
  intros Hg HR HQ. unfold readStored. apply wp_ask; [by apply good_kept|done|done|].
  intros T1 j1 s1 r Hg1 Hp1 _ _ Hr. cbn [serve] in Hr. injection Hr as <-.
  destruct (entries (srv s1) !! _) as [[[m|] [value|] ?]|]; try by apply HQ.
  destruct (parseStoredMeta m) as [meta|]; [|by apply HQ]. cbv zeta. apply wp_await.
  apply wp_tagStates; [done|intros; apply HR; [done|by etrans]|].
  intros T2 j s mf Hg2 Hp2 Hj Hs Hm. split; [by apply good_kept|]. intros T3 Hg3 Hp3. apply wp_await.
  assert (T `prefix_of` T3) as Hp by (do 2 (etrans; [done|]); done). pose proof (prefix_length _ _ Hp1).
  pose proof (prefix_length _ _ Hp3). pose proof (lookup_lt_Some _ _ _ Hs).
  apply (wp_sample _ _ _ j); [done|lia|intros; apply HR; [done|by etrans]|].
  intros T4 c Hg4 Hp4 Hc. split; [by apply good_kept|]. intros T5 Hg5 Hp5. case_bool_decide; cbn [wp].
  - apply HQ; [done| |done]. etrans; [exact Hp|]. by etrans.
  - apply HQ; [done|etrans; [exact Hp|by etrans]|]. intros x [= <-]. exists j, s, mf, c.
    split_and!; [lia| | |exact Hm|]; cbn [sr_meta sr_localTimestamp sr_tagExpiresAt sr_freshness].
    + eapply prefix_lookup_Some; [exact Hs|]. do 2 (etrans; [done|]). done.
    + eapply sampled_mono; [done| |exact Hc]. by apply prefix_length.
    + replace (toLocal c (twice (m_timestamp meta)) + offset c) with (twice (m_timestamp meta)); [done|].
      unfold toLocal, offset. lia.
Qed.

(** ** The invariant under each change of the handler *)

Lemma known_epochs l : known l ↔ Forall is_Some (i_epoch <$> l).
Proof. unfold known. by rewrite Forall_fmap. Qed.

Lemma epochs_in (l l' : list PreparedInvocation) i E : i_epoch <$> l' = i_epoch <$> l → i ∈ l' → i_epoch i = Some E →
  ∃ i', i' ∈ l ∧ i_epoch i' = Some E.
Proof.
  intros Heq Hi HE. apply (list_elem_of_fmap_2 i_epoch) in Hi. rewrite Heq in Hi.
  apply list_elem_of_fmap in Hi as (i' & Hi' & Hin). exists i'. split; [done|congruence].
Qed.

Lemma kept_sub T h h' : kept T h → bounded h' → manifestEpoch h' = manifestEpoch h →
  i_epoch <$> invocations h' = i_epoch <$> invocations h → (∀ x, x ∈ localEntries h' → x ∈ localEntries h) → kept T h'.
Proof.
  intros [_ Hf] Hb He Hi Hsub. split; [done|]. intros Hk Hn.
  destruct (Hf Hk) as [H1 H2 H3 H4]; [apply known_epochs; rewrite <- Hi; by apply known_epochs|].
  split; rewrite ?He; [done| |by eauto|].
  - intros H. specialize (H2 H). destruct (localEntries h') as [|x l]; [done|]. exfalso.
    specialize (Hsub x (list_elem_of_here _ _)). rewrite H2 in Hsub. by apply not_elem_of_nil in Hsub.
  - intros i E Hin HE. destruct (epochs_in _ _ _ _ Hi Hin HE) as (i' & Hin' & HE'). by eapply H4.
Qed.

Lemma bounded_rest h h' : bounded h → localEntries h' = localEntries h → localBytes h' = localBytes h →
  (size (warming h') ≤ LOCAL_FRONT_MAX_CONCURRENT_WARMS)%nat → bounded h'.
Proof. intros [[Hk Hc] Hb He Hw] El Eb Hw'. split; [split|..]; by rewrite ?El, ?Eb. Qed.

Lemma kept_put T k e h : kept T h →
  (all_known T → known (invocations h) → ∃ E, manifestEpoch h = Some E ∧ checked T E e) → kept T (putLocalEntry k e h).
Proof.
  intros [Hb Hf] Hc. destruct (put_spec k e h Hb) as (Hb' & Hs & Hin). split; [done|]. intros Hk Hn.
  rewrite (same_invocations _ _ Hs) in Hn. destruct (Hf Hk Hn) as [H1 H2 H3 H4]. destruct (Hc Hk Hn) as (E & HE & He).
  split; rewrite ?(same_epoch _ _ Hs), ?(same_invocations _ _ Hs); [done|by rewrite HE| |done].
  intros E' k' e' HE' [Hx|[= -> ->]]%Hin; [by eapply H3|]. rewrite HE in HE'. by injection HE' as <-.
Qed.

Lemma kept_read T now k softTags h : kept T h → kept T (readLocalEntry now k softTags h).2.
Proof.
  intros Hk. destruct (read_spec now k softTags h) as (Hb & Hs & Hin); [by destruct Hk|].
  eapply kept_sub; [done|done|apply Hs|by rewrite (same_invocations _ _ Hs)|done].
Qed.

Lemma record_epochs inv k softTags h : i_epoch <$> invocations (record_soft_tags inv k softTags h) = i_epoch <$> invocations h.
Proof.
  cbn. generalize (invocations h). intros l. revert inv. induction l as [|i l IH]; intros [|inv]; cbn; try done. by rewrite IH.
Qed.

Lemma kept_record T inv k softTags h : kept T h → kept T (record_soft_tags inv k softTags h).
Proof.
  intros Hk. eapply kept_sub; [done| |done|apply record_epochs|done]. destruct Hk as [Hb _]. by eapply bounded_rest; [done..|apply Hb].
Qed.

Lemma kept_warming T w h : kept T h → (size w ≤ LOCAL_FRONT_MAX_CONCURRENT_WARMS)%nat → kept T (with_warming w h).
Proof. intros Hk Hw. eapply kept_sub; [done| |done..]. destruct Hk as [Hb _]. by eapply bounded_rest. Qed.

Lemma kept_writes T g p r h : kept T h → kept T (with_writes g p r h).
Proof. intros Hk. eapply kept_sub; [done| |done..]. destruct Hk as [Hb _]. by eapply bounded_rest; [done..|apply Hb]. Qed.

Lemma kept_remove T k h : kept T h → kept T (removeLocalEntry k h).
Proof.
  intros Hk. pose proof (remove_rest k h) as Hs. eapply kept_sub; [done| |apply Hs|by rewrite (same_invocations _ _ Hs)|apply remove_elem].
  apply remove_bounded. by destruct Hk.
Qed.

Lemma clear_bounded h : bounded h → bounded (clearLocalEntries h).
Proof. intros [_ _ _ Hw]. split; [split; [constructor|done]|done|done|done]. Qed.

(** Without an epoch, and with an empty front. *)
Lemma kept_no_epoch T b h : kept T h → kept T (with_epoch None b (clearLocalEntries h)).
Proof.
  intros [Hb Hf]. split; [eapply bounded_rest; [by apply clear_bounded|done|done|apply Hb]|].
  intros Hk Hn. destruct (Hf Hk Hn) as [H1 H2 H3 H4]. by split.
Qed.

Lemma kept_take T epoch h : kept T h → was T epoch → kept T (take_epoch epoch h).
Proof.
  intros [Hb Hf] Hw. unfold take_epoch. set (h1 := match manifestEpoch h with Some _ => _ | None => _ end).
  assert (bounded h1 ∧ invocations h1 = invocations h) as [Hb1 Hi1].
  { unfold h1. destruct (manifestEpoch h) as [e|]; [destruct (negb _)|]; (split; [|done]); [by apply clear_bounded|done..]. }
  split; [eapply bounded_rest; [exact Hb1|done|done|apply Hb1]|]. cbn [with_epoch invocations]. rewrite Hi1. intros Hk Hn.
  destruct (Hf Hk Hn) as [H1 H2 H3 H4]. split; cbn [with_epoch manifestEpoch localEntries invocations]; [by intros ? [= <-]|done| |by rewrite Hi1].
  intros E k e [= <-] Hin. unfold h1 in Hin. destruct (manifestEpoch h) as [e0|].
  - destruct (Z.eqb_spec epoch e0) as [->|]; cbn in Hin; [by eapply H3|by apply not_elem_of_nil in Hin].
  - rewrite H2 in Hin by done. by apply not_elem_of_nil in Hin.
Qed.

Lemma kept_invocation T epoch h : kept T h → (∀ E, epoch = Some E → was T E) →
  kept T (with_invocations (invocations h ++ [mkInvocation epoch ∅]) h).
Proof.
  intros [Hb Hf] Hw. split; [by eapply bounded_rest; [done..|apply Hb]|]. cbn [with_invocations invocations].
  intros Hk [Hn _]%Forall_app. destruct (Hf Hk Hn) as [H1 H2 H3 H4]. split; [done..|].
  intros i E [Hi|Hi%list_elem_of_singleton]%elem_of_app HE; [by eapply H4|]. subst i. by apply Hw.
Qed.

(** ** The methods *)

Lemma wp_modify {A} (Q : trace → handler → A → Prop) R T h f (p : method A) : WP Q R T (f h) p → WP Q R T h (modify f p).
Proof. done. Qed.

Lemma backed_checked T0 T softTags r rv E : good T → T0 `prefix_of` T → was T0 E → backed T0 T softTags r →
  sr_freshness r = Fresh rv → checked T E (local_of_read softTags r rv).
Proof.
  intros Hg Hp HE (j & s & m & c & Hj & Hs & Hc & [Hm Hd] & Ht & Hf) Hfr.
  destruct (was_before _ _ _ _ _ Hg Hp HE Hj Hs) as (n & Hn & Hle).
  exists j, s, n, softTags, m, c. split_and!; [done..|]. rewrite Hfr in Hf.
  assert (rv = m_revalidate (sr_meta r)) as ->. { symmetry in Hf. by apply evaluate_fresh in Hf as [-> _]. }
  split; cbn [local_of_read l_tagExpiresAt l_timestamp l_verifiedSoftTags l_tags l_revalidate l_expire]; [done| |done|done].
  intros t Hin. eapply elem_of_sublist; [exact Hin|apply cap_sublist].
Qed.

Lemma wp_admit_read (Q : trace → handler → () → Prop) R T0 T w r : good T → T0 `prefix_of` T → warm_ok T0 w →
  (∀ x, r = Some x → backed T0 T (w_softTags w) x) → (∀ h, kept T h → Q T h tt) →
  WP Q R T (hnd (latest T)) (admit_read w r).
Proof.
  intros Hg Hp Hw Hr HQ. pose proof (good_kept T Hg) as Hk. unfold admit_read. cbn [wp].
  destruct r as [r|]; [|by apply HQ]. destruct (sr_freshness r) as [| |rv] eqn:Hf; [by apply HQ..|].
  destruct (_ || _) eqn:Hc; [by apply HQ|]. cbn [wp]. apply HQ, kept_put; [done|]. intros Ha Hn. b2p.
  destruct Hw as (E & HE & Hwas); [by eapply all_known_prefix|]. exists E. split; [congruence|].
  eapply backed_checked; [done|exact Hp|done|by apply Hr|done].
Qed.

Lemma wp_warm_program w T : warm_ok T w → good T →
  WP (λ T h _, kept T h) kept T (hnd (latest T)) (warm_program (buildId env) w).
Proof.
  intros Hw Hg. unfold warm_program. apply wp_await, wp_catch, wp_await.
  assert (∀ T' h', kept T' h' → kept T' h' ∧ (∀ T'', good T'' → T' `prefix_of` T'' →
    WP (λ T h (_ : ()), kept T h) kept T'' (hnd (latest T''))
      (modify (λ h, with_warming (warming h ∖ {[w_key w]}) h) (Ret ())))) as Hend.
  { intros T' h' Hk. split; [done|]. intros T'' Hg'' _. cbn. pose proof (good_kept _ Hg'') as Hk''.
    apply kept_warming; [done|]. destruct Hk'' as [[_ _ _ Hs] _]. etrans; [|exact Hs]. apply subseteq_size. set_solver. }
  apply wp_readStored; [done|intros T' Hg' _; apply Hend; by apply good_kept|].
  intros T1 r Hg1 Hp1 Hr. split; [by apply good_kept|]. intros T2 Hg2 Hp2.
  apply wp_admit_read with T; [done|by etrans|done| |apply Hend].
  intros x Hx. destruct (Hr x Hx) as (j & s & m & c & Hj & Hs & Hc & Hrest). exists j, s, m, c.
  split_and!; [done|by eapply prefix_lookup_Some| |apply Hrest..]. eapply sampled_mono; [done| |done]. by apply prefix_length.
Qed.

Lemma sampled_clip T j k c : sampled T j k c → sampled T j (length T - 1) c.
Proof.
  intros (b & a & d & sb & sa & sd & ? & ? & Hb & Ha & Hd & ? & ?). pose proof (lookup_lt_Some _ _ _ Hd).
  exists b, a, d, sb, sa, sd. split_and!; [lia|lia|lia|lia|done..].
Qed.

Lemma latest_known T : good T → all_known T → known (invocations (hnd (latest T))).
Proof. intros Hg Ha. exact (Forall_lookup_1 _ _ _ _ Ha (good_latest T Hg)). Qed.

Lemma twice_agree (m m' : manifest) (tags : list string) : (∀ t, t ∈ tags → m !! t = m' !! t) →
  ∀ t, t ∈ tags → twice_manifest m !! t = twice_manifest m' !! t.
Proof. intros H t Ht. unfold twice_manifest. by rewrite !lookup_fmap, H. Qed.

(** A hit of the local front is fresh in the sense of [fresh_hit]. *)
Lemma hit_fresh T inv i k softTags e : good T → invocations (hnd (latest T)) !! inv = Some i →
  i_epoch i = manifestEpoch (hnd (latest T)) →
  (readLocalEntry (clock (latest T)) k softTags (record_soft_tags inv k softTags (hnd (latest T)))).1 = Some e →
  all_known T → fresh_hit T inv softTags e.
Proof.
  intros Hg Hi He Hr Ha. pose proof (latest_known T Hg Ha) as Hn. destruct (good_now _ Hg) as [_ Hf].
  destruct (Hf Ha Hn) as [H1 H2 H3 H4]. destruct (Forall_lookup_1 _ _ _ _ Hn Hi) as [E HE].
  apply read_hit in Hr as (l & Hl & Hv & Hp & ->). change (localEntries (record_soft_tags _ _ _ ?h)) with (localEntries h) in Hl.
  destruct (H3 E k l) as (j & s & n & softs & m & c & Hj & Hsn & Hle & Hc & Hm & Had); [congruence|by apply map_get_elem|].
  exists (length T - 1)%nat, (latest T), i, E, j, s, n, c. cbn [c_timestamp c_revalidate c_expire c_tags].
  split_and!; [by apply good_latest|done|done|apply H1; congruence|done|done|done|by eapply sampled_clip|].
  pose proof (verdict_of_front softs m c l (clock (latest T)) Had) as Hverdict. cbv zeta in Hverdict. rewrite Hp in Hverdict.
  unfold shared_verdict in Hverdict. erewrite evaluate_agree in Hverdict; [|by apply twice_agree].
  eapply fresh_subset; [|exact Hverdict]. intros t [Ht|Ht]%elem_of_app; apply elem_of_app; [by left|right].
  by apply (admitted_softs _ _ _ _ Had), Hv.
Qed.

Lemma wp_warm (Q : trace → handler → option CacheEntry → Prop) R T h i k softTags : good T → kept T h →
  i ∈ invocations (hnd (latest T)) →
  (∀ h', kept T h' → Q T h' None) → WP Q R T h (warmLocalEntry (i_epoch i) k softTags (Ret None)).
Proof.
  intros Hg Hk Hi HQ. unfold warmLocalEntry. cbn [wp]. destruct (warms _ _ _) eqn:Hw; [|by apply HQ]. cbn [wp]. split.
  - intros Ha. pose proof (latest_known T Hg Ha) as Hn. destruct (good_now _ Hg) as [_ Hf]. destruct (Hf Ha Hn) as [_ _ _ H4].
    unfold known in Hn. rewrite Forall_forall in Hn. destruct (Hn i Hi) as [E HE]. exists E. split; [done|]. by eapply H4.
  - apply HQ, kept_warming; [done|]. unfold warms in Hw. apply negb_true_iff, orb_false_iff in Hw as [_ Hw%Nat.leb_gt].
    rewrite size_union_alt, size_singleton. assert (size (warming h ∖ {[k]}) ≤ size (warming h))%nat; [|lia].
    apply subseteq_size. set_solver.
Qed.

Lemma wp_get_prepared (Q : trace → handler → option CacheEntry → Prop) T inv k softTags : good T →
  (∀ h a, kept T h → (∀ e, a = Some e → all_known T → fresh_hit T inv softTags e) → Q T h a) →
  WP Q kept T (hnd (latest T)) (get_prepared inv k softTags).
Proof.
  intros Hg HQ. pose proof (good_kept T Hg) as Hk. unfold get_prepared. cbn [wp].
  destruct (invocations (hnd (latest T)) !! inv) as [i|] eqn:Hi; [|done].
  destruct (negb _) eqn:He; [by apply HQ|]. b2p.
  pose proof (kept_read T (clock (latest T)) k softTags _ (kept_record T inv k softTags _ Hk)) as Hk'.
  pose proof (λ e, hit_fresh T inv i k softTags e Hg Hi He) as Hhit.
  destruct (readLocalEntry _ _ _ _) as [local h]. cbn [fst snd] in *. cbn [wp]. destruct local as [e|].
  - apply HQ; [done|]. intros e' [= <-]. by apply Hhit.
  - apply wp_warm; [done|done|by eapply list_elem_of_lookup_2|]. intros h' Hh. by apply HQ.
Qed.

Lemma wp_get_unprepared (Q : trace → handler → option CacheEntry → Prop) R T k softTags : good T →
  (∀ T' r, good T' → Q T' (hnd (latest T')) r) → WP Q R T (hnd (latest T)) (get_unprepared (buildId env) k softTags).
Proof.
  intros Hg HQ. assert (∀ T', good T' → WP Q R T' (hnd (latest T'))
    (catch (await (readStored (buildId env) k softTags) (λ read, Ret (cacheEntry <$> read))) (Ret None))) as Hread.
  { intros T' Hg'. apply wp_catch, wp_await. apply wp_readStored; [done|intros; by apply HQ|].
    intros T1 r Hg1 _ _. split; [by apply good_kept|]. intros T2 Hg2 _. by apply HQ. }
  unfold get_unprepared. cbn [wp]. destruct (pendingSets _ !! k); [|by apply Hread]. cbn [wp].
  split; [by apply good_kept|]. intros T' Hg' _. by apply Hread.
Qed.

Lemma wp_admit_write (Q : trace → handler → () → Prop) R T store k generation e expire revalidate metaTags buf : good T →
  (∀ T', good T' → R T' (hnd (latest T'))) → (∀ T' h, kept T' h → Q T' h tt) →
  WP Q R T (hnd (latest T)) (admit_write store k generation e expire revalidate metaTags buf).
Proof.
  intros Hg HR HQ. pose proof (good_kept T Hg) as Hk. unfold admit_write. cbn [wp].
  destruct (store ≫= _) as [i|] eqn:Hi; [|by apply HQ]. destruct (negb _) eqn:He; [by apply HQ|]. cbv zeta.
  set (softTags := default [] _). apply wp_await. apply wp_tagStates; [done|intros; by apply HR|].
  intros T2 j s m Hg2 Hp2 Hj Hs [Hm Hd]. split; [by apply good_kept|]. intros T3 Hg3 Hp3. apply wp_await.
  pose proof (prefix_length _ _ Hp3). pose proof (lookup_lt_Some _ _ _ Hs).
  apply (wp_sample _ _ _ j); [done|lia|intros; by apply HR|].
  intros T4 c Hg4 Hp4 Hc. split; [by apply good_kept|]. intros T5 Hg5 Hp5. pose proof (good_kept T5 Hg5) as Hk5.
  destruct (judge _ _ _ _ _ _) as [| |rv] eqn:Hf; [by apply HQ..|]. cbn [wp].
  destruct (current_write _ _ _) eqn:Hw; [|by apply HQ]. cbn [wp]. apply HQ, kept_put; [done|]. intros Ha Hn.
  unfold current_write in Hw. b2p.
  assert (T `prefix_of` T5) as Hp by (do 3 (etrans; [done|]); done). assert (T2 `prefix_of` T5) as Hp25 by (do 2 (etrans; [done|]); done).
  pose proof (all_known_prefix _ _ Hp Ha) as Ha0. pose proof (latest_known T Hg Ha0) as Hn0.
  assert (i ∈ invocations (hnd (latest T))) as Hin. { destruct store as [inv|]; [|done]. by eapply list_elem_of_lookup_2. }
  destruct Hk as [_ Hf0]. destruct (Hf0 Ha0 Hn0) as [_ _ _ Hinv]. unfold known in Hn0. rewrite Forall_forall in Hn0.
  destruct (Hn0 i Hin) as [E HE]. exists E. split; [congruence|].
  destruct (was_before T T5 E j s Hg5 Hp (Hinv i E Hin HE) Hj) as (n & Hsn & Hle); [by eapply prefix_lookup_Some|].
  exists j, s, n, softTags, m, c. split_and!; [by eapply prefix_lookup_Some|done|done| |done|].
  - eapply sampled_mono; [exact Hp5| |exact Hc]. by apply prefix_length.
  - assert (rv = revalidate) as ->. { unfold judge in Hf. by apply evaluate_fresh in Hf as [-> _]. }
    replace (twice (r_timestamp e) + serverNow c - localNow c) with (twice (r_timestamp e) + offset c) in * by (unfold offset; lia).
    by split.
Qed.

Lemma wp_set T store k : good T →
  WP (λ T h _, kept T h) kept T (hnd (latest T)) (set (buildId env) (maxBytes env) store k).
Proof.
  intros Hg. pose proof (good_kept T Hg) as Hk. unfold set. cbn [wp]. apply wp_bind, wp_catch.
  set (Q := λ (T : trace) h (_ : ()), WP (λ T h _, kept T h) kept T h (modify (close_set k (writeGeneration (hnd (latest T)) + 1)) (Ret tt))).
  assert (∀ T' h' g, kept T' h' → WP (λ T h (_ : ()), kept T h) kept T' h' (modify (close_set k g) (Ret tt))) as Hend.
  { intros T' h' g Hk'. cbn. by apply kept_writes. }
  clear Q. unfold set_body. cbn [wp]. split; [by apply kept_writes, kept_remove|]. intros T1 [[e|]|?] Hg1 Hp1; [|by apply Hend, good_kept..].
  pose proof (good_kept T1 Hg1) as Hk1.
  destruct (r_expire e) as [expire|]; [|by apply Hend]. destruct (r_revalidate e) as [revalidate|]; [|by apply Hend].
  destruct (expire <=? 0); [by apply Hend|]. cbn [wp]. split; [done|]. intros T2 Hg2 Hp2.
  destruct (drainEntryValue (maxBytes env) e) as [buf|]; [|by apply Hend, good_kept]. cbv zeta. cbn [wp].
  apply wp_ask; [by apply good_kept|done|intros; by apply Hend, good_kept|]. intros T3 j s r Hg3 _ _ _ _.
  apply wp_admit_write; [done|intros; by apply Hend, good_kept|]. intros. by apply Hend.
Qed.

Lemma reply_was T j s epoch : T !! j = Some s →
  epoch_of_reply [fields (tagStore (srv s)) !! TAG_MANIFEST_EPOCH_FIELD] = Some epoch → was T epoch.
Proof.
  intros Hs He. exists j, s. split; [done|]. unfold epoch_at, epoch_of. unfold epoch_of_reply in He.
  destruct (fields (tagStore (srv s)) !! TAG_MANIFEST_EPOCH_FIELD) as [[|n|]|]; try done. by destruct (0 <=? n).
Qed.

Lemma wp_prepare T : good T → WP (λ T h _, kept T h) kept T (hnd (latest T)) prepareForInvocation.
Proof.
  intros Hg. unfold prepareForInvocation. apply wp_bind. unfold prepare_epoch. apply wp_catch.
  assert (∀ T', good T' → WP (λ T h (a : option Z), WP (λ T h (_ : nat), kept T h) kept T h
    (Look (λ _ h, Put (with_invocations (invocations h ++ [mkInvocation a ∅]) h) (Ret (length (invocations h)))))) kept
    T' (hnd (latest T')) (modify lose_epoch (Ret None))) as Hlose.
  { intros T' Hg'. apply (kept_invocation T' None (lose_epoch (hnd (latest T')))); [|done]. by apply kept_no_epoch, good_kept. }
  apply wp_ask; [by apply good_kept|done|intros; by apply Hlose|]. intros T' j s r Hg' Hp Hj Hs Hr. cbn [serve] in Hr. injection Hr as <-.
  cbn [map]. destruct (epoch_of_reply _) as [epoch|] eqn:He; [|by apply Hlose]. pose proof (reply_was T' j s epoch Hs He) as Hw. apply (kept_invocation T' (Some epoch) (take_epoch epoch (hnd (latest T')))).
  - by apply kept_take; [apply good_kept|].
  - by intros E [= <-].
Qed.

Lemma wp_getExpiration T store tags : good T →
  WP (λ T h _, kept T h) kept T (hnd (latest T)) (getExpiration store tags).
Proof.
  intros Hg. pose proof (good_kept T Hg) as Hk. destruct store as [inv|]; [done|]. unfold getExpiration. apply wp_catch, wp_await.
  apply wp_tagStates; [done|intros; by apply good_kept|]. intros T1 j s m Hg1 _ _ _ _. split; [by apply good_kept|]. intros T2 Hg2 _.
  cbv zeta. destruct (_ =? 0); [by apply good_kept|]. apply wp_await.
  apply (wp_sample _ _ _ 0%nat); [done|lia|intros; by apply good_kept|]. intros T3 c Hg3 _ _. split; [by apply good_kept|].
  intros T4 Hg4 _. by apply good_kept.
Qed.

Lemma wp_send (Q : trace → handler → () → Prop) R T h chunks now d : kept T h →
  (∀ c t, c ∈ chunks → t ∈ c → t ≠ TAG_MANIFEST_EPOCH_FIELD) →
  (∀ T', good T' → R T' (hnd (latest T'))) → (∀ T' h', kept T' h' → Q T' h' tt) →
  WP Q R T h (send_updates chunks now d).
Proof.
  revert T h. induction chunks as [|c chunks IH]; intros T h Hk Hc HR HQ; [by apply HQ|]. cbn [send_updates].
  apply wp_ask; [done| |intros; by apply HR|].
  - cbn [fair]. intros Hin. apply list_elem_of_fmap in Hin as ([f v] & Hf & Hin). cbn in Hf. subst f.
    apply list_elem_of_In, in_map_iff in Hin as (t & [= Ht _] & Hin%list_elem_of_In). by eapply (Hc c t); [left|..].
  - intros T' _ _ _ Hg' _ _ _ _. apply IH; [by apply good_kept| |done|done]. intros c' t Hc'. apply Hc. by right.
Qed.

Lemma wp_updateTags T tags d : good T → WP (λ T h _, kept T h) kept T (hnd (latest T)) (updateTags tags d).
Proof.
  intros Hg. pose proof (good_kept T Hg) as Hk. unfold updateTags. cbv zeta. pose proof (chunk_not_epoch tags) as Hc.
  destruct (filterManifestTags tags) as [|x l]; [done|]. apply wp_modify, wp_catch. cbn [wp].
  apply wp_send; [by apply kept_no_epoch|intros c t; apply Hc|intros; by apply good_kept|done].
Qed.

Lemma wp_hasTagUpdates T tags : good T → WP (λ T h _, kept T h) kept T (hnd (latest T)) (hasTagUpdates tags).
Proof.
  intros Hg. pose proof (good_kept T Hg) as Hk. unfold hasTagUpdates. cbv zeta. apply wp_catch.
  destruct (filterManifestTags tags) as [|x l]; [done|]. apply wp_await.
  apply wp_tagStates; [done|intros; by apply good_kept|]. intros T1 j s m Hg1 _ _ _ _. split; [by apply good_kept|]. intros T2 Hg2 _.
  by apply good_kept.
Qed.

Lemma fresh_hit_mono T T' inv softTags e : T `prefix_of` T' → fresh_hit T inv softTags e → fresh_hit T' inv softTags e.
Proof.
  intros Hp (k & sk & i & E & j & s & n & c & Hk & Hi & HE & Hw & Hj & Hn & Hle & Hc & Hv). exists k, sk, i, E, j, s, n, c.
  split_and!; [by eapply prefix_lookup_Some|done|done|by eapply was_mono|by eapply prefix_lookup_Some|done|done| |done].
  by eapply sampled_mono.
Qed.

Lemma good_boot s : is_Some (epoch_of (fields (tagStore s))) → good [boot s].
Proof.
  intros [n Hn]. split; [|cbn; lia|].
  - intros [|i] [|j] u v _ Hu Hv; cbn in Hu, Hv; try done.
    injection Hu as <-. injection Hv as <-. by exists n, n.
  - split; [split; [split; [constructor|done]|done|done|]|].
    + cbn. rewrite size_empty. lia.
    + intros _ _. split; [done|done|done|]. intros i E Hi. by apply not_elem_of_nil in Hi.
Qed.

End Programs.
End UseCacheRuns.
