(* ===== verification/CacheRuns.v ===== *)
(** * Runs of the cache handlers

    The methods of [IncrementalCache] in the logic of [UseCacheLogic], and what holds in every
    interleaving of [CacheMachine]: staged reads of the use-cache handler serve only what the shared
    manifest calls fresh, and reads of the incremental handler what its rule lets through. *)
From Stdlib Require Import Ascii String.
From S2P Require Import Prelude JsString Json TagManifest SharedCache UseCache IncrementalCache CacheMachine UseCacheFacts UseCacheLogic UseCacheRuns.
Local Open Scope stdpp_scope.
Local Open Scope Z_scope.

Module CacheRuns.
Import TagManifest.TagManifest SharedCache.SharedCache UseCache.UseCache CacheMachine.CacheMachine
  UseCacheFacts.UseCacheFacts UseCacheLogic.UseCacheLogic UseCacheRuns.UseCacheRuns.
Module Inc := IncrementalCache.IncrementalCache.

Section Programs.
Variable env : config.

Abbreviation WP := (wp env good kept warm_ok).
Abbreviation decode := (Inc.decodeValue (from_base64 env)).

(** ** What a read of the incremental handler was judged by *)

(** The entry was read at state [je] and its tags at a state [jm] that is not older; they do not
    expire it on the clock sampled then, and the answer says what they and its window say. *)
Definition stored_read (T : trace) (key : string) (ctx : Inc.GetCtx) (peek : bool) (v : Inc.CacheHandlerValue) : Prop :=
  ∃ je se raw ttl entry jm sm c,
    T !! je = Some se ∧ texts (srv se) !! Inc.incKey (buildId env) key = Some (raw, ttl)
    ∧ Inc.parseStoredEntry raw = Some entry
    ∧ (je ≤ jm)%nat ∧ T !! jm = Some sm ∧ sampled T jm (length T) c
    ∧ let tags := Inc.read_tags ctx (Inc.se_tags entry) in
      let ts := twice (Inc.e_lastModified entry) in
      let window := Inc.e_revalidateSeconds entry in
      areTagsExpired tags ts (twice_manifest (shared sm)) (serverNow c) = false
      ∧ v = Inc.answer ctx peek (areTagsStale tags ts (twice_manifest (shared sm)))
              (Inc.past_window ts (Inc.fetch_revalidate ctx (Inc.seconds_of window)) (serverNow c))
              (toLocal c ts) (localNow c) window (Inc.e_expireSeconds entry) (Inc.v_value v)
      ∧ (Inc.is_fetch (Inc.g_kind ctx) = false → decode (Inc.e_value entry) = Some (Inc.v_value v)).

(** A build artifact, which precedes every event of the manifest. *)
Definition seed_read (T : trace) (ctx : Inc.GetCtx) (peek : bool) (v : Inc.CacheHandlerValue) : Prop :=
  ∃ seed jm sm c,
    T !! jm = Some sm ∧ sampled T jm (length T) c
    ∧ let tags := Inc.read_tags ctx (seed_tags seed) in
      let window := Inc.seed_revalidate ctx (seed_value seed) in
      areTagsExpired tags 0 (twice_manifest (shared sm)) (serverNow c) = false
      ∧ v = Inc.answer ctx peek (areTagsStale tags 0 (twice_manifest (shared sm)))
              (Inc.past_window (twice (seed_lastModified seed)) (Inc.fetch_revalidate ctx window) (localNow c))
              (twice (seed_lastModified seed)) (localNow c) (Inc.Seconds <$> window) None (Inc.v_value v)
      ∧ (Inc.is_fetch (Inc.g_kind ctx) = false → Inc.v_value v = Inc.CMembers (seed_value seed)).

Definition read_key (m : Inc.reader) (key : string) : string :=
  match m with Inc.Get => Inc.canonicalPathCacheKey (decodeURIComponent env) key | _ => key end.
Definition peeks (m : Inc.reader) : bool := match m with Inc.Get => false | _ => true end.

Definition judged_read (T : trace) (m : Inc.reader) (key : string) (ctx : Inc.GetCtx) (v : Inc.CacheHandlerValue) : Prop :=
  (m ≠ Inc.GetSeed ∧ stored_read T (read_key m key) ctx (peeks m) v)
  ∨ (m ≠ Inc.GetStored ∧ seeded env = true ∧ seed_read T ctx (peeks m) v).

Lemma stored_read_mono T T' key ctx peek v : T `prefix_of` T' → stored_read T key ctx peek v → stored_read T' key ctx peek v.
Proof.
  intros Hp (je & se & raw & ttl & entry & jm & sm & c & He & Ht & Hr & Hj & Hm & Hc & H).
  exists je, se, raw, ttl, entry, jm, sm, c.
  split_and!; [by eapply prefix_lookup_Some|done|done|done|by eapply prefix_lookup_Some| |apply H..].
  eapply sampled_mono; [done| |done]. by apply prefix_length.
Qed.

Lemma seed_read_mono T T' ctx peek v : T `prefix_of` T' → seed_read T ctx peek v → seed_read T' ctx peek v.
Proof.
  intros Hp (seed & jm & sm & c & Hm & Hc & H). exists seed, jm, sm, c.
  split_and!; [by eapply prefix_lookup_Some| |apply H..]. eapply sampled_mono; [done| |done]. by apply prefix_length.
Qed.

Lemma judged_read_mono T T' m key ctx v : T `prefix_of` T' → judged_read T m key ctx v → judged_read T' m key ctx v.
Proof.
  intros Hp [[? H]|(? & ? & H)]; [left|right]; (split; [done|]); [by eapply stored_read_mono|split; [done|]].
  by eapply seed_read_mono.
Qed.

(** ** The methods *)

Lemma answer_value ctx peek a b lm now w ex v : Inc.v_value (Inc.answer ctx peek a b lm now w ex v) = v.
Proof. unfold Inc.answer. destruct peek; [done|]. by destruct (_ || _). Qed.

Lemma wp_text (Q : trace → handler → () → Prop) R T key value ttl : good T →
  (∀ T', good T' → T `prefix_of` T' → Q T' (hnd (latest T')) tt) →
  WP Q R T (hnd (latest T)) (catch (ask (SetText key value ttl) (λ _, Ret tt)) (Ret tt)).
Proof.
  intros Hg HQ. apply wp_catch, wp_ask; [by apply good_kept|done|intros T' Hg' Hp; by apply HQ|].
  intros T' j s r Hg' Hp _ _ _. by apply HQ.
Qed.

Lemma wp_reconcileFetchTags (Q : trace → handler → Inc.cached → Prop) R T key value fallback request ttl : good T →
  (∀ T' v, good T' → T `prefix_of` T' → Q T' (hnd (latest T')) v) →
  WP Q R T (hnd (latest T)) (Inc.reconcileFetchTags (buildId env) key value fallback request ttl).
Proof.
  intros Hg HQ. unfold Inc.reconcileFetchTags. destruct value as [j|ms]; [by apply HQ|]. apply wp_bind. unfold Inc.read_fetch_tags.
  assert (∀ T' stored, good T' → T `prefix_of` T' → WP Q R T' (hnd (latest T'))
    (match capTags <$> request with
     | Some currentTags =>
         if forallb (λ tag, bool_decide (tag ∈ stored)) currentTags
         then Ret (Inc.CMembers (Inc.set_member ms "tags" (MJson (Inc.tags_json stored))))
         else bind (catch (ask (SetText (Inc.fetchTagsKey (buildId env) key) (stringify (Inc.tags_json currentTags)) (Z.max 1 ttl))
                     (λ _, Ret tt)) (Ret tt)) (λ _, Ret (Inc.CMembers (Inc.set_member ms "tags" (MJson (Inc.tags_json currentTags)))))
     | None => Ret (Inc.CMembers (Inc.set_member ms "tags" (MJson (Inc.tags_json stored))))
     end)) as Hrest.
  { intros T' stored Hg' Hp. destruct (capTags <$> request) as [cur|]; [|by apply HQ]. destruct (forallb _ cur); [by apply HQ|].
    apply wp_bind, wp_text; [done|]. intros T2 Hg2 Hp2. apply HQ; [done|by etrans]. }
  apply wp_catch, wp_ask; [by apply good_kept|done|intros; by apply Hrest|].
  intros T' j s r Hg' Hp _ _ Hr. cbn [serve] in Hr. injection Hr as <-.
  destruct (fst <$> texts (srv s) !! _); by apply Hrest.
Qed.

Lemma wp_reconciled (Q : trace → handler → Inc.cached → Prop) R T key ctx value fallback ttl : good T →
  (∀ T' v, good T' → T `prefix_of` T' → (Inc.is_fetch (Inc.g_kind ctx) = false → v = value) → Q T' (hnd (latest T')) v) →
  WP Q R T (hnd (latest T)) (Inc.reconciled (buildId env) key ctx value fallback ttl).
Proof.
  intros Hg HQ. unfold Inc.reconciled. destruct (Inc.is_fetch _); [|by apply HQ]. apply wp_await.
  apply wp_reconcileFetchTags; [done|]. intros T' v Hg' Hp. split; [by apply good_kept|]. intros T2 Hg2 Hp2.
  apply HQ; [done|by etrans|done].
Qed.

Lemma wp_seedFallback (Q : trace → handler → option Inc.CacheHandlerValue → Prop) R T key ctx peek : good T →
  (∀ T' r, good T' → T `prefix_of` T' → (∀ v, r = Some v → seeded env = true ∧ seed_read T' ctx peek v) → Q T' (hnd (latest T')) r) →
  WP Q R T (hnd (latest T)) (Inc.seedFallback (buildId env) (seeded env) key ctx peek).
Proof.
  intros Hg HQ. unfold Inc.seedFallback. destruct (seeded env) eqn:Hseeded; [|by apply HQ]. cbn [negb]. apply wp_catch. cbn [wp].
  split; [by apply good_kept|].
  assert (∀ T', good T' → T `prefix_of` T' → Q T' (hnd (latest T')) None) as Hnone by (intros; by apply HQ).
  intros T1 r Hg1 Hp1. destruct r as [?|[[seed|]|]]; try (by apply Hnone). apply wp_bind.
  apply wp_reconciled; [done|]. intros T2 v Hg2 Hp2 Hv. cbv zeta. assert (T `prefix_of` T2) as Hp02 by by etrans. apply wp_await.
  apply wp_tagStates; [done|intros; apply Hnone; [done|by etrans]|].
  intros T3 j s m Hg3 Hp3 Hj Hs [Hm _]. split; [by apply good_kept|]. intros T4 Hg4 Hp4. apply wp_await.
  pose proof (prefix_length _ _ Hp4). pose proof (lookup_lt_Some _ _ _ Hs). assert (T `prefix_of` T4) as Hp04 by (etrans; [done|by etrans]).
  apply (wp_sample _ _ _ _ j); [done|lia|intros; apply Hnone; [done|by etrans]|].
  intros T5 c Hg5 Hp5 Hc. split; [by apply good_kept|]. intros T6 Hg6 Hp6. assert (T4 `prefix_of` T6) as Hp46 by by etrans.
  rewrite (expired_agree _ _ _ (twice_manifest (shared s))) by (by apply twice_agree).
  rewrite (stale_agree _ _ _ (twice_manifest (shared s))) by (by apply twice_agree).
  destruct (areTagsExpired _ _ _ _) eqn:He; cbn [wp]; [apply Hnone; [done|by etrans]|]. apply HQ; [done|by etrans|].
  intros x [= <-]. split; [done|]. exists seed, j, s, c.
  cbv zeta. rewrite !answer_value. split_and!; [eapply prefix_lookup_Some; [exact Hs|by etrans]| |exact He|done|done].
  eapply sampled_mono; [exact Hp6| |exact Hc]. by apply prefix_length.
Qed.

Lemma wp_stored_verdict (Q : trace → handler → option Inc.CacheHandlerValue → Prop) R T0 T key ctx peek je se raw ttl entry :
  good T → T0 `prefix_of` T → (∀ T', good T' → T0 `prefix_of` T' → R T' (hnd (latest T'))) →
  T !! je = Some se → texts (srv se) !! Inc.incKey (buildId env) key = Some (raw, ttl) → Inc.parseStoredEntry raw = Some entry →
  (∀ T' r, good T' → T0 `prefix_of` T' → (∀ v, r = Some v → stored_read T' key ctx peek v) → Q T' (hnd (latest T')) r) →
  WP Q R T (hnd (latest T)) (Inc.stored_verdict (from_base64 env) (buildId env) key ctx peek entry).
Proof.
  intros Hg Hp0 HR Hje Htext Hparse HQ. unfold Inc.stored_verdict.
  destruct (decode (Inc.e_value entry)) as [value|] eqn:Hdec; [|by apply HR]. apply wp_bind.
  pose proof (lookup_lt_Some _ _ _ Hje).
  apply wp_reconciled; [done|]. intros T2 v Hg2 Hp2 Hv. cbv zeta. apply wp_await.
  assert (T0 `prefix_of` T2) as Hp02 by by etrans. pose proof (prefix_length _ _ Hp2).
  apply wp_tagStates; [done|intros; apply HR; [done|by etrans]|].
  intros T3 j s m Hg3 Hp3 Hj Hs [Hm _]. split; [by apply good_kept|]. intros T4 Hg4 Hp4. apply wp_await.
  pose proof (prefix_length _ _ Hp4). pose proof (lookup_lt_Some _ _ _ Hs). assert (T2 `prefix_of` T4) as Hp24 by by etrans.
  apply (wp_sample _ _ _ _ j); [done|lia|intros; apply HR; [done|]; etrans; [exact Hp02|by etrans]|].
  intros T5 c Hg5 Hp5 Hc. split; [by apply good_kept|]. intros T6 Hg6 Hp6. assert (T4 `prefix_of` T6) as Hp46 by by etrans.
  assert (T2 `prefix_of` T6) as Hp26 by by etrans. assert (T0 `prefix_of` T6) as Hp06 by by etrans.
  rewrite (expired_agree _ _ _ (twice_manifest (shared s))) by (by apply twice_agree).
  rewrite (stale_agree _ _ _ (twice_manifest (shared s))) by (by apply twice_agree).
  destruct (areTagsExpired _ _ _ _) eqn:He; cbn [wp]; [by apply HQ|]. apply HQ; [done..|].
  intros x [= <-]. exists je, se, raw, ttl, entry, j, s, c. cbv zeta. rewrite !answer_value.
  split_and!; [|done|done|lia|by eapply prefix_lookup_Some; [exact Hs|etrans]| |exact He|done|].
  - eapply prefix_lookup_Some; [exact Hje|by etrans].
  - eapply sampled_mono; [exact Hp6| |exact Hc]. by apply prefix_length.
  - intros Hf. by rewrite (Hv Hf).
Qed.

Lemma wp_getImpl (Q : trace → handler → option Inc.CacheHandlerValue → Prop) R T key ctx skipSeed peek : good T →
  (∀ T' r, good T' → T `prefix_of` T' →
    (∀ v, r = Some v → stored_read T' key ctx peek v ∨ (skipSeed = false ∧ seeded env = true ∧ seed_read T' ctx peek v)) →
    Q T' (hnd (latest T')) r) →
  WP Q R T (hnd (latest T)) (Inc.getImpl (from_base64 env) (buildId env) (seeded env) key ctx skipSeed peek).
Proof.
  intros Hg HQ. assert (∀ T', good T' → T `prefix_of` T' → Q T' (hnd (latest T')) None) as Hnone by (intros; by apply HQ).
  unfold Inc.getImpl. cbv zeta. apply wp_catch, wp_ask; [by apply good_kept|done|intros; by apply Hnone|].
  intros T1 je se r Hg1 Hp1 Hje Hse Hr. cbn [serve] in Hr. injection Hr as <-.
  assert (WP Q (λ T h, WP Q R T h (Ret None)) T1 (hnd (latest T1))
    (if skipSeed then Ret None else Inc.seedFallback (buildId env) (seeded env) key ctx peek)) as Hmiss.
  { destruct skipSeed; [by apply Hnone|]. apply wp_seedFallback; [done|]. intros T' r Hg' Hp Hr.
    apply HQ; [done|by etrans|]. intros v Hv. right. split; [done|]. by apply Hr. }
  destruct (texts (srv se) !! Inc.incKey (buildId env) key) as [[raw ttl]|] eqn:Ht; cbn [fmap option_fmap option_map fst]; [|done].
  destruct (is_empty raw); [done|]. destruct (Inc.parseStoredEntry raw) as [entry|] eqn:Hparse; [|done].
  eapply wp_stored_verdict with (T0 := T); [done|done|intros; by apply Hnone|exact Hse|exact Ht|exact Hparse|].
  intros T' r Hg' Hp Hr. apply HQ; [done|done|]. intros v Hv. left. by apply Hr.
Qed.

Lemma wp_read (Q : trace → handler → option Inc.CacheHandlerValue → Prop) R T m key ctx : good T →
  (∀ T' r, good T' → (∀ v, r = Some v → judged_read T' m key ctx v) → Q T' (hnd (latest T')) r) →
  WP Q R T (hnd (latest T))
    (Inc.read_program (from_base64 env) (decodeURIComponent env) (buildId env) (seeded env) m key ctx).
Proof.
  intros Hg HQ. unfold Inc.read_program. destruct m; [apply wp_getImpl|apply wp_seedFallback|apply wp_getImpl..]; try done;
    intros T' r Hg' _ Hr; (apply HQ; [done|]); intros v Hv; specialize (Hr v Hv).
  - destruct Hr as [Hr|[? _]]; [by left|done].
  - right. split; [done|exact Hr].
  - destruct Hr as [Hr|(_ & Hr)]; [by left|by right].
  - destruct Hr as [Hr|(_ & Hr)]; [by left|by right].
Qed.

Lemma wp_write T key data ctx : good T →
  WP (λ T h _, kept T h) kept T (hnd (latest T))
    (Inc.set (to_base64 env) (decodeURIComponent env) (buildId env) (maxBytes env) key data ctx).
Proof.
  intros Hg. pose proof (good_kept T Hg) as Hk. unfold Inc.set. cbv zeta.
  destruct (Inc.extractTags _ _) as [tags|]; [|done]. destruct (Inc.write_ttl _ _) as [ttl|]; [|done].
  cbn [wp]. destruct (_ <? _); [done|]. apply wp_catch, wp_ask; [done|done|intros; by apply good_kept|].
  intros T' j s r Hg' _ _ _ _. unfold Inc.write_fetch_tags. destruct data as [ms|]; [|by apply good_kept].
  destruct (Inc.fetch_data _); [|by apply good_kept]. cbv zeta. apply wp_text; [done|]. intros. by apply good_kept.
Qed.

Lemma wp_revalidateTag T tags d : good T → WP (λ T h _, kept T h) kept T (hnd (latest T)) (Inc.revalidateTag tags d).
Proof.
  intros Hg. pose proof (good_kept T Hg) as Hk. unfold Inc.revalidateTag. cbv zeta. pose proof (chunk_not_epoch tags) as Hc.
  destruct (filterManifestTags tags) as [|x l]; [done|]. apply wp_catch. cbn [wp].
  apply wp_send; [done|intros c t; apply Hc|intros; by apply good_kept|done].
Qed.

(** ** Every run *)

Definition post (T : trace) (t : task) (a : result) : Prop :=
  match t, a with
  | Called (CGet (Some inv) _ softTags), RGot (Some e) => all_known T → fresh_hit T inv softTags e
  | Called (CRead m key ctx), RCached (Some v) => judged_read T m key ctx v
  | _, _ => True
  end.

Lemma wp_returns {A} (Q : trace → handler → result → Prop) R T h (f : A → result) p :
  WP (λ T h a, Q T h (f a)) R T h p → WP Q R T h (returns f p).
Proof. intros H. by apply wp_bind. Qed.

Lemma warms_ok w T : warm_ok T w → good T → thread_wp env good kept warm_ok post (Warming w) T (warm_thread env w).2.
Proof.
  intros Hw Hg. unfold thread_wp, warm_thread. cbn [snd]. apply wp_returns. eapply wp_mono; [| |by apply wp_warm_program]; done.
Qed.

Lemma calls_ok c T : good T → thread_wp env good kept warm_ok post (Called c) T (program env c).
Proof.
  intros Hg. unfold thread_wp.
  destruct c as [[inv|] k softTags|store k| |store tags|tags d|tags|m k ctx|k data ctx|tags d]; cbn [program]; apply wp_returns.
  - apply wp_get_prepared; [done|]. intros h [e|] Hk He; (split; [done|]); [|done]. exact (He e eq_refl).
  - apply wp_get_unprepared; [done|]. intros T' r Hg'. split; [by apply good_kept|done].
  - eapply wp_mono; [| |by apply wp_set]; done.
  - eapply wp_mono; [| |by apply wp_prepare]; done.
  - eapply wp_mono; [| |by apply wp_getExpiration]; done.
  - eapply wp_mono; [| |by apply wp_updateTags]; done.
  - eapply wp_mono; [| |by apply wp_hasTagUpdates]; done.
  - apply wp_read; [done|]. intros T' [v|] Hg' Hv; (split; [by apply good_kept|]); [|done]. exact (Hv v eq_refl).
  - eapply wp_mono; [| |by apply wp_write]; done.
  - eapply wp_mono; [| |by apply wp_revalidateTag]; done.
Qed.

Lemma runs_good s es : is_Some (epoch_of (fields (tagStore s))) →
  let T := history env (boot s) es in
  good T ∧ threads_ok env good kept warm_ok post T.
Proof.
  intros Hs. apply run_adequate; [apply good_kept|apply good_extend|apply warm_mono|apply calls_ok|apply warms_ok|by apply good_boot].
Qed.

(** ** Theorems *)

(** C4. In every interleaving of the methods of a process, its background warms, the shared store and
    the other processes, with answers lost or late and clocks that jump, a staged read that hits the
    local front serves an entry that is fresh by the full rule: judged with its tags and the implicit
    tags of the read, against the shared manifest of a moment no older than the epoch its invocation
    was prepared with, at the time of the read.  The condition is that the preflights of the run were
    answered; [unanswered_preflight] shows that it is needed. *)
Theorem staged_hit_fresh s es i inv cacheKey softTags e :
  let T := history env (boot s) es in
  is_Some (epoch_of (fields (tagStore s))) → all_known T →
  threads (run env (boot s) es) !! i
  = Some (Called (CGet (Some inv) cacheKey softTags), Ret (RGot (Some e))) →
  fresh_hit T inv softTags e.
Proof.
  cbv zeta. intros Hs Ha Hi. destruct (runs_good s es Hs) as [_ Ht]. rewrite <- history_latest in Hi.
  destruct (Ht _ _ _ Hi) as (T0 & Hp & _ & Hpost). eapply fresh_hit_mono; [exact Hp|]. apply Hpost. by eapply all_known_prefix.
Qed.

(** C34. In every run the front lists a key once, its byte count is the sum of the sizes of its entries,
    at most 50 MiB and at most 10000 entries stay in it, and at most 64 warms are in progress. *)
Theorem front_bounded s es : is_Some (epoch_of (fields (tagStore s))) →
  bounded (hnd (run env (boot s) es)).
Proof. intros Hs. destruct (runs_good s es Hs) as [Hg _]. rewrite <- history_latest. by apply good_kept. Qed.

(** C25. In every interleaving, a read of the incremental handler that returns a value either found a
    stored entry whose tags, read at a state that is not older than the one it was read at, do not
    expire it on the clock sampled then, or took a build artifact that no event of the manifest has
    expired; and it tells the caller exactly the staleness its tags and its window say.  getStored
    returns stored entries only, getSeed build artifacts only. *)
Theorem reads_judged s es i m key ctx v :
  is_Some (epoch_of (fields (tagStore s))) →
  threads (run env (boot s) es) !! i = Some (Called (CRead m key ctx), Ret (RCached (Some v))) →
  judged_read (history env (boot s) es) m key ctx v.
Proof.
  intros Hs Hi. destruct (runs_good s es Hs) as [_ Ht]. rewrite <- history_latest in Hi.
  destruct (Ht _ _ _ Hi) as (T0 & Hp & _ & Hpost). eapply judged_read_mono; [exact Hp|exact Hpost].
Qed.
End Programs.

(** ** Runs of an entry tagged "t" *)

(** A configuration whose base64 is not used. *)
Definition demo_env : config := mkConfig "b" 1000 false Some (λ _, "") (λ _, []) z_text.

Definition demo_meta : string := stringify (meta_json (JNum (NInt 100)) ["t"] (Some 5) (Some 1000) (Some 1000)).
Definition demo_server : server :=
  mkServer {[ "k8s:b:entry:k" := mkStored (Some demo_meta) (Some "old") None ]} ∅ (mkStore ∅ None).
Definition demo_hit : CacheEntry := mkCacheEntry "old" ["t"] (Some 5) 200 1000 1000.

(** A miss that warms the front with the implicit tag "s", and a second staged read. *)
Definition demo_run : list event :=
  [SetClocks 200 200; Begin CPrepare; Serve 0; Run 0; Begin (CGet (Some 0%nat) "k" ["s"]); Run 1;
   Serve 2; Serve 2; Run 2; Serve 2; Run 2; Run 2; Run 2; Run 2; Run 2;
   Begin CPrepare; Serve 3; Run 3; Begin (CGet (Some 1%nat) "k" ["s"]); Run 4].

Lemma staged_hit_fresh_witness : fresh_hit (history demo_env (boot demo_server) demo_run) 1 ["s"] demo_hit.
Proof.
  apply (staged_hit_fresh demo_env demo_server demo_run 4 1 "k" ["s"] demo_hit).
  - by exists 0.
  - unfold all_known, known. apply Forall_forall. intros m Hm. apply Forall_forall. intros x Hx.
    assert (forallb (λ m, forallb (λ x, match i_epoch x with Some _ => true | None => false end) (invocations (hnd m)))
      (history demo_env (boot demo_server) demo_run) = true) as H by by vm_compute.
    rewrite forallb_In in H. specialize (H m Hm). rewrite forallb_In in H. specialize (H x Hx). by destruct (i_epoch x).
  - by vm_compute.
Defined.

Lemma front_bounded_witness : bounded (hnd (run demo_env (boot demo_server) demo_run)).
Proof. apply (front_bounded demo_env demo_server demo_run). by exists 0. Defined.

(** A page of one minute tagged "t", read after its minute. *)
Definition demo_page : list (string * member) := [("kind", MJson (JStr "APP_ROUTE")); ("status", MJson (JNum (NInt 200)))].
Definition demo_text : string :=
  stringify (Inc.entry_json (λ _, "") (JNum (NInt 100)) (Some demo_page) ["t"] 120 (Some 60) None).
Definition demo_texts : server := mkServer ∅ {[ "k8s:b:inc:/a" := (demo_text, None) ]} (mkStore ∅ None).
Definition demo_ctx : Inc.GetCtx := Inc.mkGetCtx None None None None.

Definition read_run : list event :=
  [SetClocks 70000 70200; Begin (CRead Inc.GetPeek "/a" demo_ctx); Serve 0; Serve 0; Run 0; Serve 0; Run 0; Run 0; Run 0].

Lemma reads_judged_witness :
  judged_read demo_env (history demo_env (boot demo_texts) read_run) Inc.GetPeek "/a" demo_ctx
    (Inc.mkValue (twice 100 - 400) (Inc.CMembers demo_page) true).
Proof.
  apply (reads_judged demo_env demo_texts read_run 0).
  - by exists 0.
  - by vm_compute.
Defined.

(** The preflight of thread 0 fails, a local updateTags clears the epoch that a second one read, and the
    staged read of the failed one warms the front while no epoch is known; the next preflight finds no
    epoch to compare and keeps that entry, although its tag has been revalidated since. *)
Definition leak_run : list event :=
  [SetClocks 200 200; Begin CPrepare; Reject 0 false; Run 0; Begin CPrepare; Serve 1; Run 1;
   Begin (CUpdateTags ["x"] None); Run 2; Serve 2; Run 2; Begin (CGet (Some 0%nat) "k" []); Run 3;
   Serve 4; Serve 4; Run 4; Serve 4; Run 4; Run 4; Run 4; Run 4; Run 4;
   PeerUpdate ["t"] 200 None; Begin CPrepare; Serve 5; Run 5; Begin (CGet (Some 2%nat) "k" []); Run 6].

(** The last staged read serves an entry that the manifest its preflight saw has expired. *)
Lemma unanswered_preflight :
  let m := run demo_env (boot demo_server) leak_run in
  thread m 6 = Ret (RGot (Some demo_hit))
  ∧ (i_epoch <$> invocations (hnd m) !! 2%nat) = Some (epoch_at m)
  ∧ evaluateEntry (mkEntry 100 1000 1000 ["t"]) (shared m) 200 = Expired.
Proof. by vm_compute. Qed.

End CacheRuns.
